(* ===== verification/_CoqProject ===== *)
-Q . S2P
Prelude.v
Text.v
Bytes.v
Sha256.v
Float64.v
Blockhash.v
Policy.v
Lru.v
GoHeap.v
Gdsf.v
GdsfHeap.v
GdsfInv.v
GdsfRefine.v
Store.v
Evictor.v
Concurrent.v
Linearize.v
Wakeup.v
Relief.v
ColdTier.v
Server.v
Handlers.v
Grain.v
Answers.v
Ring.v
Router.v
Coord.v
Leases.v
Replicator.v
Replicas.v
Loadgen.v
Workload.v
Run.v
LoadMain.v
System.v
Fleet.v
Workers.v
Failover.v
Node.v
Shutdown.v
Metrics.v
Spot.v
Chaos.v
Flags.v
Commands.v
