(* ===== verification/Prelude.v ===== *)
(** * Verification of the distributed KV cache

    The program (Go sources under [src/]) is a sharded cache of transformer KV
    blocks.  A block is named by a chained SHA-256 hash of the model and of all
    the tokens up to its end; a client hashes its prompt, finds the owners of the
    prompt on a consistent-hash ring, asks them which leading blocks are present,
    fetches those and writes the rest.  A shard keeps blocks in a striped map,
    evicts them in the background under an LRU or a tenant-aware GDSF policy,
    demotes what it evicts to a cold tier, and copies each write to the replicas.

    ** How the parts meet

    [cmd/loadgen] (client) -> [cluster.Router] (ring + connections, driven by
    [coord.WatchMembers]) -> [server.Server] handlers -> [cache.Store] ->
    [cache.EvictionPolicy]; the [cache.Evictor] calls the store's eviction, which
    hands blocks to the [coldtier.Tier]; [Server.Fetch] reads the tier on a miss;
    [Server.Write] queues a job for the [server.Replicator], which streams it to
    the [Replicate] handler of another node.  [cmd/cache-server] builds a node out
    of these, counts what it does in [internal/metrics] and takes it down on a
    signal or on the notice [internal/spot] polls for; [cmd/chaos] kills and
    restarts nodes under a verifying [cmd/loadgen].

    ** Files, and the code each one models

    - Prelude: integer wraps, sums over maps and lists, tactics, the hint
      database [kv].
    - Bytes: byte strings, fixed-width little- and big-endian integers, [[32]byte].
    - Sha256: FIPS 180-4, executable ([crypto/sha256]).
    - Float64: Go's [float64] on the Standard Library's [SpecFloat], and what the
      eviction arithmetic needs of it.
    - Blockhash: [internal/blockhash/blockhash.go], [ChainBlocks] and [Chain].
    - Policy: [internal/cache/eviction.go] and [entry.go]; the class
      [EvictionPolicy] is the Go interface, [PolicyLaws] what the store relies on.
    - Lru: [internal/cache/lru.go] on [container/list]; [LruSpec] is the reference
      with use times.  Instance of [PolicyLaws].
    - GoHeap: [container/heap] over the class [HeapInterface].
    - Gdsf: [internal/cache/gdsf.go]: pointer memory, a heap per tenant, both
      fairness modes; [GdsfSpec] is the reference without heaps or pointers.
      GdsfHeap (one tenant's heap), GdsfInv (the invariants and the three
      mutations) and GdsfRefine (the victim loops, the methods and runs of them;
      instances of [PolicyLaws] and [QuotaLaws]) hold the proofs.
    - Store: [internal/cache/store.go], state [Store] (sixteen stripes, policy,
      byte total, watermarks, eviction signal, the spiller's calls), one function
      per method; [FlatStore] is the reference, one finite map.
    - Evictor: [internal/cache/evictor.go]: the loop of [Run] as the step relation
      [ev_step], in which other goroutines call the store between any two of its
      accesses; [on_nudge] and [on_tick] are its branches as functions, for a drain
      or a sweep that no call falls into.
    - Concurrent: [store.go] and [evictor.go] again, one lock, atomic or channel
      operation at a time: goroutines inside the store beside the evictor's loop,
      and the object with atomic calls.  Linearize relates the two; Wakeup shows
      that no nudge is lost and that calls finish.
    - Relief: schedules of Concurrent's steps without new calls: the measure they
      decrease and what holds where they end.
    - ColdTier: [internal/coldtier/coldtier.go] and [s3.go]: framing, the in-memory
      tier, the S3 tier's bounded queue and workers as the labelled steps [s3_step],
      with runs [s3_run], over an abstract bucket; the class [ColdTier] is the Go interface [Tier].
    - Server: [internal/server/server.go]: each RPC handler on explicit streams,
      whose sends, receives and closing answer ([SendAndClose]) may fail;
      [server_step] for a sequence of requests.
    - Handlers: the same handlers as programs of single accesses to the store, the
      tier and the replicator, run alone ([exec]) or beside each other ([live_step]).
    - Grain: Handlers over Concurrent: the handlers are goroutines that enter and
      leave the store's methods ([fine_step]).  Answers: they all finish.
    - Ring: [internal/ring/ring.go]; [owners], the clockwise order, is the
      reference.
    - Router: [internal/cluster/router.go]: ring and pool under one lock.
    - Coord: [internal/coord/membership.go]: [WatchMembers], [DriveRouter],
      [Register] and the client against etcd's answers.
    - Leases: processes that make [Register]'s calls one at a time, die, restart and
      release ([member_step]), over the class [Etcd], whose law says what leases,
      keys and the history of changes do.
    - Replicator: [internal/server/replicator.go]: queue, target choice, the
      stream to each peer.
    - Replicas: the copies of a block on the primary and on a replica, over the
      interleavings of the one's handlers and the deliveries to the other; and what
      becomes of the job of an acknowledged write in the replicator's queue.
    - Loadgen: [cmd/loadgen/main.go] (and [trace.go] for the prompts): payload,
      client side of each RPC, one request with failover.  The class [Shards] is
      the service as a client sees it.
    - Text: the string functions the flag parsers use ([strings], [strconv]).
    - Workload: the traffic of [cmd/loadgen/main.go]: tokens, hot prefixes, tenants
      and their bursts, the replayed trace.
    - Run: [run], the loop of one worker, and [report] over all workers.
    - LoadMain: [main] of the load generator around the workers: [trace.go], the
      membership drivers, the traffic of the flags, [runColdtierVerify],
      [printLoop].
    - System: nodes, tier, clients and faults composed: [step] on a [Cluster], one
      access of one handler at a time; what a client needs of any such system
      (section [clients], the class [ServedBy]).
    - Fleet: the same over the nodes of Grain, one lock, atomic or channel operation
      of one goroutine of one node at a time.
    - Workers: [main] of [cmd/loadgen] from the launch of the worker goroutines to
      the exit of the process, with [printLoop] beside them; a worker that panics
      takes the process down.
    - Failover: write, replication, death of the primary and the client's next
      request put together.
    - Node: [cmd/cache-server/main.go] up to the running node: flags, quotas,
      policy, registration, wiring.
    - Shutdown: its end, with the deferred calls, and [Close] of [s3.go], as steps
      interleaved with the RPCs that [GracefulStop] waits for, the evictor and the
      upload workers.
    - Metrics: [internal/metrics/metrics.go] over the class [Prometheus], and an
      instrumented node, [mon_step].
    - Spot: [internal/spot/spot.go] over any HTTP client, and the stop channel.
    - Chaos: [cmd/chaos/main.go]: [main], the fault loop and the restarts as
      interleaved steps over a set of processes.
    - Flags: [flag.Parse] and the integer syntax of [strconv], as the commands use
      them.
    - Commands: the flags the three programs declare, [main] of [cmd/loadgen] up to
      the workers, [main] of [cmd/chaos] up to the launch, and the command lines the
      driver gives the other two.

    ** What the theorems show

    - End to end: [System.no_violation_under_chaos], after any interleaving of
      requests, evictions, spills, replications (complete or cut), crashes and
      restarts, a client that checks payloads never meets a wrong byte, unless two
      store keys of the run collide under SHA-256; [verified_load_exits_zero]
      carries this through the workers' loops and the report.
      [chaos_costs_no_violation] and [verified_load_is_clean] are the same at the
      grain of the store's locks, by [fleet_refines]; [load_process_exits_zero]
      adds the worker goroutines and the exit of the process, and [main_finishes]
      says that the process does end.
      [primary_death_costs_no_hit]: what was acknowledged and replicated is still
      served after the primary's death, before and after the rings have dropped it.
    - The store: [store_refines_flat_map] (answers and state of one map),
      [store_hit_verified], [store_isolation], [store_bytes_exact],
      [store_policy_agree], [store_evict_one], [store_sweep_exact]; under any
      interleaving of its goroutines, [linearizable], [quiescent_exact],
      [calls_finish], [no_lost_wakeup], [eviction_relieves].
    - Policies: [gdsf_refines_reference], [gdsf_structure], [gdsf_floor_monotone],
      [gdsf_over_quota_exact], [lru_victim_is_least_recently_used],
      [lru_use_protects].
    - Eviction: [drain_terminates], [drain_reaches_low_water],
      [evictor_interleaving_safe].
    - Handlers: as one step, [fetch_serves_verified], [write_then_fetch],
      [batchFetch_is_fetches], [streamKV_exact], [assembleBlock_exact],
      [replicate_newest_no_forward]; [handlers_exact] relates them to their single
      accesses, over any interleaving of which [fetch_serves_resident],
      [acknowledged_write] and [requests_answered] hold;
      [handlers_over_goroutines]: the same handlers inside the store's locks show
      their clients nothing else, and [handlers_finish]: none waits for ever.
    - Replication: [queue_bounded_fifo], [forward_targets],
      [replication_end_to_end], [replicas_converge]; [write_acknowledged] follows a
      write from the handler into the replicator's queue, or out of it.
    - Placement: [lookupN_clockwise], [remove_fails_over],
      [add_moves_only_to_joiner].
    - Membership: [setMembers_reconciles], [routing_never_drifts],
      [watchMembers_mirrors_etcd], [driveRouter_follows_etcd]; end to end over
      registering processes, [ring_follows_leases], [membership_lost_only],
      [ended_lease_stays_ended]; [register_steps] relates a process to [Register].
    - Encodings: [Chain_binds_prefix], [ChainBlocks_covers_full_blocks],
      [cold_framing_exact], [s3_tier_safe].
    - The client: [oneRequest_accounts], [hot_requests_meet], [pickTenant_firing],
      [trace_replayed_in_order], [run_accounts], [run_terminates], [report_exact];
      its program: [loadTrace_exact], [trace_file_roundtrip], [membership_ready],
      [coldtier_pass_sound].
    - A node's life: [parseTenantQuotas_exact], [startup_error_exact],
      [startup_sound], [watch_exact], [notice_drains_node], [close_drains],
      [shutdown_drains_or_panics]; its counters: [metrics_account].
    - The chaos driver: [chaos_keeps_replicas], [chaos_tracks_processes],
      [prepare_exact]; and what it starts: [launched_node_joins],
      [launched_load_verifies].
    Some theorems record where the code does less than its comments say:
    [evict_leaves_cold_copy], [setMembers_keeps_old_address],
    [payload_not_unique], [tenants_over_trace_never_end],
    [failover_counts_hits_twice], [coldtier_miss_ends_search],
    [driver_leaks_nodes], [ceiling_not_hard], [version_reset_diverges], and the panic of [shutdown_drains_or_panics].

    ** Conventions

    A Go [int], [int64] or [uint64] is a [Z] and every operation that can leave its
    range is followed by [i64] or [u64]; a [float64] is a [spec_float].  A map is
    a [gmap]; where the code ranges over one, the order is an argument or any
    permutation ([MapOrder], [StripeRange], [merge_SortSlice] is one instance of
    any ascending sort).  The clock is an argument.  Pointers that are shared (the
    items of GDSF, the elements of the LRU list, the connections of a pool) are
    kept in an explicit store.  Hash collisions are never assumed away: a theorem
    that needs two hashed messages to differ concludes with the collision as an
    alternative.

    The load generator's counters (Run) are the exception to the wrapping: each grows
    by at most one per block or request of a run that the process has to wait for,
    and no run lasts long enough for 2^63 of those.  Sizes that come from a flag may
    be negative; a [make] of such a size panics, in [main] ([MakePanic]) or in a
    worker ([RunPanic]).

    The component [repl] of a node is the log of the calls its handlers make through
    the interface [replicaEnqueuer]; the queue behind that interface, which drops
    what finds it full, is [Replicator.queue].  A cluster step may replicate any job
    of the log, which covers every choice of what was dropped.

    ** Fuel

    [Server.send_chunks] runs with [chunk_fuel], one more than the number of
    chunks, and [streamKV_exact] holds for every block; [Ring.search_loop] runs
    with [n] steps, which halving needs at most; [Ring.walk] with the number of
    points, the code's own bound; the heap's sift loops with the heap's length;
    [Evictor.drain_loop] with one round more than there are resident blocks, and
    [drain_terminates] shows that more changes nothing.  [Run.run_loop] takes its
    rounds as fuel: [enough_fuel] says how many each mode needs and
    [run_terminates] that they suffice.  [Text.trim_loop] runs with the length of
    the text; [Fleet.run_handler], which only serves the witnesses, takes the turns of
    a handler as fuel; [LoadMain.load_loop], [Spot.watch_loop] and the rest are
    structural.

    ** Concurrency

    Inside the store the grain is the single lock, atomic or channel operation
    (Concurrent).  Every other file takes a call of the store as one step, which
    [linearizable] allows for the store, [handlers_over_goroutines] for a node's
    handlers and [fleet_refines] for the whole system; an eviction is two (the
    policy's answer, the removal), so a call may come between.  The router and the ring are one step per method (their
    lock).  A handler is a program of such calls: in System and Replicas every
    access of every handler is a step, with evictions, spills, deliveries and
    deaths in between; [OverHardLimit] reads the byte total outside every lock, so
    there its answer is arbitrary.

    The shutdown, the chaos driver and the S3 workers are step relations at the
    granularity of the code's locks and channel operations; membership is one at
    the granularity of the calls to etcd.

    ** Not modelled

    Generated gRPC and protobuf code; sockets, logging and the metrics HTTP
    endpoint; [encoding/json] (the class [JsonDecoder]), [strconv.ParseFloat] and
    [time.ParseDuration] (the class [NumberSyntax]); the Prometheus, gRPC, AWS and
    etcd client libraries (parameters with their documented behaviour); the wall
    clock; what [go build] does when [cmd/chaos] runs it; the default metrics sink
    [noopMetrics] (the handlers' reports are a list, which Metrics interprets). *)

From stdpp Require Export gmap strings list fin_maps pretty sorting.
From Stdlib Require Export ZArith Lia.

Declare Scope kv_scope.
Delimit Scope kv_scope with kv.
#[global] Open Scope kv_scope.

Create HintDb kv discriminated.
Create Rewrite HintDb kv_wrap.

(** ** Machine integers *)

(** [u64 z] is the value of a Go [uint64] computation whose mathematical
    result is [z]; [u32] likewise.  [i64] is the two's complement wrap of a
    Go [int64] (and of [int], which is 64 bits wide on every platform the
    server is built for). *)
Definition u64 (z : Z) : Z := z mod 2 ^ 64.
Definition u32 (z : Z) : Z := z mod 2 ^ 32.
Definition i64 (z : Z) : Z := (z + 2 ^ 63) mod 2 ^ 64 - 2 ^ 63.
Definition i32 (z : Z) : Z := (z + 2 ^ 31) mod 2 ^ 32 - 2 ^ 31.

(** [z] is representable as an [int64] / [uint64]. *)
Definition in_i64 (z : Z) : Prop := (- 2 ^ 63 <= z < 2 ^ 63)%Z.
Definition in_u64 (z : Z) : Prop := (0 <= z < 2 ^ 64)%Z.

(** Sum of a measure over the values of a finite map: the resident size of a
    stripe, the bytes of a tenant. *)
Definition map_sum `{Countable K} {V} (f : V -> Z) (m : gmap K V) : Z :=
  map_fold (fun _ v acc => f v + acc)%Z 0%Z m.

(** Sum of a measure over a list. *)
Definition list_sum_Z {A} (f : A -> Z) (l : list A) : Z :=
  foldr (fun x acc => f x + acc)%Z 0%Z l.

(** ** Tactics *)

(** Unfold the width-indexed wraps and let [lia] see the modulus. *)
Ltac wrap_unfold := unfold u64, u32, i64, i32, in_i64, in_u64 in *.
Ltac wrap_lia := wrap_unfold; Z.div_mod_to_equations; lia.

(** Case analysis on every [match] of the goal or of the hypotheses. *)
Ltac cases := repeat (case_match; simplify_eq/=).

(** ** Lemmas on machine integers *)

Section machine_integers.
Local Open Scope Z_scope.

Lemma i64_small z : in_i64 z -> i64 z = z.
Proof. intros. wrap_unfold. rewrite Z.mod_small; lia. Qed.

Lemma i64_range z : in_i64 (i64 z).
Proof. wrap_unfold. pose proof (Z.mod_pos_bound (z + 2 ^ 63) (2 ^ 64)). lia. Qed.

Lemma i64_add_l a b : i64 (i64 a + b) = i64 (a + b).
Proof.
  unfold i64. f_equal.
  replace ((a + 2 ^ 63) mod 2 ^ 64 - 2 ^ 63 + b + 2 ^ 63)
    with ((a + 2 ^ 63) mod 2 ^ 64 + b) by lia.
  rewrite Zplus_mod_idemp_l. f_equal. lia.
Qed.

Lemma i64_add_r a b : i64 (a + i64 b) = i64 (a + b).
Proof. rewrite Z.add_comm, i64_add_l. f_equal. lia. Qed.

Lemma i64_idem z : i64 (i64 z) = i64 z.
Proof. apply i64_small, i64_range. Qed.

Lemma u64_small z : in_u64 z -> u64 z = z.
Proof. intros. wrap_unfold. by apply Z.mod_small. Qed.

Lemma u64_range z : in_u64 (u64 z).
Proof. apply Z.mod_pos_bound. lia. Qed.

Lemma u64_idem z : u64 (u64 z) = u64 z.
Proof. apply u64_small, u64_range. Qed.

Lemma i32_u32 z : - 2 ^ 31 <= z < 2 ^ 31 -> i32 (u32 z) = z.
Proof. intros. wrap_lia. Qed.

Lemma i32_range z : - 2 ^ 31 <= i32 z < 2 ^ 31.
Proof. wrap_unfold. pose proof (Z.mod_pos_bound (z + 2 ^ 31) (2 ^ 32)). lia. Qed.

End machine_integers.

#[export] Hint Resolve i64_range u64_range : kv.
#[export] Hint Rewrite i64_add_l i64_idem u64_idem : kv_wrap.

(** ** Lists *)

Lemma head_elem_of {A} (l : list A) x : head l = Some x -> x ∈ l.
Proof. destruct l; [done|]. intros [= ->]. apply list_elem_of_here. Qed.

Lemma join_cons {A} (x : list A) (l : list (list A)) : mjoin (x :: l) = x ++ mjoin l.
Proof. done. Qed.

(** ** Sums *)

Section map_sums.
Context `{Countable K} {V : Type} (f : V -> Z).
Implicit Types m : gmap K V.
Local Open Scope Z_scope.

Lemma map_sum_empty : map_sum f (∅ : gmap K V) = 0.
Proof. apply map_fold_empty. Qed.

Lemma map_sum_insert_None m k v :
  m !! k = None -> map_sum f (<[k:=v]> m) = f v + map_sum f m.
Proof.
  intros. unfold map_sum.
  rewrite (map_fold_insert_L (fun _ v acc => f v + acc) 0); auto with lia.
Qed.

Lemma map_sum_delete m k v :
  m !! k = Some v -> map_sum f (delete k m) = map_sum f m - f v.
Proof.
  intros Hk. rewrite <- (insert_delete_id m k v Hk) at 2.
  rewrite map_sum_insert_None by apply lookup_delete_eq. lia.
Qed.

Lemma map_sum_insert_Some m k v w :
  m !! k = Some w -> map_sum f (<[k:=v]> m) = map_sum f m + f v - f w.
Proof.
  intros Hk. rewrite <- insert_delete_eq.
  rewrite map_sum_insert_None by apply lookup_delete_eq.
  rewrite (map_sum_delete m k w Hk). lia.
Qed.

Lemma map_sum_nonneg m : (forall k v, m !! k = Some v -> 0 <= f v) -> 0 <= map_sum f m.
Proof.
  induction m as [|k v m Hk IH] using map_ind; intros Hf.
  - rewrite map_sum_empty. lia.
  - rewrite map_sum_insert_None by done.
    pose proof (Hf k v ltac:(apply lookup_insert_eq)).
    enough (0 <= map_sum f m) by lia.
    apply IH. intros k' v' Hk'. apply (Hf k'). rewrite lookup_insert_ne; congruence.
Qed.

Lemma map_sum_lookup_le m k v :
  (forall k v, m !! k = Some v -> 0 <= f v) -> m !! k = Some v -> f v <= map_sum f m.
Proof.
  intros Hf Hk. pose proof (map_sum_delete m k v Hk) as Hd.
  enough (0 <= map_sum f (delete k m)) by lia.
  apply map_sum_nonneg. intros k' v' [_ Hk']%lookup_delete_Some. by eapply Hf.
Qed.

End map_sums.

Lemma map_sum_plus `{Countable K} {V} (f g : V -> Z) (m : gmap K V) :
  map_sum (fun v => f v + g v)%Z m = (map_sum f m + map_sum g m)%Z.
Proof.
  induction m as [|k v m Hk IH] using map_ind; [by rewrite !map_sum_empty|].
  rewrite !map_sum_insert_None by done. lia.
Qed.

Lemma map_sum_le `{Countable K} {V} (f g : V -> Z) (m : gmap K V) :
  (forall k v, m !! k = Some v -> f v <= g v)%Z -> (map_sum f m <= map_sum g m)%Z.
Proof.
  induction m as [|k v m Hk IH] using map_ind; intros Hle; [by rewrite !map_sum_empty|].
  rewrite !map_sum_insert_None by done. pose proof (Hle k v ltac:(apply lookup_insert_eq)).
  enough (map_sum f m <= map_sum g m)%Z by lia.
  apply IH. intros k' v' Hk'. apply (Hle k'). rewrite lookup_insert_ne; congruence.
Qed.

Section list_sums.
Context {A : Type} (f : A -> Z).
Local Open Scope Z_scope.

Lemma list_sum_cons x l : list_sum_Z f (x :: l) = f x + list_sum_Z f l.
Proof. done. Qed.

Lemma list_sum_ext (g : A -> Z) l :
  (forall x, x ∈ l -> f x = g x) -> list_sum_Z f l = list_sum_Z g l.
Proof.
  induction l as [|x l IH]; intros Hfg; [done|]. cbn [list_sum_Z foldr]. f_equal.
  - apply Hfg. by left.
  - apply IH. intros y Hy. apply Hfg. by right.
Qed.

Lemma list_sum_app l k : list_sum_Z f (l ++ k) = list_sum_Z f l + list_sum_Z f k.
Proof. induction l; simpl; lia. Qed.

Lemma list_sum_perm l k : l ≡ₚ k -> list_sum_Z f l = list_sum_Z f k.
Proof. induction 1; simpl; lia. Qed.

Lemma list_sum_insert l i x y :
  l !! i = Some y -> list_sum_Z f (<[i:=x]> l) = list_sum_Z f l + f x - f y.
Proof.
  revert i. induction l as [|z l IH]; intros [|i] Hi; simplify_eq/=; [lia|].
  rewrite (IH i Hi). lia.
Qed.

Lemma list_sum_filter (P : A -> Prop) `{!forall x, Decision (P x)} l :
  list_sum_Z f (filter P l) = list_sum_Z (fun x => if decide (P x) then f x else 0) l.
Proof.
  induction l as [|x l IH]; [done|]. rewrite filter_cons. cbn [list_sum_Z foldr].
  case_decide; [|done]. rewrite list_sum_cons, IH. done.
Qed.

Lemma list_sum_nonneg l : Forall (fun x => 0 <= f x) l -> 0 <= list_sum_Z f l.
Proof. induction 1; simpl; lia. Qed.

End list_sums.

Lemma list_sum_fmap {A B} (f : B -> Z) (g : A -> B) l : list_sum_Z f (g <$> l) = list_sum_Z (f ∘ g) l.
Proof. induction l as [|x l IH]; [done|]. cbn [fmap list_fmap]. rewrite !list_sum_cons, <- IH. done. Qed.

Lemma map_sum_to_list `{Countable K} {V} (f : V -> Z) (m : gmap K V) :
  map_sum f m = list_sum_Z (fun kv => f kv.2) (map_to_list m).
Proof.
  unfold map_sum. rewrite map_fold_foldr. unfold list_sum_Z.
  induction (map_to_list m) as [|[k v] l IH]; [done|]. simpl. by rewrite IH.
Qed.

