(* ===== verification/Text.v ===== *)
(** Go strings as the sources read them from flags: [strings.TrimSpace],
    [strings.Split], [strings.Cut] and [strconv.ParseInt] of the standard
    library, and the comma-separated lists that [cmd/cache-server], [cmd/chaos]
    and [cmd/loadgen] each parse with the same loop.

    A Go string is a sequence of bytes; white space is Unicode's, given by its
    UTF-8 encodings. *)

From Stdlib Require Import Ascii.
From S2P Require Import Prelude.

Abbreviation text := (list ascii).

Definition char (n : nat) : ascii := ascii_of_nat n.
Definition comma : ascii := char 44.
Definition equals : ascii := char 61.

(** ** White space *)

(** The encodings of the runes [unicode.IsSpace] accepts, those of ASCII first. *)
Definition spaces : list text := map (fun n => [char n]) [9; 10; 11; 12; 13; 32].
Definition wide_spaces : list text :=
  map (map char)
    ([[194; 133]; [194; 160]; [225; 154; 128]; [226; 128; 168]; [226; 128; 169]; [226; 128; 175];
      [226; 129; 159]; [227; 128; 128]] ++ map (fun n => [226; 128; n]) (seq 128 11)).
Definition white : list text := spaces ++ wide_spaces.

(** [l] without the prefix [w]. *)
Fixpoint strip (w l : text) : option text :=
  match w, l with
  | [], _ => Some l
  | c :: w, d :: l => if Ascii.eqb c d then strip w l else None
  | _ :: _, [] => None
  end.

(** The first of [ws] that is a prefix, taken off. *)
Fixpoint strip_any (ws : list text) (l : text) : option text :=
  match ws with
  | [] => None
  | w :: ws => match strip w l with Some l' => Some l' | None => strip_any ws l end
  end.

Fixpoint trim_loop (fuel : nat) (ws : list text) (l : text) : text :=
  match fuel with
  | O => l
  | S fuel => match strip_any ws l with Some l' => trim_loop fuel ws l' | None => l end
  end.
Definition trim (ws : list text) (l : text) : text := trim_loop (length l) ws l.

Definition trim_text (l : text) : text := rev (trim (map (@rev ascii) white) (rev (trim white l))).

(** [strings.TrimSpace] *)
Definition TrimSpace (s : string) : string :=
  String.string_of_list_ascii (trim_text (String.list_ascii_of_string s)).

(** ** Splitting *)

Fixpoint split_chars (sep : ascii) (cur l : text) : list text :=
  match l with
  | [] => [rev cur]
  | c :: l => if Ascii.eqb c sep then rev cur :: split_chars sep [] l else split_chars sep (c :: cur) l
  end.

(** [strings.Split] on a one-character separator. *)
Definition Split (s : string) (sep : ascii) : list string :=
  String.string_of_list_ascii <$> split_chars sep [] (String.list_ascii_of_string s).

(** [strings.Cut] on a one-character separator: before, after, and whether it
    occurs. *)
Fixpoint cut_chars (sep : ascii) (l : text) : text * text * bool :=
  match l with
  | [] => ([], [], false)
  | c :: l =>
      if Ascii.eqb c sep then ([], l, true)
      else let '(a, b, ok) := cut_chars sep l in (c :: a, b, ok)
  end.
Definition Cut (s : string) (sep : ascii) : string * string * bool :=
  let '(a, b, ok) := cut_chars sep (String.list_ascii_of_string s) in
  (String.string_of_list_ascii a, String.string_of_list_ascii b, ok).

(** ** Numbers *)

Definition digit (c : ascii) : option Z :=
  let n := Z.of_nat (nat_of_ascii c) in
  if (48 <=? n)%Z && (n <=? 57)%Z then Some (n - 48)%Z else None.

Fixpoint digits (acc : Z) (l : text) : option Z :=
  match l with
  | [] => Some acc
  | c :: l => d ← digit c; digits (10 * acc + d)%Z l
  end.

(** [strconv.ParseUint] in base 10, without its range check. *)
Definition parse_uint (l : text) : option Z :=
  match l with [] => None | _ => digits 0 l end.

(** [strconv.ParseInt(s, 10, 64)]; [None] is any error. *)
Definition ParseInt (s : string) : option Z :=
  match String.list_ascii_of_string s with
  | [] => None
  | c :: l =>
      if Ascii.eqb c (char 45) then
        n ← parse_uint l; if (n <=? 2 ^ 63)%Z then Some (- n)%Z else None
      else
        n ← parse_uint (if Ascii.eqb c (char 43) then l else c :: l);
        if (n <? 2 ^ 63)%Z then Some n else None
  end.

(** ** The comma-separated lists of the commands *)

(** [splitCSV] of [cache-server] and [chaos], [splitMembers] of [loadgen]: the
    same loop. *)
Definition splitCSV (s : string) : list string :=
  filter (fun v => v <> ""%string) (TrimSpace <$> Split s comma).

(** ** Trimming *)

Definition prefix_free (ws : list text) (l : text) : Prop := forall w, w ∈ ws -> ~ w `prefix_of` l.

Lemma strip_Some w l l' : strip w l = Some l' <-> l = w ++ l'.
Proof.
  revert l. induction w as [|c w IH]; intros [|d l]; cbn; try (split; intros; simplify_eq; done).
  destruct (Ascii.eqb_spec c d) as [->|Hne]; [|split; intros; simplify_eq; done].
  rewrite IH. split; intros; by simplify_eq.
Qed.

Lemma strip_None w l : strip w l = None <-> ~ w `prefix_of` l.
Proof.
  destruct (strip w l) as [l'|] eqn:E; split; try done.
  - intros Hn. exfalso. apply Hn. exists l'. by apply strip_Some.
  - intros _ [l' Hl]. apply (proj2 (strip_Some w l l')) in Hl. congruence.
Qed.

Lemma strip_any_None ws l : strip_any ws l = None <-> prefix_free ws l.
Proof.
  unfold prefix_free. induction ws as [|w ws IH]; cbn.
  { split; [intros _ w Hw; by apply elem_of_nil in Hw|done]. }
  destruct (strip w l) as [l'|] eqn:E.
  - split; [done|]. intros Hf. exfalso. apply (Hf w); [by left|]. exists l'. by apply strip_Some.
  - rewrite IH. split.
    + intros Hf w' [->|Hw]%elem_of_cons; [by apply strip_None|by apply Hf].
    + intros Hf w' Hw. apply Hf. by right.
Qed.

Lemma strip_any_Some ws l l' : strip_any ws l = Some l' -> exists w, w ∈ ws /\ l = w ++ l'.
Proof.
  induction ws as [|w ws IH]; [done|]. cbn. destruct (strip w l) as [l''|] eqn:E.
  - intros [= ->]. exists w. split; [by left|by apply strip_Some].
  - intros (w' & Hw & ->)%IH. exists w'. split; [by right|done].
Qed.

Lemma trim_fix ws l : prefix_free ws l -> trim ws l = l.
Proof. unfold trim. destruct l; [done|]. cbn [trim_loop length]. by intros ->%strip_any_None. Qed.

Lemma trim_loop_free ws fuel l : [] ∉ ws -> length l <= fuel -> prefix_free ws (trim_loop fuel ws l).
Proof.
  intros Hne. revert l. induction fuel as [|fuel IH]; intros l Hl; cbn [trim_loop].
  - destruct l; [|cbn in Hl; lia]. intros w Hw Hp. apply prefix_nil_inv in Hp. by subst.
  - destruct (strip_any ws l) as [l'|] eqn:E; [|by apply strip_any_None].
    apply strip_any_Some in E as (w & Hw & ->). apply IH.
    destruct w; [done|]. rewrite length_app in Hl. cbn in Hl. lia.
Qed.

Lemma trim_free ws l : [] ∉ ws -> prefix_free ws (trim ws l).
Proof. intros. by apply trim_loop_free. Qed.

Lemma prefix_free_prefix ws l l' : l `prefix_of` l' -> prefix_free ws l' -> prefix_free ws l.
Proof. intros Hp Hf w Hw Hwl. apply (Hf w Hw). by trans l. Qed.

Lemma trim_suffix ws l : exists k, l = k ++ trim ws l.
Proof.
  unfold trim. generalize (length l) as fuel. intros fuel. revert l.
  induction fuel as [|fuel IH]; intros l; cbn [trim_loop]; [by exists []|].
  destruct (strip_any ws l) as [l'|] eqn:E; [|by exists []].
  apply strip_any_Some in E as (w & _ & ->). destruct (IH l') as [k Hk].
  exists (w ++ k). by rewrite <- app_assoc, <- Hk.
Qed.

(** A text neither starts nor ends with white space. *)
Definition trimmed (l : text) : Prop := prefix_free white l /\ prefix_free (map (@rev ascii) white) (rev l).

Lemma white_nonempty : ([] ∉ white) /\ ([] ∉ map (@rev ascii) white).
Proof. split; vm_compute; intros H; repeat (apply elem_of_cons in H as [H|H]; [done|]); by apply elem_of_nil in H. Qed.

Lemma trim_text_trimmed l : trimmed (trim_text l).
Proof.
  destruct white_nonempty as [H1 H2]. unfold trim_text. split.
  - apply (prefix_free_prefix _ _ (trim white l)); [|by apply trim_free].
    destruct (trim_suffix (map (@rev ascii) white) (rev (trim white l))) as [k Hk].
    apply (f_equal (@rev ascii)) in Hk. rewrite rev_involutive, rev_app_distr in Hk.
    rewrite Hk at 2. by apply prefix_app_r.
  - rewrite rev_involutive. by apply trim_free.
Qed.

Lemma trim_text_fix l : trimmed l -> trim_text l = l.
Proof.
  intros [H1 H2]. unfold trim_text. rewrite (trim_fix white), (trim_fix (map (@rev ascii) white)) by done.
  apply rev_involutive.
Qed.

(** A trimmed word in the middle of a text: what precedes or follows it can only
    be taken off if white space occurs there. *)
Lemma trimmed_app ws a c l :
  prefix_free ws a -> (forall w, w ∈ ws -> c ∉ w) -> prefix_free ws (a ++ c :: l).
Proof.
  intros Ha Hc w Hw [k Hk].
  destruct (app_eq_inv _ _ _ _ Hk) as [(u & Hau & Hu)|(u & Hau & Hu)].
  - apply (Ha w Hw). by exists u.
  - destruct u as [|d u].
    + apply (Ha w Hw). exists []. by rewrite Hau, !app_nil_r.
    + cbn in Hu. simplify_eq. apply (Hc _ Hw), elem_of_app. right. by left.
Qed.

Lemma elem_of_rev {A} (x : A) l : x ∈ rev l <-> x ∈ l.
Proof. by rewrite !list_elem_of_In, <- in_rev. Qed.

(** ** Splitting and joining *)

Definition join_text (sep : ascii) (ls : list text) : text :=
  match ls with [] => [] | l :: ls => l ++ concat (map (cons sep) ls) end.

Lemma split_chars_word sep cur l k :
  sep ∉ l -> split_chars sep cur (l ++ sep :: k) = (rev cur ++ l) :: split_chars sep [] k.
Proof.
  revert cur. induction l as [|c l IH]; intros cur Hl; cbn.
  - by rewrite Ascii.eqb_refl, app_nil_r.
  - apply not_elem_of_cons in Hl as [Hc Hl].
    destruct (Ascii.eqb_spec c sep) as [->|_]; [done|]. rewrite IH by done. cbn. by rewrite <- app_assoc.
Qed.

Lemma split_chars_last sep cur l : sep ∉ l -> split_chars sep cur l = [rev cur ++ l].
Proof.
  revert cur. induction l as [|c l IH]; intros cur Hl; cbn; [by rewrite app_nil_r|].
  apply not_elem_of_cons in Hl as [Hc Hl].
  destruct (Ascii.eqb_spec c sep) as [->|_]; [done|]. rewrite IH by done. cbn. by rewrite <- app_assoc.
Qed.

Lemma split_join sep l ls :
  (forall x, x ∈ l :: ls -> sep ∉ x) -> split_chars sep [] (join_text sep (l :: ls)) = l :: ls.
Proof.
  revert l. induction ls as [|l' ls IH]; intros l Hs; cbn.
  - rewrite app_nil_r. apply split_chars_last, Hs. by left.
  - rewrite split_chars_word by (apply Hs; by left). f_equal. apply IH. intros x Hx. apply Hs. by right.
Qed.

Lemma cut_chars_word sep l k : sep ∉ l -> cut_chars sep (l ++ sep :: k) = (l, k, true).
Proof.
  induction l as [|c l IH]; intros Hl; cbn; [by rewrite Ascii.eqb_refl|].
  apply not_elem_of_cons in Hl as [Hc Hl].
  destruct (Ascii.eqb_spec c sep) as [->|_]; [done|]. by rewrite IH.
Qed.

Lemma cut_chars_spec sep l a b ok :
  cut_chars sep l = (a, b, ok) ->
  (sep ∉ a) /\ if ok then l = a ++ sep :: b else l = a /\ b = [].
Proof.
  revert a b. induction l as [|c l IH]; intros a b; cbn.
  - intros. simplify_eq. split; [apply not_elem_of_nil|done].
  - destruct (Ascii.eqb_spec c sep) as [->|Hc].
    + intros. simplify_eq. split; [apply not_elem_of_nil|done].
    + destruct (cut_chars sep l) as [[a' b'] ok']. intros [= <- <- <-].
      destruct (IH a' b' eq_refl) as [Ha Hl]. split; [by apply not_elem_of_cons|].
      destruct ok'; [by subst|]. destruct Hl as [-> ->]. done.
Qed.

Lemma split_chars_cons sep cur l : exists y ys, split_chars sep cur l = y :: ys.
Proof. revert cur. induction l as [|c l IH]; intros cur; cbn; [eauto|]. case_match; eauto. Qed.

Lemma split_chars_spec sep cur l :
  sep ∉ cur -> rev cur ++ l = join_text sep (split_chars sep cur l) /\
  (forall x, x ∈ split_chars sep cur l -> sep ∉ x).
Proof.
  revert cur. induction l as [|c l IH]; intros cur Hc; cbn.
  - split; [done|]. intros x ->%list_elem_of_singleton. by rewrite elem_of_rev.
  - destruct (Ascii.eqb_spec c sep) as [->|Hne].
    + destruct (IH [] (not_elem_of_nil _)) as [Hj Hs]. cbn in Hj. split.
      * destruct (split_chars_cons sep [] l) as (y & ys & E). rewrite E in *. cbn. f_equal.
        f_equal. exact Hj.
      * intros x [->|Hx]%elem_of_cons; [by rewrite elem_of_rev|by apply Hs].
    + destruct (IH (c :: cur)) as [Hj Hs]; [by apply not_elem_of_cons|].
      split; [|done]. cbn in Hj. by rewrite <- app_assoc in Hj.
Qed.

(** ** Decimal numbers *)

Lemma digit_pretty x : (x < 10)%N -> digit (pretty_N_char x) = Some (Z.of_N x).
Proof.
  intros Hx.
  assert (x = 0 \/ x = 1 \/ x = 2 \/ x = 3 \/ x = 4 \/ x = 5 \/ x = 6 \/ x = 7 \/ x = 8 \/ x = 9)%N by lia.
  by repeat (destruct_or!; subst).
Qed.

Lemma digits_app acc l k : digits acc (l ++ k) = (digits acc l ≫= fun a => digits a k).
Proof. revert acc. induction l as [|c l IH]; intros acc; cbn; [done|]. destruct (digit c); cbn; auto. Qed.

Lemma digits_pretty_go x s :
  (0 < x)%N -> exists k,
    String.list_ascii_of_string (pretty_N_go x s) = k ++ String.list_ascii_of_string s /\ k <> [] /\
    (forall c, c ∈ k -> is_Some (digit c)) /\ digits 0 k = Some (Z.of_N x).
Proof.
  revert s. induction x as [x IH] using (well_founded_induction N.lt_wf_0). intros s Hx.
  rewrite pretty_N_go_step by done.
  assert (Hd : digit (pretty_N_char (x mod 10)) = Some (Z.of_N (x mod 10))) by (apply digit_pretty, N.mod_lt; lia).
  destruct (decide (x / 10 = 0)%N) as [E|E].
  - rewrite E, pretty_N_go_0. exists [pretty_N_char (x mod 10)]. split_and!; [done|done| |].
    + intros c ->%list_elem_of_singleton. eauto.
    + cbn [digits]. rewrite Hd. cbn. f_equal. rewrite N.mod_small by (apply N.div_small_iff in E; lia). lia.
  - destruct (IH (x / 10)%N) with (s := String (pretty_N_char (x mod 10)) s) as (k & Hk & Hne & Hdig & Hv);
      [apply N.div_lt; lia|by apply N.neq_0_lt_0|].
    exists (k ++ [pretty_N_char (x mod 10)]). split_and!.
    + by rewrite Hk, <- app_assoc.
    + by destruct k.
    + intros c [Hc| ->%list_elem_of_singleton]%elem_of_app; eauto.
    + rewrite digits_app, Hv. cbn [digits mbind option_bind]. rewrite Hd. cbn. f_equal.
      pose proof (N.div_mod x 10). lia.
Qed.

(** The decimal digits of a positive number. *)
Definition decimal (n : Z) : text := String.list_ascii_of_string (pretty (Z.to_N n)).

Lemma decimal_spec n :
  (0 < n)%Z -> decimal n <> [] /\ (forall c, c ∈ decimal n -> is_Some (digit c)) /\ parse_uint (decimal n) = Some n.
Proof.
  intros Hn. unfold decimal, pretty, pretty_N. rewrite decide_False by lia.
  destruct (digits_pretty_go (Z.to_N n) "") as (k & Hk & Hne & Hd & Hv); [lia|].
  rewrite Hk, app_nil_r. split_and!; [done..|].
  unfold parse_uint. destruct k; [done|]. rewrite Hv. f_equal. lia.
Qed.

Lemma digit_range c : is_Some (digit c) -> (48 <= nat_of_ascii c <= 57)%nat.
Proof. unfold digit. intros [n Hn]. destruct (_ && _) eqn:E in Hn; [|done]. apply andb_prop in E as [?%Z.leb_le ?%Z.leb_le]. lia. Qed.

Lemma digit_ne c d : is_Some (digit c) -> digit d = None -> c <> d.
Proof. intros [n Hn] Hd ->. congruence. Qed.

Lemma ParseInt_decimal n :
  (0 < n < 2 ^ 63)%Z -> ParseInt (String.string_of_list_ascii (decimal n)) = Some n.
Proof.
  intros [Hn Hlt]. destruct (decimal_spec n Hn) as (Hne & Hd & Hv). unfold ParseInt.
  rewrite String.list_ascii_of_string_of_list_ascii. destruct (decimal n) as [|c l] eqn:E; [done|].
  assert (Hc : is_Some (digit c)) by (apply Hd; by left).
  destruct (Ascii.eqb_spec c (char 45)) as [Ec|_]; [by destruct (digit_ne c (char 45))|].
  destruct (Ascii.eqb_spec c (char 43)) as [Ec|_]; [by destruct (digit_ne c (char 43))|].
  rewrite Hv. cbn. by rewrite (proj2 (Z.ltb_lt _ _) Hlt).
Qed.

(** What [ParseInt] accepts fits an [int64]. *)
Lemma digits_nonneg acc l n : (0 <= acc)%Z -> digits acc l = Some n -> (0 <= n)%Z.
Proof.
  revert acc. induction l as [|c l IH]; intros acc Ha; cbn; [by intros [= <-]|].
  destruct (digit c) as [d|] eqn:E; [|done]. cbn. apply IH.
  unfold digit in E. case_match eqn:Eb; [|done]. apply andb_prop in Eb as [?%Z.leb_le ?%Z.leb_le].
  simplify_eq. lia.
Qed.

Lemma ParseInt_range s n : ParseInt s = Some n -> in_i64 n.
Proof.
  assert (Hu : forall l m, parse_uint l = Some m -> (0 <= m)%Z).
  { intros [|c l] m; [done|]. by apply digits_nonneg. }
  unfold ParseInt, in_i64. destruct (String.list_ascii_of_string s) as [|c l]; [done|]. case_match.
  - destruct (parse_uint l) as [m|] eqn:E; [|done]. cbn [mbind option_bind]. case_match eqn:Hb; [|done]. apply Z.leb_le in Hb.
    intros [= <-]. pose proof (Hu _ _ E). lia.
  - destruct (parse_uint _) as [m|] eqn:E; [|done]. cbn [mbind option_bind]. destruct (m <? 2 ^ 63)%Z eqn:Hb; [|done]. apply Z.ltb_lt in Hb.
    intros [= <-]. pose proof (Hu _ _ E). lia.
Qed.

(** The members of a list [splitCSV] returns are not empty and have no white
    space around them; a list of such words is read back. *)
Definition word (s : string) : Prop :=
  s <> ""%string /\ trimmed (String.list_ascii_of_string s) /\ comma ∉ String.list_ascii_of_string s.

Lemma TrimSpace_trimmed s : trimmed (String.list_ascii_of_string (TrimSpace s)).
Proof. unfold TrimSpace. rewrite String.list_ascii_of_string_of_list_ascii. apply trim_text_trimmed. Qed.

Lemma TrimSpace_fix s : trimmed (String.list_ascii_of_string s) -> TrimSpace s = s.
Proof. intros H. unfold TrimSpace. rewrite trim_text_fix by done. apply String.string_of_list_ascii_of_string. Qed.

Lemma trim_text_subset c l : c ∈ trim_text l -> c ∈ l.
Proof.
  unfold trim_text. rewrite elem_of_rev.
  destruct (trim_suffix (map (@rev ascii) white) (rev (trim white l))) as [k Hk].
  destruct (trim_suffix white l) as [k' Hk'].
  intros Hc. rewrite Hk'. apply elem_of_app. right. apply elem_of_rev. rewrite Hk. apply elem_of_app. by right.
Qed.

Lemma splitCSV_words s v : v ∈ splitCSV s -> word v.
Proof.
  unfold splitCSV. rewrite list_elem_of_filter, list_elem_of_fmap. intros (Hne & w & -> & Hw).
  split_and!; [done|apply TrimSpace_trimmed|].
  unfold TrimSpace. rewrite String.list_ascii_of_string_of_list_ascii. intros Hc%trim_text_subset.
  unfold Split in Hw. apply list_elem_of_fmap in Hw as (x & -> & Hx).
  rewrite String.list_ascii_of_string_of_list_ascii in Hc.
  by apply (proj2 (split_chars_spec comma [] (String.list_ascii_of_string s) (not_elem_of_nil _)) x Hx).
Qed.

Definition join (sep : ascii) (ls : list string) : string :=
  String.string_of_list_ascii (join_text sep (String.list_ascii_of_string <$> ls)).

Lemma Split_join sep l ls :
  (forall s, s ∈ l :: ls -> sep ∉ String.list_ascii_of_string s) -> Split (join sep (l :: ls)) sep = l :: ls.
Proof.
  intros Hs. unfold Split, join. rewrite String.list_ascii_of_string_of_list_ascii. cbn [fmap list_fmap].
  rewrite split_join.
  - rewrite <- fmap_cons, <- list_fmap_compose. rewrite <- (list_fmap_id (l :: ls)) at 2.
    apply list_fmap_ext. intros. apply String.string_of_list_ascii_of_string.
  - intros x Hx. rewrite <- fmap_cons in Hx. apply list_elem_of_fmap in Hx as (s & -> & Hin). by apply Hs.
Qed.

Lemma splitCSV_join l ls : (forall s, s ∈ l :: ls -> word s) -> splitCSV (join comma (l :: ls)) = l :: ls.
Proof.
  intros Hw. unfold splitCSV. rewrite Split_join by (intros s Hs; by apply Hw).
  assert (Ht : forall k, k ⊆ l :: ls -> filter (fun v => v <> ""%string) (TrimSpace <$> k) = k).
  { induction k as [|s k IH]; intros Hk; [done|]. cbn [fmap list_fmap].
    destruct (Hw s) as (Hne & Ht & _); [apply Hk; by left|].
    rewrite TrimSpace_fix by done. rewrite filter_cons_True by done. f_equal. apply IH.
    intros x Hx. apply Hk. by right. }
  by apply Ht.
Qed.

(** *** Words built from words and digits *)

(** No encoding of white space has a printable ASCII character. *)
Definition printable (c : ascii) : Prop := (33 <= nat_of_ascii c <= 126)%nat.

Lemma white_not_printable w c : w ∈ white -> c ∈ w -> ~ printable c.
Proof.
  assert (Hb : forallb (forallb (fun c => (nat_of_ascii c <=? 32) || (126 <? nat_of_ascii c))) white = true)
    by (by vm_compute).
  intros Hw Hc [H1 H2]. rewrite forallb_forall in Hb.
  specialize (Hb w ltac:(by apply list_elem_of_In)). rewrite forallb_forall in Hb.
  specialize (Hb c ltac:(by apply list_elem_of_In)).
  apply orb_prop in Hb as [?%Nat.leb_le|?%Nat.ltb_lt]; lia.
Qed.

Lemma prefix_free_printable (ws : list text) c l :
  [] ∉ ws -> (forall w, w ∈ ws -> c ∉ w) -> prefix_free ws (c :: l).
Proof.
  intros Hne Hc w Hw [k Hk]. destruct w as [|d w]; [done|]. cbn in Hk. simplify_eq.
  apply (Hc _ Hw). by left.
Qed.

Lemma trimmed_pair a sep l d :
  trimmed a -> printable sep -> printable d -> trimmed (a ++ sep :: l ++ [d]).
Proof.
  intros [Ha _] Hs Hd. split.
  - apply trimmed_app; [done|]. intros w Hw Hin. by apply (white_not_printable w sep).
  - rewrite rev_app_distr. cbn [rev]. rewrite rev_app_distr. cbn [rev app].
    apply prefix_free_printable; [by apply white_nonempty|].
    intros w Hw Hin. apply list_elem_of_In, in_map_iff in Hw as (w' & <- & Hw').
    apply (white_not_printable w' d); [by apply list_elem_of_In|by apply elem_of_rev|done].
Qed.

Lemma digit_printable c : is_Some (digit c) -> printable c.
Proof. intros H%digit_range. unfold printable. lia. Qed.

Lemma decimal_trimmed n : (0 < n)%Z -> trimmed (decimal n).
Proof.
  intros Hn. destruct (decimal_spec n Hn) as (Hne & Hd & _). split.
  - destruct (decimal n) as [|c l]; [done|]. apply prefix_free_printable; [by apply white_nonempty|].
    intros w Hw Hin. apply (white_not_printable w c Hw Hin), digit_printable, Hd. by left.
  - destruct (rev (decimal n)) as [|c l] eqn:E.
    { apply (f_equal (@rev ascii)) in E. by rewrite rev_involutive in E. }
    apply prefix_free_printable; [by apply white_nonempty|].
    intros w Hw Hin. apply list_elem_of_In, in_map_iff in Hw as (w' & <- & Hw').
    apply (white_not_printable w' c); [by apply list_elem_of_In|by apply elem_of_rev|].
    apply digit_printable, Hd, elem_of_rev. rewrite E. by left.
Qed.

Lemma decimal_last n : (0 < n)%Z -> exists l d, decimal n = l ++ [d] /\ printable d.
Proof.
  intros Hn. destruct (decimal_spec n Hn) as (Hne & Hd & _).
  destruct (exists_last Hne) as (l & d & E). exists l, d. split; [done|].
  apply digit_printable, Hd. rewrite E, elem_of_app. right. by left.
Qed.

Lemma rev_white_not_printable w c : w ∈ map (@rev ascii) white -> c ∈ w -> ~ printable c.
Proof.
  intros Hw Hc. apply list_elem_of_In, in_map_iff in Hw as (w' & <- & Hw').
  apply (white_not_printable w' c); [by apply list_elem_of_In|by apply elem_of_rev].
Qed.

Lemma trimmed_join sep l ls :
  printable sep -> (forall x, x ∈ l :: ls -> trimmed x) -> trimmed (join_text sep (l :: ls)).
Proof.
  intros Hs. revert l. induction ls as [|l' ls IH]; intros l Ht.
  { cbn [join_text map concat]. rewrite app_nil_r. apply Ht. by left. }
  assert (Hj : trimmed (join_text sep (l' :: ls))) by (apply IH; intros x Hx; apply Ht; by right).
  change (join_text sep (l :: l' :: ls)) with (l ++ sep :: join_text sep (l' :: ls)). split.
  - apply trimmed_app; [apply Ht; by left|]. intros w Hw Hin. by apply (white_not_printable w sep).
  - rewrite rev_app_distr. cbn [rev]. rewrite <- app_assoc. apply trimmed_app; [apply Hj|].
    intros w Hw Hin. by apply (rev_white_not_printable w sep).
Qed.
