(* ===== verification/Bytes.v ===== *)
(** Bytes, byte strings and the fixed-width encodings of Go's standard library
    that the sources use: [encoding/binary] little- and big-endian integers,
    the bytes of a [string], and the array type [[32]byte] of the block
    hashes. *)

From S2P Require Import Prelude.
From Stdlib Require Export Init.Byte.
From Stdlib Require Strings.Byte.

(** ** Bytes as a finite type *)

#[export] Instance byte_eq_decision : EqDecision byte := Byte.byte_eq_dec.

#[export] Program Instance byte_countable : Countable byte :=
  inj_countable Byte.to_N Byte.of_N Byte.of_to_N.

#[export] Instance byte_inhabited : Inhabited byte := populate x00.

(** The unsigned value of a byte, and Go's [byte(z)] conversion (truncation to
    the low eight bits). *)
Definition byte_Z (b : byte) : Z := Z.of_N (Byte.to_N b).
Definition Z_byte (z : Z) : byte :=
  default x00 (Byte.of_N (Z.to_N (z mod 256))).

(** ** encoding/binary *)

(** [binary.LittleEndian.PutUint32/64]: the [n] low bytes of [z]. *)
Fixpoint le_bytes (n : nat) (z : Z) : list byte :=
  match n with
  | O => []
  | S n' => Z_byte z :: le_bytes n' (z / 256)
  end.

(** [binary.LittleEndian.Uint32/64]. *)
Fixpoint le_Z (bs : list byte) : Z :=
  match bs with
  | [] => 0
  | b :: bs' => byte_Z b + 256 * le_Z bs'
  end%Z.

(** [binary.BigEndian]. *)
Definition be_bytes (n : nat) (z : Z) : list byte := rev (le_bytes n z).
Definition be_Z (bs : list byte) : Z := le_Z (rev bs).

(** The conversion [[]byte(s)] of a Go string, and [string(bs)] back. *)
Definition bytes_of_string (s : string) : list byte := String.list_byte_of_string s.
Definition string_of_bytes (bs : list byte) : string := String.string_of_list_byte bs.

(** ** The array type [32]byte *)

(** The length is part of the type, as in Go; it is a boolean equation so that
    two arrays with the same bytes are equal. *)
Record hash32 := mk_hash32 {
  hash_bytes : list byte;
  hash_len : Nat.eqb (length hash_bytes) 32 = true;
}.

(** Copying a byte slice of the right length into an array. *)
Definition hash32_of (bs : list byte) : option hash32 :=
  match Bool.bool_dec (Nat.eqb (length bs) 32) true with
  | left H => Some (mk_hash32 bs H)
  | right _ => None
  end.

(** The zero value [[32]byte{}]. *)
Definition hash32_zero : hash32 := mk_hash32 (replicate 32 x00) eq_refl.

(** The key as one number, by which keys are compared. *)
Definition hash_code (h : hash32) : N :=
  foldr (fun b acc => Byte.to_N b + 256 * acc)%N 0%N (hash_bytes h).

Lemma hash_code_inj a b : hash_code a = hash_code b -> a = b.
Proof.
  destruct a as [l Hl], b as [k Hk]. unfold hash_code. simpl. intros H.
  assert (l = k) as ->; [|f_equal; apply proof_irrel].
  assert (length l = length k) as Hlen by (apply Nat.eqb_eq in Hl, Hk; congruence). clear Hl Hk. revert k Hlen H.
  induction l as [|x l IH]; intros [|y k] Hlen H; simplify_eq/=; [done|].
  pose proof (Byte.to_N_bounded x). pose proof (Byte.to_N_bounded y).
  assert (Byte.to_N x = Byte.to_N y) as Hxy by lia.
  f_equal.
  - pose proof (Byte.of_to_N x). pose proof (Byte.of_to_N y). congruence.
  - apply IH; [done|lia].
Qed.

#[export] Instance hash32_eq_decision : EqDecision hash32.
Proof.
  refine (fun a b => cast_if (decide (hash_code a = hash_code b))).
  - by apply hash_code_inj.
  - by intros ->.
Defined.

Lemma hash32_of_bytes h : hash32_of (hash_bytes h) = Some h.
Proof.
  destruct h as [bs H]. unfold hash32_of. simpl.
  destruct (Bool.bool_dec _ _) as [H'|]; [|done]. do 2 f_equal. apply proof_irrel.
Qed.

#[export] Program Instance hash32_countable : Countable hash32 :=
  inj_countable hash_bytes hash32_of hash32_of_bytes.

#[export] Instance hash32_inhabited : Inhabited hash32 := populate hash32_zero.

(** ** Lemmas *)

Section bytes.
Local Open Scope Z_scope.

Lemma byte_Z_range b : 0 <= byte_Z b < 256.
Proof. unfold byte_Z. pose proof (Byte.to_N_bounded b). lia. Qed.

Lemma Z_byte_Z b : Z_byte (byte_Z b) = b.
Proof.
  unfold Z_byte. rewrite Z.mod_small by apply byte_Z_range.
  unfold byte_Z. by rewrite N2Z.id, Byte.of_to_N.
Qed.

Lemma byte_Z_byte z : byte_Z (Z_byte z) = z mod 256.
Proof.
  unfold Z_byte, byte_Z. pose proof (Z.mod_pos_bound z 256).
  destruct (Byte.of_N (Z.to_N (z mod 256))) as [b|] eqn:E; simpl.
  - apply Byte.to_of_N in E. rewrite E. lia.
  - apply Byte.of_N_None_iff in E. lia.
Qed.

Lemma Z_byte_mod z : Z_byte (z mod 256) = Z_byte z.
Proof. unfold Z_byte. by rewrite Z.mod_mod. Qed.

#[export] Instance byte_Z_inj : Inj (=) (=) byte_Z.
Proof. intros a b H. by rewrite <- (Z_byte_Z a), H, Z_byte_Z. Qed.

Lemma length_le_bytes n z : length (le_bytes n z) = n.
Proof. revert z. induction n; simpl; auto. Qed.

Lemma length_be_bytes n z : length (be_bytes n z) = n.
Proof. unfold be_bytes. by rewrite length_rev, length_le_bytes. Qed.

Lemma le_Z_range bs : 0 <= le_Z bs < 256 ^ Z.of_nat (length bs).
Proof.
  induction bs as [|b bs IH]; simpl le_Z; simpl length; [simpl; lia|].
  rewrite Nat2Z.inj_succ, Z.pow_succ_r by lia.
  pose proof (byte_Z_range b). lia.
Qed.

Lemma le_Z_bytes n z : le_Z (le_bytes n z) = z mod 256 ^ Z.of_nat n.
Proof.
  revert z. induction n as [|n IH]; intros z; simpl le_bytes; simpl le_Z.
  - by rewrite Z.mod_1_r.
  - rewrite IH, byte_Z_byte, Nat2Z.inj_succ, Z.pow_succ_r by lia.
    rewrite (Z.rem_mul_r z 256) by lia. lia.
Qed.

Lemma le_bytes_Z bs : le_bytes (length bs) (le_Z bs) = bs.
Proof.
  induction bs as [|b bs IH]; simpl; [done|]. pose proof (byte_Z_range b).
  f_equal.
  - rewrite <- Z_byte_mod. rewrite Z.mul_comm, Z_mod_plus_full, Z_byte_mod. apply Z_byte_Z.
  - rewrite Z.mul_comm, Z_div_plus_full, Z.div_small by lia. apply IH.
Qed.

Lemma le_bytes_inj n a b :
  0 <= a < 256 ^ Z.of_nat n -> 0 <= b < 256 ^ Z.of_nat n ->
  le_bytes n a = le_bytes n b -> a = b.
Proof.
  intros Ha Hb H%(f_equal le_Z). rewrite !le_Z_bytes, !Z.mod_small in H by done. done.
Qed.

Lemma le_Z_inj bs cs : length bs = length cs -> le_Z bs = le_Z cs -> bs = cs.
Proof. intros Hl H. rewrite <- (le_bytes_Z bs), <- (le_bytes_Z cs). congruence. Qed.

Lemma be_Z_inj bs cs : length bs = length cs -> be_Z bs = be_Z cs -> bs = cs.
Proof.
  intros Hl H. rewrite <- (rev_involutive bs), <- (rev_involutive cs). f_equal.
  apply le_Z_inj; [by rewrite !length_rev|done].
Qed.

Lemma be_Z_range bs : 0 <= be_Z bs < 256 ^ Z.of_nat (length bs).
Proof. unfold be_Z. pose proof (le_Z_range (rev bs)) as H. by rewrite length_rev in H. Qed.

Lemma bytes_of_string_inj s t : bytes_of_string s = bytes_of_string t -> s = t.
Proof.
  intros H. rewrite <- (String.string_of_list_byte_of_string s),
    <- (String.string_of_list_byte_of_string t). unfold bytes_of_string in H. by rewrite H.
Qed.

Lemma bytes_of_string_app s t :
  bytes_of_string (s +:+ t) = bytes_of_string s ++ bytes_of_string t.
Proof.
  unfold bytes_of_string, String.list_byte_of_string. rewrite <- map_app. f_equal.
  induction s as [|a s IH]; [done|]. change (String a s +:+ t) with (String a (s +:+ t)). simpl. by rewrite IH.
Qed.

Lemma hash32_eq h1 h2 : hash_bytes h1 = hash_bytes h2 -> h1 = h2.
Proof. destruct h1 as [a Ha], h2 as [b Hb]. simpl. intros ->. f_equal. apply proof_irrel. Qed.

Lemma length_hash_bytes h : length (hash_bytes h) = 32%nat.
Proof. destruct h as [bs H]. simpl. by apply Nat.eqb_eq. Qed.

Lemma hash32_of_Some bs h : hash32_of bs = Some h <-> bs = hash_bytes h.
Proof.
  split; [|intros ->; apply hash32_of_bytes].
  unfold hash32_of. destruct (Bool.bool_dec _ _); intros; by simplify_eq.
Qed.

Lemma hash32_of_None bs : hash32_of bs = None <-> length bs <> 32%nat.
Proof.
  unfold hash32_of. rewrite <- Nat.eqb_neq.
  destruct (Bool.bool_dec _ _) as [E|E]; split; try done; [congruence|].
  intros _. by apply Bool.not_true_iff_false.
Qed.

End bytes.

#[export] Hint Resolve byte_Z_range le_Z_range be_Z_range : kv.
Create Rewrite HintDb kv_bytes.
#[export] Hint Rewrite length_le_bytes length_be_bytes length_hash_bytes : kv_bytes.
