(* ===== verification/Sha256.v ===== *)
(** SHA-256 (FIPS 180-4), the [crypto/sha256] of Go's standard library: the
    hash behind the block keys ([internal/blockhash]), the store keys
    ([internal/cache/store.go]) and the ring positions ([internal/ring]).
    Words are 32-bit integers kept in [Z]; the function is executable, so the
    witnesses of later files evaluate real digests. *)

From S2P Require Import Prelude Bytes.

Section words.
Local Open Scope Z_scope.

Definition rotr (n x : Z) : Z := Z.lor (Z.shiftr x n) (u32 (Z.shiftl x (32 - n))).

Definition Sigma0 x := Z.lxor (rotr 2 x) (Z.lxor (rotr 13 x) (rotr 22 x)).
Definition Sigma1 x := Z.lxor (rotr 6 x) (Z.lxor (rotr 11 x) (rotr 25 x)).
Definition sigma0 x := Z.lxor (rotr 7 x) (Z.lxor (rotr 18 x) (Z.shiftr x 3)).
Definition sigma1 x := Z.lxor (rotr 17 x) (Z.lxor (rotr 19 x) (Z.shiftr x 10)).
Definition Ch x y z := Z.lxor (Z.land x y) (Z.land (Z.lxor x 0xffffffff) z).
Definition Maj x y z := Z.lxor (Z.land x y) (Z.lxor (Z.land x z) (Z.land y z)).

(** The first 64 primes. *)
Definition primes : list Z :=
  [
     2; 3; 5; 7; 11; 13; 17; 19; 23; 29; 31; 37; 41; 43; 47; 53; 59; 61; 67; 71; 73; 79;
    83; 89; 97; 101; 103; 107; 109; 113; 127; 131; 137; 139; 149; 151; 157; 163; 167; 173;
    179; 181; 191; 193; 197; 199; 211; 223; 227; 229; 233; 239; 241; 251; 257; 263; 269;
    271; 277; 281; 283; 293; 307; 311 ].

(** The [k]-th root of [n], rounded down, found bit by bit from bit [b]. *)
Fixpoint root_from (k : Z) (b : nat) (acc n : Z) : Z :=
  let acc := if (acc + 2 ^ Z.of_nat b) ^ k <=? n then acc + 2 ^ Z.of_nat b else acc in
  match b with
  | O => acc
  | S b => root_from k b acc n
  end.

(** The first 32 bits of the fractional part of the [k]-th root of [p]. *)
Definition root_fraction (k p : Z) : Z := u32 (root_from k 40 0 (p * 2 ^ (32 * k))).

(** The round constants come from the cube roots of the first 64 primes, the
    initial state from the square roots of the first eight. *)
Definition sha_K : list Z := Eval vm_compute in (root_fraction 3 <$> primes).
Definition sha_iv : list Z := Eval vm_compute in (root_fraction 2 <$> take 8 primes).

Record sha_state := mk_sha { sa : Z; sb : Z; sc : Z; sd : Z; se : Z; sf : Z; sg : Z; sh : Z }.

Definition sha_init : sha_state :=
  let v i := nth i sha_iv 0 in mk_sha (v 0%nat) (v 1%nat) (v 2%nat) (v 3%nat) (v 4%nat) (v 5%nat) (v 6%nat) (v 7%nat).

(** The message schedule, most recent word first. *)
Fixpoint sha_schedule (n : nat) (w : list Z) : list Z :=
  match n with
  | O => w
  | S n' =>
      let x := u32 (sigma1 (nth 1 w 0) + nth 6 w 0 + sigma0 (nth 14 w 0) + nth 15 w 0) in
      sha_schedule n' (x :: w)
  end.

Definition sha_round (s : sha_state) (kw : Z * Z) : sha_state :=
  let t1 := sh s + Sigma1 (se s) + Ch (se s) (sf s) (sg s) + kw.1 + kw.2 in
  let t2 := Sigma0 (sa s) + Maj (sa s) (sb s) (sc s) in
  mk_sha (u32 (t1 + t2)) (sa s) (sb s) (sc s) (u32 (sd s + t1)) (se s) (sf s) (sg s).

Definition sha_add (s t : sha_state) : sha_state :=
  mk_sha (u32 (sa s + sa t)) (u32 (sb s + sb t)) (u32 (sc s + sc t)) (u32 (sd s + sd t))
         (u32 (se s + se t)) (u32 (sf s + sf t)) (u32 (sg s + sg t)) (u32 (sh s + sh t)).

(** The sixteen big-endian words of a 64-byte block. *)
Fixpoint be_words (n : nat) (bs : list byte) : list Z :=
  match n with
  | O => []
  | S n' => be_Z (take 4 bs) :: be_words n' (drop 4 bs)
  end.

Definition sha_block (s : sha_state) (block : list byte) : sha_state :=
  let w := rev (sha_schedule 48 (rev (be_words 16 block))) in
  sha_add s (fold_left sha_round (zip sha_K w) s).

Fixpoint sha_blocks (n : nat) (s : sha_state) (bs : list byte) : sha_state :=
  match n with
  | O => s
  | S n' => sha_blocks n' (sha_block s (take 64 bs)) (drop 64 bs)
  end.

(** Padding: a [1] bit, zeros, and the bit length as a 64-bit integer, up to a
    multiple of 64 bytes. *)
Definition sha_pad (msg : list byte) : list byte :=
  let len := Z.of_nat (length msg) in
  msg ++ [x80] ++ replicate (Z.to_nat ((55 - len) mod 64)) x00 ++ be_bytes 8 (8 * len).

Definition sha_digest (s : sha_state) : list byte :=
  be_bytes 4 (sa s) ++ be_bytes 4 (sb s) ++ be_bytes 4 (sc s) ++ be_bytes 4 (sd s) ++
  be_bytes 4 (se s) ++ be_bytes 4 (sf s) ++ be_bytes 4 (sg s) ++ be_bytes 4 (sh s).

Definition sha256_bytes (msg : list byte) : list byte :=
  let p := sha_pad msg in
  sha_digest (sha_blocks (length p / 64) sha_init p).

Lemma sha_digest_len s : Nat.eqb (length (sha_digest s)) 32 = true.
Proof. reflexivity. Defined.

(** [sha256.Sum256], and [sha256.New]/[Write]/[Sum] on the concatenation of
    what was written. *)
Definition sha256 (msg : list byte) : hash32 :=
  mk_hash32 (sha256_bytes msg) (sha_digest_len _).

End words.

(** A collision of the hash function: two distinct messages with one digest.
    Statements that rest on collision freeness name the two messages. *)
Definition collision (x y : list byte) : Prop := x <> y /\ sha256 x = sha256 y.

Lemma sha256_eq x y : sha256 x = sha256 y -> x = y \/ collision x y.
Proof. intros H. destruct (decide (x = y)); [by left|by right]. Qed.

#[global] Opaque sha256.
Arguments sha256 : simpl never.

(** The FIPS 180-4 test vectors for "abc" and the empty message. *)
Example sha256_abc :
  be_Z (hash_bytes (sha256 (bytes_of_string "abc")))
  = 0xba7816bf8f01cfea414140de5dae2223b00361a396177a9cb410ff61f20015ad%Z.
Proof. vm_compute. reflexivity. Qed.

Example sha256_empty :
  be_Z (hash_bytes (sha256 []))
  = 0xe3b0c44298fc1c149afbf4c8996fb92427ae41e4649b934ca495991b7852b855%Z.
Proof. vm_compute. reflexivity. Qed.
