(* ===== verification/Float64.v ===== *)
(** Go's [float64]: IEEE 754 binary64 with round-to-nearest-even, on the
    executable specification [SpecFloat] of the Standard Library (precision 53,
    maximal exponent 1024).  The file fixes the operations the sources use and
    proves the two facts the eviction policy needs: the comparison is a strict
    weak order away from NaN, and the arithmetic of the GreedyDual value
    function does not produce a NaN. *)

From S2P Require Import Prelude.
From Stdlib Require Export Floats.SpecFloat.

Abbreviation float64 := spec_float.

Definition f64_prec : Z := 53.
Definition f64_emax : Z := 1024.

Definition f64_add : float64 -> float64 -> float64 := SFadd f64_prec f64_emax.
Definition f64_sub : float64 -> float64 -> float64 := SFsub f64_prec f64_emax.
Definition f64_mul : float64 -> float64 -> float64 := SFmul f64_prec f64_emax.
Definition f64_div : float64 -> float64 -> float64 := SFdiv f64_prec f64_emax.

(** Go's [<], [<=], [>] and [==] on floats: false as soon as one side is NaN. *)
Definition f64_ltb : float64 -> float64 -> bool := SFltb.
Definition f64_leb : float64 -> float64 -> bool := SFleb.
Definition f64_gtb (x y : float64) : bool := SFltb y x.

(** The conversion [float64(z)] of an integer: the nearest float, ties to even. *)
Definition f64_of_Z (z : Z) : float64 := binary_normalize f64_prec f64_emax z 0 false.

Definition f64_0 : float64 := S754_zero false.
Definition f64_1 : float64 := f64_of_Z 1.

(** The conversion [int64(f)]: truncation towards zero.  Outside the range of
    [int64] the Go specification leaves the value to the implementation; amd64
    gives the most negative integer. *)
Definition f64_to_i64 (f : float64) : Z :=
  match f with
  | S754_zero _ => 0
  | S754_finite s m e =>
      let a := match e with
               | Z.neg k => Z.shiftr (Z.pos m) (Z.pos k)
               | _ => Z.shiftl (Z.pos m) e
               end in
      let v := if s then Z.opp a else a in
      if ((- 2 ^ 63 <=? v) && (v <? 2 ^ 63))%Z then v else (- 2 ^ 63)%Z
  | _ => (- 2 ^ 63)%Z
  end.

Definition f64_is_nan (f : float64) : bool :=
  match f with S754_nan => true | _ => false end.

(** A value a caller may pass as a cost: neither NaN nor +Inf. *)
Definition f64_cost_ok (f : float64) : bool :=
  match f with S754_nan | S754_infinity false => false | _ => true end.

(** Zero (of either sign), positive finite, or +Inf. *)
Definition f64_nonneg (f : float64) : bool :=
  match f with
  | S754_zero _ | S754_finite false _ _ | S754_infinity false => true
  | _ => false
  end.

Definition f64_pos_finite (f : float64) : bool :=
  match f with S754_finite false _ _ => true | _ => false end.

#[export] Instance float64_eq_decision : EqDecision float64.
Proof. solve_decision. Defined.

#[export] Instance float64_inhabited : Inhabited float64 := populate f64_0.

(** ** The order *)

Section order.
Local Open Scope Z_scope.

(** The position of a non-NaN float: class, exponent and mantissa, the last two
    negated below zero, compared lexicographically. *)
Definition f64_key (f : float64) : Z * Z * Z :=
  match f with
  | S754_infinity true => (-2, 0, 0)
  | S754_finite true m e => (-1, - e, - Z.pos m)
  | S754_zero _ | S754_nan => (0, 0, 0)
  | S754_finite false m e => (1, e, Z.pos m)
  | S754_infinity false => (2, 0, 0)
  end.

Definition key_lt (a b : Z * Z * Z) : Prop :=
  let '(k, e, m) := a in
  let '(k', e', m') := b in
  k < k' \/ (k = k' /\ (e < e' \/ (e = e' /\ m < m'))).

Lemma f64_ltb_key a b :
  f64_is_nan a = false -> f64_is_nan b = false ->
  f64_ltb a b = true <-> key_lt (f64_key a) (f64_key b).
Proof.
  unfold f64_ltb, SFltb.
  destruct a as [[]|[]| |[] m e], b as [[]|[]| |[] m' e']; try done; intros _ _; simpl;
    try (split; intros; (done || lia));
    destruct (Z.compare_spec e e'); simpl;
    try (change (Pos.compare_cont Eq m m') with (Pos.compare m m');
         destruct (Pos.compare_spec m m'); simpl);
    split; intros; (done || lia).
Qed.

(** [<] is false when an operand is NaN. *)
Lemma f64_ltb_nan_l b : f64_ltb S754_nan b = false.
Proof. by destruct b as [[]|[]| |[]]. Qed.

Lemma f64_ltb_nan_r a : f64_ltb a S754_nan = false.
Proof. by destruct a as [[]|[]| |[]]. Qed.

Lemma f64_ltb_not_nan a b :
  f64_ltb a b = true -> f64_is_nan a = false /\ f64_is_nan b = false.
Proof.
  intros H. split.
  - destruct a; try done; by rewrite f64_ltb_nan_l in H.
  - destruct b; try done; by rewrite f64_ltb_nan_r in H.
Qed.

Lemma f64_ltb_asym a b : f64_ltb a b = true -> f64_ltb b a = false.
Proof.
  intros H. destruct (f64_ltb_not_nan a b H) as [Ha Hb].
  apply f64_ltb_key in H; [|done..].
  apply not_true_iff_false. rewrite f64_ltb_key by done.
  destruct (f64_key a) as [[??]?], (f64_key b) as [[??]?]. unfold key_lt in *. lia.
Qed.

Lemma f64_ltb_irrefl a : f64_ltb a a = false.
Proof.
  destruct (f64_ltb a a) eqn:E; [|done]. pose proof (f64_ltb_asym _ _ E). congruence.
Qed.

Lemma f64_ltb_trans a b c :
  f64_ltb a b = true -> f64_ltb b c = true -> f64_ltb a c = true.
Proof.
  intros H1 H2. destruct (f64_ltb_not_nan a b H1), (f64_ltb_not_nan b c H2).
  apply f64_ltb_key in H1, H2; [|done..]. apply f64_ltb_key; [done..|].
  destruct (f64_key a) as [[??]?], (f64_key b) as [[??]?], (f64_key c) as [[??]?].
  unfold key_lt in *. lia.
Qed.

(** "Not greater" is transitive among non-NaN values; with [f64_ltb_asym] this
    makes [<] a strict weak order there. *)
Lemma f64_nlt_trans a b c :
  f64_is_nan a = false -> f64_is_nan b = false -> f64_is_nan c = false ->
  f64_ltb b a = false -> f64_ltb c b = false -> f64_ltb c a = false.
Proof.
  intros Ha Hb Hc. rewrite <- !not_true_iff_false, !f64_ltb_key by done.
  destruct (f64_key a) as [[??]?], (f64_key b) as [[??]?], (f64_key c) as [[??]?].
  unfold key_lt. lia.
Qed.

(** [<=] is the negation of [>] away from NaN. *)
Lemma f64_leb_ltb a b :
  f64_is_nan a = false -> f64_is_nan b = false -> f64_leb a b = negb (f64_ltb b a).
Proof.
  unfold f64_leb, f64_ltb, SFleb, SFltb.
  destruct a as [[]|[]| |[] m e], b as [[]|[]| |[] m' e']; try done; intros _ _; simpl;
    rewrite ?(Z.compare_antisym e' e); destruct (Z.compare e' e); simpl; try done;
    change (Pos.compare_cont Eq m m') with (Pos.compare m m');
    change (Pos.compare_cont Eq m' m) with (Pos.compare m' m);
    rewrite (Pos.compare_antisym m' m); by destruct (Pos.compare m' m).
Qed.

End order.

(** ** Signs and NaN *)

Section signs.
Local Open Scope Z_scope.

Lemma f64_nonneg_not_nan f : f64_nonneg f = true -> f64_is_nan f = false.
Proof. by destruct f. Qed.

Lemma shr_1_nonneg r : 0 <= shr_m r -> 0 <= shr_m (shr_1 r).
Proof. destruct r as [[|[]|] ??]; simpl; lia. Qed.

Lemma iter_pos_inv {A} (P : A -> Prop) (f : A -> A) n x :
  (forall x, P x -> P (f x)) -> P x -> P (iter_pos f n x).
Proof. intros Hf. revert x. induction n; simpl; auto. Qed.

Lemma shr_fexp_nonneg m e l : 0 <= m -> 0 <= shr_m (shr_fexp f64_prec f64_emax m e l).1.
Proof.
  intros Hm. unfold shr_fexp, shr.
  assert (0 <= shr_m (shr_record_of_loc m l)) by (by destruct l as [|[]]).
  case_match; simpl; try done. apply iter_pos_inv; [apply shr_1_nonneg|done].
Qed.

Lemma round_even_nonneg m l : 0 <= m -> 0 <= round_nearest_even m l.
Proof. destruct l as [|[]]; simpl; [lia| |lia|lia]. destruct (Z.even m); lia. Qed.

Lemma binary_round_aux_nonneg m e l :
  0 <= m -> f64_nonneg (binary_round_aux f64_prec f64_emax false m e l) = true.
Proof.
  intros Hm. unfold binary_round_aux.
  pose proof (shr_fexp_nonneg m e l Hm) as H1.
  destruct (shr_fexp _ _ m e l) as [r1 e1]. simpl in H1.
  pose proof (shr_fexp_nonneg (round_nearest_even (shr_m r1) (loc_of_shr_record r1)) e1
    loc_Exact (round_even_nonneg _ _ H1)) as H2.
  destruct (shr_fexp _ _ _ e1 loc_Exact) as [r2 e2]. simpl in H2.
  destruct (shr_m r2); [done| |lia]. by case_match.
Qed.

Lemma binary_normalize_nonneg m e :
  0 <= m -> f64_nonneg (binary_normalize f64_prec f64_emax m e false) = true.
Proof.
  destruct m as [|p|p]; simpl; [done| |lia]. intros _. unfold binary_round.
  destruct (shl_align _ _ _) as [mz ez]. by apply binary_round_aux_nonneg.
Qed.

Lemma f64_of_Z_nonneg z : 0 <= z -> f64_nonneg (f64_of_Z z) = true.
Proof. apply binary_normalize_nonneg. Qed.

Lemma f64_mul_finite a b :
  f64_nonneg a = true -> f64_nonneg b = true -> f64_cost_ok a = true -> f64_cost_ok b = true ->
  f64_nonneg (f64_mul a b) = true.
Proof.
  destruct a as [[]|[]| |[]], b as [[]|[]| |[]]; try done.
  intros _ _ _ _. by apply binary_round_aux_nonneg.
Qed.

Lemma f64_div_nonneg a b :
  f64_nonneg a = true -> f64_pos_finite b = true -> f64_nonneg (f64_div a b) = true.
Proof.
  destruct a as [[]|[]| |[] m e], b as [[]|[]| |[] m' e']; try done.
  intros _ _. unfold f64_div, SFdiv.
  destruct (SFdiv_core_binary _ _ _ e _ e') as [[q ez] l] eqn:E.
  apply binary_round_aux_nonneg.
  unfold SFdiv_core_binary in E. revert E.
  set (m1 := match _ with Z0 => _ | Zpos _ => _ | Zneg _ => _ end).
  assert (0 <= m1).
  { unfold m1. case_match; try lia. apply Z.shiftl_nonneg. lia. }
  pose proof (Z_div_mod m1 (Z.pos m') ltac:(lia)) as Hd.
  destruct (Z.div_eucl m1 (Z.pos m')) as [q' r']. intros [= -> _ _]. nia.
Qed.

Lemma f64_add_nonneg a b :
  f64_nonneg a = true -> f64_nonneg b = true -> f64_nonneg (f64_add a b) = true.
Proof.
  destruct a as [[]|[]| |[] m e], b as [[]|[]| |[] m' e']; try done.
  intros _ _. unfold f64_add, SFadd. apply binary_normalize_nonneg. simpl. lia.
Qed.

End signs.

(** ** Conversion of integers *)

Section conversion.
Local Open Scope Z_scope.

Lemma digits2_pos_log2 m : Z.pos (digits2_pos m) = Z.log2 (Z.pos m) + 1.
Proof.
  assert (digits2_pos m = Pos.size m) as -> by (induction m; simpl; congruence).
  destruct m as [m|m|]; simpl; lia.
Qed.

Lemma Zdigits2_log2 m : 0 < m -> Zdigits2 m = Z.log2 m + 1.
Proof. destruct m; simpl; [lia|intros _; apply digits2_pos_log2|lia]. Qed.

Lemma shr_1_div r : 0 <= shr_m r -> shr_m (shr_1 r) = shr_m r / 2.
Proof.
  destruct r as [[|[p|p|]|] r s]; simpl; intros; try done; try lia.
  - rewrite Pos2Z.inj_xI, (Z.add_comm (2 * _)), Z.mul_comm, Z.div_add by lia. done.
  - rewrite Pos2Z.inj_xO, Z.mul_comm, Z.div_mul by lia. done.
Qed.

Lemma shr_iter_div n r :
  0 <= shr_m r -> shr_m (iter_pos shr_1 n r) = shr_m r / 2 ^ Z.pos n.
Proof.
  revert r. induction n as [n IH|n IH|]; intros r Hr; simpl iter_pos.
  - rewrite !IH, shr_1_div by (try apply iter_pos_inv; eauto using shr_1_nonneg).
    rewrite !Z.div_div, <- Z.pow_add_r, <- Z.pow_succ_r by lia. f_equal. f_equal. lia.
  - rewrite !IH by (try apply iter_pos_inv; eauto using shr_1_nonneg).
    rewrite Z.div_div, <- Z.pow_add_r by lia. f_equal. f_equal. lia.
  - by rewrite shr_1_div, Z.pow_1_r.
Qed.

(** A mantissa of at least 53 bits is cut to exactly 53. *)
Lemma shr_fexp_large m e l :
  2 ^ 52 <= m -> - 1074 <= e ->
  2 ^ 52 <= shr_m (shr_fexp f64_prec f64_emax m e l).1 < 2 ^ 53
  /\ (shr_fexp f64_prec f64_emax m e l).2 = e + (Z.log2 m - 52).
Proof.
  intros Hm He. unfold shr_fexp, fexp, emin, f64_prec, f64_emax.
  assert (shr_m (shr_record_of_loc m l) = m) as Hr by (by destruct l as [|[]]).
  pose proof (Z.log2_le_mono _ _ Hm) as Hl. rewrite Z.log2_pow2 in Hl by lia.
  pose proof (Z.log2_spec m ltac:(lia)) as Hs.
  rewrite Zdigits2_log2 by lia.
  replace (Z.max (Z.log2 m + 1 + e - 53) (3 - 1024 - 53) - e) with (Z.log2 m - 52) by lia.
  destruct (Z.log2 m - 52) as [|k|k] eqn:Ek; [| |lia]; simpl.
  - rewrite Hr. replace (Z.log2 m) with 52 in Hs by lia. split; lia.
  - rewrite shr_iter_div by lia. rewrite Hr.
    replace (Z.succ (Z.log2 m)) with (53 + Z.pos k) in Hs by lia.
    replace (Z.log2 m) with (52 + Z.pos k) in Hs by lia.
    rewrite !Z.pow_add_r in Hs by lia. split; [|lia]. split.
    + apply Z.div_le_lower_bound; lia.
    + apply Z.div_lt_upper_bound; lia.
Qed.

Lemma round_even_bounds m l : 0 <= m -> m <= round_nearest_even m l <= m + 1.
Proof. intros. destruct l as [|[]]; simpl; try lia. destruct (Z.even m); lia. Qed.

Lemma binary_round_aux_large m e l :
  2 ^ 52 <= m -> - 1074 <= e -> e + Z.log2 m <= 1000 ->
  f64_pos_finite (binary_round_aux f64_prec f64_emax false m e l) = true.
Proof.
  intros Hm He Hu. unfold binary_round_aux.
  destruct (shr_fexp_large m e l Hm He) as [H1 H1e].
  pose proof (Z.log2_le_mono _ _ Hm) as Hl. rewrite Z.log2_pow2 in Hl by lia.
  destruct (shr_fexp _ _ m e l) as [r1 e1]. simpl in H1, H1e.
  pose proof (round_even_bounds (shr_m r1) (loc_of_shr_record r1) ltac:(lia)) as Hb.
  set (m2 := round_nearest_even _ _) in *.
  destruct (shr_fexp_large m2 e1 loc_Exact ltac:(lia) ltac:(lia)) as [H2 H2e].
  assert (Z.log2 m2 < 54) by (apply Z.log2_lt_pow2; lia).
  destruct (shr_fexp _ _ m2 e1 loc_Exact) as [r2 e2]. simpl in H2, H2e.
  destruct (shr_m r2); try lia.
  destruct (Z.leb_spec e2 (f64_emax - f64_prec)); [done|]. unfold f64_emax, f64_prec in *. lia.
Qed.

(** A positive integer of at most 64 bits converts to a positive finite float. *)
Lemma f64_of_Z_pos z : 0 < z < 2 ^ 64 -> f64_pos_finite (f64_of_Z z) = true.
Proof.
  intros Hz. destruct z as [|p|p]; try lia. simpl. unfold binary_round.
  rewrite digits2_pos_log2. pose proof (Z.log2_spec (Z.pos p) ltac:(lia)) as Hs.
  assert (Z.log2 (Z.pos p) < 64) by (apply Z.log2_lt_pow2; lia).
  pose proof (Z.log2_nonneg (Z.pos p)).
  unfold shl_align, fexp, emin. change f64_prec with 53. change f64_emax with 1024.
  replace (Z.max (Z.log2 (Z.pos p) + 1 + 0 - 53) (3 - 1024 - 53) - 0)
    with (Z.log2 (Z.pos p) - 52) by lia.
  destruct (Z.log2 (Z.pos p) - 52) as [|k|k] eqn:Ek.
  - apply binary_round_aux_large; [|lia..].
    replace (Z.log2 (Z.pos p)) with 52 in Hs by lia. lia.
  - apply binary_round_aux_large; [|lia..].
    transitivity (2 ^ Z.log2 (Z.pos p)); [|lia]. apply Z.pow_le_mono_r; lia.
  - replace (Z.pos (Pos.iter xO p k)) with (Z.pos p * 2 ^ Z.pos k).
    2: { rewrite <- Z.shiftl_mul_pow2 by lia. symmetry. by apply (Pos.iter_swap_gen _ _ Z.pos). }
    apply binary_round_aux_large.
    + transitivity (2 ^ (Z.log2 (Z.pos p) + Z.pos k)); [apply Z.pow_le_mono_r; lia|].
      rewrite Z.pow_add_r by lia. apply Z.mul_le_mono_nonneg_r; lia.
    + lia.
    + rewrite Z.log2_mul_pow2 by lia. lia.
Qed.

Lemma f64_pos_finite_nonneg f : f64_pos_finite f = true -> f64_nonneg f = true.
Proof. by destruct f as [| | |[]]. Qed.

End conversion.

(** ** Magnitude bounds

    [f64_small k f]: [f] is finite and below [2 ^ k] in magnitude (its exponent
    is at least that of the subnormals).  Every operation keeps a bound, so an
    expression over small operands can be shown never to reach an infinity. *)

Definition f64_small (k : Z) (f : float64) : Prop :=
  match f with
  | S754_zero _ => True
  | S754_finite _ m e => (- 1074 <= e /\ Z.log2 (Z.pos m) + e < k)%Z
  | _ => False
  end.

Section magnitude.
Local Open Scope Z_scope.

Lemma f64_small_mono k k' f : k <= k' -> f64_small k f -> f64_small k' f.
Proof. destruct f; simpl; intros; lia || done. Qed.

Lemma f64_small_cost_ok k f : f64_small k f -> f64_cost_ok f = true.
Proof. by destruct f as [|[]| |]. Qed.

Lemma Zdigits2_le m : 0 <= m -> Zdigits2 m <= Z.log2 m + 1.
Proof. intros. destruct (decide (m = 0)) as [->|]; [done|]. rewrite Zdigits2_log2; lia. Qed.

Lemma shr_fexp_bound k m e l :
  - 1000 <= k -> 0 <= m -> Z.log2 m + e < k ->
  let r := shr_fexp f64_prec f64_emax m e l in
  0 <= shr_m r.1 /\ - 1074 <= r.2 /\ e <= r.2 /\ Z.log2 (shr_m r.1) + r.2 < k.
Proof.
  intros Hk Hm Hb. unfold shr_fexp, shr.
  assert (shr_m (shr_record_of_loc m l) = m) as Hr by (by destruct l as [|[]]).
  pose proof (Zdigits2_le m Hm) as Hd. pose proof (Z.log2_nonneg m).
  unfold fexp, emin, f64_prec, f64_emax.
  set (d := Z.max _ _ - e). assert (e + d < k) by lia. assert (- 1074 <= e + d) by lia.
  destruct d as [|p|p] eqn:Ed; simpl; rewrite ?Hr; [lia| |lia].
  rewrite shr_iter_div by lia. rewrite Hr, <- Z.shiftr_div_pow2 by lia.
  split; [by apply Z.shiftr_nonneg|]. split; [lia|]. split; [lia|].
  destruct (decide (m = 0)) as [->|]; [rewrite Z.shiftr_0_l; simpl; lia|].
  rewrite Z.log2_shiftr by lia. lia.
Qed.

Lemma binary_round_aux_small k s m e l :
  - 1000 <= k <= 970 -> 0 <= m -> Z.log2 m + e < k ->
  f64_small (k + 1) (binary_round_aux f64_prec f64_emax s m e l)
  /\ match binary_round_aux f64_prec f64_emax s m e l with S754_finite _ _ e' => e <= e' | _ => True end.
Proof.
  intros Hk Hm Hb. unfold binary_round_aux.
  destruct (shr_fexp_bound k m e l ltac:(lia) Hm Hb) as (H1 & H1e & H1' & H1b).
  destruct (shr_fexp _ _ m e l) as [r1 e1]; simpl in *.
  pose proof (round_even_bounds (shr_m r1) (loc_of_shr_record r1) H1) as Hr.
  set (m2 := round_nearest_even _ _) in *.
  assert (Z.log2 m2 <= Z.log2 (shr_m r1) + 1).
  { transitivity (Z.log2 (Z.succ (shr_m r1))); [apply Z.log2_le_mono; lia|].
    pose proof (Z.log2_succ_le (shr_m r1)). lia. }
  destruct (shr_fexp_bound (k + 1) m2 e1 loc_Exact ltac:(lia) ltac:(lia) ltac:(lia)) as (H2 & H2e & H2' & H2b).
  destruct (shr_fexp _ _ m2 e1 loc_Exact) as [r2 e2]; simpl in *.
  destruct (shr_m r2) as [|p|p]; [done| |lia]. pose proof (Z.log2_nonneg (Z.pos p)).
  unfold f64_emax, f64_prec.
  destruct (Z.leb_spec e2 (1024 - 53)); cbn [f64_small]; lia.
Qed.

(** Moving a mantissa to a smaller exponent. *)
Lemma shl_align_spec m e e' :
  let r := shl_align m e e' in
  r.2 = Z.min e e' /\ Z.pos r.1 = Z.pos m * 2 ^ (e - r.2).
Proof.
  unfold shl_align. destruct (e' - e) as [|d|d] eqn:E; simpl.
  - replace (e - e) with 0 by lia. simpl. lia.
  - replace (e - e) with 0 by lia. simpl. lia.
  - split; [lia|]. replace (e - e') with (Z.pos d) by lia.
    rewrite <- Z.shiftl_mul_pow2 by lia. by apply (Pos.iter_swap_gen _ _ Z.pos).
Qed.

Lemma shl_align_log2 m e e' :
  let r := shl_align m e e' in Z.log2 (Z.pos r.1) + r.2 = Z.log2 (Z.pos m) + e.
Proof.
  cbv zeta. destruct (shl_align_spec m e e') as [H1 H2]. cbv zeta in *. rewrite H2, Z.log2_mul_pow2 by lia. lia.
Qed.

Lemma binary_round_small k s m e :
  - 1000 <= k <= 970 -> Z.log2 (Z.pos m) + e < k ->
  f64_small (k + 1) (binary_round f64_prec f64_emax s m e).
Proof.
  intros Hk Hb. unfold binary_round. set (e' := fexp _ _ _).
  pose proof (shl_align_log2 m e e') as Hl. destruct (shl_align m e e') as [mz ez]. cbn [fst snd] in Hl.
  apply binary_round_aux_small; lia.
Qed.

Lemma binary_normalize_small k z e :
  - 1000 <= k <= 970 -> Z.log2 (Z.abs z) + e < k ->
  f64_small (k + 1) (binary_normalize f64_prec f64_emax z e false).
Proof. intros ? Hb. destruct z; [done|by apply binary_round_small; [lia|exact Hb]..]. Qed.

Lemma f64_mul_small a b x y :
  f64_small a x -> f64_small b y -> - 1000 <= a + b <= 970 -> f64_small (a + b + 1) (f64_mul x y).
Proof.
  destruct x as [| | |s m e], y as [| | |s' m' e']; try done. intros [Hx Hx'] [Hy Hy'] ?.
  unfold f64_mul, SFmul. apply binary_round_aux_small; [lia|lia|].
  pose proof (Z.log2_mul_above (Z.pos m) (Z.pos m') ltac:(lia) ltac:(lia)) as Hl.
  change (Z.pos m * Z.pos m') with (Z.pos (m * m')) in Hl. lia.
Qed.

Lemma aligned_abs_bound k m e ez :
  ez <= e -> Z.log2 (Z.pos m) + e < k -> Z.pos (shl_align m e ez).1 < 2 ^ (k - ez).
Proof.
  intros He Hb. pose proof (shl_align_log2 m e ez) as Hl.
  destruct (shl_align_spec m e ez) as [H2 _]. cbv zeta in Hl, H2.
  apply Z.log2_lt_pow2; lia.
Qed.

Lemma sum_log2 k ez u v :
  0 <= k - ez -> Z.abs u < 2 ^ (k - ez) -> Z.abs v < 2 ^ (k - ez) ->
  Z.log2 (Z.abs (u + v)) + ez < k + 1.
Proof.
  intros Hk Hu Hv. destruct (decide (u + v = 0)) as [->|]; [simpl; lia|].
  enough (Z.log2 (Z.abs (u + v)) < k + 1 - ez) by lia.
  apply Z.log2_lt_pow2; [lia|]. replace (k + 1 - ez) with (Z.succ (k - ez)) by lia.
  rewrite Z.pow_succ_r by lia. lia.
Qed.

Lemma f64_addsub_small k x y :
  - 1000 <= k <= 960 -> f64_small k x -> f64_small k y ->
  f64_small (k + 2) (f64_add x y) /\ f64_small (k + 2) (f64_sub x y).
Proof.
  intros Hk Hx Hy.
  assert (Hm : forall f, f64_small k f -> f64_small (k + 2) f) by (intros; by eapply f64_small_mono; [|done]; lia).
  destruct x as [s| | |s m e], y as [s'| | |s' m' e']; try done; try (split; by apply Hm).
  - by destruct s, s'.
  - destruct Hx as [Hx Hx'], Hy as [Hy Hy']. replace (k + 2) with (k + 1 + 1) by lia.
    pose proof (aligned_abs_bound k m e (Z.min e e') ltac:(lia) ltac:(lia)) as B1.
    pose proof (aligned_abs_bound k m' e' (Z.min e e') ltac:(lia) ltac:(lia)) as B2.
    pose proof (Z.log2_nonneg (Z.pos m)).
    split; unfold f64_add, f64_sub, SFadd, SFsub; apply binary_normalize_small; try lia;
      rewrite <- ?Z.add_opp_r; apply sum_log2; try lia; destruct s, s'; simpl in *; lia.
Qed.

Lemma f64_div_small k c x y :
  f64_small k x -> match y with S754_finite _ _ e => - c <= e | _ => False end ->
  - 1000 <= k + c <= 970 -> f64_small (k + c + 1) (f64_div x y).
Proof.
  destruct x as [| | |s m e], y as [| | |s' m' e']; try done. intros [Hx Hx'] Hy ?.
  unfold f64_div, SFdiv. destruct (SFdiv_core_binary _ _ _ e _ e') as [[q ez] l] eqn:E.
  unfold SFdiv_core_binary in E. revert E. set (ee := Z.min _ (e - e')).
  assert (ee <= e - e') by lia.
  assert (Hm1 : match e - e' - ee with Z.pos _ => Z.shiftl (Z.pos m) (e - e' - ee) | Z0 => Z.pos m | Z.neg _ => 0 end
                = Z.shiftl (Z.pos m) (e - e' - ee)).
  { destruct (e - e' - ee) eqn:Es; [by rewrite Z.shiftl_0_r|done|lia]. }
  rewrite Hm1. pose proof (Z.shiftl_nonneg (Z.pos m) (e - e' - ee)) as Hnn.
  pose proof (Z.log2_shiftl (Z.pos m) (e - e' - ee) ltac:(lia) ltac:(lia)) as Hl.
  set (m1 := Z.shiftl _ _) in *. pose proof (Z_div_mod m1 (Z.pos m') ltac:(lia)) as Hd.
  destruct (Z.div_eucl m1 (Z.pos m')) as [q' r']. intros [= -> -> _].
  apply binary_round_aux_small; [lia|nia|].
  assert (Z.log2 q <= Z.log2 m1) by (apply Z.log2_le_mono; nia). lia.
Qed.

Lemma f64_of_Z_small z : - 2 ^ 63 <= z <= 2 ^ 63 -> f64_small 65 (f64_of_Z z).
Proof.
  intros Hz. apply (binary_normalize_small 64); [lia|].
  destruct (decide (z = 0)) as [->|]; [done|]. rewrite Z.add_0_r. apply Z.log2_lt_pow2; lia.
Qed.

(** A positive integer keeps 52 bits below the point. *)
Lemma f64_of_Z_exponent z :
  0 < z < 2 ^ 63 -> match f64_of_Z z with S754_finite _ _ e => - 52 <= e | _ => False end.
Proof.
  intros Hz. pose proof (f64_of_Z_pos z ltac:(lia)) as Hp. revert Hp. unfold f64_of_Z.
  destruct z as [|p|p]; try lia. simpl. unfold binary_round. set (e' := fexp _ _ _).
  assert (- 52 <= e').
  { unfold e', fexp, emin, f64_prec. rewrite digits2_pos_log2. pose proof (Z.log2_nonneg (Z.pos p)). lia. }
  pose proof (shl_align_log2 p 0 e') as Hl. destruct (shl_align_spec p 0 e') as [Hz2 _].
  destruct (shl_align p 0 e') as [mz ez]. cbn [fst snd] in Hl, Hz2.
  assert (Z.log2 (Z.pos p) < 64) by (apply Z.log2_lt_pow2; lia).
  pose proof (binary_round_aux_small 64 false (Z.pos mz) ez loc_Exact ltac:(lia) ltac:(lia) ltac:(lia)) as [_ He].
  destruct (binary_round_aux _ _ _ _ _ _); try done. lia.
Qed.

Lemma f64_1_eq : f64_1 = S754_finite false 4503599627370496 (-52).
Proof. by vm_compute. Qed.

(** [1 + x] for a non-negative bounded [x] is positive and finite. *)
Lemma f64_one_plus x :
  f64_nonneg x = true -> f64_small 900 x -> f64_pos_finite (f64_add f64_1 x) = true.
Proof.
  rewrite f64_1_eq. destruct x as [| | |[] m e]; try done. intros _ [He Hb].
  unfold f64_add, SFadd. set (ez := Z.min (-52) e).
  destruct (shl_align_spec 4503599627370496 (-52) ez) as [_ Ha].
  pose proof (aligned_abs_bound 900 4503599627370496 (-52) ez ltac:(lia)) as B1.
  pose proof (aligned_abs_bound 900 m e ez ltac:(lia) ltac:(lia)) as B2.
  change (Z.log2 4503599627370496) with 52 in B1. specialize (B1 ltac:(lia)).
  destruct (shl_align_spec 4503599627370496 (-52) ez) as [Hz1 _].
  set (u := (shl_align 4503599627370496 (-52) ez).1) in *.
  set (v := (shl_align m e ez).1) in *.
  assert (2 ^ 52 <= Z.pos u).
  { rewrite Ha. pose proof (Z.pow_pos_nonneg 2 (-52 - (shl_align 4503599627370496 (-52) ez).2) ltac:(lia)). lia. }
  pose proof (sum_log2 900 ez (Z.pos u) (Z.pos v) ltac:(lia) ltac:(lia) ltac:(lia)) as Hs.
  simpl cond_Zopp. simpl binary_normalize. unfold binary_round. change (Z.abs (Z.pos u + Z.pos v)) with (Z.pos (u + v)) in Hs.
  set (e' := fexp _ _ _).
  pose proof (shl_align_log2 (u + v) ez e') as Hl. destruct (shl_align_spec (u + v) ez e') as [Hz2 Hm2].
  destruct (shl_align (u + v) ez e') as [mz ez']. cbn [fst snd] in Hl, Hz2, Hm2.
  assert (- 1074 <= e') by (unfold e', fexp, emin, f64_prec, f64_emax; lia).
  apply binary_round_aux_large; [|lia|lia].
  rewrite Hm2. pose proof (Z.pow_pos_nonneg 2 (ez - ez') ltac:(lia) ltac:(lia)). nia.
Qed.

End magnitude.

#[export] Hint Resolve f64_nonneg_not_nan f64_of_Z_nonneg f64_add_nonneg f64_div_nonneg
  f64_mul_finite f64_of_Z_pos f64_pos_finite_nonneg : kv.
