(* ===== verification/Blockhash.v ===== *)
(** Chained block hashes: [src/internal/blockhash/blockhash.go].

    [ChainBlocks] folds SHA-256 over the full token blocks of a prompt; the
    hash of block [i] covers the model and every token up to the end of block
    [i].  The theorems say what makes the hashes usable as cache keys: two
    prompts share the hashes of their common prefix, and two prompts with one
    hash in common have the prefix in common or exhibit a SHA-256 collision
    between two messages the function really hashed. *)

From S2P Require Import Prelude Bytes Sha256.

(** [seedPrefix]: "kvcache/v1" and a NUL byte. *)
Definition seedPrefix : list byte := bytes_of_string "kvcache/v1" ++ [x00].

(** [Block] *)
Record Block := mk_block { blk_hash : hash32; blk_tokens : list Z }.

(** [PutUint32(buf[off:], uint32(tok))] for each token of the block. *)
Definition encode_tokens (toks : list Z) : list byte :=
  concat ((fun t => le_bytes 4 (u32 t)) <$> toks).

(** [tokenIDs[b*blockTokens : (b+1)*blockTokens]] *)
Definition block_at (toks : list Z) (bt b : nat) : list Z := take bt (drop (b * bt) toks).

(** [sha256.Sum256([]byte(seedPrefix + modelID))] *)
Definition seed (modelID : string) : hash32 := sha256 (seedPrefix ++ bytes_of_string modelID).

(** The loop over [b], with [n] blocks left; [prev] is the chaining value. *)
Fixpoint chain_loop (toks : list Z) (bt b n : nat) (prev : hash32) : list Block :=
  match n with
  | O => []
  | S n' =>
      let blk := block_at toks bt b in
      let h := sha256 (hash_bytes prev ++ encode_tokens blk) in
      mk_block h blk :: chain_loop toks bt (S b) n' h
  end.

(** [ChainBlocks]; Go's nil slice is the empty list. *)
Definition ChainBlocks (modelID : string) (toks : list Z) (blockTokens : Z) : list Block :=
  if decide (blockTokens <= 0 \/ Z.of_nat (length toks) < blockTokens)%Z then []
  else
    let bt := Z.to_nat blockTokens in
    chain_loop toks bt 0 (length toks / bt) (seed modelID).

(** [Chain] *)
Definition Chain (modelID : string) (toks : list Z) (blockTokens : Z) : list hash32 :=
  blk_hash <$> ChainBlocks modelID toks blockTokens.

(** The messages hashed by the first [n] iterations from [b] on. *)
Fixpoint loop_messages (toks : list Z) (bt b n : nat) (prev : hash32) : list (list byte) :=
  match n with
  | O => []
  | S n' =>
      let m := hash_bytes prev ++ encode_tokens (block_at toks bt b) in
      m :: loop_messages toks bt (S b) n' (sha256 m)
  end.

(** Every message [ChainBlocks] hashes: the seed and one per block. *)
Definition chain_messages (modelID : string) (toks : list Z) (blockTokens : Z) : list (list byte) :=
  let bt := Z.to_nat blockTokens in
  (seedPrefix ++ bytes_of_string modelID) :: loop_messages toks bt 0 (length toks / bt) (seed modelID).

(** Token ids are Go [int32]s. *)
Definition tokens_ok (toks : list Z) : Prop := Forall (fun t => - 2 ^ 31 <= t < 2 ^ 31)%Z toks.

#[export] Instance tokens_ok_dec toks : Decision (tokens_ok toks).
Proof. unfold tokens_ok. apply _. Defined.

(** ** The loop *)

Lemma length_chain_loop toks bt b n prev : length (chain_loop toks bt b n prev) = n.
Proof. revert b prev. induction n; simpl; auto. Qed.

Lemma chain_loop_tokens toks bt b n prev i blk :
  chain_loop toks bt b n prev !! i = Some blk -> blk_tokens blk = block_at toks bt (b + i).
Proof.
  revert b prev i. induction n as [|n IH]; intros b prev [|i] H; simplify_eq/=.
  - by rewrite Nat.add_0_r.
  - apply IH in H. by rewrite Nat.add_succ_r.
Qed.

Lemma length_block_at toks bt b :
  S b * bt <= length toks -> length (block_at toks bt b) = bt.
Proof. intros. unfold block_at. rewrite length_take, length_drop. simpl in *. lia. Qed.

(** The loop reads only the tokens of the blocks it hashes. *)
Lemma chain_loop_ext toks toks' bt b n n' prev k :
  take ((b + k) * bt) toks = take ((b + k) * bt) toks' ->
  k <= n -> k <= n' ->
  take k (chain_loop toks bt b n prev) = take k (chain_loop toks' bt b n' prev).
Proof.
  revert b n n' prev. induction k as [|k IH]; intros b n n' prev Ht Hn Hn'; [done|].
  destruct n as [|n]; [lia|]. destruct n' as [|n']; [lia|]. simpl.
  assert (block_at toks bt b = block_at toks' bt b) as E.
  { unfold block_at.
    rewrite !take_drop_commute. f_equal. apply (f_equal (take (b * bt + bt))) in Ht.
    rewrite !take_take in Ht. replace (_ `min` _) with (b * bt + bt) in Ht by nia. done. }
  rewrite E. f_equal. apply IH; [|lia..].
  by replace (S b + k) with (b + S k) by lia.
Qed.

(** ** Encodings are injective *)

Lemma encode_tokens_inj s t :
  tokens_ok s -> tokens_ok t -> encode_tokens s = encode_tokens t -> s = t.
Proof.
  intros Hs. revert t. induction Hs as [|x s Hx Hs IH]; intros t Ht E; destruct Ht as [|y t Hy Ht].
  - done.
  - by apply (f_equal length) in E.
  - by apply (f_equal length) in E.
  - unfold encode_tokens in E. rewrite !fmap_cons in E. cbn [concat] in E.
    apply app_inj_1 in E as [E1 E2]; [|by rewrite !length_le_bytes].
    apply le_bytes_inj in E1; [|wrap_lia..].
    f_equal; [|by apply IH].
    rewrite <- (i32_u32 x), <- (i32_u32 y) by done. by f_equal.
Qed.

Lemma length_encode_tokens s : length (encode_tokens s) = 4 * length s.
Proof.
  induction s as [|x s IH]; [done|]. unfold encode_tokens in *. rewrite fmap_cons.
  cbn [concat]. rewrite length_app, IH, length_le_bytes. simpl. lia.
Qed.

Lemma block_at_ok toks bt b : tokens_ok toks -> tokens_ok (block_at toks bt b).
Proof. intros H. unfold block_at. by apply Forall_take, Forall_drop. Qed.

Lemma take_block_succ toks bt b :
  take (S b * bt) toks = take (b * bt) toks ++ block_at toks bt b.
Proof.
  unfold block_at. replace (S b * bt) with (b * bt + bt) by lia.
  by rewrite take_take_drop.
Qed.

(** Walking back from a common hash: the chaining values and the blocks agree
    all the way, or two of the hashed messages collide. *)
Lemma loop_collision toks toks' bt b n n' prev prev' i x y :
  tokens_ok toks -> tokens_ok toks' ->
  chain_loop toks bt b n prev !! i = Some x ->
  chain_loop toks' bt b n' prev' !! i = Some y ->
  blk_hash x = blk_hash y ->
  (prev = prev' /\ forall j, j <= i -> block_at toks bt (b + j) = block_at toks' bt (b + j))
  \/ exists m m', m ∈ loop_messages toks bt b n prev /\ m' ∈ loop_messages toks' bt b n' prev'
                  /\ collision m m'.
Proof.
  intros Hok Hok'. revert b n n' prev prev'.
  induction i as [|i IH]; intros b n n' prev prev' Hx Hy Hh;
    (destruct n as [|n]; [done|]); (destruct n' as [|n']; [done|]); simpl in *.
  - revert Hh. simplify_eq. simpl. intros [E|Hc]%sha256_eq.
    + left. apply app_inj_1 in E as [E1%hash32_eq E2%encode_tokens_inj];
        try apply block_at_ok; try done; [|by rewrite !length_hash_bytes].
      split; [done|]. intros j Hj. by replace j with 0 by lia; rewrite Nat.add_0_r.
    + right. eexists _, _. split; [apply list_elem_of_here|]. by split; [apply list_elem_of_here|].
  - specialize (IH _ _ _ _ _ Hx Hy Hh) as [[E Hj]|(m & m' & Hm & Hm' & Hc)].
    + apply sha256_eq in E as [E|Hc].
      * left. apply app_inj_1 in E as [E1%hash32_eq E2%encode_tokens_inj];
          try apply block_at_ok; try done; [|by rewrite !length_hash_bytes].
        split; [done|]. intros [|j] Hle; [by rewrite Nat.add_0_r|].
        rewrite <- Nat.add_succ_comm. apply Hj. lia.
      * right. eexists _, _. split; [apply list_elem_of_here|].
        by split; [apply list_elem_of_here|].
    + right. exists m, m'. by repeat split; try apply list_elem_of_further; try apply Hc.
Qed.

Lemma take_blocks_eq toks toks' bt n :
  (forall j, j < n -> block_at toks bt j = block_at toks' bt j) ->
  take (n * bt) toks = take (n * bt) toks'.
Proof.
  induction n as [|n IH]; intros H; [done|].
  rewrite !take_block_succ, H, IH by auto with lia. done.
Qed.

Lemma seed_inj_or m m' : 
  seed m = seed m' ->
  m = m' \/ collision (seedPrefix ++ bytes_of_string m) (seedPrefix ++ bytes_of_string m').
Proof.
  intros [E|Hc]%sha256_eq; [left|by right].
  by apply app_inv_head, bytes_of_string_inj in E.
Qed.

Lemma ChainBlocks_unfold m toks bt :
  (0 < bt)%Z -> 
  ChainBlocks m toks bt = chain_loop toks (Z.to_nat bt) 0 (length toks / Z.to_nat bt) (seed m).
Proof.
  intros Hbt. unfold ChainBlocks. case_decide as Hd; [|done].
  rewrite Nat.div_small by lia. done.
Qed.

Lemma Chain_messages_unfold m toks bt : 
  chain_messages m toks bt
  = (seedPrefix ++ bytes_of_string m)
    :: loop_messages toks (Z.to_nat bt) 0 (length toks / Z.to_nat bt) (seed m).
Proof. done. Qed.

(** ** Properties *)

(** One hash per full block: [ChainBlocks] returns [len/blockTokens] blocks,
    block [i] carries exactly the [blockTokens] tokens of its slice, and the
    blocks together are the prompt without its trailing partial block. *)
Theorem ChainBlocks_covers_full_blocks (m : string) (toks : list Z) (bt : Z) :
  (0 < bt)%Z ->
  let blocks := ChainBlocks m toks bt in
  let n := Z.to_nat bt in
  length blocks = length toks / n
  /\ (forall i b, blocks !! i = Some b ->
        blk_tokens b = block_at toks n i /\ length (blk_tokens b) = n)
  /\ concat (blk_tokens <$> blocks) = take (length toks / n * n) toks.
Proof.
  intros Hbt blocks n. unfold blocks. rewrite ChainBlocks_unfold by done. fold n.
  assert (Hi : forall i b, chain_loop toks n 0 (length toks / n) (seed m) !! i = Some b ->
    blk_tokens b = block_at toks n i) by (intros i b Hb; by apply chain_loop_tokens in Hb).
  split; [apply length_chain_loop|]. split.
  - intros i b Hb. rewrite (Hi i b Hb). split; [done|].
    apply lookup_lt_Some in Hb. rewrite length_chain_loop in Hb.
    apply length_block_at. pose proof (Nat.div_mod_eq (length toks) n). nia.
  - assert (forall k, k <= length toks / n ->
      concat (blk_tokens <$> take k (chain_loop toks n 0 (length toks / n) (seed m)))
      = take (k * n) toks) as Hk.
    { induction k as [|k IH]; intros Hle; [done|].
      destruct (lookup_lt_is_Some_2 (chain_loop toks n 0 (length toks / n) (seed m)) k)
        as [b Hb]; [by rewrite length_chain_loop|].
      rewrite (take_S_r _ _ _ Hb), fmap_app, concat_app, IH by lia.
      change (concat (blk_tokens <$> [b])) with (blk_tokens b ++ []).
      by rewrite app_nil_r, (Hi k b Hb), take_block_succ. }
    rewrite <- Hk by done. by rewrite take_ge by (by rewrite length_chain_loop).
Qed.

Lemma ChainBlocks_covers_full_blocks_witness :
  (0 < 2)%Z
  /\ (blk_tokens <$> ChainBlocks "m" [1; 2; 3; 4; 5]%Z 2) = [[1; 2]; [3; 4]]%Z
  /\ length (ChainBlocks "m" [1; 2; 3; 4; 5]%Z 2) = length [1; 2; 3; 4; 5]%Z / 2.
Proof.
  split; [done|]. split; [reflexivity|].
  exact (proj1 (ChainBlocks_covers_full_blocks "m" [1; 2; 3; 4; 5]%Z 2 eq_refl)).
Defined.

(** Prompts of one model that share their first [k] blocks of tokens share
    the first [k] block hashes, whatever follows: the property longest-prefix
    matching rests on. *)
Theorem Chain_shared_prefix (m : string) (toks toks' : list Z) (bt : Z) (k : nat) :
  (0 < bt)%Z ->
  k * Z.to_nat bt <= length toks ->
  k * Z.to_nat bt <= length toks' ->
  take (k * Z.to_nat bt) toks = take (k * Z.to_nat bt) toks' ->
  take k (Chain m toks bt) = take k (Chain m toks' bt)
  /\ length (take k (Chain m toks bt)) = k.
Proof.
  intros Hbt Hk Hk' Ht. unfold Chain. rewrite !ChainBlocks_unfold by done.
  assert (k <= length toks / Z.to_nat bt) by (apply Nat.div_le_lower_bound; lia).
  assert (k <= length toks' / Z.to_nat bt) by (apply Nat.div_le_lower_bound; lia).
  split.
  - rewrite <- !fmap_take. f_equal. by apply chain_loop_ext.
  - rewrite length_take, length_fmap, length_chain_loop. lia.
Qed.

Lemma Chain_shared_prefix_witness :
  take 1 (Chain "m" [1; 2; 3; 4]%Z 2) = take 1 (Chain "m" [1; 2; 9; 9; 7]%Z 2).
Proof.
  apply (Chain_shared_prefix "m" [1; 2; 3; 4]%Z [1; 2; 9; 9; 7]%Z 2 1);
    [done|simpl; lia|simpl; lia|reflexivity].
Defined.

(** C16. A block hash binds the model and the whole prefix: if the hashes at
    index [i] of two prompts are equal, the models and all the tokens up to the
    end of block [i] are equal, or two of the messages the two computations
    hashed are an explicit SHA-256 collision. *)
Theorem Chain_binds_prefix (m m' : string) (toks toks' : list Z) (bt : Z) (i : nat) (h : hash32) :
  (0 < bt)%Z -> tokens_ok toks -> tokens_ok toks' ->
  Chain m toks bt !! i = Some h ->
  Chain m' toks' bt !! i = Some h ->
  (m = m' /\ take (S i * Z.to_nat bt) toks = take (S i * Z.to_nat bt) toks')
  \/ exists x y, x ∈ chain_messages m toks bt /\ y ∈ chain_messages m' toks' bt /\ collision x y.
Proof.
  intros Hbt Hok Hok' Hx Hy. unfold Chain in *. rewrite !ChainBlocks_unfold in * by done.
  rewrite list_lookup_fmap in Hx, Hy.
  apply fmap_Some in Hx as (b & Hb & ->). apply fmap_Some in Hy as (b' & Hb' & Hh).
  destruct (loop_collision _ _ _ _ _ _ _ _ _ _ _ Hok Hok' Hb Hb' Hh)
    as [[Hseed Hj]|(x & y & Hx & Hy & Hc)].
  - destruct (seed_inj_or _ _ Hseed) as [->|Hc].
    + left. split; [done|]. apply take_blocks_eq. intros j Hlt. apply (Hj j). lia.
    + right. eexists _, _. rewrite !Chain_messages_unfold.
      split; [apply list_elem_of_here|split; [apply list_elem_of_here|exact Hc]].
  - right. exists x, y. rewrite !Chain_messages_unfold.
    split; [by apply list_elem_of_further|split; [by apply list_elem_of_further|exact Hc]].
Qed.

Lemma Chain_binds_prefix_witness :
  let h := default hash32_zero (Chain "m" [1; 2]%Z 2 !! 0) in
  Chain "m" [1; 2; 3]%Z 2 !! 0 = Some h
  /\ (("m" = "m" /\ take 2 [1; 2]%Z = take 2 [1; 2; 3]%Z)
      \/ exists x y, x ∈ chain_messages "m" [1; 2]%Z 2
           /\ y ∈ chain_messages "m" [1; 2; 3]%Z 2 /\ collision x y).
Proof.
  intros h. assert (Chain "m" [1; 2; 3]%Z 2 !! 0 = Some h) as E by (vm_compute; reflexivity).
  split; [exact E|].
  apply (Chain_binds_prefix "m" "m" [1; 2]%Z [1; 2; 3]%Z 2 0 h);
    [done|by apply (bool_decide_unpack _); vm_compute
    |by apply (bool_decide_unpack _); vm_compute|exact E|exact E].
Defined.
