(* ===== verification/Policy.v ===== *)
(** The eviction-policy seam: [src/internal/cache/eviction.go] and the entry
    record of [src/internal/cache/entry.go].

    [EvictionPolicy] is the Go interface of the same name together with the
    optional capability [QuotaPolicy]; [PolicyLaws] is what the Store and the
    Evictor rely on and what the LRU and GDSF files prove. *)

From S2P Require Import Prelude Bytes Float64.

(** [BlockHash] *)
Abbreviation BlockHash := hash32.

(** [WriteMeta] *)
Record WriteMeta := mk_meta {
  meta_Key : BlockHash;
  meta_TenantID : string;
  meta_Size : Z;
  meta_Cost : float64;
}.

(** The order in which one [range] over a Go map with string keys visits its
    keys.  The language leaves it open, so an operation that ranges over such a
    map takes it as an argument and the theorems hold for every order. *)
Abbreviation MapOrder := (list string).

(** The interface [EvictionPolicy].  A method that mutates its receiver returns
    the new state; [Victim] also mutates it (the aging floor of GDSF).
    [OverQuota] is [None] for a policy that does not implement [QuotaPolicy]
    (the type assertion [s.policy.(QuotaPolicy)] fails). *)
Class EvictionPolicy (P : Type) := {
  RecordAccess : BlockHash -> P -> P;
  RecordWrite : WriteMeta -> P -> P;
  RecordEvict : BlockHash -> P -> P;
  Victim : MapOrder -> P -> option BlockHash * P;
  OverQuota : option (P -> bool);
}.

(** [qp, ok := s.policy.(QuotaPolicy); ok && qp.OverQuota()] *)
Definition over_quota `{EvictionPolicy P} (p : P) : bool :=
  match OverQuota with Some f => f p | None => false end.

(** What the Store and the Evictor need from a policy that can evict: it tracks
    exactly the keys written and not evicted since, and offers a tracked key as
    a victim whenever there is one. *)
Class PolicyLaws (P : Type) `{EvictionPolicy P} := {
  pol_inv : P -> Prop;
  tracked : P -> gset BlockHash;
  order_ok : MapOrder -> P -> Prop;
  law_access k p :
    pol_inv p -> pol_inv (RecordAccess k p) /\ tracked (RecordAccess k p) = tracked p;
  law_write m p :
    pol_inv p ->
    pol_inv (RecordWrite m p) /\ tracked (RecordWrite m p) = {[meta_Key m]} ∪ tracked p;
  law_evict k p :
    pol_inv p ->
    pol_inv (RecordEvict k p) /\ tracked (RecordEvict k p) = tracked p ∖ {[k]};
  law_ask o p : pol_inv p -> pol_inv (Victim o p).2 /\ tracked (Victim o p).2 = tracked p;
  law_victim o p :
    pol_inv p -> order_ok o p ->
    match (Victim o p).1 with
    | Some k => k ∈ tracked p
    | None => tracked p = ∅
    end;
  law_quota p : pol_inv p -> tracked p = ∅ -> over_quota p = false;
}.

(** What the evictor's wake-up relies on: only a write can put a tenant over its
    quota, as long as the tracked bytes are what they say in [int64]. *)
Class QuotaLaws (P : Type) `{PolicyLaws P} := {
  pol_fits : P -> Prop;
  quota_access k p : pol_inv p -> over_quota (RecordAccess k p) = true -> over_quota p = true;
  quota_evict k p : pol_inv p -> pol_fits p -> over_quota (RecordEvict k p) = true -> over_quota p = true;
  quota_ask o p : pol_inv p -> over_quota (Victim o p).2 = true -> over_quota p = true;
}.

(** [NoopPolicy]: every method does nothing. *)
Definition NoopPolicy : Type := unit.

#[export] Instance noop_policy : EvictionPolicy NoopPolicy := {|
  RecordAccess _ p := p;
  RecordWrite _ p := p;
  RecordEvict _ p := p;
  Victim _ p := (None, p);
  OverQuota := None;
|}.

(** ** Sequences of policy calls *)

(** The calls the Store makes on its policy, in the order it makes them. *)
Inductive policy_op :=
  | OpAccess (k : BlockHash)
  | OpWrite (m : WriteMeta)
  | OpEvict (k : BlockHash)
  | OpVictim (o : MapOrder).

Definition policy_step `{EvictionPolicy P} (p : P) (op : policy_op) : P :=
  match op with
  | OpAccess k => RecordAccess k p
  | OpWrite m => RecordWrite m p
  | OpEvict k => RecordEvict k p
  | OpVictim o => (Victim o p).2
  end.

Definition policy_run `{EvictionPolicy P} (p : P) (ops : list policy_op) : P :=
  fold_left policy_step ops p.

(** ** [entry.go] *)

(** [Entry].  The value fields are immutable once published; [accessCount] and
    [lastAccessed] are the two atomics, the latter in Unix nanoseconds with 0
    for "never read".  Times are Unix nanoseconds. *)
Record Entry := mk_entry {
  TokenIDs : list Z;
  KV : list byte;
  ModelID : string;
  WireHash : BlockHash;
  Version : Z;
  SizeBytes : Z;
  TenantID : string;
  RecomputeCost : float64;
  CreatedAt : Z;
  accessCount : Z;
  lastAccessed : Z;
}.

(** [AccessCount] *)
Definition AccessCount (e : Entry) : Z := accessCount e.

(** [LastAccessed]; [None] is the zero [time.Time]. *)
Definition LastAccessed (e : Entry) : option Z :=
  if decide (lastAccessed e = 0%Z) then None else Some (lastAccessed e).

(** [recordAccess] *)
Definition recordAccess (now : Z) (e : Entry) : Entry :=
  mk_entry (TokenIDs e) (KV e) (ModelID e) (WireHash e) (Version e) (SizeBytes e)
    (TenantID e) (RecomputeCost e) (CreatedAt e) (u64 (accessCount e + 1)) (i64 now).

(** The two entries differ at most in the access bookkeeping. *)
Definition same_value (e e' : Entry) : Prop :=
  TokenIDs e = TokenIDs e' /\ KV e = KV e' /\ ModelID e = ModelID e' /\ WireHash e = WireHash e'
  /\ Version e = Version e' /\ SizeBytes e = SizeBytes e' /\ TenantID e = TenantID e'
  /\ RecomputeCost e = RecomputeCost e' /\ CreatedAt e = CreatedAt e'.
