(* ===== verification/Lru.v ===== *)
(** The LRU policy: [src/internal/cache/lru.go] on Go's [container/list].

    The list keeps its elements (a pointer and the key parked in it) front
    first; [items] maps a key to its element.  [LruSpec] is an independent
    reference: every key carries the logical time of its last use and the victim
    is the key with the smallest one.  The refinement theorem relates the two
    over every sequence of calls. *)

From S2P Require Import Prelude Bytes Float64 Policy.

(** ** container/list *)

(** An element pointer and the key of the [lruItem] parked in it. *)
Definition element : Type := nat * BlockHash.

(** [l.Remove(e)] *)
Definition list_remove (e : nat) (l : list element) : list element :=
  filter (fun x => x.1 <> e) l.

(** [l.MoveToFront(e)]; the element keeps its pointer and its value. *)
Definition MoveToFront (e : nat) (l : list element) : list element :=
  match list_find (fun x => x.1 = e) l with
  | Some (_, x) => x :: list_remove e l
  | None => l
  end.

(** [l.PushFront(&lruItem{key: h})] with a fresh element pointer [e]. *)
Definition PushFront (e : nat) (h : BlockHash) (l : list element) : list element := (e, h) :: l.

(** ** LRUPolicy *)

Record LRUPolicy := mk_lru {
  ll : list element;
  items : gmap BlockHash nat;
  next_element : nat;
}.

Definition NewLRU : LRUPolicy := mk_lru [] ∅ 0.

Definition lru_RecordAccess (h : BlockHash) (p : LRUPolicy) : LRUPolicy :=
  match items p !! h with
  | Some e => mk_lru (MoveToFront e (ll p)) (items p) (next_element p)
  | None => p
  end.

Definition lru_RecordWrite (meta : WriteMeta) (p : LRUPolicy) : LRUPolicy :=
  let h := meta_Key meta in
  match items p !! h with
  | Some e => mk_lru (MoveToFront e (ll p)) (items p) (next_element p)
  | None =>
      let e := next_element p in
      mk_lru (PushFront e h (ll p)) (<[h := e]> (items p)) (S e)
  end.

Definition lru_RecordEvict (h : BlockHash) (p : LRUPolicy) : LRUPolicy :=
  match items p !! h with
  | Some e => mk_lru (list_remove e (ll p)) (delete h (items p)) (next_element p)
  | None => p
  end.

(** The key parked in [p.ll.Back()], if the list is not empty. *)
Definition lru_Victim (p : LRUPolicy) : option BlockHash := snd <$> last (ll p).

#[export] Instance lru_policy : EvictionPolicy LRUPolicy := {|
  RecordAccess := lru_RecordAccess;
  RecordWrite := lru_RecordWrite;
  RecordEvict := lru_RecordEvict;
  Victim _ p := (lru_Victim p, p);
  OverQuota := None;
|}.

(** ** The recency list *)

(** The keys, most recently used first. *)
Definition recency (p : LRUPolicy) : list BlockHash := snd <$> ll p.

(** The element list and the index agree, and no pointer or key occurs twice. *)
Record lru_inv (p : LRUPolicy) : Prop := mk_lru_inv {
  inv_ids : NoDup (fst <$> ll p);
  inv_keys : NoDup (recency p);
  inv_items h e : items p !! h = Some e <-> (e, h) ∈ ll p;
  inv_fresh e h : (e, h) ∈ ll p -> e < next_element p;
}.

(** Moving [h] to the front of a recency list, and dropping it. *)
Definition touch (h : BlockHash) (l : list BlockHash) : list BlockHash :=
  h :: filter (fun x => x <> h) l.
Definition drop_key (h : BlockHash) (l : list BlockHash) : list BlockHash :=
  filter (fun x => x <> h) l.

(** ** Reference: last-use timestamps *)

Module LruSpec.

Record spec := mk_spec { stamps : gmap BlockHash nat; clock : nat }.

Definition init : spec := mk_spec ∅ 0.

Definition use (h : BlockHash) (s : spec) : spec :=
  mk_spec (<[h := clock s]> (stamps s)) (S (clock s)).

Definition step (s : spec) (op : policy_op) : spec :=
  match op with
  | OpWrite m => use (meta_Key m) s
  | OpAccess h => if decide (h ∈ dom (stamps s)) then use h s else s
  | OpEvict h => mk_spec (delete h (stamps s)) (clock s)
  | OpVictim _ => s
  end.

Definition run (s : spec) (ops : list policy_op) : spec := fold_left step ops s.

(** [h] is the victim: it is stamped and every other stamped key is younger. *)
Definition is_victim (s : spec) (h : BlockHash) : Prop :=
  exists t, stamps s !! h = Some t /\
    forall h' t', stamps s !! h' = Some t' -> h' <> h -> t < t'.

End LruSpec.

(** ** The invariant is kept, and what each call does to the recency list *)

Section lru_lemmas.
Implicit Types (p : LRUPolicy) (h : BlockHash) (e : nat) (l : list element).

Lemma elem_of_recency p h : h ∈ recency p <-> exists e, (e, h) ∈ ll p.
Proof.
  unfold recency. rewrite list_elem_of_fmap. split.
  - intros ([e h'] & -> & ?). by exists e.
  - intros [e ?]. by exists (e, h).
Qed.

Lemma inv_tracked p h : lru_inv p -> (exists e, items p !! h = Some e) <-> h ∈ recency p.
Proof. intros Hp. rewrite elem_of_recency. by setoid_rewrite (inv_items p Hp h). Qed.

Lemma inv_untracked p h : lru_inv p -> items p !! h = None -> h ∉ recency p.
Proof. intros Hp Hn Hin. apply (inv_tracked p h Hp) in Hin as [e He]. congruence. Qed.

Lemma elem_same_id l e h h' : NoDup (fst <$> l) -> (e, h) ∈ l -> (e, h') ∈ l -> h = h'.
Proof.
  induction l as [|[e0 h0] l IH]; simpl; intros Hnd H1 H2; [by apply not_elem_of_nil in H1|].
  apply NoDup_cons in Hnd as [Hn Hnd].
  assert (forall h, (e0, h) ∉ l).
  { intros h1 ?. apply Hn. apply list_elem_of_fmap. by exists (e0, h1). }
  apply elem_of_cons in H1 as [?|?], H2 as [?|?]; simplify_eq; naive_solver.
Qed.

Lemma elem_same_key l e e' h : NoDup (snd <$> l) -> (e, h) ∈ l -> (e', h) ∈ l -> e = e'.
Proof.
  induction l as [|[e0 h0] l IH]; simpl; intros Hnd H1 H2; [by apply not_elem_of_nil in H1|].
  apply NoDup_cons in Hnd as [Hn Hnd].
  assert (forall e, (e, h0) ∉ l).
  { intros e1 ?. apply Hn. apply list_elem_of_fmap. by exists (e1, h0). }
  apply elem_of_cons in H1 as [?|?], H2 as [?|?]; simplify_eq; naive_solver.
Qed.

(** Unlinking the element of [h] is filtering [h] out. *)
Lemma remove_recency l e h :
  (forall x, x ∈ l -> x.1 = e <-> x.2 = h) ->
  snd <$> list_remove e l = drop_key h (snd <$> l).
Proof.
  unfold list_remove, drop_key. induction l as [|x l IH]; intros Hl; [done|].
  rewrite fmap_cons, !filter_cons, <- IH by (intros; apply Hl; by apply list_elem_of_further).
  pose proof (Hl x ltac:(apply list_elem_of_here)). repeat case_decide; solve [tauto | done].
Qed.

Lemma item_matches p e h :
  lru_inv p -> (e, h) ∈ ll p -> forall x, x ∈ ll p -> x.1 = e <-> x.2 = h.
Proof.
  intros [Hids Hkeys _ _] Hin [e' h'] Hx. simpl. split; intros <-.
  - by eapply elem_same_id.
  - by eapply elem_same_key.
Qed.

Lemma ids_remove e l : NoDup (fst <$> l) -> NoDup (fst <$> list_remove e l).
Proof.
  unfold list_remove. induction l as [|x l IH]; [done|].
  rewrite fmap_cons, NoDup_cons, filter_cons. intros [Hx Hnd]. case_decide; [|by apply IH].
  rewrite fmap_cons, NoDup_cons. split; [|by apply IH].
  intros (y & Hy & Hin)%list_elem_of_fmap. apply list_elem_of_filter in Hin as [_ Hin].
  apply Hx, list_elem_of_fmap. by exists y.
Qed.

Lemma not_in_remove e l : e ∉ fst <$> list_remove e l.
Proof.
  intros (y & Hy & Hin)%list_elem_of_fmap. apply list_elem_of_filter in Hin as [? _]. congruence.
Qed.

Lemma drop_key_NoDup h (l : list BlockHash) : NoDup l -> NoDup (drop_key h l).
Proof. apply NoDup_filter. Qed.

Lemma elem_of_drop_key x h (l : list BlockHash) : x ∈ drop_key h l <-> x ∈ l /\ x <> h.
Proof. unfold drop_key. rewrite list_elem_of_filter. tauto. Qed.

Lemma touch_NoDup h (l : list BlockHash) : NoDup l -> NoDup (touch h l).
Proof.
  intros. apply NoDup_cons. split; [|by apply NoDup_filter].
  intros [? _]%list_elem_of_filter. congruence.
Qed.

Lemma MoveToFront_eq p e h :
  lru_inv p -> (e, h) ∈ ll p -> MoveToFront e (ll p) = (e, h) :: list_remove e (ll p).
Proof.
  intros Hp Hin. unfold MoveToFront.
  match goal with |- context [list_find ?P ?l] => destruct (list_find P l) as [[i x]|] eqn:Hf end.
  - apply list_find_Some in Hf as (Hi & Hx & _). destruct x as [e' h']. simpl in Hx. subst.
    f_equal. f_equal. symmetry. eapply elem_same_id; [apply Hp|done|]. by eapply list_elem_of_lookup_2.
  - apply list_find_None in Hf. rewrite Forall_forall in Hf. by destruct (Hf _ Hin).
Qed.

Lemma MoveToFront_recency p e h :
  lru_inv p -> (e, h) ∈ ll p -> snd <$> MoveToFront e (ll p) = touch h (recency p).
Proof.
  intros Hp Hin. rewrite (MoveToFront_eq p e h) by done.
  rewrite fmap_cons, (remove_recency _ e h) by by apply item_matches. done.
Qed.

Lemma elem_of_remove e x l : x ∈ list_remove e l <-> x ∈ l /\ x.1 <> e.
Proof. unfold list_remove. rewrite list_elem_of_filter. tauto. Qed.

Lemma lru_inv_move p e h :
  lru_inv p -> items p !! h = Some e ->
  lru_inv (mk_lru (MoveToFront e (ll p)) (items p) (next_element p)).
Proof.
  intros Hp He. apply (inv_items p Hp) in He. split.
  - cbn [ll]. rewrite (MoveToFront_eq p e h), fmap_cons by done. apply NoDup_cons.
    split; [apply not_in_remove | apply ids_remove, Hp].
  - unfold recency at 1. cbn [ll]. rewrite (MoveToFront_recency p e h) by done.
    apply touch_NoDup, Hp.
  - intros h' e'. cbn [ll items]. rewrite (MoveToFront_eq p e h) by done.
    rewrite (inv_items p Hp), elem_of_cons, elem_of_remove. simpl.
    split; [|naive_solver]. intros Hin.
    destruct (decide (e' = e)) as [->|]; [left|by right].
    f_equal. eapply elem_same_id; [apply Hp| |]; eauto.
  - intros e' h'. cbn [ll next_element]. rewrite (MoveToFront_eq p e h) by done.
    rewrite elem_of_cons, elem_of_remove. intros [?|[? _]]; simplify_eq; by eapply Hp.
Qed.

Lemma lru_inv_push p h :
  lru_inv p -> items p !! h = None ->
  lru_inv (mk_lru (PushFront (next_element p) h (ll p))
             (<[h := next_element p]> (items p)) (S (next_element p))).
Proof.
  intros Hp Hn.
  assert (Hfresh : forall h', (next_element p, h') ∉ ll p).
  { intros h' Hin. apply (inv_fresh p Hp) in Hin. lia. }
  split; unfold PushFront, recency; cbn [ll items next_element]; rewrite ?fmap_cons.
  - apply NoDup_cons. split; [|apply Hp].
    intros ([e' h'] & Heq & Hin)%list_elem_of_fmap. simpl in Heq. subst. by eapply Hfresh.
  - apply NoDup_cons. split; [by apply inv_untracked | apply Hp].
  - intros h' e'. rewrite elem_of_cons. destruct (decide (h' = h)) as [->|Hne].
    + rewrite lookup_insert_eq. split; [intros; simplify_eq; by left|].
      intros [?|Hin]; [by simplify_eq|].
      apply (inv_items p Hp) in Hin. congruence.
    + rewrite lookup_insert_ne, (inv_items p Hp) by done. naive_solver.
  - intros e' h' [?|Hin]%elem_of_cons; [by simplify_eq; lia|].
    apply (inv_fresh p Hp) in Hin. lia.
Qed.

Lemma lru_inv_remove p e h :
  lru_inv p -> items p !! h = Some e ->
  lru_inv (mk_lru (list_remove e (ll p)) (delete h (items p)) (next_element p)).
Proof.
  intros Hp He. pose proof He as Hin. apply (inv_items p Hp) in Hin.
  split; unfold recency; cbn [ll items next_element].
  - apply ids_remove, Hp.
  - rewrite (remove_recency _ e h) by by apply item_matches. apply drop_key_NoDup, Hp.
  - intros h' e'. rewrite lookup_delete_Some, elem_of_remove, (inv_items p Hp). simpl.
    pose proof (item_matches p e h Hp Hin (e', h')) as Hm. simpl in Hm. naive_solver.
  - intros e' h'. rewrite elem_of_remove. intros [? _]. by eapply Hp.
Qed.

End lru_lemmas.

#[export] Hint Resolve lru_inv_move lru_inv_push lru_inv_remove : kv.

Lemma lru_RecordAccess_spec h p :
  lru_inv p ->
  lru_inv (lru_RecordAccess h p)
  /\ recency (lru_RecordAccess h p) = if decide (h ∈ recency p) then touch h (recency p) else recency p.
Proof.
  intros Hp. unfold lru_RecordAccess. destruct (items p !! h) as [e|] eqn:He.
  - split; [by eauto with kv|]. pose proof He as Hin. apply (inv_items p Hp) in Hin.
    rewrite decide_True by (apply elem_of_recency; eauto). by apply MoveToFront_recency.
  - rewrite decide_False by by apply inv_untracked. done.
Qed.

Lemma drop_key_absent h (l : list BlockHash) : h ∉ l -> drop_key h l = l.
Proof.
  unfold drop_key. induction l as [|x l IH]; [done|]. rewrite not_elem_of_cons, filter_cons.
  intros [? ?]. rewrite decide_True by done. f_equal. auto.
Qed.

Lemma lru_RecordWrite_spec m p :
  lru_inv p ->
  lru_inv (lru_RecordWrite m p)
  /\ recency (lru_RecordWrite m p) = touch (meta_Key m) (recency p).
Proof.
  intros Hp. unfold lru_RecordWrite. destruct (items p !! meta_Key m) as [e|] eqn:He.
  - split; [by eauto with kv|]. apply (inv_items p Hp) in He. by apply MoveToFront_recency.
  - split; [by eauto with kv|]. apply inv_untracked in He; [|done].
    unfold recency, PushFront, touch. cbn [ll]. rewrite fmap_cons. f_equal.
    symmetry. by apply drop_key_absent.
Qed.

Lemma lru_RecordEvict_spec h p :
  lru_inv p ->
  lru_inv (lru_RecordEvict h p) /\ recency (lru_RecordEvict h p) = drop_key h (recency p).
Proof.
  intros Hp. unfold lru_RecordEvict. destruct (items p !! h) as [e|] eqn:He.
  - split; [by eauto with kv|]. apply (inv_items p Hp) in He.
    unfold recency. cbn [ll]. rewrite (remove_recency _ e h) by by apply item_matches. done.
  - split; [done|]. symmetry. by apply drop_key_absent, inv_untracked.
Qed.

Lemma lru_inv_new : lru_inv NewLRU.
Proof.
  split; unfold recency; simpl; try constructor; intros;
    repeat match goal with
    | H : _ ∈ [] |- _ => by apply not_elem_of_nil in H
    | H : ∅ !! _ = Some _ |- _ => by rewrite lookup_empty in H
    end.
Qed.

Lemma elem_of_touch x h (l : list BlockHash) : x ∈ touch h l <-> x = h \/ x ∈ l.
Proof.
  unfold touch. rewrite elem_of_cons, list_elem_of_filter.
  destruct (decide (x = h)); naive_solver.
Qed.

Lemma lru_Victim_last p : lru_Victim p = last (recency p).
Proof. unfold lru_Victim, recency. by rewrite fmap_last. Qed.

(** LRU meets the contract of the eviction seam. *)
#[export] Instance lru_laws : PolicyLaws LRUPolicy.
Proof.
  refine {|
    pol_inv := lru_inv;
    tracked p := list_to_set (recency p);
    order_ok _ _ := True;
  |}.
  - intros k p Hp. destruct (lru_RecordAccess_spec k p Hp) as [? Hr]. split; [done|].
    simpl. rewrite Hr. case_decide; [|done]. apply set_eq. intros x.
    rewrite !elem_of_list_to_set, elem_of_touch. naive_solver.
  - intros m p Hp. destruct (lru_RecordWrite_spec m p Hp) as [? Hr]. split; [done|].
    simpl. rewrite Hr. apply set_eq. intros x.
    rewrite elem_of_union, elem_of_singleton, !elem_of_list_to_set, elem_of_touch. done.
  - intros k p Hp. destruct (lru_RecordEvict_spec k p Hp) as [? Hr]. split; [done|].
    simpl. rewrite Hr. apply set_eq. intros x.
    rewrite elem_of_difference, elem_of_singleton, !elem_of_list_to_set, elem_of_drop_key. done.
  - done.
  - intros o p Hp _. simpl. rewrite lru_Victim_last.
    destruct (last (recency p)) as [k|] eqn:Hl.
    + apply elem_of_list_to_set, last_Some_elem_of. done.
    + apply last_None in Hl. by rewrite Hl.
  - done.
Defined.

(** It has no quotas. *)
#[export] Instance lru_quota : QuotaLaws LRUPolicy.
Proof. by refine {| pol_fits _ := True |}. Defined.

(** ** Refinement of the timestamp reference *)

(** The recency list is the stamped keys in strictly decreasing stamp order. *)
Record lru_refines (p : LRUPolicy) (s : LruSpec.spec) : Prop := mk_lru_refines {
  ref_dom h : h ∈ recency p <-> is_Some (LruSpec.stamps s !! h);
  ref_clock h t : LruSpec.stamps s !! h = Some t -> t < LruSpec.clock s;
  ref_sorted : StronglySorted
    (fun a b => forall ta tb, LruSpec.stamps s !! a = Some ta -> LruSpec.stamps s !! b = Some tb -> tb < ta)
    (recency p);
}.

Lemma sorted_drop_key {R : BlockHash -> BlockHash -> Prop} h (l : list BlockHash) :
  StronglySorted R l -> StronglySorted R (drop_key h l).
Proof.
  unfold drop_key. induction 1 as [|x l Hl IH Hx]; [constructor|].
  rewrite filter_cons. case_decide; [|done]. constructor; [done|].
  rewrite Forall_forall in *. intros y [_ ?]%list_elem_of_filter. auto.
Qed.

Lemma StronglySorted_impl_in {R S : BlockHash -> BlockHash -> Prop} l :
  (forall a b, a ∈ l -> b ∈ l -> R a b -> S a b) -> StronglySorted R l -> StronglySorted S l.
Proof.
  intros HRS Hl. induction Hl as [|x l Hl IH Hx]; [constructor|]. constructor.
  - apply IH. intros a b Ha Hb. apply HRS; by apply list_elem_of_further.
  - rewrite Forall_forall in *. intros y Hy.
    apply HRS; [apply list_elem_of_here | by apply list_elem_of_further | auto].
Qed.

Lemma refines_use p p' h s :
  lru_refines p s -> recency p' = touch h (recency p) -> lru_refines p' (LruSpec.use h s).
Proof.
  intros [Hdom Hclk Hsort] Hr. split; rewrite ?Hr; simpl.
  - intros x. rewrite elem_of_touch, Hdom. destruct (decide (x = h)) as [->|].
    + rewrite lookup_insert_eq. naive_solver.
    + rewrite lookup_insert_ne by done. naive_solver.
  - intros x t. destruct (decide (x = h)) as [->|].
    + rewrite lookup_insert_eq. naive_solver lia.
    + rewrite lookup_insert_ne by done. intros ?%Hclk. lia.
  - constructor.
    + eapply StronglySorted_impl_in, sorted_drop_key, Hsort. simpl.
      intros a b [_ Ha]%elem_of_drop_key [_ Hb]%elem_of_drop_key.
      by rewrite !lookup_insert_ne by done.
    + apply Forall_forall. intros x [_ Hx]%elem_of_drop_key ta tb.
      rewrite lookup_insert_eq, lookup_insert_ne by done. intros [= <-] ?%Hclk. done.
Qed.

Lemma refines_step p s op :
  lru_inv p -> lru_refines p s ->
  lru_inv (policy_step p op) /\ lru_refines (policy_step p op) (LruSpec.step s op).
Proof.
  intros Hp Hs. destruct op as [h|m|h|o]; simpl.
  - destruct (lru_RecordAccess_spec h p Hp) as [? Hr]. split; [done|].
    case_decide as Hin; case_decide as Hd; rewrite elem_of_dom, <- (ref_dom _ _ Hs) in Hd; try done.
    + by eapply refines_use.
    + destruct Hs as [H1 H2 H3]. split; by rewrite ?Hr.
  - destruct (lru_RecordWrite_spec m p Hp) as [? Hr]. split; [done|]. by eapply refines_use.
  - destruct (lru_RecordEvict_spec h p Hp) as [? Hr]. split; [done|].
    destruct Hs as [Hdom Hclk Hsort]. split; rewrite ?Hr; simpl.
    + intros x. rewrite elem_of_drop_key, Hdom. destruct (decide (x = h)) as [->|].
      * rewrite lookup_delete_eq. split; [naive_solver|by intros []].
      * rewrite lookup_delete_ne by done. naive_solver.
    + intros x t [_ ?]%lookup_delete_Some. by eapply Hclk.
    + eapply StronglySorted_impl_in, sorted_drop_key, Hsort. simpl.
      intros a b [_ Ha]%elem_of_drop_key [_ Hb]%elem_of_drop_key.
      by rewrite !lookup_delete_ne by done.
  - done.
Qed.

Lemma refines_run p s ops :
  lru_inv p -> lru_refines p s ->
  lru_inv (policy_run p ops) /\ lru_refines (policy_run p ops) (LruSpec.run s ops).
Proof.
  revert p s. induction ops as [|op ops IH]; intros p s Hp Hs; [done|].
  destruct (refines_step p s op Hp Hs). by apply IH.
Qed.

Lemma refines_init : lru_refines NewLRU LruSpec.init.
Proof.
  split; simpl.
  - intros h. rewrite lookup_empty. split; [|by intros []]. by intros ?%not_elem_of_nil.
  - intros h t. by rewrite lookup_empty.
  - constructor.
Qed.

Lemma last_StronglySorted {R : BlockHash -> BlockHash -> Prop} (l : list BlockHash) y :
  StronglySorted R l -> last l = Some y -> forall x, x ∈ l -> x <> y -> R x y.
Proof.
  induction 1 as [|a l Hl IH Ha]; intros Hlast x Hx Hne; [done|].
  destruct l as [|b l].
  - simpl in Hlast. simplify_eq. apply list_elem_of_singleton in Hx. done.
  - rewrite last_cons_cons in Hlast. apply elem_of_cons in Hx as [->|Hx]; [|by apply IH].
    rewrite Forall_forall in Ha. apply Ha. by apply last_Some_elem_of.
Qed.

(** C35. The LRU policy refines the timestamp reference: after any sequence of
    policy calls [Victim] is the tracked key whose last read or write is the
    oldest, and it reports no victim exactly when no key is tracked. *)
Theorem lru_victim_is_least_recently_used ops :
  let p := policy_run NewLRU ops in
  let s := LruSpec.run LruSpec.init ops in
  match lru_Victim p with
  | Some h => LruSpec.is_victim s h
  | None => LruSpec.stamps s = ∅
  end.
Proof.
  intros p s. destruct (refines_run _ _ ops lru_inv_new refines_init) as [Hp [Hdom _ Hsort]].
  fold p s in Hp, Hdom, Hsort. rewrite lru_Victim_last.
  destruct (last (recency p)) as [h|] eqn:Hl.
  - destruct (proj1 (Hdom h) (last_Some_elem_of _ _ Hl)) as [t Ht]. exists t. split; [done|].
    intros h' t' Ht' Hne.
    eapply (last_StronglySorted _ _ Hsort Hl h'); [apply Hdom; by eexists|done..].
  - apply last_None in Hl. apply map_empty. intros h.
    destruct (LruSpec.stamps s !! h) eqn:E; [|done].
    assert (h ∈ recency p) as Hin by (apply Hdom; by eexists).
    rewrite Hl in Hin. by apply not_elem_of_nil in Hin.
Qed.

(** Reading or rewriting a tracked key protects it: it is not the next
    victim unless it is the only tracked key. *)
Theorem lru_use_protects ops h :
  h ∈ recency (policy_run NewLRU ops) ->
  lru_Victim (lru_RecordAccess h (policy_run NewLRU ops)) = Some h ->
  recency (policy_run NewLRU ops) = [h].
Proof.
  intros Hin. destruct (refines_run _ _ ops lru_inv_new refines_init) as [Hp _].
  revert Hin Hp. generalize (policy_run NewLRU ops) as p. intros p Hin Hp Hv.
  rewrite lru_Victim_last, (proj2 (lru_RecordAccess_spec h p Hp)), decide_True in Hv by done.
  unfold touch in Hv. pose proof (inv_keys p Hp) as Hnd.
  destruct (filter (fun x => x <> h) (recency p)) as [|b l] eqn:Hf.
  - assert (Hall : forall x, x ∈ recency p -> x = h).
    { intros x Hx. destruct (decide (x = h)); [done|].
      assert (x ∈ filter (fun x => x <> h) (recency p)) as Hx' by by apply list_elem_of_filter.
      rewrite Hf in Hx'. by apply not_elem_of_nil in Hx'. }
    destruct (recency p) as [|a [|b l]]; [by apply not_elem_of_nil in Hin| |].
    + by rewrite (Hall a) by apply list_elem_of_here.
    + apply NoDup_cons in Hnd as [Hn _]. destruct Hn.
      rewrite (Hall a), (Hall b) by (set_solver). apply list_elem_of_here.
  - rewrite last_cons_cons in Hv. apply last_Some_elem_of in Hv. rewrite <- Hf in Hv.
    apply list_elem_of_filter in Hv as [? _]. done.
Qed.

Lemma lru_use_protects_witness :
  recency (policy_run NewLRU [OpWrite (mk_meta hash32_zero "" 1 f64_0)]) = [hash32_zero].
Proof.
  apply (lru_use_protects [OpWrite (mk_meta hash32_zero "" 1 f64_0)] hash32_zero).
  - apply (bool_decide_unpack _). vm_compute. exact I.
  - vm_compute. reflexivity.
Defined.
