(* ===== verification/GoHeap.v ===== *)
(** Go's [container/heap], the part of the standard library that orders every
    tenant's blocks in [src/internal/cache/gdsf.go].

    The algorithms are written once over the interface [heap.Interface] (a
    typeclass on the state that carries the slice).  They are then analysed on
    plain lists and transported to any implementation that simulates a list. *)

From S2P Require Import Prelude.

(** ** heap.Interface and the algorithms *)

(** [Less] and [Swap] of the interface, and [Len]. *)
Class HeapInterface (St : Type) := {
  heap_Len : St -> nat;
  heap_Less : nat -> nat -> St -> bool;
  heap_Swap : nat -> nat -> St -> St;
}.

Section algorithms.
Context `{HeapInterface St}.

(** [up]: the index strictly decreases, so [j + 1] rounds are enough. *)
Fixpoint heap_up_loop (fuel : nat) (j : nat) (h : St) : St :=
  match fuel with
  | 0 => h
  | S fuel =>
      let i := (j - 1) / 2 in
      if (i =? j) || negb (heap_Less j i h) then h
      else heap_up_loop fuel i (heap_Swap i j h)
  end.
Definition heap_up (j : nat) (h : St) : St := heap_up_loop (j + 1) j h.

(** [down]: returns the final index and the state; the index strictly increases
    and stays below [n], so [n] rounds are enough. *)
Fixpoint heap_down_loop (fuel : nat) (i n : nat) (h : St) : nat * St :=
  match fuel with
  | 0 => (i, h)
  | S fuel =>
      let j1 := 2 * i + 1 in
      if n <=? j1 then (i, h)
      else
        let j2 := j1 + 1 in
        let j := if (j2 <? n) && heap_Less j2 j1 h then j2 else j1 in
        if negb (heap_Less j i h) then (i, h)
        else heap_down_loop fuel j n (heap_Swap i j h)
  end.
Definition heap_down (i0 n : nat) (h : St) : bool * St :=
  let '(i, h) := heap_down_loop n i0 n h in (i0 <? i, h).

(** [Fix] *)
Definition heap_Fix (i : nat) (h : St) : St :=
  let '(moved, h) := heap_down i (heap_Len h) h in
  if moved then h else heap_up i h.

(** [Push] after the element has been appended by the interface's own [Push]. *)
Definition heap_Push_fix (h : St) : St := heap_up (heap_Len h - 1) h.

(** [Remove] before the interface's own [Pop] cuts the last element off. *)
Definition heap_Remove_fix (i : nat) (h : St) : St :=
  let n := heap_Len h - 1 in
  if n =? i then h
  else
    let '(moved, h) := heap_down i n (heap_Swap i n h) in
    if moved then h else heap_up i h.

End algorithms.

(** ** Simulation

    Two implementations whose states are related by [R] and that answer [Less]
    alike and swap alike end up related. *)

Section simulation.
Context `{HeapInterface St, HeapInterface Tt} (n : nat) (R : St -> Tt -> Prop).
Hypothesis R_less : forall i j s t, i < n -> j < n -> R s t -> heap_Less i j s = heap_Less i j t.
Hypothesis R_swap : forall i j s t, i < n -> j < n -> R s t -> R (heap_Swap i j s) (heap_Swap i j t).

Lemma sim_up_loop fuel j s t :
  j < n -> R s t -> R (heap_up_loop fuel j s) (heap_up_loop fuel j t).
Proof.
  revert j s t. induction fuel as [|fuel IH]; intros j s t Hj HR; [done|]. cbn [heap_up_loop].
  assert ((j - 1) / 2 < n).
  { pose proof (Nat.Div0.div_le_upper_bound (j - 1) 2 j ltac:(lia)). lia. }
  rewrite (R_less j _ s t) by done. case_match; [done|]. apply IH; auto.
Qed.

Lemma sim_down_loop fuel i m s t :
  i < n -> m <= n -> R s t ->
  (heap_down_loop fuel i m s).1 = (heap_down_loop fuel i m t).1
  /\ R (heap_down_loop fuel i m s).2 (heap_down_loop fuel i m t).2.
Proof.
  revert i s t. induction fuel as [|fuel IH]; intros i s t Hi Hm HR; [done|]. cbn [heap_down_loop].
  destruct (Nat.leb_spec m (2 * i + 1)); [done|].
  assert ((2 * i + 1 + 1 <? m) && heap_Less (2 * i + 1 + 1) (2 * i + 1) s
          = (2 * i + 1 + 1 <? m) && heap_Less (2 * i + 1 + 1) (2 * i + 1) t) as ->.
  { destruct (Nat.ltb_spec (2 * i + 1 + 1) m); [simpl|done]. apply R_less; (lia || done). }
  set (j := if _ && _ then _ else _).
  assert (j < n) by (unfold j; destruct (Nat.ltb_spec (2 * i + 1 + 1) m), (heap_Less _ _ t); simpl; lia).
  rewrite (R_less j i s t) by done. case_match; [done|]. apply IH; auto.
Qed.

Lemma sim_down i m s t :
  i < n -> m <= n -> R s t ->
  (heap_down i m s).1 = (heap_down i m t).1 /\ R (heap_down i m s).2 (heap_down i m t).2.
Proof.
  intros Hi Hm HR. destruct (sim_down_loop m i m s t Hi Hm HR) as [H1 H2]. unfold heap_down.
  destruct (heap_down_loop m i m s), (heap_down_loop m i m t); simpl in *. by subst.
Qed.

Lemma sim_Fix i s t :
  i < n -> heap_Len s = n -> heap_Len t = n -> R s t -> R (heap_Fix i s) (heap_Fix i t).
Proof.
  intros Hi Hs Ht HR. unfold heap_Fix. rewrite Hs, Ht.
  destruct (sim_down i n s t Hi ltac:(lia) HR) as [H1 H2].
  destruct (heap_down i n s) as [b s'], (heap_down i n t) as [b' t']; simpl in *; subst b.
  destruct b'; [done|]. by apply sim_up_loop.
Qed.

Lemma sim_Push_fix s t :
  0 < n -> heap_Len s = n -> heap_Len t = n -> R s t -> R (heap_Push_fix s) (heap_Push_fix t).
Proof. intros ? Hs Ht HR. unfold heap_Push_fix. rewrite Hs, Ht. apply sim_up_loop; [lia|done]. Qed.

Lemma sim_Remove_fix i s t :
  i < n -> heap_Len s = n -> heap_Len t = n -> R s t ->
  R (heap_Remove_fix i s) (heap_Remove_fix i t).
Proof.
  intros Hi Hs Ht HR. unfold heap_Remove_fix. rewrite Hs, Ht. case_match; [done|].
  destruct (sim_down i (n - 1) (heap_Swap i (n - 1) s) (heap_Swap i (n - 1) t)) as [Hb HR'];
    [lia|lia|apply R_swap; (lia || done)|].
  destruct (heap_down i _ _) as [b s'], (heap_down i _ _) as [b' t']; simpl in *; subst b.
  destruct b'; [done|]. by apply sim_up_loop.
Qed.

End simulation.

(** ** Plain lists *)

(** [h[i], h[j] = h[j], h[i]]; the heap only swaps within bounds. *)
Definition list_swap {A} (i j : nat) (l : list A) : list A :=
  match l !! i, l !! j with
  | Some x, Some y => <[j := x]> (<[i := y]> l)
  | _, _ => l
  end.

Definition list_less {A} (lt : A -> A -> bool) (i j : nat) (l : list A) : bool :=
  match l !! i, l !! j with
  | Some x, Some y => lt x y
  | _, _ => false
  end.

Definition list_heap {A} (lt : A -> A -> bool) : HeapInterface (list A) := {|
  heap_Len := length;
  heap_Less := list_less lt;
  heap_Swap := list_swap;
|}.

Section list_swap.
Context {A : Type} `{!Inhabited A}.
Implicit Types l : list A.

Lemma length_list_swap i j l : length (list_swap i j l) = length l.
Proof. unfold list_swap. repeat case_match; by rewrite ?length_insert. Qed.

Lemma list_swap_perm i j l : list_swap i j l ≡ₚ l.
Proof.
  unfold list_swap. destruct (l !! i) as [x|] eqn:Hi; [|done].
  destruct (l !! j) as [y|] eqn:Hj; [|done]. by apply Permutation_insert_swap.
Qed.

Lemma list_swap_total i j k l :
  i < length l -> j < length l ->
  list_swap i j l !!! k = if decide (k = j) then l !!! i else if decide (k = i) then l !!! j else l !!! k.
Proof.
  intros Hi Hj. unfold list_swap.
  rewrite (list_lookup_lookup_total_lt l i), (list_lookup_lookup_total_lt l j) by done.
  case_decide as Hkj; [subst|].
  - rewrite list_lookup_total_insert_eq; [done | by rewrite length_insert].
  - rewrite list_lookup_total_insert_ne by done. case_decide as Hki; [subst|].
    + by rewrite list_lookup_total_insert_eq.
    + by rewrite list_lookup_total_insert_ne.
Qed.

Lemma list_swap_r i j l :
  i < length l -> j < length l -> list_swap i j l !!! j = l !!! i.
Proof. intros. rewrite list_swap_total by done. by rewrite decide_True. Qed.

Lemma list_swap_l i j l :
  i < length l -> j < length l -> list_swap i j l !!! i = l !!! j.
Proof.
  intros. rewrite list_swap_total by done. case_decide as E; [by rewrite E|].
  by rewrite decide_True.
Qed.

Lemma list_swap_ne i j k l :
  i < length l -> j < length l -> k <> i -> k <> j -> list_swap i j l !!! k = l !!! k.
Proof. intros. rewrite list_swap_total by done. by rewrite !decide_False. Qed.

Lemma list_less_total lt i j l :
  i < length l -> j < length l -> list_less lt i j l = lt (l !!! i) (l !!! j).
Proof.
  intros Hi Hj. unfold list_less.
  by rewrite (list_lookup_lookup_total_lt l i), (list_lookup_lookup_total_lt l j) by done.
Qed.

End list_swap.

(** *** Only swaps are made *)

Section list_perm.
Context {A : Type} (lt : A -> A -> bool).
#[local] Hint Extern 0 (HeapInterface (list A)) => exact (list_heap lt) : typeclass_instances.

Lemma heap_up_loop_perm fuel j (l : list A) : heap_up_loop fuel j l ≡ₚ l.
Proof.
  revert j l. induction fuel as [|fuel IH]; intros j l; [done|]. cbn [heap_up_loop].
  case_match; [done|]. rewrite IH. apply list_swap_perm.
Qed.

Lemma heap_down_loop_perm fuel i n (l : list A) : (heap_down_loop fuel i n l).2 ≡ₚ l.
Proof.
  revert i l. induction fuel as [|fuel IH]; intros i l; [done|]. cbn [heap_down_loop].
  case_match; [done|]. case_match; [done|]. rewrite IH. apply list_swap_perm.
Qed.

Lemma heap_down_perm i n (l : list A) : (heap_down i n l).2 ≡ₚ l.
Proof.
  unfold heap_down. pose proof (heap_down_loop_perm n i n l). by destruct heap_down_loop.
Qed.

Lemma heap_Fix_perm i (l : list A) : heap_Fix i l ≡ₚ l.
Proof.
  unfold heap_Fix. pose proof (heap_down_perm i (heap_Len l) l).
  destruct heap_down as [b l']; simpl in *. destruct b; [done|].
  unfold heap_up. by rewrite heap_up_loop_perm.
Qed.

Lemma heap_Push_fix_perm (l : list A) : heap_Push_fix l ≡ₚ l.
Proof. apply heap_up_loop_perm. Qed.

Lemma heap_Remove_fix_perm i (l : list A) : heap_Remove_fix i l ≡ₚ l.
Proof.
  unfold heap_Remove_fix. case_match; [done|].
  pose proof (heap_down_perm i (heap_Len l - 1) (heap_Swap i (heap_Len l - 1) l)) as Hd.
  destruct heap_down as [b l']; simpl in *. rewrite (list_swap_perm i _ l) in Hd.
  destruct b; [done|]. unfold heap_up. by rewrite heap_up_loop_perm.
Qed.

End list_perm.

(** *** The heap order

    [lt] is the strict order of the elements; it need only behave on [good]
    elements (a float priority that is not NaN). *)

Section heap_order.
Context {A : Type} `{!Inhabited A} (lt : A -> A -> bool) (good : A -> Prop).
Hypothesis lt_asym : forall x y, lt x y = true -> lt y x = false.
Hypothesis nlt_trans : forall x y z,
  good x -> good y -> good z -> lt y x = false -> lt z y = false -> lt z x = false.
#[local] Hint Extern 0 (HeapInterface (list A)) => exact (list_heap lt) : typeclass_instances.
Implicit Types (l : list A) (i j k n : nat).

Definition parent (k : nat) : nat := (k - 1) / 2.

Definition le_at l i j : Prop := lt (l !!! j) (l !!! i) = false.

(** Every one of the first [n] elements but the root is at least its parent. *)
Definition heap_ordered n l : Prop := forall k, 0 < k < n -> le_at l (parent k) k.

(** Only element [j] may be smaller than its parent. *)
Definition up_inv n j l : Prop :=
  (forall k, 0 < k < n -> k <> j -> le_at l (parent k) k)
  /\ (forall k, 0 < k < n -> parent k = j -> 0 < j -> le_at l (parent j) k).

(** Only the children of [i] may be smaller than [i]. *)
Definition down_inv n i l : Prop :=
  (forall k, 0 < k < n -> parent k <> i -> le_at l (parent k) k)
  /\ (forall k, 0 < k < n -> parent k = i -> 0 < i -> le_at l (parent i) k).

(** Element [i] has been replaced by anything. *)
Definition broken n i l : Prop :=
  (forall k, 0 < k < n -> k <> i -> parent k <> i -> le_at l (parent k) k)
  /\ (forall k, 0 < k < n -> parent k = i -> 0 < i -> le_at l (parent i) k).

Lemma parent_lt k : 0 < k -> parent k < k.
Proof. intros. unfold parent. pose proof (Nat.Div0.div_le_upper_bound (k - 1) 2 (k - 1)). lia. Qed.

Lemma parent_cases k i : 0 < k -> parent k = i <-> k = 2 * i + 1 \/ k = 2 * i + 2.
Proof.
  intros. unfold parent. pose proof (Nat.div_mod_eq (k - 1) 2).
  pose proof (Nat.mod_upper_bound (k - 1) 2). lia.
Qed.

Lemma good_at n k l : Forall good l -> n <= length l -> k < n -> good (l !!! k).
Proof.
  intros Hg Hn Hk. rewrite Forall_forall in Hg. apply Hg.
  apply list_elem_of_lookup_total. exists k. split; [lia|done].
Qed.

Lemma good_swap i j l : Forall good l -> Forall good (list_swap i j l).
Proof. intros. by rewrite list_swap_perm. Qed.

Ltac swap_at := unfold le_at; rewrite ?list_swap_r, ?list_swap_l, ?list_swap_ne by lia.

Lemma up_step n j l :
  Forall good l -> n <= length l -> 0 < j < n -> up_inv n j l ->
  lt (l !!! j) (l !!! parent j) = true ->
  up_inv n (parent j) (list_swap (parent j) j l).
Proof.
  intros Hg Hn Hj [H1 H2] Hlt. pose proof (parent_lt j ltac:(lia)) as Hpj.
  assert (Hgd : forall k, k < n -> good (l !!! k)) by (intros; by eapply good_at).
  split.
  - intros k Hk Hki. pose proof (parent_lt k ltac:(lia)) as Hpk.
    destruct (decide (k = j)) as [->|Hkj]; [swap_at; by apply lt_asym|].
    destruct (decide (parent k = j)) as [Hp|Hp]; [rewrite Hp; swap_at; apply H2; lia|].
    destruct (decide (parent k = parent j)) as [Hp'|Hp'].
    + rewrite Hp'. swap_at. apply (nlt_trans _ (l !!! parent j)); auto with lia.
      rewrite <- Hp'. by apply H1.
    + swap_at. by apply H1.
  - intros k Hk Hp Hi. pose proof (parent_lt (parent j) ltac:(lia)).
    pose proof (H1 (parent j) ltac:(lia) ltac:(lia)) as Hgp.
    destruct (decide (k = j)) as [->|Hkj]; [by swap_at|].
    pose proof (parent_lt k ltac:(lia)).
    swap_at. apply (nlt_trans _ (l !!! parent j)); auto with lia.
    rewrite <- Hp. by apply H1.
Qed.

Lemma up_loop_ordered fuel n j l :
  Forall good l -> n <= length l -> j < n -> j < fuel -> up_inv n j l ->
  heap_ordered n (heap_up_loop fuel j l).
Proof.
  revert j l. induction fuel as [|fuel IH]; intros j l Hg Hn Hj Hf Hup; [lia|].
  cbn [heap_up_loop]. fold (parent j).
  destruct (decide (j = 0)) as [->|Hj0].
  { simpl. intros k Hk. apply (proj1 Hup); lia. }
  pose proof (parent_lt j ltac:(lia)) as Hpj.
  rewrite (proj2 (Nat.eqb_neq (parent j) j)) by lia. simpl.
  rewrite list_less_total by lia. destruct (lt _ _) eqn:Hlt; simpl.
  - apply IH; [by apply good_swap|by rewrite length_list_swap|lia|lia|].
    apply up_step; (lia || done).
  - intros k Hk. destruct (decide (k = j)) as [->|]; [done|]. by apply (proj1 Hup).
Qed.

(** The smaller child of [i], the way [down] picks it. *)
Definition child n i l : nat :=
  if (2 * i + 1 + 1 <? n) && heap_Less (2 * i + 1 + 1) (2 * i + 1) l
  then 2 * i + 1 + 1 else 2 * i + 1.

Lemma child_parent n i l :
  2 * i + 1 < n -> 0 < child n i l < n /\ parent (child n i l) = i.
Proof.
  intros Hn. unfold child.
  destruct (Nat.ltb_spec (2 * i + 1 + 1) n); simpl; [case_match|];
    (split; [lia|apply parent_cases; lia]).
Qed.

Lemma child_least n i l k :
  n <= length l -> 2 * i + 1 < n -> 0 < k < n -> parent k = i -> le_at l (child n i l) k.
Proof.
  intros Hn Hi Hk Hp. apply parent_cases in Hp; [|lia].
  assert (Hrefl : forall x, lt x x = false).
  { intros x. destruct (lt x x) eqn:E; [|done]. pose proof (lt_asym _ _ E). congruence. }
  unfold child, le_at. destruct (Nat.ltb_spec (2 * i + 1 + 1) n); cbn [andb].
  - cbn [heap_Less list_heap]. rewrite list_less_total by lia. replace (2 * i + 1 + 1) with (2 * i + 2) by lia.
    destruct (lt (l !!! (2 * i + 2)) (l !!! (2 * i + 1))) eqn:E, Hp as [->| ->]; auto.
  - assert (k = 2 * i + 1) as -> by lia. apply Hrefl.
Qed.

Lemma down_step n i j l :
  Forall good l -> n <= length l -> i < n -> broken n i l ->
  2 * i + 1 < n -> j = child n i l -> lt (l !!! j) (l !!! i) = true ->
  (forall k, 0 < k < n -> k <> i -> parent k <> j -> le_at (list_swap i j l) (parent k) k)
  /\ (0 < i -> le_at (list_swap i j l) (parent i) i)
  /\ (forall k, 0 < k < n -> parent k = j -> le_at (list_swap i j l) (parent j) k).
Proof.
  intros Hg Hn Hi [H1 H2] Hin Hj Hlt. destruct (child_parent n i l Hin) as [Hjn Hpj].
  pose proof (fun k => child_least n i l k Hn Hin) as Hleast. rewrite <- Hj in *.
  pose proof (parent_lt j ltac:(lia)) as Hij. rewrite Hpj in Hij.
  split; [|split].
  - intros k Hk Hki Hpk. pose proof (parent_lt k ltac:(lia)) as Hpk'.
    destruct (decide (parent k = i)) as [Hp|Hp].
    + rewrite Hp. destruct (decide (k = j)) as [->|Hkj]; [swap_at; by apply lt_asym|].
      swap_at. by apply Hleast.
    + assert (k <> j) by congruence. swap_at. by apply H1.
  - intros Hi0. pose proof (parent_lt i ltac:(lia)). swap_at. by apply H2.
  - intros k Hk Hpk. pose proof (parent_lt k ltac:(lia)) as Hpk'. rewrite Hpj.
    swap_at. rewrite <- Hpk. apply H1; lia.
Qed.

Lemma down_loop_moved fuel n i l :
  Forall good l -> n <= length l -> i < n -> n <= fuel + i -> down_inv n i l ->
  heap_ordered n (heap_down_loop fuel i n l).2 /\ i <= (heap_down_loop fuel i n l).1.
Proof.
  revert i l. induction fuel as [|fuel IH]; intros i l Hg Hn Hi Hf [H1 H2]; [lia|].
  cbn [heap_down_loop].
  destruct (Nat.leb_spec n (2 * i + 1)) as [Hle|Hin].
  { split; [|done]. simpl. intros k Hk. apply H1; [done|].
    intros Hp%parent_cases; lia. }
  fold (child n i l). destruct (child_parent n i l Hin) as [Hjn Hpj].
  cbn [heap_Less heap_Swap list_heap]. rewrite list_less_total by lia.
  destruct (lt _ _) eqn:Hlt; cbn [negb].
  - assert (broken n i l) as Hb by (split; auto).
    destruct (down_step n i _ l Hg Hn Hi Hb Hin eq_refl Hlt) as (Ha & Hb' & Hc).
    pose proof (parent_lt (child n i l) ltac:(lia)) as Hlt'. rewrite Hpj in Hlt'.
    destruct (IH (child n i l) (list_swap i (child n i l) l)) as [Ho Hle];
      [by apply good_swap|by rewrite length_list_swap|lia|lia| |split; [exact Ho|simpl in *; lia]].
    split; [|auto]. intros k Hk Hp. destruct (decide (k = i)) as [->|]; [apply Hb'; lia|by apply Ha].
  - split; [|done]. simpl. intros k Hk. destruct (decide (parent k = i)) as [Hp|Hp]; [|by apply H1].
    rewrite Hp. unfold le_at. eapply nlt_trans; [..|exact Hlt|by apply child_least];
      eapply good_at; eauto; lia.
Qed.

(** [down] from a broken position: either it moved and the heap order holds, or
    it stayed, the list is unchanged and only the way up may be broken. *)
Lemma down_ordered n i l :
  Forall good l -> n <= length l -> i < n -> broken n i l ->
  match heap_down i n l with
  | (true, l') => heap_ordered n l'
  | (false, l') => l' = l /\ up_inv n i l
  end.
Proof.
  intros Hg Hn Hi Hb. unfold heap_down. destruct n as [|m]; [lia|]. set (n := S m) in *.
  unfold n at 1. cbn [heap_down_loop].
  destruct (Nat.leb_spec n (2 * i + 1)) as [Hle|Hin].
  { rewrite Nat.ltb_irrefl. split; [done|]. destruct Hb as [H1 H2]. split; [|done].
    intros k Hk Hki. apply H1; [done|done|]. intros Hp%parent_cases; lia. }
  fold (child n i l). destruct (child_parent n i l Hin) as [Hjn Hpj].
  cbn [heap_Less heap_Swap list_heap]. rewrite list_less_total by lia.
  destruct (lt _ _) eqn:Hlt; cbn [negb].
  - destruct (down_step n i _ l Hg Hn Hi Hb Hin eq_refl Hlt) as (Ha & Hb' & Hc).
    pose proof (parent_lt (child n i l) ltac:(lia)) as Hlt'. rewrite Hpj in Hlt'.
    pose proof (down_loop_moved m n (child n i l) (list_swap i (child n i l) l)) as Hd.
    destruct Hd as [Ho Hle]; [by apply good_swap|by rewrite length_list_swap|lia|lia| |].
    { split; [|auto]. intros k Hk Hp.
      destruct (decide (k = i)) as [->|]; [apply Hb'; lia|by apply Ha]. }
    cbn [heap_Swap list_heap]. destruct (heap_down_loop m _ _ _) as [i' l']; simpl in *.
    by rewrite (proj2 (Nat.ltb_lt i i')) by lia.
  - rewrite Nat.ltb_irrefl. split; [done|]. destruct Hb as [H1 H2]. split; [|done].
    intros k Hk Hki. destruct (decide (parent k = i)) as [Hp|Hp]; [|by apply H1].
    rewrite Hp. unfold le_at. eapply nlt_trans; [..|exact Hlt|by apply child_least];
      eapply good_at; eauto; lia.
Qed.

(** Positions from [n] on are never touched. *)
Lemma up_loop_frame fuel n j k l :
  n <= length l -> j < n -> n <= k -> heap_up_loop fuel j l !!! k = l !!! k.
Proof.
  revert j l. induction fuel as [|fuel IH]; intros j l Hn Hj Hk; [done|]. cbn [heap_up_loop].
  fold (parent j). destruct (decide (j = 0)) as [->|]; [done|].
  pose proof (parent_lt j ltac:(lia)). case_match; [done|]. cbn [heap_Swap list_heap].
  rewrite IH by (rewrite ?length_list_swap; lia). apply list_swap_ne; lia.
Qed.

Lemma down_loop_frame fuel n i k l :
  n <= length l -> i < n -> n <= k -> (heap_down_loop fuel i n l).2 !!! k = l !!! k.
Proof.
  revert i l. induction fuel as [|fuel IH]; intros i l Hn Hi Hk; [done|]. cbn [heap_down_loop].
  destruct (Nat.leb_spec n (2 * i + 1)) as [|Hin]; [done|]. fold (child n i l).
  destruct (child_parent n i l Hin) as [Hjn _].
  case_match; [done|]. cbn [heap_Swap list_heap].
  rewrite IH by (rewrite ?length_list_swap; lia). apply list_swap_ne; lia.
Qed.

Lemma down_frame n i k l :
  n <= length l -> i < n -> n <= k -> (heap_down i n l).2 !!! k = l !!! k.
Proof.
  intros Hn Hi Hk. unfold heap_down. pose proof (down_loop_frame n n i k l Hn Hi Hk).
  by destruct heap_down_loop.
Qed.

(** Down and then, if it did not move, up: the body of [Fix] and [Remove]. *)
Lemma down_up_ordered n i l :
  Forall good l -> n <= length l -> i < n -> broken n i l ->
  heap_ordered n (let '(moved, l') := heap_down i n l in if moved then l' else heap_up i l').
Proof.
  intros Hg Hn Hi Hb. pose proof (down_ordered n i l Hg Hn Hi Hb) as Hd.
  destruct (heap_down i n l) as [[] l']; [done|]. destruct Hd as [-> Hup].
  by apply up_loop_ordered; [..|lia|].
Qed.

Lemma down_up_frame n i k l :
  n <= length l -> i < n -> n <= k ->
  (let '(moved, l') := heap_down i n l in if moved then l' else heap_up i l') !!! k = l !!! k.
Proof.
  intros Hn Hi Hk. pose proof (down_frame n i k l Hn Hi Hk) as Hd.
  pose proof (Permutation_length (heap_down_perm lt i n l)) as Hlen.
  destruct (heap_down i n l) as [[] l']; [done|]. simpl in *.
  unfold heap_up. rewrite (up_loop_frame _ n) by lia. done.
Qed.

Lemma broken_insert n i x l :
  Forall good l -> n <= length l -> i < n -> heap_ordered n l -> broken n i (<[i:=x]> l).
Proof.
  intros Hg Hn Hi Hl.
  assert (Hgd : forall k, k < n -> good (l !!! k)) by (intros; by eapply good_at).
  split; unfold le_at.
  - intros k Hk Hki Hp. rewrite !list_lookup_total_insert_ne by done. by apply Hl.
  - intros k Hk Hp Hi0. pose proof (parent_lt i Hi0). pose proof (parent_lt k ltac:(lia)).
    rewrite !list_lookup_total_insert_ne by lia.
    apply (nlt_trans _ (l !!! i)); auto with lia; [by apply Hl|].
    rewrite <- Hp. by apply Hl.
Qed.

(** [Fix] after the element at [i] changed to [x]. *)
Lemma heap_Fix_ordered i x l :
  Forall good l -> good x -> i < length l -> heap_ordered (length l) l ->
  heap_ordered (length l) (heap_Fix i (<[i:=x]> l)).
Proof.
  intros Hg Hx Hi Hl. unfold heap_Fix. cbn [heap_Len list_heap]. rewrite length_insert.
  apply down_up_ordered; [by apply Forall_insert|by rewrite length_insert|done|].
  by apply broken_insert.
Qed.

(** [Push] of [x]. *)
Lemma heap_Push_ordered x l :
  Forall good l -> good x -> heap_ordered (length l) l ->
  heap_ordered (S (length l)) (heap_Push_fix (l ++ [x])).
Proof.
  intros Hg Hx Hl. unfold heap_Push_fix, heap_up. cbn [heap_Len list_heap].
  rewrite length_app. simpl length. replace (length l + 1 - 1) with (length l) by lia.
  apply up_loop_ordered; rewrite ?length_app; simpl; [|lia..|split].
  - by apply Forall_app; split; [|apply Forall_singleton].
  - intros k Hk Hkn. pose proof (parent_lt k ltac:(lia)). unfold le_at.
    rewrite !list_lookup_total_alt, !lookup_app_l, <- !list_lookup_total_alt by lia.
    apply Hl. lia.
  - intros k Hk Hp%parent_cases; lia.
Qed.

Lemma swap_last_broken m i l :
  Forall good l -> length l = S m -> i < m -> heap_ordered (S m) l -> broken m i (list_swap i m l).
Proof.
  intros Hg Hlen Hi Hl.
  destruct (broken_insert (S m) i (l !!! m) l Hg) as [H1 H2]; [lia|lia|done|].
  assert (Heq : forall k, k < m -> list_swap i m l !!! k = <[i:=l !!! m]> l !!! k).
  { intros k Hk. rewrite list_swap_total by lia. rewrite decide_False by lia. case_decide; subst.
    - by rewrite list_lookup_total_insert_eq by lia.
    - by rewrite list_lookup_total_insert_ne. }
  split; unfold le_at in *; intros k Hk; pose proof (parent_lt k ltac:(lia)).
  - intros. rewrite !Heq by lia. apply H1; lia.
  - intros Hp Hi0. pose proof (parent_lt i Hi0). rewrite !Heq by lia. apply H2; lia.
Qed.

(** [Remove] of the element at [i]: it ends up last, the rest is ordered. *)
Lemma heap_Remove_ordered m i l :
  Forall good l -> length l = S m -> i < S m -> heap_ordered (S m) l ->
  heap_ordered m (heap_Remove_fix i l).
Proof.
  intros Hg Hlen Hi Hl. unfold heap_Remove_fix. cbn [heap_Len heap_Swap list_heap].
  rewrite Hlen. replace (S m - 1) with m by lia. destruct (Nat.eqb_spec m i) as [->|Hne].
  - intros k Hk. apply Hl. lia.
  - apply down_up_ordered; [by apply good_swap|rewrite length_list_swap; lia|lia|].
    apply swap_last_broken; (lia || done).
Qed.

Lemma heap_Remove_last m i l :
  length l = S m -> i < S m -> heap_Remove_fix i l !!! m = l !!! i.
Proof.
  intros Hlen Hi. unfold heap_Remove_fix. cbn [heap_Len heap_Swap list_heap].
  rewrite Hlen. replace (S m - 1) with m by lia. destruct (Nat.eqb_spec m i) as [->|Hne]; [done|].
  rewrite down_up_frame by (rewrite ?length_list_swap; lia). apply list_swap_r; lia.
Qed.

(** The root is a least element. *)
Lemma heap_root_least n l k :
  Forall good l -> n <= length l -> heap_ordered n l -> k < n -> le_at l 0 k.
Proof.
  intros Hg Hn Hl. induction k as [k IH] using (well_founded_induction Wf_nat.lt_wf). intros Hk.
  assert (Hgd : forall k, k < n -> good (l !!! k)) by (intros; by eapply good_at).
  destruct (decide (k = 0)) as [->|].
  - unfold le_at. destruct (lt (l !!! 0) (l !!! 0)) eqn:E; [|done].
    pose proof (lt_asym _ _ E). congruence.
  - pose proof (parent_lt k ltac:(lia)).
    apply (nlt_trans _ (l !!! parent k)); auto with lia; [apply IH; lia|apply Hl; lia].
Qed.

End heap_order.
