(* ===== verification/Gdsf.v ===== *)
(** The GDSF policy: [src/internal/cache/gdsf.go] on [container/heap].

    Items are pointers into a store [g_mem], shared by the [items] index and the
    tenants' heaps as in the code; every item carries its own position in its
    tenant's heap.  Two invariants are kept apart: the structural one holds for
    any sequence of calls, the heap order only as long as no caller passes a cost
    that is NaN or +Inf.  [GdsfSpec] is the reference: a map of blocks, no heap,
    and a victim that may be any least element. *)

From S2P Require Import Prelude Bytes Float64 Policy GoHeap.

(** ** Data *)

(** [gdsfItem] *)
Record gdsfItem := mk_item {
  it_key : BlockHash;
  it_tenant : string;
  it_size : Z;
  it_cost : float64;
  it_freq : Z;
  it_priority : float64;
  it_index : Z;
}.

Definition with_index (i : Z) (it : gdsfItem) : gdsfItem :=
  mk_item (it_key it) (it_tenant it) (it_size it) (it_cost it) (it_freq it) (it_priority it) i.

#[export] Instance gdsfItem_inhabited : Inhabited gdsfItem :=
  populate (mk_item hash32_zero "" 0 f64_0 0 f64_0 (-1)).

Abbreviation ptr := nat.
Abbreviation memory := (gmap ptr gdsfItem).

(** [tenantState] *)
Record tenantState := mk_tenant {
  ts_bytes : Z;
  ts_quota : Z;
  ts_h : list ptr;
}.

(** [GDSFPolicy], with the store of its items and the next fresh pointer. *)
Record GDSFPolicy := mk_gdsf {
  g_items : gmap BlockHash ptr;
  g_tenants : gmap string tenantState;
  g_quotas : gmap string Z;
  g_inflation : float64;
  g_elastic : bool;
  g_weight : float64;
  g_mem : memory;
  g_next : ptr;
}.

(** [maxOverage] *)
Definition maxOverage : float64 := f64_of_Z 1000000000.

Definition newGDSF (quotas : gmap string Z) (elastic : bool) (fairnessWeight : float64) : GDSFPolicy :=
  mk_gdsf ∅ ∅ quotas f64_0 elastic fairnessWeight ∅ 0.

Definition NewGDSF (quotas : gmap string Z) : GDSFPolicy := newGDSF quotas false f64_0.

(** The switch of [NewGDSFElastic]; a NaN passes both comparisons. *)
Definition clamp_weight (w : float64) : float64 :=
  if f64_ltb w f64_0 then f64_0 else if f64_gtb w f64_1 then f64_1 else w.

Definition NewGDSFElastic (quotas : gmap string Z) (fairnessWeight : float64) : GDSFPolicy :=
  newGDSF quotas true (clamp_weight fairnessWeight).

(** ** gdsfHeap: the slice of one tenant together with the items' store *)

Abbreviation heap_state := (memory * list ptr)%type.

Definition set_index (i : nat) (q : ptr) (m : memory) : memory := alter (with_index (Z.of_nat i)) q m.

Definition gdsf_Less (i j : nat) (s : heap_state) : bool :=
  match s.2 !! i, s.2 !! j with
  | Some a, Some b => f64_ltb (it_priority (s.1 !!! a)) (it_priority (s.1 !!! b))
  | _, _ => false
  end.

(** [h[i], h[j] = h[j], h[i]; h[i].index = i; h[j].index = j] *)
Definition gdsf_Swap (i j : nat) (s : heap_state) : heap_state :=
  let h := list_swap i j s.2 in
  (set_index j (h !!! j) (set_index i (h !!! i) s.1), h).

#[export] Instance gdsf_heap : HeapInterface heap_state := {|
  heap_Len s := length s.2;
  heap_Less := gdsf_Less;
  heap_Swap := gdsf_Swap;
|}.

(** [gdsfHeap.Push] *)
Definition gdsf_Push (q : ptr) (s : heap_state) : heap_state :=
  (set_index (length s.2) q s.1, s.2 ++ [q]).

(** [gdsfHeap.Pop] *)
Definition gdsf_Pop (s : heap_state) : heap_state :=
  match last s.2 with
  | Some q => (alter (with_index (-1)) q s.1, removelast s.2)
  | None => s
  end.

(** [heap.Push(&ts.h, it)], [heap.Fix(&ts.h, i)], [heap.Remove(&ts.h, i)] *)
Definition gdsf_heap_Push (q : ptr) (s : heap_state) : heap_state := heap_Push_fix (gdsf_Push q s).
Definition gdsf_heap_Fix (i : nat) (s : heap_state) : heap_state := heap_Fix i s.
Definition gdsf_heap_Remove (i : nat) (s : heap_state) : heap_state := gdsf_Pop (heap_Remove_fix i s).

(** ** The policy's methods *)

(** [priorityOf] *)
Definition priorityOf (inflation : float64) (freq : Z) (cost : float64) (size : Z) : float64 :=
  let cost := if f64_leb cost f64_0 then f64_1 else cost in
  let size := if (size <=? 0)%Z then 1%Z else size in
  f64_add inflation (f64_div (f64_mul (f64_of_Z freq) cost) (f64_of_Z size)).

(** [tenantFor]: the state and the policy in which it is registered. *)
Definition tenantFor (id : string) (p : GDSFPolicy) : tenantState * GDSFPolicy :=
  match g_tenants p !! id with
  | Some ts => (ts, p)
  | None =>
      let ts := mk_tenant 0 (default 0%Z (g_quotas p !! id)) [] in
      (ts, mk_gdsf (g_items p) (<[id := ts]> (g_tenants p)) (g_quotas p) (g_inflation p)
             (g_elastic p) (g_weight p) (g_mem p) (g_next p))
  end.

(** Writing back one tenant's state and the items' store. *)
Definition put_tenant (id : string) (bytes quota : Z) (s : heap_state) (p : GDSFPolicy) : GDSFPolicy :=
  mk_gdsf (g_items p) (<[id := mk_tenant bytes quota s.2]> (g_tenants p)) (g_quotas p)
    (g_inflation p) (g_elastic p) (g_weight p) s.1 (g_next p).

(** [removeItem] *)
Definition removeItem (q : ptr) (p : GDSFPolicy) : GDSFPolicy :=
  let it := g_mem p !!! q in
  match g_tenants p !! it_tenant it with
  | None => p
  | Some ts =>
      let s := (g_mem p, ts_h ts) in
      let s := if ((0 <=? it_index it) && (it_index it <? Z.of_nat (length (ts_h ts))))%Z
               then gdsf_heap_Remove (Z.to_nat (it_index it)) s else s in
      let p := put_tenant (it_tenant it) (i64 (ts_bytes ts - it_size it)) (ts_quota ts) s p in
      mk_gdsf (delete (it_key it) (g_items p)) (g_tenants p) (g_quotas p) (g_inflation p)
        (g_elastic p) (g_weight p) (g_mem p) (g_next p)
  end.

(** The item's fields changed in place, then [heap.Fix]. *)
Definition fix_item (q : ptr) (it : gdsfItem) (ts : tenantState) (bytes : Z) (p : GDSFPolicy) : GDSFPolicy :=
  put_tenant (it_tenant it) bytes (ts_quota ts)
    (gdsf_heap_Fix (Z.to_nat (it_index it)) (<[q := it]> (g_mem p), ts_h ts)) p.

(** The new-block half of [RecordWrite]. *)
Definition insert_item (meta : WriteMeta) (p : GDSFPolicy) : GDSFPolicy :=
  let '(ts, p) := tenantFor (meta_TenantID meta) p in
  let it := mk_item (meta_Key meta) (meta_TenantID meta) (meta_Size meta) (meta_Cost meta) 1
              (priorityOf (g_inflation p) 1 (meta_Cost meta) (meta_Size meta)) 0 in
  let q := g_next p in
  let s := gdsf_heap_Push q (<[q := it]> (g_mem p), ts_h ts) in
  let p := put_tenant (meta_TenantID meta) (i64 (ts_bytes ts + meta_Size meta)) (ts_quota ts) s p in
  mk_gdsf (<[meta_Key meta := q]> (g_items p)) (g_tenants p) (g_quotas p) (g_inflation p)
    (g_elastic p) (g_weight p) (g_mem p) (S q).

(** [RecordWrite] *)
Definition gdsf_RecordWrite (meta : WriteMeta) (p : GDSFPolicy) : GDSFPolicy :=
  match g_items p !! meta_Key meta with
  | Some q =>
      let it := g_mem p !!! q in
      if decide (it_tenant it <> meta_TenantID meta) then insert_item meta (removeItem q p)
      else
        match g_tenants p !! it_tenant it with
        | None => p
        | Some ts =>
            let bytes := i64 (ts_bytes ts + i64 (meta_Size meta - it_size it)) in
            let it' := mk_item (it_key it) (it_tenant it) (meta_Size meta) (meta_Cost meta) (it_freq it)
                         (priorityOf (g_inflation p) (it_freq it) (meta_Cost meta) (meta_Size meta))
                         (it_index it) in
            fix_item q it' ts bytes p
        end
  | None => insert_item meta p
  end.

(** [RecordAccess] *)
Definition gdsf_RecordAccess (h : BlockHash) (p : GDSFPolicy) : GDSFPolicy :=
  match g_items p !! h with
  | None => p
  | Some q =>
      let it := g_mem p !!! q in
      let freq := u64 (it_freq it + 1) in
      let it' := mk_item (it_key it) (it_tenant it) (it_size it) (it_cost it) freq
                   (priorityOf (g_inflation p) freq (it_cost it) (it_size it)) (it_index it) in
      match g_tenants p !! it_tenant it with
      | None => p
      | Some ts => fix_item q it' ts (ts_bytes ts) p
      end
  end.

(** [RecordEvict] *)
Definition gdsf_RecordEvict (h : BlockHash) (p : GDSFPolicy) : GDSFPolicy :=
  match g_items p !! h with
  | Some q => removeItem q p
  | None => p
  end.

(** [ts.quota > 0 && ts.bytes > ts.quota] *)
Definition tenant_over (ts : tenantState) : bool :=
  ((0 <? ts_quota ts) && (ts_quota ts <? ts_bytes ts))%Z.

(** [OverQuota] *)
Definition gdsf_OverQuota (p : GDSFPolicy) : bool :=
  if g_elastic p then false
  else existsb (fun x => tenant_over x.2) (map_to_list (g_tenants p)).

(** [overage] *)
Definition overage (ts : tenantState) : float64 :=
  if (ts_quota ts <=? 0)%Z then (if (0 <? ts_bytes ts)%Z then maxOverage else f64_0)
  else
    let o := f64_sub (f64_div (f64_of_Z (ts_bytes ts)) (f64_of_Z (ts_quota ts))) f64_1 in
    if f64_ltb o f64_0 then f64_0 else o.

(** The tenants with a block, in the order [o] of the [range], with their root. *)
Definition roots (o : MapOrder) (p : GDSFPolicy) : list (tenantState * gdsfItem) :=
  omap (fun id => ts ← g_tenants p !! id; q ← head (ts_h ts); Some (ts, g_mem p !!! q)) o.

(** One round of the loop of [victimStatic]. *)
Definition static_round (acc : option gdsfItem * bool) (x : tenantState * gdsfItem) : option gdsfItem * bool :=
  let '(best, overQuota) := acc in
  let '(ts, root) := x in
  let tenantOver := tenant_over ts in
  if tenantOver && negb overQuota then (Some root, true)
  else if Bool.eqb tenantOver overQuota then
    match best with
    | None => (Some root, overQuota)
    | Some b => (Some (if f64_ltb (it_priority root) (it_priority b) then root else b), overQuota)
    end
  else (best, overQuota).

(** [root.priority / (1 + p.fairnessWeight*p.overage(ts))] *)
Definition score (w : float64) (x : tenantState * gdsfItem) : float64 :=
  f64_div (it_priority x.2) (f64_add f64_1 (f64_mul w (overage x.1))).

(** One round of the loop of [victimElastic]. *)
Definition elastic_round (w : float64) (acc : option (gdsfItem * float64)) (x : tenantState * gdsfItem) :
    option (gdsfItem * float64) :=
  let sc := score w x in
  match acc with
  | None => Some (x.2, sc)
  | Some (best, bestScore) => if f64_ltb sc bestScore then Some (x.2, sc) else acc
  end.

(** The common end of both: advance the aging floor, return the key. *)
Definition take_victim (best : option gdsfItem) (p : GDSFPolicy) : option BlockHash * GDSFPolicy :=
  match best with
  | None => (None, p)
  | Some b =>
      let L := if f64_gtb (it_priority b) (g_inflation p) then it_priority b else g_inflation p in
      (Some (it_key b), mk_gdsf (g_items p) (g_tenants p) (g_quotas p) L
                          (g_elastic p) (g_weight p) (g_mem p) (g_next p))
  end.

Definition best_static (o : MapOrder) (p : GDSFPolicy) : option gdsfItem :=
  (foldl static_round (None, false) (roots o p)).1.
Definition best_elastic (o : MapOrder) (p : GDSFPolicy) : option gdsfItem :=
  fst <$> foldl (elastic_round (g_weight p)) None (roots o p).

Definition victimStatic (o : MapOrder) (p : GDSFPolicy) : option BlockHash * GDSFPolicy :=
  take_victim (best_static o p) p.
Definition victimElastic (o : MapOrder) (p : GDSFPolicy) : option BlockHash * GDSFPolicy :=
  take_victim (best_elastic o p) p.

(** [Victim] *)
Definition gdsf_Victim (o : MapOrder) (p : GDSFPolicy) : option BlockHash * GDSFPolicy :=
  if g_elastic p then victimElastic o p else victimStatic o p.

#[export] Instance gdsf_policy : EvictionPolicy GDSFPolicy := {|
  RecordAccess := gdsf_RecordAccess;
  RecordWrite := gdsf_RecordWrite;
  RecordEvict := gdsf_RecordEvict;
  Victim := gdsf_Victim;
  OverQuota := Some gdsf_OverQuota;
|}.

(** ** Reference: a map of blocks *)

Module GdsfSpec.

Record block := mk_block {
  b_tenant : string;
  b_size : Z;
  b_cost : float64;
  b_freq : Z;
  b_prio : float64;
}.

Record spec := mk_spec {
  blocks : gmap BlockHash block;
  quotas : gmap string Z;
  floor : float64;
  elastic : bool;
  weight : float64;
}.

Definition set_blocks (m : gmap BlockHash block) (s : spec) : spec :=
  mk_spec m (quotas s) (floor s) (elastic s) (weight s).

(** A block of [freq] touches valued against the current floor. *)
Definition valued (s : spec) (t : string) (size : Z) (cost : float64) (freq : Z) : block :=
  mk_block t size cost freq (priorityOf (floor s) freq cost size).

(** An overwrite by the same tenant keeps the frequency. *)
Definition write (m : WriteMeta) (s : spec) : spec :=
  let freq := match blocks s !! meta_Key m with
              | Some b => if decide (b_tenant b = meta_TenantID m) then b_freq b else 1%Z
              | None => 1%Z
              end in
  set_blocks (<[meta_Key m := valued s (meta_TenantID m) (meta_Size m) (meta_Cost m) freq]> (blocks s)) s.

Definition access (k : BlockHash) (s : spec) : spec :=
  match blocks s !! k with
  | Some b =>
      set_blocks (<[k := valued s (b_tenant b) (b_size b) (b_cost b) (u64 (b_freq b + 1))]> (blocks s)) s
  | None => s
  end.

Definition evict (k : BlockHash) (s : spec) : spec := set_blocks (delete k (blocks s)) s.

(** The bytes a tenant holds, in [int64] arithmetic. *)
Definition tenant_size (t : string) (b : block) : Z :=
  if decide (b_tenant b = t) then b_size b else 0%Z.
Definition tenant_bytes (s : spec) (t : string) : Z := i64 (map_sum (tenant_size t) (blocks s)).

Definition quota (s : spec) (t : string) : Z := default 0%Z (quotas s !! t).

(** The tenant exceeds a configured quota. *)
Definition over (s : spec) (t : string) : Prop := (0 < quota s t < tenant_bytes s t)%Z.

(** Lowest priority among the blocks of its tenant. *)
Definition lowest_of_tenant (s : spec) (b : block) : Prop :=
  forall k' b', blocks s !! k' = Some b' -> b_tenant b' = b_tenant b ->
  f64_ltb (b_prio b') (b_prio b) = false.

(** Over-quota tenants pay first; within the class, the lowest priority. *)
Definition static_victim (s : spec) (b : block) : Prop :=
  (forall k' b', blocks s !! k' = Some b' -> over s (b_tenant b') -> over s (b_tenant b))
  /\ (forall k' b', blocks s !! k' = Some b' -> (over s (b_tenant b) -> over s (b_tenant b')) ->
      f64_ltb (b_prio b') (b_prio b) = false).

(** The fairness-adjusted priority of a block. *)
Definition eff (s : spec) (b : block) : float64 :=
  f64_div (b_prio b)
    (f64_add f64_1 (f64_mul (weight s) (overage (mk_tenant (tenant_bytes s (b_tenant b)) (quota s (b_tenant b)) [])))).

(** Lowest of its tenant, and every other tenant's lowest block is not cheaper
    once both are discounted by their tenant's overage. *)
Definition elastic_victim (s : spec) (b : block) : Prop :=
  lowest_of_tenant s b
  /\ forall k' b', blocks s !! k' = Some b' ->
     exists k1 b1, blocks s !! k1 = Some b1 /\ b_tenant b1 = b_tenant b' /\ lowest_of_tenant s b1
       /\ f64_ltb (eff s b1) (eff s b) = false.

Definition victim (s : spec) (b : block) : Prop :=
  if elastic s then elastic_victim s b else static_victim s b.

(** The aging floor rises to the victim's priority, never falls. *)
Definition advance (b : block) (s : spec) : spec :=
  mk_spec (blocks s) (quotas s) (if f64_gtb (b_prio b) (floor s) then b_prio b else floor s)
    (elastic s) (weight s).

Inductive step : spec -> policy_op -> spec -> Prop :=
  | step_access s k : step s (OpAccess k) (access k s)
  | step_write s m : step s (OpWrite m) (write m s)
  | step_evict s k : step s (OpEvict k) (evict k s)
  | step_victim s o k b : blocks s !! k = Some b -> victim s b -> step s (OpVictim o) (advance b s)
  | step_none s o : blocks s = ∅ -> step s (OpVictim o) s.

End GdsfSpec.
