(* ===== verification/GdsfHeap.v ===== *)
(** The heap of one GDSF tenant over the shared item table: what each call of
    [container/heap] does to the slice, to the items' positions and to the order,
    and why the value arithmetic of [priorityOf] and [key] stays away from NaN. *)

From S2P Require Import Prelude Bytes Float64 Policy GoHeap Gdsf.

(** ** The heap of one tenant *)

(** What a heap orders: each pointer with its priority. *)
Definition view (m : memory) (h : list ptr) : list (ptr * float64) :=
  (fun q => (q, it_priority (m !!! q))) <$> h.

Definition prio_lt (a b : ptr * float64) : bool := f64_ltb a.2 b.2.
Definition prio_good (a : ptr * float64) : Prop := f64_is_nan a.2 = false.

Lemma prio_lt_asym a b : prio_lt a b = true -> prio_lt b a = false.
Proof. apply f64_ltb_asym. Qed.

Lemma prio_nlt_trans a b c :
  prio_good a -> prio_good b -> prio_good c ->
  prio_lt b a = false -> prio_lt c b = false -> prio_lt c a = false.
Proof. apply f64_nlt_trans. Qed.

(** Every slot holds a live item that knows its position. *)
Definition heap_wf (m : memory) (h : list ptr) : Prop :=
  forall i q, h !! i = Some q -> exists it, m !! q = Some it /\ it_index it = Z.of_nat i.

(** The two stores differ at most in the positions of the items of [h]. *)
Definition same_items (h : list ptr) (m m' : memory) : Prop :=
  (forall q, with_index 0 <$> m' !! q = with_index 0 <$> m !! q)
  /\ (forall q, q ∉ h -> m' !! q = m !! q).

(** The order of the heap of one tenant. *)
Definition tenant_ordered (m : memory) (h : list ptr) : Prop :=
  Forall prio_good (view m h) /\ heap_ordered prio_lt (length h) (view m h).

Section tenant_heap.
Implicit Types (m : memory) (h : list ptr) (s : heap_state).

Lemma heap_wf_NoDup m h : heap_wf m h -> NoDup h.
Proof.
  intros Hwf. apply NoDup_alt. intros i j q Hi Hj.
  destruct (Hwf i q Hi) as (it & Hq & Hit), (Hwf j q Hj) as (it' & Hq' & Hit').
  rewrite Hq in Hq'. simplify_eq. lia.
Qed.

Lemma same_items_refl h m : same_items h m m.
Proof. done. Qed.

Lemma same_items_trans h m1 m2 m3 : same_items h m1 m2 -> same_items h m2 m3 -> same_items h m1 m3.
Proof. intros [H1 H2] [H3 H4]. split; intros q; [by rewrite H3|]. intros. by rewrite H4, H2. Qed.

Lemma same_items_some h m m' q it :
  same_items h m m' -> m !! q = Some it -> exists i, m' !! q = Some (with_index i it).
Proof.
  intros [H _] Hq. specialize (H q). rewrite Hq in H.
  destruct (m' !! q) as [[? ? ? ? ? ? i]|] eqn:E; simpl in H; [|done].
  exists i. destruct it. unfold with_index in *. simpl in *. congruence.
Qed.

Lemma same_items_priority h m m' q :
  same_items h m m' -> it_priority (m' !!! q) = it_priority (m !!! q).
Proof.
  intros [H _]. specialize (H q). rewrite !lookup_total_alt.
  destruct (m !! q) as [[]|], (m' !! q) as [[]|]; unfold with_index in *; simpl in *; congruence.
Qed.

Lemma view_same h m m' : same_items h m m' -> forall h', view m' h' = view m h'.
Proof. intros H h'. apply list_fmap_ext. intros _ q _. by rewrite (same_items_priority h m m'). Qed.

Lemma length_view m h : length (view m h) = length h.
Proof. apply length_fmap. Qed.

Lemma view_swap m h i j : view m (list_swap i j h) = list_swap i j (view m h).
Proof.
  unfold view, list_swap. rewrite !list_lookup_fmap.
  destruct (h !! i), (h !! j); simpl; by rewrite ?list_fmap_insert.
Qed.

Lemma set_index_same h i q m : q ∈ h -> same_items h m (set_index i q m).
Proof.
  intros Hq. split; intros q'; unfold set_index.
  - destruct (decide (q' = q)) as [->|].
    + rewrite lookup_alter_eq. by destruct (m !! q).
    + by rewrite lookup_alter_ne.
  - intros Hq'. rewrite lookup_alter_ne; [done|]. by intros ->.
Qed.

(** The slice state [s] holds the items of [h0] in the order of the plain list [l]. *)
Definition heap_rel (m0 : memory) (h0 : list ptr) (s : heap_state) (l : list (ptr * float64)) : Prop :=
  view s.1 s.2 = l /\ heap_wf s.1 s.2 /\ same_items h0 m0 s.1 /\ s.2 ≡ₚ h0.

Lemma heap_rel_less m0 h0 i j s l :
  i < length h0 -> j < length h0 -> heap_rel m0 h0 s l ->
  gdsf_Less i j s = list_less prio_lt i j l.
Proof.
  intros Hi Hj (<- & _). unfold gdsf_Less, list_less, view. rewrite !list_lookup_fmap.
  by destruct (s.2 !! i), (s.2 !! j).
Qed.

Lemma heap_wf_swap m h i j :
  heap_wf m h -> i < length h -> j < length h ->
  heap_wf (gdsf_Swap i j (m, h)).1 (gdsf_Swap i j (m, h)).2.
Proof.
  intros Hwf Hi Hj k q Hk. pose proof (heap_wf_NoDup m h Hwf) as Hnd.
  assert (Hnd' : NoDup (list_swap i j h)) by by rewrite list_swap_perm.
  cbn [gdsf_Swap fst snd] in *. rewrite list_swap_r, list_swap_l by done.
  assert (Hkl : k < length h).
  { apply lookup_lt_Some in Hk. by rewrite length_list_swap in Hk. }
  apply list_lookup_total_correct in Hk. rewrite list_swap_total in Hk by done.
  assert (Hlive : forall n, n < length h -> exists it, m !! (h !!! n) = Some it /\ it_index it = Z.of_nat n).
  { intros n Hn. apply Hwf. by apply list_lookup_lookup_total_lt. }
  assert (Hinj : forall a b, a < length h -> b < length h -> h !!! a = h !!! b -> a = b).
  { intros a b Ha Hb Hab. eapply (NoDup_lookup h a b (h !!! a)); [done|..].
    - by apply list_lookup_lookup_total_lt.
    - rewrite Hab. by apply list_lookup_lookup_total_lt. }
  unfold set_index. case_decide as Hkj; [subst k q|case_decide as Hki; [subst k q|subst q]].
  - destruct (Hlive i Hi) as (it & Hit & _). destruct (decide (i = j)) as [->|Hij].
    + rewrite !lookup_alter_eq, Hit. eexists. split; [done|]. done.
    + rewrite lookup_alter_eq, lookup_alter_ne, Hit by (intros ?%Hinj; done).
      eexists. split; done.
  - destruct (Hlive j Hj) as (it & Hit & _).
    rewrite lookup_alter_ne, lookup_alter_eq, Hit by (intros ?%Hinj; done). eexists. split; done.
  - destruct (Hlive k Hkl) as (it & Hit & Hix).
    rewrite !lookup_alter_ne, Hit by (intros ?%Hinj; done). eexists. split; done.
Qed.

Lemma heap_rel_swap m0 h0 i j s l :
  i < length h0 -> j < length h0 -> heap_rel m0 h0 s l ->
  heap_rel m0 h0 (gdsf_Swap i j s) (list_swap i j l).
Proof.
  intros Hi Hj (<- & Hwf & Hs & Hp). destruct s as [m h]; cbn [fst snd] in *.
  rewrite <- Hp in Hi, Hj.
  assert (Hin : forall k, k < length h -> list_swap i j h !!! k ∈ h0).
  { intros k Hk. rewrite <- Hp. pose proof (list_swap_perm i j h) as Hsw.
    assert (list_swap i j h !!! k ∈ list_swap i j h) as Hel.
    { apply list_elem_of_lookup_total_2. by rewrite length_list_swap. }
    by rewrite Hsw in Hel at 2. }
  assert (Hs' : same_items h0 m (gdsf_Swap i j (m, h)).1).
  { cbn [gdsf_Swap fst snd].
    eapply same_items_trans; apply set_index_same; auto. }
  split; [|split; [|split]].
  - rewrite (view_same _ _ _ Hs'). apply view_swap.
  - by apply heap_wf_swap.
  - by eapply same_items_trans.
  - cbn. by rewrite list_swap_perm.
Qed.

(** What one of the three heap calls guarantees about the slice and the store. *)
Definition heap_ok (m0 : memory) (h0 : list ptr) (s : heap_state) : Prop :=
  heap_wf s.1 s.2 /\ same_items h0 m0 s.1 /\ s.2 ≡ₚ h0.

Lemma heap_rel_init m h : heap_wf m h -> heap_rel m h (m, h) (view m h).
Proof. by intros. Qed.

Lemma heap_rel_ok m0 h0 s l : heap_rel m0 h0 s l -> heap_ok m0 h0 s.
Proof. by intros (_ & ?). Qed.

Lemma heap_rel_ordered m0 h0 s l n :
  heap_rel m0 h0 s l -> n = length h0 -> Forall prio_good l -> heap_ordered prio_lt n l ->
  tenant_ordered s.1 s.2.
Proof.
  intros (<- & _ & _ & Hp) -> Hg Ho. split; [done|]. by rewrite (Permutation_length Hp).
Qed.

#[local] Hint Extern 0 (HeapInterface (list (ptr * float64))) => exact (list_heap prio_lt) : typeclass_instances.

Lemma view_insert m h i q it :
  NoDup h -> h !! i = Some q -> view (<[q := it]> m) h = <[i := (q, it_priority it)]> (view m h).
Proof.
  intros Hnd Hi. apply list_eq. intros k. unfold view.
  destruct (decide (k = i)) as [->|Hk].
  - rewrite list_lookup_insert_eq, list_lookup_fmap, Hi; simpl.
    + by rewrite lookup_total_insert_eq.
    + rewrite length_fmap. by eapply lookup_lt_Some.
  - rewrite list_lookup_insert_ne, !list_lookup_fmap by done.
    destruct (h !! k) as [q'|] eqn:Hq'; simpl; [|done].
    rewrite lookup_total_insert_ne; [done|]. intros ->. apply Hk. by eapply NoDup_lookup.
Qed.

Lemma heap_wf_insert m h i q it :
  heap_wf m h -> h !! i = Some q -> it_index it = Z.of_nat i -> heap_wf (<[q := it]> m) h.
Proof.
  intros Hwf Hi Hit k q' Hk. destruct (decide (q' = q)) as [->|Hne].
  - rewrite lookup_insert_eq. exists it. split; [done|].
    pose proof (heap_wf_NoDup m h Hwf) as Hnd. rewrite Hit. f_equal. by eapply NoDup_lookup.
  - rewrite lookup_insert_ne by done. by apply Hwf.
Qed.

Lemma Fix_rel m h i :
  heap_wf m h -> i < length h ->
  heap_rel m h (gdsf_heap_Fix i (m, h)) (heap_Fix i (view m h)).
Proof.
  intros Hwf Hi. apply (sim_Fix (length h) (heap_rel m h)); try done.
  - intros. by eapply heap_rel_less.
  - intros. by apply heap_rel_swap.
  - apply length_view.
Qed.

Lemma gdsf_Fix_ok m h i q it :
  heap_wf m h -> h !! i = Some q -> it_index it = Z.of_nat i ->
  heap_ok (<[q := it]> m) h (gdsf_heap_Fix i (<[q := it]> m, h)).
Proof.
  intros Hwf Hi Hit. eapply heap_rel_ok, Fix_rel; [by eapply heap_wf_insert|].
  by eapply lookup_lt_Some.
Qed.

Lemma gdsf_Fix_ordered m h i q it s :
  heap_wf m h -> h !! i = Some q -> it_index it = Z.of_nat i ->
  tenant_ordered m h -> f64_is_nan (it_priority it) = false ->
  s = gdsf_heap_Fix i (<[q := it]> m, h) -> tenant_ordered s.1 s.2.
Proof.
  intros Hwf Hi Hit [Hg Ho] Hn ->. pose proof (lookup_lt_Some _ _ _ Hi) as Hlt.
  eapply heap_rel_ordered; [by apply Fix_rel, Hlt; eapply heap_wf_insert|done|..];
    rewrite (view_insert m h i) by (done || by eapply heap_wf_NoDup).
  - rewrite heap_Fix_perm. by apply Forall_insert.
  - rewrite <- (length_view m h) in *.
    apply (heap_Fix_ordered prio_lt prio_good); eauto using prio_lt_asym, prio_nlt_trans.
Qed.

(** [heap.Push] of the fresh pointer [q] whose item is [it]. *)
Definition pushed (q : ptr) (it : gdsfItem) (m : memory) (h : list ptr) : memory :=
  <[q := with_index (Z.of_nat (length h)) it]> m.

Lemma gdsf_Push_pushed q it m h :
  gdsf_Push q (<[q := it]> m, h) = (pushed q it m h, h ++ [q]).
Proof.
  unfold gdsf_Push, pushed, set_index. cbn [fst snd]. f_equal.
  by rewrite alter_insert_eq.
Qed.

Lemma heap_wf_pushed q it m h :
  heap_wf m h -> q ∉ h -> heap_wf (pushed q it m h) (h ++ [q]).
Proof.
  intros Hwf Hq k q' Hk. unfold pushed. apply lookup_app_Some in Hk as [Hk|[Hlen Hk]].
  - rewrite lookup_insert_ne; [by apply Hwf|]. intros ->. by apply list_elem_of_lookup_2 in Hk.
  - apply list_lookup_singleton_Some in Hk as [Hk ->]. rewrite lookup_insert_eq.
    eexists. split; [done|]. simpl. lia.
Qed.

Lemma Push_rel q it m h :
  heap_wf m h -> q ∉ h ->
  heap_rel (pushed q it m h) (h ++ [q]) (gdsf_heap_Push q (<[q := it]> m, h))
    (heap_Push_fix (view (pushed q it m h) (h ++ [q]))).
Proof.
  intros Hwf Hq. unfold gdsf_heap_Push. rewrite gdsf_Push_pushed.
  apply (sim_Push_fix (length (h ++ [q])) (heap_rel (pushed q it m h) (h ++ [q]))); try done.
  - intros. by eapply heap_rel_less.
  - intros. by apply heap_rel_swap.
  - rewrite length_app. simpl. lia.
  - apply length_view.
  - by apply heap_rel_init, heap_wf_pushed.
Qed.

Lemma gdsf_Push_ok q it m h :
  heap_wf m h -> q ∉ h ->
  heap_ok (pushed q it m h) (h ++ [q]) (gdsf_heap_Push q (<[q := it]> m, h)).
Proof. intros. by eapply heap_rel_ok, Push_rel. Qed.

Lemma view_pushed q it m h :
  q ∉ h -> view (pushed q it m h) (h ++ [q]) = view m h ++ [(q, it_priority it)].
Proof.
  intros Hq. unfold view, pushed. rewrite fmap_app. simpl. rewrite lookup_total_insert_eq. f_equal.
  apply list_fmap_ext. intros i q' Hi. rewrite lookup_total_insert_ne; [done|].
  intros ->. by apply list_elem_of_lookup_2 in Hi.
Qed.

Lemma gdsf_Push_ordered q it m h s :
  heap_wf m h -> q ∉ h -> tenant_ordered m h -> f64_is_nan (it_priority it) = false ->
  s = gdsf_heap_Push q (<[q := it]> m, h) -> tenant_ordered s.1 s.2.
Proof.
  intros Hwf Hq [Hg Ho] Hn ->.
  eapply heap_rel_ordered; [by apply Push_rel| |..];
    [reflexivity|rewrite view_pushed by done..].
  - rewrite heap_Push_fix_perm. apply Forall_app. by rewrite Forall_singleton.
  - rewrite length_app, Nat.add_comm. simpl. rewrite <- (length_view m h) in *.
    apply (heap_Push_ordered prio_lt prio_good); eauto using prio_lt_asym, prio_nlt_trans.
Qed.

Lemma Remove_rel m h i :
  heap_wf m h -> i < length h ->
  heap_rel m h (heap_Remove_fix i (m, h)) (heap_Remove_fix i (view m h)).
Proof.
  intros Hwf Hi. apply (sim_Remove_fix (length h) (heap_rel m h)); try done.
  - intros. by eapply heap_rel_less.
  - intros. by apply heap_rel_swap.
  - apply length_view.
Qed.

(** After the swaps of [Remove] the item to remove is the last one. *)
Lemma Remove_last m h i q :
  heap_wf m h -> h !! i = Some q ->
  exists l, (heap_Remove_fix i (m, h)).2 = l ++ [q] /\ length l = pred (length h).
Proof.
  intros Hwf Hi. pose proof (lookup_lt_Some _ _ _ Hi) as Hlt.
  destruct (Remove_rel m h i Hwf Hlt) as (Hv & _ & _ & Hp).
  set (s := heap_Remove_fix i (m, h)) in *. pose proof (Permutation_length Hp) as Hlen.
  destruct (exists_last (l := s.2)) as (l & q' & Hl); [intros Hnil; rewrite Hnil in Hlen; simpl in Hlen; lia|].
  exists l. rewrite Hl, length_app in Hlen. simpl in Hlen. split; [|lia]. rewrite Hl. do 2 f_equal.
  pose proof (heap_Remove_last prio_lt (length l) i (view m h)) as Hlast.
  rewrite length_view, <- Hv, Hl in Hlast. specialize (Hlast ltac:(lia) ltac:(lia)).
  unfold view in Hlast. rewrite fmap_app in Hlast.
  rewrite !list_lookup_total_alt, lookup_app_r, (list_lookup_fmap _ h), Hi in Hlast
    by (by rewrite length_fmap).
  rewrite length_fmap, Nat.sub_diag in Hlast. simpl in Hlast. congruence.
Qed.

Lemma heap_wf_pop m l q :
  heap_wf m (l ++ [q]) -> heap_wf (alter (with_index (-1)) q m) l.
Proof.
  intros Hwf k q' Hk. pose proof (heap_wf_NoDup _ _ Hwf) as Hnd.
  destruct (Hwf k q') as (it & Hit & Hix); [by apply lookup_app_l_Some|].
  exists it. rewrite lookup_alter_ne; [done|]. intros <-.
  apply NoDup_app in Hnd as (_ & Hnd & _). apply (Hnd q); [by eapply list_elem_of_lookup_2|].
  apply list_elem_of_here.
Qed.

Lemma alter_same h i q m : q ∈ h -> same_items h m (alter (with_index i) q m).
Proof.
  intros Hq. split; intros q'.
  - destruct (decide (q' = q)) as [->|]; [rewrite lookup_alter_eq; by destruct (m !! q)|].
    by rewrite lookup_alter_ne.
  - intros Hq'. rewrite lookup_alter_ne; [done|]. by intros ->.
Qed.

Lemma gdsf_Remove_ok m h i q :
  heap_wf m h -> h !! i = Some q ->
  let s := gdsf_heap_Remove i (m, h) in
  heap_wf s.1 s.2 /\ same_items h m s.1 /\ s.2 ++ [q] ≡ₚ h.
Proof.
  intros Hwf Hi. pose proof (lookup_lt_Some _ _ _ Hi) as Hlt.
  destruct (Remove_rel m h i Hwf Hlt) as (_ & Hwf' & Hs & Hp).
  destruct (Remove_last m h i q Hwf Hi) as (l & Hl & _).
  unfold gdsf_heap_Remove, gdsf_Pop. rewrite Hl in *. rewrite last_snoc, removelast_last. simpl.
  split; [by apply heap_wf_pop|]. split; [|done].
  eapply same_items_trans; [done|]. apply alter_same. rewrite <- Hp. set_solver.
Qed.

Lemma gdsf_Remove_ordered m h i q s :
  heap_wf m h -> h !! i = Some q -> tenant_ordered m h ->
  s = gdsf_heap_Remove i (m, h) -> tenant_ordered s.1 s.2.
Proof.
  intros Hwf Hi [Hg Ho] ->. pose proof (lookup_lt_Some _ _ _ Hi) as Hlt.
  destruct (Remove_rel m h i Hwf Hlt) as (Hv & _ & _ & Hp).
  destruct (Remove_last m h i q Hwf Hi) as (l & Hl & Hlen).
  assert (Hor : heap_ordered prio_lt (length l) (heap_Remove_fix i (view m h))).
  { apply (heap_Remove_ordered prio_lt prio_good);
      eauto using prio_lt_asym, prio_nlt_trans; rewrite ?length_view; [lia|lia|].
    by replace (S (length l)) with (length h) by lia. }
  assert (Hg' : Forall prio_good (heap_Remove_fix i (view m h))) by by rewrite heap_Remove_fix_perm.
  rewrite <- Hv in Hor, Hg'. unfold gdsf_heap_Remove, gdsf_Pop. rewrite Hl in *.
  rewrite last_snoc, removelast_last. unfold view in Hor, Hg'. rewrite fmap_app in Hor, Hg'.
  fold (view (heap_Remove_fix i (m, h)).1 l) in *. cbn [fst snd].
  assert (Hal : forall m', same_items (l ++ [q]) m' (alter (with_index (-1)) q m')).
  { intros m'. apply alter_same. set_solver. }
  rewrite <- (view_same _ _ _ (Hal _)) in Hor, Hg'.
  apply Forall_app in Hg' as [Hg' _]. split; [done|].
  intros k Hk. pose proof (Hor k Hk) as Hk'. pose proof (parent_lt k ltac:(lia)). unfold le_at in *.
  by rewrite !list_lookup_total_alt, !lookup_app_l, <- !list_lookup_total_alt in Hk'
    by (rewrite length_view; lia).
Qed.

(** The first slot holds a least priority. *)
Lemma tenant_root_least m h q0 q :
  tenant_ordered m h -> head h = Some q0 -> q ∈ h ->
  f64_ltb (it_priority (m !!! q)) (it_priority (m !!! q0)) = false.
Proof.
  intros [Hg Ho] H0 [i Hi]%list_elem_of_lookup_1.
  pose proof (heap_root_least prio_lt prio_good prio_lt_asym prio_nlt_trans
    (length h) (view m h) i Hg ltac:(by rewrite length_view) Ho (lookup_lt_Some _ _ _ Hi)) as Hle.
  unfold le_at, view in Hle. rewrite !list_lookup_total_alt, !list_lookup_fmap, Hi in Hle.
  destruct h as [|? h]; simplify_eq/=. done.
Qed.

End tenant_heap.

(** ** The value arithmetic stays away from NaN *)

Definition weight_ok (w : float64) : Prop := f64_nonneg w = true /\ f64_small 2 w.

Section values.
Local Open Scope Z_scope.

Lemma priorityOf_nonneg L freq cost size :
  f64_nonneg L = true -> in_u64 freq -> f64_cost_ok cost = true -> in_i64 size ->
  f64_nonneg (priorityOf L freq cost size) = true.
Proof.
  intros HL Hf Hc Hs. unfold priorityOf. set (c := if f64_leb cost f64_0 then f64_1 else cost).
  assert (f64_nonneg c = true /\ f64_cost_ok c = true) as [Hc1 Hc2].
  { unfold c. destruct cost as [[]|[]| |[]]; try done. }
  apply f64_add_nonneg; [done|]. wrap_unfold. apply f64_div_nonneg.
  - apply f64_mul_finite; auto with kv; [apply f64_of_Z_nonneg; lia|].
    pose proof (f64_of_Z_nonneg freq ltac:(lia)).
    destruct (decide (freq = 0)) as [->|]; [done|].
    pose proof (f64_of_Z_pos freq ltac:(lia)). by destruct (f64_of_Z freq) as [| | |[]].
  - apply f64_of_Z_pos. destruct (Z.leb_spec size 0); lia.
Qed.

Lemma overage_ok ts :
  in_i64 (ts_bytes ts) -> in_i64 (ts_quota ts) ->
  f64_nonneg (overage ts) = true /\ f64_small 200 (overage ts).
Proof.
  intros Hb Hq. wrap_unfold. unfold overage. destruct (Z.leb_spec (ts_quota ts) 0) as [|Hpos].
  { case_match; [|done]. split; [done|]. by vm_compute. }
  set (o := f64_sub _ _).
  assert (Ho : f64_small 121 o).
  { unfold o. apply (f64_addsub_small 119); [lia| |].
    - eapply f64_small_mono; [|apply (f64_div_small 65 52)]; [lia| | |lia].
      + apply f64_of_Z_small. lia.
      + pose proof (f64_of_Z_exponent (ts_quota ts) ltac:(lia)) as He.
        by destruct (f64_of_Z (ts_quota ts)).
    - by rewrite f64_1_eq. }
  destruct (f64_ltb o f64_0) eqn:Elt; [done|].
  split; [|eapply f64_small_mono; [|done]; lia].
  by destruct o as [| | |[]].
Qed.

Lemma denominator_ok w ts :
  weight_ok w -> in_i64 (ts_bytes ts) -> in_i64 (ts_quota ts) ->
  f64_pos_finite (f64_add f64_1 (f64_mul w (overage ts))) = true.
Proof.
  intros [Hw1 Hw2] Hb Hq. destruct (overage_ok ts Hb Hq) as [Ho1 Ho2]. apply f64_one_plus.
  - apply f64_mul_finite; eauto using f64_small_cost_ok.
  - eapply f64_small_mono; [|by apply (f64_mul_small 2 200); [..|lia]]. lia.
Qed.

Lemma clamp_weight_ok w :
  valid_binary f64_prec f64_emax w = true -> f64_is_nan w = false -> weight_ok (clamp_weight w).
Proof.
  intros Hv Hn. unfold clamp_weight, weight_ok, f64_gtb.
  destruct (f64_ltb w f64_0) eqn:E0; [done|]. rewrite f64_1_eq in *.
  match goal with |- context [SFltb ?o w] => destruct (SFltb o w) eqn:E1 end; [split; [done|by vm_compute]|].
  destruct w as [|[]| |[] m e]; try done. split; [done|].
  unfold SFltb in E1. simpl in Hv. unfold bounded, canonical_mantissa in Hv.
  apply andb_prop in Hv as [Hv _]. apply Z.eqb_eq in Hv. unfold fexp, emin, f64_prec, f64_emax in Hv.
  rewrite digits2_pos_log2 in Hv. cbn [f64_small]. split; [lia|].
  cbn [SFcompare] in E1. destruct (Z.compare_spec (-52) e) as [<-|Hlt|Hgt]; [lia|done|lia].
Qed.

End values.
