(* ===== verification/GdsfInv.v ===== *)
(** The invariants of the GDSF policy ([gdsf_wf], the structure, and [gdsf_ord],
    the order), its abstraction to blocks, and their preservation by the in-place
    update, the removal and the insertion of an item. *)

From S2P Require Import Prelude Bytes Float64 Policy GoHeap Gdsf GdsfHeap.

(** ** Abstraction and invariants *)

Definition block_of (it : gdsfItem) : GdsfSpec.block :=
  GdsfSpec.mk_block (it_tenant it) (it_size it) (it_cost it) (it_freq it) (it_priority it).

Definition blocks_of (p : GDSFPolicy) : gmap BlockHash GdsfSpec.block :=
  (fun q => block_of (g_mem p !!! q)) <$> g_items p.

Definition gdsf_abs (p : GDSFPolicy) : GdsfSpec.spec :=
  GdsfSpec.mk_spec (blocks_of p) (g_quotas p) (g_inflation p) (g_elastic p) (g_weight p).

(** What a tenant's record says about its slice. *)
Record tenant_wf (p : GDSFPolicy) (t : string) (ts : tenantState) : Prop := mk_tenant_wf {
  tw_heap : heap_wf (g_mem p) (ts_h ts);
  tw_items q : q ∈ ts_h ts ->
    it_tenant (g_mem p !!! q) = t /\ g_items p !! it_key (g_mem p !!! q) = Some q;
  tw_bytes : ts_bytes ts = i64 (list_sum_Z (fun q => it_size (g_mem p !!! q)) (ts_h ts));
  tw_quota : ts_quota ts = default 0%Z (g_quotas p !! t);
}.

(** The structural invariant. *)
Record gdsf_wf (p : GDSFPolicy) : Prop := mk_gdsf_wf {
  wf_items k q : g_items p !! k = Some q ->
    it_key (g_mem p !!! q) = k
    /\ exists ts, g_tenants p !! it_tenant (g_mem p !!! q) = Some ts /\ q ∈ ts_h ts;
  wf_tenant t ts : g_tenants p !! t = Some ts -> tenant_wf p t ts;
  wf_fresh q : is_Some (g_mem p !! q) -> q < g_next p;
}.

(** A block whose value arithmetic cannot go wrong. *)
Definition block_ok (b : GdsfSpec.block) : Prop :=
  f64_cost_ok (GdsfSpec.b_cost b) = true /\ in_u64 (GdsfSpec.b_freq b)
  /\ in_i64 (GdsfSpec.b_size b) /\ f64_nonneg (GdsfSpec.b_prio b) = true.

(** The heap order and the sanity of the values, kept while costs are sane. *)
Record gdsf_ord (p : GDSFPolicy) : Prop := mk_gdsf_ord {
  ord_floor : f64_nonneg (g_inflation p) = true;
  ord_weight : weight_ok (g_weight p);
  ord_quota t : in_i64 (default 0%Z (g_quotas p !! t));
  ord_blocks k b : blocks_of p !! k = Some b -> block_ok b;
  ord_heap t ts : g_tenants p !! t = Some ts -> tenant_ordered (g_mem p) (ts_h ts);
}.

(** What a caller must respect for the order: a cost that is neither NaN nor
    +Inf and an [int64] size; for a [Victim] call, [o] is one order in which a
    [range] can visit the tenants. *)
Definition meta_ok (m : WriteMeta) : Prop := f64_cost_ok (meta_Cost m) = true /\ in_i64 (meta_Size m).
Definition range_order (o : MapOrder) (p : GDSFPolicy) : Prop :=
  NoDup o /\ forall t, t ∈ o <-> is_Some (g_tenants p !! t).

(** ** Preservation: one tenant's slice is replaced

    Every mutation of the policy rewrites the slice of one tenant [t]: the rest
    of the argument is the same for all of them. *)

(** The policy [p] with tenant [t] rewritten. *)
Definition rewritten (t : string) (bytes quota : Z) (s : heap_state)
    (items : gmap BlockHash ptr) (next : ptr) (p : GDSFPolicy) : GDSFPolicy :=
  mk_gdsf items (<[t := mk_tenant bytes quota s.2]> (g_tenants p)) (g_quotas p)
    (g_inflation p) (g_elastic p) (g_weight p) s.1 next.

Section preservation.
Implicit Types (p : GDSFPolicy) (t : string) (q : ptr).

(** The items of the other tenants: their pointers, items and index entries stay. *)
Definition others_kept p t (m' : memory) (items' : gmap BlockHash ptr) : Prop :=
  forall q, is_Some (g_mem p !! q) -> it_tenant (g_mem p !!! q) <> t ->
    m' !! q = g_mem p !! q
    /\ (g_items p !! it_key (g_mem p !!! q) = Some q -> items' !! it_key (g_mem p !!! q) = Some q).

(** Every index entry is one of the tenant's new slice or one of another tenant. *)
Definition index_covered p t (s : heap_state) (items' : gmap BlockHash ptr) : Prop :=
  forall k q, items' !! k = Some q ->
    (q ∈ s.2 /\ it_key (s.1 !!! q) = k) \/ (g_items p !! k = Some q /\ it_tenant (g_mem p !!! q) <> t).

Lemma wf_live p t ts q :
  gdsf_wf p -> g_tenants p !! t = Some ts -> q ∈ ts_h ts -> is_Some (g_mem p !! q).
Proof.
  intros Hp Ht [i Hi]%list_elem_of_lookup_1.
  destruct (tw_heap _ _ _ (wf_tenant p Hp t ts Ht) i q Hi) as (it & -> & _). done.
Qed.

Lemma wf_item_live p k q : gdsf_wf p -> g_items p !! k = Some q -> is_Some (g_mem p !! q).
Proof. intros Hp Hk. destruct (wf_items p Hp k q Hk) as (_ & ts & Ht & Hq). by eapply wf_live. Qed.

Lemma lookup_total_same (m m' : memory) q : m' !! q = m !! q -> m' !!! q = m !!! q.
Proof. intros H. by rewrite !lookup_total_alt, H. Qed.

Lemma wf_rewritten p t bytes quota s items' next' :
  gdsf_wf p ->
  heap_wf s.1 s.2 ->
  (forall q, q ∈ s.2 -> it_tenant (s.1 !!! q) = t /\ items' !! it_key (s.1 !!! q) = Some q) ->
  bytes = i64 (list_sum_Z (fun q => it_size (s.1 !!! q)) s.2) ->
  quota = default 0%Z (g_quotas p !! t) ->
  others_kept p t s.1 items' -> index_covered p t s items' ->
  (forall q, is_Some (s.1 !! q) -> q < next') ->
  gdsf_wf (rewritten t bytes quota s items' next' p).
Proof.
  intros Hp Hwf Hit Hb Hq Hoth Hcov Hfresh. split; simpl.
  - intros k q Hk. destruct (Hcov k q Hk) as [[Hin Hkey]|[Hold Hne]].
    + split; [done|]. destruct (Hit q Hin) as [-> _]. rewrite lookup_insert_eq. eauto.
    + destruct (wf_items p Hp k q Hold) as (Hkey & ts & Hts & Hin).
      destruct (Hoth q (wf_item_live p k q Hp Hold) Hne) as [Hm _].
      rewrite (lookup_total_same _ _ _ Hm), lookup_insert_ne by done. eauto.
  - intros t' ts Ht'. destruct (decide (t' = t)) as [->|Hne].
    + rewrite lookup_insert_eq in Ht'. simplify_eq. by split.
    + rewrite lookup_insert_ne in Ht' by done. pose proof (wf_tenant p Hp t' ts Ht') as [H1 H2 H3 H4].
      assert (Hm : forall q, q ∈ ts_h ts -> s.1 !! q = g_mem p !! q).
      { intros q Hin. apply Hoth; [by eapply wf_live|]. destruct (H2 q Hin) as [-> _]. done. }
      split; simpl; [|..|done].
      * intros i q Hi. rewrite Hm by (by eapply list_elem_of_lookup_2). by apply H1.
      * intros q Hin. rewrite (lookup_total_same _ _ _ (Hm q Hin)). split; [by apply H2|].
        apply Hoth; [by eapply wf_live| |by apply H2]. destruct (H2 q Hin) as [-> _]. done.
      * rewrite H3. f_equal. apply list_sum_ext. intros q Hin.
        by rewrite (lookup_total_same _ _ _ (Hm q Hin)).
  - done.
Qed.

(** The order of the other tenants is untouched. *)
Lemma ord_rewritten p t bytes quota s items' next' :
  gdsf_wf p -> gdsf_ord p ->
  others_kept p t s.1 items' -> tenant_ordered s.1 s.2 ->
  (forall k b, blocks_of (rewritten t bytes quota s items' next' p) !! k = Some b -> block_ok b) ->
  gdsf_ord (rewritten t bytes quota s items' next' p).
Proof.
  intros Hp [H1 H2 H3 H4 H5] Hoth Ho Hb. split; simpl; try done.
  intros t' ts Ht'. destruct (decide (t' = t)) as [->|Hne].
  - rewrite lookup_insert_eq in Ht'. by simplify_eq.
  - rewrite lookup_insert_ne in Ht' by done. specialize (H5 t' ts Ht').
    assert (view s.1 (ts_h ts) = view (g_mem p) (ts_h ts)) as Hv.
    { apply list_fmap_ext. intros i q Hi. apply list_elem_of_lookup_2 in Hi.
      destruct (Hoth q) as [Hm _]; [by eapply wf_live| |by rewrite (lookup_total_same _ _ _ Hm)].
      destruct (tw_items _ _ _ (wf_tenant p Hp t' ts Ht') q Hi) as [-> _]. done. }
    unfold tenant_ordered in *. by rewrite Hv.
Qed.

Lemma other_not_in p t ts q :
  gdsf_wf p -> g_tenants p !! t = Some ts -> it_tenant (g_mem p !!! q) <> t -> q ∉ ts_h ts.
Proof. intros Hp Ht Hne Hin. by destruct (tw_items _ _ _ (wf_tenant p Hp t ts Ht) q Hin). Qed.

(** The fields other than the position survive a heap call. *)
Lemma same_items_block h m m' q :
  same_items h m m' -> block_of (m' !!! q) = block_of (m !!! q) /\ it_key (m' !!! q) = it_key (m !!! q).
Proof.
  intros [H _]. specialize (H q). rewrite !lookup_total_alt.
  destruct (m !! q) as [[]|], (m' !! q) as [[]|]; unfold with_index, block_of in *; simpl in *;
    solve [done | split; congruence].
Qed.

Lemma same_items_fields h m m' q :
  same_items h m m' ->
  it_tenant (m' !!! q) = it_tenant (m !!! q) /\ it_key (m' !!! q) = it_key (m !!! q)
  /\ it_size (m' !!! q) = it_size (m !!! q).
Proof.
  intros H. destruct (same_items_block h m m' q H) as [Hb Hk]. unfold block_of in Hb.
  split; [|split]; congruence.
Qed.

Lemma same_items_is_Some h m m' q : same_items h m m' -> is_Some (m' !! q) -> is_Some (m !! q).
Proof. intros [H _] [x Hx]. specialize (H q). rewrite Hx in H. by destruct (m !! q). Qed.

(** The same with the premises on the item table [m] the heap call started from. *)
Lemma wf_rewritten_heap p t bytes quota s h l m items' next' :
  gdsf_wf p -> heap_wf s.1 s.2 -> same_items h m s.1 -> s.2 ≡ₚ l ->
  (forall q, q ∈ l -> it_tenant (m !!! q) = t /\ items' !! it_key (m !!! q) = Some q) ->
  bytes = i64 (list_sum_Z (fun q => it_size (m !!! q)) l) ->
  quota = default 0%Z (g_quotas p !! t) ->
  others_kept p t s.1 items' -> index_covered p t (m, l) items' ->
  (forall q, is_Some (m !! q) -> q < next') ->
  gdsf_wf (rewritten t bytes quota s items' next' p).
Proof.
  intros Hp Hwf Hs Hperm Hit Hb Hq Hoth Hcov Hfresh. apply wf_rewritten; try done.
  - intros q. rewrite Hperm. destruct (same_items_fields _ _ _ q Hs) as (-> & -> & _). apply Hit.
  - rewrite Hb. f_equal. rewrite (list_sum_perm _ _ _ Hperm). apply list_sum_ext. intros q _.
    by destruct (same_items_fields _ _ _ q Hs) as (_ & _ & ->).
  - intros k q Hk. destruct (same_items_fields _ _ _ q Hs) as (_ & -> & _). rewrite Hperm. by apply Hcov.
  - intros q Hl. by apply Hfresh, (same_items_is_Some _ _ _ q Hs).
Qed.

(** The block table after a heap call is the one of the table it started from. *)
Lemma blocks_rewritten p t bytes quota s h m items' next' :
  same_items h m s.1 ->
  blocks_of (rewritten t bytes quota s items' next' p) = (fun q => block_of (m !!! q)) <$> items'.
Proof. intros Hs. apply map_fmap_ext. intros k q _. apply (same_items_block _ _ _ q Hs). Qed.

Lemma blocks_update p k q (m : memory) it :
  block_of (m !!! q) = block_of it ->
  (forall k' q', k' <> k -> g_items p !! k' = Some q' -> m !!! q' = g_mem p !!! q') ->
  (fun q => block_of (m !!! q)) <$> <[k := q]> (g_items p) = <[k := block_of it]> (blocks_of p).
Proof.
  intros Hq Hold. rewrite fmap_insert, Hq. apply map_eq. intros k'. destruct (decide (k' = k)) as [->|Hne].
  - by rewrite !lookup_insert_eq.
  - unfold blocks_of. rewrite !lookup_insert_ne, !lookup_fmap by done.
    destruct (g_items p !! k') as [q'|] eqn:Hk'; [|done]. simpl. by rewrite (Hold k' q').
Qed.

(** The order when the rewrite changes the block of one key. *)
Lemma ord_rewritten_insert p t bytes quota s items' next' k b :
  gdsf_wf p -> gdsf_ord p -> others_kept p t s.1 items' -> tenant_ordered s.1 s.2 ->
  blocks_of (rewritten t bytes quota s items' next' p) = <[k := b]> (blocks_of p) -> block_ok b ->
  gdsf_ord (rewritten t bytes quota s items' next' p).
Proof.
  intros Hp Hord Hoth Ho Hb Hok. apply ord_rewritten; try done. rewrite Hb.
  intros k' b' [[_ <-]|[_ Hb']]%lookup_insert_Some; [done|]. by apply (ord_blocks p Hord k').
Qed.

(** *** In-place updates *)

Lemma sum_update (m : memory) h q it :
  NoDup h -> q ∈ h ->
  list_sum_Z (fun x => it_size (<[q := it]> m !!! x)) h
  = (list_sum_Z (fun q => it_size (m !!! q)) h + it_size it - it_size (m !!! q))%Z.
Proof.
  induction h as [|q0 h IH]; intros Hnd Hin; [by apply not_elem_of_nil in Hin|].
  apply NoDup_cons in Hnd as [Hn Hnd]. rewrite !list_sum_cons.
  destruct (decide (q0 = q)) as [->|Hne].
  - rewrite lookup_total_insert_eq.
    rewrite (list_sum_ext _ (fun q' => it_size (m !!! q')) h); [lia|].
    intros q' Hq'. rewrite lookup_total_insert_ne; [done|by intros <-].
  - rewrite lookup_total_insert_ne by done. rewrite IH; [lia|done|].
    apply elem_of_cons in Hin as [?|?]; [congruence|done].
Qed.

Lemma item_slot p k q :
  gdsf_wf p -> g_items p !! k = Some q ->
  let it := g_mem p !!! q in
  exists ts i, g_tenants p !! it_tenant it = Some ts /\ ts_h ts !! i = Some q
    /\ g_mem p !! q = Some it /\ it_index it = Z.of_nat i /\ it_key it = k.
Proof.
  intros Hp Hk it. destruct (wf_items p Hp k q Hk) as (Hkey & ts & Ht & [i Hi]%list_elem_of_lookup_1).
  destruct (tw_heap _ _ _ (wf_tenant p Hp _ ts Ht) i q Hi) as (it' & Hm & Hix).
  assert (it = it') as Heq by (unfold it; by rewrite lookup_total_alt, Hm).
  exists ts, i. subst it. rewrite Heq in *. done.
Qed.

(** Two index entries with the same pointer are the same entry. *)
Lemma items_inj p k k' q :
  gdsf_wf p -> g_items p !! k = Some q -> g_items p !! k' = Some q -> k = k'.
Proof.
  intros Hp H1 H2. destruct (wf_items p Hp k q H1) as [<- _], (wf_items p Hp k' q H2) as [<- _]. done.
Qed.

Lemma fixed_others p q it' ts (s : heap_state) :
  gdsf_wf p -> g_tenants p !! it_tenant it' = Some ts -> q ∈ ts_h ts ->
  same_items (ts_h ts) (<[q := it']> (g_mem p)) s.1 ->
  others_kept p (it_tenant it') s.1 (g_items p).
Proof.
  intros Hp Hts Hqin Hs q' Hlive Hne. split; [|done].
  pose proof (other_not_in p _ ts q' Hp Hts Hne) as Hn.
  rewrite (proj2 Hs q' Hn). apply lookup_insert_ne. by intros <-.
Qed.

Lemma fix_item_spec p k q ts it' :
  gdsf_wf p -> g_items p !! k = Some q -> g_tenants p !! it_tenant (g_mem p !!! q) = Some ts ->
  it_key it' = it_key (g_mem p !!! q) -> it_tenant it' = it_tenant (g_mem p !!! q) ->
  it_index it' = it_index (g_mem p !!! q) ->
  let p' := fix_item q it' ts (i64 (ts_bytes ts + (it_size it' - it_size (g_mem p !!! q)))) p in
  gdsf_wf p' /\ blocks_of p' = <[k := block_of it']> (blocks_of p)
  /\ (gdsf_ord p -> block_ok (block_of it') -> gdsf_ord p').
Proof.
  intros Hp Hk Hts Ekey Etn Eix p'.
  destruct (item_slot p k q Hp Hk) as (ts' & i & Hts' & Hi & Hm & Hix & Hkq).
  rewrite Hts in Hts'. injection Hts' as <-. rewrite <- Etn in Hts.
  pose proof (wf_tenant p Hp _ ts Hts) as [Hwf Hit Hb Hq].
  pose proof (heap_wf_NoDup _ _ Hwf) as Hnd.
  set (m1 := <[q := it']> (g_mem p)).
  set (s := gdsf_heap_Fix (Z.to_nat (it_index it')) (m1, ts_h ts)).
  assert (Es : s = gdsf_heap_Fix i (m1, ts_h ts)) by (unfold s; by rewrite Eix, Hix, Nat2Z.id).
  destruct (gdsf_Fix_ok (g_mem p) (ts_h ts) i q it' Hwf Hi ltac:(congruence)) as (Hwf' & Hs & Hperm).
  fold m1 in Hwf', Hs, Hperm. rewrite <- Es in Hwf', Hs, Hperm.
  assert (Hqin : q ∈ ts_h ts) by by eapply list_elem_of_lookup_2.
  assert (Hold : forall q', q' <> q -> m1 !!! q' = g_mem p !!! q')
    by (intros; by apply lookup_total_insert_ne).
  assert (Hnew : m1 !!! q = it') by apply lookup_total_insert_eq.
  pose proof (fixed_others p q it' ts s Hp Hts Hqin Hs) as Hoth.
  change p' with (rewritten (it_tenant it') (i64 (ts_bytes ts + (it_size it' - it_size (g_mem p !!! q))))
    (ts_quota ts) s (g_items p) (g_next p) p).
  eassert (Hblocks : blocks_of (rewritten _ _ _ s (g_items p) _ p) = <[k := block_of it']> (blocks_of p)).
  { rewrite (blocks_rewritten _ _ _ _ _ _ _ _ _ Hs). rewrite <- (insert_id (g_items p) k q) at 1 by done.
    apply blocks_update; [by rewrite Hnew|]. intros k' q' Hne Hk'. apply Hold. intros ->.
    apply Hne. by eapply items_inj. }
  split; [|split; [exact Hblocks|]].
  - eapply wf_rewritten_heap; try done.
    + intros q' Hin. destruct (decide (q' = q)) as [->|Hne]; [by rewrite Hnew, Ekey, Hkq|].
      rewrite (Hold q' Hne). by apply Hit.
    + unfold m1. rewrite sum_update by done. rewrite Hb, i64_add_l. f_equal. lia.
    + intros k' q' Hk'. destruct (decide (it_tenant (g_mem p !!! q') = it_tenant it')) as [Ht|Ht]; [left|by right].
      destruct (wf_items p Hp k' q' Hk') as (Hkey' & ts2 & Hts2 & Hin).
      rewrite Ht, Hts in Hts2. injection Hts2 as <-. split; [done|]. simpl.
      destruct (decide (q' = q)) as [->|Hne]; [rewrite Hnew; congruence|by rewrite Hold].
    + intros q' [it2 [[<- _]|[_ Hl]]%lookup_insert_Some]; apply (wf_fresh p Hp); by eexists.
  - intros Hord Hok. apply (ord_rewritten_insert _ _ _ _ _ _ _ k (block_of it')); [done|done|done| |exact Hblocks|done].
    eapply (gdsf_Fix_ordered (g_mem p) (ts_h ts) i q it'); try done; [congruence| |].
    + by apply (ord_heap p Hord _ ts Hts).
    + apply f64_nonneg_not_nan. by destruct Hok as (_ & _ & _ & ?).
Qed.

(** *** Removal *)

Lemma removeItem_eq p k q :
  gdsf_wf p -> g_items p !! k = Some q ->
  exists ts i, g_tenants p !! it_tenant (g_mem p !!! q) = Some ts /\ ts_h ts !! i = Some q
    /\ it_key (g_mem p !!! q) = k
    /\ removeItem q p = rewritten (it_tenant (g_mem p !!! q))
         (i64 (ts_bytes ts - it_size (g_mem p !!! q))) (ts_quota ts)
         (gdsf_heap_Remove i (g_mem p, ts_h ts)) (delete k (g_items p)) (g_next p) p.
Proof.
  intros Hp Hk. destruct (item_slot p k q Hp Hk) as (ts & i & Hts & Hi & _ & Hix & Hkey).
  exists ts, i. split; [done|]. split; [done|]. split; [done|].
  unfold removeItem. rewrite Hts, Hix, Hkey.
  pose proof (lookup_lt_Some _ _ _ Hi).
  rewrite (proj2 (Z.leb_le _ _)), (proj2 (Z.ltb_lt _ _)) by lia. cbn [andb].
  by rewrite Nat2Z.id.
Qed.

Lemma removeItem_spec p k q :
  gdsf_wf p -> g_items p !! k = Some q ->
  let p' := removeItem q p in
  gdsf_wf p' /\ blocks_of p' = delete k (blocks_of p) /\ (gdsf_ord p -> gdsf_ord p').
Proof.
  intros Hp Hk. destruct (removeItem_eq p k q Hp Hk) as (ts & i & Hts & Hi & Hkey & ->).
  pose proof (wf_tenant p Hp _ ts Hts) as [Hwf Hit Hb Hq].
  destruct (gdsf_Remove_ok (g_mem p) (ts_h ts) i q Hwf Hi) as (Hwf' & Hs & Hperm).
  set (t := it_tenant (g_mem p !!! q)) in *.
  set (s := gdsf_heap_Remove i (g_mem p, ts_h ts)) in *.
  assert (Hnd : NoDup (s.2 ++ [q])) by (rewrite Hperm; by eapply heap_wf_NoDup).
  assert (Hqn : q ∉ s.2) by (apply NoDup_app in Hnd as (_ & Hd & _); set_solver).
  assert (Hin : forall q', q' ∈ ts_h ts <-> q' ∈ s.2 \/ q' = q) by (intros; rewrite <- Hperm; set_solver).
  assert (Hoth : others_kept p t s.1 (delete k (g_items p))).
  { intros q' Hlive Hne. pose proof (other_not_in p _ ts q' Hp Hts Hne) as Hn.
    split; [by apply (proj2 Hs)|]. intros Hk'. rewrite lookup_delete_ne; [done|].
    intros Heq. rewrite <- Heq, Hk in Hk'. injection Hk' as <-. by apply Hne. }
  eassert (Hblocks : blocks_of (rewritten _ _ _ s (delete k (g_items p)) _ p) = delete k (blocks_of p))
    by (rewrite (blocks_rewritten _ _ _ _ _ _ _ _ _ Hs); apply fmap_delete).
  split; [|split; [exact Hblocks|]].
  - eapply wf_rewritten_heap; try done.
    + intros q' Hq'. destruct (Hit q' ltac:(apply Hin; by left)) as [H1 H2]. split; [done|].
      rewrite lookup_delete_ne; [done|]. intros Heq. rewrite <- Heq, Hk in H2. congruence.
    + rewrite Hb, <- (list_sum_perm _ _ _ Hperm), list_sum_app, list_sum_cons. simpl.
      rewrite <- Z.add_opp_r, i64_add_l. f_equal. lia.
    + intros k' q' [Hne Hk']%lookup_delete_Some.
      destruct (decide (it_tenant (g_mem p !!! q') = t)) as [Ht|Ht]; [left|by right].
      destruct (wf_items p Hp k' q' Hk') as (Hkey' & ts2 & Hts2 & Hin2).
      rewrite Ht, Hts in Hts2. injection Hts2 as <-. split; [|done].
      apply Hin in Hin2 as [?| ->]; [done|]. by destruct Hne; eapply items_inj.
    + apply (wf_fresh p Hp).
  - intros Hord. eapply ord_rewritten; try done.
    + eapply gdsf_Remove_ordered; [..|done]; try done. by apply (ord_heap p Hord _ ts Hts).
    + rewrite Hblocks. intros k' b [_ Hb']%lookup_delete_Some. by apply (ord_blocks p Hord k').
Qed.

(** *** Insertion *)

(** The tenant's state before the insertion: registered or fresh. *)
Definition tenant_or_new (t : string) p : tenantState :=
  default (mk_tenant 0 (default 0%Z (g_quotas p !! t)) []) (g_tenants p !! t).

Lemma tenant_or_new_wf p t : gdsf_wf p -> tenant_wf p t (tenant_or_new t p).
Proof.
  intros Hp. unfold tenant_or_new. destruct (g_tenants p !! t) as [ts|] eqn:E; simpl.
  - by apply wf_tenant.
  - split; simpl; [by intros i q ?|by intros q ?%not_elem_of_nil|done|done].
Qed.

Lemma tenant_or_new_ord p t : gdsf_ord p -> tenant_ordered (g_mem p) (ts_h (tenant_or_new t p)).
Proof.
  intros Hp. unfold tenant_or_new. destruct (g_tenants p !! t) as [ts|] eqn:E; simpl.
  - by apply (ord_heap p Hp t).
  - split; [constructor|]. intros k Hk. simpl in Hk. lia.
Qed.

Definition fresh_item (meta : WriteMeta) p : gdsfItem :=
  mk_item (meta_Key meta) (meta_TenantID meta) (meta_Size meta) (meta_Cost meta) 1
    (priorityOf (g_inflation p) 1 (meta_Cost meta) (meta_Size meta)) 0.

Lemma insert_item_eq meta p :
  let ts := tenant_or_new (meta_TenantID meta) p in
  insert_item meta p = rewritten (meta_TenantID meta) (i64 (ts_bytes ts + meta_Size meta)) (ts_quota ts)
    (gdsf_heap_Push (g_next p) (<[g_next p := fresh_item meta p]> (g_mem p), ts_h ts))
    (<[meta_Key meta := g_next p]> (g_items p)) (S (g_next p)) p.
Proof.
  unfold insert_item, tenantFor, tenant_or_new, rewritten, fresh_item.
  destruct (g_tenants p !! meta_TenantID meta) as [ts|]; [done|]. simpl.
  unfold put_tenant; simpl. by rewrite insert_insert_eq.
Qed.

Lemma next_unused p : gdsf_wf p -> g_mem p !! g_next p = None.
Proof.
  intros Hp. destruct (g_mem p !! g_next p) eqn:E; [|done].
  pose proof (wf_fresh p Hp (g_next p) ltac:(by eexists)). lia.
Qed.

Lemma live_not_next p q : gdsf_wf p -> is_Some (g_mem p !! q) -> q <> g_next p.
Proof. intros Hp Hl ->. rewrite next_unused in Hl by done. by destruct Hl. Qed.

Lemma pushed_others p t k it ts (s : heap_state) :
  gdsf_wf p -> tenant_wf p t ts -> g_items p !! k = None ->
  same_items (ts_h ts ++ [g_next p]) (pushed (g_next p) it (g_mem p) (ts_h ts)) s.1 ->
  others_kept p t s.1 (<[k := g_next p]> (g_items p)).
Proof.
  intros Hp [_ Hit _ _] Hk Hs q Hlive Hne. pose proof (live_not_next p q Hp Hlive) as Hq. split.
  - rewrite (proj2 Hs); [by apply lookup_insert_ne|]. rewrite elem_of_app, list_elem_of_singleton.
    intros [Hin|?]; [|done]. by destruct (Hit q Hin).
  - intros Hk'. rewrite lookup_insert_ne; [done|]. congruence.
Qed.

Lemma insert_item_spec meta p :
  gdsf_wf p -> g_items p !! meta_Key meta = None ->
  let p' := insert_item meta p in
  gdsf_wf p' /\ blocks_of p' = <[meta_Key meta := block_of (fresh_item meta p)]> (blocks_of p)
  /\ (gdsf_ord p -> meta_ok meta -> gdsf_ord p').
Proof.
  intros Hp Hk. cbv zeta. rewrite insert_item_eq. cbv zeta.
  set (t := meta_TenantID meta). set (ts := tenant_or_new t p). set (q := g_next p).
  set (it := fresh_item meta p).
  pose proof (tenant_or_new_wf p t Hp) as Hts. fold ts in Hts. pose proof Hts as [Hwf Hit Hb Hq].
  assert (Hqh : q ∉ ts_h ts).
  { intros [i Hi]%list_elem_of_lookup_1. destruct (Hwf i q Hi) as (? & ? & _).
    by apply (live_not_next p q). }
  destruct (gdsf_Push_ok q it (g_mem p) (ts_h ts) Hwf Hqh) as (Hwf' & Hs & Hperm).
  set (s := gdsf_heap_Push q (<[q := it]> (g_mem p), ts_h ts)) in *.
  pose proof (pushed_others p t _ it ts s Hp Hts Hk Hs) as Hoth. fold q in Hoth.
  set (m1 := pushed q it (g_mem p) (ts_h ts)) in *.
  assert (Hold : forall q', q' <> q -> m1 !!! q' = g_mem p !!! q')
    by (intros; by apply lookup_total_insert_ne).
  assert (Hnew : m1 !!! q = with_index (Z.of_nat (length (ts_h ts))) it) by apply lookup_total_insert_eq.
  assert (Hlive : forall k' q', g_items p !! k' = Some q' -> q' <> q)
    by (intros k' q' Hk'; eapply live_not_next, wf_item_live; eauto).
  eassert (Hblocks : blocks_of (rewritten _ _ _ s (<[meta_Key meta := q]> (g_items p)) _ p)
                    = <[meta_Key meta := block_of it]> (blocks_of p)).
  { rewrite (blocks_rewritten _ _ _ _ _ _ _ _ _ Hs). apply blocks_update; [by rewrite Hnew|]. eauto. }
  split; [|split; [exact Hblocks|]].
  - eapply wf_rewritten_heap; try done.
    + intros q' [Hin|Heq%list_elem_of_singleton]%elem_of_app; [|subst q'; rewrite Hnew; split; [done|apply lookup_insert_eq]].
      destruct (Hit q' Hin) as [H1 H2]. rewrite (Hold q' (Hlive _ _ H2)). split; [done|].
      rewrite lookup_insert_ne; [done|congruence].
    + rewrite list_sum_app, list_sum_cons, Hnew, Hb.
      rewrite (list_sum_ext (fun q' => it_size (m1 !!! q')) (fun q' => it_size (g_mem p !!! q')) (ts_h ts)).
      * rewrite i64_add_l. f_equal. simpl. lia.
      * intros q' Hin. by rewrite (Hold q' ltac:(congruence)).
    + intros k' q' [[<- <-]|[Hne Hk']]%lookup_insert_Some; [left; simpl; rewrite Hnew; set_solver|].
      destruct (decide (it_tenant (g_mem p !!! q') = t)) as [Ht|Ht]; [left|by right].
      destruct (wf_items p Hp k' q' Hk') as (Hkey' & ts2 & Hts2 & Hin2).
      assert (ts2 = ts) as -> by (unfold ts, tenant_or_new; by rewrite <- Ht, Hts2).
      simpl. rewrite (Hold q' (Hlive _ _ Hk')). set_solver.
    + unfold m1, pushed. intros q' [it2 [[<- _]|[_ Hl]]%lookup_insert_Some]; [unfold q; lia|].
      pose proof (wf_fresh p Hp q' ltac:(by eexists)). lia.
  - intros Hord [Hc Hsz].
    assert (Hok : f64_nonneg (it_priority it) = true) by (apply priorityOf_nonneg; [apply Hord|by vm_compute|done..]).
    apply (ord_rewritten_insert _ _ _ _ _ _ _ (meta_Key meta) (block_of it));
      [done|done|done| |exact Hblocks|split; [done|split; [by vm_compute|done]]].
    eapply (gdsf_Push_ordered q it (g_mem p) (ts_h ts)); try done;
      [by apply tenant_or_new_ord|by apply f64_nonneg_not_nan].
Qed.

End preservation.
