(* ===== verification/GdsfRefine.v ===== *)
(** GDSF refines its reference: the victim loops of both fairness modes, every
    method of [src/internal/cache/gdsf.go], and runs of them ([gdsf_refines_reference]);
    instances of [PolicyLaws] and [QuotaLaws]. *)

From S2P Require Import Prelude Bytes Float64 Policy GoHeap Gdsf GdsfHeap GdsfInv.

(** ** The victim loops *)

Section loops.
Implicit Types (l : list (tenantState * gdsfItem)) (x : tenantState * gdsfItem).

Definition root_ok x : Prop := f64_is_nan (it_priority x.2) = false.

(** [static_round] finds a root of the class that must pay, whatever the floats. *)
Lemma static_loop_class l :
  let '(best, ov) := foldl static_round (None, false) l in
  ov = existsb (fun x => tenant_over x.1) l
  /\ match best with
     | None => l = []
     | Some b => exists ts, (ts, b) ∈ l /\ tenant_over ts = ov
     end.
Proof.
  induction l as [|[ts root] l IH] using rev_ind; [done|].
  rewrite foldl_app, existsb_app. simpl foldl.
  destruct (foldl static_round (None, false) l) as [best ov]. destruct IH as [Hov Hb].
  simpl. rewrite orb_false_r, <- Hov.
  destruct (tenant_over ts) eqn:Eo, ov, best as [b|]; simpl; (split; [done|]).
  - destruct Hb as (ts' & Hin & Ht). destruct (f64_ltb _ _); [exists ts|exists ts']; set_solver.
  - exists ts. set_solver.
  - exists ts. set_solver.
  - exists ts. set_solver.
  - destruct Hb as (ts' & Hin & Ht). exists ts'. set_solver.
  - by subst l.
  - destruct Hb as (ts' & Hin & Ht). destruct (f64_ltb _ _); [exists ts|exists ts']; set_solver.
  - exists ts. set_solver.
Qed.

(** Keeping the smaller of the best so far and a new candidate. *)
Lemma keep_smaller_least (P : gdsfItem -> Prop) b root :
  f64_is_nan (it_priority b) = false -> f64_is_nan (it_priority root) = false ->
  (forall r, P r -> f64_is_nan (it_priority r) = false /\ f64_ltb (it_priority r) (it_priority b) = false) ->
  let b' := if f64_ltb (it_priority root) (it_priority b) then root else b in
  f64_ltb (it_priority root) (it_priority b') = false
  /\ forall r, P r -> f64_ltb (it_priority r) (it_priority b') = false.
Proof.
  intros Hb Hr HP. destruct (f64_ltb (it_priority root) (it_priority b)) eqn:E; simpl.
  - split; [apply f64_ltb_irrefl|]. intros r HPr. destruct (HP r HPr) as [Hn Hle].
    eapply f64_nlt_trans; [..|exact Hle]; try done. by apply f64_ltb_asym.
  - split; [done|]. intros r HPr. by apply HP.
Qed.

(** On ordinary floats it is a least one of that class. *)
Lemma static_loop_least l b :
  Forall root_ok l -> (foldl static_round (None, false) l).1 = Some b ->
  forall ts r, (ts, r) ∈ l -> tenant_over ts = existsb (fun x => tenant_over x.1) l ->
  f64_ltb (it_priority r) (it_priority b) = false.
Proof.
  revert b. induction l as [|[ts root] l IH] using rev_ind; intros b Hok; [done|].
  apply Forall_app in Hok as [Hok Hroot]. rewrite Forall_singleton in Hroot. unfold root_ok in Hroot.
  specialize (fun b => IH b Hok). pose proof (static_loop_class l) as Hc.
  rewrite foldl_app, existsb_app. simpl foldl. rewrite Forall_forall in Hok.
  destruct (foldl static_round (None, false) l) as [best ov]. destruct Hc as [Hov Hc].
  simpl existsb. rewrite orb_false_r, <- Hov. rewrite <- Hov in IH. cbn [fst snd] in IH, Hroot.
  assert (Hsame : forall b', best = Some b' ->
    let b1 := if f64_ltb (it_priority root) (it_priority b') then root else b' in
    f64_ltb (it_priority root) (it_priority b1) = false
    /\ forall r, (exists ts', (ts', r) ∈ l /\ tenant_over ts' = ov) -> f64_ltb (it_priority r) (it_priority b1) = false).
  { intros b' ->. destruct Hc as (ts' & Hin & _).
    apply (keep_smaller_least (fun r => exists ts', (ts', r) ∈ l /\ tenant_over ts' = ov));
      [by apply (Hok _ Hin)|done|]. intros r (ts2 & Hin2 & Ho2).
    split; [by apply (Hok _ Hin2)|]. by apply (IH b' eq_refl ts2). }
  unfold static_round.
  intros Hbest ts' r' [Hin|Heq%list_elem_of_singleton]%elem_of_app Hcl; [|injection Heq as -> ->].
  - destruct (tenant_over ts) eqn:Eo, ov; simpl in Hbest, Hcl; [| | |];
      try (destruct best as [b'|]; [|subst l; by apply not_elem_of_nil in Hin]).
    + injection Hbest as <-. apply (Hsame b' eq_refl). eauto.
    + exfalso. symmetry in Hov. apply not_true_iff_false in Hov. apply Hov, existsb_exists.
      exists (ts', r'). by rewrite <- list_elem_of_In.
    + injection Hbest as <-. by apply (IH b' eq_refl ts').
    + injection Hbest as <-. apply (Hsame b' eq_refl). eauto.
  - destruct (tenant_over ts) eqn:Eo, ov; simpl in Hbest, Hcl; try done.
    + destruct best as [b'|]; injection Hbest as <-; [apply (proj1 (Hsame b' eq_refl))|apply f64_ltb_irrefl].
    + injection Hbest as <-. apply f64_ltb_irrefl.
    + destruct best as [b'|]; injection Hbest as <-; [apply (proj1 (Hsame b' eq_refl))|apply f64_ltb_irrefl].
Qed.

Lemma elastic_loop_spec w l :
  match foldl (elastic_round w) None l with
  | None => l = []
  | Some (b, sc) => exists ts, (ts, b) ∈ l /\ sc = score w (ts, b)
  end.
Proof.
  induction l as [|[ts root] l IH] using rev_ind; [done|]. rewrite foldl_app. simpl foldl.
  destruct (foldl (elastic_round w) None l) as [[b sc]|]; simpl; [|exists ts; set_solver].
  destruct IH as (ts' & Hin & ->). destruct (f64_ltb _ _); [exists ts|exists ts']; set_solver.
Qed.

Lemma elastic_loop_least w l b sc :
  Forall (fun x => f64_is_nan (score w x) = false) l ->
  foldl (elastic_round w) None l = Some (b, sc) ->
  forall x, x ∈ l -> f64_ltb (score w x) sc = false.
Proof.
  revert b sc. induction l as [|y l IH] using rev_ind; intros b sc Hok; [done|].
  apply Forall_app in Hok as [Hok Hy]. rewrite Forall_singleton in Hy.
  specialize (fun b sc => IH b sc Hok). rewrite Forall_forall in Hok.
  pose proof (elastic_loop_spec w l) as Hs. rewrite foldl_app. simpl foldl.
  destruct (foldl (elastic_round w) None l) as [[b' sc']|]; simpl.
  - destruct Hs as (ts' & Hin' & ->). intros Hbest x [Hin|Heq%list_elem_of_singleton]%elem_of_app; [|subst x].
    + destruct (f64_ltb (score w y) _) eqn:E; injection Hbest as <- <-; [|by eapply IH].
      eapply f64_nlt_trans; [..|by eapply IH]; auto. by apply f64_ltb_asym.
    + destruct (f64_ltb (score w y) _) eqn:E; injection Hbest as <- <-; [apply f64_ltb_irrefl|done].
  - subst l. intros [= <- <-] x [Hin|Heq%list_elem_of_singleton]%elem_of_app; [|subst x].
    + by apply not_elem_of_nil in Hin.
    + apply f64_ltb_irrefl.
Qed.

End loops.

(** ** Roots, accounting and the victim of a policy state *)

Section states.
Implicit Types (p : GDSFPolicy) (t : string) (o : MapOrder).

Lemma elem_of_roots o p ts r :
  (ts, r) ∈ roots o p <->
  exists t q, t ∈ o /\ g_tenants p !! t = Some ts /\ head (ts_h ts) = Some q /\ r = g_mem p !!! q.
Proof.
  unfold roots. rewrite list_elem_of_omap. split.
  - intros (t & Ht & Heq). destruct (g_tenants p !! t) as [ts'|] eqn:E; simpl in Heq; [|done].
    destruct (head (ts_h ts')) as [q|] eqn:Eq; simpl in Heq; [|done].
    injection Heq as <- <-. by exists t, q.
  - intros (t & q & Hto & Hts & Hq & ->). exists t. split; [done|]. rewrite Hts. simpl. by rewrite Hq.
Qed.

(** Every tracked block belongs to a tenant whose root is among the candidates. *)
Lemma tracked_root p o k q :
  gdsf_wf p -> range_order o p -> g_items p !! k = Some q ->
  exists ts q0, g_tenants p !! it_tenant (g_mem p !!! q) = Some ts /\ q ∈ ts_h ts
    /\ head (ts_h ts) = Some q0 /\ (ts, g_mem p !!! q0) ∈ roots o p.
Proof.
  intros Hp [_ Ho] Hk. destruct (wf_items p Hp k q Hk) as (_ & ts & Hts & Hin).
  destruct (head (ts_h ts)) as [q0|] eqn:Eh; [|by destruct (ts_h ts); [apply not_elem_of_nil in Hin|]].
  exists ts, q0. split_and!; try done. apply elem_of_roots.
  exists (it_tenant (g_mem p !!! q)), q0. split; [|done]. apply Ho. by eexists.
Qed.

(** A candidate is a tracked block of its tenant. *)
Lemma root_tracked p o ts r :
  gdsf_wf p -> (ts, r) ∈ roots o p ->
  exists q, g_items p !! it_key r = Some q /\ r = g_mem p !!! q
    /\ g_tenants p !! it_tenant r = Some ts /\ head (ts_h ts) = Some q.
Proof.
  intros Hp (t & q & _ & Hts & Hq & ->)%elem_of_roots.
  pose proof (head_elem_of _ _ Hq) as Hin.
  destruct (tw_items _ _ _ (wf_tenant p Hp t ts Hts) q Hin) as [Ht Hk].
  exists q. by rewrite Ht.
Qed.

(** The bytes a tenant's record carries are the sizes of its tracked blocks. *)
Lemma tenant_slice_perm p t ts :
  gdsf_wf p -> g_tenants p !! t = Some ts ->
  filter (fun q => it_tenant (g_mem p !!! q) = t) (snd <$> map_to_list (g_items p)) ≡ₚ ts_h ts.
Proof.
  intros Hp Ht. pose proof (wf_tenant p Hp t ts Ht) as [Hwf Hit _ _].
  apply NoDup_Permutation; [|by eapply heap_wf_NoDup|].
  - apply NoDup_filter, NoDup_fmap_2_strong; [|apply NoDup_map_to_list].
    intros [k q] [k' q'] H1 H2 Heq. simpl in Heq. subst q'.
    apply elem_of_map_to_list in H1, H2. f_equal. by eapply items_inj.
  - intros q. rewrite list_elem_of_filter, list_elem_of_fmap. split.
    + intros [Htq ([k q'] & -> & Hin%elem_of_map_to_list)]. simpl in *.
      destruct (wf_items p Hp k q' Hin) as (_ & ts' & Hts' & Hin'). rewrite Htq, Ht in Hts'.
      by injection Hts' as <-.
    + intros Hin. destruct (Hit q Hin) as [Htq Hk]. split; [done|].
      exists (it_key (g_mem p !!! q), q). by rewrite elem_of_map_to_list.
Qed.

Lemma tenant_bytes_ok p t ts :
  gdsf_wf p -> g_tenants p !! t = Some ts -> ts_bytes ts = GdsfSpec.tenant_bytes (gdsf_abs p) t.
Proof.
  intros Hp Ht. rewrite (tw_bytes _ _ _ (wf_tenant p Hp t ts Ht)). unfold GdsfSpec.tenant_bytes. f_equal.
  rewrite <- (list_sum_perm _ _ _ (tenant_slice_perm p t ts Hp Ht)).
  rewrite list_sum_filter, list_sum_fmap, map_sum_to_list. simpl. unfold blocks_of.
  rewrite map_to_list_fmap, list_sum_fmap. by apply list_sum_ext; intros [k q] _.
Qed.

Lemma tenant_over_ok p t ts :
  gdsf_wf p -> g_tenants p !! t = Some ts -> tenant_over ts = true <-> GdsfSpec.over (gdsf_abs p) t.
Proof.
  intros Hp Ht. unfold tenant_over, GdsfSpec.over. rewrite <- (tenant_bytes_ok p t ts) by done.
  unfold GdsfSpec.quota. simpl. rewrite <- (tw_quota _ _ _ (wf_tenant p Hp t ts Ht)).
  rewrite andb_true_iff, !Z.ltb_lt. done.
Qed.

Lemma blocks_lookup p k b :
  blocks_of p !! k = Some b <-> exists q, g_items p !! k = Some q /\ b = block_of (g_mem p !!! q).
Proof.
  unfold blocks_of. rewrite lookup_fmap_Some. split; intros (q & H1 & H2); exists q; by subst.
Qed.

Lemma blocks_empty p : blocks_of p = ∅ <-> g_items p = ∅.
Proof. unfold blocks_of. by rewrite fmap_empty_iff. Qed.

(** A tenant's root is lowest among the tenant's blocks. *)
Lemma root_lowest p o ts r :
  gdsf_wf p -> gdsf_ord p -> (ts, r) ∈ roots o p ->
  GdsfSpec.lowest_of_tenant (gdsf_abs p) (block_of r).
Proof.
  intros Hp Hord Hin. destruct (root_tracked p o ts r Hp Hin) as (q0 & _ & -> & Hts & Hh).
  intros k' b' (q & Hk & ->)%blocks_lookup Ht. simpl in *.
  destruct (wf_items p Hp k' q Hk) as (_ & ts' & Hts' & Hin'). rewrite Ht, Hts in Hts'.
  injection Hts' as <-. eapply tenant_root_least; [by eapply (ord_heap p Hord)|done..].
Qed.

Lemma roots_ok p o :
  gdsf_wf p -> gdsf_ord p -> Forall root_ok (roots o p).
Proof.
  intros Hp Hord. apply Forall_forall. intros [ts r] Hin.
  destruct (root_tracked p o ts r Hp Hin) as (q & Hk & -> & _).
  apply f64_nonneg_not_nan. apply (ord_blocks p Hord (it_key (g_mem p !!! q)) (block_of (g_mem p !!! q))).
  apply blocks_lookup. eauto.
Qed.

Lemma tenant_ranges p t ts :
  gdsf_wf p -> gdsf_ord p -> g_tenants p !! t = Some ts -> in_i64 (ts_bytes ts) /\ in_i64 (ts_quota ts).
Proof.
  intros Hp Hord Ht. destruct (wf_tenant p Hp t ts Ht) as [_ _ -> ->].
  split; [apply i64_range|apply (ord_quota p Hord)].
Qed.

Lemma score_eff p o ts r :
  gdsf_wf p -> (ts, r) ∈ roots o p ->
  score (g_weight p) (ts, r) = GdsfSpec.eff (gdsf_abs p) (block_of r).
Proof.
  intros Hp Hin. destruct (root_tracked p o ts r Hp Hin) as (q & _ & Hr & Hts & _).
  unfold score, GdsfSpec.eff. simpl. do 3 f_equal. unfold overage. simpl.
  rewrite <- (tenant_bytes_ok p _ ts) by done. unfold GdsfSpec.quota. simpl.
  by rewrite <- (tw_quota _ _ _ (wf_tenant p Hp _ ts Hts)).
Qed.

Lemma scores_ok p o :
  gdsf_wf p -> gdsf_ord p -> Forall (fun x => f64_is_nan (score (g_weight p) x) = false) (roots o p).
Proof.
  intros Hp Hord. apply Forall_forall. intros [ts r] Hin.
  destruct (root_tracked p o ts r Hp Hin) as (q & Hk & -> & Hts & _).
  destruct (tenant_ranges p _ ts Hp Hord Hts) as [Hb Hq].
  apply f64_nonneg_not_nan, f64_div_nonneg.
  - apply (ord_blocks p Hord (it_key (g_mem p !!! q)) (block_of (g_mem p !!! q))).
    apply blocks_lookup. eauto.
  - apply denominator_ok; [apply Hord|done..].
Qed.

Definition best_victim o p : option gdsfItem :=
  if g_elastic p then best_elastic o p else best_static o p.

Lemma gdsf_Victim_eq o p : gdsf_Victim o p = take_victim (best_victim o p) p.
Proof. unfold gdsf_Victim, best_victim, victimElastic, victimStatic. by destruct (g_elastic p). Qed.

(** With or without ordinary floats: a root, whenever a block is tracked. *)
Lemma best_victim_root o p :
  match best_victim o p with
  | Some b => exists ts, (ts, b) ∈ roots o p
  | None => roots o p = []
  end.
Proof.
  unfold best_victim, best_elastic, best_static. destruct (g_elastic p).
  - pose proof (elastic_loop_spec (g_weight p) (roots o p)) as H.
    destruct (foldl _ _ _) as [[b sc]|]; simpl; [|done]. destruct H as (ts & ? & _). by exists ts.
  - pose proof (static_loop_class (roots o p)) as H.
    destruct (foldl _ _ _) as [[b|] ov]; simpl; destruct H as [_ H]; [|done].
    destruct H as (ts & ? & _). by exists ts.
Qed.

Lemma best_victim_none o p :
  gdsf_wf p -> range_order o p -> best_victim o p = None <-> g_items p = ∅.
Proof.
  intros Hp Ho. pose proof (best_victim_root o p) as Hr. split.
  - intros E. rewrite E in Hr. apply map_empty. intros k.
    destruct (g_items p !! k) as [q|] eqn:Hk; [|done].
    destruct (tracked_root p o k q Hp Ho Hk) as (ts & q0 & _ & _ & _ & Hin).
    rewrite Hr in Hin. by apply not_elem_of_nil in Hin.
  - intros E. destruct (best_victim o p) as [b|]; [|done]. destruct Hr as (ts & Hin).
    destruct (root_tracked p o ts b Hp Hin) as (q & Hk & _). by rewrite E, lookup_empty in Hk.
Qed.

Lemma best_static_spec o p b :
  gdsf_wf p -> gdsf_ord p -> range_order o p -> best_static o p = Some b ->
  GdsfSpec.static_victim (gdsf_abs p) (block_of b).
Proof.
  intros Hp Hord Ho Hb. pose proof (static_loop_class (roots o p)) as Hc.
  pose proof (static_loop_least (roots o p) b (roots_ok p o Hp Hord) Hb) as Hl.
  unfold best_static in Hb. destruct (foldl _ _ _) as [best ov]. simpl in Hb. subst best.
  destruct Hc as [Hov (ts & Hin & Hcl)]. rewrite <- Hov in Hl.
  destruct (root_tracked p o ts b Hp Hin) as (q & Hk & Hbq & Hts & Hh).
  pose proof (tenant_over_ok p _ ts Hp Hts) as Hover.
  assert (Htr : forall k' b', blocks_of p !! k' = Some b' ->
    exists ts' r, (ts', r) ∈ roots o p /\ it_tenant r = GdsfSpec.b_tenant b'
      /\ (tenant_over ts' = true <-> GdsfSpec.over (gdsf_abs p) (GdsfSpec.b_tenant b'))
      /\ f64_ltb (GdsfSpec.b_prio b') (it_priority r) = false /\ f64_is_nan (GdsfSpec.b_prio b') = false).
  { intros k' b' Hb'. pose proof (ord_blocks p Hord k' b' Hb') as (_ & _ & _ & Hn).
    apply blocks_lookup in Hb' as (q' & Hk' & ->).
    destruct (tracked_root p o k' q' Hp Ho Hk') as (ts' & q0 & Hts' & Hin' & Hh' & Hr').
    exists ts', (g_mem p !!! q0). split; [done|].
    assert (it_tenant (g_mem p !!! q0) = it_tenant (g_mem p !!! q')) as Ht.
    { apply (tw_items _ _ _ (wf_tenant p Hp _ ts' Hts')). by apply head_elem_of. }
    split; [done|]. split; [by apply tenant_over_ok|]. split; [|by apply f64_nonneg_not_nan].
    eapply tenant_root_least; [by apply (ord_heap p Hord _ ts' Hts')|done..]. }
  split; simpl.
  - intros k' b' Hb' Hover'. destruct (Htr k' b' Hb') as (ts' & r & Hin' & _ & Hiff & _).
    apply Hover. rewrite Hcl, Hov. apply existsb_exists. exists (ts', r).
    rewrite <- list_elem_of_In. split; [done|]. by apply Hiff.
  - intros k' b' Hb' Himp. destruct (Htr k' b' Hb') as (ts' & r & Hin' & _ & Hiff & Hle & Hn).
    pose proof (roots_ok p o Hp Hord) as Hok. rewrite Forall_forall in Hok.
    apply (f64_nlt_trans _ (it_priority r)); [by apply (Hok _ Hin)|by apply (Hok _ Hin')|done| |done].
    apply (Hl ts'); [done|]. destruct (tenant_over ts') eqn:Eo, ov; try done.
    + symmetry in Hov. apply not_true_iff_false in Hov. destruct Hov. apply existsb_exists.
      exists (ts', r). by rewrite <- list_elem_of_In.
    + assert (GdsfSpec.over (gdsf_abs p) (it_tenant b)) as H1 by by apply Hover.
      apply Himp, Hiff in H1. congruence.
Qed.

Lemma best_elastic_spec o p b :
  gdsf_wf p -> gdsf_ord p -> range_order o p -> best_elastic o p = Some b ->
  GdsfSpec.elastic_victim (gdsf_abs p) (block_of b).
Proof.
  intros Hp Hord Ho Hb. pose proof (elastic_loop_spec (g_weight p) (roots o p)) as Hc.
  pose proof (elastic_loop_least (g_weight p) (roots o p)) as Hl.
  unfold best_elastic in Hb. destruct (foldl _ _ _) as [[b' sc]|]; [|done]. injection Hb as ->.
  destruct Hc as (ts & Hin & ->). specialize (Hl b _ (scores_ok p o Hp Hord) eq_refl).
  split; [by eapply root_lowest|]. simpl. intros k' b' Hb'.
  apply blocks_lookup in Hb' as (q' & Hk' & ->).
  destruct (tracked_root p o k' q' Hp Ho Hk') as (ts' & q0 & Hts' & Hin' & Hh' & Hr').
  destruct (root_tracked p o _ _ Hp Hr') as (q1 & Hk1 & Heq1 & Hts1 & _).
  exists (it_key (g_mem p !!! q0)), (block_of (g_mem p !!! q0)).
  split; [apply blocks_lookup; exists q1; by rewrite <- Heq1|]. split.
  - simpl. apply (tw_items _ _ _ (wf_tenant p Hp _ ts' Hts')). by apply head_elem_of.
  - split; [by eapply root_lowest|].
    rewrite <- !(score_eff p o _ _ Hp) by done. by apply Hl.
Qed.

End states.

(** ** Every method keeps the invariants and refines the reference *)

Section methods.
Implicit Types (p : GDSFPolicy) (m : WriteMeta) (k : BlockHash).

Lemma gdsf_write_spec m p :
  gdsf_wf p ->
  gdsf_wf (gdsf_RecordWrite m p)
  /\ gdsf_abs (gdsf_RecordWrite m p) = GdsfSpec.write m (gdsf_abs p)
  /\ (gdsf_ord p -> meta_ok m -> gdsf_ord (gdsf_RecordWrite m p)).
Proof.
  intros Hp. unfold gdsf_RecordWrite, GdsfSpec.write. simpl.
  destruct (g_items p !! meta_Key m) as [q|] eqn:Hk.
  - assert (Hb : blocks_of p !! meta_Key m = Some (block_of (g_mem p !!! q)))
      by (apply blocks_lookup; eauto).
    rewrite Hb. simpl. case_decide as Ht.
    + destruct (removeItem_spec p _ q Hp Hk) as (Hp1 & Hb1 & Ho1).
      destruct (removeItem_eq p _ q Hp Hk) as (ts & i & _ & _ & _ & Heq).
      destruct (insert_item_spec m (removeItem q p) Hp1) as (Hp2 & Hb2 & Ho2).
      { rewrite Heq. simpl. apply lookup_delete_eq. }
      split; [done|]. split; [|auto]. rewrite decide_False by done.
      unfold gdsf_abs. rewrite Hb2, Hb1, insert_delete_eq, insert_item_eq, Heq. done.
    + destruct (item_slot p _ q Hp Hk) as (ts & i & Hts & _). rewrite Hts, i64_add_r.
      rewrite decide_True by done.
      match goal with |- context [fix_item q ?it' ts _ p] =>
        destruct (fix_item_spec p (meta_Key m) q ts it' Hp Hk Hts eq_refl eq_refl eq_refl) as (Hp1 & Hb1 & Ho1)
      end.
      simpl in Hp1, Hb1, Ho1. split; [done|]. split.
      * unfold gdsf_abs. rewrite Hb1. unfold GdsfSpec.set_blocks, GdsfSpec.valued, block_of. simpl.
        by rewrite Ht.
      * intros Hord [Hc Hs]. apply Ho1; [done|].
        pose proof (ord_blocks p Hord _ _ Hb) as (_ & Hf & _). simpl in Hf. split_and!; try done.
        apply priorityOf_nonneg; [apply Hord|done..].
  - destruct (insert_item_spec m p Hp Hk) as (Hp1 & Hb1 & Ho1).
    split; [done|]. split; [|done]. unfold gdsf_abs. rewrite Hb1.
    assert (blocks_of p !! meta_Key m = None) as -> by (unfold blocks_of; by rewrite lookup_fmap, Hk).
    by rewrite insert_item_eq.
Qed.

Lemma gdsf_access_spec k p :
  gdsf_wf p ->
  gdsf_wf (gdsf_RecordAccess k p)
  /\ gdsf_abs (gdsf_RecordAccess k p) = GdsfSpec.access k (gdsf_abs p)
  /\ (gdsf_ord p -> gdsf_ord (gdsf_RecordAccess k p)).
Proof.
  intros Hp. unfold gdsf_RecordAccess, GdsfSpec.access. simpl.
  destruct (g_items p !! k) as [q|] eqn:Hk.
  - assert (Hb : blocks_of p !! k = Some (block_of (g_mem p !!! q)))
      by (apply blocks_lookup; eauto).
    rewrite Hb. destruct (item_slot p _ q Hp Hk) as (ts & i & Hts & _). rewrite Hts.
    assert (Hbytes : ts_bytes ts = i64 (ts_bytes ts + (it_size (g_mem p !!! q) - it_size (g_mem p !!! q)))).
    { rewrite Z.sub_diag, Z.add_0_r, (tw_bytes _ _ _ (wf_tenant p Hp _ ts Hts)). by rewrite i64_idem. }
    rewrite Hbytes.
    match goal with |- context [fix_item q ?it' ts _ p] =>
      destruct (fix_item_spec p k q ts it' Hp Hk Hts eq_refl eq_refl eq_refl) as (Hp1 & Hb1 & Ho1)
    end.
    simpl in Hp1, Hb1, Ho1. split; [done|]. split.
    + unfold gdsf_abs. by rewrite Hb1.
    + intros Hord. apply Ho1; [done|].
      pose proof (ord_blocks p Hord _ _ Hb) as (Hc & Hf & Hs & _). simpl in *.
      split_and!; try done; [apply u64_range|].
      apply priorityOf_nonneg; [apply Hord|apply u64_range|done..].
  - assert (blocks_of p !! k = None) as -> by (unfold blocks_of; by rewrite lookup_fmap, Hk). done.
Qed.

Lemma gdsf_evict_spec k p :
  gdsf_wf p ->
  gdsf_wf (gdsf_RecordEvict k p)
  /\ gdsf_abs (gdsf_RecordEvict k p) = GdsfSpec.evict k (gdsf_abs p)
  /\ (gdsf_ord p -> gdsf_ord (gdsf_RecordEvict k p)).
Proof.
  intros Hp. unfold gdsf_RecordEvict, GdsfSpec.evict.
  destruct (g_items p !! k) as [q|] eqn:Hk.
  - destruct (removeItem_spec p k q Hp Hk) as (Hp1 & Hb1 & Ho1). split; [done|]. split; [|done].
    destruct (removeItem_eq p k q Hp Hk) as (ts & i & _ & _ & _ & Heq).
    unfold gdsf_abs. rewrite Hb1, Heq. done.
  - split; [done|]. split; [|done]. unfold GdsfSpec.set_blocks, gdsf_abs. simpl.
    rewrite delete_id; [done|]. unfold blocks_of. by rewrite lookup_fmap, Hk.
Qed.

(** [Victim] only touches the floor. *)
Lemma take_victim_wf b p : gdsf_wf p -> gdsf_wf (take_victim b p).2.
Proof. intros [H1 H2 H3]. destruct b; [|done]. split; simpl; [done| |done]. intros t ts Ht. by destruct (H2 t ts Ht). Qed.

Lemma take_victim_ord b p :
  gdsf_ord p -> (forall r, b = Some r -> f64_nonneg (it_priority r) = true) -> gdsf_ord (take_victim b p).2.
Proof.
  intros [H1 H2 H3 H4 H5] Hb. destruct b as [r|]; [|done]. split; simpl; try done.
  case_match; [by apply Hb|done].
Qed.

Lemma best_victim_tracked o p b :
  gdsf_wf p -> best_victim o p = Some b -> blocks_of p !! it_key b = Some (block_of b).
Proof.
  intros Hp Hb. pose proof (best_victim_root o p) as Hr. rewrite Hb in Hr. destruct Hr as (ts & Hin).
  destruct (root_tracked p o ts b Hp Hin) as (q & Hk & Heq & _). apply blocks_lookup. exists q. by rewrite <- Heq.
Qed.

Lemma best_victim_spec o p b :
  gdsf_wf p -> gdsf_ord p -> range_order o p -> best_victim o p = Some b ->
  GdsfSpec.victim (gdsf_abs p) (block_of b).
Proof.
  intros Hp Hord Ho Hb. unfold GdsfSpec.victim, best_victim in *. simpl.
  destruct (g_elastic p); [by eapply best_elastic_spec|by eapply best_static_spec].
Qed.

Lemma take_victim_abs o p b :
  best_victim o p = Some b -> gdsf_abs (gdsf_Victim o p).2 = GdsfSpec.advance (block_of b) (gdsf_abs p).
Proof. intros Hb. rewrite gdsf_Victim_eq, Hb. done. Qed.

(** GDSF meets the contract of the eviction seam, for any costs. *)
#[export] Instance gdsf_laws : PolicyLaws GDSFPolicy.
Proof.
  refine {| pol_inv := gdsf_wf; tracked p := dom (blocks_of p); order_ok := range_order |}.
  - intros k p Hp. destruct (gdsf_access_spec k p Hp) as (? & Ha & _). split; [done|].
    change (dom (GdsfSpec.blocks (gdsf_abs (gdsf_RecordAccess k p))) = dom (blocks_of p)).
    rewrite Ha. unfold GdsfSpec.access. simpl. destruct (blocks_of p !! k) eqn:E; [|done]. simpl.
    rewrite dom_insert_L. apply elem_of_dom_2 in E. set_solver.
  - intros m p Hp. destruct (gdsf_write_spec m p Hp) as (? & Ha & _). split; [done|].
    change (dom (GdsfSpec.blocks (gdsf_abs (gdsf_RecordWrite m p))) = {[meta_Key m]} ∪ dom (blocks_of p)).
    rewrite Ha. unfold GdsfSpec.write. simpl. by rewrite dom_insert_L.
  - intros k p Hp. destruct (gdsf_evict_spec k p Hp) as (? & Ha & _). split; [done|].
    change (dom (GdsfSpec.blocks (gdsf_abs (gdsf_RecordEvict k p))) = dom (blocks_of p) ∖ {[k]}).
    rewrite Ha. simpl. by rewrite dom_delete_L.
  - intros o p Hp. simpl. rewrite gdsf_Victim_eq. split; [by apply take_victim_wf|].
    by destruct (best_victim o p).
  - intros o p Hp Ho. simpl. rewrite gdsf_Victim_eq.
    pose proof (best_victim_none o p Hp Ho) as Hn.
    destruct (best_victim o p) as [b|] eqn:Hb; simpl.
    + eapply elem_of_dom_2. by eapply best_victim_tracked.
    + rewrite dom_empty_iff_L, blocks_empty. by apply Hn.
  - intros p Hp Ht. apply dom_empty_iff_L, blocks_empty in Ht. unfold over_quota. simpl.
    unfold gdsf_OverQuota. destruct (g_elastic p); [done|]. apply not_true_iff_false.
    rewrite existsb_exists. intros ([t ts] & Hin & Hov).
    apply list_elem_of_In, elem_of_map_to_list in Hin. simpl in Hov.
    apply (tenant_over_ok p t ts Hp Hin) in Hov. unfold GdsfSpec.over, GdsfSpec.tenant_bytes in Hov.
    simpl in Hov. unfold blocks_of in Hov. rewrite Ht, fmap_empty, map_sum_empty in Hov.
    change (i64 0) with 0%Z in Hov. lia.
Defined.

Lemma gdsf_init_wf quotas e w : gdsf_wf (newGDSF quotas e w).
Proof. split; simpl; [by intros k q|by intros t ts|by intros q [??]]. Qed.

Lemma gdsf_init_ord quotas e w :
  weight_ok w -> (forall t, in_i64 (default 0%Z (quotas !! t))) -> gdsf_ord (newGDSF quotas e w).
Proof. intros Hw Hq. split; simpl; try done. Qed.

End methods.

(** ** Runs *)

(** Any sequence of calls keeps the structure. *)
Lemma gdsf_run_wf p ops : gdsf_wf p -> gdsf_wf (policy_run p ops).
Proof.
  revert p. induction ops as [|op ops IH]; intros p Hp; [done|]. apply IH.
  destruct op as [k|m|k|o]; simpl.
  - by apply gdsf_access_spec.
  - by apply gdsf_write_spec.
  - by apply gdsf_evict_spec.
  - rewrite gdsf_Victim_eq. by apply take_victim_wf.
Qed.

(** A call a well-behaved caller makes in state [p]. *)
Definition op_ok (p : GDSFPolicy) (op : policy_op) : Prop :=
  match op with
  | OpWrite m => meta_ok m
  | OpVictim o => range_order o p
  | _ => True
  end.

(** The states well-behaved callers reach from [p0]. *)
Inductive gdsf_reach (p0 : GDSFPolicy) : GDSFPolicy -> Prop :=
  | reach_start : gdsf_reach p0 p0
  | reach_call p op : gdsf_reach p0 p -> op_ok p op -> gdsf_reach p0 (policy_step p op).

(** A configuration: a weight that is a float in [0, 1], quotas that are [int64]. *)
Definition config_ok (quotas : gmap string Z) (w : float64) : Prop :=
  weight_ok w /\ forall t, in_i64 (default 0%Z (quotas !! t)).

Section runs.
Implicit Types (p : GDSFPolicy) (op : policy_op).

Lemma best_victim_nonneg o p b :
  gdsf_wf p -> gdsf_ord p -> best_victim o p = Some b -> f64_nonneg (it_priority b) = true.
Proof. intros Hp Hord Hb. by apply (ord_blocks p Hord _ _ (best_victim_tracked o p b Hp Hb)). Qed.

Lemma gdsf_step_ord p op : gdsf_wf p -> gdsf_ord p -> op_ok p op -> gdsf_ord (policy_step p op).
Proof.
  intros Hp Hord Hok. destruct op as [k|m|k|o]; simpl.
  - by apply gdsf_access_spec.
  - by apply gdsf_write_spec.
  - by apply gdsf_evict_spec.
  - rewrite gdsf_Victim_eq. apply take_victim_ord; [done|]. intros r Hr. by eapply best_victim_nonneg.
Qed.

Lemma gdsf_reach_inv p0 p : gdsf_wf p0 -> gdsf_ord p0 -> gdsf_reach p0 p -> gdsf_wf p /\ gdsf_ord p.
Proof.
  intros H0 H0'. induction 1 as [|p op Hr [Hp Hord] Hok]; [done|].
  split; [by apply (gdsf_run_wf p [op])|by apply gdsf_step_ord].
Qed.

Lemma config_reach quotas e w p :
  config_ok quotas w -> gdsf_reach (newGDSF quotas e w) p -> gdsf_wf p /\ gdsf_ord p.
Proof. intros [Hw Hq]. apply gdsf_reach_inv; [apply gdsf_init_wf|by apply gdsf_init_ord]. Qed.

Lemma gdsf_step_refines p op :
  gdsf_wf p -> gdsf_ord p -> op_ok p op ->
  GdsfSpec.step (gdsf_abs p) op (gdsf_abs (policy_step p op)).
Proof.
  intros Hp Hord Hok. destruct op as [k|m|k|o]; simpl.
  - destruct (gdsf_access_spec k p Hp) as (_ & -> & _). constructor.
  - destruct (gdsf_write_spec m p Hp) as (_ & -> & _). constructor.
  - destruct (gdsf_evict_spec k p Hp) as (_ & -> & _). constructor.
  - destruct (best_victim o p) as [b|] eqn:Hb.
    + rewrite (take_victim_abs o p b Hb). econstructor; [by apply best_victim_tracked in Hb|].
      by eapply best_victim_spec.
    + assert (g_items p = ∅) as He by (by apply (best_victim_none o p)).
      rewrite gdsf_Victim_eq, Hb. constructor. by apply blocks_empty.
Qed.

(** What [Victim] answers. *)
Lemma gdsf_victim_answer p o :
  gdsf_wf p -> gdsf_ord p -> range_order o p ->
  match (Victim o p).1 with
  | Some k => exists b, blocks_of p !! k = Some b /\ GdsfSpec.victim (gdsf_abs p) b
  | None => blocks_of p = ∅
  end.
Proof.
  intros Hp Hord Ho. simpl. rewrite gdsf_Victim_eq.
  destruct (best_victim o p) as [b|] eqn:Hb; simpl.
  - exists (block_of b). split; [by apply best_victim_tracked in Hb|by eapply best_victim_spec].
  - apply blocks_empty. by apply (best_victim_none o p).
Qed.

(** C7. GDSF refines its reference: under calls with ordinary costs, every
    method changes the map of blocks as the reference does (writes keep the
    frequency of an overwritten block, accesses count, both revalue against the
    aging floor), and [Victim] answers a block the reference may pick: in static
    mode the lowest priority among the over-quota tenants if there is one and
    among all blocks otherwise, in elastic mode a lowest fairness-adjusted
    priority; it answers none only when no block is tracked. *)
Theorem gdsf_refines_reference quotas e w p op :
  config_ok quotas w -> gdsf_reach (newGDSF quotas e w) p -> op_ok p op ->
  GdsfSpec.step (gdsf_abs p) op (gdsf_abs (policy_step p op))
  /\ match op with
     | OpVictim o =>
         match (Victim o p).1 with
         | Some k => exists b, blocks_of p !! k = Some b /\ GdsfSpec.victim (gdsf_abs p) b
         | None => blocks_of p = ∅
         end
     | _ => True
     end.
Proof.
  intros Hc Hr Hok. destruct (config_reach _ _ _ _ Hc Hr) as [Hp Hord].
  split; [by apply gdsf_step_refines|]. destruct op; try done. by apply gdsf_victim_answer.
Qed.

(** The aging floor never falls over a run. *)
Theorem gdsf_floor_monotone quotas e w p p' :
  config_ok quotas w -> gdsf_reach (newGDSF quotas e w) p -> gdsf_reach p p' ->
  f64_ltb (g_inflation p') (g_inflation p) = false.
Proof.
  intros Hc Hr. destruct (config_reach _ _ _ _ Hc Hr) as [Hp Hord].
  induction 1 as [|p' op Hr' IH Hok]; [apply f64_ltb_irrefl|].
  destruct (gdsf_reach_inv p p' Hp Hord Hr') as [Hp' Hord'].
  pose proof (gdsf_step_ord p' op Hp' Hord' Hok) as Hord2.
  apply (f64_nlt_trans _ (g_inflation p')); try (apply f64_nonneg_not_nan; by apply ord_floor); [done|].
  change (f64_ltb (GdsfSpec.floor (gdsf_abs (policy_step p' op))) (GdsfSpec.floor (gdsf_abs p')) = false).
  destruct (gdsf_step_refines p' op Hp' Hord' Hok) as [s k|s m|s k|s o k b Hb Hv|s o Hb];
    simpl; try apply f64_ltb_irrefl.
  - unfold GdsfSpec.access. case_match; apply f64_ltb_irrefl.
  - unfold f64_gtb. destruct (SFltb _ _) eqn:E; [by apply f64_ltb_asym|apply f64_ltb_irrefl].
Qed.

Lemma map_sum_zero `{Countable K} {V} (f : V -> Z) (m : gmap K V) :
  (forall k v, m !! k = Some v -> f v = 0%Z) -> map_sum f m = 0%Z.
Proof.
  induction m as [|k v m Hk IH] using map_ind; intros Hz; [apply map_sum_empty|].
  rewrite map_sum_insert_None, (Hz k v), IH; [done| |by apply lookup_insert_eq|done].
  intros k' v' Hk'. apply (Hz k'). rewrite lookup_insert_ne; congruence.
Qed.

Lemma over_registered p t :
  gdsf_wf p -> GdsfSpec.over (gdsf_abs p) t -> exists ts, g_tenants p !! t = Some ts /\ tenant_over ts = true.
Proof.
  intros Hp Hov. destruct (g_tenants p !! t) as [ts|] eqn:Ht.
  { exists ts. split; [done|]. by apply (tenant_over_ok p t). }
  exfalso. unfold GdsfSpec.over, GdsfSpec.tenant_bytes in Hov. rewrite map_sum_zero in Hov.
  { change (i64 0) with 0%Z in Hov. lia. }
  intros k b (q & Hk & ->)%blocks_lookup. unfold GdsfSpec.tenant_size. simpl.
  case_decide as Heq; [|done]. destruct (wf_items p Hp k q Hk) as (_ & ts & Hts & _). congruence.
Qed.

Lemma OverQuota_over p :
  gdsf_wf p -> gdsf_OverQuota p = true <-> g_elastic p = false /\ exists t, GdsfSpec.over (gdsf_abs p) t.
Proof.
  intros Hp. unfold gdsf_OverQuota. destruct (g_elastic p); [split; [done|by intros []]|].
  rewrite existsb_exists. split.
  - intros ([t ts] & Hin & Hov). split; [done|]. exists t.
    apply list_elem_of_In, elem_of_map_to_list in Hin. by apply (tenant_over_ok p t ts).
  - intros [_ [t Hov]]. destruct (over_registered p t Hp Hov) as (ts & Ht & Hts).
    exists (t, ts). split; [|done]. by apply list_elem_of_In, elem_of_map_to_list.
Qed.

(** [OverQuota] after any calls: never in elastic mode; in static mode
    exactly when the tracked blocks of some tenant with a positive quota add up,
    in [int64], to more than that quota. *)
Theorem gdsf_over_quota_exact quotas e w ops :
  let p := policy_run (newGDSF quotas e w) ops in
  gdsf_OverQuota p = true <-> g_elastic p = false /\ exists t, GdsfSpec.over (gdsf_abs p) t.
Proof. intros p. by apply OverQuota_over, gdsf_run_wf, gdsf_init_wf. Qed.

(** The tracked sizes are byte counts whose sum is one too. *)
Definition gdsf_fits (p : GDSFPolicy) : Prop :=
  (forall k b, blocks_of p !! k = Some b -> 0 <= GdsfSpec.b_size b)%Z
  /\ (map_sum GdsfSpec.b_size (blocks_of p) < 2 ^ 63)%Z.

(** Within [int64] a tenant's bytes only fall when a block leaves. *)
Lemma over_evict k t p :
  gdsf_fits p -> GdsfSpec.over (GdsfSpec.evict k (gdsf_abs p)) t -> GdsfSpec.over (gdsf_abs p) t.
Proof.
  intros [Hnn Hsum]. unfold GdsfSpec.over, GdsfSpec.tenant_bytes, GdsfSpec.evict. simpl.
  change (GdsfSpec.quota _ t) with (GdsfSpec.quota (gdsf_abs p) t). set (m := blocks_of p) in *.
  assert (Hts : forall b, (0 <= GdsfSpec.b_size b)%Z ->
    (0 <= GdsfSpec.tenant_size t b <= GdsfSpec.b_size b)%Z).
  { intros b Hb. unfold GdsfSpec.tenant_size. case_decide; lia. }
  assert (Hle : (0 <= map_sum (GdsfSpec.tenant_size t) m <= map_sum GdsfSpec.b_size m)%Z).
  { split; [apply map_sum_nonneg|apply map_sum_le]; intros k' b Hk'; by apply Hts, (Hnn k'). }
  destruct (m !! k) as [b|] eqn:Hk; [|by rewrite delete_id].
  pose proof (Hts b (Hnn k b Hk)). rewrite (map_sum_delete _ _ _ _ Hk).
  assert (GdsfSpec.tenant_size t b <= map_sum (GdsfSpec.tenant_size t) m)%Z.
  { apply (map_sum_lookup_le _ _ k); [|done]. intros k' b' Hk'. by apply Hts, (Hnn k'). }
  rewrite !i64_small by (unfold in_i64; lia). lia.
Qed.

#[export] Instance gdsf_quota : QuotaLaws GDSFPolicy.
Proof.
  assert (Hmono : forall p p', gdsf_wf p -> gdsf_wf p' -> g_elastic p' = g_elastic p ->
    (forall t, GdsfSpec.over (gdsf_abs p') t -> GdsfSpec.over (gdsf_abs p) t) ->
    gdsf_OverQuota p' = true -> gdsf_OverQuota p = true).
  { intros p p' Hp Hp' He Hov. rewrite !OverQuota_over by done. rewrite He. naive_solver. }
  refine {| pol_fits := gdsf_fits |}.
  - intros k p Hp. destruct (gdsf_access_spec k p Hp) as (Hp' & Ha & _). apply Hmono; try done.
    + change (GdsfSpec.elastic (gdsf_abs (gdsf_RecordAccess k p)) = GdsfSpec.elastic (gdsf_abs p)).
      rewrite Ha. unfold GdsfSpec.access. by case_match.
    + intros t. change (RecordAccess k p) with (gdsf_RecordAccess k p). rewrite Ha.
      unfold GdsfSpec.access. simpl. destruct (blocks_of p !! k) as [b|] eqn:Hk; [|done].
      unfold GdsfSpec.over, GdsfSpec.tenant_bytes. simpl.
      rewrite (map_sum_insert_Some _ _ _ _ _ Hk). unfold GdsfSpec.tenant_size at 2 3. simpl.
      by rewrite Z.add_simpl_r.
  - intros k p Hp Hfits. destruct (gdsf_evict_spec k p Hp) as (Hp' & Ha & _). apply Hmono; try done.
    + change (GdsfSpec.elastic (gdsf_abs (gdsf_RecordEvict k p)) = GdsfSpec.elastic (gdsf_abs p)). by rewrite Ha.
    + intros t. change (RecordEvict k p) with (gdsf_RecordEvict k p). rewrite Ha. by apply over_evict.
  - intros o p Hp. simpl. rewrite gdsf_Victim_eq.
    pose proof (take_victim_wf (best_victim o p) p Hp). apply Hmono; try done; by destruct (best_victim o p).
Defined.

(** The policy tracks exactly the keys written and not evicted since, every
    one in the slice of its tenant at the position the item records, and every
    tenant's byte total is the [int64] sum of the sizes of its tracked blocks,
    after any calls with any costs. *)
Theorem gdsf_structure quotas e w ops t ts :
  let p := policy_run (newGDSF quotas e w) ops in
  g_tenants p !! t = Some ts ->
  heap_wf (g_mem p) (ts_h ts)
  /\ ts_bytes ts = GdsfSpec.tenant_bytes (gdsf_abs p) t
  /\ (forall q, q ∈ ts_h ts <-> exists k, g_items p !! k = Some q /\ it_tenant (g_mem p !!! q) = t).
Proof.
  intros p Ht. pose proof (gdsf_run_wf _ ops (gdsf_init_wf quotas e w)) as Hp. fold p in Hp.
  split; [by apply (wf_tenant p Hp t)|]. split; [by apply tenant_bytes_ok|].
  intros q. split.
  - intros Hin. destruct (tw_items _ _ _ (wf_tenant p Hp t ts Ht) q Hin). eauto.
  - intros (k & Hk & Htq). destruct (wf_items p Hp k q Hk) as (_ & ts' & Hts' & Hin).
    rewrite Htq, Ht in Hts'. by injection Hts' as <-.
Qed.

End runs.

(** *** Witnesses *)

Section witnesses.
Definition w_meta (b : byte) (cost size : Z) : WriteMeta :=
  mk_meta (default hash32_zero (hash32_of (replicate 32 b))) "t" size (f64_of_Z cost).
Definition w_policy : GDSFPolicy :=
  policy_run (newGDSF {["t" := 10%Z]} false f64_0)
    [OpWrite (w_meta x01 5 8); OpWrite (w_meta x02 2 8)].

Lemma w_config : config_ok {["t" := 10%Z]} f64_0.
Proof.
  split; [done|]. intros t. destruct (decide (t = "t")) as [->|Hne].
  - by rewrite lookup_singleton_eq.
  - by rewrite lookup_singleton_ne.
Qed.

Lemma w_reach : gdsf_reach (newGDSF {["t" := 10%Z]} false f64_0) w_policy.
Proof. do 2 (apply reach_call; [|by vm_compute]). apply reach_start. Qed.

Lemma w_order : range_order ["t"] w_policy.
Proof.
  split; [repeat constructor; by intros ?%not_elem_of_nil|]. intros t.
  rewrite list_elem_of_singleton.
  assert (exists ts, g_tenants w_policy = {["t" := ts]}) as [ts ->] by (eexists; vm_compute; reflexivity).
  rewrite lookup_singleton_is_Some. naive_solver.
Qed.
End witnesses.

Lemma gdsf_refines_reference_witness :
  exists b, blocks_of w_policy !! meta_Key (w_meta x02 2 8) = Some b
            /\ GdsfSpec.victim (gdsf_abs w_policy) b.
Proof.
  exact (proj2 (gdsf_refines_reference {["t" := 10%Z]} false f64_0 w_policy (OpVictim ["t"])
                  w_config w_reach w_order)).
Defined.

Lemma gdsf_floor_monotone_witness :
  f64_ltb (g_inflation (policy_step w_policy (OpVictim ["t"]))) (g_inflation w_policy) = false.
Proof.
  apply (gdsf_floor_monotone {["t" := 10%Z]} false f64_0 w_policy _ w_config w_reach).
  apply reach_call; [apply reach_start|exact w_order].
Defined.

Lemma gdsf_structure_witness :
  exists ts, g_tenants w_policy !! "t" = Some ts
  /\ ts_bytes ts = GdsfSpec.tenant_bytes (gdsf_abs w_policy) "t".
Proof.
  eexists. split; [vm_compute; reflexivity|].
  apply (gdsf_structure {["t" := 10%Z]} false f64_0
           [OpWrite (w_meta x01 5 8); OpWrite (w_meta x02 2 8)] "t").
  vm_compute. reflexivity.
Defined.
