(* ===== verification/Store.v ===== *)
(** The in-memory shard: [src/internal/cache/store.go].

    The store is sixteen stripes, each a map from store keys to entries, plus the
    policy, the byte accounting, the eviction signal and the optional spiller.
    Every operation is a function on the whole state, as the code runs it under
    the stripe's lock; the clock is an argument.  [FlatStore] is the reference: one
    map, no stripes, no signal. *)

From S2P Require Import Prelude Bytes Sha256 Float64 Policy Lru.

(** ** Data *)

(** [storeKey]: SHA-256 of the model followed by the wire hash. *)
Definition key_message (model : string) (h : BlockHash) : list byte :=
  bytes_of_string model ++ hash_bytes h.
Definition storeKey (model : string) (h : BlockHash) : BlockHash := sha256 (key_message model h).

(** One call of the [SpillFunc]. *)
Record SpillCall := mk_spill {
  sp_model : string;
  sp_hash : BlockHash;
  sp_version : Z;
  sp_tokens : list Z;
  sp_kv : list byte;
}.

Abbreviation stripe := (gmap BlockHash Entry).

(** [Store].  [evictSig] says whether the one-slot channel holds a nudge; [spill]
    is [None] without a spiller and otherwise the calls made to it, oldest
    first. *)
Record Store (P : Type) := mk_store {
  stripes : list stripe;
  policy : P;
  totalBytes : Z;
  maxBytes : Z;
  hiWater : Z;
  loWater : Z;
  evictSig : bool;
  spill : option (list SpillCall);
}.
#[global] Arguments mk_store {P}.
#[global] Arguments stripes {P}.
#[global] Arguments policy {P}.
#[global] Arguments totalBytes {P}.
#[global] Arguments maxBytes {P}.
#[global] Arguments hiWater {P}.
#[global] Arguments loWater {P}.
#[global] Arguments evictSig {P}.
#[global] Arguments spill {P}.

Definition numStripes : nat := 16.

Definition defaultHiFrac : float64 := f64_div (f64_of_Z 9) (f64_of_Z 10).
Definition defaultLoFrac : float64 := f64_div (f64_of_Z 3) (f64_of_Z 4).

(** The fields the options set. *)
Record StoreOptions := mk_options {
  opt_maxBytes : Z;
  opt_hiFrac : float64;
  opt_loFrac : float64;
  opt_spill : bool;
}.
Definition StoreOption : Type := StoreOptions -> StoreOptions.
Definition WithMaxBytes (n : Z) : StoreOption :=
  fun s => mk_options n (opt_hiFrac s) (opt_loFrac s) (opt_spill s).
Definition WithWatermarks (hi lo : float64) : StoreOption :=
  fun s => mk_options (opt_maxBytes s) hi lo (opt_spill s).
Definition WithSpiller : StoreOption :=
  fun s => mk_options (opt_maxBytes s) (opt_hiFrac s) (opt_loFrac s) true.

(** The fallback of [NewStore] for a pair that is not [0 < lo < hi <= 1]. *)
Definition checked_fracs (hi lo : float64) : float64 * float64 :=
  if f64_gtb hi f64_0 && f64_leb hi f64_1 && f64_gtb lo f64_0 && f64_ltb lo hi
  then (hi, lo) else (defaultHiFrac, defaultLoFrac).

(** [int64(float64(s.maxBytes) * frac)] *)
Definition water (maxBytes : Z) (frac : float64) : Z := f64_to_i64 (f64_mul (f64_of_Z maxBytes) frac).

Definition NewStore {P} (p : P) (opts : list StoreOption) : Store P :=
  let s := fold_left (fun s opt => opt s) opts (mk_options 0 defaultHiFrac defaultLoFrac false) in
  let '(hi, lo) := checked_fracs (opt_hiFrac s) (opt_loFrac s) in
  let n := opt_maxBytes s in
  mk_store (replicate numStripes ∅) p 0 n
    (if (0 <? n)%Z then water n hi else 0) (if (0 <? n)%Z then water n lo else 0)
    false (if opt_spill s then Some [] else None).

(** The index of [stripeFor]: the low 8 bytes, little-endian, masked. *)
Definition stripe_index (h : BlockHash) : nat :=
  Z.to_nat (Z.land (le_Z (take 8 (hash_bytes h))) (Z.of_nat numStripes - 1)).

Definition stripeFor {P} (h : BlockHash) (s : Store P) : stripe := stripes s !!! stripe_index h.

Section operations.
Context {P : Type} `{EvictionPolicy P}.
Implicit Types (s : Store P).

(** Writing a stripe back, with the policy and the byte total. *)
Definition update (h : BlockHash) (st : stripe) (p : P) (total : Z) (s : Store P) : Store P :=
  mk_store (<[stripe_index h := st]> (stripes s)) p total (maxBytes s) (hiWater s) (loWater s)
    (evictSig s) (spill s).

Definition Bytes (s : Store P) : Z := totalBytes s.

Definition Len (s : Store P) : Z := list_sum_Z (fun st => Z.of_nat (size st)) (stripes s).

Definition LowWater (s : Store P) : Z := loWater s.

(** [signalEvict] *)
Definition pressured (s : Store P) : bool := ((0 <? maxBytes s) && (hiWater s <=? totalBytes s))%Z.
Definition signalEvict (s : Store P) : Store P :=
  if pressured s || over_quota (policy s)
  then mk_store (stripes s) (policy s) (totalBytes s) (maxBytes s) (hiWater s) (loWater s) true (spill s)
  else s.

(** [needsEviction] *)
Definition needsEviction (s : Store P) : bool :=
  if ((0 <? maxBytes s) && (loWater s <? totalBytes s))%Z then true else over_quota (policy s).

(** [OverHardLimit] *)
Definition OverHardLimit (addBytes : Z) (s : Store P) : bool :=
  ((0 <? maxBytes s) && (maxBytes s <? i64 (totalBytes s + addBytes)))%Z.

(** [Get] *)
Definition Get (now : Z) (model : string) (h : BlockHash) (s : Store P) : option Entry * Store P :=
  let k := storeKey model h in
  match stripeFor k s !! k with
  | Some e =>
      if decide (ModelID e <> model) then (None, s)
      else
        let e' := recordAccess now e in
        (Some e', update k (<[k := e']> (stripeFor k s)) (RecordAccess k (policy s)) (totalBytes s) s)
  | None => (None, s)
  end.

(** [Peek] *)
Definition Peek (model : string) (h : BlockHash) (s : Store P) : option Entry :=
  let k := storeKey model h in
  match stripeFor k s !! k with
  | Some e => if decide (ModelID e <> model) then None else Some e
  | None => None
  end.

(** The fresh entry [Put] and [PutWithVersion] publish. *)
Definition stored_entry (h : BlockHash) (e : Entry) (version created : Z) : Entry :=
  mk_entry (TokenIDs e) (KV e) (ModelID e) h version (Z.of_nat (length (KV e))) (TenantID e)
    (RecomputeCost e) created 0 0.

(** Their common tail: publish, tell the policy, account, signal. *)
Definition publish (k : BlockHash) (stored : Entry) (prevSize : Z) (s : Store P) : Store P :=
  signalEvict
    (update k (<[k := stored]> (stripeFor k s))
       (RecordWrite (mk_meta k (TenantID stored) (SizeBytes stored) (RecomputeCost stored)) (policy s))
       (i64 (totalBytes s + i64 (SizeBytes stored - prevSize))) s).

(** [Put]; [None] is a nil entry. *)
Definition Put (now : Z) (h : BlockHash) (e : option Entry) (s : Store P) : Z * Store P :=
  match e with
  | None => (0%Z, s)
  | Some e =>
      let k := storeKey (ModelID e) h in
      let '(version, created, prevSize) :=
        match stripeFor k s !! k with
        | Some prev => (u64 (Version prev + 1), CreatedAt prev, SizeBytes prev)
        | None => (1%Z, now, 0%Z)
        end in
      (version, publish k (stored_entry h e version created) prevSize s)
  end.

(** [PutWithVersion] *)
Definition PutWithVersion (now : Z) (h : BlockHash) (e : option Entry) (version : Z) (s : Store P) : Z * Store P :=
  match e with
  | None => (0%Z, s)
  | Some e =>
      if (version =? 0)%Z then (0%Z, s)
      else
        let k := storeKey (ModelID e) h in
        match stripeFor k s !! k with
        | Some prev =>
            if (version <=? Version prev)%Z then (Version prev, s)
            else (version, publish k (stored_entry h e version (CreatedAt prev)) (SizeBytes prev) s)
        | None => (version, publish k (stored_entry h e version now) 0 s)
        end
  end.

(** [Delete] *)
Definition Delete (model : string) (h : BlockHash) (s : Store P) : bool * Store P :=
  let k := storeKey model h in
  match stripeFor k s !! k with
  | Some e =>
      if decide (ModelID e <> model) then (false, s)
      else (true, update k (delete k (stripeFor k s)) (RecordEvict k (policy s))
                    (i64 (totalBytes s - SizeBytes e)) s)
  | None => (false, s)
  end.

(** [s.spill(...)] when a spiller is installed. *)
Definition demote (e : Entry) (s : Store P) : Store P :=
  mk_store (stripes s) (policy s) (totalBytes s) (maxBytes s) (hiWater s) (loWater s) (evictSig s)
    ((fun log => log ++ [mk_spill (ModelID e) (WireHash e) (Version e) (TokenIDs e) (KV e)]) <$> spill s).

(** [evict], by store key *)
Definition evict (k : BlockHash) (s : Store P) : Z * Store P :=
  match stripeFor k s !! k with
  | None => (0%Z, s)
  | Some e =>
      (SizeBytes e,
       update k (delete k (stripeFor k s)) (RecordEvict k (policy s))
         (i64 (totalBytes s - SizeBytes e)) (demote e s))
  end.

(** The first half of [evictOne]: ask the policy. *)
Definition ask_victim (o : MapOrder) (s : Store P) : option BlockHash * Store P :=
  let '(v, p) := Victim o (policy s) in
  (v, mk_store (stripes s) p (totalBytes s) (maxBytes s) (hiWater s) (loWater s) (evictSig s) (spill s)).

(** [evictOne]: bytes freed and whether the policy named a victim *)
Definition evictOne (o : MapOrder) (s : Store P) : Z * bool * Store P :=
  let '(v, s) := ask_victim o s in
  match v with
  | None => (0%Z, false, s)
  | Some k => let '(freed, s) := evict k s in (freed, true, s)
  end.

(** The order in which a [range] visits the entries of a stripe; the language
    leaves it open. *)
Definition StripeRange : Type := stripe -> list (BlockHash * Entry).
Definition stripe_range_ok (r : StripeRange) : Prop := forall st, r st ≡ₚ map_to_list st.

(** [sweepIdle], first pass: idle since the last access, or since creation. *)
Definition idle_since (e : Entry) : Z := match LastAccessed e with Some t => t | None => CreatedAt e end.
Definition idle (cutoff : Z) (e : Entry) : bool := (idle_since e <? cutoff)%Z.
Definition idle_keys (r : StripeRange) (cutoff : Z) (s : Store P) : list BlockHash :=
  mjoin ((fun st => fst <$> filter (fun kv => idle cutoff kv.2 = true) (r st)) <$> stripes s).

(** Second pass: evict each, count those that freed bytes. *)
Definition sweep_round (acc : Z * Store P) (k : BlockHash) : Z * Store P :=
  let '(n, s) := acc in
  let '(freed, s) := evict k s in
  (if (0 <? freed)%Z then n + 1 else n, s)%Z.
Definition sweepIdle (r : StripeRange) (now ttl : Z) (s : Store P) : Z * Store P :=
  if (ttl <=? 0)%Z then (0%Z, s)
  else fold_left sweep_round (idle_keys r (now - ttl) s) (0%Z, s).

End operations.

(** ** The flat view *)

(** All entries of the shard, as one map. *)
Definition flat {P} (s : Store P) : gmap BlockHash Entry := foldr (∪) ∅ (stripes s).

(** The stripes partition the keys by [stripe_index]. *)
Record striped {P} (s : Store P) : Prop := mk_striped {
  st_count : length (stripes s) = numStripes;
  st_index i st k : stripes s !! i = Some st -> is_Some (st !! k) -> stripe_index k = i;
}.

Section striping.
Context {P : Type}.
Implicit Types (s : Store P) (k : BlockHash).

Lemma stripe_index_lt k : stripe_index k < numStripes.
Proof.
  unfold stripe_index. change (Z.of_nat numStripes - 1)%Z with (Z.ones 4).
  rewrite Z.land_ones by lia.
  pose proof (Z.mod_pos_bound (le_Z (take 8 (hash_bytes k))) (2 ^ 4) ltac:(lia)).
  unfold numStripes. lia.
Qed.

Lemma lookup_foldr_union (l : list stripe) k :
  foldr (∪) ∅ l !! k = foldr (fun st acc => union (st !! k) acc) None l.
Proof. induction l as [|st l IH]; [apply lookup_empty|]. simpl. by rewrite lookup_union, IH. Qed.

Lemma foldr_union_none (l : list stripe) k :
  (forall st, st ∈ l -> st !! k = None) -> foldr (fun st acc => union (st !! k) acc) None l = None.
Proof.
  induction l as [|st l IH]; intros Hn; [done|]. simpl. rewrite (Hn st), IH; [done| |by left].
  intros st' Hin. apply Hn. by right.
Qed.

Lemma foldr_union_at (l : list stripe) i st k :
  l !! i = Some st -> (forall j st', l !! j = Some st' -> j <> i -> st' !! k = None) ->
  foldr (fun st acc => union (st !! k) acc) None l = st !! k.
Proof.
  revert i. induction l as [|st0 l IH]; intros i Hi Hn; [done|]. destruct i as [|i]; simpl in *.
  - injection Hi as ->. rewrite foldr_union_none; [by destruct (st !! k)|].
    intros st' [j Hj]%list_elem_of_lookup_1. by apply (Hn (S j)).
  - rewrite (Hn 0 st0), (IH i) by (done || by intros j st' Hj Hne; apply (Hn (S j)); auto).
    by destruct (st !! k).
Qed.

Lemma flat_lookup s k : striped s -> flat s !! k = stripeFor k s !! k.
Proof.
  intros [Hc Hi]. unfold flat, stripeFor. rewrite lookup_foldr_union.
  pose proof (stripe_index_lt k) as Hlt. rewrite <- Hc in Hlt.
  pose proof (list_lookup_lookup_total_lt _ _ Hlt) as Hl. eapply foldr_union_at; [done|].
  intros j st' Hj Hne. destruct (st' !! k) eqn:E; [|done]. by rewrite (Hi j st' k Hj) in Hne.
Qed.

Lemma striped_update s k st p t :
  striped s -> (forall k', is_Some (st !! k') -> stripe_index k' = stripe_index k) ->
  striped (update k st p t s).
Proof.
  intros [Hc Hi] Hst. split; simpl; [by rewrite length_insert|].
  intros i st' k' Hl Hs. destruct (decide (i = stripe_index k)) as [->|Hne].
  - rewrite list_lookup_insert_eq in Hl by (rewrite Hc; apply stripe_index_lt).
    injection Hl as <-. by apply Hst.
  - rewrite list_lookup_insert_ne in Hl by done. by eapply Hi.
Qed.

Lemma stripe_keys s k k' : striped s -> is_Some (stripeFor k s !! k') -> stripe_index k' = stripe_index k.
Proof.
  intros [Hc Hi]. apply Hi. apply list_lookup_lookup_total_lt. rewrite Hc. apply stripe_index_lt.
Qed.

Lemma striped_insert s k e p t : striped s -> striped (update k (<[k := e]> (stripeFor k s)) p t s).
Proof.
  intros Hs. apply striped_update; [done|]. intros k'. destruct (decide (k' = k)) as [->|Hne]; [done|].
  rewrite lookup_insert_ne by done. by apply stripe_keys.
Qed.

Lemma striped_delete s k p t : striped s -> striped (update k (delete k (stripeFor k s)) p t s).
Proof.
  intros Hs. apply striped_update; [done|]. intros k' [e [_ He]%lookup_delete_Some].
  apply (stripe_keys s); [done|by eexists].
Qed.

Lemma flat_update s k st p t :
  striped s -> (forall k', is_Some (st !! k') -> stripe_index k' = stripe_index k) ->
  (forall k', k' <> k -> st !! k' = stripeFor k s !! k') ->
  flat (update k st p t s) = partial_alter (fun _ => st !! k) k (flat s).
Proof.
  intros Hs Hst Hsame. apply map_eq. intros k'.
  rewrite flat_lookup by by apply striped_update.
  unfold stripeFor, update. simpl.
  destruct (decide (stripe_index k' = stripe_index k)) as [Heq|Hne].
  - rewrite Heq, list_lookup_total_insert_eq by (rewrite (st_count s Hs); apply stripe_index_lt).
    destruct (decide (k' = k)) as [->|Hk]; [by rewrite lookup_partial_alter_eq|].
    rewrite lookup_partial_alter_ne, flat_lookup, Hsame by done. unfold stripeFor. by rewrite Heq.
  - rewrite list_lookup_total_insert_ne by done.
    rewrite lookup_partial_alter_ne by (by intros <-). by rewrite flat_lookup.
Qed.

Lemma flat_insert s k e p t :
  striped s -> flat (update k (<[k := e]> (stripeFor k s)) p t s) = <[k := e]> (flat s).
Proof.
  intros Hs. rewrite flat_update; [|done| |].
  - rewrite lookup_insert_eq. done.
  - intros k'. destruct (decide (k' = k)) as [->|Hne]; [done|].
    rewrite lookup_insert_ne by done. by apply stripe_keys.
  - intros k' Hne. by rewrite lookup_insert_ne.
Qed.

Lemma flat_delete s k p t :
  striped s -> flat (update k (delete k (stripeFor k s)) p t s) = delete k (flat s).
Proof.
  intros Hs. rewrite flat_update; [|done| |].
  - rewrite lookup_delete_eq. done.
  - intros k' [e [_ He]%lookup_delete_Some]. apply (stripe_keys s); [done|by eexists].
  - intros k' Hne. by rewrite lookup_delete_ne.
Qed.

End striping.

(** ** Calls, runs and the one-map reference *)

(** The atomic calls on a store: what one goroutine does while it holds the
    stripe's lock (or, for [CAsk], the policy's).  An eviction is the two calls
    [CAsk] and [CEvict] with anything in between. *)
Inductive store_call :=
  | CGet (now : Z) (model : string) (h : BlockHash)
  | CPeek (model : string) (h : BlockHash)
  | CPut (now : Z) (h : BlockHash) (e : option Entry)
  | CPutWithVersion (now : Z) (h : BlockHash) (e : option Entry) (version : Z)
  | CDelete (model : string) (h : BlockHash)
  | CAsk (o : MapOrder)
  | CEvict (k : BlockHash).

Inductive store_answer :=
  | AEntry (e : option Entry)
  | AVersion (v : Z)
  | ADeleted (b : bool)
  | AVictim (k : option BlockHash)
  | AFreed (n : Z).

Definition store_step {P} `{EvictionPolicy P} (c : store_call) (s : Store P) : store_answer * Store P :=
  match c with
  | CGet now model h => let '(e, s) := Get now model h s in (AEntry e, s)
  | CPeek model h => (AEntry (Peek model h s), s)
  | CPut now h e => let '(v, s) := Put now h e s in (AVersion v, s)
  | CPutWithVersion now h e version => let '(v, s) := PutWithVersion now h e version s in (AVersion v, s)
  | CDelete model h => let '(b, s) := Delete model h s in (ADeleted b, s)
  | CAsk o => let '(v, s) := ask_victim o s in (AVictim v, s)
  | CEvict k => let '(n, s) := evict k s in (AFreed n, s)
  end.

Definition store_run {P} `{EvictionPolicy P} (s : Store P) (cs : list store_call) : Store P :=
  fold_left (fun s c => (store_step c s).2) cs s.

Module FlatStore.

Abbreviation fmap := (gmap BlockHash Entry).

Definition get (now : Z) (model : string) (h : BlockHash) (m : fmap) : option Entry * fmap :=
  let k := storeKey model h in
  match m !! k with
  | Some e => if decide (ModelID e = model)
              then (Some (recordAccess now e), <[k := recordAccess now e]> m) else (None, m)
  | None => (None, m)
  end.

Definition peek (model : string) (h : BlockHash) (m : fmap) : option Entry :=
  e ← m !! storeKey model h; if decide (ModelID e = model) then Some e else None.

Definition put (now : Z) (h : BlockHash) (e : Entry) (m : fmap) : Z * fmap :=
  let k := storeKey (ModelID e) h in
  let version := match m !! k with Some prev => u64 (Version prev + 1) | None => 1%Z end in
  let created := match m !! k with Some prev => CreatedAt prev | None => now end in
  (version, <[k := stored_entry h e version created]> m).

Definition put_with_version (now : Z) (h : BlockHash) (e : Entry) (version : Z) (m : fmap) : Z * fmap :=
  let k := storeKey (ModelID e) h in
  match m !! k with
  | Some prev =>
      if decide (version <= Version prev)%Z then (Version prev, m)
      else (version, <[k := stored_entry h e version (CreatedAt prev)]> m)
  | None => (version, <[k := stored_entry h e version now]> m)
  end.

Definition del (model : string) (h : BlockHash) (m : fmap) : bool * fmap :=
  match peek model h m with
  | Some _ => (true, delete (storeKey model h) m)
  | None => (false, m)
  end.

(** The answer ([None]: the reference leaves it open) and the next map. *)
Definition step (c : store_call) (m : fmap) : option store_answer * fmap :=
  match c with
  | CGet now model h => let '(e, m) := get now model h m in (Some (AEntry e), m)
  | CPeek model h => (Some (AEntry (peek model h m)), m)
  | CPut now h None => (Some (AVersion 0), m)
  | CPut now h (Some e) => let '(v, m) := put now h e m in (Some (AVersion v), m)
  | CPutWithVersion now h None _ => (Some (AVersion 0), m)
  | CPutWithVersion now h (Some e) version =>
      if decide (version = 0%Z) then (Some (AVersion 0), m)
      else let '(v, m) := put_with_version now h e version m in (Some (AVersion v), m)
  | CDelete model h => let '(b, m) := del model h m in (Some (ADeleted b), m)
  | CAsk _ => (None, m)
  | CEvict k => (Some (AFreed (match m !! k with Some e => SizeBytes e | None => 0%Z end)), delete k m)
  end.

End FlatStore.

(** ** Invariants *)

(** What every stored entry satisfies under its key. *)
Record entry_ok (k : BlockHash) (e : Entry) : Prop := mk_entry_ok {
  eo_key : k = storeKey (ModelID e) (WireHash e);
  eo_size : SizeBytes e = Z.of_nat (length (KV e));
}.

Record store_wf {P} (s : Store P) : Prop := mk_store_wf {
  sw_striped : striped s;
  sw_entries k e : flat s !! k = Some e -> entry_ok k e;
  sw_total : totalBytes s = i64 (map_sum SizeBytes (flat s));
}.

(** The policy tracks the keys of the store. *)
Definition store_tracks {P} `{PolicyLaws P} (s : Store P) : Prop :=
  pol_inv (policy s) /\ tracked (policy s) = dom (flat s).

Section invariants.
Context {P : Type} `{EvictionPolicy P}.
Implicit Types (s : Store P) (m : gmap BlockHash Entry).

Lemma signalEvict_same s :
  stripes (signalEvict s) = stripes s /\ policy (signalEvict s) = policy s
  /\ totalBytes (signalEvict s) = totalBytes s /\ maxBytes (signalEvict s) = maxBytes s
  /\ hiWater (signalEvict s) = hiWater s /\ loWater (signalEvict s) = loWater s
  /\ spill (signalEvict s) = spill s.
Proof. unfold signalEvict. by case_match. Qed.

Lemma striped_ext {Q} (s : Store P) (s' : Store Q) : stripes s' = stripes s -> striped s -> striped s'.
Proof. intros E [H1 H2]. split; rewrite E; done. Qed.

Lemma flat_ext {Q} (s : Store P) (s' : Store Q) : stripes s' = stripes s -> flat s' = flat s.
Proof. unfold flat. by intros ->. Qed.

Lemma flat_publish s k e prev : striped s -> flat (publish k e prev s) = <[k := e]> (flat s).
Proof.
  intros Hs. unfold publish. rewrite (flat_ext (update k (<[k:=e]> (stripeFor k s))
    (RecordWrite (mk_meta k (TenantID e) (SizeBytes e) (RecomputeCost e)) (policy s))
    (i64 (totalBytes s + i64 (SizeBytes e - prev))) s)); [|apply signalEvict_same].
  by apply flat_insert.
Qed.

Lemma striped_publish s k e prev : striped s -> striped (publish k e prev s).
Proof.
  intros Hs. unfold publish. eapply striped_ext; [apply signalEvict_same|]. by apply striped_insert.
Qed.

(** *** Each call refines the reference *)

Lemma striped_step c s : striped s -> striped (store_step c s).2.
Proof.
  intros Hs. destruct c as [now model h|model h|now h e|now h e v|model h|o|k]; simpl.
  - unfold Get. destruct (stripeFor _ s !! _); simpl; [|done]. case_decide; [done|]. by apply striped_insert.
  - done.
  - destruct e as [e|]; [|done]. simpl.
    by destruct (stripeFor _ s !! _); apply striped_publish.
  - unfold PutWithVersion. destruct e as [e|]; [|done]. destruct (v =? 0)%Z; [done|].
    destruct (stripeFor _ s !! _) as [prev|]; [destruct (v <=? Version prev)%Z|]; simpl; try done;
      by apply striped_publish.
  - unfold Delete. destruct (stripeFor _ s !! _); simpl; [|done]. case_decide; [done|]. by apply striped_delete.
  - unfold ask_victim. destruct (Victim o (policy s)). by apply (striped_ext s).
  - unfold evict. destruct (stripeFor _ s !! _) as [e|]; simpl; [|done].
    change (stripeFor k s) with (stripeFor k (demote e s)). apply striped_delete. by apply (striped_ext s).
Qed.

Lemma flat_step c s :
  striped s ->
  flat (store_step c s).2 = (FlatStore.step c (flat s)).2
  /\ forall a, (FlatStore.step c (flat s)).1 = Some a -> (store_step c s).1 = a.
Proof.
  intros Hs. destruct c as [now model h|model h|now h e|now h e v|model h|o|k]; simpl.
  - unfold Get, FlatStore.get. rewrite <- (flat_lookup s) by done.
    destruct (flat s !! storeKey model h) as [e|]; simpl; [|naive_solver].
    destruct (decide (ModelID e = model)); [rewrite decide_False by tauto|rewrite decide_True by done]; simpl.
    + rewrite flat_insert by done. naive_solver.
    + naive_solver.
  - unfold Peek, FlatStore.peek. rewrite <- (flat_lookup s) by done.
    destruct (flat s !! storeKey model h) as [e|]; simpl; [|naive_solver].
    destruct (decide (ModelID e = model)); [rewrite decide_False by tauto|rewrite decide_True by done];
      naive_solver.
  - destruct e as [e|]; simpl; [|naive_solver]. unfold FlatStore.put. rewrite <- (flat_lookup s) by done.
    destruct (flat s !! storeKey (ModelID e) h) as [prev|]; simpl;
      (rewrite flat_publish by done; naive_solver).
  - destruct e as [e|]; simpl; [|naive_solver]. unfold FlatStore.put_with_version.
    rewrite <- (flat_lookup s) by done. destruct (Z.eqb_spec v 0) as [->|Hv]; [rewrite decide_True by done; naive_solver|].
    rewrite decide_False by done.
    destruct (flat s !! storeKey (ModelID e) h) as [prev|]; simpl; [|rewrite flat_publish by done; naive_solver].
    destruct (Z.leb_spec v (Version prev)); [rewrite decide_True by done; naive_solver|].
    rewrite decide_False by lia. simpl. rewrite flat_publish by done. naive_solver.
  - unfold Delete, FlatStore.del, FlatStore.peek. rewrite <- (flat_lookup s) by done.
    destruct (flat s !! storeKey model h) as [e|]; simpl; [|naive_solver].
    destruct (decide (ModelID e = model)); [rewrite decide_False by tauto|rewrite decide_True by done]; simpl.
    + rewrite flat_delete by done. naive_solver.
    + naive_solver.
  - unfold ask_victim. destruct (Victim o (policy s)); simpl. naive_solver.
  - unfold evict. rewrite <- (flat_lookup s) by done. destruct (flat s !! k) as [e|] eqn:Hk; simpl.
    + change (stripeFor k s) with (stripeFor k (demote e s)).
      rewrite flat_delete by by apply (striped_ext s). naive_solver.
    + rewrite delete_id by done. naive_solver.
Qed.

(** *** The invariants *)

Lemma entries_step c m :
  (forall k e, m !! k = Some e -> entry_ok k e) ->
  forall k e, (FlatStore.step c m).2 !! k = Some e -> entry_ok k e.
Proof.
  intros Hm.
  assert (Hins : forall k e, entry_ok k e -> forall k' e', <[k := e]> m !! k' = Some e' -> entry_ok k' e').
  { intros k e Hok k' e' [[<- <-]|[_ ?]]%lookup_insert_Some; [done|by apply Hm]. }
  assert (Hdel : forall k k' e', delete k m !! k' = Some e' -> entry_ok k' e').
  { intros k k' e' [_ ?]%lookup_delete_Some. by apply Hm. }
  assert (Hst : forall h e v t, entry_ok (storeKey (ModelID e) h) (stored_entry h e v t)) by done.
  destruct c as [now model h|model h|now h [e|]|now h [e|] v|model h|o|k]; simpl; try done.
  - unfold FlatStore.get. destruct (m !! storeKey model h) as [e|] eqn:E; [|done].
    case_decide; [|done]. simpl. apply Hins. by destruct (Hm _ _ E).
  - by apply Hins.
  - case_decide; [done|]. unfold FlatStore.put_with_version.
    destruct (m !! storeKey (ModelID e) h) as [prev|] eqn:E; [|by apply Hins].
    case_decide; [done|]. by apply Hins.
  - unfold FlatStore.del. destruct (FlatStore.peek model h m); [apply Hdel|done].
  - apply Hdel.
Qed.

Lemma total_publish s k e prev :
  striped s -> totalBytes s = i64 (map_sum SizeBytes (flat s)) ->
  prev = match flat s !! k with Some e0 => SizeBytes e0 | None => 0%Z end ->
  totalBytes (publish k e prev s) = i64 (map_sum SizeBytes (flat (publish k e prev s))).
Proof.
  intros Hs Ht ->. rewrite flat_publish by done. unfold publish.
  destruct (signalEvict_same (update k (<[k:=e]> (stripeFor k s))
    (RecordWrite (mk_meta k (TenantID e) (SizeBytes e) (RecomputeCost e)) (policy s))
    (i64 (totalBytes s + i64 (SizeBytes e - match flat s !! k with Some e0 => SizeBytes e0 | None => 0 end))) s))
    as (_ & _ & -> & _). simpl. rewrite i64_add_r, Ht, i64_add_l. f_equal.
  destruct (flat s !! k) as [e0|] eqn:Hk.
  - rewrite (map_sum_insert_Some _ _ _ _ _ Hk). lia.
  - rewrite (map_sum_insert_None _ _ _ _ Hk). lia.
Qed.

Lemma total_step c s :
  striped s -> totalBytes s = i64 (map_sum SizeBytes (flat s)) ->
  totalBytes (store_step c s).2 = i64 (map_sum SizeBytes (flat (store_step c s).2)).
Proof.
  intros Hs Ht.
  assert (Hd : forall k e, flat s !! k = Some e ->
    i64 (totalBytes s - SizeBytes e) = i64 (map_sum SizeBytes (delete k (flat s)))).
  { intros k e Hk. rewrite Ht, <- Z.add_opp_r, i64_add_l, (map_sum_delete _ _ _ _ Hk).
    f_equal. }
  destruct c as [now model h|model h|now h [e|]|now h [e|] v|model h|o|k]; simpl; try done.
  - unfold Get. rewrite <- flat_lookup by done.
    destruct (flat s !! storeKey model h) as [e|] eqn:E; simpl; [|done].
    case_decide; [done|]. simpl. rewrite flat_insert, (map_sum_insert_Some _ _ _ _ _ E) by done.
    rewrite Ht. f_equal. simpl. lia.
  - rewrite <- flat_lookup by done.
    destruct (flat s !! storeKey (ModelID e) h) as [prev|] eqn:E; simpl;
      apply total_publish; by rewrite ?E.
  - unfold PutWithVersion. destruct (v =? 0)%Z; [done|]. rewrite <- flat_lookup by done.
    destruct (flat s !! storeKey (ModelID e) h) as [prev|] eqn:E; simpl.
    + destruct (v <=? Version prev)%Z; [done|]. simpl. apply total_publish; by rewrite ?E.
    + apply total_publish; by rewrite ?E.
  - unfold Delete. rewrite <- flat_lookup by done.
    destruct (flat s !! storeKey model h) as [e|] eqn:E; simpl; [|done].
    case_decide; [done|]. simpl. rewrite flat_delete by done. by apply Hd.
  - unfold ask_victim. by destruct (Victim o (policy s)).
  - unfold evict. rewrite <- flat_lookup by done. destruct (flat s !! k) as [e|] eqn:E; simpl; [|done].
    change (stripeFor k s) with (stripeFor k (demote e s)).
    rewrite flat_delete by by apply (striped_ext s). by apply Hd.
Qed.

(** No call moves the ceiling or the marks. *)
Lemma store_step_marks c s :
  maxBytes (store_step c s).2 = maxBytes s /\ loWater (store_step c s).2 = loWater s.
Proof.
  assert (Hp : forall k e prev, maxBytes (publish k e prev s) = maxBytes s /\ loWater (publish k e prev s) = loWater s).
  { intros k e prev. unfold publish.
    match goal with |- context [signalEvict ?u] => destruct (signalEvict_same u) as (_ & _ & _ & -> & _ & -> & _) end.
    done. }
  destruct c as [now model h|model h|now h [e|]|now h [e|] v|model h|o|k]; simpl; try done.
  - unfold Get. destruct (stripeFor _ s !! _); simpl; [|done]. by case_decide.
  - destruct (stripeFor _ s !! _); apply Hp.
  - unfold PutWithVersion. destruct (v =? 0)%Z; [done|].
    destruct (stripeFor _ s !! _) as [prev|]; [destruct (v <=? Version prev)%Z|]; simpl; try done; apply Hp.
  - unfold Delete. destruct (stripeFor _ s !! _); simpl; [|done]. by case_decide.
  - unfold ask_victim. by destruct (Victim o (policy s)).
  - unfold evict. by destruct (stripeFor _ s !! _).
Qed.

Lemma store_wf_step c s : store_wf s -> store_wf (store_step c s).2.
Proof.
  intros [Hs He Ht]. split; [by apply striped_step| |by apply total_step].
  destruct (flat_step c s Hs) as [-> _]. by apply entries_step.
Qed.

Lemma store_run_app s cs1 cs2 : store_run s (cs1 ++ cs2) = store_run (store_run s cs1) cs2.
Proof. apply fold_left_app. Qed.

Lemma store_wf_run s cs : store_wf s -> store_wf (store_run s cs).
Proof. revert s. induction cs as [|c cs IH]; intros s Hs; [done|]. by apply IH, store_wf_step. Qed.

Lemma store_wf_new (p : P) opts : store_wf (NewStore p opts).
Proof.
  unfold NewStore. destruct (checked_fracs _ _) as [hi lo].
  split; [split; [done|]| |done].
  - cbn [stripes]. intros i st k Hi. apply lookup_replicate in Hi as [-> _]. intros [e He]. by rewrite lookup_empty in He.
  - intros k e. unfold flat. simpl. rewrite !(left_id_L ∅ (∪)). by rewrite lookup_empty.
Qed.

Lemma flat_new (p : P) opts : flat (NewStore p opts) = ∅.
Proof. unfold NewStore. by destruct (checked_fracs _ _). Qed.

End invariants.

(** *** The policy follows the store *)

Section tracking.
Context {P : Type} `{PolicyLaws P}.
Implicit Types (s : Store P).

Lemma tracks_publish s k e prev :
  striped s -> store_tracks s -> store_tracks (publish k e prev s).
Proof.
  intros Hs [Hp Ht]. unfold store_tracks. rewrite flat_publish by done. unfold publish.
  destruct (signalEvict_same (update k (<[k:=e]> (stripeFor k s))
    (RecordWrite (mk_meta k (TenantID e) (SizeBytes e) (RecomputeCost e)) (policy s))
    (i64 (totalBytes s + i64 (SizeBytes e - prev))) s)) as (_ & -> & _). simpl.
  destruct (law_write (mk_meta k (TenantID e) (SizeBytes e) (RecomputeCost e)) _ Hp) as [? ->].
  split; [done|]. by rewrite Ht, dom_insert_L.
Qed.

Lemma store_tracks_step c s :
  striped s -> store_tracks s -> store_tracks (store_step c s).2.
Proof.
  intros Hs Hst. pose proof Hst as [Hp Ht].
  assert (Hd : forall k s', stripes s' = stripes s -> policy s' = policy s ->
    forall t, store_tracks (update k (delete k (stripeFor k s')) (RecordEvict k (policy s')) t s')).
  { intros k s' Es Ep t. unfold store_tracks. rewrite flat_delete by by apply (striped_ext s).
    simpl. rewrite Ep. destruct (law_evict k _ Hp) as [? ->]. split; [done|].
    by rewrite Ht, dom_delete_L, (flat_ext s s'). }
  destruct c as [now model h|model h|now h [e|]|now h [e|] v|model h|o|k]; simpl; try done.
  - unfold Get. rewrite <- flat_lookup by done.
    destruct (flat s !! storeKey model h) as [e|] eqn:E; simpl; [|done].
    case_decide; [done|]. unfold store_tracks. simpl. rewrite flat_insert by done.
    destruct (law_access (storeKey model h) _ Hp) as [? ->]. split; [done|].
    rewrite Ht, dom_insert_L. apply elem_of_dom_2 in E. set_solver.
  - destruct (stripeFor _ s !! _); by apply tracks_publish.
  - unfold PutWithVersion. destruct (v =? 0)%Z; [done|].
    destruct (stripeFor _ s !! _) as [prev|]; [destruct (v <=? Version prev)%Z|]; simpl; try done;
      by apply tracks_publish.
  - unfold Delete. destruct (stripeFor _ s !! _); simpl; [|done]. case_decide; [done|]. by apply Hd.
  - unfold ask_victim, store_tracks. destruct (law_ask o _ Hp) as [H1 H2].
    destruct (Victim o (policy s)) as [v p]; simpl in *. split; [done|]. rewrite H2, Ht. done.
  - unfold evict. destruct (stripeFor _ s !! _) as [e|]; simpl; [|done].
    change (stripeFor k s) with (stripeFor k (demote e s)).
    change (policy s) with (policy (demote e s)). by apply Hd.
Qed.

Lemma store_tracks_run s cs : striped s -> store_tracks s -> store_tracks (store_run s cs).
Proof.
  revert s. induction cs as [|c cs IH]; intros s Hs Ht; [done|].
  apply IH; [by apply striped_step|by apply store_tracks_step].
Qed.

Lemma store_tracks_new (p : P) opts : pol_inv p -> tracked p = ∅ -> store_tracks (NewStore p opts).
Proof.
  intros Hp Ht. unfold store_tracks. rewrite flat_new, dom_empty_L. unfold NewStore.
  by destruct (checked_fracs _ _).
Qed.

End tracking.

(** ** Properties *)

Lemma key_message_inj m h m' h' : key_message m h = key_message m' h' -> m = m' /\ h = h'.
Proof.
  unfold key_message. intros Heq. apply app_inj_2 in Heq as [H1 H2]; [|by rewrite !length_hash_bytes].
  split; [by apply bytes_of_string_inj|by apply hash32_eq].
Qed.

(** The (model, hash) pair a call names. *)
Definition call_target (c : store_call) : option (string * BlockHash) :=
  match c with
  | CGet _ model h | CPeek model h | CDelete model h => Some (model, h)
  | CPut _ h (Some e) | CPutWithVersion _ h (Some e) _ => Some (ModelID e, h)
  | _ => None
  end.

(** The fields an entry takes over from the writer, and its identity. *)
Definition holds (g e : Entry) (h : BlockHash) (v : Z) : Prop :=
  TokenIDs g = TokenIDs e /\ KV g = KV e /\ ModelID g = ModelID e /\ WireHash g = h /\ Version g = v
  /\ SizeBytes g = Z.of_nat (length (KV e)) /\ TenantID g = TenantID e /\ RecomputeCost g = RecomputeCost e.

Lemma stored_holds h e v t now :
  holds (stored_entry h e v t) e h v /\ holds (recordAccess now (stored_entry h e v t)) e h v.
Proof. split; by split_and!. Qed.

Section properties.
Context {P : Type} `{EvictionPolicy P} (p : P) (opts : list StoreOption) (cs : list store_call).

(** The store after any calls. *)
Let s : Store P := store_run (NewStore p opts) cs.

Lemma run_wf : store_wf s.
Proof. apply store_wf_run, store_wf_new. Qed.

(** C2. The striped store refines one map from store keys to entries: after any
    calls, every further call changes the flat map and answers exactly as the
    one-map reference does (only the policy's choice of victim is left open). *)
Theorem store_refines_flat_map c :
  flat (store_step c s).2 = (FlatStore.step c (flat s)).2
  /\ forall a, (FlatStore.step c (flat s)).1 = Some a -> (store_step c s).1 = a.
Proof. apply flat_step, run_wf. Qed.

(** Read your write: a [Get] of the (model, hash) just [Put] hits and returns
    the written tokens, bytes, model, tenant and cost under the returned version,
    as the first recorded access. *)
Theorem store_put_then_get now now' h e :
  let '(v, s') := Put now h (Some e) s in
  exists g, (Get now' (ModelID e) h s').1 = Some g /\ holds g e h v /\ accessCount g = 1%Z.
Proof.
  pose proof (sw_striped _ run_wf) as Hs. cbn [Put]. rewrite <- flat_lookup by done.
  destruct (flat s !! storeKey (ModelID e) h) as [prev|]; unfold Get;
    (rewrite <- flat_lookup by by apply striped_publish);
    rewrite flat_publish, lookup_insert_eq, decide_False by (done || tauto);
    (eexists; split; [reflexivity|]); (split; [apply stored_holds|reflexivity]).
Qed.

(** C17. Hit verification: whatever entry a [Get] returns carries the model asked
    for, its recorded size is the length of its bytes, and it was stored under
    the hash asked for, or two distinct key messages collide under SHA-256. *)
Theorem store_hit_verified now model h e :
  (Get now model h s).1 = Some e ->
  ModelID e = model /\ SizeBytes e = Z.of_nat (length (KV e))
  /\ (WireHash e = h \/ collision (key_message model (WireHash e)) (key_message model h)).
Proof.
  pose proof run_wf as [Hs He _]. unfold Get. rewrite <- flat_lookup by done.
  destruct (flat s !! storeKey model h) as [e0|] eqn:E; simpl; [|done].
  destruct (He _ _ E) as [Hk Hsz]. case_decide as Hm; [done|].
  intros [= <-]. simpl. split; [done|]. split; [done|].
  destruct (decide (WireHash e0 = h)) as [|Hne]; [by left|right].
  split; [by intros [_ ?]%key_message_inj|]. rewrite Hm in Hk. by unfold storeKey in Hk.
Qed.

(** Isolation: a call that names one (model, hash) pair leaves what every
    other pair resolves to unchanged, in particular the same hash under another
    model, or the two key messages collide under SHA-256. *)
Theorem store_isolation c model h model' h' :
  call_target c = Some (model, h) -> (model', h') <> (model, h) ->
  Peek model' h' (store_step c s).2 = Peek model' h' s
  \/ collision (key_message model' h') (key_message model h).
Proof.
  intros Hc Hne. pose proof (sw_striped _ run_wf) as Hs.
  destruct (decide (storeKey model' h' = storeKey model h)) as [Heq|Hk].
  { right. split; [|exact Heq]. intros [-> ->]%key_message_inj. done. }
  left. pose proof (striped_step c s Hs) as Hs'. destruct (flat_step c s Hs) as [Hf _].
  assert (Hsame : flat (store_step c s).2 !! storeKey model' h' = flat s !! storeKey model' h').
  { rewrite Hf. destruct c as [now m1 h1|m1 h1|now h1 [e|]|now h1 [e|] v|m1 h1|o|k];
      simpl in Hc; try discriminate Hc; injection Hc as <- <-; simpl.
    - unfold FlatStore.get. destruct (flat s !! _); [case_decide|]; simpl; by rewrite ?lookup_insert_ne.
    - done.
    - by rewrite lookup_insert_ne.
    - case_decide; [done|]. unfold FlatStore.put_with_version.
      destruct (flat s !! _); [case_decide|]; simpl; by rewrite ?lookup_insert_ne.
    - unfold FlatStore.del. destruct (FlatStore.peek _ _ _); simpl; by rewrite ?lookup_delete_ne. }
  unfold Peek. by rewrite <- !flat_lookup, Hsame by done.
Qed.

(** Versions: [Put] mints 1 on a first write and the previous version plus one
    (in [uint64]) on an overwrite, and keeps the creation time of the first. *)
Theorem store_put_version now h e :
  let k := storeKey (ModelID e) h in
  match flat s !! k with
  | Some prev => (Put now h (Some e) s).1 = u64 (Version prev + 1)
      /\ (CreatedAt <$> flat (Put now h (Some e) s).2 !! k) = Some (CreatedAt prev)
  | None => (Put now h (Some e) s).1 = 1%Z
      /\ (CreatedAt <$> flat (Put now h (Some e) s).2 !! k) = Some now
  end.
Proof.
  intros k. pose proof (sw_striped _ run_wf) as Hs. unfold k.
  cbn [Put]. rewrite <- flat_lookup by done.
  destruct (flat s !! storeKey (ModelID e) h) as [prev|]; cbn [fst snd];
    rewrite flat_publish, lookup_insert_eq by done; done.
Qed.

(** A replicated write never regresses: the version held afterwards is the
    larger of the local and the delivered one and is what the call returns; a
    stale or duplicate delivery changes nothing at all, a newer one installs the
    delivered entry under exactly the delivered version. *)
Theorem store_replica_newest now h e version :
  version <> 0%Z ->
  let k := storeKey (ModelID e) h in
  let '(v, s') := PutWithVersion now h (Some e) version s in
  match flat s !! k with
  | Some prev => if decide (version <= Version prev)%Z then v = Version prev /\ s' = s
                 else v = version /\ exists g, flat s' !! k = Some g /\ holds g e h version
  | None => v = version /\ exists g, flat s' !! k = Some g /\ holds g e h version
  end.
Proof.
  intros Hv k. pose proof (sw_striped _ run_wf) as Hs. unfold PutWithVersion, k.
  rewrite (proj2 (Z.eqb_neq _ _) Hv), <- flat_lookup by done.
  destruct (flat s !! storeKey (ModelID e) h) as [prev|].
  - destruct (Z.leb_spec version (Version prev)); [by rewrite decide_True|].
    rewrite decide_False by lia. split; [done|]. rewrite flat_publish, lookup_insert_eq by done.
    eexists. split; [done|]. apply (stored_holds _ _ _ (CreatedAt prev) 0).
  - split; [done|]. rewrite flat_publish, lookup_insert_eq by done.
    eexists. split; [done|]. apply (stored_holds _ _ _ now 0).
Qed.

(** Byte accounting: after any calls, [Bytes] is the [int64] sum of the
    lengths of the resident blocks. *)
Theorem store_bytes_exact :
  Bytes s = i64 (map_sum (fun e => Z.of_nat (length (KV e))) (flat s)).
Proof.
  pose proof run_wf as [_ He Ht]. unfold Bytes. rewrite Ht. f_equal.
  rewrite !map_sum_to_list. apply list_sum_ext. intros [k e] Hin. simpl.
  apply elem_of_map_to_list in Hin. by destruct (He k e Hin).
Qed.

(** The eviction signal: after a write the nudge is pending whenever the
    total has reached the high-water mark or the policy reports a tenant over
    quota; a pending nudge is never lost by a write. *)
Theorem store_write_signals now h e :
  let s' := (Put now h (Some e) s).2 in
  (pressured s' = true \/ over_quota (policy s') = true \/ evictSig s = true) <-> evictSig s' = true.
Proof.
  intros s'. unfold s'. cbn [Put].
  destruct (match stripeFor _ s !! _ with Some _ => _ | None => _ end) as [[v t] prev]. cbn [snd].
  unfold publish. set (u := update _ _ _ _ _).
  assert (pressured (signalEvict u) = pressured u) as -> by (unfold signalEvict; by case_match).
  destruct (signalEvict_same u) as (_ & -> & _).
  unfold signalEvict. destruct (pressured u), (over_quota (policy u)), (evictSig s) eqn:E; simpl;
    rewrite ?E; naive_solver.
Qed.

End properties.

(** *** Eviction *)

Section evictions.
Context {P : Type} `{EvictionPolicy P}.
Implicit Types (s : Store P).

Lemma evict_flat k s : striped s -> striped (evict k s).2 /\ flat (evict k s).2 = delete k (flat s).
Proof.
  intros Hs. pose proof (striped_step (CEvict k) s Hs) as H1. destruct (flat_step (CEvict k) s Hs) as [H2 _].
  simpl in *. by destruct (evict k s).
Qed.

Lemma evict_freed k s :
  striped s -> (evict k s).1 = match flat s !! k with Some e => SizeBytes e | None => 0%Z end.
Proof. intros Hs. unfold evict. rewrite <- flat_lookup by done. by destruct (flat s !! k). Qed.

(** The demotion of one entry. *)
Definition spill_of (e : Entry) : SpillCall :=
  mk_spill (ModelID e) (WireHash e) (Version e) (TokenIDs e) (KV e).

Lemma evict_spill k s :
  striped s ->
  spill (evict k s).2 = (fun log => log ++ match flat s !! k with Some e => [spill_of e] | None => [] end) <$> spill s.
Proof.
  intros Hs. unfold evict. rewrite <- flat_lookup by done. destruct (flat s !! k); simpl; [done|].
  destruct (spill s); simpl; [by rewrite app_nil_r|done].
Qed.

(** *** The sweep *)

Lemma sweep_fold_flat ks n s :
  striped s ->
  striped (fold_left sweep_round ks (n, s)).2
  /\ flat (fold_left sweep_round ks (n, s)).2 = filter (fun kv => kv.1 ∉ ks) (flat s).
Proof.
  revert n s. induction ks as [|k ks IH]; intros n s Hs; simpl.
  - split; [done|]. symmetry. apply map_filter_id. intros. apply not_elem_of_nil.
  - destruct (evict_flat k s Hs) as [H1 H2]. destruct (evict k s) as [freed s']; simpl in *.
    destruct (IH (if (0 <? freed)%Z then n + 1 else n)%Z s' H1) as [H3 H4]. split; [done|].
    rewrite H4, H2. apply map_eq. intros k'. apply option_eq. intros e.
    rewrite !map_lookup_filter_Some, lookup_delete_Some, not_elem_of_cons. naive_solver.
Qed.

Lemma sweep_fold_count ks n s :
  striped s -> NoDup ks ->
  (fold_left sweep_round ks (n, s)).1
  = (n + list_sum_Z (fun k => match flat s !! k with
                              | Some e => if (0 <? SizeBytes e)%Z then 1 else 0
                              | None => 0 end) ks)%Z.
Proof.
  revert n s. induction ks as [|k ks IH]; intros n s Hs Hnd; [simpl; lia|].
  apply NoDup_cons in Hnd as [Hk Hnd]. rewrite list_sum_cons. simpl fold_left.
  destruct (evict_flat k s Hs) as [H1 H2]. pose proof (evict_freed k s Hs) as H3.
  destruct (evict k s) as [freed s']; simpl in *. rewrite IH, H2 by done.
  rewrite (list_sum_ext _ (fun k => match flat s !! k with
                              | Some e => if (0 <? SizeBytes e)%Z then 1 else 0
                              | None => 0 end)%Z ks).
  - rewrite H3. destruct (flat s !! k) as [e|]; [destruct (0 <? SizeBytes e)%Z; lia|simpl; lia].
  - intros k' Hin. rewrite lookup_delete_ne; [done|]. intros ->. done.
Qed.

Lemma sweep_fold_spill ks n s :
  striped s -> NoDup ks ->
  spill (fold_left sweep_round ks (n, s)).2
  = (fun log => log ++ omap (fun k => spill_of <$> flat s !! k) ks) <$> spill s.
Proof.
  revert n s. induction ks as [|k ks IH]; intros n s Hs Hnd.
  - simpl. destruct (spill s); simpl; [by rewrite app_nil_r|done].
  - apply NoDup_cons in Hnd as [Hk Hnd]. simpl fold_left.
    destruct (evict_flat k s Hs) as [H1 H2]. pose proof (evict_spill k s Hs) as H3.
    destruct (evict k s) as [freed s']; simpl in H1, H2, H3. rewrite IH, H2, H3 by done.
    destruct (spill s) as [log|]; [|done]. simpl. f_equal. rewrite <- app_assoc. f_equal.
    transitivity ((match flat s !! k with Some e => [spill_of e] | None => [] end)
                  ++ omap (fun k' => spill_of <$> flat s !! k') ks); [f_equal|by destruct (flat s !! k)].
    clear -Hk. induction ks as [|k' ks IH]; [done|]. apply not_elem_of_cons in Hk as [? ?].
    cbn [omap list_omap]. rewrite lookup_delete_ne by done. by rewrite IH.
Qed.

(** The first pass lists the idle keys, each once. *)
Lemma stripe_of_key s i st k e :
  striped s -> stripes s !! i = Some st -> st !! k = Some e -> flat s !! k = Some e.
Proof.
  intros Hs Hi He. rewrite flat_lookup by done. unfold stripeFor.
  rewrite (st_index s Hs i st k Hi ltac:(by eexists)). by rewrite (list_lookup_total_correct _ _ _ Hi).
Qed.

Lemma elem_of_idle_keys r cutoff s k :
  striped s -> stripe_range_ok r ->
  k ∈ idle_keys r cutoff s <-> exists e, flat s !! k = Some e /\ idle cutoff e = true.
Proof.
  intros Hs Hr. unfold idle_keys. rewrite list_elem_of_join. split.
  - intros (l & Hk & (st & -> & [i Hi]%list_elem_of_lookup_1)%list_elem_of_fmap).
    apply list_elem_of_fmap in Hk as ([k' e] & -> & [Hid Hin]%list_elem_of_filter).
    rewrite (Hr st), elem_of_map_to_list in Hin. exists e. split; [by eapply stripe_of_key|done].
  - intros (e & He & Hid). rewrite flat_lookup in He by done.
    exists (fst <$> filter (fun kv => idle cutoff kv.2 = true) (r (stripeFor k s))). split.
    + apply list_elem_of_fmap. exists (k, e). split; [done|]. apply list_elem_of_filter. split; [done|].
      by rewrite (Hr _), elem_of_map_to_list.
    + apply list_elem_of_fmap. exists (stripeFor k s). split; [done|].
      apply list_elem_of_lookup_total_2. rewrite (st_count s Hs). apply stripe_index_lt.
Qed.

Lemma idle_keys_NoDup r cutoff s : striped s -> stripe_range_ok r -> NoDup (idle_keys r cutoff s).
Proof.
  intros [_ Hi] Hr. unfold idle_keys.
  assert (Hgen : forall l off, (forall i st k, l !! i = Some st -> is_Some (st !! k) -> stripe_index k = off + i) ->
    NoDup (mjoin ((fun st : stripe => fst <$> filter (fun kv => idle cutoff kv.2 = true) (r st)) <$> l))).
  { induction l as [|st l IH]; intros off Hl; [constructor|]. simpl. apply NoDup_app. split_and!.
    - apply NoDup_fmap_2_strong; [|apply NoDup_filter; rewrite (Hr st); apply NoDup_map_to_list].
      intros [k1 e1] [k2 e2] [_ H1]%list_elem_of_filter [_ H2]%list_elem_of_filter Heq. simpl in Heq. subst k2.
      rewrite (Hr st), elem_of_map_to_list in H1, H2. congruence.
    - intros k Hk (l' & Hk' & (st' & -> & [i Hst']%list_elem_of_lookup_1)%list_elem_of_fmap)%list_elem_of_join.
      apply list_elem_of_fmap in Hk as ([k1 e1] & -> & [_ H1]%list_elem_of_filter).
      apply list_elem_of_fmap in Hk' as ([k2 e2] & Heq & [_ H2]%list_elem_of_filter). simpl in Heq. subst k2.
      rewrite (Hr st), elem_of_map_to_list in H1. rewrite (Hr st'), elem_of_map_to_list in H2.
      pose proof (Hl 0 st k1 eq_refl ltac:(by eexists)). pose proof (Hl (S i) st' k1 Hst' ltac:(by eexists)). lia.
    - apply (IH (S off)). intros i st' k Hst' Hk. rewrite (Hl (S i) st' k Hst' Hk). lia. }
  apply (Hgen _ 0). intros i st k. apply Hi.
Qed.

End evictions.

(** ** Properties of eviction *)

Section eviction_properties.
Context {P : Type} `{PolicyLaws P} (p : P) (opts : list StoreOption) (cs : list store_call).
Hypothesis p_inv : pol_inv p.
Hypothesis p_empty : tracked p = ∅.

Let s : Store P := store_run (NewStore p opts) cs.

Lemma run_tracks : store_tracks s.
Proof. apply store_tracks_run; [apply store_wf_new|by apply store_tracks_new]. Qed.

(** The policy and the store never drift apart: started from an empty
    policy that keeps its contract, after any calls the policy tracks exactly
    the keys that are resident. *)
Theorem store_policy_agree : pol_inv (policy s) /\ tracked (policy s) = dom (flat s).
Proof. exact run_tracks. Qed.

(** One eviction: as long as anything is resident, [evictOne] names the
    policy's victim, drops exactly that entry, frees its bytes from the total and,
    with a spiller, hands its model, wire hash, version, tokens and bytes to the
    cold tier; it reports no victim only when nothing is resident, and then
    changes nothing. *)
Theorem store_evict_one o :
  order_ok o (policy s) ->
  let '(freed, ok, s') := evictOne o s in
  if ok then
    exists k e, (Victim o (policy s)).1 = Some k /\ flat s !! k = Some e
      /\ flat s' = delete k (flat s) /\ freed = SizeBytes e
      /\ Bytes s' = i64 (Bytes s - SizeBytes e)
      /\ spill s' = (fun log => log ++ [spill_of e]) <$> spill s
  else flat s = ∅ /\ flat s' = flat s /\ freed = 0%Z /\ spill s' = spill s.
Proof.
  intros Ho. pose proof (sw_striped _ (run_wf p opts cs)) as Hs. fold s in Hs.
  destruct run_tracks as [Hp Ht]. pose proof (law_victim o (policy s) Hp Ho) as Hv.
  unfold evictOne, ask_victim. destruct (Victim o (policy s)) as [[k|] p'] eqn:E; simpl in Hv.
  - rewrite Ht in Hv. apply elem_of_dom in Hv as [e He]. set (s1 := mk_store _ _ _ _ _ _ _ _).
    assert (striped s1) as Hs1 by by apply (striped_ext s).
    assert (flat s1 !! k = Some e) as He1 by exact He.
    destruct (evict_flat k s1 Hs1) as [_ Hf]. pose proof (evict_freed k s1 Hs1) as Hfr.
    pose proof (evict_spill k s1 Hs1) as Hsp. rewrite He1 in Hfr, Hsp.
    assert (Bytes (evict k s1).2 = i64 (Bytes s - SizeBytes e)) as Hb.
    { unfold evict. rewrite <- flat_lookup, He1 by done. done. }
    destruct (evict k s1) as [freed s']; simpl in *. exists k, e. by split_and!.
  - rewrite Ht in Hv. apply dom_empty_iff_L in Hv. done.
Qed.

End eviction_properties.

(** The idle sweep: with a positive TTL, whatever order the stripes' maps are
    visited in, exactly the entries idle since before the cutoff (by last access,
    or by creation if never read) are dropped, each is spilled once, and the
    count returned is the number of those that held at least one byte. *)
Theorem store_sweep_exact {P} `{EvictionPolicy P} (p : P) opts cs r now ttl :
  (0 < ttl)%Z -> stripe_range_ok r ->
  let s := store_run (NewStore p opts) cs in
  let gone := filter (fun kv => idle (now - ttl) kv.2 = true) (flat s) in
  let '(n, s') := sweepIdle r now ttl s in
  flat s' = flat s ∖ gone
  /\ n = map_sum (fun e => if (0 <? SizeBytes e)%Z then 1%Z else 0%Z) gone
  /\ exists ks, NoDup ks /\ list_to_set ks = dom gone
     /\ spill s' = (fun log => log ++ omap (fun k => spill_of <$> flat s !! k) ks) <$> spill s.
Proof.
  intros Httl Hr s gone. pose proof (sw_striped _ (run_wf p opts cs)) as Hs. fold s in Hs.
  unfold sweepIdle. rewrite (proj2 (Z.leb_gt _ _)) by done.
  set (ks := idle_keys r (now - ttl) s).
  assert (Hnd : NoDup ks) by by apply idle_keys_NoDup.
  assert (Hks : forall k, k ∈ ks <-> is_Some (gone !! k)).
  { intros k. unfold ks. rewrite elem_of_idle_keys by done. unfold gone, is_Some.
    by setoid_rewrite map_lookup_filter_Some. }
  destruct (sweep_fold_flat ks 0 s Hs) as [_ H1]. pose proof (sweep_fold_count ks 0 s Hs Hnd) as H2.
  pose proof (sweep_fold_spill ks 0 s Hs Hnd) as H3.
  destruct (fold_left sweep_round ks (0%Z, s)) as [n s']; simpl in H1, H2, H3. split_and!.
  - rewrite H1. apply map_eq. intros k. apply option_eq. intros e.
    rewrite map_lookup_filter_Some, lookup_difference_Some. simpl. rewrite Hks, eq_None_not_Some. done.
  - rewrite H2, map_sum_to_list, Z.add_0_l.
    transitivity (list_sum_Z (fun k => match gone !! k with
                              | Some e => if (0 <? SizeBytes e)%Z then 1 else 0 | None => 0 end)%Z ks).
    { apply list_sum_ext. intros k Hk. apply Hks in Hk as [e He]. rewrite He.
      unfold gone in He. apply map_lookup_filter_Some in He as [-> _]. done. }
    rewrite (list_sum_perm _ ks ((map_to_list gone).*1)).
    + rewrite list_sum_fmap. apply list_sum_ext. intros [k e] Hin%elem_of_map_to_list. simpl. by rewrite Hin.
    + apply NoDup_Permutation; [done|apply NoDup_fst_map_to_list|]. intros k. rewrite Hks, list_elem_of_fmap.
      split.
      * intros [e He]. exists (k, e). by rewrite elem_of_map_to_list.
      * intros ([k' e] & -> & Hin%elem_of_map_to_list). by eexists.
  - exists ks. split_and!; [done| |done]. apply set_eq. intros k.
    by rewrite elem_of_list_to_set, Hks, elem_of_dom.
Qed.

(** *** Witnesses: an LRU store holding one block *)

Definition w_entry : Entry :=
  mk_entry [1; 2]%Z [x07; x08] "m#tp0/2" hash32_zero 0 0 "t" f64_1 0 0 0.
Definition w_calls : list store_call := [CPut 5 hash32_zero (Some w_entry)].
Abbreviation w_store := (store_run (NewStore NewLRU [WithSpiller]) w_calls).

Lemma store_hit_verified_witness :
  exists e, (Get 9 "m#tp0/2" hash32_zero w_store).1 = Some e /\ ModelID e = "m#tp0/2".
Proof.
  eexists. split; [vm_compute; reflexivity|].
  apply (store_hit_verified NewLRU [WithSpiller] w_calls 9 "m#tp0/2" hash32_zero).
  vm_compute. reflexivity.
Defined.

Lemma store_isolation_witness :
  Peek "m#tp0/2" hash32_zero (store_step (CDelete "m#tp1/2" hash32_zero) w_store).2
    = Peek "m#tp0/2" hash32_zero w_store
  \/ collision (key_message "m#tp0/2" hash32_zero) (key_message "m#tp1/2" hash32_zero).
Proof.
  apply (store_isolation NewLRU [WithSpiller] w_calls (CDelete "m#tp1/2" hash32_zero)
           "m#tp1/2" hash32_zero); [reflexivity|discriminate].
Defined.

Lemma store_replica_newest_witness :
  let '(v, s') := PutWithVersion 6 hash32_zero (Some w_entry) 3 (store_run (NewStore NewLRU []) []) in
  v = 3%Z /\ exists g, flat s' !! storeKey "m#tp0/2" hash32_zero = Some g /\ holds g w_entry hash32_zero 3.
Proof. apply (store_replica_newest NewLRU [] [] 6 hash32_zero w_entry 3). discriminate. Defined.

Lemma store_policy_agree_witness : tracked (policy w_store) = dom (flat w_store).
Proof. apply (store_policy_agree NewLRU [WithSpiller] w_calls); [exact lru_inv_new|reflexivity]. Defined.

Lemma store_evict_one_witness :
  let '(freed, ok, s') := evictOne [] w_store in
  if ok then
    exists k e, (Victim [] (policy w_store)).1 = Some k /\ flat w_store !! k = Some e
      /\ flat s' = delete k (flat w_store) /\ freed = SizeBytes e
      /\ Bytes s' = i64 (Bytes w_store - SizeBytes e)
      /\ spill s' = (fun log => log ++ [spill_of e]) <$> spill w_store
  else flat w_store = ∅ /\ flat s' = flat w_store /\ freed = 0%Z /\ spill s' = spill w_store.
Proof.
  apply (store_evict_one NewLRU [WithSpiller] w_calls); [exact lru_inv_new|reflexivity|exact I].
Defined.

Lemma store_sweep_exact_witness :
  let '(n, s') := sweepIdle (fun st => map_to_list st) 100 10 w_store in
  flat s' = flat w_store ∖ filter (fun kv => idle 90 kv.2 = true) (flat w_store).
Proof.
  pose proof (store_sweep_exact NewLRU [WithSpiller] w_calls (fun st => map_to_list st) 100 10
                ltac:(lia) (fun st => reflexivity _)) as Hw.
  revert Hw. cbv zeta. change (100 - 10)%Z with 90%Z.
  destruct (sweepIdle _ 100 10 w_store) as [n s']. intros [Hw _]. exact Hw.
Defined.
