(* ===== verification/Evictor.v ===== *)
(** The background evictor: [src/internal/cache/evictor.go].

    One goroutine reacts to two events, a nudge (drain until there is no more
    work) and a tick (sweep idle entries).  Other goroutines call the store
    between any two of its accesses, in the middle of a drain or a sweep too:
    [ev_step] interleaves them.  [on_nudge] and [on_tick] are the same branches as
    functions, for a drain or a sweep no call falls into. *)

From S2P Require Import Prelude Bytes Sha256 Float64 Policy Lru Store.

(** [Evictor], without the store it points to. *)
Record Evictor := mk_evictor { ttl : Z; sweepEvery : Z; has_hook : bool }.

Definition NewEvictor (ttl sweepEvery : Z) (onEvict : bool) : Evictor := mk_evictor ttl sweepEvery onEvict.

(** The calls made to [onEvict], oldest first. *)
Abbreviation reports := (list (string * Z)).

(** [report] *)
Definition report (ev : Evictor) (reason : string) (n : Z) (log : reports) : reports :=
  if has_hook ev && (0 <? n)%Z then log ++ [(reason, n)] else log.

(** [time.Hour], in nanoseconds *)
Definition Hour : Z := 3600000000000.

(** [sweepInterval] *)
Definition sweepInterval (ev : Evictor) : Z :=
  if ((ttl ev <=? 0) || (sweepEvery ev <=? 0))%Z then Hour else sweepEvery ev.

Section evictor.
Context {P : Type} `{EvictionPolicy P}.
Implicit Types (s : Store P).

(** The drain loop of [Run], [n] victims so far.  [ord] gives the order in which
    the policy's map is visited in each round; one round more than there are
    entries is enough fuel. *)
Fixpoint drain_loop (fuel : nat) (ord : nat -> P -> MapOrder) (n : nat) (s : Store P) : nat * Store P :=
  match fuel with
  | O => (n, s)
  | S fuel =>
      if needsEviction s then
        let '(_, ok, s) := evictOne (ord n (policy s)) s in
        if ok then drain_loop fuel ord (S n) s else (n, s)
      else (n, s)
  end.

Definition drain (ord : nat -> P -> MapOrder) (s : Store P) : nat * Store P :=
  drain_loop (S (size (flat s))) ord 0 s.

(** The receive from [EvictSignal] empties the channel. *)
Definition take_nudge (s : Store P) : Store P :=
  mk_store (stripes s) (policy s) (totalBytes s) (maxBytes s) (hiWater s) (loWater s) false (spill s).

(** The two working branches of the [select], as they run when no other
    goroutine calls the store meanwhile ([on_nudge_steps], [on_tick_steps]). *)
Definition on_nudge (ev : Evictor) ord (s : Store P) (log : reports) : Store P * reports :=
  let '(n, s) := drain ord (take_nudge s) in (s, report ev "pressure" (Z.of_nat n) log).
Definition on_tick (ev : Evictor) (r : StripeRange) (now : Z) (s : Store P) (log : reports) : Store P * reports :=
  let '(n, s) := sweepIdle r now (ttl ev) s in (s, report ev "ttl" n log).

(** Where the goroutine is.  Between any two of its steps the other goroutines
    may call the store: in the middle of a drain, between [Victim] and [evict],
    between two stripes of the first pass of a sweep or two victims of the
    second. *)
Inductive ev_phase :=
  | EvSelect                                            (* at the select *)
  | EvDrain (n : nat)                                   (* at the head of the drain loop *)
  | EvAsked (n : nat) (k : BlockHash)                   (* in evictOne, past Victim *)
  | EvScan (cutoff : Z) (i : nat) (ks : list BlockHash) (* first pass, at stripe i *)
  | EvSweep (n : Z) (ks : list BlockHash)               (* second pass *)
  | EvReturned.

(** [Run] among the calls of the other goroutines: the branch taken by a
    [select] is any that is ready, and cancellation ends the loop for good. *)
Inductive ev_step (ev : Evictor) : ev_phase * Store P * reports -> ev_phase * Store P * reports -> Prop :=
  | ev_nudge s log : evictSig s = true -> ev_step ev (EvSelect, s, log) (EvDrain 0, take_nudge s, log)
  | ev_ask n o k s s' log :
      needsEviction s = true -> ask_victim o s = (Some k, s') -> ev_step ev (EvDrain n, s, log) (EvAsked n k, s', log)
  | ev_evict n k s log : ev_step ev (EvAsked n k, s, log) (EvDrain (S n), (evict k s).2, log)
  | ev_dry n o s s' log :
      needsEviction s = true -> ask_victim o s = (None, s') ->
      ev_step ev (EvDrain n, s, log) (EvSelect, s', report ev "pressure" (Z.of_nat n) log)
  | ev_relieved n s log :
      needsEviction s = false -> ev_step ev (EvDrain n, s, log) (EvSelect, s, report ev "pressure" (Z.of_nat n) log)
  | ev_tick now s log :
      ev_step ev (EvSelect, s, log) (if (ttl ev <=? 0)%Z then EvSweep 0 [] else EvScan (now - ttl ev) 0 [], s, log)
  | ev_scan r cutoff i ks st s log :
      stripes s !! i = Some st ->
      ev_step ev (EvScan cutoff i ks, s, log)
        (EvScan cutoff (S i) (ks ++ (fst <$> filter (fun kv => idle cutoff kv.2 = true) (r st))), s, log)
  | ev_scanned cutoff i ks s log : stripes s !! i = None -> ev_step ev (EvScan cutoff i ks, s, log) (EvSweep 0 ks, s, log)
  | ev_sweep n k ks s log :
      ev_step ev (EvSweep n (k :: ks), s, log) (EvSweep (sweep_round (n, s) k).1 ks, (sweep_round (n, s) k).2, log)
  | ev_swept n s log : ev_step ev (EvSweep n [], s, log) (EvSelect, s, report ev "ttl" n log)
  | ev_done s log : ev_step ev (EvSelect, s, log) (EvReturned, s, log)
  | ev_other c ph s log : ev_step ev (ph, s, log) (ph, (store_step c s).2, log).

End evictor.

(** ** The drain loop *)

Section drain.
Context {P : Type} `{PolicyLaws P}.
Implicit Types (s : Store P).

(** In every state that keeps the invariant the policy's map can be visited in the given order. *)
Definition orders_ok (ord : nat -> P -> MapOrder) : Prop :=
  forall i p, pol_inv p -> order_ok (ord i p) p.

Lemma evictOne_ok o s :
  store_wf s -> store_tracks s -> order_ok o (policy s) ->
  store_wf (evictOne o s).2 /\ store_tracks (evictOne o s).2
  /\ if (evictOne o s).1.2
     then exists k e, flat s !! k = Some e /\ flat (evictOne o s).2 = delete k (flat s)
                      /\ spill (evictOne o s).2 = (fun log => log ++ [spill_of e]) <$> spill s
     else flat s = ∅ /\ flat (evictOne o s).2 = flat s /\ spill (evictOne o s).2 = spill s.
Proof.
  intros Hwf Ht Ho.
  pose proof (store_wf_step (CAsk o) s Hwf) as Hwf1.
  pose proof (store_tracks_step (CAsk o) s (sw_striped _ Hwf) Ht) as Ht1.
  destruct Ht as [Hp Hdom]. pose proof (law_victim o (policy s) Hp Ho) as Hv.
  assert (flat (ask_victim o s).2 = flat s) as Hf.
  { unfold ask_victim. by destruct (Victim o (policy s)). }
  simpl in *. unfold evictOne. unfold ask_victim in *.
  destruct (Victim o (policy s)) as [[k|] p'] eqn:E; cbn [fst snd] in *.
  - pose proof (store_wf_step (CEvict k) _ Hwf1) as Hwf2.
    pose proof (store_tracks_step (CEvict k) _ (sw_striped _ Hwf1) Ht1) as Ht2.
    destruct (evict_flat k _ (sw_striped _ Hwf1)) as [_ Hf2]. simpl in Hwf2, Ht2.
    pose proof (evict_spill k _ (sw_striped _ Hwf1)) as Hsp.
    destruct (evict k _) as [freed s']; cbn [fst snd] in *. split; [done|]. split; [done|].
    rewrite Hdom in Hv. apply elem_of_dom in Hv as [e He]. exists k, e. rewrite Hf2, Hf, Hsp, Hf, He. done.
  - split; [done|]. split; [done|]. rewrite Hdom in Hv. by apply dom_empty_iff_L in Hv.
Qed.

(** With a spiller, whatever [s] holds and [s'] does not was handed to it since. *)
Definition demoted (s s' : Store P) : Prop :=
  exists log, spill s' = (fun l => l ++ log) <$> spill s
    /\ forall k e, flat s !! k = Some e -> flat s' !! k = None -> spill_of e ∈ log.

Lemma demoted_same s s' : flat s' = flat s -> spill s' = spill s -> demoted s s'.
Proof.
  intros Hf Hs. exists []. rewrite Hs, Hf. split; [|congruence].
  destruct (spill s); simpl; [by rewrite app_nil_r|done].
Qed.

Lemma demoted_refl s : demoted s s.
Proof. by apply demoted_same. Qed.

Lemma demoted_step s s1 s' k e :
  flat s !! k = Some e -> flat s1 = delete k (flat s) ->
  spill s1 = (fun log => log ++ [spill_of e]) <$> spill s -> demoted s1 s' -> demoted s s'.
Proof.
  intros Hk Hf Hs (log & Hl & Hin). exists (spill_of e :: log). split.
  - rewrite Hl, Hs. destruct (spill s); simpl; [by rewrite <- app_assoc|done].
  - intros k' e' Hk' Hn. destruct (decide (k' = k)) as [->|Hne].
    + simplify_eq. apply list_elem_of_here.
    + apply list_elem_of_further, (Hin k'); [|done]. by rewrite Hf, lookup_delete_ne.
Qed.

(** Enough fuel: the loop ends because there is no more work or nothing left. *)
Lemma drain_loop_spec ord fuel n s :
  orders_ok ord -> store_wf s -> store_tracks s -> size (flat s) < fuel ->
  let '(m, s') := drain_loop fuel ord n s in
  store_wf s' /\ store_tracks s' /\ flat s' ⊆ flat s /\ m + size (flat s') = n + size (flat s)
  /\ (needsEviction s' = false \/ flat s' = ∅)
  /\ demoted s s'.
Proof.
  intros Hord. revert n s. induction fuel as [|fuel IH]; intros n s Hwf Ht Hf; [lia|]. cbn [drain_loop].
  destruct (needsEviction s) eqn:En; [|split_and!; auto using demoted_refl].
  pose proof (evictOne_ok (ord n (policy s)) s Hwf Ht (Hord n _ (proj1 Ht))) as (Hwf' & Ht' & Hcase).
  destruct (evictOne _ s) as [[freed ok] s1]; cbn [fst snd] in *. destruct ok.
  - destruct Hcase as (k & e & Hk & Hfl & Hsp).
    assert (S (size (flat s1)) = size (flat s)) as Hsz.
    { rewrite Hfl, map_size_delete, Hk. enough (size (flat s) <> 0) by lia.
      intros Hem%map_size_empty_inv. rewrite Hem in Hk. by rewrite lookup_empty in Hk. }
    specialize (IH (S n) s1 Hwf' Ht' ltac:(lia)). destruct (drain_loop fuel ord (S n) s1) as [m s2].
    destruct IH as (H1 & H2 & H3 & H4 & H5 & H6). split_and!; try done; [|lia|].
    + etransitivity; [done|]. rewrite Hfl. apply delete_subseteq.
    + by eapply demoted_step.
  - destruct Hcase as (He & Hfl & Hsp). rewrite Hfl. split_and!; auto. by apply demoted_same.
Qed.

Lemma drain_loop_fuel ord fuel n s :
  orders_ok ord -> store_wf s -> store_tracks s -> size (flat s) < fuel ->
  drain_loop fuel ord n s = drain_loop (S (size (flat s))) ord n s.
Proof.
  intros Hord. revert n s. induction fuel as [|fuel IH]; intros n s Hwf Ht Hf; [lia|]. cbn [drain_loop].
  destruct (needsEviction s) eqn:En; [|done].
  pose proof (evictOne_ok (ord n (policy s)) s Hwf Ht (Hord n _ (proj1 Ht))) as (Hwf' & Ht' & Hcase).
  destruct (evictOne _ s) as [[freed ok] s1]; cbn [fst snd] in *. destruct ok; [|done].
  destruct Hcase as (k & e & Hk & Hfl & Hsp).
  assert (S (size (flat s1)) = size (flat s)) as Hsz.
  { rewrite Hfl, map_size_delete, Hk. enough (size (flat s) <> 0) by lia.
    intros Hem%map_size_empty_inv. rewrite Hem in Hk. by rewrite lookup_empty in Hk. }
  rewrite <- Hsz. rewrite IH by (done || lia). done.
Qed.

End drain.

(** ** Everything the evictor does is calls on the store *)

Section as_calls.
Context {P : Type} `{EvictionPolicy P}.
Implicit Types (s : Store P).

Lemma evictOne_run o s : exists cs, (evictOne o s).2 = store_run s cs.
Proof.
  unfold evictOne. destruct (ask_victim o s) as [[k|] s1] eqn:E.
  - exists [CAsk o; CEvict k]. simpl. rewrite E. simpl. by destruct (evict k s1).
  - exists [CAsk o]. simpl. by rewrite E.
Qed.

Lemma drain_run fuel ord n s : exists cs, (drain_loop fuel ord n s).2 = store_run s cs.
Proof.
  revert n s. induction fuel as [|fuel IH]; intros n s; [by exists []|]. cbn [drain_loop].
  destruct (needsEviction s); [|by exists []].
  destruct (evictOne_run (ord n (policy s)) s) as [cs1 H1].
  destruct (evictOne _ s) as [[freed ok] s1]; simpl in H1; subst s1.
  destruct ok; [|by exists cs1].
  destruct (IH (S n) (store_run s cs1)) as [cs2 H2]. exists (cs1 ++ cs2). by rewrite store_run_app.
Qed.

Lemma sweep_run ks n s : (fold_left sweep_round ks (n, s)).2 = store_run s (CEvict <$> ks).
Proof.
  revert n s. induction ks as [|k ks IH]; intros n s; [done|]. simpl.
  by destruct (evict k s) as [freed s'].
Qed.

Lemma sweepIdle_run r now t s : exists cs, (sweepIdle r now t s).2 = store_run s cs.
Proof.
  unfold sweepIdle. case_match; [by exists []|]. eexists. apply sweep_run.
Qed.

(** A state of the shard in which the evictor and the other goroutines interleave. *)
Inductive ev_reach (ev : Evictor) (s0 : Store P) : ev_phase * Store P * reports -> Prop :=
  | ev_start : ev_reach ev s0 (EvSelect, s0, [])
  | ev_next st st' : ev_reach ev s0 st -> ev_step ev st st' -> ev_reach ev s0 st'.

(** A sweep nobody interrupts is [on_tick]. *)
Lemma scan_steps ev r cutoff i ks s log :
  rtc (ev_step ev) (EvScan cutoff i ks, s, log)
    (EvSweep 0 (ks ++ mjoin ((fun st => fst <$> filter (fun kv => idle cutoff kv.2 = true) (r st)) <$> drop i (stripes s))), s, log).
Proof.
  remember (drop i (stripes s)) as l eqn:El. revert i ks El. induction l as [|st l IH]; intros i ks El.
  - simpl. rewrite app_nil_r. apply rtc_once, ev_scanned. apply lookup_ge_None.
    apply (f_equal length) in El. rewrite length_drop in El. simpl in El. lia.
  - assert (stripes s !! i = Some st) as Hst by (rewrite <- (Nat.add_0_r i), <- lookup_drop, <- El; done).
    eapply rtc_l; [by apply (ev_scan ev r)|]. rewrite fmap_cons, join_cons, app_assoc. apply IH.
    by rewrite (drop_S _ _ _ Hst) in El; injection El.
Qed.

Lemma sweep_steps ev ks n s log :
  let '(m, s') := fold_left sweep_round ks (n, s) in
  rtc (ev_step ev) (EvSweep n ks, s, log) (EvSelect, s', report ev "ttl" m log).
Proof.
  revert n s. induction ks as [|k ks IH]; intros n s; [apply rtc_once, ev_swept|]. cbn [fold_left].
  specialize (IH (sweep_round (n, s) k).1 (sweep_round (n, s) k).2). rewrite <- surjective_pairing in IH.
  destruct (fold_left _ ks _) as [m s']. eapply rtc_l; [apply ev_sweep|done].
Qed.

Lemma on_tick_steps ev r now s log :
  rtc (ev_step ev) (EvSelect, s, log) (EvSelect, (on_tick ev r now s log).1, (on_tick ev r now s log).2).
Proof.
  eapply rtc_l; [apply (ev_tick ev now)|]. unfold on_tick, sweepIdle. destruct (_ <=? _)%Z.
  - apply rtc_once, ev_swept.
  - etransitivity; [apply (scan_steps ev r)|]. rewrite drop_0. fold (idle_keys r (now - ttl ev) s).
    pose proof (sweep_steps ev (idle_keys r (now - ttl ev) s) 0 s log) as Hs. by destruct (fold_left _ _ _).
Qed.

End as_calls.

(** Draining the channel does not touch what the invariants speak about. *)
Lemma take_nudge_inv {P} `{PolicyLaws P} (s : Store P) :
  (store_wf s -> store_wf (take_nudge s)) /\ (store_tracks s -> store_tracks (take_nudge s)).
Proof. split; [intros [[H1 H2] H3 H4]; by split|done]. Qed.

(** ** Properties *)

Section properties.
Context {P : Type} `{PolicyLaws P} (p : P) (opts : list StoreOption) (cs : list store_call).
Context (ord : nat -> P -> MapOrder).
Hypothesis p_inv : pol_inv p.
Hypothesis p_empty : tracked p = ∅.
Hypothesis ord_ok : orders_ok ord.

Let s : Store P := store_run (NewStore p opts) cs.

(** The drain loop terminates: with any fuel beyond the number of entries it
    computes the same result; it stops with no eviction work left or with an
    empty shard, having dropped exactly the counted number of entries and, with
    a spiller, handed every one of them to the cold tier. *)
Theorem drain_terminates fuel :
  size (flat s) < fuel ->
  drain_loop fuel ord 0 s = drain ord s
  /\ let '(n, s') := drain ord s in
     (needsEviction s' = false \/ flat s' = ∅)
     /\ flat s' ⊆ flat s /\ n + size (flat s') = size (flat s) /\ demoted s s'.
Proof.
  intros Hf. pose proof (run_wf p opts cs) as Hwf. fold s in Hwf.
  pose proof (run_tracks p opts cs p_inv p_empty) as Ht. fold s in Ht.
  split; [by apply drain_loop_fuel|]. unfold drain.
  pose proof (drain_loop_spec ord (S (size (flat s))) 0 s ord_ok Hwf Ht ltac:(lia)) as Hd.
  destruct (drain_loop _ ord 0 s) as [n s']. destruct Hd as (_ & _ & H1 & H2 & H3 & H4). split_and!; auto.
Qed.

(** Hysteresis: whenever the drain leaves a bounded shard non-empty, the
    resident size is down to the low-water mark and no tenant is over quota. *)
Theorem drain_reaches_low_water :
  (0 < maxBytes s)%Z ->
  let s' := (drain ord s).2 in
  flat s' = ∅ \/ ((Bytes s' <= loWater s)%Z /\ over_quota (policy s') = false).
Proof.
  intros Hmax s'. pose proof (run_wf p opts cs) as Hwf. fold s in Hwf.
  pose proof (run_tracks p opts cs p_inv p_empty) as Ht. fold s in Ht.
  pose proof (drain_loop_spec ord (S (size (flat s))) 0 s ord_ok Hwf Ht ltac:(lia)) as Hd.
  destruct (drain_run (S (size (flat s))) ord 0 s) as [cs' Hcs'].
  fold (drain ord s) in Hd, Hcs'. fold s' in Hcs'.
  assert (Hfix : forall cs1 (s1 : Store P), maxBytes (store_run s1 cs1) = maxBytes s1 /\ loWater (store_run s1 cs1) = loWater s1).
  { induction cs1 as [|c cs1 IH]; intros s1; [done|]. simpl.
    destruct (IH (store_step c s1).2) as [-> ->]. apply store_step_marks. }
  unfold s' in *. destruct (drain ord s) as [n s2]; simpl in *. clear s'.
  destruct Hd as (_ & _ & _ & _ & [Hn|He] & _); [right|by left].
  destruct (Hfix cs' s) as [Hm Hl]. rewrite <- Hcs' in Hm, Hl. unfold needsEviction in Hn. unfold Bytes.
  rewrite Hm, Hl in Hn. destruct (Z.ltb_spec 0 (maxBytes s)); [|lia]. simpl in Hn.
  destruct (Z.ltb_spec (loWater s) (totalBytes s2)); [done|]. by split.
Qed.

End properties.

(** A drain nobody interrupts is [on_nudge]. *)
Lemma drain_steps {P} `{PolicyLaws P} ev ord fuel n (s : Store P) log :
  orders_ok ord -> store_wf s -> store_tracks s -> size (flat s) < fuel ->
  let '(m, s') := drain_loop fuel ord n s in
  rtc (ev_step ev) (EvDrain n, s, log) (EvSelect, s', report ev "pressure" (Z.of_nat m) log).
Proof.
  intros Hord. revert n s. induction fuel as [|fuel IH]; intros n s Hwf Ht Hf; [lia|]. cbn [drain_loop].
  destruct (needsEviction s) eqn:En; [|by apply rtc_once, ev_relieved].
  pose proof (evictOne_ok (ord n (policy s)) s Hwf Ht (Hord n _ (proj1 Ht))) as (Hwf' & Ht' & Hcase).
  unfold evictOne in *. destruct (ask_victim (ord n (policy s)) s) as [[k|] s1] eqn:Ea; [|by apply rtc_once; eapply ev_dry].
  destruct (evict k s1) as [freed s2] eqn:Ev; cbn [fst snd] in *. destruct Hcase as (k0 & e & Hk & Hfl & _).
  assert (size (flat s2) < fuel) as Hf2.
  { rewrite Hfl, map_size_delete, Hk. enough (size (flat s) <> 0) by lia.
    intros Hem%map_size_empty_inv. rewrite Hem in Hk. by rewrite lookup_empty in Hk. }
  specialize (IH (S n) s2 Hwf' Ht' Hf2). destruct (drain_loop fuel ord (S n) s2) as [m s'].
  eapply rtc_l; [by eapply ev_ask|]. eapply rtc_l; [apply ev_evict|]. by rewrite Ev.
Qed.

Lemma on_nudge_steps {P} `{PolicyLaws P} ev ord (s : Store P) log :
  orders_ok ord -> store_wf s -> store_tracks s -> evictSig s = true ->
  rtc (ev_step ev) (EvSelect, s, log) (EvSelect, (on_nudge ev ord s log).1, (on_nudge ev ord s log).2).
Proof.
  intros Hord Hwf Ht Hs. eapply rtc_l; [by apply ev_nudge|].
  destruct (take_nudge_inv s) as [H1 H2].
  pose proof (drain_steps ev ord (S (size (flat (take_nudge s)))) 0 (take_nudge s) log Hord (H1 Hwf) (H2 Ht) ltac:(lia)) as Hd.
  unfold on_nudge, drain. by destruct (drain_loop _ ord 0 _).
Qed.

(** Every step of the evictor is calls on the store, or the receive. *)
Lemma ev_step_calls {P} `{EvictionPolicy P} ev ph (s : Store P) log ph' s' log' :
  ev_step ev (ph, s, log) (ph', s', log') -> s' = take_nudge s \/ exists cs, s' = store_run s cs.
Proof.
  inversion 1 as [| ? o k ? ? ? ? Ha|? k| ? o ? ? ? ? Ha| | | | |? k ks| | |c]; subst;
    try (right; by exists []); [by left|right..].
  - exists [CAsk o]. simpl. by rewrite Ha.
  - exists [CEvict k]. simpl. by destruct (evict k s).
  - exists [CAsk o]. simpl. by rewrite Ha.
  - exists [CEvict k]. simpl. by destruct (evict k s).
  - by exists [c].
Qed.

(** The evictor interleaved with any calls of the other goroutines, in the
    middle of its drains and sweeps too and whatever the runtime's choices, keeps
    the shard's invariants: every key sits in its stripe, the byte total is the
    sum of the resident blocks, and the policy tracks exactly the resident keys. *)
Theorem evictor_interleaving_safe {P} `{PolicyLaws P} (p : P) opts ev ph s log :
  pol_inv p -> tracked p = ∅ -> ev_reach ev (NewStore p opts) (ph, s, log) ->
  store_wf s /\ store_tracks s.
Proof.
  intros Hp Hemp Hr. remember (ph, s, log) as st eqn:Est. revert ph s log Est.
  induction Hr as [|st st' Hr IH Hstep]; intros ph s log Est.
  - assert (s = NewStore p opts) as -> by congruence.
    split; [apply store_wf_new|by apply store_tracks_new].
  - subst st'. destruct st as [[ph0 s0] log0]. destruct (IH ph0 s0 log0 eq_refl) as [Hwf Ht].
    apply ev_step_calls in Hstep as [-> | [cs ->]]; [by split; apply take_nudge_inv|].
    split; [by apply store_wf_run|]. apply store_tracks_run; [apply Hwf|done].
Qed.

(** *** Witnesses: a shard of four bytes holding one block of two *)

Section witnesses.
Definition w_ord : nat -> LRUPolicy -> MapOrder := fun _ _ => [].
Definition w_opts : list StoreOption := [WithMaxBytes 2; WithSpiller].

Lemma w_ord_ok : orders_ok w_ord.
Proof. by intros i q. Qed.

Lemma w_size : size (flat (store_run (NewStore NewLRU w_opts) w_calls)) < 2.
Proof. vm_compute. lia. Qed.
End witnesses.

Lemma drain_terminates_witness :
  drain_loop 2 w_ord 0 (store_run (NewStore NewLRU w_opts) w_calls)
  = drain w_ord (store_run (NewStore NewLRU w_opts) w_calls).
Proof.
  pose proof (@drain_terminates LRUPolicy lru_policy lru_laws NewLRU w_opts w_calls w_ord
                lru_inv_new eq_refl w_ord_ok) as Hd.
  cbv zeta in Hd. destruct (Hd 2 w_size) as [Hd' _]. exact Hd'.
Defined.

Lemma drain_reaches_low_water_witness :
  flat (drain w_ord (store_run (NewStore NewLRU w_opts) w_calls)).2 = ∅
  \/ ((Bytes (drain w_ord (store_run (NewStore NewLRU w_opts) w_calls)).2
       <= loWater (store_run (NewStore NewLRU w_opts) w_calls))%Z
      /\ over_quota (policy (drain w_ord (store_run (NewStore NewLRU w_opts) w_calls)).2) = false).
Proof.
  refine (@drain_reaches_low_water LRUPolicy lru_policy lru_laws NewLRU w_opts w_calls w_ord
            lru_inv_new eq_refl w_ord_ok _).
  vm_compute. reflexivity.
Defined.

(** Two blocks over the mark, a drain, and a third block stored between
    [Victim] and [evict]. *)
Definition w_put (b : byte) (s : Store LRUPolicy) : Store LRUPolicy :=
  (store_step (CPut 5 (mk_hash32 (b :: replicate 31 x00) eq_refl) (Some w_entry)) s).2.
Definition w_over : Store LRUPolicy := take_nudge (w_put x02 (w_put x01 (NewStore NewLRU w_opts))).
Definition w_victim : BlockHash := default hash32_zero (ask_victim [] w_over).1.
Definition w_raced : Store LRUPolicy := (evict w_victim (w_put x03 (ask_victim [] w_over).2)).2.

Lemma w_asked : ask_victim [] w_over = (Some w_victim, (ask_victim [] w_over).2).
Proof. apply injective_projections; [vm_compute; reflexivity|reflexivity]. Qed.

Lemma evictor_interleaving_safe_witness : Len w_raced = 2%Z /\ store_tracks w_raced.
Proof.
  set (ev := NewEvictor 10 5 true). split; [vm_compute; reflexivity|].
  assert (forall ph b s, ev_step ev (ph, s, []) (ph, w_put b s, [])) as Hput by (intros; apply ev_other).
  set (s0 := NewStore NewLRU w_opts). set (s2 := w_put x02 (w_put x01 s0)).
  pose proof (ev_next ev s0 _ _ (ev_next ev s0 _ _ (ev_start ev s0) (Hput _ x01 s0)) (Hput _ x02 _)) as H2. fold s2 in H2.
  assert (evictSig s2 = true) as Hsig by (vm_compute; reflexivity).
  pose proof (ev_next ev s0 _ _ H2 (ev_nudge ev s2 [] Hsig)) as H3. fold s0 s2 w_over in H3.
  assert (needsEviction w_over = true) as Hneed by (vm_compute; reflexivity).
  pose proof (ev_next ev s0 _ _ H3 (ev_ask ev 0 [] w_victim w_over _ [] Hneed w_asked)) as H4.
  pose proof (ev_next ev s0 _ _ (ev_next ev s0 _ _ H4 (Hput _ x03 _)) (ev_evict ev 0 w_victim _ [])) as H5.
  exact (proj2 (@evictor_interleaving_safe LRUPolicy lru_policy lru_laws NewLRU w_opts ev _ _ _ lru_inv_new eq_refl H5)).
Defined.
