(* ===== verification/Concurrent.v ===== *)
(** The store among goroutines: [src/internal/cache/store.go], [entry.go] and
    [evictor.go], one lock, atomic or channel operation at a time.

    [Store] runs every call in one step.  Here a call is a sequence of steps
    ([tstep]) between which any other goroutine may run: it takes its stripe's
    [RWMutex], publishes in the map, calls the policy (whose own mutex makes that
    one step), adds to the atomic byte total, looks at the watermark and the
    quotas, sends the nudge, unlocks, returns.  The evictor is one more goroutine,
    [step_nudge] to [step_swept].  [spec_step] is the object with atomic calls;
    Linearize shows that it has every history of the concurrent store. *)

From S2P Require Import Prelude Bytes Float64 Policy Lru Store.

(** ** The steps of one call *)

(** The store key a call locks the stripe of; a nil entry and version 0 return
    before the lock, and [Victim] takes the policy's mutex only. *)
Definition call_key (c : store_call) : option BlockHash :=
  match c with
  | CGet _ model h | CPeek model h | CDelete model h => Some (storeKey model h)
  | CPut _ h (Some e) => Some (storeKey (ModelID e) h)
  | CPutWithVersion _ h (Some e) v => if (v =? 0)%Z then None else Some (storeKey (ModelID e) h)
  | CPut _ _ None | CPutWithVersion _ _ None _ | CAsk _ => None
  | CEvict k => Some k
  end.

(** [mu.Lock] or [mu.RLock]. *)
Definition exclusive (c : store_call) : bool :=
  match c with CGet _ _ _ | CPeek _ _ => false | _ => true end.

(** What [Put] and [PutWithVersion] publish over the entry they find: the fresh
    entry, the bytes it replaces and the version; [None] for a stale delivery. *)
Definition write_plan (c : store_call) (prev : option Entry) : option (Entry * Z * Z) :=
  match c, prev with
  | CPut now h (Some e), None => Some (stored_entry h e 1 now, 0%Z, 1%Z)
  | CPut _ h (Some e), Some p =>
      let version := u64 (Version p + 1) in Some (stored_entry h e version (CreatedAt p), SizeBytes p, version)
  | CPutWithVersion now h (Some e) version, None => Some (stored_entry h e version now, 0%Z, version)
  | CPutWithVersion _ h (Some e) version, Some p =>
      if (version <=? Version p)%Z then None
      else Some (stored_entry h e version (CreatedAt p), SizeBytes p, version)
  | _, _ => None
  end.

(** Where a call is, with its local variables. *)
Inductive stage :=
  | Started                                     (* before the lock *)
  | Locked                                      (* holds it, has not looked *)
  | Published (stored : Entry) (prevSize v : Z) (* st.m[k] = stored *)
  | Recorded (delta v : Z)                      (* policy.RecordWrite *)
  | Added (v : Z)                               (* totalBytes.Add *)
  | AskQuota (v : Z)                            (* signalEvict: not pressured *)
  | Nudging (v : Z)                             (* signalEvict: about to send *)
  | Hit (e : Entry)                             (* Get found e *)
  | Counted (e : Entry)                         (* accessCount.Add(1) *)
  | Stamped (e : Entry)                         (* lastAccessed.Store *)
  | Removed (e : Entry)                         (* Delete: out of the map *)
  | Forgotten (e : Entry)                       (* Delete: policy.RecordEvict *)
  | Chosen (e : Entry)                          (* evict found e *)
  | Spilled (e : Entry)                         (* s.spill *)
  | Dropped (e : Entry)                         (* evict: out of the map *)
  | Freed (e : Entry)                           (* evict: totalBytes.Add *)
  | Unlocking (a : store_answer)
  | Returning (a : store_answer).

(** The two atomics of [recordAccess]. *)
Definition count_access (e : Entry) : Entry :=
  mk_entry (TokenIDs e) (KV e) (ModelID e) (WireHash e) (Version e) (SizeBytes e)
    (TenantID e) (RecomputeCost e) (CreatedAt e) (u64 (accessCount e + 1)) (lastAccessed e).
Definition stamp_access (now : Z) (e : Entry) : Entry :=
  mk_entry (TokenIDs e) (KV e) (ModelID e) (WireHash e) (Version e) (SizeBytes e)
    (TenantID e) (RecomputeCost e) (CreatedAt e) (accessCount e) (i64 now).

Section calls.
Context {P : Type} `{EvictionPolicy P}.
Implicit Types (s : Store P).

Definition with_stripe (k : BlockHash) (st : gmap BlockHash Entry) s : Store P :=
  update k st (policy s) (totalBytes s) s.
Definition with_policy (p : P) s : Store P :=
  mk_store (stripes s) p (totalBytes s) (maxBytes s) (hiWater s) (loWater s) (evictSig s) (spill s).
Definition with_total (t : Z) s : Store P :=
  mk_store (stripes s) (policy s) t (maxBytes s) (hiWater s) (loWater s) (evictSig s) (spill s).
Definition with_sig (b : bool) s : Store P :=
  mk_store (stripes s) (policy s) (totalBytes s) (maxBytes s) (hiWater s) (loWater s) b (spill s).

(** The lookup under the lock and what follows it at once: the next stage,
    whether the call takes effect here, and the store. *)
Definition locked_step (c : store_call) (k : BlockHash) s : stage * bool * Store P :=
  let st := stripeFor k s in
  match c, st !! k with
  | CGet _ model _, Some e =>
      if decide (ModelID e <> model) then (Unlocking (AEntry None), true, s) else (Hit e, false, s)
  | CGet _ _ _, None => (Unlocking (AEntry None), true, s)
  | CPeek model _, Some e =>
      (Unlocking (AEntry (if decide (ModelID e <> model) then None else Some e)), true, s)
  | CPeek _ _, None => (Unlocking (AEntry None), true, s)
  | CDelete model _, Some e =>
      if decide (ModelID e <> model) then (Unlocking (ADeleted false), true, s)
      else (Removed e, false, with_stripe k (delete k st) s)
  | CDelete _ _, None => (Unlocking (ADeleted false), true, s)
  | CEvict _, Some e => (Chosen e, false, s)
  | CEvict _, None => (Unlocking (AFreed 0), true, s)
  | _, prev =>
      match write_plan c prev with
      | Some (stored, prevSize, v) => (Published stored prevSize v, false, with_stripe k (<[k := stored]> st) s)
      | None => (Unlocking (AVersion (match prev with Some p => Version p | None => 0%Z end)), true, s)
      end
  end.

(** The steps between the lookup and the unlock. *)
Definition stage_step (c : store_call) (k : BlockHash) (sg : stage) s : option (stage * bool * Store P) :=
  match sg with
  | Locked => Some (locked_step c k s)
  | Published stored prevSize v =>
      let m := mk_meta k (TenantID stored) (SizeBytes stored) (RecomputeCost stored) in
      Some (Recorded (i64 (SizeBytes stored - prevSize)) v, true, with_policy (RecordWrite m (policy s)) s)
  | Recorded delta v => Some (Added v, false, with_total (i64 (totalBytes s + delta)) s)
  | Added v => Some (if pressured s then Nudging v else AskQuota v, false, s)
  | AskQuota v => Some (if over_quota (policy s) then Nudging v else Unlocking (AVersion v), false, s)
  | Nudging v => Some (Unlocking (AVersion v), false, with_sig true s)
  | Hit e => Some (Counted e, false, with_stripe k (alter count_access k (stripeFor k s)) s)
  | Counted e =>
      let now := match c with CGet now _ _ => now | _ => 0%Z end in
      Some (Stamped e, false, with_stripe k (alter (stamp_access now) k (stripeFor k s)) s)
  | Stamped e => Some (Unlocking (AEntry (Some e)), true, with_policy (RecordAccess k (policy s)) s)
  | Removed e => Some (Forgotten e, true, with_policy (RecordEvict k (policy s)) s)
  | Forgotten e => Some (Unlocking (ADeleted true), false, with_total (i64 (totalBytes s - SizeBytes e)) s)
  | Chosen e => Some (Spilled e, false, demote e s)
  | Spilled e => Some (Dropped e, false, with_stripe k (delete k (stripeFor k s)) s)
  | Dropped e => Some (Freed e, false, with_total (i64 (totalBytes s - SizeBytes e)) s)
  | Freed e => Some (Unlocking (AFreed (SizeBytes e)), true, with_policy (RecordEvict k (policy s)) s)
  | Started | Unlocking _ | Returning _ => None
  end.

End calls.

(** ** Goroutines *)

(** Where [Run] is: in its [select], between the two loads of [needsEviction],
    around [Victim] and [evict], in the second pass of the sweep, or done. *)
Inductive ev_at :=
  | EvSelect
  | EvTotal
  | EvQuota
  | EvVictim
  | EvAsked
  | EvEvict (k : BlockHash)
  | EvEvicting
  | EvSweep (ks : list BlockHash)
  | EvSweeping (ks : list BlockHash)
  | EvStopped.

(** The evictor's own calls run under this goroutine's number. *)
Definition evictor_id : nat := 0.

Record Conc (P : Type) := mk_conc {
  shared : Store P;
  threads : gmap nat (store_call * stage);
  loop : ev_at;
}.
#[global] Arguments mk_conc {P}.
#[global] Arguments shared {P}.
#[global] Arguments threads {P}.
#[global] Arguments loop {P}.

(** A call begins, takes effect, returns; or an inner step. *)
Inductive label :=
  | Inv (t : nat) (c : store_call)
  | Lin (t : nat)
  | Res (t : nat) (a : store_answer)
  | Tau.

(** [evictOne] and the second pass go on with the answer. *)
Definition ev_resume (l : ev_at) (a : store_answer) : ev_at :=
  match l, a with
  | EvAsked, AVictim (Some k) => EvEvict k
  | EvAsked, _ => EvSelect
  | EvEvicting, _ => EvTotal
  | EvSweeping ks, _ => EvSweep ks
  | l, _ => l
  end.

(** Whether the call at this stage holds its stripe's lock. *)
Definition holding (sg : stage) : bool :=
  match sg with Started | Returning _ => false | _ => true end.

(** Whether a call with this key and mode may take the lock beside this one. *)
Definition admits (k : BlockHash) (excl : bool) (th : store_call * stage) : bool :=
  match call_key th.1 with
  | Some k' =>
      negb (holding th.2) || negb (Nat.eqb (stripe_index k') (stripe_index k))
      || negb (excl || exclusive th.1)
  | None => true
  end.

Definition lock_free (k : BlockHash) (excl : bool) (ths : gmap nat (store_call * stage)) : bool :=
  forallb (fun '(_, th) => admits k excl th) (map_to_list ths).

Section goroutines.
Context {P : Type} `{EvictionPolicy P}.
Implicit Types (s : Store P) (st : Conc P).

(** One step of the call goroutine [t] is in. *)
Definition tstep (t : nat) st : option (label * Conc P) :=
  '(c, sg) ← threads st !! t;
  let next l sg' s := Some (l, mk_conc s (<[t := (c, sg')]> (threads st)) (loop st)) in
  match sg, call_key c with
  | Started, None => let '(a, s) := store_step c (shared st) in next (Lin t) (Returning a) s
  | Started, Some k =>
      if lock_free k (exclusive c) (threads st) then next Tau Locked (shared st) else None
  | Unlocking a, _ => next Tau (Returning a) (shared st)
  | Returning a, _ =>
      Some (Res t a, mk_conc (shared st) (delete t (threads st))
                       (if decide (t = evictor_id) then ev_resume (loop st) a else loop st))
  | _, Some k =>
      '(sg', lin, s) ← stage_step c k sg (shared st);
      next (if lin : bool then Lin t else Tau) sg' s
  | _, None => None
  end.

Definition with_loop (l : ev_at) st : Conc P := mk_conc (shared st) (threads st) l.

(** The evictor makes a call. *)
Definition ev_call (c : store_call) (l : ev_at) st : Conc P :=
  mk_conc (shared st) (<[evictor_id := (c, Started)]> (threads st)) l.

(** The calls of the handlers, of replication and of main; [Victim] and [evict]
    are the evictor's. *)
Definition client_call (c : store_call) : bool :=
  match c with CAsk _ | CEvict _ => false | _ => true end.

Definition over_low s : bool := ((0 <? maxBytes s) && (loWater s <? totalBytes s))%Z.

End goroutines.

Section system.
Context {P : Type} `{PolicyLaws P}.
Implicit Types (s : Store P) (st : Conc P).

(** The policy's [range] visits its map in an order of its keys. *)
Definition legal_order (t : nat) st : Prop :=
  forall o, threads st !! t = Some (CAsk o, Started) -> order_ok o (policy (shared st)).

(** The keys a sweep collects are any: [evict] tolerates every key. *)
Inductive conc_step : Conc P -> label -> Conc P -> Prop :=
  | step_call t c st :
      t <> evictor_id -> client_call c = true -> threads st !! t = None ->
      conc_step st (Inv t c) (mk_conc (shared st) (<[t := (c, Started)]> (threads st)) (loop st))
  | step_thread t l st st' :
      legal_order t st -> tstep t st = Some (l, st') -> conc_step st l st'
  | step_nudge st :
      loop st = EvSelect -> evictSig (shared st) = true ->
      conc_step st Tau (mk_conc (with_sig false (shared st)) (threads st) EvTotal)
  | step_tick ks st : loop st = EvSelect -> conc_step st Tau (with_loop (EvSweep ks) st)
  | step_done st : loop st = EvSelect -> conc_step st Tau (with_loop EvStopped st)
  | step_total st :
      loop st = EvTotal ->
      conc_step st Tau (with_loop (if over_low (shared st) then EvVictim else EvQuota) st)
  | step_quota st :
      loop st = EvQuota ->
      conc_step st Tau (with_loop (if over_quota (policy (shared st)) then EvVictim else EvSelect) st)
  | step_victim o st : loop st = EvVictim -> conc_step st (Inv evictor_id (CAsk o)) (ev_call (CAsk o) EvAsked st)
  | step_evict k st :
      loop st = EvEvict k -> conc_step st (Inv evictor_id (CEvict k)) (ev_call (CEvict k) EvEvicting st)
  | step_sweep k ks st :
      loop st = EvSweep (k :: ks) ->
      conc_step st (Inv evictor_id (CEvict k)) (ev_call (CEvict k) (EvSweeping ks) st)
  | step_swept st : loop st = EvSweep [] -> conc_step st Tau (with_loop EvSelect st).

(** Runs through states that satisfy [ok], with their history. *)
Inductive conc_run (ok : Conc P -> Prop) (st0 : Conc P) : list label -> Conc P -> Prop :=
  | run_nil : ok st0 -> conc_run ok st0 [] st0
  | run_snoc h l st st' :
      conc_run ok st0 h st -> conc_step st l st' -> ok st' -> conc_run ok st0 (h ++ [l]) st'.

(** ** The object with atomic calls *)

Inductive pending :=
  | Waiting (c : store_call)
  | Answered (a : store_answer).

Record Spec := mk_spec {
  sp_store : Store P;
  sp_pend : gmap nat pending;
}.

End system.
#[global] Arguments Spec : clear implicits.

(** Two entries are the same up to their access bookkeeping. *)
Definition opt_same : option Entry -> option Entry -> Prop := option_Forall2 same_value.

(** An answer may carry other access bookkeeping: the entry's atomics go on
    changing after it is returned. *)
Definition answer_eq (a b : store_answer) : Prop :=
  match a, b with
  | AEntry e, AEntry e' => opt_same e e'
  | a, b => a = b
  end.

Section spec.
Context {P : Type} `{EvictionPolicy P}.

Inductive spec_step : Spec P -> label -> Spec P -> Prop :=
  | spec_inv t c s pend :
      pend !! t = None -> spec_step (mk_spec s pend) (Inv t c) (mk_spec s (<[t := Waiting c]> pend))
  | spec_lin t c s pend :
      pend !! t = Some (Waiting c) ->
      spec_step (mk_spec s pend) (Lin t)
        (mk_spec (store_step c s).2 (<[t := Answered (store_step c s).1]> pend))
  | spec_res t a a' s pend :
      pend !! t = Some (Answered a') -> answer_eq a a' ->
      spec_step (mk_spec s pend) (Res t a) (mk_spec s (delete t pend))
  | spec_tau a : spec_step a Tau a.

Inductive spec_run (a0 : Spec P) : list label -> Spec P -> Prop :=
  | spec_nil : spec_run a0 [] a0
  | spec_snoc h l a a' : spec_run a0 h a -> spec_step a l a' -> spec_run a0 (h ++ [l]) a'.

End spec.
