(* ===== verification/Linearize.v ===== *)
(** The store among goroutines is linearizable: the relation [sim] between the
    concurrent store of Concurrent and the object with atomic calls, its
    preservation by every step, and what follows for histories ([linearizable])
    and for the moments at which no call is in flight ([quiescent_exact]).  [play]
    runs a schedule, for the witnesses. *)

From S2P Require Import Prelude Bytes Float64 Policy Lru Store Concurrent.

(** ** What relates the two *)

#[export] Instance same_value_equiv : Equivalence same_value.
Proof. split; unfold same_value; [intros e|intros e e'|intros e e' e'']; intuition congruence. Qed.

#[export] Instance opt_same_equiv : Equivalence opt_same.
Proof. unfold opt_same. split; apply _. Qed.

Lemma opt_same_Some_l e o : opt_same (Some e) o -> exists e', o = Some e' /\ same_value e e'.
Proof. intros Hs. inversion Hs; subst; eauto. Qed.

Lemma opt_same_Some_r e o : opt_same o (Some e) -> exists e', o = Some e' /\ same_value e' e.
Proof. intros Hs. inversion Hs; subst; eauto. Qed.

Lemma opt_same_None_r o : opt_same o None -> o = None.
Proof. by inversion 1. Qed.

Lemma count_access_same e : same_value (count_access e) e.
Proof. by split_and!. Qed.

Lemma stamp_access_same now e : same_value (stamp_access now e) e.
Proof. by split_and!. Qed.

Lemma same_spill e e' : same_value e e' -> spill_of e = spill_of e'.
Proof. intros (H1 & H2 & H3 & H4 & H5 & _). unfold spill_of. congruence. Qed.

(** The plan of a write reads only the fields that stay. *)
Lemma write_plan_same c o o' : opt_same o o' -> write_plan c o = write_plan c o'.
Proof.
  destruct 1 as [e e' (_ & _ & _ & _ & Hv & Hs & _ & _ & Hc)|]; [|done].
  destruct c as [| |now h [w|]|now h [w|] v| | |]; simpl; try done; by rewrite Hv, Hs, Hc.
Qed.

(** Between the change of the map and the change of the policy the map is ahead. *)
Definition dirty (sg : stage) : bool :=
  match sg with Published _ _ _ | Removed _ | Dropped _ | Freed _ => true | _ => false end.

(** What a goroutine's stage says of its key in the two maps ([oc] here, [oa]
    in the atomic object) and of its call there. *)
Definition thread_ok (c : store_call) (sg : stage) (oc oa : option Entry) (p : option pending) : Prop :=
  match sg with
  | Started | Locked => p = Some (Waiting c)
  | Published stored prevSize v =>
      p = Some (Waiting c) /\ opt_same oc (Some stored) /\ write_plan c oa = Some (stored, prevSize, v)
  | Recorded _ v | Added v | AskQuota v | Nudging v => p = Some (Answered (AVersion v))
  | Hit e | Counted e | Stamped e =>
      p = Some (Waiting c) /\ opt_same oc (Some e) /\ exists now model h, c = CGet now model h /\ ModelID e = model
  | Removed e =>
      p = Some (Waiting c) /\ oc = None /\ opt_same oa (Some e)
      /\ exists model h, c = CDelete model h /\ ModelID e = model
  | Forgotten e => p = Some (Answered (ADeleted true)) /\ (0 <= SizeBytes e)%Z
  | Chosen e | Spilled e => p = Some (Waiting c) /\ opt_same oc (Some e) /\ exists k, c = CEvict k
  | Dropped e | Freed e =>
      p = Some (Waiting c) /\ oc = None /\ opt_same oa (Some e) /\ exists k, c = CEvict k
  | Unlocking a | Returning a => exists a', p = Some (Answered a') /\ answer_eq a a'
  end.

(** What a call has still to add to the byte total after taking effect. *)
Definition owed (th : store_call * stage) : Z :=
  match th.2 with
  | Recorded delta _ => delta
  | Forgotten e => - SizeBytes e
  | Freed e => SizeBytes e
  | _ => 0
  end%Z.

(** What the map of the atomic object holds more than the store's. *)
Definition ahead (th : store_call * stage) : Z :=
  match th.2 with
  | Published stored prevSize _ => prevSize - SizeBytes stored
  | Removed e | Dropped e | Freed e => SizeBytes e
  | _ => 0
  end%Z.

(** The spill of an eviction that has not taken effect. *)
Definition spilled_by (sg : stage) : list SpillCall :=
  match sg with Spilled e | Dropped e | Freed e => [spill_of e] | _ => [] end.
Definition spilled (ths : gmap nat (store_call * stage)) : list SpillCall :=
  match ths !! evictor_id with Some (_, sg) => spilled_by sg | None => [] end.

(** The evictor has a call in flight. *)
Definition ev_in_call (l : ev_at) : bool :=
  match l with EvAsked | EvEvicting | EvSweeping _ => true | _ => false end.

Definition at_key (m : gmap BlockHash Entry) (c : store_call) : option Entry := k ← call_key c; m !! k.

Section simulation.
Context {P : Type} `{PolicyLaws P}.
Implicit Types (s : Store P) (st : Conc P) (a : Spec P).

(** No two goroutines hold the same stripe unless both only read. *)
Definition locks_ok (ths : gmap nat (store_call * stage)) : Prop :=
  forall t t' c c' sg sg' k k',
    t <> t' -> ths !! t = Some (c, sg) -> ths !! t' = Some (c', sg') ->
    call_key c = Some k -> call_key c' = Some k' -> holding sg = true -> holding sg' = true ->
    stripe_index k = stripe_index k' -> exclusive c = false /\ exclusive c' = false.

Definition key_dirty (ths : gmap nat (store_call * stage)) (k : BlockHash) : Prop :=
  exists t c sg, ths !! t = Some (c, sg) /\ call_key c = Some k /\ dirty sg = true.

Record sim st a : Prop := mk_sim {
  sim_striped : striped (shared st);
  sim_wf : store_wf (sp_store a);
  sim_tracks : store_tracks (sp_store a);
  sim_marks : maxBytes (shared st) = maxBytes (sp_store a) /\ loWater (shared st) = loWater (sp_store a);
  sim_range : in_i64 (totalBytes (shared st));
  sim_policy : policy (shared st) = policy (sp_store a);
  sim_keyed t c sg : threads st !! t = Some (c, sg) -> holding sg = true -> is_Some (call_key c);
  sim_locks : locks_ok (threads st);
  sim_map k : key_dirty (threads st) k \/ opt_same (flat (shared st) !! k) (flat (sp_store a) !! k);
  sim_threads t c sg :
    threads st !! t = Some (c, sg) ->
    thread_ok c sg (at_key (flat (shared st)) c) (at_key (flat (sp_store a)) c) (sp_pend a !! t);
  sim_idle t : threads st !! t = None -> sp_pend a !! t = None;
  sim_total : totalBytes (sp_store a) = i64 (totalBytes (shared st) + map_sum owed (threads st));
  sim_sizes :
    map_sum SizeBytes (flat (sp_store a))
    = (map_sum SizeBytes (flat (shared st)) + map_sum ahead (threads st))%Z;
  sim_spill : spill (shared st) = (fun l => l ++ spilled (threads st)) <$> spill (sp_store a);
  sim_evictor t c sg : threads st !! t = Some (c, sg) -> client_call c = false -> t = evictor_id;
  sim_loop : ev_in_call (loop st) = false -> threads st !! evictor_id = None;
}.

(** *** The effect of each call on the atomic object *)

Lemma spec_write c k stored prevSize v s :
  striped s -> call_key c = Some k -> write_plan c (flat s !! k) = Some (stored, prevSize, v) ->
  store_step c s = (AVersion v, publish k stored prevSize s).
Proof.
  intros Hs Hk. rewrite flat_lookup by done.
  destruct c as [now model h|model h|now h [e|]|now h [e|] v'|model h|o|k']; simpl in *; try done.
  - injection Hk as <-. by destruct (stripeFor _ s !! _); intros [= <- <- <-].
  - unfold PutWithVersion. destruct (v' =? 0)%Z; [done|]. injection Hk as <-.
    destruct (stripeFor _ s !! _) as [p|]; [destruct (v' <=? Version p)%Z|]; try done; by intros [= <- <- <-].
Qed.

Lemma spec_get now model h e s :
  striped s -> flat s !! storeKey model h = Some e -> ModelID e = model ->
  let k := storeKey model h in
  store_step (CGet now model h) s
  = (AEntry (Some (recordAccess now e)),
     update k (<[k := recordAccess now e]> (stripeFor k s)) (RecordAccess k (policy s)) (totalBytes s) s).
Proof.
  intros Hs. rewrite flat_lookup by done. intros He Hm. simpl. unfold Get. rewrite He.
  rewrite decide_False by tauto. done.
Qed.

Lemma spec_delete model h e s :
  striped s -> flat s !! storeKey model h = Some e -> ModelID e = model ->
  let k := storeKey model h in
  store_step (CDelete model h) s
  = (ADeleted true, update k (delete k (stripeFor k s)) (RecordEvict k (policy s))
                      (i64 (totalBytes s - SizeBytes e)) s).
Proof.
  intros Hs. rewrite flat_lookup by done. intros He Hm. simpl. unfold Delete. rewrite He.
  rewrite decide_False by tauto. done.
Qed.

Lemma spec_evict k e s :
  striped s -> flat s !! k = Some e ->
  store_step (CEvict k) s
  = (AFreed (SizeBytes e), update k (delete k (stripeFor k s)) (RecordEvict k (policy s))
                             (i64 (totalBytes s - SizeBytes e)) (demote e s)).
Proof. intros Hs. rewrite flat_lookup by done. intros He. simpl. unfold evict. by rewrite He. Qed.

(** *** One step of one goroutine *)

Lemma spilled_insert ths t c sg sg' :
  ths !! t = Some (c, sg) -> spilled_by sg' = spilled_by sg -> spilled (<[t := (c, sg')]> ths) = spilled ths.
Proof.
  intros Ht Hs. unfold spilled. destruct (decide (t = evictor_id)) as [->|Hne].
  - by rewrite lookup_insert_eq, Ht.
  - by rewrite lookup_insert_ne.
Qed.

Lemma at_key_eq m m' c :
  (forall k, call_key c = Some k -> m !! k = m' !! k) -> at_key m c = at_key m' c.
Proof. unfold at_key. intros Hk. destruct (call_key c); simpl; auto. Qed.

(** A goroutine that does not hold its lock says nothing of the maps; one that
    does, nothing of the access bookkeeping. *)
Lemma thread_ok_mono c sg oc oa oc' oa' p :
  thread_ok c sg oc oa p -> holding sg = false \/ (opt_same oc oc' /\ opt_same oa oa') ->
  thread_ok c sg oc' oa' p.
Proof.
  intros Hok [Hh|[Hc Ha]]; [by destruct sg|].
  destruct sg; simpl in *; try done; destruct_and!; split_and!; try done;
    try (subst oc; by apply symmetry, opt_same_None_r in Hc).
  all: try (by rewrite <- Hc). all: try (by rewrite <- Ha).
  by rewrite <- (write_plan_same _ _ _ Ha).
Qed.

Lemma dirty_writes c sg oc oa p : thread_ok c sg oc oa p -> dirty sg = true -> exclusive c = true.
Proof.
  destruct sg; simpl; try done; intros Hok _.
  - destruct Hok as (_ & _ & Hplan). by destruct c as [| |? ? [?|]|? ? [?|] ?| | |].
  - by destruct Hok as (_ & _ & _ & model & h & -> & _).
  - by destruct Hok as (_ & _ & _ & k & ->).
  - by destruct Hok as (_ & _ & _ & k & ->).
Qed.

Lemma dirty_holds sg : dirty sg = true -> holding sg = true.
Proof. by destruct sg. Qed.

Lemma lock_free_admits k excl ths t th :
  lock_free k excl ths = true -> ths !! t = Some th -> admits k excl th = true.
Proof.
  unfold lock_free. rewrite forallb_forall. intros Hf Ht%elem_of_map_to_list%list_elem_of_In.
  by apply (Hf (t, th)).
Qed.

Lemma locks_update ths t c sg sg' :
  locks_ok ths -> ths !! t = Some (c, sg) ->
  (holding sg' = true -> holding sg = true \/
     exists k, call_key c = Some k /\ lock_free k (exclusive c) ths = true) ->
  locks_ok (<[t := (c, sg')]> ths).
Proof.
  intros Hl Ht Hlock.
  assert (Hnew : forall t' c' sg0 k k', t <> t' -> ths !! t' = Some (c', sg0) ->
    call_key c = Some k -> call_key c' = Some k' -> holding sg' = true -> holding sg0 = true ->
    stripe_index k = stripe_index k' -> exclusive c = false /\ exclusive c' = false).
  { intros t' c' sg0 k k' Hne Ht' Hk Hk' Hh Hh' Hi. destruct (Hlock Hh) as [Hh0|(k0 & Hk0 & Hfree)].
    - by apply (Hl t t' c c' sg sg0 k k').
    - rewrite Hk in Hk0. injection Hk0 as <-. pose proof (lock_free_admits _ _ _ _ _ Hfree Ht') as Ha. unfold admits in Ha. simpl in Ha.
      rewrite Hk', Hh', Hi, Nat.eqb_refl in Ha. by destruct (exclusive c), (exclusive c'). }
  intros t1 t2 c1 c2 sg1 sg2 k1 k2 Hne H1 H2 Hk1 Hk2 Hh1 Hh2 Hi.
  apply lookup_insert_Some in H1 as [[<- [= <- <-]]|[Hn1 H1]];
    apply lookup_insert_Some in H2 as [[<- [= <- <-]]|[Hn2 H2]]; [done| | |by eapply (Hl t1 t2)].
  - by eapply Hnew.
  - apply and_comm. by eapply Hnew.
Qed.

(** The frame of every step: goroutine [t] goes on to [sg'] and both maps change
    at most at its key, beyond bookkeeping only under an exclusive lock. *)
Lemma sim_update st a t c sg sg' s' a' :
  sim st a -> threads st !! t = Some (c, sg) ->
  striped s' -> store_wf (sp_store a') -> store_tracks (sp_store a') ->
  maxBytes s' = maxBytes (sp_store a') /\ loWater s' = loWater (sp_store a') ->
  in_i64 (totalBytes s') -> policy s' = policy (sp_store a') ->
  (holding sg' = true -> holding sg = true \/
     exists k, call_key c = Some k /\ lock_free k (exclusive c) (threads st) = true) ->
  (forall t', t' <> t -> sp_pend a' !! t' = sp_pend a !! t') ->
  (forall k, call_key c <> Some k ->
     flat s' !! k = flat (shared st) !! k /\ flat (sp_store a') !! k = flat (sp_store a) !! k) ->
  (exclusive c = true /\ holding sg = true
   \/ (opt_same (at_key (flat (shared st)) c) (at_key (flat s') c)
       /\ opt_same (at_key (flat (sp_store a)) c) (at_key (flat (sp_store a')) c))) ->
  (dirty sg' = true \/ opt_same (at_key (flat s') c) (at_key (flat (sp_store a')) c)
   \/ dirty sg = false /\ at_key (flat s') c = at_key (flat (shared st)) c
      /\ at_key (flat (sp_store a')) c = at_key (flat (sp_store a)) c) ->
  thread_ok c sg' (at_key (flat s') c) (at_key (flat (sp_store a')) c) (sp_pend a' !! t) ->
  totalBytes (sp_store a')
  = i64 (totalBytes s' + (map_sum owed (threads st) + owed (c, sg') - owed (c, sg))) ->
  map_sum SizeBytes (flat (sp_store a'))
  = (map_sum SizeBytes (flat s') + (map_sum ahead (threads st) + ahead (c, sg') - ahead (c, sg)))%Z ->
  spill s' = (fun l => l ++ spilled (<[t := (c, sg')]> (threads st))) <$> spill (sp_store a') ->
  sim (mk_conc s' (<[t := (c, sg')]> (threads st)) (loop st)) a'.
Proof.
  intros Hsim Ht Hst Hwf Htr Hmk Hrg Hp Hlock Hpend Hoff Hat Hmap Hok Htot Hsz Hsp.
  assert (Hin : forall t' c' sg0, <[t:=(c, sg')]> (threads st) !! t' = Some (c', sg0) ->
    (t' = t /\ c' = c /\ sg0 = sg') \/ (t' <> t /\ threads st !! t' = Some (c', sg0))).
  { intros t' c' sg0 [[<- [= <- <-]]|[? ?]]%lookup_insert_Some; auto. }
  split; simpl; try done.
  - intros t' c' sg0 [(-> & -> & ->)|[Hne Ht']]%Hin Hh; [|by eapply (sim_keyed _ _ Hsim)].
    destruct (Hlock Hh) as [Hh'|(k & Hk & _)]; [by eapply (sim_keyed _ _ Hsim)|by exists k].
  - eapply locks_update; [apply Hsim|done..].
  - intros k. destruct (decide (call_key c = Some k)) as [Hk|Hk].
    + destruct Hmap as [Hd|[Hs|(Hd & Hc & Ha)]].
      * left. exists t, c, sg'. by rewrite lookup_insert_eq.
      * right. unfold at_key in Hs. by rewrite Hk in Hs.
      * unfold at_key in Hc, Ha. rewrite Hk in Hc, Ha. simpl in Hc, Ha. rewrite Hc, Ha.
        destruct (sim_map _ _ Hsim k) as [(t' & c' & sg0 & H1 & H2 & H3)|]; [|by right].
        left. exists t', c', sg0. rewrite lookup_insert_ne; [done|]. intros <-. congruence.
    + destruct (Hoff k Hk) as [-> ->].
      destruct (sim_map _ _ Hsim k) as [(t' & c' & sg0 & H1 & H2 & H3)|]; [|by right].
      left. exists t', c', sg0. rewrite lookup_insert_ne; [done|]. intros <-. congruence.
  - intros t' c' sg0 [(-> & -> & ->)|[Hne Ht']]%Hin; [done|]. rewrite Hpend by done.
    eapply thread_ok_mono; [by apply (sim_threads _ _ Hsim)|].
    destruct (call_key c') as [k|] eqn:Hk'; [|right; unfold at_key; by rewrite Hk'].
    destruct (decide (call_key c = Some k)) as [Hk|Hk].
    + destruct (holding sg0) eqn:Hh; [right|by left]. destruct Hat as [[He Hh2]|Hat].
      * destruct (sim_locks _ _ Hsim t t' c c' sg sg0 k k) as [? _]; try done. congruence.
      * unfold at_key in *. by rewrite Hk, Hk' in *.
    + right. unfold at_key. rewrite Hk'. simpl. destruct (Hoff k Hk) as [-> ->]. done.
  - intros t' Hn. apply lookup_insert_None in Hn as [Hn Hne].
    rewrite Hpend by done. by apply (sim_idle _ _ Hsim).
  - by rewrite (map_sum_insert_Some _ _ _ _ _ Ht).
  - by rewrite (map_sum_insert_Some _ _ _ _ _ Ht).
  - intros t' c' sg0 [(-> & -> & ->)|[Hne Ht']]%Hin Hcl; by eapply (sim_evictor _ _ Hsim).
  - intros Hl. pose proof (sim_loop _ _ Hsim Hl) as Hn. rewrite lookup_insert_ne; [done|].
    intros ->. congruence.
Qed.

(** Nothing but the signal changes in the store. *)
Lemma sim_quiet st a t c sg sg' s' a' :
  sim st a -> threads st !! t = Some (c, sg) -> sp_store a' = sp_store a ->
  s' = with_sig (evictSig s') (shared st) ->
  (forall t', t' <> t -> sp_pend a' !! t' = sp_pend a !! t') ->
  dirty sg = false -> owed (c, sg') = owed (c, sg) -> ahead (c, sg') = ahead (c, sg) ->
  spilled_by sg' = spilled_by sg ->
  (holding sg' = true -> holding sg = true \/
     exists k, call_key c = Some k /\ lock_free k (exclusive c) (threads st) = true) ->
  thread_ok c sg' (at_key (flat (shared st)) c) (at_key (flat (sp_store a)) c) (sp_pend a' !! t) ->
  sim (mk_conc s' (<[t := (c, sg')]> (threads st)) (loop st)) a'.
Proof.
  intros Hsim Ht Ha Hs Hpend Hd Ho Hah Hsp Hlock Hok.
  assert (Hf : flat s' = flat (shared st)) by by rewrite Hs.
  pose proof (sim_total _ _ Hsim). pose proof (sim_sizes _ _ Hsim).
  eapply (sim_update st a t c sg); rewrite ?Ha, ?Hf; try done; try apply Hsim.
  - rewrite Hs. eapply striped_ext; [|apply Hsim]. done.
  - rewrite Hs. apply Hsim.
  - rewrite Hs. apply Hsim.
  - rewrite Hs. apply Hsim.
  - by right.
  - by right; right.
  - rewrite Hs, Ho. simpl. by rewrite Z.add_simpl_r.
  - rewrite Hah. lia.
  - rewrite (spilled_insert _ _ _ sg) by done. rewrite Hs. apply Hsim.
Qed.

(** The size of what a map holds under a key. *)
Definition osize (o : option Entry) : Z := match o with Some e => SizeBytes e | None => 0 end.

Lemma map_sum_partial (m : gmap BlockHash Entry) k o :
  map_sum SizeBytes (partial_alter (fun _ => o) k m) = (map_sum SizeBytes m + osize o - osize (m !! k))%Z.
Proof.
  destruct o as [e|]; simpl.
  - change (partial_alter (fun _ => Some e) k m) with (<[k := e]> m). destruct (m !! k) as [e0|] eqn:E.
    + by rewrite (map_sum_insert_Some _ _ _ _ _ E).
    + rewrite (map_sum_insert_None _ _ _ _ E). simpl. lia.
  - change (partial_alter (fun _ => None) k m) with (delete k m). destruct (m !! k) as [e0|] eqn:E.
    + rewrite (map_sum_delete _ _ _ _ E). simpl. lia.
    + rewrite delete_id by done. simpl. lia.
Qed.

Lemma osize_same o o' : opt_same o o' -> osize o = osize o'.
Proof. destruct 1 as [e e' (_ & _ & _ & _ & _ & Hs & _)|]; [done|done]. Qed.

Lemma at_key_Some m c k : call_key c = Some k -> at_key m c = m !! k.
Proof. unfold at_key. by intros ->. Qed.

Lemma at_partial m c k o : call_key c = Some k -> at_key (partial_alter (fun _ => o) k m) c = o.
Proof. intros Hk. rewrite (at_key_Some _ _ _ Hk). apply lookup_partial_alter_eq. Qed.

Lemma off_partial (m : gmap BlockHash Entry) c k o k' :
  call_key c = Some k -> call_key c <> Some k' -> partial_alter (fun _ => o) k m !! k' = m !! k'.
Proof. intros Hk Hk'. rewrite lookup_partial_alter_ne; [done|]. intros ->. done. Qed.

(** Under its lock a goroutine changes the map at its key. *)
Lemma sim_write st a t c k sg sg' s' o :
  sim st a -> threads st !! t = Some (c, sg) -> call_key c = Some k -> holding sg = true ->
  striped s' -> flat s' = partial_alter (fun _ => o) k (flat (shared st)) ->
  s' = mk_store (stripes s') (policy (shared st)) (totalBytes (shared st)) (maxBytes (shared st))
         (hiWater (shared st)) (loWater (shared st)) (evictSig (shared st)) (spill (shared st)) ->
  exclusive c = true \/ opt_same (flat (shared st) !! k) o ->
  dirty sg' = true \/ opt_same o (flat (sp_store a) !! k) ->
  owed (c, sg') = owed (c, sg) -> spilled_by sg' = spilled_by sg ->
  (ahead (c, sg') + osize o = ahead (c, sg) + osize (flat (shared st) !! k))%Z ->
  thread_ok c sg' o (flat (sp_store a) !! k) (sp_pend a !! t) ->
  sim (mk_conc s' (<[t := (c, sg')]> (threads st)) (loop st)) a.
Proof.
  intros Hsim Ht Hk Hh Hst Hf Hs Hx Hd Ho Hsp Hah Hok.
  pose proof (sim_total _ _ Hsim). pose proof (sim_sizes _ _ Hsim).
  eapply (sim_update st a t c sg); rewrite ?Hf, ?(at_partial _ _ _ _ Hk), ?(at_key_Some _ _ _ Hk);
    try done; try apply Hsim; try (rewrite Hs; apply Hsim).
  - by left.
  - intros k' Hk'. by rewrite (off_partial _ _ _ _ _ Hk Hk').
  - destruct Hx as [|Hx]; [by left|by right].
  - destruct Hd; auto.
  - rewrite Hs, Ho. simpl. by rewrite Z.add_simpl_r.
  - rewrite map_sum_partial. lia.
  - rewrite (spilled_insert _ _ _ sg) by done. rewrite Hs. apply Hsim.
Qed.

(** The call takes effect: the policy changes here, and the atomic object
    changes the policy and its map at the same key. *)
Lemma sim_effect st t c k sg sg' p' o sa pend :
  sim st (mk_spec sa pend) -> threads st !! t = Some (c, sg) -> call_key c = Some k -> holding sg = true ->
  let s2 := (store_step c sa).2 in
  policy s2 = p' -> flat s2 = partial_alter (fun _ => o) k (flat sa) ->
  exclusive c = true \/ opt_same (flat sa !! k) o ->
  opt_same (flat (shared st) !! k) o ->
  totalBytes s2 = i64 (totalBytes sa + owed (c, sg') - owed (c, sg)) ->
  (osize o - osize (flat sa !! k) = ahead (c, sg') - ahead (c, sg))%Z ->
  spill (shared st) = (fun l => l ++ spilled (<[t := (c, sg')]> (threads st))) <$> spill s2 ->
  thread_ok c sg' (flat (shared st) !! k) o (Some (Answered (store_step c sa).1)) ->
  sim (mk_conc (with_policy p' (shared st)) (<[t := (c, sg')]> (threads st)) (loop st))
    (mk_spec s2 (<[t := Answered (store_step c sa).1]> pend)).
Proof.
  intros Hsim Ht Hk Hh s2 Hp Hf Hx Hso Htot Hsz Hsp Hok.
  pose proof (sim_total _ _ Hsim) as H1. pose proof (sim_sizes _ _ Hsim) as H2. simpl in H1, H2.
  pose proof (sim_wf _ _ Hsim) as Hwf. pose proof (sim_tracks _ _ Hsim) as Htr. simpl in Hwf, Htr.
  eapply (sim_update st (mk_spec sa pend) t c sg);
    change (flat (with_policy p' (shared st))) with (flat (shared st)); cbn [sp_store sp_pend];
    rewrite ?Hf, ?(at_partial _ _ _ _ Hk), ?(at_key_Some _ _ _ Hk); try done.
  - eapply striped_ext; [|apply Hsim]. done.
  - by apply store_wf_step.
  - apply store_tracks_step; [apply Hwf|done].
  - unfold s2. destruct (store_step_marks c sa) as [-> ->]. apply (sim_marks _ _ Hsim).
  - apply (sim_range _ _ Hsim).
  - by left.
  - intros t' Hne. by rewrite lookup_insert_ne.
  - intros k' Hk'. by rewrite (off_partial _ _ _ _ _ Hk Hk').
  - destruct Hx as [|Hx]; [by left|by right].
  - auto.
  - by rewrite lookup_insert_eq.
  - rewrite Htot, H1, <- Z.add_sub_assoc, i64_add_l. simpl. f_equal. lia.
  - rewrite map_sum_partial. lia.
Qed.

(** The byte total moves by what the goroutine owed. *)
Lemma sim_add st a t c sg sg' d :
  sim st a -> threads st !! t = Some (c, sg) ->
  dirty sg = dirty sg' -> holding sg = true -> (owed (c, sg') + d = owed (c, sg))%Z ->
  ahead (c, sg') = ahead (c, sg) -> spilled_by sg' = spilled_by sg ->
  thread_ok c sg' (at_key (flat (shared st)) c) (at_key (flat (sp_store a)) c) (sp_pend a !! t) ->
  sim (mk_conc (with_total (i64 (totalBytes (shared st) + d)) (shared st))
         (<[t := (c, sg')]> (threads st)) (loop st)) a.
Proof.
  intros Hsim Ht Hd Hh Ho Hah Hsp Hok.
  pose proof (sim_total _ _ Hsim) as H1. pose proof (sim_sizes _ _ Hsim) as H2.
  eapply (sim_update st a t c sg); try done; try apply Hsim; simpl.
  - eapply striped_ext; [|apply Hsim]. done.
  - apply i64_range.
  - by left.
  - by right.
  - destruct (dirty sg') eqn:E; [by left|by right; right].
  - rewrite i64_add_l, H1. f_equal. lia.
  - change (flat (with_total _ (shared st))) with (flat (shared st)). lia.
  - rewrite (spilled_insert _ _ _ sg) by done. apply Hsim.
Qed.

(** Outside the window of a write both maps agree under the lock. *)
Lemma sim_same st a t c k sg :
  sim st a -> threads st !! t = Some (c, sg) -> call_key c = Some k -> holding sg = true -> dirty sg = false ->
  opt_same (flat (shared st) !! k) (flat (sp_store a) !! k).
Proof.
  intros Hsim Ht Hk Hh Hd. destruct (sim_map _ _ Hsim k) as [(t' & c' & sg' & Ht' & Hk' & Hd')|]; [|done].
  assert (t <> t') as Hne by (intros ->; congruence).
  destruct (sim_locks _ _ Hsim t t' c c' sg sg' k k) as [_ Hx]; auto using dirty_holds.
  rewrite (dirty_writes c' sg' _ _ _ (sim_threads _ _ Hsim _ _ _ Ht') Hd') in Hx. done.
Qed.

(** A call that finds nothing to do takes effect at its lookup. *)
Lemma sim_answer st t c k ans ans' sa pend :
  sim st (mk_spec sa pend) -> threads st !! t = Some (c, Locked) -> call_key c = Some k ->
  store_step c sa = (ans', sa) -> answer_eq ans ans' ->
  sim (mk_conc (shared st) (<[t := (c, Unlocking ans)]> (threads st)) (loop st))
    (mk_spec (store_step c sa).2 (<[t := Answered (store_step c sa).1]> pend)).
Proof.
  intros Hsim Ht Hk Hstep Hans. rewrite Hstep. simpl.
  eapply (sim_quiet st (mk_spec sa pend)); try done; simpl.
  - by destruct (shared st).
  - intros t' Hne. by rewrite lookup_insert_ne.
  - by left.
  - rewrite lookup_insert_eq. eauto.
Qed.

Lemma idle_get now model h s :
  striped s -> (forall e, flat s !! storeKey model h = Some e -> ModelID e <> model) ->
  store_step (CGet now model h) s = (AEntry None, s).
Proof.
  intros Hs Hm. rewrite flat_lookup in Hm by done. simpl. unfold Get.
  destruct (stripeFor _ s !! _) as [e|]; [|done]. rewrite decide_True; auto.
Qed.

Lemma idle_delete model h s :
  striped s -> (forall e, flat s !! storeKey model h = Some e -> ModelID e <> model) ->
  store_step (CDelete model h) s = (ADeleted false, s).
Proof.
  intros Hs Hm. rewrite flat_lookup in Hm by done. simpl. unfold Delete.
  destruct (stripeFor _ s !! _) as [e|]; [|done]. rewrite decide_True; auto.
Qed.

Lemma idle_write c k prev s :
  striped s -> call_key c = Some k -> write_plan c (flat s !! k) = None -> flat s !! k = Some prev ->
  match c with CPut _ _ _ | CPutWithVersion _ _ _ _ => True | _ => False end ->
  store_step c s = (AVersion (Version prev), s).
Proof.
  intros Hs Hk. rewrite flat_lookup by done. intros Hp He.
  destruct c as [| |now h [e|]|now h [e|] v'| | |]; simpl in *; try done.
  - by rewrite He in Hp.
  - unfold PutWithVersion. destruct (v' =? 0)%Z; [done|]. injection Hk as <-. rewrite He in Hp |- *.
    by destruct (v' <=? Version prev)%Z.
Qed.

(** The writers: the map changes at the lookup, unless the delivery is stale. *)
Lemma sim_locked_write st t c k prev sa pend :
  sim st (mk_spec sa pend) -> threads st !! t = Some (c, Locked) -> call_key c = Some k ->
  match c with CPut _ _ _ | CPutWithVersion _ _ _ _ => True | _ => False end ->
  flat (shared st) !! k = prev -> pend !! t = Some (Waiting c) ->
  match write_plan c prev with
  | Some (stored, prevSize, v) =>
      sim (mk_conc (with_stripe k (<[k := stored]> (stripeFor k (shared st))) (shared st))
             (<[t := (c, Published stored prevSize v)]> (threads st)) (loop st)) (mk_spec sa pend)
  | None =>
      sim (mk_conc (shared st)
             (<[t := (c, Unlocking (AVersion (match prev with Some p => Version p | None => 0%Z end)))]> (threads st))
             (loop st))
        (mk_spec (store_step c sa).2 (<[t := Answered (store_step c sa).1]> pend))
  end.
Proof.
  intros Hsim Ht Hk Hc Hprev Hpend. pose proof (sim_striped _ _ Hsim) as Hs.
  pose proof (sim_same _ _ _ _ _ _ Hsim Ht Hk eq_refl eq_refl) as Hsame. rewrite Hprev in Hsame. simpl in Hsame.
  pose proof (sw_striped _ (sim_wf _ _ Hsim)) as Hsa. simpl in Hsa.
  destruct (write_plan c prev) as [[[stored prevSize] v]|] eqn:Hplan.
  - assert (prevSize = osize prev) as ->.
    { clear -Hplan. destruct c as [| |? ? [?|]|? ? [?|] ?| | |], prev; simpl in *; try done;
        repeat case_match; simplify_eq; done. }
    eapply (sim_write _ _ _ _ k Locked _ _ (Some stored)); try done; auto.
    + by apply striped_insert.
    + unfold with_stripe. by rewrite flat_insert.
    + left. by destruct c.
    + rewrite Hprev. unfold ahead. simpl. lia.
    + simpl. rewrite <- (write_plan_same _ _ _ Hsame), Hplan. done.
  - destruct prev as [p|].
    + destruct (opt_same_Some_l _ _ Hsame) as (p' & Hp' & Hpp).
      apply (sim_answer _ _ _ k _ (AVersion (Version p'))); try done.
      * apply (idle_write c k p'); try done. by rewrite <- (write_plan_same _ _ _ Hsame).
      * simpl. f_equal. by destruct Hpp as (_ & _ & _ & _ & ? & _).
    + exfalso. by destruct c as [| |? ? [?|]|? ? [?|] ?| | |].
Qed.

(** What the step of a call at [Locked] owes the simulation. *)
Definition locked_sim st t c sa pend (r : stage * bool * Store P) : Prop :=
  let '(sg', lin, s') := r in
  exists a', spec_step (mk_spec sa pend) (if lin then Lin t else Tau) a'
    /\ sim (mk_conc s' (<[t := (c, sg')]> (threads st)) (loop st)) a'.

(** The call answers at its lookup, or moves to a stage that changes nothing yet. *)
Lemma sim_locked_miss st t c k ans ans' sa pend :
  sim st (mk_spec sa pend) -> threads st !! t = Some (c, Locked) -> call_key c = Some k ->
  store_step c sa = (ans', sa) -> answer_eq ans ans' ->
  locked_sim st t c sa pend (Unlocking ans, true, shared st).
Proof.
  intros Hsim Ht Hk Hstep Hans. eexists. split; [|by eapply sim_answer].
  apply spec_lin. by apply (sim_threads _ _ Hsim _ _ _ Ht).
Qed.

Lemma sim_locked_quiet st t c k sg' sa pend :
  sim st (mk_spec sa pend) -> threads st !! t = Some (c, Locked) -> call_key c = Some k ->
  owed (c, sg') = 0%Z -> ahead (c, sg') = 0%Z -> spilled_by sg' = [] ->
  thread_ok c sg' (flat (shared st) !! k) (flat sa !! k) (Some (Waiting c)) ->
  locked_sim st t c sa pend (sg', false, shared st).
Proof.
  intros Hsim Ht Hk H1 H2 H3 Hok. pose proof (sim_threads _ _ Hsim _ _ _ Ht) as Hpend. simpl in Hpend.
  eexists. split; [apply spec_tau|]. eapply (sim_quiet st (mk_spec sa pend)); try done; simpl.
  - by destruct (shared st).
  - by left.
  - by rewrite !(at_key_Some _ _ _ Hk), Hpend.
Qed.

(** [Get] and [Delete] find the key absent, another model's entry, or the entry. *)
Lemma sim_locked_get st t now model h sa pend :
  let k := storeKey model h in
  sim st (mk_spec sa pend) -> threads st !! t = Some (CGet now model h, Locked) ->
  locked_sim st t (CGet now model h) sa pend (locked_step (CGet now model h) k (shared st)).
Proof.
  intros k Hsim Ht. pose proof (sim_same _ _ _ _ k _ Hsim Ht eq_refl eq_refl eq_refl) as Hsame.
  unfold locked_step. rewrite <- flat_lookup by (by apply sim_striped in Hsim).
  assert (Hidle : (forall e, flat sa !! k = Some e -> ModelID e <> model) ->
    locked_sim st t (CGet now model h) sa pend (Unlocking (AEntry None), true, shared st)).
  { intros Hn. apply (sim_locked_miss _ _ _ k _ (AEntry None)); [done..| |constructor]. apply idle_get; [exact (sw_striped _ (sim_wf _ _ Hsim))|done]. }
  destruct (flat (shared st) !! k) as [e|] eqn:He; simpl.
  - destruct (opt_same_Some_l _ _ Hsame) as (e' & He' & Hee). pose proof Hee as (_ & _ & Hm & _).
    simpl in He'. case_decide as Hd; [apply Hidle; congruence|].
    apply (sim_locked_quiet _ _ _ k); [done..|]. rewrite He, He'. split_and!; [done..|].
    exists now, model, h. split; [done|]. by destruct (decide (ModelID e = model)).
  - apply symmetry, opt_same_None_r in Hsame. simpl in Hsame. apply Hidle. congruence.
Qed.

Lemma sim_locked_delete st t model h sa pend :
  let k := storeKey model h in
  sim st (mk_spec sa pend) -> threads st !! t = Some (CDelete model h, Locked) ->
  locked_sim st t (CDelete model h) sa pend (locked_step (CDelete model h) k (shared st)).
Proof.
  intros k Hsim Ht. pose proof (sim_striped _ _ Hsim) as Hs.
  pose proof (sim_same _ _ _ _ k _ Hsim Ht eq_refl eq_refl eq_refl) as Hsame.
  unfold locked_step. rewrite <- flat_lookup by done.
  assert (Hidle : (forall e, flat sa !! k = Some e -> ModelID e <> model) ->
    locked_sim st t (CDelete model h) sa pend (Unlocking (ADeleted false), true, shared st)).
  { intros Hn. apply (sim_locked_miss _ _ _ k _ (ADeleted false)); [done..| |done]. apply idle_delete; [exact (sw_striped _ (sim_wf _ _ Hsim))|done]. }
  destruct (flat (shared st) !! k) as [e|] eqn:He; simpl.
  - destruct (opt_same_Some_l _ _ Hsame) as (e' & He' & Hee). pose proof Hee as (_ & _ & Hm & _).
    simpl in He'. case_decide as Hd; [apply Hidle; congruence|].
    eexists. split; [apply spec_tau|]. eapply (sim_write _ _ _ _ k Locked _ _ None); try done; auto.
    + by apply striped_delete.
    + unfold with_stripe. by rewrite flat_delete.
    + rewrite He. unfold ahead. simpl. lia.
    + simpl. split_and!; [by apply (sim_threads _ _ Hsim _ _ _ Ht)|done|by symmetry|].
      by exists model, h.
  - apply symmetry, opt_same_None_r in Hsame. simpl in Hsame. apply Hidle. congruence.
Qed.

(** The lookup and the first change under the lock. *)
Lemma sim_locked st t c k sg' lin s' sa pend :
  sim st (mk_spec sa pend) -> threads st !! t = Some (c, Locked) -> call_key c = Some k ->
  locked_step c k (shared st) = (sg', lin, s') ->
  exists a', spec_step (mk_spec sa pend) (if lin then Lin t else Tau) a'
    /\ sim (mk_conc s' (<[t := (c, sg')]> (threads st)) (loop st)) a'.
Proof.
  intros Hsim Ht Hk Hstep. change (locked_sim st t c sa pend (sg', lin, s')). rewrite <- Hstep. clear Hstep.
  pose proof (sim_striped _ _ Hsim) as Hs. pose proof (sw_striped _ (sim_wf _ _ Hsim)) as Hsa. simpl in Hsa.
  pose proof (sim_same _ _ _ _ _ _ Hsim Ht Hk eq_refl eq_refl) as Hsame. simpl in Hsame.
  pose proof (sim_threads _ _ Hsim _ _ _ Ht) as Hpend. simpl in Hpend.
  pose proof (fun prev => sim_locked_write st t c k prev sa pend Hsim Ht Hk) as Hw.
  destruct c as [now model h|model h|now h e|now h e v|model h|o|k'].
  - injection Hk as <-. by apply sim_locked_get.
  - injection Hk as <-. assert (Hp : store_step (CPeek model h) sa = (AEntry (Peek model h sa), sa)) by done.
    unfold Peek in Hp. rewrite <- flat_lookup in Hp by done.
    unfold locked_step. rewrite <- flat_lookup by done.
    destruct (flat (shared st) !! _) as [e|] eqn:He; simpl.
    + destruct (opt_same_Some_l _ _ Hsame) as (e' & He' & Hee). pose proof Hee as (_ & _ & Hm & _).
      rewrite He', <- Hm in Hp. eapply sim_locked_miss; try done. case_decide; by constructor.
    + apply symmetry, opt_same_None_r in Hsame. rewrite Hsame in Hp.
      eapply sim_locked_miss; try done. constructor.
  - unfold locked_step. rewrite <- flat_lookup by done. specialize (Hw _ I eq_refl Hpend).
    destruct (flat (shared st) !! k) as [p|]; destruct (write_plan _ _) as [[[stored prevSize] v]|];
      (eexists; split; [by constructor|exact Hw]).
  - unfold locked_step. rewrite <- flat_lookup by done. specialize (Hw _ I eq_refl Hpend).
    destruct (flat (shared st) !! k) as [p|]; destruct (write_plan _ _) as [[[stored prevSize] v']|];
      (eexists; split; [by constructor|exact Hw]).
  - injection Hk as <-. by apply sim_locked_delete.
  - done.
  - injection Hk as ->. unfold locked_step. rewrite <- flat_lookup by done.
    destruct (flat (shared st) !! _) as [e|] eqn:He; simpl.
    + apply (sim_locked_quiet _ _ _ k); [done..|]. rewrite He. split_and!; [done..|]. by exists k.
    + apply symmetry, opt_same_None_r in Hsame. eapply sim_locked_miss; try done.
      simpl. unfold evict. rewrite <- flat_lookup by done. by rewrite Hsame.
Qed.

(** An atomic of the entry moves; readers may hold the lock too. *)
Lemma sim_touch st t c k sg sg' (f : Entry -> Entry) e sa pend :
  sim st (mk_spec sa pend) -> threads st !! t = Some (c, sg) -> call_key c = Some k ->
  (forall e, same_value (f e) e) ->
  sg = Hit e /\ sg' = Counted e \/ sg = Counted e /\ sg' = Stamped e ->
  sim (mk_conc (with_stripe k (alter f k (stripeFor k (shared st))) (shared st))
         (<[t := (c, sg')]> (threads st)) (loop st)) (mk_spec sa pend).
Proof.
  intros Hsim Ht Hk Hf Hsg. pose proof (sim_striped _ _ Hsim) as Hs.
  assert (Hst : forall k', is_Some (alter f k (stripeFor k (shared st)) !! k') -> stripe_index k' = stripe_index k).
  { intros k'. rewrite lookup_alter_is_Some. by apply stripe_keys. }
  assert (Hh : holding sg = true /\ dirty sg = false) by (destruct Hsg as [[-> ->]|[-> ->]]; done).
  pose proof (sim_same _ _ _ _ _ _ Hsim Ht Hk (proj1 Hh) (proj2 Hh)) as Hsame.
  pose proof (sim_threads _ _ Hsim _ _ _ Ht) as Hok. rewrite !(at_key_Some _ _ _ Hk) in Hok.
  assert (Hff : opt_same (f <$> flat (shared st) !! k) (flat (shared st) !! k)).
  { destruct (flat (shared st) !! k); simpl; constructor. apply Hf. }
  eapply (sim_write _ _ _ _ k sg _ _ (f <$> flat (shared st) !! k)); try done.
  - apply Hh.
  - by apply striped_update.
  - unfold with_stripe. rewrite flat_update; [|done..|].
    + rewrite lookup_alter_eq. by rewrite <- flat_lookup.
    + intros k' Hne. by rewrite lookup_alter_ne.
  - right. by symmetry.
  - right. by rewrite Hff.
  - by destruct Hsg as [[-> ->]|[-> ->]].
  - by destruct Hsg as [[-> ->]|[-> ->]].
  - rewrite (osize_same _ _ Hff). by destruct Hsg as [[-> ->]|[-> ->]].
  - destruct Hsg as [[-> ->]|[-> ->]]; simpl in *; by rewrite Hff.
Qed.

(** The four calls of the policy. *)
Lemma sim_published st t c k stored prevSize v sa pend :
  let sg' := Recorded (i64 (SizeBytes stored - prevSize)) v in
  let m := mk_meta k (TenantID stored) (SizeBytes stored) (RecomputeCost stored) in
  sim st (mk_spec sa pend) -> threads st !! t = Some (c, Published stored prevSize v) -> call_key c = Some k ->
  exists a', spec_step (mk_spec sa pend) (Lin t) a'
    /\ sim (mk_conc (with_policy (RecordWrite m (policy (shared st))) (shared st))
              (<[t := (c, sg')]> (threads st)) (loop st)) a'.
Proof.
  intros sg' m Hsim Ht Hk. subst m. pose proof (sw_striped _ (sim_wf _ _ Hsim)) as Hsa. simpl in Hsa.
  pose proof (sim_threads _ _ Hsim _ _ _ Ht) as Hok. rewrite !(at_key_Some _ _ _ Hk) in Hok. simpl in Hok.
  destruct Hok as (Hpend & Hc & Hplan).
  eexists. split; [by apply spec_lin|]. pose proof (spec_write _ _ _ _ _ _ Hsa Hk Hplan) as Hstep.
  pose proof (sim_policy _ _ Hsim) as Hp. simpl in Hp.
  destruct (signalEvict_same (update k (<[k:=stored]> (stripeFor k sa))
    (RecordWrite (mk_meta k (TenantID stored) (SizeBytes stored) (RecomputeCost stored)) (policy sa))
    (i64 (totalBytes sa + i64 (SizeBytes stored - prevSize))) sa)) as (_ & Ep & Et & _ & _ & _ & Es).
  assert (prevSize = osize (flat sa !! k)) as Hprev.
  { clear -Hplan. destruct c as [| |? ? [?|]|? ? [?|] ?| | |], (flat sa !! k); simpl in *; try done;
      repeat case_match; simplify_eq; done. }
  eapply (sim_effect st t c k _ sg' _ (Some stored)); try done; rewrite ?Hstep; cbn [fst snd].
  - unfold publish. rewrite Ep. simpl. by rewrite Hp.
  - by rewrite flat_publish.
  - left. by destruct c as [| |? ? [?|]|? ? [?|] ?| | |].
  - unfold publish. rewrite Et. simpl. f_equal. unfold owed. simpl. lia.
  - unfold ahead. simpl. lia.
  - unfold publish. rewrite Es. rewrite (spilled_insert _ _ _ (Published stored prevSize v)) by done.
    apply (sim_spill _ _ Hsim).
  - done.
Qed.

Lemma sim_stamped st t c k e sa pend :
  sim st (mk_spec sa pend) -> threads st !! t = Some (c, Stamped e) -> call_key c = Some k ->
  exists a', spec_step (mk_spec sa pend) (Lin t) a'
    /\ sim (mk_conc (with_policy (RecordAccess k (policy (shared st))) (shared st))
              (<[t := (c, Unlocking (AEntry (Some e)))]> (threads st)) (loop st)) a'.
Proof.
  intros Hsim Ht Hk. pose proof (sw_striped _ (sim_wf _ _ Hsim)) as Hsa. simpl in Hsa.
  pose proof (sim_threads _ _ Hsim _ _ _ Ht) as Hok. rewrite !(at_key_Some _ _ _ Hk) in Hok. simpl in Hok.
  destruct Hok as (Hpend & Hc & now & model & h & -> & Hm). injection Hk as <-.
  pose proof (sim_same _ _ _ _ _ _ Hsim Ht eq_refl eq_refl eq_refl) as Hsame. simpl in Hsame.
  rewrite Hsame in Hc. destruct (opt_same_Some_r _ _ Hc) as (e' & He' & Hee).
  assert (ModelID e' = model) as Hm' by (destruct Hee as (_ & _ & -> & _); done).
  eexists. split; [by apply spec_lin|]. pose proof (spec_get now model h e' sa Hsa He' Hm') as Hstep.
  pose proof (sim_policy _ _ Hsim) as Hp. simpl in Hp.
  assert (Hr : same_value e' (recordAccess now e')) by by split_and!.
  eapply (sim_effect st t _ (storeKey model h) _ _ _ (Some (recordAccess now e'))); try done;
    rewrite ?Hstep; cbn [fst snd].
  - by rewrite Hp.
  - by rewrite flat_insert.
  - right. rewrite He'. by constructor.
  - rewrite Hsame, He'. by constructor.
  - pose proof (sw_total _ (sim_wf _ _ Hsim)) as Hw. simpl in Hw. unfold owed. simpl.
    by rewrite Z.sub_0_r, Z.add_0_r, Hw, i64_idem.
  - rewrite He'. unfold ahead. simpl. lia.
  - rewrite (spilled_insert _ _ _ (Stamped e)) by done. apply (sim_spill _ _ Hsim).
  - simpl. eexists. split; [done|]. simpl. constructor. by rewrite <- Hr.
Qed.

Lemma size_nonneg k e s : store_wf s -> flat s !! k = Some e -> (0 <= SizeBytes e)%Z.
Proof. intros Hwf He. destruct (sw_entries _ Hwf k e He) as [_ ->]. lia. Qed.

Lemma sim_removed st t c k e sa pend :
  sim st (mk_spec sa pend) -> threads st !! t = Some (c, Removed e) -> call_key c = Some k ->
  exists a', spec_step (mk_spec sa pend) (Lin t) a'
    /\ sim (mk_conc (with_policy (RecordEvict k (policy (shared st))) (shared st))
              (<[t := (c, Forgotten e)]> (threads st)) (loop st)) a'.
Proof.
  intros Hsim Ht Hk. pose proof (sw_striped _ (sim_wf _ _ Hsim)) as Hsa. simpl in Hsa.
  pose proof (sim_threads _ _ Hsim _ _ _ Ht) as Hok. rewrite !(at_key_Some _ _ _ Hk) in Hok. simpl in Hok.
  destruct Hok as (Hpend & Hc & Ha & model & h & -> & Hm). injection Hk as <-.
  destruct (opt_same_Some_r _ _ Ha) as (e' & He' & Hee).
  pose proof Hee as (_ & _ & Hm' & _ & _ & Hsz & _).
  assert (0 <= SizeBytes e')%Z as Hnn by by eapply size_nonneg; [apply (sim_wf _ _ Hsim)|].
  eexists. split; [by apply spec_lin|].
  pose proof (spec_delete model h e' sa Hsa He' ltac:(congruence)) as Hstep.
  pose proof (sim_policy _ _ Hsim) as Hp. simpl in Hp.
  eapply (sim_effect st t _ (storeKey model h) _ _ _ None); try done; rewrite ?Hstep; cbn [fst snd].
  - by rewrite Hp.
  - by rewrite flat_delete.
  - by left.
  - by rewrite Hc.
  - unfold owed. simpl. f_equal. lia.
  - rewrite He'. unfold ahead. simpl. lia.
  - rewrite (spilled_insert _ _ _ (Removed e)) by done. apply (sim_spill _ _ Hsim).
  - simpl. by rewrite <- Hsz.
Qed.

Lemma sim_freed st t c k e sa pend :
  sim st (mk_spec sa pend) -> threads st !! t = Some (c, Freed e) -> call_key c = Some k ->
  exists a', spec_step (mk_spec sa pend) (Lin t) a'
    /\ sim (mk_conc (with_policy (RecordEvict k (policy (shared st))) (shared st))
              (<[t := (c, Unlocking (AFreed (SizeBytes e)))]> (threads st)) (loop st)) a'.
Proof.
  intros Hsim Ht Hk. pose proof (sw_striped _ (sim_wf _ _ Hsim)) as Hsa. simpl in Hsa.
  pose proof (sim_threads _ _ Hsim _ _ _ Ht) as Hok. rewrite !(at_key_Some _ _ _ Hk) in Hok. simpl in Hok.
  destruct Hok as (Hpend & Hc & Ha & k' & ->). injection Hk as ->.
  assert (t = evictor_id) as -> by by eapply (sim_evictor _ _ Hsim).
  destruct (opt_same_Some_r _ _ Ha) as (e' & He' & Hee). pose proof Hee as (_ & _ & _ & _ & _ & Hsz & _).
  eexists. split; [by apply spec_lin|]. pose proof (spec_evict k e' sa Hsa He') as Hstep.
  pose proof (sim_policy _ _ Hsim) as Hp. simpl in Hp.
  eapply (sim_effect st evictor_id _ k _ _ _ None); try done; rewrite ?Hstep; cbn [fst snd].
  - by rewrite Hp.
  - change (stripeFor k sa) with (stripeFor k (demote e' sa)).
    rewrite flat_delete by by apply (striped_ext sa). done.
  - by left.
  - by rewrite Hc.
  - unfold owed. simpl. f_equal. lia.
  - rewrite He'. unfold ahead. simpl. lia.
  - rewrite (sim_spill _ _ Hsim). simpl. unfold spilled. rewrite lookup_insert_eq, Ht. simpl.
    destruct (spill sa); simpl; [|done]. rewrite app_nil_r. f_equal.
    change (mk_spill _ _ _ _ _) with (spill_of e'). by rewrite (same_spill _ _ Hee).
  - simpl. eexists. split; [done|]. simpl. by rewrite Hsz.
Qed.

Lemma sim_chosen st t c k e sa pend :
  sim st (mk_spec sa pend) -> threads st !! t = Some (c, Chosen e) -> call_key c = Some k ->
  sim (mk_conc (demote e (shared st)) (<[t := (c, Spilled e)]> (threads st)) (loop st)) (mk_spec sa pend).
Proof.
  intros Hsim Ht Hk. pose proof (sim_threads _ _ Hsim _ _ _ Ht) as Hok. pose proof Hok as (_ & _ & k' & ->).
  assert (t = evictor_id) as -> by by eapply (sim_evictor _ _ Hsim).
  pose proof (sim_total _ _ Hsim). pose proof (sim_sizes _ _ Hsim).
  eapply (sim_update st _ evictor_id _ (Chosen e)); try done; try apply Hsim; simpl.
  - eapply striped_ext; [|apply Hsim]. done.
  - by left.
  - by right.
  - by right; right.
  - by rewrite Z.add_0_r, Z.sub_0_r.
  - change (flat (demote e (shared st))) with (flat (shared st)). unfold ahead at 2 3. simpl in *. lia.
  - rewrite (sim_spill _ _ Hsim). unfold spilled. rewrite lookup_insert_eq, Ht. simpl.
    destruct (spill sa); simpl; [|done]. by rewrite app_nil_r.
Qed.

(** Every step between the lookup and the unlock. *)
Lemma sim_stage st t c k sg sg' lin s' sa pend :
  sim st (mk_spec sa pend) -> threads st !! t = Some (c, sg) -> call_key c = Some k ->
  stage_step c k sg (shared st) = Some (sg', lin, s') ->
  exists a', spec_step (mk_spec sa pend) (if lin then Lin t else Tau) a'
    /\ sim (mk_conc s' (<[t := (c, sg')]> (threads st)) (loop st)) a'.
Proof.
  intros Hsim Ht Hk. pose proof (sim_threads _ _ Hsim _ _ _ Ht) as Hok.
  assert (Htau : sim (mk_conc s' (<[t := (c, sg')]> (threads st)) (loop st)) (mk_spec sa pend) ->
    exists a', spec_step (mk_spec sa pend) Tau a'
      /\ sim (mk_conc s' (<[t := (c, sg')]> (threads st)) (loop st)) a').
  { intros ?. eexists. split; [apply spec_tau|done]. }
  assert (Hquiet : forall sg2, sg' = sg2 -> s' = with_sig (evictSig s') (shared st) -> dirty sg = false ->
    owed (c, sg2) = owed (c, sg) -> ahead (c, sg2) = ahead (c, sg) -> spilled_by sg2 = spilled_by sg ->
    holding sg = true ->
    thread_ok c sg2 (at_key (flat (shared st)) c) (at_key (flat sa) c) (pend !! t) ->
    exists a', spec_step (mk_spec sa pend) Tau a'
      /\ sim (mk_conc s' (<[t := (c, sg')]> (threads st)) (loop st)) a').
  { intros sg2 -> ? ? ? ? ? ? ?. apply Htau. eapply (sim_quiet st (mk_spec sa pend)); try done. by left. }
  destruct sg; simpl; try done; intros Heq; simplify_eq.
  - by eapply sim_locked.
  - by eapply sim_published.
  - apply Htau. eapply (sim_add st (mk_spec sa pend) t c (Recorded delta v)); try done.
  - apply (Hquiet _ eq_refl); try done; [by destruct (shared st)|by case_match..].
  - apply (Hquiet _ eq_refl); try done; [by destruct (shared st)|case_match; [done|simpl; eauto]..].
  - apply (Hquiet _ eq_refl); try done. simpl. eauto.
  - apply Htau. eapply sim_touch; eauto using count_access_same.
  - apply Htau. eapply sim_touch; eauto using stamp_access_same.
  - by eapply sim_stamped.
  - by eapply sim_removed.
  - apply Htau. rewrite <- Z.add_opp_r. eapply (sim_add st (mk_spec sa pend) t c (Forgotten e)); try done.
    destruct Hok as [Hpend _]. simpl. eauto.
  - apply Htau. by eapply sim_chosen.
  - apply Htau. destruct Hok as (Hpend & Hc & k' & ->). injection Hk as ->.
    pose proof (sim_striped _ _ Hsim) as Hs.
    pose proof (sim_same _ _ _ _ _ _ Hsim Ht eq_refl eq_refl eq_refl) as Hsame.
    unfold at_key in Hc. simpl in Hsame, Hc.
    eapply (sim_write _ _ _ _ k _ _ _ None); try done; auto.
    + by apply striped_delete.
    + unfold with_stripe. by rewrite flat_delete.
    + rewrite (osize_same _ _ Hc). unfold ahead. simpl. lia.
    + simpl. split_and!; try done; [by rewrite <- Hsame|by exists k].
  - apply Htau. rewrite <- Z.add_opp_r. eapply (sim_add st (mk_spec sa pend) t c (Dropped e)); try done.
    unfold owed. simpl. lia.
  - by eapply sim_freed.
Qed.

(** A call without a stripe: [Victim], or an early return. *)
Lemma sim_unlocked st t c sa pend :
  sim st (mk_spec sa pend) -> threads st !! t = Some (c, Started) -> call_key c = None ->
  let '(ans, s') := store_step c (shared st) in
  exists a', spec_step (mk_spec sa pend) (Lin t) a'
    /\ sim (mk_conc s' (<[t := (c, Returning ans)]> (threads st)) (loop st)) a'.
Proof.
  intros Hsim Ht Hk. pose proof (sim_threads _ _ Hsim _ _ _ Ht) as Hpend. simpl in Hpend.
  assert (Hsame : (store_step c (shared st)).1 = (store_step c sa).1
    /\ exists p', policy (store_step c sa).2 = p' /\ (store_step c (shared st)).2 = with_policy p' (shared st)
      /\ (store_step c sa).2 = with_policy p' sa).
  { pose proof (sim_policy _ _ Hsim) as Hp. simpl in Hp.
    destruct c as [now model h|model h|now h [e|]|now h [e|] v|model h|o|k]; simpl in Hk; try done; simpl.
    - split; [done|]. exists (policy sa). split_and!; [done|rewrite <- Hp; by destruct (shared st)|by destruct sa].
    - destruct (Z.eqb_spec v 0) as [->|]; [|done]. simpl.
      split; [done|]. exists (policy sa). split_and!; [done|rewrite <- Hp; by destruct (shared st)|by destruct sa].
    - split; [done|]. exists (policy sa). split_and!; [done|rewrite <- Hp; by destruct (shared st)|by destruct sa].
    - unfold ask_victim. rewrite Hp. destruct (Victim o (policy sa)) as [vic p']; simpl. eauto. }
  destruct Hsame as (Hans & p' & Hp' & Hc & Ha). destruct (store_step c (shared st)) as [ans s']; simpl in *.
  subst ans s'. eexists. split; [by apply spec_lin|].
  pose proof (sim_wf _ _ Hsim) as Hwf. pose proof (sim_tracks _ _ Hsim) as Htr.
  pose proof (sim_total _ _ Hsim). pose proof (sim_sizes _ _ Hsim).
  assert (Hf : flat (store_step c sa).2 = flat sa) by (rewrite Ha; done).
  eapply (sim_update st _ t c Started); simpl; rewrite ?Hf; try done;
    change (flat (with_policy p' (shared st))) with (flat (shared st)); try done.
  - eapply striped_ext; [|apply Hsim]. done.
  - by apply store_wf_step.
  - apply store_tracks_step; [apply Hwf|done].
  - destruct (store_step_marks c sa) as [-> ->]. apply (sim_marks _ _ Hsim).
  - apply (sim_range _ _ Hsim).
  - intros t' Hne. by rewrite lookup_insert_ne.
  - by right.
  - by right; right.
  - rewrite lookup_insert_eq. eexists. split; [done|]. destruct (store_step c sa).1 as [e| | | |]; try done.
    simpl. reflexivity.
  - rewrite Ha. simpl in *. by rewrite Z.add_0_r, Z.sub_0_r.
  - unfold ahead at 2 3. simpl in *. lia.
  - rewrite (spilled_insert _ _ _ Started) by done. rewrite Ha. apply (sim_spill _ _ Hsim).
Qed.

(** The call returns. *)
Lemma sim_return st t c ans l' sa pend :
  sim st (mk_spec sa pend) -> threads st !! t = Some (c, Returning ans) ->
  (t <> evictor_id -> l' = loop st) ->
  sim (mk_conc (shared st) (delete t (threads st)) l') (mk_spec sa (delete t pend)).
Proof.
  intros Hsim Ht Hl. pose proof (sim_total _ _ Hsim) as H1. pose proof (sim_sizes _ _ Hsim) as H2. simpl in H1, H2.
  split; cbn [shared threads loop sp_store sp_pend]; try apply Hsim.
  - intros t' c' sg' [_ Ht']%lookup_delete_Some. by apply (sim_keyed _ _ Hsim t').
  - intros t1 t2 c1 c2 sg1 sg2 k1 k2 Hne [_ E1]%lookup_delete_Some [_ E2]%lookup_delete_Some.
    by apply (sim_locks _ _ Hsim t1 t2).
  - intros k. destruct (sim_map _ _ Hsim k) as [(t' & c' & sg' & Ht' & Hk & Hd)|]; [left|by right].
    exists t', c', sg'. rewrite lookup_delete_ne; [done|]. intros <-. by rewrite Ht in Ht'; simplify_eq.
  - intros t' c' sg' [Hne Ht']%lookup_delete_Some. rewrite lookup_delete_ne by done.
    by apply (sim_threads _ _ Hsim).
  - intros t' Hn. destruct (decide (t' = t)) as [->|Hne]; [apply lookup_delete_eq|].
    rewrite lookup_delete_ne in Hn by done. rewrite lookup_delete_ne by done. by apply (sim_idle _ _ Hsim).
  - rewrite (map_sum_delete _ _ _ _ Ht), H1. f_equal. unfold owed at 3. simpl. lia.
  - rewrite (map_sum_delete _ _ _ _ Ht), H2. unfold ahead at 3. simpl. lia.
  - rewrite (sim_spill _ _ Hsim). f_equal. unfold spilled. destruct (decide (t = evictor_id)) as [->|Hne].
    + by rewrite lookup_delete_eq, Ht.
    + by rewrite lookup_delete_ne.
  - intros t' c' sg' [_ Ht']%lookup_delete_Some. by apply (sim_evictor _ _ Hsim _ _ _ Ht').
  - intros Hin. destruct (decide (t = evictor_id)) as [->|Hne]; [apply lookup_delete_eq|].
    rewrite lookup_delete_ne by done. rewrite Hl in Hin by done. by apply (sim_loop _ _ Hsim).
Qed.

Lemma sim_thread st t l st' sa pend :
  sim st (mk_spec sa pend) -> tstep t st = Some (l, st') ->
  exists a', spec_step (mk_spec sa pend) l a' /\ sim st' a'.
Proof.
  intros Hsim. unfold tstep. destruct (threads st !! t) as [[c sg]|] eqn:Ht; [|done]. simpl.
  pose proof (sim_threads _ _ Hsim _ _ _ Ht) as Hok. simpl in Hok.
  assert (sg = Started \/ sg <> Started) as [->|Hns] by (destruct sg; auto).
  - destruct (call_key c) as [k|] eqn:Hk.
    + destruct (lock_free k (exclusive c) (threads st)) eqn:Hf; [|done]. intros [= <- <-].
      eexists. split; [apply spec_tau|]. eapply (sim_quiet st (mk_spec sa pend)); try done.
      * by destruct (shared st).
      * intros _. right. by exists k.
    + pose proof (sim_unlocked st t c sa pend Hsim Ht Hk) as Hu.
      destruct (store_step c (shared st)) as [ans s']. by intros [= <- <-].
  - assert (Hst : forall k, call_key c = Some k ->
      ('(sg', lin, s) ← stage_step c k sg (shared st);
       Some (if lin : bool then Lin t else Tau, mk_conc s (<[t := (c, sg')]> (threads st)) (loop st)))
      = Some (l, st') -> exists a', spec_step (mk_spec sa pend) l a' /\ sim st' a').
    { intros k Hk. destruct (stage_step c k sg (shared st)) as [[[sg' lin] s]|] eqn:Hs; [|done].
      intros [= <- <-]. by eapply sim_stage. }
    destruct sg; try done; try (destruct (call_key c) as [k|]; [by apply (Hst k)|done]).
    + intros [= <- <-]. eexists. split; [apply spec_tau|]. eapply (sim_quiet st (mk_spec sa pend)); try done.
      by destruct (shared st).
    + intros [= <- <-]. destruct Hok as (a' & Hpend & Heq). eexists. split; [by eapply spec_res|].
      eapply sim_return; try done. intros Hne. by rewrite decide_False.
Qed.

(** *** The rest of the system *)

Lemma sim_call st t c l' sa pend :
  sim st (mk_spec sa pend) -> threads st !! t = None -> (client_call c = false -> t = evictor_id) ->
  (ev_in_call l' = false -> loop st = l' /\ t <> evictor_id) ->
  sim (mk_conc (shared st) (<[t := (c, Started)]> (threads st)) l')
    (mk_spec sa (<[t := Waiting c]> pend)).
Proof.
  intros Hsim Ht Hc Hl. pose proof (sim_total _ _ Hsim) as H1. pose proof (sim_sizes _ _ Hsim) as H2. simpl in H1, H2.
  split; cbn [shared threads loop sp_store sp_pend]; try apply Hsim.
  - intros t' c' sg' [[<- [= <- <-]]|[_ Ht']]%lookup_insert_Some; [done|]. by apply (sim_keyed _ _ Hsim t').
  - intros t1 t2 c1 c2 sg1 sg2 k1 k2 Hne [[_ [= <- <-]]|[_ E1]]%lookup_insert_Some
      [[_ [= <- <-]]|[_ E2]]%lookup_insert_Some; try done. by apply (sim_locks _ _ Hsim t1 t2).
  - intros k. destruct (sim_map _ _ Hsim k) as [(t' & c' & sg' & Ht' & Hk & Hd)|]; [left|by right].
    exists t', c', sg'. rewrite lookup_insert_ne; [done|]. intros <-. congruence.
  - intros t' c' sg' [[<- [= <- <-]]|[Hne Ht']]%lookup_insert_Some; [by rewrite lookup_insert_eq|].
    rewrite lookup_insert_ne by done. by apply (sim_threads _ _ Hsim).
  - intros t' [Hn Hne]%lookup_insert_None. rewrite lookup_insert_ne by done. by apply (sim_idle _ _ Hsim).
  - rewrite (map_sum_insert_None _ _ _ _ Ht), H1. done.
  - rewrite (map_sum_insert_None _ _ _ _ Ht), H2. done.
  - rewrite (sim_spill _ _ Hsim). f_equal. unfold spilled. destruct (decide (t = evictor_id)) as [->|Hne].
    + by rewrite lookup_insert_eq, Ht.
    + by rewrite lookup_insert_ne.
  - intros t' c' sg' [[<- [= <- <-]]|[Hne Ht']]%lookup_insert_Some; [done|].
    by apply (sim_evictor _ _ Hsim _ _ _ Ht').
  - intros Hin. destruct (Hl Hin) as [<- Hne]. rewrite lookup_insert_ne by done. by apply (sim_loop _ _ Hsim).
Qed.

Lemma sim_loop_step st s' l' a :
  sim st a -> s' = with_sig (evictSig s') (shared st) -> ev_in_call (loop st) = false ->
  sim (mk_conc s' (threads st) l') a.
Proof.
  intros Hsim Hs Hin. assert (Hf : flat s' = flat (shared st)) by by rewrite Hs.
  split; cbn [shared threads loop]; rewrite ?Hf; try apply Hsim; try (rewrite Hs; apply Hsim).
  - rewrite Hs. eapply striped_ext; [|apply Hsim]. done.
  - intros _. by apply (sim_loop _ _ Hsim).
Qed.

Lemma sim_step st a l st' : sim st a -> conc_step st l st' -> exists a', spec_step a l a' /\ sim st' a'.
Proof.
  intros Hsim Hstep. destruct a as [sa pend].
  assert (Hcall : forall c l', ev_in_call (loop st) = false -> ev_in_call l' = true ->
    exists a', spec_step (mk_spec sa pend) (Inv evictor_id c) a' /\ sim (ev_call c l' st) a').
  { intros c l' H1 H2. pose proof (sim_loop _ _ Hsim H1) as Hn.
    eexists. split; [apply spec_inv, (sim_idle _ _ Hsim _ Hn)|]. apply sim_call; try done. congruence. }
  assert (Htau : forall s' l', s' = with_sig (evictSig s') (shared st) -> ev_in_call (loop st) = false ->
    exists a', spec_step (mk_spec sa pend) Tau a' /\ sim (mk_conc s' (threads st) l') a').
  { intros s' l' H1 H2. eexists. split; [apply spec_tau|]. by apply sim_loop_step. }
  assert (Hid : shared st = with_sig (evictSig (shared st)) (shared st)) by by destruct (shared st).
  inversion Hstep; subst; try (by apply Htau; rewrite ?H1); try (by apply Hcall; rewrite ?H1).
  - eexists. split; [apply spec_inv, (sim_idle _ _ Hsim _ H3)|]. apply sim_call; try done. congruence.
  - by eapply sim_thread.
Qed.

Definition conc_init s : Conc P := mk_conc s ∅ EvSelect.

Lemma sim_init (p : P) opts :
  pol_inv p -> tracked p = ∅ -> sim (conc_init (NewStore p opts)) (mk_spec (NewStore p opts) ∅).
Proof.
  intros Hp Ht. pose proof (store_wf_new p opts) as Hwf.
  split; simpl; try done.
  - apply Hwf.
  - by apply store_tracks_new.
  - rewrite (sw_total _ Hwf). apply i64_range.
  - right. reflexivity.
  - rewrite map_sum_empty, Z.add_0_r. rewrite (sw_total _ Hwf) at 2. rewrite i64_idem. apply Hwf.
  - rewrite map_sum_empty. lia.
  - unfold spilled. rewrite lookup_empty. destruct (spill _); simpl; [by rewrite app_nil_r|done].
Qed.

Lemma sim_run ok s0 h st :
  sim (conc_init s0) (mk_spec s0 ∅) -> conc_run ok (conc_init s0) h st ->
  exists a, spec_run (mk_spec s0 ∅) h a /\ sim st a.
Proof.
  intros Hs0 Hr. induction Hr as [|h l st st' Hr (a & Ha & Hsim) Hstep _].
  - eexists. split; [apply spec_nil|done].
  - destruct (sim_step _ _ _ _ Hsim Hstep) as (a' & Ha' & Hsim'). exists a'. split; [by eapply spec_snoc|done].
Qed.

End simulation.

(** ** Properties *)

(** The two stores agree: policy, byte total and spills, and the maps up to the
    access bookkeeping of their entries. *)
Definition stores_agree {P} (s s' : Store P) : Prop :=
  policy s = policy s' /\ totalBytes s = totalBytes s' /\ spill s = spill s'
  /\ forall k, opt_same (flat s !! k) (flat s' !! k).

Lemma sim_quiescent {P} `{PolicyLaws P} (st : Conc P) (a : Spec P) : sim st a -> threads st = ∅ -> stores_agree (shared st) (sp_store a).
Proof.
  intros Hsim Hq. split_and!.
  - apply (sim_policy _ _ Hsim).
  - rewrite (sim_total _ _ Hsim), Hq, map_sum_empty, Z.add_0_r, i64_small; [done|apply (sim_range _ _ Hsim)].
  - rewrite (sim_spill _ _ Hsim), Hq. unfold spilled. rewrite lookup_empty.
    destruct (spill (sp_store a)); simpl; [by rewrite app_nil_r|done].
  - intros k. destruct (sim_map _ _ Hsim k) as [(t & c & sg & Ht & _)|]; [|done]. by rewrite Hq, lookup_empty in Ht.
Qed.

Section properties.
Context {P : Type} `{PolicyLaws P} (p : P) (opts : list StoreOption).
Hypothesis p_inv : pol_inv p.
Hypothesis p_empty : tracked p = ∅.

Let s0 : Store P := NewStore p opts.
Let Hsim0 : sim (conc_init s0) (mk_spec s0 ∅) := sim_init p opts p_inv p_empty.

(** C3. The store is linearizable: however the steps of its goroutines and of the
    evictor interleave, the history of calls and answers is one of an object
    that performs each call atomically ([store_step]) between its begin and its
    return, and whenever no call is in flight the two stores agree. *)
Theorem linearizable h st :
  conc_run (fun _ => True) (conc_init s0) h st ->
  exists a, spec_run (mk_spec s0 ∅) h a /\ (threads st = ∅ -> stores_agree (shared st) (sp_store a)).
Proof.
  intros Hr. destruct (sim_run _ _ _ _ Hsim0 Hr) as (a & Ha & Hsim).
  exists a. split; [done|]. by apply sim_quiescent.
Qed.

(** C33. Whatever interleaved before, when no call is in flight the shard is well
    formed: every key sits in its stripe, every entry under its own key with its
    own size, the atomic byte total is the sum of the resident blocks, and the
    policy tracks exactly the resident keys. *)
Theorem quiescent_exact h st :
  conc_run (fun _ => True) (conc_init s0) h st -> threads st = ∅ ->
  store_wf (shared st) /\ store_tracks (shared st).
Proof.
  intros Hr Hq. destruct (sim_run _ _ _ _ Hsim0 Hr) as (a & _ & Hsim).
  destruct (sim_quiescent st a Hsim Hq) as (Hp & Ht & _ & Hm).
  pose proof (sim_wf _ _ Hsim) as [Hs He Htot]. pose proof (sim_tracks _ _ Hsim) as [Hi Htr].
  pose proof (sim_sizes _ _ Hsim) as Hsz. rewrite Hq, map_sum_empty, Z.add_0_r in Hsz.
  split; [split|split].
  - apply (sim_striped _ _ Hsim).
  - intros k e Hk. specialize (Hm k). rewrite Hk in Hm.
    destruct (opt_same_Some_l _ _ Hm) as (e' & Hk' & (_ & H2' & H3' & H4' & _ & H6' & _)).
    destruct (He k e' Hk') as [Hkey Hsize]. split; congruence.
  - by rewrite Ht, Htot, Hsz.
  - by rewrite Hp.
  - rewrite Hp, Htr. apply set_eq. intros k. rewrite !elem_of_dom. specialize (Hm k).
    destruct Hm; [|done]. split; eauto.
Qed.

End properties.

(** *** Witnesses: two writers of one key and a reader, interleaved by hand *)

Section schedules.
Context {P : Type} `{PolicyLaws P}.
Implicit Types (st : Conc P).

(** The evictor's next move outside its calls, on a nudge and with an order [o]. *)
Definition ev_move (o : MapOrder) st : option (label * Conc P) :=
  match loop st with
  | EvSelect =>
      if evictSig (shared st) then Some (Tau, mk_conc (with_sig false (shared st)) (threads st) EvTotal) else None
  | EvTotal => Some (Tau, with_loop (if over_low (shared st) then EvVictim else EvQuota) st)
  | EvQuota => Some (Tau, with_loop (if over_quota (policy (shared st)) then EvVictim else EvSelect) st)
  | EvVictim => Some (Inv evictor_id (CAsk o), ev_call (CAsk o) EvAsked st)
  | EvEvict k => Some (Inv evictor_id (CEvict k), ev_call (CEvict k) EvEvicting st)
  | _ => None
  end.

Lemma ev_move_step o st l st' : ev_move o st = Some (l, st') -> conc_step st l st'.
Proof.
  unfold ev_move. destruct (loop st) eqn:Hl; try done.
  - destruct (evictSig (shared st)) eqn:Hs; [|done]. intros [= <- <-]. by apply step_nudge.
  - intros [= <- <-]. by apply step_total.
  - intros [= <- <-]. by apply step_quota.
  - intros [= <- <-]. by apply step_victim.
  - intros [= <- <-]. by apply step_evict.
Qed.

(** Let the named calls, or for [None] the evictor, move in turn, through states
    that pass [okb]. *)
Fixpoint play (okb : Conc P -> bool) (ts : list (option nat)) st : option (list label * Conc P) :=
  match ts with
  | [] => Some ([], st)
  | t :: ts =>
      '(l, st1) ← match t with Some t => tstep t st | None => ev_move [] st end;
      if okb st1 then '(h, st2) ← play okb ts st1; Some (l :: h, st2) else None
  end.

Lemma play_run (ok : Conc P -> Prop) okb ts st0 h st h' st' :
  (forall st, okb st = true -> ok st) -> (forall t st, legal_order t st) ->
  conc_run ok st0 h st -> play okb ts st = Some (h', st') -> conc_run ok st0 (h ++ h') st'.
Proof.
  intros Hok Hord. revert h st h'. induction ts as [|t ts IH]; intros h st h' Hr Hp; simpl in Hp.
  - simplify_eq. by rewrite app_nil_r.
  - destruct (match t with Some t => _ | None => _ end) as [[l st1]|] eqn:Hs; simpl in Hp; [|done].
    destruct (okb st1) eqn:Ho; [|done]. destruct (play okb ts st1) as [[h2 st2]|] eqn:Hp2; simpl in Hp; [|done].
    simplify_eq. rewrite (cons_middle l h h2), app_assoc. apply (IH _ st1); [|done].
    eapply run_snoc; [done| |by apply Hok].
    destruct t as [t|]; [by apply (step_thread t)|by eapply ev_move_step].
Qed.

End schedules.

Definition w_entry' : Entry := mk_entry [3]%Z [x09; x0a] "n" hash32_zero 0 0 "u" f64_1 0 0 0.

Definition begin {P} (t : nat) (c : store_call) (st : Conc P) : Conc P :=
  mk_conc (shared st) (<[t := (c, Started)]> (threads st)) (loop st).

(** Two writes of different models step by step against each other, then a read. *)
Definition w_begin (s : Store LRUPolicy) : Conc LRUPolicy :=
  begin 2 (CGet 9 "n" hash32_zero)
    (begin 3 (CPut 6 hash32_zero (Some w_entry')) (begin 1 (CPut 5 hash32_zero (Some w_entry)) (conc_init s))).
Definition w_order : list (option nat) := Some <$> [1; 3; 1; 3; 3; 1; 1; 3; 1; 3; 1; 3; 1; 3; 1; 3; 2; 2; 2; 2; 2; 2; 2].
Definition w_new : Store LRUPolicy := NewStore NewLRU [WithSpiller].

Lemma begin_run (ok : Conc LRUPolicy -> Prop) st0 h t c st :
  t <> evictor_id -> client_call c = true -> threads st !! t = None -> ok (begin t c st) ->
  conc_run ok st0 h st -> conc_run ok st0 (h ++ [Inv t c]) (begin t c st).
Proof. intros Ht Hc Hn Hok Hr. by eapply run_snoc; [|apply step_call|]. Qed.

Definition w_writers (s : Store LRUPolicy) : Conc LRUPolicy :=
  begin 3 (CPut 6 hash32_zero (Some w_entry')) (begin 1 (CPut 5 hash32_zero (Some w_entry)) (conc_init s)).

Lemma w_writers_run (s : Store LRUPolicy) :
  conc_run (fun _ => True) (conc_init s)
    [Inv 1 (CPut 5 hash32_zero (Some w_entry)); Inv 3 (CPut 6 hash32_zero (Some w_entry'))] (w_writers s).
Proof.
  apply (begin_run _ _ [_]); try done. apply (begin_run _ _ []); try done. by apply run_nil.
Qed.

Lemma w_begin_run (s : Store LRUPolicy) :
  conc_run (fun _ => True) (conc_init s)
    [Inv 1 (CPut 5 hash32_zero (Some w_entry)); Inv 3 (CPut 6 hash32_zero (Some w_entry'));
     Inv 2 (CGet 9 "n" hash32_zero)] (w_begin s).
Proof. apply (begin_run _ _ [_; _]); try done. apply w_writers_run. Qed.

Lemma lru_legal t (st : Conc LRUPolicy) : legal_order t st.
Proof. by intros o _. Qed.

Lemma w_played :
  exists h st, play (fun _ => true) w_order (w_begin w_new) = Some (h, st) /\ threads st = ∅
    /\ conc_run (fun _ => True) (conc_init w_new)
         ([Inv 1 (CPut 5 hash32_zero (Some w_entry)); Inv 3 (CPut 6 hash32_zero (Some w_entry'));
           Inv 2 (CGet 9 "n" hash32_zero)] ++ h) st.
Proof.
  assert (Hq : (fun r => threads r.2) <$> play (fun _ => true) w_order (w_begin w_new) = Some ∅)
    by (vm_compute; reflexivity).
  destruct (play _ w_order (w_begin w_new)) as [[h st]|] eqn:E; [|discriminate Hq].
  injection Hq as Hq. exists h, st. split; [reflexivity|]. split; [exact Hq|].
  eapply play_run; [done|apply lru_legal|apply w_begin_run|exact E].
Qed.

Lemma linearizable_witness :
  exists h st a, threads st = ∅ /\ length h = 26 /\ spec_run (mk_spec w_new ∅) h a
    /\ stores_agree (shared st) (sp_store a).
Proof.
  destruct w_played as (h & st & E & Hq & Hr).
  destruct (@linearizable LRUPolicy lru_policy lru_laws NewLRU [WithSpiller] lru_inv_new eq_refl _ st Hr)
    as (a & Ha & Hag).
  eexists _, st, a. split_and!; [exact Hq| |exact Ha|exact (Hag Hq)].
  assert (Hl : (fun r => length r.1) <$> play (fun _ => true) w_order (w_begin w_new) = Some 23)
    by (vm_compute; reflexivity).
  rewrite E in Hl. injection Hl as Hl. rewrite length_app. simpl in *. by rewrite Hl.
Defined.

Lemma quiescent_exact_witness : exists st : Conc LRUPolicy, store_wf (shared st) /\ store_tracks (shared st).
Proof.
  destruct w_played as (h & st & _ & Hq & Hr). exists st.
  exact (@quiescent_exact LRUPolicy lru_policy lru_laws NewLRU [WithSpiller] lru_inv_new eq_refl _ st Hr Hq).
Defined.
