(* ===== verification/Wakeup.v ===== *)
(** What the goroutines inside the store and the evictor owe each other: no nudge
    is lost ([no_lost_wakeup]) and no call waits for ever ([calls_finish]), over
    the steps of Concurrent and the simulation of Linearize. *)

From S2P Require Import Prelude Bytes Float64 Policy Lru Store Concurrent Linearize.

(** ** No wake-up is lost *)

(** The bytes a call keeps alive beside the map. *)
Definition held (th : store_call * stage) : Z :=
  match th.2 with
  | Published _ prevSize _ => prevSize
  | Removed e | Forgotten e | Dropped e => SizeBytes e
  | _ => 0
  end%Z.

(** What a call has changed in the map and will still change in the total. *)
Definition rest (th : store_call * stage) : Z :=
  match th.2 with
  | Published stored prevSize _ => prevSize - SizeBytes stored
  | Removed e | Dropped e => SizeBytes e
  | _ => 0
  end%Z.

(** A writer that has moved the total and will look at it, or send. *)
Definition window (sg : stage) : bool :=
  match sg with Recorded _ _ | Added _ | Nudging _ => true | _ => false end.
Definition quota_window (sg : stage) : bool :=
  match sg with AskQuota _ => true | sg => window sg end.

Definition is_recorded (sg : stage) : bool := match sg with Recorded _ _ => true | _ => false end.

(** The evictor will load the total again. *)
Definition ev_awake (l : ev_at) (th : option (store_call * stage)) : bool :=
  match l, th with
  | EvTotal, _ | EvVictim, _ | EvEvict _, _ | EvEvicting, _ | EvStopped, _ => true
  | EvAsked, Some (CAsk _, Started) | EvAsked, Some (CAsk _, Returning (AVictim (Some _))) => true
  | _, _ => false
  end.

Section wake.
Context {P : Type} `{QuotaLaws P}.
Implicit Types (s : Store P) (st : Conc P) (a : Spec P).

(** The bytes of the blocks in the map and in the hands of a call. *)
Definition resident st : Z := map_sum SizeBytes (flat (shared st)) + map_sum held (threads st).
Definition fits st : Prop := (resident st < 2 ^ 63)%Z /\ pol_fits (policy (shared st)).

Definition counted st : Z := map_sum SizeBytes (flat (shared st)) + map_sum rest (threads st).

Definition in_window (w : stage -> bool) st : Prop :=
  exists t c sg, threads st !! t = Some (c, sg) /\ w sg = true.

Definition awake st : Prop :=
  evictSig (shared st) = true \/ ev_awake (loop st) (threads st !! evictor_id) = true.

Definition pressed st : Prop := (0 < maxBytes (shared st) /\ hiWater (shared st) <= counted st)%Z.

Record wake st : Prop := mk_wake {
  wake_marks : (0 <= loWater (shared st) < hiWater (shared st))%Z;
  wake_total : pressed st -> awake st \/ in_window window st;
  wake_quota :
    over_quota (policy (shared st)) = true -> awake st \/ loop st = EvQuota \/ in_window quota_window st;
}.

Lemma thread_size st a t c e sg :
  sim st a -> threads st !! t = Some (c, sg) ->
  sg = Removed e \/ sg = Dropped e \/ sg = Freed e \/ sg = Forgotten e -> (0 <= SizeBytes e)%Z.
Proof.
  intros Hsim Ht Hsg. pose proof (sim_threads _ _ Hsim _ _ _ Ht) as Hok.
  assert (Hnn : opt_same (at_key (flat (sp_store a)) c) (Some e) -> (0 <= SizeBytes e)%Z).
  { intros (e' & He' & _ & _ & _ & _ & _ & <- & _)%opt_same_Some_r.
    apply bind_Some in He' as (k & _ & Hk). by eapply size_nonneg; [apply (sim_wf _ _ Hsim)|]. }
  destruct Hsg as [->|[->|[->| ->]]]; simpl in Hok; [naive_solver..|]. apply Hok.
Qed.

Lemma stored_nonneg c o stored prevSize v : write_plan c o = Some (stored, prevSize, v) -> (0 <= SizeBytes stored)%Z.
Proof.
  destruct c as [| |? ? [?|]|? ? [?|] ?| | |], o; simpl; try done; repeat case_match; try done;
    intros [= <- _ _]; simpl; lia.
Qed.

(** The part of [held] that has taken effect. *)
Definition late (th : store_call * stage) : Z := match th.2 with Forgotten e => SizeBytes e | _ => 0 end.

(** With no write between policy and total, the total the goroutines load is at
    least what is counted. *)
Lemma counted_loaded st a :
  sim st a -> fits st -> ~ in_window is_recorded st -> (0 <= counted st)%Z -> (counted st <= totalBytes (shared st))%Z.
Proof.
  intros Hsim [Hfits _] Hw Hc.
  pose proof (sim_total _ _ Hsim) as Htot. pose proof (sim_sizes _ _ Hsim) as Hsz.
  rewrite (sw_total _ (sim_wf _ _ Hsim)), Hsz in Htot.
  assert (Ho : map_sum ahead (threads st)
    = (map_sum owed (threads st) + (map_sum rest (threads st) + map_sum late (threads st)))%Z).
  { rewrite <- !map_sum_plus. apply Z.le_antisymm; apply map_sum_le; intros t [c sg] Ht;
      (destruct sg; unfold ahead, owed, rest, late; simpl; try lia; exfalso; apply Hw; by eexists t, c, _). }
  assert (Hl : (0 <= map_sum late (threads st))%Z).
  { apply map_sum_nonneg. intros t [c sg] Ht. unfold late. simpl. destruct sg; try lia.
    eapply thread_size; eauto. }
  assert (Hh : (map_sum rest (threads st) + map_sum late (threads st) <= map_sum held (threads st))%Z).
  { rewrite <- map_sum_plus. apply map_sum_le. intros t [c sg] Ht.
    destruct sg; unfold rest, late, held; simpl; try lia.
    pose proof (sim_threads _ _ Hsim _ _ _ Ht) as (_ & _ & Hplan). apply stored_nonneg in Hplan. lia. }
  rewrite Ho in Htot. unfold resident, counted in *.
  apply (f_equal (fun z => i64 (z - map_sum owed (threads st)))) in Htot.
  rewrite <- !Z.add_opp_r, !i64_add_l, !Z.add_opp_r, Z.add_simpl_r in Htot.
  rewrite (i64_small (totalBytes _)) in Htot by apply (sim_range _ _ Hsim).
  rewrite <- Htot, i64_small by (unfold in_i64; lia). lia.
Qed.

(** An empty shard counts nothing. *)
Lemma counted_empty st a o :
  sim st a -> flat (sp_store a) = ∅ -> threads st !! evictor_id = Some (CAsk o, Started) ->
  (counted st <= 0)%Z.
Proof.
  intros Hsim He Ht. pose proof (sim_sizes _ _ Hsim) as Hsz. rewrite He, map_sum_empty in Hsz.
  enough (map_sum rest (threads st) <= map_sum ahead (threads st))%Z by (unfold counted; lia).
  apply map_sum_le. intros t [c sg] Hts. destruct sg; unfold rest, ahead; simpl; try lia.
  eapply (thread_size st a t c e); eauto.
Qed.

(** Sizes over the goroutines after one of them moved. *)
Lemma threads_sum f st t c sg sg' :
  threads st !! t = Some (c, sg) ->
  map_sum f (<[t := (c, sg')]> (threads st)) = (map_sum f (threads st) + f (c, sg') - f (c, sg))%Z.
Proof. apply map_sum_insert_Some. Qed.

(** The lookup leaves what is counted as it is. *)
Lemma locked_counted st c k sg' lin s' :
  striped (shared st) -> call_key c = Some k -> locked_step c k (shared st) = (sg', lin, s') ->
  (map_sum SizeBytes (flat s') + rest (c, sg') = map_sum SizeBytes (flat (shared st)))%Z
  /\ policy s' = policy (shared st) /\ evictSig s' = evictSig (shared st).
Proof.
  intros Hs Hk. unfold locked_step. rewrite <- flat_lookup by done. set (m := flat (shared st)).
  assert (Hset : forall e, map_sum SizeBytes (<[k := e]> m) = (map_sum SizeBytes m + SizeBytes e - osize (m !! k))%Z)
    by exact (fun e => map_sum_partial m k (Some e)).
  assert (Hdel : map_sum SizeBytes (delete k m) = (map_sum SizeBytes m + 0 - osize (m !! k))%Z)
    by exact (map_sum_partial m k None).
  assert (Hput : forall stored prevSize v, write_plan c (m !! k) = Some (stored, prevSize, v) ->
    prevSize = osize (m !! k)).
  { intros stored prevSize v. clear. destruct c as [| |? ? [?|]|? ? [?|] ?| | |], (m !! k); simpl; try done;
      repeat case_match; naive_solver. }
  assert (Hkeep : forall sg2, rest (c, sg2) = 0%Z ->
    (map_sum SizeBytes m + rest (c, sg2) = map_sum SizeBytes m)%Z) by lia.
  assert (Hwrite : forall x,
    match write_plan c (m !! k) with
    | Some (stored, prevSize, v) =>
        (Published stored prevSize v, false, with_stripe k (<[k := stored]> (stripeFor k (shared st))) (shared st))
    | None => (Unlocking x, true, shared st)
    end = (sg', lin, s') ->
    (map_sum SizeBytes (flat s') + rest (c, sg') = map_sum SizeBytes m)%Z
    /\ policy s' = policy (shared st) /\ evictSig s' = evictSig (shared st)).
  { intros x. destruct (write_plan c (m !! k)) as [[[stored prevSize] v]|]; intros [= <- <- <-];
      (split_and!; [|done..]); [|by apply Hkeep].
    unfold with_stripe. rewrite flat_insert, Hset, (Hput stored prevSize v) by done. unfold rest. simpl. lia. }
  destruct c as [now model h|model h|now h e|now h e v|model h|o|k']; try done;
    destruct (m !! k) as [e0|] eqn:He; try exact (Hwrite _);
    try case_decide; intros [= <- <- <-]; (split_and!; [|done..]); try by apply Hkeep.
  unfold with_stripe. rewrite flat_delete by done. fold m. rewrite Hdel. unfold rest. simpl. lia.
Qed.

(** What one step of a goroutine does to the count, the policy and the signal. *)
Lemma stage_counted st a t c k sg sg' lin s' :
  sim st a -> fits st -> threads st !! t = Some (c, sg) -> call_key c = Some k ->
  stage_step c k sg (shared st) = Some (sg', lin, s') ->
  (window sg' = true \/ map_sum SizeBytes (flat s') + rest (c, sg') <= map_sum SizeBytes (flat (shared st)) + rest (c, sg))%Z
  /\ (window sg' = true \/ (over_quota (policy s') = true -> over_quota (policy (shared st)) = true))
  /\ (evictSig (shared st) = true -> evictSig s' = true).
Proof.
  intros Hsim Hfits Ht Hk. pose proof (sim_striped _ _ Hsim) as Hs.
  assert (Hinv : pol_inv (policy (shared st))) by (rewrite (sim_policy _ _ Hsim); apply (sim_tracks _ _ Hsim)).
  assert (Halter : forall f : Entry -> Entry, (forall e, same_value (f e) e) ->
    map_sum SizeBytes (flat (with_stripe k (alter f k (stripeFor k (shared st))) (shared st)))
    = map_sum SizeBytes (flat (shared st))).
  { intros f Hf. unfold with_stripe. rewrite flat_update, map_sum_partial, lookup_alter_eq, <- flat_lookup; try done.
    - destruct (flat (shared st) !! k) as [e|]; simpl; [|lia]. destruct (Hf e) as (_ & _ & _ & _ & _ & -> & _). lia.
    - intros k'. rewrite lookup_alter_is_Some. by apply stripe_keys.
    - intros k' Hne. by rewrite lookup_alter_ne. }
  destruct sg; simpl; try done; intros Heq.
  - injection Heq as Heq. destruct (locked_counted _ _ _ _ _ _ Hs Hk Heq) as (H4 & -> & ->).
    split_and!; auto. right. rewrite H4. unfold rest. simpl. lia.
  - injection Heq as <- <- <-. split_and!; auto; right; done.
  - injection Heq as <- <- <-. split_and!; auto; right; done.
  - injection Heq as <- <- <-. split_and!; auto. right. destruct (pressured (shared st)); done.
  - injection Heq as <- <- <-. split_and!; auto. right. destruct (over_quota _); done.
  - injection Heq as <- <- <-. split_and!; auto; right; done.
  - injection Heq as <- <- <-. split_and!; auto. right. rewrite Halter by apply count_access_same. done.
  - injection Heq as <- <- <-. split_and!; auto. right. rewrite Halter by apply stamp_access_same. done.
  - injection Heq as <- <- <-. split_and!; auto; right; [done|by apply quota_access].
  - pose proof (thread_size _ _ _ _ e _ Hsim Ht ltac:(auto)). injection Heq as <- <- <-. split_and!; auto.
    + right. change (flat (with_policy _ (shared st))) with (flat (shared st)). unfold rest. simpl. lia.
    + right. apply quota_evict; [done|apply Hfits].
  - injection Heq as <- <- <-. split_and!; auto; right; done.
  - injection Heq as <- <- <-. split_and!; auto; right; done.
  - injection Heq as <- <- <-. split_and!; auto. right. unfold with_stripe. rewrite flat_delete by done.
    pose proof (sim_threads _ _ Hsim _ _ _ Ht) as Hok. rewrite (at_key_Some _ _ _ Hk) in Hok.
    destruct Hok as (_ & Hc & _). pose proof (map_sum_partial (flat (shared st)) k None) as Hd.
    change (partial_alter (fun _ => None) k ?m) with (delete k m) in Hd. rewrite Hd, (osize_same _ _ Hc).
    unfold rest. simpl. lia.
  - pose proof (thread_size _ _ _ _ e _ Hsim Ht ltac:(auto)). injection Heq as <- <- <-. split_and!; auto.
    right. change (flat (with_total _ (shared st))) with (flat (shared st)). unfold rest. simpl. lia.
  - injection Heq as <- <- <-. split_and!; auto; right; [done|]. apply quota_evict; [done|apply Hfits].
Qed.

Lemma in_window_dec w st : in_window w st \/ ~ in_window w st.
Proof.
  destruct (existsb (fun '(_, (_, sg)) => w sg) (map_to_list (threads st))) eqn:E; [left|right].
  - apply existsb_exists in E as ([t [c sg]] & Hin%list_elem_of_In & Hw).
    apply elem_of_map_to_list in Hin. by exists t, c, sg.
  - intros (t & c & sg & Ht & Hw). apply not_true_iff_false in E. apply E, existsb_exists.
    exists (t, (c, sg)). split; [|done]. by apply list_elem_of_In, elem_of_map_to_list.
Qed.

Lemma in_window_other w st t th s' l' :
  in_window w st -> (forall c sg, threads st !! t = Some (c, sg) -> w sg = false) ->
  in_window w (mk_conc s' (<[t := th]> (threads st)) l').
Proof.
  intros (t' & c & sg & Ht & Hw) Hn. exists t', c, sg. split; [|done]. simpl.
  rewrite lookup_insert_ne; [done|]. intros <-. rewrite (Hn c sg Ht) in Hw. done.
Qed.

(** Why goroutine [t] may leave its stage without a wake-up being lost. *)
Lemma wake_move st t c sg sg' s' :
  let st' := mk_conc s' (<[t := (c, sg')]> (threads st)) (loop st) in
  wake st -> threads st !! t = Some (c, sg) ->
  maxBytes s' = maxBytes (shared st) /\ hiWater s' = hiWater (shared st) /\ loWater s' = loWater (shared st) ->
  (window sg' = true \/ (counted st' <= counted st)%Z) ->
  (window sg' = true \/ (over_quota (policy s') = true -> over_quota (policy (shared st)) = true)) ->
  (evictSig (shared st) = true -> evictSig s' = true) ->
  (window sg = true -> window sg' = true \/ (pressed st' -> awake st' \/ in_window window st')) ->
  (quota_window sg = true -> quota_window sg' = true
     \/ (over_quota (policy s') = true -> awake st' \/ in_window quota_window st')) ->
  (t = evictor_id -> ev_awake (loop st) (Some (c, sg)) = true ->
     ev_awake (loop st) (Some (c, sg')) = true \/ (~ pressed st' /\ over_quota (policy s') = false)) ->
  wake st'.
Proof.
  intros st' Hw Ht (Hmax & Hhi & Hlo) Hcount Hquota Hsig Hexit Hqexit Hev.
  assert (Hwin : forall w : stage -> bool, w sg' = true -> in_window w st').
  { intros w Hs. exists t, c, sg'. split; [|done]. simpl. by rewrite lookup_insert_eq. }
  assert (Hqw : forall sg0, window sg0 = true -> quota_window sg0 = true) by by intros [].
  assert (Hothers : forall w : stage -> bool, in_window w st -> in_window w st' \/ w sg = true).
  { intros w Hin. destruct (w sg) eqn:E; [by right|left]. apply in_window_other; [done|].
    intros c0 sg0 H0'. by rewrite Ht in H0'; simplify_eq. }
  assert (Hawake : awake st -> awake st' \/ (~ pressed st' /\ over_quota (policy s') = false)).
  { intros [Hs|He]; [left; left; by apply Hsig|]. destruct (decide (t = evictor_id)) as [->|Hne].
    - rewrite Ht in He. destruct (Hev eq_refl He) as [He'|]; [left; right|by right]. simpl.
      by rewrite lookup_insert_eq.
    - left. right. simpl. by rewrite lookup_insert_ne. }
  destruct Hw as [Hm Htot Hq]. split; [by simpl; rewrite Hlo, Hhi| |].
  - intros Hp. destruct Hcount as [Hw|Hle]; [right; by apply Hwin|].
    assert (pressed st) as Hp0.
    { unfold pressed in *. simpl in Hp. rewrite Hmax, Hhi in Hp. split; [apply Hp|]. etransitivity; [apply Hp|done]. }
    destruct (Htot Hp0) as [Ha|Hin].
    + destruct (Hawake Ha) as [|[? _]]; [by left|done].
    + destruct (Hothers _ Hin) as [|Hs]; [by right|]. destruct (Hexit Hs) as [Hs'|Hx]; [right; by apply Hwin|auto].
  - intros Ho. simpl in Ho. destruct Hquota as [Hw|Hle]; [right; right; by apply Hwin, Hqw|].
    destruct (Hq (Hle Ho)) as [Ha|[Hl|Hin]].
    + destruct (Hawake Ha) as [|[_ ?]]; [by left|congruence].
    + right. by left.
    + destruct (Hothers _ Hin) as [|Hs]; [by right; right|].
      destruct (Hqexit Hs) as [Hs'|Hx]; [right; right; by apply Hwin|]. destruct (Hx Ho); auto.
Qed.

Lemma counted_move st t c sg sg' s' l' :
  threads st !! t = Some (c, sg) ->
  counted (mk_conc s' (<[t := (c, sg')]> (threads st)) l')
  = (map_sum SizeBytes (flat s') + map_sum rest (threads st) + rest (c, sg') - rest (c, sg))%Z.
Proof. intros Ht. unfold counted. simpl. rewrite (map_sum_insert_Some _ _ _ _ _ Ht). lia. Qed.

(** Under pressure the load of a writer or of the evictor sees it, or a write is
    on its way. *)
Lemma pressed_loaded st a :
  sim st a -> fits st -> wake st -> pressed st ->
  in_window is_recorded st \/ (hiWater (shared st) <= totalBytes (shared st))%Z.
Proof.
  intros Hsim Hf Hw [_ Hp]. destruct (in_window_dec is_recorded st) as [|Hn]; [by left|right].
  pose proof (wake_marks _ Hw). etransitivity; [exact Hp|]. apply (counted_loaded st a); try done. lia.
Qed.

Lemma stage_marks c k sg s sg' lin s' :
  stage_step c k sg s = Some (sg', lin, s') ->
  maxBytes s' = maxBytes s /\ hiWater s' = hiWater s /\ loWater s' = loWater s.
Proof.
  destruct sg; simpl; try done; intros Heq; simplify_eq; try done.
  unfold locked_step in Heq. destruct c, (stripeFor k s !! k); try case_decide;
    try (destruct (write_plan _ _) as [[[? ?] ?]|]); simplify_eq; done.
Qed.

Lemma ev_awake_held l c sg c' sg' :
  holding sg = true -> ev_awake l (Some (c, sg)) = true -> ev_awake l (Some (c', sg')) = true.
Proof. by destruct l, c, sg. Qed.

(** A writer that leaves its window saw the total below the mark. *)
Lemma exit_window st a t c k sg sg' lin s' l' :
  sim st a -> fits st -> wake st -> threads st !! t = Some (c, sg) ->
  stage_step c k sg (shared st) = Some (sg', lin, s') -> window sg = true ->
  let st' := mk_conc s' (<[t := (c, sg')]> (threads st)) l' in
  window sg' = true \/ (pressed st' -> awake st' \/ in_window window st').
Proof.
  intros Hsim Hfits Hw Ht Heq Hs st'. destruct sg; try done; simpl in Heq; simplify_eq; [by left| |].
  - destruct (pressured (shared st)) eqn:Ep; [by left|right]. intros Hp'. right.
    assert (Hp : pressed st).
    { unfold pressed, st' in *. rewrite (counted_move _ _ _ _ _ _ _ Ht) in Hp'. unfold counted, rest in *.
      simpl in *. lia. }
    destruct (pressed_loaded st a Hsim Hfits Hw Hp) as [(t' & c' & sg & Ht' & Hr)|Hle].
    + exists t', c', sg. split; [|by destruct sg]. simpl. rewrite lookup_insert_ne; [done|].
      intros <-. rewrite Ht in Ht'. by simplify_eq.
    + unfold pressured in Ep. destruct Hp as [Hmax _]. lia.
  - right. intros _. left. by left.
Qed.

Lemma exit_quota_window c k sg sg' lin s s' ths l' :
  stage_step c k sg s = Some (sg', lin, s') -> quota_window sg = true ->
  let st' := mk_conc s' ths l' in
  quota_window sg' = true \/ (over_quota (policy s') = true -> awake st' \/ in_window quota_window st').
Proof.
  intros Heq Hs st'. destruct sg; try done; simpl in Heq; simplify_eq; [by left| | |].
  - left. by destruct (pressured s').
  - destruct (over_quota (policy s')) eqn:E; [by left|by right].
  - right. intros _. left. by left.
Qed.

(** A call without a stripe: only [Victim] changes the policy, and the evictor
    may go back to sleep only over an empty shard. *)
Lemma wake_unlocked st a t c :
  sim st a -> wake st -> legal_order t st -> threads st !! t = Some (c, Started) -> call_key c = None ->
  wake (mk_conc (store_step c (shared st)).2
          (<[t := (c, Returning (store_step c (shared st)).1)]> (threads st)) (loop st)).
Proof.
  intros Hsim Hw Hord Ht Hk.
  pose proof (sim_policy _ _ Hsim) as Hp. pose proof (sim_tracks _ _ Hsim) as [Hinv Htr]. rewrite <- Hp in Hinv, Htr.
  assert (Hs' : (store_step c (shared st)).2 = shared st /\ (forall o, c <> CAsk o)
    \/ exists o, c = CAsk o /\ (store_step c (shared st)).2 = with_policy (Victim o (policy (shared st))).2 (shared st)
        /\ (store_step c (shared st)).1 = AVictim (Victim o (policy (shared st))).1).
  { destruct c as [now model h|model h|now h [e|]|now h [e|] v|model h|o|k]; simpl in *; try done; try (by left).
    - destruct (Z.eqb_spec v 0) as [->|]; [by left|done].
    - right. exists o. unfold ask_victim. by destruct (Victim o (policy (shared st))). }
  assert (Hc : forall s', flat s' = flat (shared st) -> forall ans,
    counted (mk_conc s' (<[t := (c, Returning ans)]> (threads st)) (loop st)) = counted st).
  { intros s' Hf ans. rewrite (counted_move _ _ _ _ _ _ _ Ht), Hf. unfold counted, rest. simpl. lia. }
  eapply wake_move; try done.
  - by destruct Hs' as [[-> _]|(o & _ & -> & _)].
  - right. rewrite Hc; [done|]. by destruct Hs' as [[-> _]|(o & _ & -> & _)].
  - right. destruct Hs' as [[-> _]|(o & _ & -> & _)]; [done|]. by apply quota_ask.
  - by destruct Hs' as [[-> _]|(o & _ & -> & _)].
  - intros -> Hev. destruct Hs' as [[_ Hn]|(o & -> & Hs & Ha)].
    { left. destruct (loop st); try done. destruct c as [| | | | |o|]; try done. by destruct (Hn o). }
    pose proof (law_victim o _ Hinv (Hord o Ht)) as Hv. pose proof (law_ask o _ Hinv) as [Hi Hta].
    rewrite Hs, Ha. destruct (Victim o (policy (shared st))) as [[k|] p'] eqn:Ev; simpl in *.
    { left. by destruct (loop st). }
    right. assert (flat (sp_store a) = ∅) as He.
    { apply dom_empty_iff_L. by rewrite <- Htr. }
    split; [|apply law_quota; [done|by rewrite Hta]]. intros [_ Hpr]. simpl in Hpr.
    rewrite Hc in Hpr by done. pose proof (counted_empty st a o Hsim He Ht). pose proof (wake_marks _ Hw). lia.
Qed.

Lemma wake_return st t c ans :
  wake st -> threads st !! t = Some (c, Returning ans) ->
  wake (mk_conc (shared st) (delete t (threads st))
          (if decide (t = evictor_id) then ev_resume (loop st) ans else loop st)).
Proof.
  intros [Hm Htot Hq] Ht. set (st' := mk_conc _ _ _).
  assert (Hc : counted st' = counted st).
  { unfold counted, st'. simpl. rewrite (map_sum_delete _ _ _ _ Ht). unfold rest at 2. simpl. lia. }
  assert (Hin : forall w : stage -> bool, w (Returning ans) = false -> in_window w st -> in_window w st').
  { intros w Hn (t' & c' & sg & Ht' & Hw). exists t', c', sg. split; [|done]. simpl.
    rewrite lookup_delete_ne; [done|]. intros <-. rewrite Ht in Ht'. simplify_eq. congruence. }
  assert (Ha : awake st -> awake st').
  { intros [|He]; [by left|right]. unfold st'. simpl. destruct (decide (t = evictor_id)) as [->|Hne].
    - rewrite Ht in He. rewrite lookup_delete_eq.
      destruct (loop st); try done. simpl in He. destruct c; try done. by destruct ans as [| | |[k|]|].
    - by rewrite lookup_delete_ne. }
  assert (Hl : loop st = EvQuota -> loop st' = EvQuota) by (unfold st'; simpl; intros ->; by case_decide).
  split; [done| |].
  - unfold pressed. rewrite Hc. intros [?|?]%Htot; auto.
  - intros [?|[?|?]]%Hq; auto.
Qed.

Lemma wake_thread st a t l st' :
  sim st a -> fits st -> wake st -> legal_order t st -> tstep t st = Some (l, st') -> wake st'.
Proof.
  intros Hsim Hfits Hw Hord. unfold tstep. destruct (threads st !! t) as [[c sg]|] eqn:Ht; [|done]. simpl.
  assert (Hquiet : forall sg', window sg = false -> quota_window sg = false -> rest (c, sg') = rest (c, sg) ->
    (t = evictor_id -> ev_awake (loop st) (Some (c, sg)) = true -> ev_awake (loop st) (Some (c, sg')) = true) ->
    wake (mk_conc (shared st) (<[t := (c, sg')]> (threads st)) (loop st))).
  { intros sg' H2 H3 H4 H5. eapply wake_move; try done; try (intros; congruence); auto.
    right. rewrite (counted_move _ _ _ _ _ _ _ Ht). unfold counted. lia. }
  assert (Hst : forall k, call_key c = Some k -> holding sg = true ->
    ('(sg', lin, s) ← stage_step c k sg (shared st);
     Some (if lin : bool then Lin t else Tau, mk_conc s (<[t := (c, sg')]> (threads st)) (loop st)))
    = Some (l, st') -> wake st').
  { intros k Hk Hh. destruct (stage_step c k sg (shared st)) as [[[sg' lin] s]|] eqn:Hs; [|done].
    intros [= <- <-]. destruct (stage_counted st a t c k sg sg' lin s Hsim Hfits Ht Hk Hs) as (H2 & H3 & H4).
    eapply wake_move; try done.
    - by eapply stage_marks.
    - destruct H2 as [|H2]; [by left|right]. rewrite (counted_move _ _ _ _ _ _ _ Ht). unfold counted. lia.
    - intros. by eapply exit_window.
    - intros. by eapply exit_quota_window.
    - intros _ He. left. by eapply ev_awake_held. }
  destruct sg; try (destruct (call_key c) as [k|]; [by apply (Hst k)|done]).
  - destruct (call_key c) as [k|] eqn:Hk.
    + destruct (lock_free k (exclusive c) (threads st)); [|done]. intros [= <- <-].
      apply Hquiet; try done. intros _. destruct (loop st); try done. by destruct c.
    + pose proof (wake_unlocked st a t c Hsim Hw Hord Ht Hk) as Hu.
      destruct (store_step c (shared st)) as [ans s']. by intros [= <- <-].
  - intros [= <- <-]. apply Hquiet; try done. intros _ He. by eapply ev_awake_held; [|exact He].
  - intros [= <- <-]. by eapply wake_return.
Qed.

Lemma in_window_new w st t c l' :
  threads st !! t = None -> in_window w st -> in_window w (mk_conc (shared st) (<[t := (c, Started)]> (threads st)) l').
Proof. intros Hn Hin. apply in_window_other; [done|]. congruence. Qed.

Lemma counted_new st t c l' :
  threads st !! t = None -> counted (mk_conc (shared st) (<[t := (c, Started)]> (threads st)) l') = counted st.
Proof. intros Hn. unfold counted. simpl. rewrite (map_sum_insert_None _ _ _ _ Hn). done. Qed.

Lemma wake_new st t c l' :
  wake st -> threads st !! t = None ->
  (awake st -> awake (mk_conc (shared st) (<[t := (c, Started)]> (threads st)) l')) ->
  (loop st = EvQuota -> l' = EvQuota) ->
  wake (mk_conc (shared st) (<[t := (c, Started)]> (threads st)) l').
Proof.
  intros [Hm Htot Hq] Hn Ha Hl. split; [done| |].
  - unfold pressed. rewrite counted_new by done. intros [?|?]%Htot; auto using in_window_new.
  - intros [?|[?|?]]%Hq; auto using in_window_new.
Qed.

(** The evictor's own moves: it falls asleep only when the load told it so. *)
Lemma wake_loop st s' l' :
  wake st -> flat s' = flat (shared st) -> policy s' = policy (shared st) ->
  maxBytes s' = maxBytes (shared st) /\ hiWater s' = hiWater (shared st) /\ loWater s' = loWater (shared st) ->
  let st' := mk_conc s' (threads st) l' in
  (pressed st -> awake st -> awake st' \/ in_window window st) ->
  (over_quota (policy (shared st)) = true -> awake st \/ loop st = EvQuota -> awake st' \/ l' = EvQuota) ->
  wake st'.
Proof.
  intros [Hm Htot Hq] Hf Hp (Hmax & Hhi & Hlo) st' Ht' Hq'.
  assert (Hc : counted st' = counted st) by (unfold counted, st'; simpl; by rewrite Hf).
  split; [by simpl; rewrite Hlo, Hhi| |].
  - unfold pressed. rewrite Hc. simpl. rewrite Hmax, Hhi. intros Hpr. destruct (Htot Hpr) as [Ha|]; [|by right].
    by apply Ht'.
  - simpl. rewrite Hp. intros Ho. destruct (Hq Ho) as [Ha|[Hl|Hin]]; [| |by right; right];
      destruct (Hq' Ho) as [|]; auto.
Qed.

Lemma wake_step_total st a :
  sim st a -> fits st -> wake st -> loop st = EvTotal ->
  wake (with_loop (if over_low (shared st) then EvVictim else EvQuota) st).
Proof.
  intros Hsim Hf Hw Hl. apply wake_loop; try done.
  - intros Hp _. destruct (over_low (shared st)) eqn:Eo; [left; by right|right].
    destruct (pressed_loaded st a Hsim Hf Hw Hp) as [(t & c & sg & Ht & Hr)|Hle].
    + exists t, c, sg. split; [done|]. by destruct sg.
    + unfold over_low in Eo. pose proof (wake_marks _ Hw). destruct Hp. lia.
  - intros _ _. destruct (over_low (shared st)); [left; by right|by right].
Qed.

Lemma wake_step st a l st' : sim st a -> fits st -> wake st -> conc_step st l st' -> wake st'.
Proof.
  intros Hsim Hf Hw Hstep.
  inversion Hstep as [t c st0 Hne Hc Hn|t l0 st0 st1 Hord Hts|st0 Hl Hs|ks st0 Hl|st0 Hl|st0 Hl|st0 Hl|o st0 Hl
    |k st0 Hl|k ks st0 Hl|st0 Hl]; subst.
  - apply wake_new; try done. intros [|He]; [by left|right]. simpl. by rewrite lookup_insert_ne.
  - by eapply wake_thread.
  - apply wake_loop; try done; intros; left; by right.
  - apply wake_loop; try done.
    + intros _ [|He]; [left; by left|by rewrite Hl in He].
    + intros _ [[|He]|]; [left; by left|by rewrite Hl in He|congruence].
  - apply wake_loop; try done; intros; left; by right.
  - by eapply wake_step_total.
  - apply wake_loop; try done.
    + intros _ [|He]; [by left; left|by rewrite Hl in He].
    + intros -> _. left. by right.
  - apply wake_new; try done; [by apply (sim_loop _ _ Hsim); rewrite Hl| |by rewrite Hl].
    intros _. right. simpl. by rewrite lookup_insert_eq.
  - apply wake_new; try done; [by apply (sim_loop _ _ Hsim); rewrite Hl| |by rewrite Hl]. intros _. by right.
  - apply wake_new; try done; [by apply (sim_loop _ _ Hsim); rewrite Hl| |by rewrite Hl].
    intros [|He]; [by left|by rewrite Hl in He].
  - apply wake_loop; try done.
    + intros _ [|He]; [left; by left|by rewrite Hl in He].
    + intros _ [[|He]|]; [left; by left|by rewrite Hl in He|congruence].
Qed.

Lemma wake_init (p : P) opts :
  tracked p = ∅ -> pol_inv p ->
  (0 <= loWater (NewStore p opts) < hiWater (NewStore p opts))%Z -> wake (conc_init (NewStore p opts)).
Proof.
  intros Ht Hp Hm. split; [done| |].
  - intros [_ Hc]. unfold counted, conc_init in Hc. cbn [shared threads] in Hc.
    rewrite flat_new, !map_sum_empty in Hc. lia.
  - unfold conc_init. cbn [shared]. intros Ho. unfold NewStore in Ho. destruct (checked_fracs _ _).
    simpl in Ho. by rewrite law_quota in Ho.
Qed.

Lemma wake_run s0 h st :
  sim (conc_init s0) (mk_spec s0 ∅) -> wake (conc_init s0) -> conc_run fits (conc_init s0) h st ->
  wake st /\ exists a, sim st a.
Proof.
  intros Hs0 Hw0 Hr. induction Hr as [Hok|h l st st' Hr IH Hstep Hok]; [split; [done|eauto]|].
  assert (Hfits : fits st) by by destruct Hr.
  destruct IH as [Hw (a & Hsim)]. destruct (sim_step _ _ _ _ Hsim Hstep) as (a' & _ & Hsim').
  split; [by apply (wake_step st a l st')|eauto].
Qed.

End wake.

(** ** No call waits for ever *)

(** The steps a call has left. *)
Definition steps_left (th : store_call * stage) : Z :=
  match th.2 with
  | Started => 9
  | Locked => 8
  | Published _ _ _ => 7
  | Recorded _ _ => 6
  | Added _ => 5
  | AskQuota _ => 4
  | Nudging _ => 3
  | Chosen _ => 6
  | Spilled _ => 5
  | Dropped _ => 4
  | Freed _ => 3
  | Hit _ => 5
  | Counted _ => 4
  | Stamped _ => 3
  | Removed _ => 4
  | Forgotten _ => 3
  | Unlocking _ => 2
  | Returning _ => 1
  end%Z.

(** Runs in which only calls in flight move. *)
Inductive tsteps `{EvictionPolicy P} : nat -> Conc P -> Conc P -> Prop :=
  | tsteps_O st : tsteps 0 st st
  | tsteps_S n t l st st1 st2 : tstep t st = Some (l, st1) -> tsteps n st1 st2 -> tsteps (S n) st st2.

Section progress.
Context {P : Type} `{PolicyLaws P}.
Implicit Types (s : Store P) (st : Conc P) (a : Spec P).

Lemma stage_left c k sg s sg' lin s' :
  stage_step c k sg s = Some (sg', lin, s') -> (0 < steps_left (c, sg') < steps_left (c, sg))%Z.
Proof.
  destruct sg; simpl; try done; intros Heq; simplify_eq; try done.
  - unfold locked_step in Heq. destruct c, (stripeFor k s !! k); try case_decide;
      try (destruct (write_plan _ _) as [[[? ?] ?]|]); simplify_eq; done.
  - by destruct (pressured s').
  - by destruct (over_quota _).
Qed.

Lemma tstep_left t l st st' :
  tstep t st = Some (l, st') -> (map_sum steps_left (threads st') < map_sum steps_left (threads st))%Z.
Proof.
  unfold tstep. destruct (threads st !! t) as [[c sg]|] eqn:Ht; [|done]. simpl.
  assert (Hlt : forall sg' s, (steps_left (c, sg') < steps_left (c, sg))%Z ->
    (map_sum steps_left (threads (mk_conc s (<[t := (c, sg')]> (threads st)) (loop st)))
     < map_sum steps_left (threads st))%Z).
  { intros sg' s. simpl. rewrite (map_sum_insert_Some _ _ _ _ _ Ht). lia. }
  assert (Hst : forall k,
    ('(sg', lin, s) ← stage_step c k sg (shared st);
     Some (if lin : bool then Lin t else Tau, mk_conc s (<[t := (c, sg')]> (threads st)) (loop st)))
    = Some (l, st') -> (map_sum steps_left (threads st') < map_sum steps_left (threads st))%Z).
  { intros k. destruct (stage_step c k sg (shared st)) as [[[sg' lin] s]|] eqn:Hs; [|done].
    intros [= _ <-]. apply Hlt. by eapply stage_left. }
  destruct sg; try (destruct (call_key c) as [k|]; [by apply (Hst k)|done]).
  - destruct (call_key c).
    + destruct (lock_free _ _ _); [|done]. intros [= _ <-]. by apply Hlt.
    + destruct (store_step c (shared st)). intros [= _ <-]. by apply Hlt.
  - intros [= _ <-]. by apply Hlt.
  - intros [= _ <-]. simpl. rewrite (map_sum_delete _ _ _ _ Ht). unfold steps_left at 2. simpl. lia.
Qed.

Lemma steps_left_bound (ths : gmap nat (store_call * stage)) :
  (0 <= map_sum steps_left ths <= 9 * Z.of_nat (size ths))%Z.
Proof.
  induction ths as [|t [c sg] m Hm IH] using map_ind; [by rewrite map_sum_empty, map_size_empty|].
  rewrite map_sum_insert_None, map_size_insert_None by done.
  assert (0 <= steps_left (c, sg) <= 9)%Z by (by destruct sg). lia.
Qed.

(** A call that has its lock can move; if none has, any call can take one. *)
Lemma tstep_holding st a t c sg :
  sim st a -> threads st !! t = Some (c, sg) -> sg <> Started -> exists l st', tstep t st = Some (l, st').
Proof.
  intros Hsim Ht Hs. pose proof (sim_keyed _ _ Hsim _ _ _ Ht) as Hk.
  assert (Hst : holding sg = true -> (forall ans, sg <> Unlocking ans) ->
    exists k r, call_key c = Some k /\ stage_step c k sg (shared st) = Some r).
  { intros Hh Hu. destruct (Hk Hh) as [k ->]. exists k.
    destruct sg as [| | | | | | | | | | | | | | | |ans|]; simpl; eauto; [done|by destruct (Hu ans)|done]. }
  unfold tstep. rewrite Ht. simpl.
  destruct sg; try done; try (destruct Hst as (k & [[sg' lin] s'] & -> & ->); [done..|]); simpl; eauto.
Qed.

(** While every call still waits before its lock, any of them can take it. *)
Lemma tstep_started st t c :
  (forall t' c' sg', threads st !! t' = Some (c', sg') -> sg' = Started) ->
  threads st !! t = Some (c, Started) -> exists l st', tstep t st = Some (l, st').
Proof.
  intros Hall Ht. unfold tstep. rewrite Ht. simpl. destruct (call_key c) as [k|] eqn:Hk.
  - replace (lock_free k (exclusive c) (threads st)) with true; [eauto|]. symmetry.
    apply forallb_forall. intros [t' [c' sg']] Hin%list_elem_of_In.
    apply elem_of_map_to_list in Hin. rewrite (Hall _ _ _ Hin). unfold admits. simpl. by destruct (call_key c').
  - destruct (store_step c (shared st)). eauto.
Qed.

Lemma all_started_dec st :
  (exists t c sg, threads st !! t = Some (c, sg) /\ sg <> Started)
  \/ forall t c sg, threads st !! t = Some (c, sg) -> sg = Started.
Proof.
  destruct (existsb (fun '(_, (_, sg)) => match sg with Started => false | _ => true end)
              (map_to_list (threads st))) eqn:E; [left|right].
  - apply existsb_exists in E as ([t [c sg]] & Hin%list_elem_of_In & Hsg).
    apply elem_of_map_to_list in Hin. exists t, c, sg. split; [done|]. by intros ->.
  - intros t c sg Ht. destruct sg; try done; exfalso; apply not_true_iff_false in E; apply E, existsb_exists;
      eexists (t, (c, _)); (split; [by apply list_elem_of_In, elem_of_map_to_list|done]).
Qed.

Lemma tstep_any st a : sim st a -> threads st <> ∅ -> exists t l st', tstep t st = Some (l, st').
Proof.
  intros Hsim Hne. destruct (all_started_dec st) as [(t & c & sg & Ht & Hsg)|Hall].
  - exists t. by apply (tstep_holding st a t c sg).
  - apply map_choose in Hne as (t & [c sg] & Ht). pose proof (Hall _ _ _ Ht) as ->. exists t. by eapply tstep_started.
Qed.

Lemma tsteps_sim n st st' a :
  sim st a -> tsteps n st st' ->
  (exists a', sim st' a')
  /\ (Z.of_nat n + map_sum steps_left (threads st') <= map_sum steps_left (threads st))%Z.
Proof.
  intros Hsim Hs. revert a Hsim. induction Hs as [st|n t l st st1 st2 Hstep Hs IH]; intros a Hsim.
  - split; [eauto|lia].
  - destruct a as [sa pend]. destruct (sim_thread _ _ _ _ _ _ Hsim Hstep) as (a' & _ & Hsim').
    destruct (IH a' Hsim') as [H1' H2']. split; [done|]. apply tstep_left in Hstep. lia.
Qed.

End progress.

(** ** Properties *)

Section properties.
Context {P : Type} `{QuotaLaws P} (p : P) (opts : list StoreOption).
Hypothesis p_inv : pol_inv p.
Hypothesis p_empty : tracked p = ∅.

Let s0 : Store P := NewStore p opts.
Let Hsim0 : sim (conc_init s0) (mk_spec s0 ∅) := sim_init p opts p_inv p_empty.

(** No wake-up is lost: once every call has returned and the evictor sits in its
    [select] (or only has its sweep left) with no nudge in the channel, neither
    is the byte total at the high-water mark nor any tenant over its quota. *)
Theorem no_lost_wakeup h st :
  (0 <= loWater s0 < hiWater s0)%Z ->
  conc_run fits (conc_init s0) h st ->
  threads st = ∅ -> loop st = EvSelect \/ (exists ks, loop st = EvSweep ks) -> evictSig (shared st) = false ->
  pressured (shared st) = false /\ over_quota (policy (shared st)) = false.
Proof.
  intros Hm Hr Hq Hl Hs. destruct (wake_run s0 h st Hsim0 (wake_init p opts p_empty p_inv Hm) Hr) as [Hw (a & Hsim)].
  assert (Hna : ~ awake st).
  { intros [|He]; [congruence|]. rewrite Hq, lookup_empty in He. by destruct Hl as [Hl|[ks Hl]]; rewrite Hl in He. }
  assert (Hnw : forall w, ~ in_window w st).
  { intros w (t & c & sg & Ht & _). by rewrite Hq, lookup_empty in Ht. }
  split; apply not_true_iff_false; intros Hpr.
  - destruct (wake_total _ Hw) as [|]; [|by apply Hna|by eapply Hnw].
    unfold pressured in Hpr. destruct (sim_quiescent st a Hsim Hq) as (_ & Ht & _ & _).
    pose proof (sim_sizes _ _ Hsim) as Hsz. rewrite Hq, map_sum_empty, Z.add_0_r in Hsz.
    unfold pressed, counted. rewrite Hq, map_sum_empty.
    rewrite Ht, (sw_total _ (sim_wf _ _ Hsim)), Hsz in Hpr.
    assert (fits st) as [Hf _] by by destruct Hr. unfold resident in Hf. rewrite Hq, map_sum_empty in Hf.
    rewrite i64_small in Hpr; [lia|]. split; [|lia]. rewrite <- Hsz.
    pose proof (map_sum_nonneg SizeBytes (flat (sp_store a))) as Hnn. transitivity 0%Z; [lia|]. apply Hnn.
    intros k e Hk. by eapply size_nonneg; [apply (sim_wf _ _ Hsim)|].
  - destruct (wake_quota _ Hw Hpr) as [|[Hl'|Hin]]; [by apply Hna| |by eapply Hnw].
    destruct Hl as [Hl|[ks Hl]]; congruence.
Qed.

(** Every call returns: from any reachable state, the calls in flight take at
    most nine steps each in any order, and as long as one has not returned some
    call can move, so none waits for a lock for ever. *)
Theorem calls_finish h st :
  conc_run (fun _ => True) (conc_init s0) h st ->
  forall n st', tsteps n st st' ->
    n <= 9 * size (threads st) /\ (threads st' = ∅ \/ exists t l st'', tstep t st' = Some (l, st'')).
Proof.
  intros Hr n st' Hs. destruct (sim_run _ _ _ _ Hsim0 Hr) as (a & _ & Hsim).
  destruct (tsteps_sim _ _ _ _ Hsim Hs) as [(a' & Hsim') Hle]. split.
  - pose proof (steps_left_bound (threads st)). pose proof (steps_left_bound (threads st')). lia.
  - destruct (decide (threads st' = ∅)); [by left|right]. by eapply tstep_any.
Qed.

End properties.

(** *** Witnesses *)

Lemma calls_finish_witness :
  exists t l st', tstep t (w_begin w_new) = Some (l, st').
Proof.
  destruct (@calls_finish LRUPolicy lru_policy lru_laws NewLRU [WithSpiller] lru_inv_new eq_refl _ _
              (w_begin_run w_new) 0 _ (tsteps_O _)) as [_ [He|Hn]]; [|exact Hn].
  exfalso. assert (Hs : size (threads (w_begin w_new)) = 3) by (vm_compute; reflexivity).
  by rewrite He in Hs.
Defined.

(** A shard of two bytes: the write fills it, nudges, and the evictor drains it. *)
Definition w_small : Store LRUPolicy :=
  NewStore NewLRU [WithMaxBytes 2; WithWatermarks f64_1 (f64_div f64_1 (f64_of_Z 2))].
Definition fitsb (st : Conc LRUPolicy) : bool := (resident st <? 2 ^ 63)%Z.
Definition w_drain : list (option nat) :=
  replicate 8 (Some 1) ++ replicate 3 None ++ replicate 2 (Some evictor_id) ++ [None]
  ++ replicate 8 (Some evictor_id) ++ replicate 2 None.

Lemma fitsb_ok st : fitsb st = true -> fits st.
Proof. intros Hb. split; [by apply Z.ltb_lt|done]. Qed.

Lemma no_lost_wakeup_witness :
  exists h (st : Conc LRUPolicy),
    conc_run fits (conc_init w_small) h st /\ length h = 25 /\ loop st = EvSelect /\ totalBytes (shared st) = 0%Z
    /\ pressured (shared st) = false /\ over_quota (policy (shared st)) = false.
Proof.
  set (st1 := begin 1 (CPut 5 hash32_zero (Some w_entry)) (conc_init w_small)).
  assert (Hr : conc_run fits (conc_init w_small) [Inv 1 (CPut 5 hash32_zero (Some w_entry))] st1).
  { apply (begin_run _ _ []); [done|done|done| |apply run_nil]; apply fitsb_ok; vm_compute; reflexivity. }
  assert (Hq : (fun r => (length r.1, threads r.2, loop r.2, evictSig (shared r.2), totalBytes (shared r.2)))
                 <$> play fitsb w_drain st1 = Some (24, ∅, EvSelect, false, 0%Z)) by (vm_compute; reflexivity).
  destruct (play fitsb w_drain st1) as [[h st]|] eqn:E; [|discriminate Hq]. injection Hq as Hlen Hth Hl Hs Htot.
  pose proof (play_run _ _ _ _ _ _ _ _ fitsb_ok lru_legal Hr E) as Hr'.
  exists (Inv 1 (CPut 5 hash32_zero (Some w_entry)) :: h), st. split; [exact Hr'|].
  split; [simpl; by rewrite Hlen|]. split; [exact Hl|]. split; [exact Htot|].
  refine (@no_lost_wakeup LRUPolicy lru_policy lru_laws lru_quota NewLRU
            [WithMaxBytes 2; WithWatermarks f64_1 (f64_div f64_1 (f64_of_Z 2))] lru_inv_new eq_refl _ st _ Hr' Hth
            (or_introl Hl) Hs).
  vm_compute. split; [intros Hx; discriminate Hx|reflexivity].
Defined.

(** The ceiling is not hard: two writers that both pass the admission check
    before either stores its block take the shard over [maxBytes]. *)
Theorem ceiling_not_hard :
  let s := NewStore NewLRU [WithMaxBytes 3] in
  OverHardLimit 2 s = false
  /\ exists h (st : Conc LRUPolicy), conc_run (fun _ => True) (conc_init s) h st /\ threads st = ∅
       /\ maxBytes (shared st) = 3%Z /\ totalBytes (shared st) = 4%Z.
Proof.
  intros s. split; [vm_compute; reflexivity|].
  assert (Hq : (fun r => (threads r.2, maxBytes (shared r.2), totalBytes (shared r.2)))
                 <$> play (fun _ => true) (Some <$> replicate 8 1 ++ replicate 8 3) (w_writers s) = Some (∅, 3, 4)%Z)
    by (vm_compute; reflexivity).
  destruct (play _ _ (w_writers s)) as [[h st]|] eqn:E; [|discriminate Hq]. injection Hq as Hth Hm Ht.
  eexists _, st. split; [|split_and!; [exact Hth|exact Hm|exact Ht]].
  eapply play_run; [done|apply lru_legal|apply w_writers_run|exact E].
Qed.
