(* ===== verification/Relief.v ===== *)
(** The evictor does its work: [src/internal/cache/evictor.go] against the interleaved
    store of Concurrent.

    [Wakeup.no_lost_wakeup] says that nothing is left to do once every goroutine
    has come to rest; here, that they do come to rest.  Without new calls, ticks or
    a stop, no schedule of the goroutines in flight and of the evictor goes on for
    ever, whatever it does first, and where it ends the shard is below its
    high-water mark and every tenant within its quota ([eviction_relieves]).  The
    measure is lexicographic: what the calls in flight have left to do, then what
    the evictor has, counted in blocks the policy still tracks. *)

From S2P Require Import Prelude Bytes Float64 Policy Lru Store Concurrent Linearize Wakeup.

(** ** The measure *)

Section measure.
Context {P : Type} `{PolicyLaws P}.
Implicit Types (s : Store P) (st : Conc P).

Definition blocks_left st : Z := Z.of_nat (size (tracked (policy (shared st)))).

(** Those left once [k] is evicted. *)
Definition blocks_after (k : BlockHash) st : Z :=
  blocks_left st - (if decide (k ∈ tracked (policy (shared st))) then 1 else 0).

(** Before the policy forgets the block it evicts. *)
Definition still_tracks (sg : stage) : bool :=
  match sg with Started | Locked | Chosen _ | Spilled _ | Dropped _ | Freed _ => true | _ => false end.

(** What the evictor has to do from here until it waits again. *)
Definition ev_rank st : Z :=
  match loop st, threads st !! evictor_id with
  | EvSelect, _ | EvStopped, _ => 0
  | EvTotal, _ => 20 * blocks_left st + 8
  | EvQuota, _ => 20 * blocks_left st + 7
  | EvVictim, _ => 20 * blocks_left st + 6
  | EvAsked, Some (_, Started) => 20 * blocks_left st + 5
  | EvAsked, Some (_, Returning (AVictim (Some k))) => 20 * blocks_after k st + 24
  | EvAsked, _ => 1
  | EvEvict k, _ => 20 * blocks_after k st + 23
  | EvEvicting, Some (CEvict k, sg) =>
      20 * (if still_tracks sg then blocks_after k st else blocks_left st) + 10 + steps_left (CEvict k, sg)
  | EvEvicting, _ => 0
  | EvSweep ks, _ => 15 * Z.of_nat (length ks) + 1
  | EvSweeping ks, Some th => 15 * Z.of_nat (length ks) + 2 + steps_left th
  | EvSweeping ks, None => 0
  end%Z.

(** A nudge in the channel is one more round for each block. *)
Definition ev_work st : Z := (ev_rank st + if evictSig (shared st) then 20 * blocks_left st + 10 else 0)%Z.

(** What the calls of the handlers have left. *)
Definition calls_left st : Z := map_sum steps_left (delete evictor_id (threads st)).

(** No new call, no tick, no stop. *)
Definition quiet_step st st' : Prop :=
  exists l, conc_step st l st' /\ (forall t c, l = Inv t c -> t = evictor_id)
    /\ (loop st = EvSelect -> loop st' = EvSelect \/ loop st' = EvTotal).

(** ** The evictor's own calls *)

Definition evict_stage (sg : stage) : bool :=
  match sg with
  | Started | Locked | Chosen _ | Spilled _ | Dropped _ | Freed _ | Unlocking _ | Returning _ => true
  | _ => false
  end.

(** The loop and the call it is in. *)
Definition ev_shape st : Prop :=
  match loop st with
  | EvAsked => exists o, threads st !! evictor_id = Some (CAsk o, Started)
      \/ exists v, threads st !! evictor_id = Some (CAsk o, Returning (AVictim v))
  | EvEvicting | EvSweeping _ => exists k sg, threads st !! evictor_id = Some (CEvict k, sg) /\ evict_stage sg = true
  | _ => threads st !! evictor_id = None
  end.

(** A stage of an eviction. *)
Lemma evict_stage_step k sg s sg' lin s' :
  evict_stage sg = true -> stage_step (CEvict k) k sg s = Some (sg', lin, s') ->
  evict_stage sg' = true /\ evictSig s' = evictSig s
  /\ (pol_inv (policy s) ->
      tracked (policy s') = if still_tracks sg && negb (still_tracks sg') then tracked (policy s) ∖ {[k]} else tracked (policy s))
  \/ (sg = Locked /\ stripeFor k s !! k = None /\ sg' = Unlocking (AFreed 0) /\ s' = s).
Proof.
  destruct sg; try done; intros _; cbn [stage_step].
  - unfold locked_step. destruct (stripeFor k s !! k) as [e|] eqn:E; intros [= <- <- <-]; [left; by split_and!|by right].
  - intros [= <- <- <-]. left. split; [done|]. unfold demote. by destruct (spill s).
  - intros [= <- <- <-]. by left.
  - intros [= <- <- <-]. by left.
  - intros [= <- <- <-]. left. split_and!; [done|done|]. intros Hi. by apply (law_evict k).
Qed.

(** A goroutine's step, by the stage it was in. *)
Lemma tstep_shape t l st st' :
  tstep t st = Some (l, st') ->
  exists c sg, threads st !! t = Some (c, sg)
    /\ ((exists ans, sg = Returning ans /\ st' = mk_conc (shared st) (delete t (threads st))
           (if decide (t = evictor_id) then ev_resume (loop st) ans else loop st))
        \/ exists sg' s', (steps_left (c, sg') < steps_left (c, sg))%Z
             /\ st' = mk_conc s' (<[t := (c, sg')]> (threads st)) (loop st)
             /\ ((exists ans, sg = Unlocking ans /\ sg' = Returning ans /\ s' = shared st)
                 \/ (sg = Started /\ is_Some (call_key c) /\ sg' = Locked /\ s' = shared st)
                 \/ (sg = Started /\ call_key c = None /\ sg' = Returning (store_step c (shared st)).1 /\ s' = (store_step c (shared st)).2)
                 \/ (exists k lin, call_key c = Some k /\ stage_step c k sg (shared st) = Some (sg', lin, s')))).
Proof.
  unfold tstep. destruct (threads st !! t) as [[c sg]|] eqn:Ht; [|done]. cbn. intros Heq. exists c, sg. split; [done|].
  assert (Hst : forall k, call_key c = Some k ->
    ('(sg', lin, s) ← stage_step c k sg (shared st);
     Some (if lin : bool then Lin t else Tau, mk_conc s (<[t := (c, sg')]> (threads st)) (loop st)))
    = Some (l, st') -> exists sg' s', (steps_left (c, sg') < steps_left (c, sg))%Z
      /\ st' = mk_conc s' (<[t := (c, sg')]> (threads st)) (loop st)
      /\ exists k lin, call_key c = Some k /\ stage_step c k sg (shared st) = Some (sg', lin, s')).
  { intros k Hk. destruct (stage_step c k sg (shared st)) as [[[sg' lin] s]|] eqn:Hs; [|done]. intros [= _ <-].
    exists sg', s. split; [by eapply stage_left|]. split; [done|]. by exists k, lin. }
  destruct sg; try (destruct (call_key c) as [k|] eqn:Hk; [right;
    destruct (Hst k eq_refl Heq) as (sg' & s' & H1' & H2' & H3'); exists sg', s'; tauto|done]).
  - destruct (call_key c) as [k|] eqn:Hk.
    + destruct (lock_free _ _ _); [|done]. injection Heq as _ <-. right. eexists _, _. split; [|split; [done|]]; [done|].
      right. left. by eauto.
    + destruct (store_step c (shared st)) as [a s'] eqn:Hs. injection Heq as _ <-. right. eexists _, _.
      split; [|split; [done|]]; [done|]. right. right. left. done.
  - injection Heq as _ <-. right. eexists _, _. split; [|split; [done|]]; [done|]. left. by eauto.
  - injection Heq as _ <-. left. by eauto.
Qed.

(** A handler's call moves: the evictor is where it was, and less is left. *)
Lemma client_moves t l st st' :
  t <> evictor_id -> tstep t st = Some (l, st') ->
  (calls_left st' < calls_left st)%Z /\ loop st' = loop st /\ threads st' !! evictor_id = threads st !! evictor_id.
Proof.
  intros Hne Hs. destruct (tstep_shape _ _ _ _ Hs) as (c & sg & Ht & Hor). unfold calls_left.
  assert (Hd : delete evictor_id (threads st) !! t = Some (c, sg)) by by rewrite lookup_delete_ne.
  destruct Hor as [(ans & -> & ->)|(sg' & s' & Hlt & -> & _)]; cbn [threads loop].
  - rewrite decide_False by done. rewrite lookup_delete_ne by done. split; [|done].
    rewrite delete_delete, (map_sum_delete _ _ _ _ Hd). cbn. lia.
  - rewrite lookup_insert_ne by done. split; [|done].
    rewrite delete_insert_ne by done. rewrite (map_sum_insert_Some _ _ _ _ _ Hd). lia.
Qed.

(** When the eviction finds no block, the policy tracks none. *)
Lemma locked_untracked st a k :
  sim st a -> threads st !! evictor_id = Some (CEvict k, Locked) -> stripeFor k (shared st) !! k = None ->
  k ∉ tracked (policy (shared st)).
Proof.
  intros Hsim Ht Hn. rewrite <- flat_lookup in Hn by apply (sim_striped _ _ Hsim).
  rewrite (sim_policy _ _ Hsim). destruct (sim_tracks _ _ Hsim) as [_ ->]. rewrite not_elem_of_dom.
  destruct (sim_map _ _ Hsim k) as [(t & c & sg & Ht' & Hk & Hd)|Hs]; [|rewrite Hn in Hs; by inversion Hs].
  destruct (decide (t = evictor_id)) as [->|Hne]; [by rewrite Ht in Ht'; injection Ht' as <- <-|].
  pose proof (dirty_writes _ _ _ _ _ (sim_threads _ _ Hsim _ _ _ Ht') Hd) as He.
  destruct (sim_locks _ _ Hsim t evictor_id c (CEvict k) sg Locked k k Hne Ht' Ht Hk eq_refl (dirty_holds _ Hd) eq_refl eq_refl).
  congruence.
Qed.

Lemma blocks_same st st' k :
  tracked (policy (shared st')) = tracked (policy (shared st)) ->
  blocks_left st' = blocks_left st /\ blocks_after k st' = blocks_after k st.
Proof. unfold blocks_after, blocks_left. by intros ->. Qed.

Lemma blocks_bounds k st : (0 <= blocks_after k st <= blocks_left st)%Z.
Proof.
  unfold blocks_after, blocks_left. case_decide as Hk; [|lia].
  assert (size (tracked (policy (shared st))) <> 0%nat); [|lia]. intros E. apply size_empty_inv in E. set_solver.
Qed.

Lemma blocks_forgotten st st' k :
  tracked (policy (shared st')) = tracked (policy (shared st)) ∖ {[k]} -> blocks_left st' = blocks_after k st.
Proof.
  unfold blocks_after, blocks_left. intros ->. case_decide as Hk.
  - rewrite size_difference by set_solver. rewrite size_singleton.
    assert (size (tracked (policy (shared st))) <> 0%nat); [|lia]. intros E. apply size_empty_inv in E. set_solver.
  - replace (tracked (policy (shared st)) ∖ {[k]}) with (tracked (policy (shared st))) by set_solver. lia.
Qed.

Lemma work_less st st' :
  evictSig (shared st') = evictSig (shared st) -> (blocks_left st' <= blocks_left st)%Z -> (ev_rank st' < ev_rank st)%Z ->
  (ev_work st' < ev_work st)%Z.
Proof. unfold ev_work. intros -> Hb Hr. destruct (evictSig (shared st)); lia. Qed.

(** One step of an eviction in flight. *)
Lemma eviction_moves st a k sg l st' :
  sim st a -> threads st !! evictor_id = Some (CEvict k, sg) -> evict_stage sg = true ->
  tstep evictor_id st = Some (l, st') ->
  (exists ans, sg = Returning ans
     /\ st' = mk_conc (shared st) (delete evictor_id (threads st)) (ev_resume (loop st) ans))
  \/ exists sg', loop st' = loop st /\ threads st' !! evictor_id = Some (CEvict k, sg') /\ evict_stage sg' = true
      /\ (steps_left (CEvict k, sg') < steps_left (CEvict k, sg))%Z
      /\ evictSig (shared st') = evictSig (shared st) /\ (blocks_left st' <= blocks_left st)%Z
      /\ (if still_tracks sg' then blocks_after k st' else blocks_left st')
         = (if still_tracks sg then blocks_after k st else blocks_left st).
Proof.
  intros Hsim Ht He Hs. destruct (tstep_shape _ _ _ _ Hs) as (c0 & sg0 & Ht0 & Hor).
  rewrite Ht in Ht0. injection Ht0 as <- <-. destruct Hor as [(ans & -> & ->)|(sg' & s' & Hlt & -> & Hor)].
  { left. exists ans. split; [done|]. by rewrite decide_True. }
  right. exists sg'. cbn [loop threads shared]. rewrite lookup_insert_eq. split; [done|]. split; [done|].
  assert (Hsame : forall st2, shared st2 = shared st -> blocks_left st2 = blocks_left st /\ blocks_after k st2 = blocks_after k st)
    by (intros st2 E; apply blocks_same; by rewrite E).
  set (st2 := mk_conc s' (<[evictor_id := (CEvict k, sg')]> (threads st)) (loop st)).
  destruct Hor as [(ans & -> & -> & ->)|[(-> & _ & -> & ->)|[(_ & [=] & _)|(k' & lin & [= <-] & Hstage)]]].
  - destruct (Hsame st2 eq_refl) as [-> _]. split_and!; try done; lia.
  - destruct (Hsame st2 eq_refl) as [-> ->]. split_and!; try done; lia.
  - destruct (evict_stage_step _ _ _ _ _ _ He Hstage) as [(He' & Hsig & Htr)|(-> & Hn & -> & ->)].
    + assert (Hi : pol_inv (policy (shared st))) by (rewrite (sim_policy _ _ Hsim); apply (sim_tracks _ _ Hsim)).
      specialize (Htr Hi). split; [done|]. split; [done|]. split; [done|].
      assert (Hst : still_tracks sg = true) by by destruct sg. rewrite Hst in *. cbn [andb] in Htr.
      destruct (still_tracks sg') eqn:Hst'; cbn [negb] in Htr.
      * destruct (blocks_same st st2 k Htr) as [-> ->]. split; [lia|done].
      * rewrite (blocks_forgotten st st2 k Htr). pose proof (blocks_bounds k st). split; [lia|done].
    + pose proof (locked_untracked _ _ _ Hsim Ht Hn) as Hk. destruct (Hsame st2 eq_refl) as [-> _].
      split_and!; try done. cbn. unfold blocks_after. rewrite decide_False by done. lia.
Qed.

(** The evictor's question is answered. *)
Lemma asking_moves st a o l st' :
  sim st a -> legal_order evictor_id st -> loop st = EvAsked -> threads st !! evictor_id = Some (CAsk o, Started) ->
  tstep evictor_id st = Some (l, st') ->
  exists v, loop st' = EvAsked /\ threads st' !! evictor_id = Some (CAsk o, Returning (AVictim v))
    /\ (ev_work st' < ev_work st)%Z.
Proof.
  intros Hsim Hord Hl Ht. unfold tstep. rewrite Ht. cbn. unfold ask_victim.
  assert (Hi : pol_inv (policy (shared st))) by (rewrite (sim_policy _ _ Hsim); apply (sim_tracks _ _ Hsim)).
  pose proof (law_victim o _ Hi (Hord o Ht)) as Hv. destruct (law_ask o _ Hi) as [_ Htr].
  destruct (Victim o (policy (shared st))) as [v p'] eqn:E. cbn in *. intros [= _ <-]. exists v.
  cbn [loop threads]. rewrite lookup_insert_eq. split; [done|]. split; [done|].
  set (st2 := mk_conc _ _ _). assert (Hb : forall k, blocks_left st2 = blocks_left st /\ blocks_after k st2 = blocks_after k st)
    by (intros k; by apply blocks_same).
  apply work_less; [done|destruct (Hb hash32_zero) as [-> _]; done|].
  unfold ev_rank. cbn [st2 loop threads]. rewrite Hl, Ht, lookup_insert_eq. destruct v as [k|].
  - destruct (Hb k) as [_ ->]. unfold blocks_after. rewrite decide_True by done. lia.
  - assert (0 <= blocks_left st)%Z by (unfold blocks_left; lia). lia.
Qed.

(** A step of the evictor's call: the call keeps its shape and the evictor's work
    goes down. *)
Lemma evictor_call_moves st a l st' :
  sim st a -> ev_shape st -> legal_order evictor_id st -> tstep evictor_id st = Some (l, st') ->
  ev_shape st' /\ (ev_work st' < ev_work st)%Z /\ calls_left st' = calls_left st
  /\ (loop st = EvSelect -> loop st' = EvSelect) /\ (loop st' = EvStopped -> loop st = EvStopped).
Proof.
  intros Hsim Hsh Hord Hs.
  assert (Hcl : calls_left st' = calls_left st).
  { destruct (tstep_shape _ _ _ _ Hs) as (c & sg & _ & [(ans & _ & ->)|(sg' & s' & _ & -> & _)]); unfold calls_left; cbn [threads].
    - by rewrite delete_delete_eq.
    - by rewrite delete_insert_eq. }
  destruct (tstep_shape _ _ _ _ Hs) as (c0 & sg0 & Ht0 & _).
  unfold ev_shape in Hsh. destruct (loop st) as [| | | | |k0| |ks|ks|] eqn:Hl; try congruence.
  - destruct Hsh as (o & [Ht|(v & Ht)]).
    + destruct (asking_moves _ _ _ _ _ Hsim Hord Hl Ht Hs) as (v & Hl' & Ht' & Hw).
      split; [unfold ev_shape; rewrite Hl'; exists o; right; by exists v|]. split_and!; [done|done|congruence|congruence].
    + unfold tstep in Hs. rewrite Ht in Hs. cbn in Hs. injection Hs as _ <-. rewrite Hl.
      assert (0 <= match v with Some k => blocks_after k st | None => 0 end)%Z by (destruct v as [k|]; [pose proof (blocks_bounds k st)|]; lia).
      split; [|split_and!]; [| |exact Hcl|done|by destruct v].
      * unfold ev_shape. cbn [loop threads]. by destruct v; cbn; rewrite lookup_delete_eq.
      * apply work_less; [done|done|]. unfold ev_rank. cbn [loop threads ev_resume]. rewrite Hl, Ht, lookup_delete_eq.
        destruct v as [k|]; cbn [ev_resume]; [|lia]. unfold blocks_after, blocks_left. cbn [shared]. lia.
  - destruct Hsh as (k & sg & Ht & He).
    destruct (eviction_moves _ _ _ _ _ _ Hsim Ht He Hs) as [(ans & -> & ->)|(sg' & Hl' & Ht' & He' & Hlt & Hsig & Hb & Heq)].
    + rewrite Hl in *. cbn [ev_resume loop]. split; [unfold ev_shape; cbn; by rewrite lookup_delete_eq|].
      split_and!; [|exact Hcl|done|done]. apply work_less; [done|done|]. unfold ev_rank. cbn [loop threads]. rewrite Hl, Ht.
      cbn [still_tracks]. unfold blocks_left, steps_left. cbn [shared snd]. lia.
    + rewrite Hl in Hl'. split; [unfold ev_shape; rewrite Hl'; by exists k, sg'|]. split_and!; [|done|congruence|congruence].
      apply work_less; [done|done|]. unfold ev_rank. rewrite Hl, Hl', Ht, Ht', Heq. lia.
  - destruct Hsh as (k & sg & Ht & He).
    destruct (eviction_moves _ _ _ _ _ _ Hsim Ht He Hs) as [(ans & -> & ->)|(sg' & Hl' & Ht' & He' & Hlt & Hsig & Hb & _)].
    + rewrite Hl in *. cbn [ev_resume loop]. split; [unfold ev_shape; cbn; by rewrite lookup_delete_eq|].
      split_and!; [|exact Hcl|done|done]. apply work_less; [done|done|]. unfold ev_rank. cbn [loop threads]. rewrite Hl, Ht.
      unfold steps_left. cbn [snd]. lia.
    + rewrite Hl in Hl'. split; [unfold ev_shape; rewrite Hl'; by exists k, sg'|]. split_and!; [|done|congruence|congruence].
      apply work_less; [done|done|]. unfold ev_rank. rewrite Hl, Hl', Ht, Ht'. lia.
Qed.

(** Every step without new calls makes progress. *)
Lemma quiet_step_less st a st' :
  sim st a -> ev_shape st -> quiet_step st st' ->
  ev_shape st' /\ (loop st' = EvStopped -> loop st = EvStopped)
  /\ ((calls_left st' < calls_left st)%Z \/ (calls_left st' = calls_left st /\ ev_work st' < ev_work st)%Z).
Proof.
  intros Hsim Hsh (l & Hstep & Hinv & Hsel).
  assert (Hb : forall st, (0 <= blocks_left st)%Z) by (intros; unfold blocks_left; lia).
  assert (Hloop : forall l' (sig : bool), ev_in_call l' = false -> l' <> EvStopped ->
    (threads st !! evictor_id = None) ->
    (ev_rank (mk_conc (shared st) (threads st) l') < ev_rank st)%Z ->
    ev_shape (with_loop l' st) /\ (loop (with_loop l' st) = EvStopped -> loop st = EvStopped)
    /\ ((calls_left (with_loop l' st) < calls_left st)%Z
        \/ (calls_left (with_loop l' st) = calls_left st /\ ev_work (with_loop l' st) < ev_work st)%Z)).
  { intros l' _ Hc Hne Hn Hr. split; [unfold ev_shape; cbn; by destruct l'|]. split; [done|]. right. split; [done|].
    by apply work_less. }
  inversion Hstep as [t c st0 Hne Hc Hn|t l0 st0 st1 Hord Hts|st0 Hl Hs|ks st0 Hl|st0 Hl|st0 Hl|st0 Hl|o st0 Hl
    |k st0 Hl|k ks st0 Hl|st0 Hl]; subst; unfold ev_shape in Hsh; try rewrite Hl in Hsh.
  - by destruct (Hne (Hinv _ _ eq_refl)).
  - destruct (decide (t = evictor_id)) as [->|Hne].
    + destruct (evictor_call_moves _ _ _ _ Hsim Hsh Hord Hts) as (H1' & H2' & H3' & _ & H5'). auto.
    + destruct (client_moves _ _ _ _ Hne Hts) as (Hc & Hl & Ht). split; [|split; [congruence|by left]].
      unfold ev_shape. rewrite Hl, Ht. exact Hsh.
  - split; [done|]. split; [done|]. right. split; [done|]. unfold ev_work, ev_rank. cbn [loop threads shared with_sig evictSig].
    rewrite Hl, Hs. specialize (Hb st). unfold blocks_left in *. cbn [shared with_sig policy] in *. lia.
  - destruct (Hsel Hl) as [|]; done.
  - destruct (Hsel Hl) as [|]; done.
  - apply Hloop; [exact true|by destruct (over_low _)|by destruct (over_low _)|done|].
    unfold ev_rank. cbn [loop threads]. rewrite Hl. specialize (Hb st). unfold blocks_left in *. cbn [shared].
    destruct (over_low _); lia.
  - apply Hloop; [exact true|by destruct (over_quota _)|by destruct (over_quota _)|done|].
    unfold ev_rank. cbn [loop threads]. rewrite Hl. specialize (Hb st). unfold blocks_left in *. cbn [shared].
    destruct (over_quota _); lia.
  - split; [exists o; left; by apply lookup_insert_eq|]. split; [done|]. right.
    split; [unfold calls_left; cbn [ev_call threads]; by rewrite delete_insert_eq|].
    apply work_less; [done|done|]. unfold ev_rank. cbn [ev_call loop threads]. rewrite Hl, lookup_insert_eq.
    specialize (Hb st). unfold blocks_left in *. cbn [shared ev_call]. lia.
  - split; [exists k, Started; split; [by apply lookup_insert_eq|done]|]. split; [done|]. right.
    split; [unfold calls_left; cbn [ev_call threads]; by rewrite delete_insert_eq|].
    apply work_less; [done|done|]. unfold ev_rank. cbn [ev_call loop threads]. rewrite Hl, lookup_insert_eq.
    cbn [still_tracks]. unfold blocks_after, blocks_left, steps_left. cbn [shared ev_call snd]. lia.
  - split; [exists k, Started; split; [by apply lookup_insert_eq|done]|]. split; [done|]. right.
    split; [unfold calls_left; cbn [ev_call threads]; by rewrite delete_insert_eq|].
    apply work_less; [done|done|]. unfold ev_rank. cbn [ev_call loop threads]. rewrite Hl, lookup_insert_eq.
    unfold steps_left. cbn [length snd]. lia.
  - apply Hloop; [exact true|done|done|done|]. unfold ev_rank. cbn [loop threads]. rewrite Hl. cbn [length]. lia.
Qed.

Lemma tstep_label t l st st' : tstep t st = Some (l, st') -> forall t' c, l <> Inv t' c.
Proof.
  unfold tstep. destruct (threads st !! t) as [[c sg]|]; [|done]. cbn.
  destruct sg; repeat (case_match || destruct (stage_step _ _ _ _) as [[[? []] ?]|] || destruct (store_step _ _));
    cbn; intros Heq; try done; injection Heq as <- _; done.
Qed.

(** A call in flight that moves is a quiet step. *)
Lemma thread_quiet st a t l st' :
  sim st a -> ev_shape st -> legal_order t st -> tstep t st = Some (l, st') -> quiet_step st st'.
Proof.
  intros Hsim Hsh Hord Hs. exists l. split; [by apply (step_thread t)|]. split.
  - intros t' c ->. by destruct (tstep_label _ _ _ _ Hs t' c).
  - intros Hl. left. destruct (decide (t = evictor_id)) as [->|Hne].
    + by apply (evictor_call_moves st a l).
    + destruct (client_moves _ _ _ _ Hne Hs) as (_ & -> & _). done.
Qed.

Lemma ev_shape_step st a l st' : sim st a -> ev_shape st -> conc_step st l st' -> ev_shape st'.
Proof.
  intros Hsim Hsh Hstep. assert (Hq : quiet_step st st' -> ev_shape st') by (intros Hq; by apply (quiet_step_less st a)).
  inversion Hstep as [t c st0 Hne Hc Hn|t l0 st0 st1 Hord Hts|st0 Hl Hs|ks st0 Hl|st0 Hl|st0 Hl|st0 Hl|o st0 Hl
    |k st0 Hl|k ks st0 Hl|st0 Hl]; subst;
    try (apply Hq; eexists; split; [exact Hstep|]; split; [by intros ? ? [= <- <-]|cbn; intros ?; solve [congruence|auto]]).
  - unfold ev_shape in *. cbn [loop threads]. by rewrite lookup_insert_ne.
  - apply Hq. by eapply thread_quiet.
  - unfold ev_shape in *. rewrite Hl in Hsh. exact Hsh.
  - unfold ev_shape in *. rewrite Hl in Hsh. exact Hsh.
Qed.

Lemma ev_work_nonneg st : ev_shape st -> (0 <= ev_work st)%Z.
Proof.
  intros Hsh. assert (Hb : (0 <= blocks_left st)%Z) by (unfold blocks_left; lia).
  assert (Hk : forall k, (0 <= blocks_after k st)%Z) by (intros k; apply blocks_bounds).
  assert (Hs : forall th, (0 <= steps_left th)%Z) by (intros [c sg]; by destruct sg).
  assert (0 <= ev_rank st)%Z; [|unfold ev_work; destruct (evictSig _); lia].
  unfold ev_rank. destruct (loop st) as [| | | | |k| |ks|ks|]; try lia.
  - destruct (threads st !! evictor_id) as [[c sg]|]; [|lia]. destruct sg as [| | | | | | | | | | | | | | | | |ans]; try lia.
    destruct ans as [| | |[k|]|]; try lia. specialize (Hk k). lia.
  - specialize (Hk k). lia.
  - destruct (threads st !! evictor_id) as [[[| | | | | |k] sg]|]; try lia.
    specialize (Hk k). specialize (Hs (CEvict k, sg)). destruct (still_tracks sg); lia.
  - destruct (threads st !! evictor_id) as [th|]; [|lia]. specialize (Hs th). lia.
Qed.

(** No schedule of the work in flight goes on for ever. *)
Lemma quiet_terminates st a : sim st a -> ev_shape st -> Acc (fun st2 st1 => quiet_step st1 st2) st.
Proof.
  remember (Z.to_nat (calls_left st)) as n eqn:En. revert st a En.
  induction n as [n IHn] using lt_wf_ind. intros st. remember (Z.to_nat (ev_work st)) as m eqn:Em. revert st Em.
  induction m as [m IHm] using lt_wf_ind. intros st -> a -> Hsim Hsh.
  constructor. intros st' Hq. pose proof Hq as (l & Hstep & _).
  destruct (sim_step _ _ _ _ Hsim Hstep) as (a' & _ & Hsim').
  destruct (quiet_step_less _ _ _ Hsim Hsh Hq) as (Hsh' & _ & Hor).
  assert (Hc : forall st, (0 <= calls_left st)%Z) by (intros; apply steps_left_bound).
  pose proof (Hc st). pose proof (Hc st'). pose proof (ev_work_nonneg _ Hsh). pose proof (ev_work_nonneg _ Hsh').
  destruct Hor as [Hlt|[Heq Hlt]].
  - eapply (IHn (Z.to_nat (calls_left st')) ltac:(lia) st'); done.
  - eapply (IHm (Z.to_nat (ev_work st')) ltac:(lia) st'); [done|by rewrite Heq|done|done].
Qed.

(** Where nothing can move, every call has returned and the evictor waits. *)
Lemma quiet_end st a :
  sim st a -> ev_shape st -> loop st <> EvStopped -> legal_order evictor_id st -> (forall st', ~ quiet_step st st') ->
  threads st = ∅ /\ loop st = EvSelect /\ evictSig (shared st) = false.
Proof.
  intros Hsim Hsh Hns Hord Hend.
  assert (Hth : threads st = ∅).
  { destruct (decide (threads st = ∅)) as [|Hne]; [done|]. destruct (tstep_any _ _ Hsim Hne) as (t & l & st' & Hs).
    destruct (Hend st'). eapply thread_quiet; [done|done| |done].
    intros o Ht. destruct (decide (t = evictor_id)) as [->|Hnt]; [by apply Hord|].
    by destruct Hnt; apply (sim_evictor _ _ Hsim _ _ _ Ht). }
  split; [done|]. unfold ev_shape in Hsh. rewrite Hth, lookup_empty in Hsh.
  assert (Hq : forall l st', conc_step st l st' -> (forall t c, l = Inv t c -> t = evictor_id) ->
    (loop st = EvSelect -> loop st' = EvSelect \/ loop st' = EvTotal) -> False).
  { intros l st' H1' H2' H3'. apply (Hend st'). by exists l. }
  destruct (loop st) as [| | | | |k| |ks|ks|] eqn:Hl.
  - split; [done|]. destruct (evictSig (shared st)) eqn:E; [|done]. exfalso.
    eapply Hq; [by apply step_nudge|done|]. by right.
  - exfalso. eapply Hq; [by apply step_total|done|done].
  - exfalso. eapply Hq; [by apply step_quota|done|done].
  - exfalso. eapply Hq; [by apply (step_victim [])| |done]. by intros t c [= <- _].
  - by destruct Hsh as (o & [|[v ?]]).
  - exfalso. eapply Hq; [by apply step_evict| |done]. by intros t c [= <- _].
  - by destruct Hsh as (k & sg & ? & _).
  - exfalso. destruct ks as [|k ks].
    + eapply Hq; [by apply step_swept|done|done].
    + eapply Hq; [by eapply step_sweep| |done]. by intros t c [= <- _].
  - by destruct Hsh as (k & sg & ? & _).
  - done.
Qed.

End measure.

(** ** Relief *)

(** Quiet runs through states that satisfy [ok]. *)
Inductive quiet_run {P} `{PolicyLaws P} (ok : Conc P -> Prop) (st : Conc P) : Conc P -> Prop :=
  | quiet_refl : quiet_run ok st st
  | quiet_next st' st'' : quiet_run ok st st' -> quiet_step st' st'' -> ok st'' -> quiet_run ok st st''.

Section relief.
Context {P : Type} `{QuotaLaws P} (p : P) (opts : list StoreOption).
Hypothesis p_inv : pol_inv p.
Hypothesis p_empty : tracked p = ∅.

Let s0 : Store P := NewStore p opts.
Let Hsim0 : sim (conc_init s0) (mk_spec s0 ∅) := sim_init p opts p_inv p_empty.

Lemma run_shape ok h st : conc_run ok (conc_init s0) h st -> ev_shape st /\ exists a, sim st a.
Proof.
  induction 1 as [Hok|h l st st' Hr (Hsh & a & Hsim) Hstep Hok]; [split; [done|by eexists]|].
  split; [by eapply ev_shape_step|]. destruct (sim_step _ _ _ _ Hsim Hstep) as (a' & _ & Ha). by exists a'.
Qed.

Lemma quiet_run_conc ok h st st' :
  conc_run ok (conc_init s0) h st -> quiet_run ok st st' -> exists h', conc_run ok (conc_init s0) h' st'.
Proof.
  intros Hr Hq. induction Hq as [|st1 st2 _ IH (l & Hstep & _) Hok]; [by exists h|].
  destruct IH as [h' Hr']. eexists. by eapply run_snoc.
Qed.

(** C6. Pressure is always relieved: from any reachable state in which the evictor has
    not been stopped, once no further call begins and no tick fires, no schedule of
    the calls in flight, the nudges and the evictor goes on for ever; and where a
    schedule ends, every call has returned, the evictor waits in its [select], the
    byte total is below the high-water mark and no tenant is over its quota. *)
Theorem eviction_relieves h st :
  (0 <= loWater s0 < hiWater s0)%Z -> conc_run fits (conc_init s0) h st -> loop st <> EvStopped ->
  Acc (fun st2 st1 => quiet_step st1 st2) st
  /\ forall st', quiet_run fits st st' -> legal_order evictor_id st' -> (forall st'', ~ quiet_step st' st'') ->
       threads st' = ∅ /\ loop st' = EvSelect
       /\ pressured (shared st') = false /\ over_quota (policy (shared st')) = false.
Proof.
  intros Hm Hr Hns. destruct (run_shape _ _ _ Hr) as [Hsh [a Hsim]]. split; [by eapply quiet_terminates|].
  intros st' Hq Hord Hend. destruct (quiet_run_conc _ _ _ _ Hr Hq) as [h' Hr'].
  destruct (run_shape _ _ _ Hr') as [Hsh' [a' Hsim']].
  assert (Hns' : loop st' <> EvStopped).
  { clear Hord Hend Hr' Hsh' Hsim'. induction Hq as [|st1 st2 Hq IH Hstep Hok]; [done|]. intros E.
    destruct (quiet_run_conc _ _ _ _ Hr Hq) as [h1 Hr1]. destruct (run_shape _ _ _ Hr1) as [Hsh1 [a1 Hsim1]].
    destruct (quiet_step_less _ _ _ Hsim1 Hsh1 Hstep) as (_ & Hst & _). by apply IH, Hst. }
  destruct (quiet_end _ _ Hsim' Hsh' Hns' Hord Hend) as (Hth & Hl & Hsig). split; [done|]. split; [done|].
  apply (no_lost_wakeup p opts p_inv p_empty h'); [done|done|done|by left|done].
Qed.

End relief.

(** ** Witness: a write over the high-water mark, evicted *)

Section plays.
Context {P : Type} `{PolicyLaws P}.
Implicit Types (st : Conc P).

(** Nothing in flight, nothing to do. *)
Lemma at_rest st st' :
  threads st = ∅ -> loop st = EvSelect -> evictSig (shared st) = false -> ~ quiet_step st st'.
Proof.
  intros Hth Hl Hsig (l & Hstep & Hinv & Hsel). specialize (Hsel Hl).
  inversion Hstep as [t c st0 Hne Hc Hn|t l0 st0 st1 Hord Hts| | | | | | | | |]; subst; try congruence; try (by destruct Hsel).
  - by destruct (Hne (Hinv _ _ eq_refl)).
  - unfold tstep in Hts. by rewrite Hth, lookup_empty in Hts.
Qed.

Lemma play_quiet (ok : Conc P -> Prop) okb ts st0 st h st' :
  (forall st, okb st = true -> ok st) -> (forall t st, legal_order t st) ->
  ev_shape st -> (exists a, sim st a) -> quiet_run ok st0 st ->
  play okb ts st = Some (h, st') -> quiet_run ok st0 st'.
Proof.
  intros Hok Hord. revert h st. induction ts as [|t ts IH]; intros h st Hsh [a Hsim] Hq Hp; cbn in Hp; [by injection Hp as _ <-|].
  destruct (match t with Some t => _ | None => _ end) as [[l st1]|] eqn:Hs; cbn in Hp; [|done].
  destruct (okb st1) eqn:Ho; [|done]. destruct (play okb ts st1) as [[h2 st2]|] eqn:Hp2; cbn in Hp; [|done].
  injection Hp as _ <-.
  assert (Hstep : conc_step st l st1 /\ quiet_step st st1).
  { destruct t as [t|]; [split; [by apply (step_thread t)|by eapply thread_quiet]|].
    pose proof (ev_move_step _ _ _ _ Hs) as Hc. split; [done|]. exists l. split; [done|]. unfold ev_move in Hs.
    destruct (loop st) eqn:Hl; try done; try (destruct (evictSig (shared st)); [|done]); injection Hs as <- <-;
      (split; [by intros ? ? [= <- _]|intros ?; first [by right|congruence]]). }
  destruct Hstep as [Hc Hq1]. destruct (sim_step _ _ _ _ Hsim Hc) as (a' & _ & Hsim').
  eapply (IH _ st1); [exact (ev_shape_step _ _ _ _ Hsim Hsh Hc)|by exists a'| |exact Hp2]. eapply quiet_next; [exact Hq|exact Hq1|by apply Hok].
Qed.

End plays.

Lemma eviction_relieves_witness :
  let st := begin 1 (CPut 5 hash32_zero (Some w_entry)) (conc_init w_small) in
  Acc (fun st2 st1 => quiet_step st1 st2) st
  /\ exists st', quiet_run fits st st' /\ pressured (shared st') = false /\ over_quota (policy (shared st')) = false.
Proof.
  intros st.
  assert (Hr : conc_run fits (conc_init w_small) [Inv 1 (CPut 5 hash32_zero (Some w_entry))] st).
  { apply (begin_run _ _ []); [done|done|done| |apply run_nil]; apply fitsb_ok; vm_compute; reflexivity. }
  assert (Hq : (fun r => (threads r.2, loop r.2, evictSig (shared r.2))) <$> play fitsb w_drain st
    = Some (∅, EvSelect, false)) by (vm_compute; reflexivity).
  destruct (@eviction_relieves LRUPolicy lru_policy lru_laws lru_quota NewLRU [WithMaxBytes 2; WithWatermarks f64_1 (f64_div f64_1 (f64_of_Z 2))] lru_inv_new eq_refl
    [Inv 1 (CPut 5 hash32_zero (Some w_entry))] st) as [Hacc Hend].
  - vm_compute. split; [intros Hx; discriminate Hx|reflexivity].
  - exact Hr.
  - intros Hx. discriminate Hx.
  - split; [exact Hacc|]. destruct (play fitsb w_drain st) as [[h st']|] eqn:E; [|discriminate Hq].
    injection Hq as Hth Hl Hs. exists st'.
    destruct (@run_shape LRUPolicy lru_policy lru_laws NewLRU [WithMaxBytes 2; WithWatermarks f64_1 (f64_div f64_1 (f64_of_Z 2))] lru_inv_new eq_refl
      _ _ _ Hr) as [Hsh Hsim].
    assert (Hqr : quiet_run fits st st') by exact (play_quiet _ _ _ _ _ _ _ fitsb_ok lru_legal Hsh Hsim (quiet_refl _ _) E).
    split; [exact Hqr|]. refine (proj2 (proj2 (Hend st' Hqr (lru_legal _ _) _))).
    intros st''. exact (at_rest st' st'' Hth Hl Hs).
Defined.
