(* ===== verification/ColdTier.v ===== *)
(** The cold tier: [src/internal/coldtier/coldtier.go] and [s3.go].

    [encode] and [decode] are the framing of a cold object; [Memory] is the
    in-process tier; [S3Tier] is the bounded queue, the workers and the bucket,
    whose client is a parameter.  [ColdTier] is the interface [Tier] with what
    its clients rely on: a hit is something that was spilled under the same model
    and hash. *)

From S2P Require Import Prelude Bytes Policy.

(** ** Keys and framing *)

(** [hex.EncodeToString] *)
Definition hex_digit (n : Z) : byte :=
  Z_byte (if (n <? 10)%Z then 48 + n else 87 + n)%Z.
Definition hex_byte (b : byte) : list byte :=
  [hex_digit (byte_Z b / 16)%Z; hex_digit (byte_Z b mod 16)%Z].
Definition hex_encode (bs : list byte) : list byte := bs ≫= hex_byte.

(** [objectKey], as the bytes of the Go string *)
Definition objectKey (model : string) (hash : BlockHash) : list byte :=
  bytes_of_string "blocks/" ++ bytes_of_string model ++ bytes_of_string "/"
    ++ hex_encode (hash_bytes hash).

Definition magic : list byte := bytes_of_string "KVC1".
Definition headerMin : nat := 4 + 8 + 4.

(** [encode] *)
Definition encode (version : Z) (tokenIDs : list Z) (kv : list byte) : list byte :=
  magic ++ le_bytes 8 version ++ le_bytes 4 (u32 (Z.of_nat (length tokenIDs)))
    ++ (tokenIDs ≫= fun t => le_bytes 4 (u32 t)) ++ kv.

(** [blob[off : off+n]] *)
Definition slice (off n : nat) (blob : list byte) : list byte := take n (drop off blob).

(** The token loop of [decode], from offset [off]. *)
Fixpoint decode_tokens (n off : nat) (blob : list byte) : list Z :=
  match n with
  | O => []
  | S n => i32 (le_Z (slice off 4 blob)) :: decode_tokens n (off + 4) blob
  end.

(** [decode]; [None] is an error.  The token count is an unsigned 32-bit value,
    so the code's [n < 0] cannot hold on a 64-bit [int]. *)
Definition decode (blob : list byte) : option (Z * list Z * list byte) :=
  if (length blob <? headerMin) || negb (bool_decide (slice 0 4 blob = magic)) then None
  else
    let version := le_Z (slice 4 8 blob) in
    let n := le_Z (slice 12 4 blob) in
    if ((n <? 0) || (Z.of_nat (length blob) <? 16 + 4 * n))%Z then None
    else
      let n := Z.to_nat n in
      Some (version, decode_tokens n 16 blob, drop (16 + 4 * n) blob).

(** ** The interface *)

(** [Tier.Get]: a hit, a clean miss or a storage error. *)
Inductive tier_result :=
  | TierHit (kv : list byte) (version : Z) (tokenIDs : list Z)
  | TierMiss
  | TierError.

Record cold_block := mk_cold { cb_version : Z; cb_tokens : list Z; cb_kv : list byte }.

(** The values Go's types admit. *)
Definition cold_ok (b : cold_block) : Prop :=
  in_u64 (cb_version b) /\ Forall (fun t => - 2 ^ 31 <= t < 2 ^ 31)%Z (cb_tokens b)
  /\ (Z.of_nat (length (cb_tokens b)) < 2 ^ 32)%Z.

(** [Tier]: its two operations, and the contract a reader relies on.  [tier_holds]
    says which blocks the tier may answer for a key. *)
Class ColdTier (T : Type) := {
  tier_Spill : string -> BlockHash -> cold_block -> T -> T;
  tier_Get : string -> BlockHash -> T -> tier_result;
  tier_holds : T -> string -> BlockHash -> cold_block -> Prop;
  tier_hit_held t model h kv v toks :
    tier_Get model h t = TierHit kv v toks -> tier_holds t model h (mk_cold v toks kv);
  tier_spill_held t model h b model' h' b' :
    cold_ok b -> tier_holds (tier_Spill model h b t) model' h' b' ->
    tier_holds t model' h' b' \/ (model' = model /\ h' = h /\ b' = b);
}.

(** ** Round trips of the framing *)

Section framing.
Implicit Types (toks : list Z) (blob kv : list byte).

Definition token_bytes toks : list byte := toks ≫= fun t => le_bytes 4 (u32 t).

Lemma token_bytes_cons t toks : token_bytes (t :: toks) = le_bytes 4 (u32 t) ++ token_bytes toks.
Proof. done. Qed.

Lemma length_token_bytes toks : length (token_bytes toks) = 4 * length toks.
Proof.
  induction toks as [|t toks IH]; [done|]. rewrite token_bytes_cons, length_app, length_le_bytes, IH.
  simpl. lia.
Qed.

Lemma slice_app_at pre mid post off n :
  length pre = off -> length mid = n -> slice off n (pre ++ mid ++ post) = mid.
Proof.
  intros <- <-. unfold slice. by rewrite drop_app_length, take_app_length.
Qed.

Lemma decode_tokens_spec toks pre post off :
  length pre = off -> Forall (fun t => - 2 ^ 31 <= t < 2 ^ 31)%Z toks ->
  decode_tokens (length toks) off (pre ++ token_bytes toks ++ post) = toks.
Proof.
  intros Hpre Ht. revert pre off Hpre. induction Ht as [|t toks Ht Hts IH]; intros pre off Hpre; [done|].
  rewrite token_bytes_cons, <- app_assoc.
  cbn [length decode_tokens]. rewrite (slice_app_at pre) by (done || apply length_le_bytes). f_equal.
  - rewrite le_Z_bytes. unfold u32. change (256 ^ Z.of_nat 4)%Z with (2 ^ 32)%Z. rewrite Z.mod_mod by lia.
    by apply i32_u32.
  - rewrite app_assoc. apply IH. rewrite length_app, length_le_bytes. lia.
Qed.

Lemma length_encode v toks kv : length (encode v toks kv) = 16 + 4 * length toks + length kv.
Proof.
  unfold encode. fold (token_bytes toks).
  rewrite !length_app, !length_le_bytes, length_token_bytes. simpl. lia.
Qed.

Lemma decode_encode v toks kv :
  cold_ok (mk_cold v toks kv) -> decode (encode v toks kv) = Some (v, toks, kv).
Proof.
  intros (Hv & Ht & Hn). simpl in Hv, Ht, Hn. unfold decode.
  assert (slice 0 4 (encode v toks kv) = magic) as -> by done.
  assert (slice 4 8 (encode v toks kv) = le_bytes 8 v) as ->.
  { apply (slice_app_at magic); [done|apply length_le_bytes]. }
  assert (slice 12 4 (encode v toks kv) = le_bytes 4 (u32 (Z.of_nat (length toks)))) as ->.
  { unfold encode. rewrite app_assoc. apply slice_app_at; [|apply length_le_bytes].
    by rewrite length_app, length_le_bytes. }
  rewrite bool_decide_true, orb_false_r by done. rewrite length_encode.
  rewrite (proj2 (Nat.ltb_ge _ _)) by (unfold headerMin; lia).
  rewrite !le_Z_bytes. change (256 ^ Z.of_nat 8)%Z with (2 ^ 64)%Z. change (256 ^ Z.of_nat 4)%Z with (2 ^ 32)%Z.
  unfold u32. rewrite Z.mod_mod, (Z.mod_small v), (Z.mod_small (Z.of_nat _)) by (wrap_unfold; lia).
  rewrite (proj2 (Z.ltb_ge _ _)), (proj2 (Z.ltb_ge _ _)) by lia. cbn [orb].
  rewrite Nat2Z.id. do 2 f_equal; [f_equal|].
  - assert (encode v toks kv = (magic ++ le_bytes 8 v ++ le_bytes 4 (u32 (Z.of_nat (length toks))))
      ++ token_bytes toks ++ kv) as -> by (unfold encode; by rewrite <- !app_assoc).
    apply decode_tokens_spec; [|done]. by rewrite !length_app, !length_le_bytes.
  - assert (encode v toks kv = (magic ++ le_bytes 8 v ++ le_bytes 4 (u32 (Z.of_nat (length toks)))
      ++ token_bytes toks) ++ kv) as -> by (unfold encode; by rewrite <- !app_assoc).
    apply drop_app_length'. rewrite !length_app, !length_le_bytes, length_token_bytes. simpl. lia.
Qed.

(** What [decode] accepts is exactly what [encode] produces. *)
Lemma le_bytes_slice n off blob :
  off + n <= length blob -> le_bytes n (le_Z (slice off n blob)) = slice off n blob.
Proof.
  intros Hn. assert (length (slice off n blob) = n) as Hlen.
  { unfold slice. rewrite length_take, length_drop. lia. }
  rewrite <- Hlen at 1. apply le_bytes_Z.
Qed.

Lemma u32_i32 z : (0 <= z < 2 ^ 32)%Z -> u32 (i32 z) = z.
Proof. intros. wrap_lia. Qed.

Lemma slice_le_Z_u32 off blob : (0 <= le_Z (slice off 4 blob) < 2 ^ 32)%Z.
Proof.
  pose proof (le_Z_range (slice off 4 blob)) as Hr.
  assert (Z.of_nat (length (slice off 4 blob)) <= 4)%Z by (unfold slice; rewrite length_take; lia).
  pose proof (Z.pow_le_mono_r 256 (Z.of_nat (length (slice off 4 blob))) 4 ltac:(lia) ltac:(lia)).
  change (256 ^ 4)%Z with (2 ^ 32)%Z in *. lia.
Qed.

Lemma slice_split off n m blob : slice off n blob ++ slice (off + n) m blob = slice off (n + m) blob.
Proof. unfold slice. rewrite <- drop_drop. by rewrite take_take_drop. Qed.

Lemma token_bytes_decode n off blob :
  off + 4 * n <= length blob -> token_bytes (decode_tokens n off blob) = slice off (4 * n) blob.
Proof.
  revert off. induction n as [|n IH]; intros off Hn; [done|]. cbn [decode_tokens].
  rewrite token_bytes_cons, u32_i32, le_bytes_slice, IH, slice_split by (apply slice_le_Z_u32 || lia).
  f_equal. lia.
Qed.

Lemma length_decode_tokens n off blob : length (decode_tokens n off blob) = n.
Proof. revert off. induction n; simpl; auto. Qed.

Lemma encode_decode blob v toks kv :
  decode blob = Some (v, toks, kv) -> encode v toks kv = blob /\ cold_ok (mk_cold v toks kv).
Proof.
  unfold decode. destruct (Nat.ltb_spec (length blob) headerMin) as [|Hlen]; [done|]. unfold headerMin in Hlen.
  cbn [orb]. destruct (bool_decide (slice 0 4 blob = magic)) eqn:Em; [|done]. apply bool_decide_eq_true in Em.
  cbn [negb]. set (n := le_Z (slice 12 4 blob)). pose proof (slice_le_Z_u32 12 blob) as Hn. fold n in Hn.
  destruct (Z.ltb_spec n 0); [lia|]. cbn [orb]. destruct (Z.ltb_spec (Z.of_nat (length blob)) (16 + 4 * n)); [done|].
  intros [= <- <- <-]. split.
  - unfold encode. fold (token_bytes (decode_tokens (Z.to_nat n) 16 blob)).
    rewrite token_bytes_decode, length_decode_tokens, Z2Nat.id by lia.
    assert (u32 n = n) as -> by (unfold u32; by apply Z.mod_small).
    unfold n. rewrite !le_bytes_slice, <- Em by lia. rewrite !app_assoc.
    rewrite (slice_split 0 4 8), (slice_split 0 12 4), (slice_split 0 16). unfold slice.
    rewrite drop_0. fold n. apply take_drop.
  - split_and!; simpl.
    + pose proof (le_Z_range (slice 4 8 blob)) as Hr.
      assert (length (slice 4 8 blob) = 8) as Hl by (unfold slice; rewrite length_take, length_drop; lia).
      rewrite Hl in Hr. exact Hr.
    + apply Forall_forall. intros t Ht. clear -Ht. revert Ht. generalize 16. induction (Z.to_nat n) as [|k IH];
        intros off; [by intros ?%not_elem_of_nil|]. intros [->|Hin]%elem_of_cons; [apply i32_range|by eapply IH].
    + rewrite length_decode_tokens. lia.
Qed.

End framing.

(** ** Object keys *)

Section keys.

Lemma hex_digit_inj a b : (0 <= a < 16)%Z -> (0 <= b < 16)%Z -> hex_digit a = hex_digit b -> a = b.
Proof.
  intros Ha Hb Heq. apply (f_equal byte_Z) in Heq. unfold hex_digit in Heq.
  rewrite !byte_Z_byte in Heq.
  destruct (Z.ltb_spec a 10), (Z.ltb_spec b 10); rewrite !Z.mod_small in Heq by lia; lia.
Qed.

Lemma hex_byte_inj a b : hex_byte a = hex_byte b -> a = b.
Proof.
  unfold hex_byte. intros [= H1 H2]. pose proof (byte_Z_range a). pose proof (byte_Z_range b).
  apply hex_digit_inj in H1, H2; try (Z.div_mod_to_equations; lia).
  apply byte_Z_inj. rewrite (Z.div_mod (byte_Z a) 16), (Z.div_mod (byte_Z b) 16) by lia. congruence.
Qed.

Lemma length_hex_encode bs : length (hex_encode bs) = 2 * length bs.
Proof.
  induction bs as [|b bs IH]; [done|]. unfold hex_encode in *. cbn [mbind list_bind].
  rewrite length_app, IH. simpl. lia.
Qed.

Lemma hex_encode_inj bs cs : hex_encode bs = hex_encode cs -> bs = cs.
Proof.
  revert cs. induction bs as [|b bs IH]; intros [|c cs] Heq; try done.
  unfold hex_encode in Heq. cbn [mbind list_bind] in Heq.
  apply app_inj_1 in Heq as [H1 H2]; [|done]. f_equal; [by apply hex_byte_inj|by apply IH].
Qed.

Lemma objectKey_inj m h m' h' : objectKey m h = objectKey m' h' -> m = m' /\ h = h'.
Proof.
  unfold objectKey. intros Heq. apply app_inv_head in Heq.
  rewrite !app_assoc in Heq. apply app_inj_2 in Heq as [H1 H2]; [|by rewrite !length_hex_encode, !length_hash_bytes].
  apply app_inj_2 in H1 as [H1 _]; [|done].
  split; [by apply bytes_of_string_inj|by apply hash32_eq, hex_encode_inj].
Qed.

End keys.

(** ** Memory *)

(** [Memory]: the map from object keys to blobs. *)
Abbreviation Memory := (gmap (list byte) (list byte)).
Definition NewMemory : Memory := ∅.

Definition memory_Spill (model : string) (hash : BlockHash) (b : cold_block) (t : Memory) : Memory :=
  <[objectKey model hash := encode (cb_version b) (cb_tokens b) (cb_kv b)]> t.

(** The end of both [Get]s: decode what was found. *)
Definition decoded (blob : list byte) : tier_result :=
  match decode blob with
  | Some (version, tokenIDs, kv) => TierHit kv version tokenIDs
  | None => TierError
  end.

Definition memory_Get (model : string) (hash : BlockHash) (t : Memory) : tier_result :=
  match t !! objectKey model hash with
  | None => TierMiss
  | Some blob => decoded blob
  end.

Lemma decoded_encode b : cold_ok b -> decoded (encode (cb_version b) (cb_tokens b) (cb_kv b))
  = TierHit (cb_kv b) (cb_version b) (cb_tokens b).
Proof. intros Hb. unfold decoded. destruct b as [v toks kv]. by rewrite decode_encode. Qed.

Lemma decoded_hit blob kv v toks : decoded blob = TierHit kv v toks -> blob = encode v toks kv.
Proof.
  unfold decoded. destruct (decode blob) as [[[v' toks'] kv']|] eqn:E; [|done]. intros [= -> -> ->].
  symmetry. by apply encode_decode.
Qed.

#[export] Program Instance memory_tier : ColdTier Memory := {|
  tier_Spill := memory_Spill;
  tier_Get := memory_Get;
  tier_holds t model h b := memory_Get model h t = TierHit (cb_kv b) (cb_version b) (cb_tokens b);
|}.
Next Obligation. done. Qed.
Next Obligation.
  intros t model h b model' h' b' Hok. unfold memory_Get, memory_Spill.
  destruct (decide (objectKey model' h' = objectKey model h)) as [Heq|Hne].
  - rewrite Heq, lookup_insert_eq, decoded_encode by done. intros [= H1 H2 H3]. right.
    apply objectKey_inj in Heq as [-> ->]. destruct b, b'; simpl in *; by subst.
  - rewrite lookup_insert_ne by done. by left.
Qed.

(** ** S3Tier *)

Definition defaultSpillWorkers : nat := 4.
Definition defaultSpillQueue : nat := 256.

(** [spillJob] *)
Record spillJob := mk_job { job_model : string; job_hash : BlockHash; job_block : cold_block }.

(** The slice [s3API] of the client: the outcome of a [GetObject] with its body
    read ([types.NoSuchKey] and [types.NotFound] are [ObjMissing]), and a
    [PutObject] that may fail.  [B] is the state of the bucket; what fails is up
    to it. *)
Inductive get_outcome := ObjBody (blob : list byte) | ObjMissing | ObjFailed.

Class S3API (B : Type) := {
  GetObject : list byte -> B -> get_outcome;
  PutObject : list byte -> list byte -> B -> bool * B;
}.

(** [S3Tier], with the jobs its workers have taken off the queue. *)
Record S3Tier (B : Type) := mk_s3 {
  s3_bucket : B;
  s3_jobs : list spillJob;
  s3_inflight : list spillJob;
  s3_dropped : Z;
}.
#[global] Arguments mk_s3 {B}.
#[global] Arguments s3_bucket {B}.
#[global] Arguments s3_jobs {B}.
#[global] Arguments s3_inflight {B}.
#[global] Arguments s3_dropped {B}.

Section s3.
Context {B : Type} `{S3API B}.
Implicit Types (t : S3Tier B).

Definition newS3WithClient (bucket : B) : S3Tier B := mk_s3 bucket [] [] 0.

(** [Spill]: the non-blocking send on the channel of capacity 256. *)
Definition s3_Spill (model : string) (hash : BlockHash) (b : cold_block) (t : S3Tier B) : S3Tier B :=
  if decide (length (s3_jobs t) < defaultSpillQueue)
  then mk_s3 (s3_bucket t) (s3_jobs t ++ [mk_job model hash b]) (s3_inflight t) (s3_dropped t)
  else mk_s3 (s3_bucket t) (s3_jobs t) (s3_inflight t) (i64 (s3_dropped t + 1)).

(** [Get] *)
Definition s3_Get (model : string) (hash : BlockHash) (t : S3Tier B) : tier_result :=
  match GetObject (objectKey model hash) (s3_bucket t) with
  | ObjMissing => TierMiss
  | ObjFailed => TierError
  | ObjBody blob => decoded blob
  end.

Definition Dropped (t : S3Tier B) : Z := s3_dropped t.

(** The body of [worker] for one job: frame it and upload it; a failure is only
    logged. *)
Definition upload (job : spillJob) (bucket : B) : B :=
  let b := job_block job in
  (PutObject (objectKey (job_model job) (job_hash job))
     (encode (cb_version b) (cb_tokens b) (cb_kv b)) bucket).2.

(** What the tier does: a call, an idle worker receiving a job, a worker
    finishing the upload of the job it holds. *)
Inductive s3_event :=
  | EvSpill (model : string) (h : BlockHash) (b : cold_block)
  | EvTake
  | EvUpload (job : spillJob).
Inductive s3_step : S3Tier B -> s3_event -> S3Tier B -> Prop :=
  | s3_spill t model h b : cold_ok b -> s3_step t (EvSpill model h b) (s3_Spill model h b t)
  | s3_take t job jobs :
      s3_jobs t = job :: jobs -> length (s3_inflight t) < defaultSpillWorkers ->
      s3_step t EvTake (mk_s3 (s3_bucket t) jobs (job :: s3_inflight t) (s3_dropped t))
  | s3_upload t l1 job l2 :
      s3_inflight t = l1 ++ job :: l2 ->
      s3_step t (EvUpload job) (mk_s3 (upload job (s3_bucket t)) (s3_jobs t) (l1 ++ l2) (s3_dropped t)).

(** A run and what happened on it, oldest first. *)
Inductive s3_run (t0 : S3Tier B) : list s3_event -> S3Tier B -> Prop :=
  | s3_start : s3_run t0 [] t0
  | s3_next evs t ev t' : s3_run t0 evs t -> s3_step t ev t' -> s3_run t0 (evs ++ [ev]) t'.

End s3.

(** The tier may also answer, later, for a block that is still queued. *)
#[export] Program Instance s3_tier `{S3API B} : ColdTier (S3Tier B) := {|
  tier_Spill := s3_Spill;
  tier_Get := s3_Get;
  tier_holds t model h b :=
    s3_Get model h t = TierHit (cb_kv b) (cb_version b) (cb_tokens b)
    \/ mk_job model h b ∈ s3_jobs t ++ s3_inflight t;
|}.
Next Obligation. intros B HB t model h kv v toks Hg. by left. Qed.
Next Obligation.
  intros B HB t model h b model' h' b' _. unfold s3_Spill. case_decide; simpl; [|by left].
  intros [Hg|Hin]; [by left; left|]. revert Hin. rewrite !elem_of_app, list_elem_of_singleton.
  intros [[?|[= -> -> ->]]|?]; [left; right; set_solver|by right|left; right; set_solver].
Qed.

(** ** Properties *)

(** C36. The framing of a cold object is a bijection: decoding what was encoded
    gives back the version, the tokens and the bytes, and whatever [decode]
    accepts is the encoding of what it returns (so a truncated or foreign object
    is an error, never other tokens or bytes). *)
Theorem cold_framing_exact blob b :
  cold_ok b ->
  decode blob = Some (cb_version b, cb_tokens b, cb_kv b)
  <-> blob = encode (cb_version b) (cb_tokens b) (cb_kv b).
Proof.
  intros Hok. split; [|intros ->; destruct b; by apply decode_encode].
  intros Hd. symmetry. by apply encode_decode.
Qed.

Lemma cold_framing_exact_witness :
  decode (encode 7 [1; -1] [x41])%Z = Some (7, [1; -1], [x41])%Z.
Proof.
  apply (cold_framing_exact (encode 7 [1; -1] [x41])%Z (mk_cold 7 [1; -1] [x41])%Z); [|reflexivity].
  split_and!; [by vm_compute|repeat constructor; lia|simpl; lia].
Defined.

(** The spills made to a tier, oldest first. *)
Abbreviation spills := (list (string * BlockHash * cold_block)).
Definition tier_spills {T} `{ColdTier T} (t : T) (l : spills) : T :=
  fold_left (fun t x => tier_Spill x.1.1 x.1.2 x.2 t) l t.

(** The latest spill under a key. *)
Definition last_spill (model : string) (h : BlockHash) (l : spills) : option cold_block :=
  foldl (fun acc x => if decide (x.1 = (model, h)) then Some x.2 else acc) None l.

(** The in-process tier is a map from (model, hash) pairs: after any spills, a
    [Get] answers the block of the latest spill under exactly that pair and a
    clean miss if there was none; it never errs. *)
Theorem memory_tier_exact (l : spills) model h :
  Forall (fun x => cold_ok x.2) l ->
  memory_Get model h (tier_spills NewMemory l)
  = match last_spill model h l with
    | Some b => TierHit (cb_kv b) (cb_version b) (cb_tokens b)
    | None => TierMiss
    end.
Proof.
  unfold last_spill, tier_spills. induction l as [|[[m k] b] l IH] using rev_ind; intros Hok.
  - done.
  - apply Forall_app in Hok as [Hok Hb]. rewrite Forall_singleton in Hb. specialize (IH Hok).
    rewrite fold_left_app, foldl_app. simpl. unfold memory_Get, memory_Spill in *.
    destruct (decide (objectKey model h = objectKey m k)) as [Heq|Hne].
    + pose proof Heq as Hk. apply objectKey_inj in Hk as [-> ->].
      rewrite lookup_insert_eq, decide_True by done. by apply decoded_encode.
    + rewrite lookup_insert_ne by done. rewrite decide_False; [exact IH|]. intros [= -> ->]. done.
Qed.

Lemma memory_tier_exact_witness :
  memory_Get "m" hash32_zero (tier_spills NewMemory [("m", hash32_zero, mk_cold 3 [] [x01])])
  = TierHit [x01] 3 [].
Proof.
  apply (memory_tier_exact [("m", hash32_zero, mk_cold 3 [] [x01])] "m" hash32_zero).
  repeat constructor; simpl; lia.
Defined.

(** What the client's documentation promises of reads: an object body read under
    a key is one that was put under that key, or was there before. *)
Definition s3_reads_writes (B : Type) `{S3API B} : Prop :=
  forall k k' blob blob' (b : B),
    GetObject k (PutObject k' blob b).2 = ObjBody blob' ->
    GetObject k b = ObjBody blob' \/ (k = k' /\ blob' = blob).

Section s3_safety.
Context {B : Type} `{S3API B} (reads : s3_reads_writes B).

(** The block was spilled on the run, and that very job was uploaded after. *)
Definition spilled_uploaded (evs : list s3_event) (model : string) (h : BlockHash) (b : cold_block) : Prop :=
  exists evs1 evs2 evs3, evs = evs1 ++ EvSpill model h b :: evs2 ++ EvUpload (mk_job model h b) :: evs3.

(** Everything queued or in flight was spilled on the run and is well formed; what
    the bucket answers was spilled and uploaded on it, or was there before. *)
Definition s3_from (t0 : S3Tier B) (evs : list s3_event) (t : S3Tier B) : Prop :=
  (forall job, job ∈ s3_jobs t ++ s3_inflight t ->
      EvSpill (job_model job) (job_hash job) (job_block job) ∈ evs /\ cold_ok (job_block job))
  /\ (forall model h blob, GetObject (objectKey model h) (s3_bucket t) = ObjBody blob ->
      GetObject (objectKey model h) (s3_bucket t0) = ObjBody blob
      \/ exists b, cold_ok b /\ spilled_uploaded evs model h b /\ blob = encode (cb_version b) (cb_tokens b) (cb_kv b)).

Lemma spilled_uploaded_snoc evs ev model h b : spilled_uploaded evs model h b -> spilled_uploaded (evs ++ [ev]) model h b.
Proof. intros (e1 & e2 & e3 & ->). exists e1, e2, (e3 ++ [ev]). by rewrite <- app_assoc, <- app_comm_cons, <- app_assoc. Qed.

Lemma s3_step_from t0 evs t ev t' : s3_from t0 evs t -> s3_step t ev t' -> s3_from t0 (evs ++ [ev]) t'.
Proof.
  intros [Hj Hb] Hstep.
  assert (Hold : forall model h blob, GetObject (objectKey model h) (s3_bucket t) = ObjBody blob ->
    GetObject (objectKey model h) (s3_bucket t0) = ObjBody blob
    \/ exists b, cold_ok b /\ spilled_uploaded (evs ++ [ev]) model h b /\ blob = encode (cb_version b) (cb_tokens b) (cb_kv b)).
  { intros m k blob Hg. destruct (Hb m k blob Hg) as [|(b & Hok & Hs & He)]; [by left|right].
    exists b. split_and!; [done|by apply spilled_uploaded_snoc|done]. }
  assert (Hkeep : forall job, job ∈ s3_jobs t ++ s3_inflight t ->
    EvSpill (job_model job) (job_hash job) (job_block job) ∈ evs ++ [ev] /\ cold_ok (job_block job)).
  { intros job Hin. destruct (Hj job Hin). split; [apply elem_of_app; by left|done]. }
  destruct Hstep as [t model h b Hcb|t job jobs Hjobs Hw|t l1 job l2 Hin].
  - unfold s3_Spill. case_decide; [|by split]. split; [|exact Hold]. cbn [s3_jobs s3_inflight].
    intros job [[Hq| ->%list_elem_of_singleton]%elem_of_app|Hq]%elem_of_app; [apply Hkeep; set_solver| |apply Hkeep; set_solver].
    split; [apply elem_of_app; right; by left|done].
  - split; [|exact Hold]. cbn [s3_jobs s3_inflight]. intros j Hj'. apply Hkeep. rewrite Hjobs. set_solver.
  - split; cbn [s3_jobs s3_inflight s3_bucket].
    + intros j Hj'. apply Hkeep. rewrite Hin. set_solver.
    + intros m k blob Hg. unfold upload in Hg. apply reads in Hg as [Hg|[Hk ->]]; [by apply Hold|right].
      apply objectKey_inj in Hk as [-> ->]. destruct (Hj job) as [Hs Hok]; [rewrite Hin; set_solver|].
      exists (job_block job). split_and!; [done| |done]. apply list_elem_of_split in Hs as (e1 & e2 & ->).
      exists e1, e2, []. rewrite <- app_assoc, <- app_comm_cons. by destruct job.
Qed.

(** C37. The S3 tier, its workers interleaving with the callers in any way and any
    upload failing or not: whatever it answers to a [Get] for a model and hash is
    the very block (version, tokens and bytes) of a call of [Spill] for that model
    and hash on this run, whose job was uploaded since, or what the bucket already
    answered to that [Get] when the tier was made; the queue stays within its 256
    slots and at most four uploads run at once, whatever the rate of spills. *)
Theorem s3_tier_safe bucket evs t :
  s3_run (newS3WithClient bucket) evs t ->
  length (s3_jobs t) <= defaultSpillQueue /\ length (s3_inflight t) <= defaultSpillWorkers
  /\ forall model h kv v toks, s3_Get model h t = TierHit kv v toks ->
       spilled_uploaded evs model h (mk_cold v toks kv) \/ s3_Get model h (newS3WithClient bucket) = TierHit kv v toks.
Proof.
  intros Hr. apply and_assoc. split.
  - induction Hr as [|evs t ev t' Hr IH Hstep]; [simpl; unfold defaultSpillQueue, defaultSpillWorkers; lia|].
    destruct Hstep as [t model h b Hcb|t job jobs Hjobs Hw|t l1 job l2 Hin]; simpl in *.
    + unfold s3_Spill. case_decide; simpl; rewrite ?length_app; simpl; lia.
    + rewrite Hjobs in IH. simpl in IH. lia.
    + rewrite Hin in IH. rewrite !length_app in *. simpl in IH. lia.
  - assert (Hf : s3_from (newS3WithClient bucket) evs t).
    { induction Hr as [|evs t ev t' Hr IH Hstep]; [|by eapply s3_step_from].
      split; [by intros j ?%elem_of_nil|by left]. }
    destruct Hf as [_ Hb]. intros model h kv v toks. unfold s3_Get.
    destruct (GetObject _ _) as [blob| |] eqn:Hg; try done. intros Hd.
    destruct (Hb model h blob Hg) as [H0|([v' toks' kv'] & Hok & Hs & ->)]; [right; by rewrite H0|left].
    pose proof (decoded_encode _ Hok) as He. cbn [cb_version cb_tokens cb_kv] in He, Hd. rewrite He in Hd.
    by injection Hd as -> -> ->.
Qed.

End s3_safety.

(** A bucket that keeps what it is given. *)
#[local] Instance map_bucket : S3API (gmap (list byte) (list byte)) := {|
  GetObject k b := match b !! k with Some blob => ObjBody blob | None => ObjMissing end;
  PutObject k blob b := (true, <[k := blob]> b);
|}.

Lemma map_bucket_reads : s3_reads_writes (gmap (list byte) (list byte)).
Proof.
  intros k k' blob blob' b. simpl. destruct (decide (k = k')) as [->|Hne].
  - rewrite lookup_insert_eq. intros [= <-]. by right.
  - rewrite lookup_insert_ne by done. by left.
Qed.

(** A spill that is taken, uploaded and read back. *)
Definition w_spilled : cold_block := mk_cold 3 [] [x01].
Definition w_new : S3Tier (gmap (list byte) (list byte)) := newS3WithClient ∅.
Definition w_uploaded : S3Tier (gmap (list byte) (list byte)) :=
  mk_s3 (upload (mk_job "m" hash32_zero w_spilled) ∅) [] [] 0.

Lemma w_uploaded_run :
  s3_run w_new [EvSpill "m" hash32_zero w_spilled; EvTake; EvUpload (mk_job "m" hash32_zero w_spilled)] w_uploaded.
Proof.
  assert (Hok : cold_ok w_spilled) by (split_and!; simpl; [by vm_compute|constructor|lia]).
  pose proof (s3_next _ _ _ _ _ (s3_start w_new) (s3_spill w_new "m" hash32_zero w_spilled Hok)) as Hr.
  pose proof (s3_next _ _ _ _ _ Hr (s3_take (s3_Spill "m" hash32_zero w_spilled w_new) (mk_job "m" hash32_zero w_spilled) [] eq_refl ltac:(simpl; unfold defaultSpillWorkers; lia))) as Hr2.
  exact (s3_next _ _ _ _ _ Hr2 (s3_upload (mk_s3 ∅ [] [mk_job "m" hash32_zero w_spilled] 0) [] (mk_job "m" hash32_zero w_spilled) [] eq_refl)).
Qed.

Lemma s3_tier_safe_witness :
  s3_Get "m" hash32_zero w_uploaded = TierHit [x01] 3 []
  /\ spilled_uploaded [EvSpill "m" hash32_zero w_spilled; EvTake; EvUpload (mk_job "m" hash32_zero w_spilled)] "m" hash32_zero w_spilled.
Proof.
  assert (Hg : s3_Get "m" hash32_zero w_uploaded = TierHit [x01] 3 []) by (vm_compute; reflexivity).
  split; [exact Hg|].
  destruct (s3_tier_safe map_bucket_reads ∅ _ w_uploaded w_uploaded_run) as (_ & _ & Hs).
  destruct (Hs "m" hash32_zero [x01] 3%Z [] Hg) as [Hin|H0]; [exact Hin|discriminate H0].
Defined.
