(* ===== verification/Server.v ===== *)
(** The gRPC handlers: [src/internal/server/server.go].

    A handler is a function on the server's state and on its stream: a response
    stream is a sink that may fail after some number of frames, a request stream
    is the list of messages the client sends with the way it ends.  Errors are
    values; the one run-time panic the code can raise (an allocation of a size
    taken from the request) is an outcome of its own. *)

From S2P Require Import Prelude Bytes Sha256 Float64 Policy Lru Store ColdTier.

(** ** Wire types *)

Inductive code := InvalidArgument | NotFound | ResourceExhausted.

(** A gRPC status error, or the error of the transport. *)
Inductive rpc_error :=
  | StatusError (c : code) (msg : string)
  | TransportError.

Record KVChunk := mk_chunk { chunk_data : list byte; chunk_last : bool }.

Record WriteHeader := mk_header {
  hdr_ModelId : string;
  hdr_BlockHash : list byte;
  hdr_TokenIds : list Z;
  hdr_TenantId : string;
  hdr_RecomputeCost : float64;
  hdr_TotalSize : Z;
  hdr_Version : Z;
  hdr_RoutingKey : list byte;
}.

(** The [oneof] of a [WriteChunk]; [WCNone] is a message with neither field. *)
Inductive WriteChunk :=
  | WCHeader (h : WriteHeader)
  | WCChunk (c : KVChunk)
  | WCNone.

(** What successive [Recv]s return: the messages, then [io.EOF] or an error; and
    whether the transport takes the answer of [SendAndClose]. *)
Record block_stream := mk_block_stream { st_msgs : list WriteChunk; st_eof : bool; st_sent : bool }.
Abbreviation mk_stream msgs eof := (mk_block_stream msgs eof true).

Record BlockPresence := mk_presence { HasEntry : bool; bp_Version : Z; bp_SizeBytes : Z }.

Record FetchBlock := mk_fetch_block { fb_BlockHash : list byte; fb_Version : Z; fb_TokenIds : list Z }.

Record BatchKVChunk := mk_batch_chunk { bc_Index : Z; bc_Data : list byte; bc_Last : bool; bc_Found : bool }.

Record WriteResponse := mk_write_response { wr_Version : Z; wr_Stored : bool }.

(** The response side of a server stream: what has been sent, and how many more
    sends the transport takes before it fails ([None]: no bound). *)
Record sink (F : Type) := mk_sink { sent : list F; room : option nat }.
#[global] Arguments mk_sink {F}.
#[global] Arguments sent {F}.
#[global] Arguments room {F}.

(** [stream.Send]: [true] when it returned no error. *)
Definition Send {F} (f : F) (s : sink F) : bool * sink F :=
  match room s with
  | Some O => (false, s)
  | Some (S n) => (true, mk_sink (sent s ++ [f]) (Some n))
  | None => (true, mk_sink (sent s ++ [f]) None)
  end.

(** ** Streaming *)

(** [1 << 20] *)
Definition fetchChunkBytes : Z := 1048576.

(** The chunk [data[off:end]]. *)
Definition data_slice (off fin : Z) (data : list byte) : list byte :=
  take (Z.to_nat (fin - off)) (drop (Z.to_nat off) data).

(** The loop shared by [streamKV], [streamBatchKV] and [sendOne]: frames of at
    most [n] bytes from offset [off], until one fails.  [mk] builds a frame from its
    data and the last flag. *)
Fixpoint send_chunks {F} (fuel : nat) (n : Z) (mk : list byte -> bool -> F) (off : Z) (data : list byte)
    (s : sink F) : bool * sink F :=
  match fuel with
  | O => (true, s)
  | S fuel =>
      let len := Z.of_nat (length data) in
      if (off <? len)%Z then
        let fin := if (len <? off + n)%Z then len else (off + n)%Z in
        let '(ok, s) := Send (mk (data_slice off fin data) (fin =? len)%Z) s in
        if ok then send_chunks fuel n mk (off + n) data s else (false, s)
      else (true, s)
  end.

(** The loop makes one round per frame. *)
Definition chunk_fuel (n : Z) (data : list byte) : nat := S (Z.to_nat (Z.of_nat (length data) / n + 1)).

Definition stream_data {F} (n : Z) (mk : list byte -> bool -> F) (data : list byte) (s : sink F) : bool * sink F :=
  send_chunks (chunk_fuel n data) n mk 0 data s.

(** [streamKV] *)
Definition streamKV (data : list byte) (s : sink KVChunk) : bool * sink KVChunk :=
  let '(ok, s) := stream_data fetchChunkBytes mk_chunk data s in
  if ok then (if decide (data = []) then Send (mk_chunk [] true) s else (true, s)) else (false, s).

(** [streamBatchKV] *)
Definition streamBatchKV (idx : Z) (data : list byte) (s : sink BatchKVChunk) : bool * sink BatchKVChunk :=
  let '(ok, s) := stream_data fetchChunkBytes (fun d last => mk_batch_chunk idx d last true) data s in
  if ok then (if decide (data = []) then Send (mk_batch_chunk idx [] true true) s else (true, s))
  else (false, s).

(** [sendNotFound] *)
Definition sendNotFound (idx : Z) (s : sink BatchKVChunk) : bool * sink BatchKVChunk :=
  Send (mk_batch_chunk idx [] true false) s.

(** ** assembleBlock *)

Inductive outcome (A : Type) :=
  | Done (a : A)
  | Failed (e : rpc_error)
  | Panicked.
#[global] Arguments Done {A}.
#[global] Arguments Failed {A}.
#[global] Arguments Panicked {A}.

(** The receive loop after the header. *)
Fixpoint assemble_loop (buf : list byte) (msgs : list WriteChunk) (eof : bool) : outcome (list byte) :=
  match msgs with
  | [] => if eof then Done buf else Failed TransportError
  | WCHeader _ :: _ => Failed (StatusError InvalidArgument "unexpected second WriteHeader")
  | WCChunk c :: msgs => assemble_loop (buf ++ chunk_data c) msgs eof
  | WCNone :: msgs => assemble_loop buf msgs eof
  end.

(** [assembleBlock].  [can_alloc n] says whether the runtime can make a buffer of
    capacity [n]; [make] panics when it cannot. *)
Definition assembleBlock (can_alloc : Z -> bool) (st : block_stream) : outcome (WriteHeader * list byte) :=
  match st_msgs st with
  | [] => Failed TransportError
  | WCHeader hdr :: msgs =>
      if ((0 <? hdr_TotalSize hdr)%Z && negb (can_alloc (hdr_TotalSize hdr))) then Panicked
      else match assemble_loop [] msgs (st_eof st) with
           | Done buf => Done (hdr, buf)
           | Failed e => Failed e
           | Panicked => Panicked
           end
  | _ :: _ => Failed (StatusError InvalidArgument "first message must be a WriteHeader")
  end.

(** ** Server *)

(** [ReplicaJob] *)
Record ReplicaJob := mk_replica_job {
  rj_Hash : BlockHash;
  rj_ModelID : string;
  rj_KV : list byte;
  rj_TokenIDs : list Z;
  rj_TenantID : string;
  rj_RecomputeCost : float64;
  rj_Version : Z;
  rj_RoutingKey : list byte;
}.

Inductive metric :=
  | MHit (op : string)
  | MMiss (op : string)
  | MEviction (reason : string) (n : Z)
  | MReplica (result : string).

(** [Server]: the store, the cold reader ([None]: disabled), the jobs handed to
    the replicator so far ([None]: single node) and the metrics recorded so far. *)
Record Server (P T : Type) := mk_server {
  store : Store P;
  repl : option (list ReplicaJob);
  metrics : list metric;
  cold : option T;
}.
#[global] Arguments mk_server {P T}.
#[global] Arguments store {P T}.
#[global] Arguments repl {P T}.
#[global] Arguments metrics {P T}.
#[global] Arguments cold {P T}.

(** [toBlockHash] *)
Definition toBlockHash (b : list byte) : option BlockHash := hash32_of b.

Section handlers.
Context {P T : Type} `{EvictionPolicy P} `{ColdTier T}.
Implicit Types (s : Server P T).

Definition New (st : Store P) : Server P T := mk_server st None [] None.
Definition NewWithReplicator (st : Store P) : Server P T := mk_server st (Some []) [] None.
Definition WithColdReader (c : option T) (s : Server P T) : Server P T :=
  match c with Some _ => mk_server (store s) (repl s) (metrics s) c | None => s end.

Definition set_store (st : Store P) (s : Server P T) : Server P T :=
  mk_server st (repl s) (metrics s) (cold s).
Definition note (m : metric) (s : Server P T) : Server P T :=
  mk_server (store s) (repl s) (metrics s ++ [m]) (cold s).

(** The body of [Lookup]'s loop, and the loop. *)
Definition lookup_one (model : string) (hb : list byte) (s : Server P T) : BlockPresence * Server P T :=
  match toBlockHash hb with
  | Some h =>
      match Peek model h (store s) with
      | Some e => (mk_presence true (Version e) (SizeBytes e), note (MHit "lookup") s)
      | None => (mk_presence false 0 0, note (MMiss "lookup") s)
      end
  | None => (mk_presence false 0 0, note (MMiss "lookup") s)
  end.
Fixpoint Lookup (model : string) (hashes : list (list byte)) (s : Server P T) : list BlockPresence * Server P T :=
  match hashes with
  | [] => ([], s)
  | hb :: hashes =>
      let '(bp, s) := lookup_one model hb s in
      let '(bps, s) := Lookup model hashes s in (bp :: bps, s)
  end.

(** The version and token guards, shared by the hot and the cold path. *)
Definition guards_ok (version : Z) (tokenIDs : list Z) (v : Z) (toks : list Z) : bool :=
  negb (negb (version =? 0)%Z && negb (version =? v)%Z)
  && negb (negb (bool_decide (tokenIDs = [])) && negb (bool_decide (tokenIDs = toks))).

(** [coldHit] *)
Definition coldHit (now : Z) (model : string) (h : BlockHash) (version : Z) (tokenIDs : list Z)
    (s : Server P T) : option (list byte) * Server P T :=
  match cold s with
  | None => (None, s)
  | Some t =>
      match tier_Get model h t with
      | TierHit kv ver toks =>
          if guards_ok version tokenIDs ver toks then
            let s := if OverHardLimit (Z.of_nat (length kv)) (store s) then s
                     else set_store (PutWithVersion now h
                            (Some (mk_entry toks kv model hash32_zero 0 0 "" f64_0 0 0 0)) ver (store s)).2 s in
            (Some kv, note (MHit "fetch_cold") s)
          else (None, s)
      | _ => (None, s)
      end
  end.

(** [fetchFromCold]: served, whether a send failed, the stream, the state *)
Definition fetchFromCold (now : Z) (model : string) (h : BlockHash) (version : Z) (tokenIDs : list Z)
    (out : sink KVChunk) (s : Server P T) : bool * bool * sink KVChunk * Server P T :=
  let '(r, s) := coldHit now model h version tokenIDs s in
  match r with
  | None => (false, true, out, s)
  | Some kv => let '(ok, out) := streamKV kv out in (true, ok, out, s)
  end.

(** [Fetch]; [None] is a nil error. *)
Definition Fetch (now : Z) (model : string) (hash : list byte) (version : Z) (tokenIDs : list Z)
    (out : sink KVChunk) (s : Server P T) : option rpc_error * sink KVChunk * Server P T :=
  match toBlockHash hash with
  | None => (Some (StatusError InvalidArgument "block_hash must be 32 bytes"), out, s)
  | Some h =>
      let '(hit, st) := Get now model h (store s) in
      let s := set_store st s in
      match hit with
      | None =>
          let '(served, ok, out, s) := fetchFromCold now model h version tokenIDs out s in
          if negb ok then (Some TransportError, out, s)
          else if served then (None, out, s)
          else (Some (StatusError NotFound "block not cached"), out, note (MMiss "fetch") s)
      | Some e =>
          let s := note (MHit "fetch") s in
          if negb (version =? 0)%Z && negb (version =? Version e)%Z then
            (Some (StatusError NotFound "requested version not available"), out, s)
          else if negb (bool_decide (tokenIDs = [])) && negb (bool_decide (tokenIDs = TokenIDs e)) then
            (Some (StatusError NotFound "token_ids do not match cached block"), out, s)
          else
            let '(ok, out) := streamKV (KV e) out in
            (if ok then None else Some TransportError, out, s)
      end
  end.

(** [batchResolve] *)
Definition batchResolve (now : Z) (model : string) (fb : FetchBlock) (h : BlockHash) (s : Server P T) :
    option (list byte) * Server P T :=
  let '(hit, st) := Get now model h (store s) in
  let s := set_store st s in
  match hit with
  | None => coldHit now model h (fb_Version fb) (fb_TokenIds fb) s
  | Some e =>
      if guards_ok (fb_Version fb) (fb_TokenIds fb) (Version e) (TokenIDs e) then (Some (KV e), s) else (None, s)
  end.

(** One round of [BatchFetch]: whether the sends succeeded. *)
Definition batch_one (now : Z) (model : string) (idx : Z) (fb : FetchBlock) (out : sink BatchKVChunk)
    (s : Server P T) : bool * sink BatchKVChunk * Server P T :=
  let '(r, s) :=
    match toBlockHash (fb_BlockHash fb) with
    | None => (None, s)
    | Some h => batchResolve now model fb h s
    end in
  match r with
  | None => let '(ok, out) := sendNotFound idx out in (ok, out, note (MMiss "batch_fetch") s)
  | Some kv => let '(ok, out) := streamBatchKV idx kv out in (ok, out, note (MHit "batch_fetch") s)
  end.

(** [BatchFetch], from index [i] *)
Fixpoint batch_loop (now : Z) (model : string) (i : nat) (blocks : list FetchBlock) (out : sink BatchKVChunk)
    (s : Server P T) : option rpc_error * sink BatchKVChunk * Server P T :=
  match blocks with
  | [] => (None, out, s)
  | fb :: blocks =>
      let '(ok, out, s) := batch_one now model (u32 (Z.of_nat i)) fb out s in
      if ok then batch_loop now model (S i) blocks out s else (Some TransportError, out, s)
  end.
Definition BatchFetch (now : Z) (model : string) (blocks : list FetchBlock) (out : sink BatchKVChunk)
    (s : Server P T) : option rpc_error * sink BatchKVChunk * Server P T :=
  batch_loop now model 0 blocks out s.

(** [stream.SendAndClose], the last thing a handler of an upload does. *)
Definition SendAndClose (st : block_stream) (r : WriteResponse) : outcome WriteResponse :=
  if st_sent st then Done r else Failed TransportError.

(** The entry a header and its assembled bytes describe. *)
Definition header_entry (hdr : WriteHeader) (buf : list byte) : Entry :=
  mk_entry (hdr_TokenIds hdr) buf (hdr_ModelId hdr) hash32_zero 0 0 (hdr_TenantId hdr)
    (hdr_RecomputeCost hdr) 0 0 0.

Definition header_job (hdr : WriteHeader) (h : BlockHash) (buf : list byte) (ver : Z) : ReplicaJob :=
  mk_replica_job h (hdr_ModelId hdr) buf (hdr_TokenIds hdr) (hdr_TenantId hdr) (hdr_RecomputeCost hdr) ver
    (hdr_RoutingKey hdr).

(** [Write] *)
Definition Write (can_alloc : Z -> bool) (now : Z) (st : block_stream) (s : Server P T) :
    outcome WriteResponse * Server P T :=
  match assembleBlock can_alloc st with
  | Failed e => (Failed e, s)
  | Panicked => (Panicked, s)
  | Done (hdr, buf) =>
      match toBlockHash (hdr_BlockHash hdr) with
      | None => (Failed (StatusError InvalidArgument "block_hash must be 32 bytes"), s)
      | Some h =>
          if OverHardLimit (Z.of_nat (length buf)) (store s)
          then (Failed (StatusError ResourceExhausted "cache full"), s)
          else
            let '(ver, store') := Put now h (Some (header_entry hdr buf)) (store s) in
            (SendAndClose st (mk_write_response ver true),
             mk_server store' ((fun jobs => jobs ++ [header_job hdr h buf ver]) <$> repl s) (metrics s) (cold s))
      end
  end.

(** [Replicate] *)
Definition Replicate (can_alloc : Z -> bool) (now : Z) (st : block_stream) (s : Server P T) :
    outcome WriteResponse * Server P T :=
  match assembleBlock can_alloc st with
  | Failed e => (Failed e, s)
  | Panicked => (Panicked, s)
  | Done (hdr, buf) =>
      match toBlockHash (hdr_BlockHash hdr) with
      | None => (Failed (StatusError InvalidArgument "block_hash must be 32 bytes"), s)
      | Some h =>
          let ver := hdr_Version hdr in
          if (ver =? 0)%Z
          then (Failed (StatusError InvalidArgument "Replicate requires header.version > 0"), s)
          else
            let '(stored, store') := PutWithVersion now h (Some (header_entry hdr buf)) ver (store s) in
            (SendAndClose st (mk_write_response stored (stored =? ver)%Z), set_store store' s)
      end
  end.

(** [Evict] *)
Definition Evict (model : string) (hash : list byte) (s : Server P T) : rpc_error + bool * Server P T :=
  match toBlockHash hash with
  | None => inl (StatusError InvalidArgument "block_hash must be 32 bytes")
  | Some h =>
      let '(evicted, st) := Delete model h (store s) in
      let s := set_store st s in
      inr (evicted, if evicted then note (MEviction "manual" 1) s else s)
  end.

(** [Health] *)
Definition Health (s : Server P T) : bool := true.

End handlers.

(** ** A server's life *)

(** What can happen to a running server: an RPC, a call of another goroutine on
    the store (the evictor's), a change of what the cold tier holds. *)
Inductive server_event (T : Type) :=
  | RpcLookup (model : string) (hashes : list (list byte))
  | RpcFetch (now : Z) (model : string) (hash : list byte) (version : Z) (tokenIDs : list Z) (room : option nat)
  | RpcBatchFetch (now : Z) (model : string) (blocks : list FetchBlock) (room : option nat)
  | RpcWrite (can_alloc : Z -> bool) (now : Z) (st : block_stream)
  | RpcReplicate (can_alloc : Z -> bool) (now : Z) (st : block_stream)
  | RpcEvict (model : string) (hash : list byte)
  | StoreCall (c : store_call)
  | ColdChange (t : T).
#[global] Arguments RpcLookup {T}.
#[global] Arguments RpcFetch {T}.
#[global] Arguments RpcBatchFetch {T}.
#[global] Arguments RpcWrite {T}.
#[global] Arguments RpcReplicate {T}.
#[global] Arguments RpcEvict {T}.
#[global] Arguments StoreCall {T}.
#[global] Arguments ColdChange {T}.

Definition server_step {P T} `{EvictionPolicy P} `{ColdTier T} (s : Server P T) (ev : server_event T) : Server P T :=
  match ev with
  | RpcLookup model hashes => (Lookup model hashes s).2
  | RpcFetch now model hash version tokenIDs room => (Fetch now model hash version tokenIDs (mk_sink [] room) s).2
  | RpcBatchFetch now model blocks room => (BatchFetch now model blocks (mk_sink [] room) s).2
  | RpcWrite can_alloc now st => (Write can_alloc now st s).2
  | RpcReplicate can_alloc now st => (Replicate can_alloc now st s).2
  | RpcEvict model hash => match Evict model hash s with inl _ => s | inr (_, s) => s end
  | StoreCall c => set_store (store_step c (store s)).2 s
  | ColdChange t => mk_server (store s) (repl s) (metrics s) ((fun _ => t) <$> cold s)
  end.

Definition server_run {P T} `{EvictionPolicy P} `{ColdTier T} (s : Server P T) (evs : list (server_event T)) :
    Server P T := fold_left server_step evs s.

(** ** Chunking: the reference *)

(** [data] cut into pieces of [n] bytes, the last one shorter. *)
Fixpoint split_chunks (fuel : nat) (n : Z) (data : list byte) : list (list byte) :=
  match fuel, data with
  | S fuel, _ :: _ =>
      let k := Z.to_nat (Z.min n (Z.of_nat (length data))) in
      take k data :: split_chunks fuel n (drop k data)
  | _, _ => []
  end.

(** The last piece, and only it, is flagged. *)
Fixpoint flag_last {F} (mk : list byte -> bool -> F) (pieces : list (list byte)) : list F :=
  match pieces with
  | [] => []
  | [c] => [mk c true]
  | c :: pieces => mk c false :: flag_last mk pieces
  end.

Definition frames_of {F} (n : Z) (mk : list byte -> bool -> F) (data : list byte) : list F :=
  match data with
  | [] => [mk [] true]
  | _ => flag_last mk (split_chunks (length data) n data)
  end.

Fixpoint send_all {F} (fs : list F) (s : sink F) : bool * sink F :=
  match fs with
  | [] => (true, s)
  | f :: fs => let '(ok, s) := Send f s in if ok then send_all fs s else (false, s)
  end.

Section chunking.
Context {F : Type} (n : Z) (Hn : (0 < n)%Z) (mk : list byte -> bool -> F).
Implicit Types (data : list byte) (s : sink F).

Lemma piece_length data : data <> [] -> 0 < Z.to_nat (Z.min n (Z.of_nat (length data))) <= length data.
Proof. destruct data; [done|]. simpl length. lia. Qed.

Lemma split_chunks_fuel f f' data :
  length data <= f -> length data <= f' -> split_chunks f n data = split_chunks f' n data.
Proof.
  revert f' data. induction f as [|f IH]; intros [|f'] data H1 H2; destruct data as [|b data]; try done; simpl in H1, H2; try lia.
  cbn [split_chunks]. f_equal. pose proof (piece_length (b :: data) ltac:(done)).
  apply IH; rewrite length_drop; simpl length in *; lia.
Qed.

Lemma split_chunks_cons data :
  data <> [] ->
  let k := Z.to_nat (Z.min n (Z.of_nat (length data))) in
  split_chunks (length data) n data = take k data :: split_chunks (length (drop k data)) n (drop k data).
Proof.
  intros Hd k. pose proof (piece_length data Hd) as Hk. fold k in Hk. destruct data as [|b data]; [done|].
  cbn [length split_chunks]. f_equal. apply split_chunks_fuel; rewrite length_drop; simpl length in *; lia.
Qed.

Lemma split_chunks_concat f data : length data <= f -> mjoin (split_chunks f n data) = data.
Proof.
  revert data. induction f as [|f IH]; intros [|b data] Hf; try done; simpl in Hf; [lia|].
  cbn [split_chunks]. rewrite join_cons, IH; [apply take_drop|].
  pose proof (piece_length (b :: data) ltac:(done)). rewrite length_drop. simpl length in *. lia.
Qed.

Lemma split_chunks_bound f data :
  Forall (fun c => c <> [] /\ Z.of_nat (length c) <= n)%Z (split_chunks f n data).
Proof.
  revert data. induction f as [|f IH]; intros [|b data]; try by constructor.
  cbn [split_chunks]. constructor; [|apply IH].
  pose proof (piece_length (b :: data) ltac:(done)) as Hk.
  set (k := Z.to_nat _) in *. split.
  - intros Hnil. apply (f_equal length) in Hnil. rewrite length_take in Hnil. simpl length in *. lia.
  - rewrite length_take. lia.
Qed.

Lemma flag_last_cons c data :
  data <> [] ->
  flag_last mk (c :: split_chunks (length data) n data)
  = mk c false :: flag_last mk (split_chunks (length data) n data).
Proof. by destruct data. Qed.

(** The loop sends the reference's frames. *)
Lemma send_chunks_spec fuel off data s :
  (0 <= off)%Z -> (Z.of_nat (length data) - off <= Z.of_nat fuel * n)%Z ->
  send_chunks fuel n mk off data s
  = send_all (flag_last mk (split_chunks (length (drop (Z.to_nat off) data)) n (drop (Z.to_nat off) data))) s.
Proof.
  revert off s. induction fuel as [|fuel IH]; intros off s Hoff Hf.
  { rewrite drop_ge by lia. done. }
  cbn [send_chunks]. destruct (Z.ltb_spec off (Z.of_nat (length data))) as [Hlt|Hge];
    [|rewrite drop_ge by lia; done].
  set (rest := drop (Z.to_nat off) data).
  assert (Hlen : length rest = length data - Z.to_nat off) by apply length_drop.
  assert (Hne : rest <> []) by (intros E; rewrite E in Hlen; simpl in Hlen; lia).
  rewrite (split_chunks_cons rest Hne). set (k := Z.to_nat (Z.min _ _)).
  set (fin := if (Z.of_nat (length data) <? off + n)%Z then _ else _).
  assert (Hk : k = Z.to_nat (fin - off)).
  { subst k fin. destruct (Z.ltb_spec (Z.of_nat (length data)) (off + n)); f_equal; lia. }
  assert (Hrest : drop k rest = drop (Z.to_nat (off + n)) data).
  { subst rest. rewrite drop_drop. destruct (Z.ltb_spec (Z.of_nat (length data)) (off + n)); subst fin.
    - rewrite !drop_ge by lia. done.
    - f_equal. lia. }
  unfold data_slice. fold rest. rewrite <- Hk.
  pose proof (fun s => IH (off + n)%Z s ltac:(lia) ltac:(lia)) as IH'. rewrite Hrest.
  assert (Hlast : (fin =? Z.of_nat (length data))%Z = bool_decide (drop (Z.to_nat (off + n)) data = [])).
  { subst fin. destruct (Z.ltb_spec (Z.of_nat (length data)) (off + n)).
    - rewrite Z.eqb_refl. symmetry. apply bool_decide_eq_true_2, drop_ge. lia.
    - destruct (Z.eqb_spec (off + n) (Z.of_nat (length data))); symmetry.
      + apply bool_decide_eq_true_2, drop_ge. lia.
      + apply bool_decide_eq_false_2. intros E. apply (f_equal length) in E. rewrite length_drop in E. simpl in E. lia. }
  rewrite Hlast. clear IH. destruct (drop (Z.to_nat (off + n)) data) as [|b l] eqn:E.
  - simpl. destruct (Send _ s) as [[|] s1]; [|done]. by rewrite IH'.
  - rewrite bool_decide_eq_false_2 by done. rewrite <- E in IH' |- *. rewrite flag_last_cons by by rewrite E.
    cbn [send_all]. destruct (Send _ s) as [[|] s1]; [|done]. by rewrite IH'.
Qed.

Lemma stream_data_spec data s :
  stream_data n mk data s = send_all (flag_last mk (split_chunks (length data) n data)) s.
Proof.
  unfold stream_data. rewrite send_chunks_spec; [done|lia|]. unfold chunk_fuel.
  pose proof (Z.div_mod (Z.of_nat (length data)) n ltac:(lia)).
  pose proof (Z.mod_pos_bound (Z.of_nat (length data)) n Hn).
  pose proof (Z.div_pos (Z.of_nat (length data)) n ltac:(lia) Hn). nia.
Qed.

Lemma flag_last_data (get : F -> list byte) pieces :
  (forall c b, get (mk c b) = c) -> mjoin (get <$> flag_last mk pieces) = mjoin pieces.
Proof.
  intros Hget. induction pieces as [|c [|c' l] IH]; [done|simpl; by rewrite Hget|].
  cbn [flag_last]. rewrite fmap_cons, !join_cons, Hget. f_equal. apply IH.
Qed.

Lemma frames_of_data (get : F -> list byte) data :
  (forall c b, get (mk c b) = c) -> mjoin (get <$> frames_of n mk data) = data.
Proof.
  intros Hget. destruct data as [|b data]; [simpl; by rewrite Hget|]. unfold frames_of.
  rewrite flag_last_data by done. by apply split_chunks_concat.
Qed.

Lemma flag_last_snoc pieces c :
  flag_last mk (pieces ++ [c]) = ((fun c => mk c false) <$> pieces) ++ [mk c true].
Proof.
  induction pieces as [|c' pieces IH]; [done|]. rewrite fmap_cons. simpl app. rewrite <- IH.
  cbn [flag_last]. by destruct pieces.
Qed.

(** The frames are pieces of at most [n] bytes, of which exactly the last is flagged. *)
Lemma frames_of_shape data :
  exists pieces c, frames_of n mk data = ((fun c => mk c false) <$> pieces) ++ [mk c true]
    /\ Forall (fun c => 0 < Z.of_nat (length c) <= n)%Z pieces /\ (Z.of_nat (length c) <= n)%Z.
Proof.
  destruct data as [|b data]; [exists [], []; split_and!; [done|constructor|simpl; lia]|].
  unfold frames_of. pose proof (split_chunks_bound (length (b :: data)) (b :: data)) as Hb.
  destruct (split_chunks (length (b :: data)) n (b :: data)) as [|c l] eqn:E; [done|].
  destruct (exists_last (l := c :: l) ltac:(done)) as (pieces & c' & Heq). rewrite Heq in *.
  apply Forall_app in Hb as [Hb1 Hb2]. apply Forall_singleton in Hb2 as [_ Hc]. exists pieces, c'.
  split_and!; [apply flag_last_snoc| |done].
  eapply Forall_impl; [done|]. intros c0 [Hne ?]. destruct c0; [done|]. simpl length in *. lia.
Qed.

End chunking.

(** What a sink that takes [room] frames does with a list of frames. *)
Lemma send_all_spec {F} (fs : list F) (s : sink F) :
  send_all fs s =
  match room s with
  | None => (true, mk_sink (sent s ++ fs) None)
  | Some m => (bool_decide (length fs <= m), mk_sink (sent s ++ take m fs) (Some (m - length fs)))
  end.
Proof.
  revert s. induction fs as [|f fs IH]; intros [out [m|]]; simpl.
  - by rewrite take_nil, app_nil_r, Nat.sub_0_r.
  - by rewrite app_nil_r.
  - destruct m as [|m]; unfold Send; cbn [room sent]; [by rewrite app_nil_r|].
    rewrite IH. cbn [room sent]. rewrite <- app_assoc. simpl. f_equal.
    apply bool_decide_ext. lia.
  - rewrite IH. cbn [room sent]. by rewrite <- app_assoc.
Qed.

Lemma streamKV_spec data s : streamKV data s = send_all (frames_of fetchChunkBytes mk_chunk data) s.
Proof.
  unfold streamKV, frames_of. rewrite stream_data_spec by done. destruct data as [|b data].
  - simpl. by destruct (Send _ s) as [[|] s'].
  - cbv iota. destruct (send_all _ s) as [[|] s']; [by rewrite decide_False|done].
Qed.

Lemma streamBatchKV_spec idx data s :
  streamBatchKV idx data s
  = send_all (frames_of fetchChunkBytes (fun d last => mk_batch_chunk idx d last true) data) s.
Proof.
  unfold streamBatchKV, frames_of. rewrite stream_data_spec by done. destruct data as [|b data].
  - simpl. by destruct (Send _ s) as [[|] s'].
  - cbv iota. destruct (send_all _ s) as [[|] s']; [by rewrite decide_False|done].
Qed.

(** The bytes of a block survive the stream: for a transport that takes any
    number of frames, [streamKV] sends frames of at most 1 MiB whose data
    concatenate to the block and of which exactly the last is flagged (one empty
    frame for an empty block); a transport that fails earlier has been given a
    prefix of them and the failure is reported. *)
Theorem streamKV_exact data room :
  exists pieces c,
    let frames := ((fun c => mk_chunk c false) <$> pieces) ++ [mk_chunk c true] in
    mjoin pieces ++ c = data
    /\ Forall (fun c => 0 < Z.of_nat (length c) <= fetchChunkBytes)%Z pieces
    /\ (Z.of_nat (length c) <= fetchChunkBytes)%Z
    /\ (streamKV data (mk_sink [] room)).1
       = match room with None => true | Some n => bool_decide (length pieces < n) end
    /\ sent (streamKV data (mk_sink [] room)).2
       = match room with None => frames | Some n => take n frames end.
Proof.
  destruct (frames_of_shape fetchChunkBytes ltac:(done) mk_chunk data) as (pieces & c & Hf & Hp & Hc).
  exists pieces, c. intros frames. split.
  { rewrite <- (frames_of_data fetchChunkBytes ltac:(done) mk_chunk chunk_data data) by done.
    rewrite Hf, fmap_app, join_app. simpl. rewrite app_nil_r. f_equal.
    rewrite <- list_fmap_compose. by rewrite list_fmap_id. }
  split_and!; [done|done| |]; rewrite streamKV_spec, Hf, send_all_spec; cbn [Server.room sent fst snd]; destruct room; try done.
  apply bool_decide_ext. rewrite length_app, length_fmap. simpl. lia.
Qed.

(** ** Receiving *)

(** The data a client sends after the header. *)
Definition payload (msgs : list WriteChunk) : list byte :=
  msgs ≫= fun m => match m with WCChunk c => chunk_data c | _ => [] end.
Definition not_header (m : WriteChunk) : Prop := match m with WCHeader _ => False | _ => True end.

#[export] Instance not_header_dec m : Decision (not_header m).
Proof. destruct m; simpl; apply _. Defined.

Lemma assemble_loop_spec buf msgs eof :
  assemble_loop buf msgs eof
  = if decide (Forall not_header msgs) then if eof then Done (buf ++ payload msgs) else Failed TransportError
    else Failed (StatusError InvalidArgument "unexpected second WriteHeader").
Proof.
  revert buf. induction msgs as [|[hdr|c|] msgs IH]; intros buf; cbn [assemble_loop].
  - rewrite decide_True by constructor. simpl. by rewrite app_nil_r.
  - rewrite decide_False; [done|]. intros Hf. by inversion Hf.
  - rewrite IH. cbn [payload mbind list_bind]. rewrite <- app_assoc.
    apply decide_ext. rewrite Forall_cons. by split; [split|intros [_ ?]].
  - rewrite IH. apply decide_ext. rewrite Forall_cons. by split; [split|intros [_ ?]].
Qed.

Lemma assembleBlock_outcome can_alloc st :
  assembleBlock can_alloc st =
  match st_msgs st with
  | WCHeader hdr :: msgs =>
      if decide (0 < hdr_TotalSize hdr /\ can_alloc (hdr_TotalSize hdr) = false)%Z then Panicked
      else if decide (Forall not_header msgs) then
             if st_eof st then Done (hdr, payload msgs) else Failed TransportError
           else Failed (StatusError InvalidArgument "unexpected second WriteHeader")
  | [] => Failed TransportError
  | _ => Failed (StatusError InvalidArgument "first message must be a WriteHeader")
  end.
Proof.
  unfold assembleBlock. destruct (st_msgs st) as [|[hdr|c|] msgs]; [done| |done..].
  rewrite assemble_loop_spec, app_nil_l.
  assert (((0 <? hdr_TotalSize hdr)%Z && negb (can_alloc (hdr_TotalSize hdr)))
    = bool_decide (0 < hdr_TotalSize hdr /\ can_alloc (hdr_TotalSize hdr) = false)%Z) as ->.
  { apply eq_bool_prop_intro. rewrite bool_decide_spec, Is_true_true. by rewrite andb_true_iff, negb_true_iff, Z.ltb_lt. }
  case_bool_decide; [by rewrite decide_True|]. rewrite (decide_False (P := _ /\ _)) by done.
  case_decide; [|done]. by destruct (st_eof st).
Qed.

Lemma assembleBlock_done can_alloc st hdr buf :
  assembleBlock can_alloc st = Done (hdr, buf) <->
  exists msgs snt, st = mk_block_stream (WCHeader hdr :: msgs) true snt /\ Forall not_header msgs /\ buf = payload msgs
    /\ (0 < hdr_TotalSize hdr -> can_alloc (hdr_TotalSize hdr) = true)%Z.
Proof.
  rewrite assembleBlock_outcome. split.
  - destruct st as [[|[hdr'|c|] msgs] eof snt]; cbn [st_msgs st_eof]; try done.
    case_decide as Hp; [done|]. case_decide; [|done]. destruct eof; [|done]. intros [= <- <-].
    exists msgs, snt. split_and!; try done. intros ?. destruct (can_alloc _); [done|]. by destruct Hp.
  - intros (msgs & snt & -> & Hm & -> & Ha). cbn [st_msgs st_eof]. rewrite decide_False, decide_True; [done|done|].
    intros [Hp Hc]. by rewrite Ha in Hc.
Qed.

(** The same stream with a transport that takes the answer. *)
Definition answer_taken (st : block_stream) : block_stream := mk_stream (st_msgs st) (st_eof st).

(** The messages of a complete upload, as both the client and the replicator frame it. *)
Definition upload_messages (n : Z) (hdr : WriteHeader) (data : list byte) : list WriteChunk :=
  WCHeader hdr :: flag_last (fun d last => WCChunk (mk_chunk d last)) (split_chunks (length data) n data).

Lemma upload_assembles can_alloc n hdr data :
  (0 < n)%Z -> (0 < hdr_TotalSize hdr -> can_alloc (hdr_TotalSize hdr) = true)%Z ->
  assembleBlock can_alloc (mk_stream (upload_messages n hdr data) true) = Done (hdr, data).
Proof.
  intros Hn Ha. apply assembleBlock_done. eexists _, _. split; [reflexivity|]. set (mk := fun d last => WCChunk (mk_chunk d last)).
  assert (Hnh : forall l, Forall not_header (flag_last mk l)).
  { induction l as [|c [|c' l] IH]; [constructor|by repeat constructor|]. by constructor. }
  split_and!; [apply Hnh| |exact Ha].
  rewrite <- (split_chunks_concat n Hn (length data) data) at 1 by done.
  rewrite <- (flag_last_data mk (fun m => match m with WCChunk c => chunk_data c | _ => [] end)) by done.
  unfold payload. induction (flag_last _ _) as [|m l IH]; [done|]. by rewrite fmap_cons, join_cons, IH.
Qed.

(** [assembleBlock] accepts exactly the streams that are one header followed
    by data frames and a clean end, and then yields that header and the
    concatenated data, whatever [total_size] announced; it panics exactly when
    the announced size cannot be allocated. *)
Theorem assembleBlock_exact can_alloc st :
  (forall hdr buf,
     assembleBlock can_alloc st = Done (hdr, buf) <->
     exists msgs snt, st = mk_block_stream (WCHeader hdr :: msgs) true snt /\ Forall not_header msgs /\ buf = payload msgs
       /\ (0 < hdr_TotalSize hdr -> can_alloc (hdr_TotalSize hdr) = true)%Z)
  /\ (assembleBlock can_alloc st = Panicked <->
      exists hdr msgs, st_msgs st = WCHeader hdr :: msgs /\ (0 < hdr_TotalSize hdr)%Z
        /\ can_alloc (hdr_TotalSize hdr) = false).
Proof.
  split; [intros; apply assembleBlock_done|]. rewrite assembleBlock_outcome.
  split; [|by intros (hdr & msgs & -> & Hp & Hc); rewrite decide_True].
  destruct (st_msgs st) as [|[hdr|c|] msgs]; try done. case_decide as Hp; [by intros _; exists hdr, msgs|].
  case_decide; [|done]. by destruct (st_eof st).
Qed.

(** ** Resolving one block *)

Section resolving.
Context {P T : Type} `{EvictionPolicy P} `{ColdTier T}.
Implicit Types (st : Store P) (s : Server P T).

(** What [Fetch] and [BatchFetch] have in common, on the store alone: the bytes
    to serve, if any, and the store afterwards. *)
Definition resolve (now : Z) (model : string) (h : BlockHash) (version : Z) (tokenIDs : list Z)
    (c : option T) (st : Store P) : option (list byte) * Store P :=
  match Get now model h st with
  | (Some e, st) => (if guards_ok version tokenIDs (Version e) (TokenIDs e) then Some (KV e) else None, st)
  | (None, st) =>
      match tier_Get model h <$> c with
      | Some (TierHit kv ver toks) =>
          if guards_ok version tokenIDs ver toks then
            (Some kv, if OverHardLimit (Z.of_nat (length kv)) st then st
                      else (PutWithVersion now h
                              (Some (mk_entry toks kv model hash32_zero 0 0 "" f64_0 0 0 0)) ver st).2)
          else (None, st)
      | _ => (None, st)
      end
  end.

Definition same_data (s s' : Server P T) : Prop :=
  store s = store s' /\ repl s = repl s' /\ cold s = cold s'.

Lemma coldHit_spec now model h version toks s :
  (Get now model h (store s)).1 = None ->
  let s1 := set_store (Get now model h (store s)).2 s in
  let '(r, s') := coldHit now model h version toks s1 in
  (r, store s') = resolve now model h version toks (cold s) (store s) /\ repl s' = repl s /\ cold s' = cold s.
Proof.
  unfold resolve, coldHit. destruct (Get now model h (store s)) as [[e|] st]; [done|]. intros _. simpl.
  destruct (cold s) as [t|] eqn:Hc; simpl; [|by rewrite Hc].
  destruct (tier_Get model h t) as [kv ver tk| |]; simpl; [|by rewrite Hc..].
  destruct (guards_ok version toks ver tk); simpl; [|by rewrite Hc].
  destruct (OverHardLimit _ st); simpl; by rewrite Hc.
Qed.

Lemma batchResolve_spec now model fb h s :
  let '(r, s') := batchResolve now model fb h s in
  (r, store s') = resolve now model h (fb_Version fb) (fb_TokenIds fb) (cold s) (store s)
  /\ repl s' = repl s /\ cold s' = cold s.
Proof.
  unfold batchResolve. pose proof (coldHit_spec now model h (fb_Version fb) (fb_TokenIds fb) s) as Hc.
  unfold resolve in *. destruct (Get now model h (store s)) as [[e|] st]; simpl in *; [|by apply Hc].
  by destruct (guards_ok _ _ _ _).
Qed.

(** The error [Fetch] reports for an unresolved block says why. *)
Definition fetch_error (model : string) (h : BlockHash) (version : Z) (e : option Entry) : rpc_error :=
  StatusError NotFound
    match e with
    | None => "block not cached"
    | Some e => if negb (version =? 0)%Z && negb (version =? Version e)%Z
                then "requested version not available" else "token_ids do not match cached block"
    end.

Lemma Fetch_spec now model h version toks out s :
  let '(r, st) := resolve now model h version toks (cold s) (store s) in
  let '(err, out', s') := Fetch now model (hash_bytes h) version toks out s in
  match r with
  | Some kv =>
      let '(ok, o) := send_all (frames_of fetchChunkBytes mk_chunk kv) out in
      err = (if ok then None else Some TransportError) /\ out' = o
  | None => err = Some (fetch_error model h version (Get now model h (store s)).1) /\ out' = out
  end /\ store s' = st /\ repl s' = repl s /\ cold s' = cold s.
Proof.
  unfold Fetch, toBlockHash. rewrite hash32_of_bytes. cbv iota zeta.
  pose proof (coldHit_spec now model h version toks s) as Hc. cbv zeta in Hc. unfold fetchFromCold.
  destruct (Get now model h (store s)) as [[e|] st] eqn:Hg.
  - clear Hc. unfold resolve. rewrite Hg. unfold guards_ok, fetch_error. cbn [fst].
    destruct (negb (version =? 0)%Z && negb (version =? Version e)%Z); simpl; [done|].
    destruct (negb (bool_decide (toks = [])) && _); simpl; [done|].
    rewrite streamKV_spec. by destruct (send_all _ out) as [[|] o].
  - specialize (Hc eq_refl). simpl in Hc |- *.
    destruct (coldHit now model h version toks (set_store st s)) as [r s'].
    destruct Hc as (Hr & Hrepl & Hcold). rewrite <- Hr. destruct r as [kv|]; simpl.
    + rewrite streamKV_spec. by destruct (send_all _ out) as [[|] o].
    + done.
Qed.

Lemma batch_one_spec now model i fb h out s :
  toBlockHash (fb_BlockHash fb) = Some h ->
  let '(r, st) := resolve now model h (fb_Version fb) (fb_TokenIds fb) (cold s) (store s) in
  let '(ok, out', s') := batch_one now model i fb out s in
  (ok, out') = send_all (match r with
                         | Some kv => frames_of fetchChunkBytes (fun d last => mk_batch_chunk i d last true) kv
                         | None => [mk_batch_chunk i [] true false]
                         end) out
  /\ store s' = st /\ repl s' = repl s /\ cold s' = cold s.
Proof.
  intros Hh. unfold batch_one. rewrite Hh. pose proof (batchResolve_spec now model fb h s) as Hb.
  destruct (batchResolve now model fb h s) as [r s']. destruct Hb as (Hr & Hrepl & Hcold). rewrite <- Hr.
  destruct r as [kv|].
  - rewrite streamBatchKV_spec. by destruct (send_all _ out) as [ok o].
  - unfold sendNotFound. simpl. by destruct (Send _ out) as [[|] o].
Qed.

(** What [resolve] serves is what the store or the tier holds for that key. *)
Definition hot_block (st : Store P) (model : string) (h : BlockHash) (e : Entry) : Prop :=
  Peek model h st = Some e /\ ModelID e = model
  /\ (WireHash e = h \/ collision (key_message model (WireHash e)) (key_message model h)).

Lemma Get_Peek now model h st :
  (Get now model h st).1 = recordAccess now <$> Peek model h st
  /\ (Peek model h st = None -> (Get now model h st).2 = st).
Proof.
  unfold Get, Peek. destruct (stripeFor _ st !! _) as [e|]; [|done]. by case_decide.
Qed.

Lemma Peek_hot st model h e : store_wf st -> Peek model h st = Some e -> hot_block st model h e.
Proof.
  intros [Hs He _] Hp. split; [done|]. revert Hp. unfold Peek. rewrite <- flat_lookup by done.
  destruct (flat st !! storeKey model h) as [e0|] eqn:E; [|done].
  case_decide as Hm; [done|]. intros [= ->]. split; [done|].
  destruct (He _ _ E) as [Hk _].
  destruct (decide (WireHash e = h)) as [|Hne]; [by left|right].
  split; [by intros [_ ?]%key_message_inj|]. rewrite Hm in Hk. exact (eq_sym Hk).
Qed.

Lemma resolve_serves now model h version toks c st kv :
  store_wf st -> (resolve now model h version toks c st).1 = Some kv ->
  (exists e, hot_block st model h e /\ KV e = kv /\ guards_ok version toks (Version e) (TokenIDs e) = true)
  \/ (Peek model h st = None /\ exists t ver tk, c = Some t /\ tier_holds t model h (mk_cold ver tk kv)
      /\ guards_ok version toks ver tk = true).
Proof.
  intros Hwf. unfold resolve. destruct (Get_Peek now model h st) as [Hg Hn].
  destruct (Get now model h st) as [g st']. simpl in Hg. subst g.
  destruct (Peek model h st) as [e|] eqn:Hp; simpl.
  - destruct (guards_ok _ _ _ _) eqn:G; [|done]. intros [= <-]. left. exists e.
    split_and!; [by apply Peek_hot|done|done].
  - destruct c as [t|]; simpl; [|done]. destruct (tier_Get model h t) as [kv' ver tk| |] eqn:Ht; try done.
    destruct (guards_ok version toks ver tk) eqn:G; [|done]. intros [= <-]. right. split; [done|].
    exists t, ver, tk. split_and!; [done|by apply tier_hit_held|done].
Qed.

(** The calls a read makes on the store: the lookup itself and the re-admission of
    a block the tier answered. *)
Definition readmitted (model : string) (kv : list byte) (toks : list Z) : Entry :=
  mk_entry toks kv model hash32_zero 0 0 "" f64_0 0 0 0.
Definition read_call (c : option T) (call : store_call) : Prop :=
  match call with
  | CGet _ _ _ => True
  | CPutWithVersion _ h (Some e) v =>
      exists t model kv toks, c = Some t /\ tier_Get model h t = TierHit kv v toks /\ e = readmitted model kv toks
  | _ => False
  end.

Definition runs_from (Q : store_call -> Prop) (st st' : Store P) : Prop :=
  exists cs, Forall Q cs /\ st' = store_run st cs.

Lemma resolve_run now model h version toks c st :
  runs_from (read_call c) st (resolve now model h version toks c st).2.
Proof.
  assert (H1 : forall st', st' = store_run st [CGet now model h] -> runs_from (read_call c) st st')
    by (intros st' ->; exists [CGet now model h]; split; [by repeat constructor|done]).
  unfold resolve. destruct (Get now model h st) as [g st'] eqn:Hg.
  assert (Hst : st' = store_run st [CGet now model h]) by (simpl; by rewrite Hg).
  destruct g as [e|]; [by apply H1|]. destruct c as [t|]; [|by apply H1]. cbn [fmap option_fmap option_map].
  destruct (tier_Get model h t) as [kv ver tk| |] eqn:Ht; try by apply H1.
  destruct (guards_ok _ _ _ _); [|by apply H1]. destruct (OverHardLimit _ _); [by apply H1|].
  fold (readmitted model kv tk).
  exists [CGet now model h; CPutWithVersion now h (Some (readmitted model kv tk)) ver]. split.
  - constructor; [done|]. constructor; [|done]. by exists t, model, kv, tk.
  - cbn [store_run fold_left store_step snd]. rewrite Hg. cbn [snd].
    by destruct (PutWithVersion now h (Some (readmitted model kv tk)) ver st').
Qed.

End resolving.

(** ** The server only ever calls its store *)

(** A server as the main program builds it. *)
Definition boot {P T} `{EvictionPolicy P} (p : P) (opts : list StoreOption) (with_repl : bool) (c : option T) :
    Server P T :=
  WithColdReader c (if with_repl then NewWithReplicator (NewStore p opts) else New (NewStore p opts)).

Section runs.
Context {P T : Type} `{EvictionPolicy P} `{ColdTier T}.
Implicit Types (s : Server P T).

Lemma runs_refl Q (st : Store P) : runs_from Q st st.
Proof. by exists []. Qed.

Lemma runs_trans Q (st st' st'' : Store P) : runs_from Q st st' -> runs_from Q st' st'' -> runs_from Q st st''.
Proof.
  intros (cs1 & H1 & ->) (cs2 & H2 & ->). exists (cs1 ++ cs2). split; [by apply Forall_app|by rewrite store_run_app].
Qed.

Lemma runs_mono (Q Q' : store_call -> Prop) (st st' : Store P) :
  (forall c, Q c -> Q' c) -> runs_from Q st st' -> runs_from Q' st st'.
Proof. intros HQ (cs & Hcs & ->). exists cs. split; [|done]. by eapply Forall_impl. Qed.

Lemma runs_call Q (st : Store P) c : Q c -> runs_from Q st (store_step c st).2.
Proof. intros Hc. exists [c]. split; [by repeat constructor|done]. Qed.

Lemma Lookup_data model hashes s : same_data s (Lookup model hashes s).2.
Proof.
  revert s. induction hashes as [|hb hs IH]; intros s; [done|]. cbn [Lookup].
  assert (same_data s (lookup_one model hb s).2) as H1
    by (unfold lookup_one; destruct (toBlockHash hb); [destruct (Peek _ _ _)|]; done).
  destruct (lookup_one model hb s) as [bp s1]. specialize (IH s1). destruct (Lookup model hs s1) as [bps s2].
  unfold same_data in *. simpl in *. intuition congruence.
Qed.

Lemma Fetch_runs now model hash version toks out s :
  let s' := (Fetch now model hash version toks out s).2 in
  runs_from (read_call (cold s)) (store s) (store s') /\ repl s' = repl s /\ cold s' = cold s.
Proof.
  destruct (hash32_of hash) as [h|] eqn:Hh.
  - apply hash32_of_Some in Hh as ->. pose proof (Fetch_spec now model h version toks out s) as Hf.
    pose proof (resolve_run now model h version toks (cold s) (store s)) as Hr.
    destruct (resolve _ _ _ _ _ _ _) as [r st].
    destruct (Fetch now model (hash_bytes h) version toks out s) as [[err o] s'].
    destruct Hf as (_ & Hst & Hrest). cbn [snd] in *. by rewrite Hst.
  - unfold Fetch, toBlockHash. rewrite Hh. split; [apply runs_refl|done].
Qed.

Lemma batch_one_runs now model i fb out s :
  let s' := (batch_one now model i fb out s).2 in
  runs_from (read_call (cold s)) (store s) (store s') /\ repl s' = repl s /\ cold s' = cold s.
Proof.
  destruct (toBlockHash (fb_BlockHash fb)) as [h|] eqn:Hh.
  - pose proof (batch_one_spec now model i fb h out s Hh) as Hf.
    pose proof (resolve_run now model h (fb_Version fb) (fb_TokenIds fb) (cold s) (store s)) as Hr.
    destruct (resolve _ _ _ _ _ _ _) as [r st].
    destruct (batch_one now model i fb out s) as [[ok o] s'].
    destruct Hf as (_ & Hst & Hrest). cbn [snd] in *. by rewrite Hst.
  - unfold batch_one. rewrite Hh. destruct (sendNotFound i out). split; [apply runs_refl|done].
Qed.

Lemma batch_loop_runs now model i blocks out s :
  let s' := (batch_loop now model i blocks out s).2 in
  runs_from (read_call (cold s)) (store s) (store s') /\ repl s' = repl s /\ cold s' = cold s.
Proof.
  revert i out s. induction blocks as [|fb blocks IH]; intros i out s; [split; [apply runs_refl|done]|]. cbn [batch_loop].
  pose proof (batch_one_runs now model (u32 (Z.of_nat i)) fb out s) as H1.
  destruct (batch_one _ _ _ _ _ _) as [[ok o] s1]. cbn [snd] in H1. destruct ok; [|done].
  destruct H1 as (H1 & Hr & Hc). destruct (IH (S i) o s1) as (H2 & Hr2 & Hc2). rewrite Hr2, Hc2.
  split; [|done]. eapply runs_trans; [done|]. by rewrite <- Hc.
Qed.

(** The writing call of an event, where it makes one. *)
Definition event_call (ev : server_event T) (call : store_call) : Prop :=
  match ev with
  | RpcWrite ca now st => exists hdr buf h, assembleBlock ca st = Done (hdr, buf)
      /\ hash32_of (hdr_BlockHash hdr) = Some h /\ call = CPut now h (Some (header_entry hdr buf))
  | RpcReplicate ca now st => exists hdr buf h, assembleBlock ca st = Done (hdr, buf)
      /\ hash32_of (hdr_BlockHash hdr) = Some h /\ call = CPutWithVersion now h (Some (header_entry hdr buf)) (hdr_Version hdr)
  | RpcEvict model _ => exists h, call = CDelete model h
  | StoreCall c => call = c
  | _ => False
  end.

Lemma server_step_runs ev s :
  runs_from (fun call => read_call (cold s) call \/ event_call ev call) (store s) (store (server_step s ev)).
Proof.
  destruct ev as [model hashes|now model hash version toks room|now model blocks room|ca now st|ca now st|model hash|c|t];
    cbn [server_step].
  - destruct (Lookup_data model hashes s) as [<- _]. apply runs_refl.
  - eapply runs_mono; [|apply Fetch_runs]. by left.
  - eapply runs_mono; [|apply batch_loop_runs]. by left.
  - unfold Write. destruct (assembleBlock ca st) as [[hdr buf]| |] eqn:E; try apply runs_refl. unfold toBlockHash.
    destruct (hash32_of _) as [h|] eqn:Hh; [|apply runs_refl]. destruct (OverHardLimit _ _); [apply runs_refl|].
    set (Q := fun call => _ \/ _).
    pose proof (runs_call Q (store s) (CPut now h (Some (header_entry hdr buf))) ltac:(right; by exists hdr, buf, h)) as Hr.
    cbn [store_step] in Hr. by destruct (Put _ _ _ _) as [ver st'].
  - unfold Replicate. destruct (assembleBlock ca st) as [[hdr buf]| |] eqn:E; try apply runs_refl. unfold toBlockHash.
    destruct (hash32_of _) as [h|] eqn:Hh; [|apply runs_refl]. destruct (_ =? 0)%Z; [apply runs_refl|].
    set (Q := fun call => _ \/ _).
    pose proof (runs_call Q (store s) (CPutWithVersion now h (Some (header_entry hdr buf)) (hdr_Version hdr))
      ltac:(right; by exists hdr, buf, h)) as Hr.
    cbn [store_step] in Hr. by destruct (PutWithVersion _ _ _ _ _) as [ver st'].
  - unfold Evict. destruct (toBlockHash _) as [h|]; [|apply runs_refl].
    set (Q := fun call => _ \/ _).
    pose proof (runs_call Q (store s) (CDelete model h) ltac:(right; by exists h)) as Hr. cbn [store_step] in Hr.
    by destruct (Delete _ _ _) as [[|] st'].
  - apply runs_call. by right.
  - apply runs_refl.
Qed.

Lemma server_run_runs s evs : runs_from (fun _ => True) (store s) (store (server_run s evs)).
Proof.
  revert s. induction evs as [|ev evs IH]; intros s; [apply runs_refl|].
  eapply runs_trans; [eapply runs_mono; [|apply (server_step_runs ev)]; done|]. apply IH.
Qed.

Lemma server_wf (p : P) opts r c evs : store_wf (store (server_run (boot (T:=T) p opts r c) evs)).
Proof.
  destruct (server_run_runs (boot p opts r c) evs) as (cs & _ & ->). apply store_wf_run.
  destruct r, c; apply store_wf_new.
Qed.

End runs.

(** ** Replicate *)

Section replicate.
Context {P T : Type} `{EvictionPolicy P} `{ColdTier T}.
Implicit Types (s : Server P T).

Lemma Replicate_refused can_alloc now st s :
  st_sent st = true -> (forall resp, (Replicate can_alloc now st s).1 <> Done resp) -> (Replicate can_alloc now st s).2 = s.
Proof.
  intros Hs. unfold Replicate. destruct (assembleBlock can_alloc st) as [[hdr buf]| |]; [|done..].
  destruct (toBlockHash _); [|done]. cbv zeta. destruct (_ =? 0)%Z; [done|]. unfold SendAndClose. rewrite Hs.
  destruct (PutWithVersion _ _ _ _ _). intros Hn. by destruct (Hn _ eq_refl).
Qed.

Lemma Replicate_repl can_alloc now st s : repl (Replicate can_alloc now st s).2 = repl s.
Proof.
  unfold Replicate. destruct (assembleBlock can_alloc st) as [[hdr buf]| |]; [|done..].
  destruct (toBlockHash _); [|done]. cbv zeta. destruct (_ =? 0)%Z; [done|]. by destruct (PutWithVersion _ _ _ _ _).
Qed.

Lemma Replicate_answered can_alloc now st s :
  Replicate can_alloc now st s
  = let '(r, s') := Replicate can_alloc now (answer_taken st) s in (match r with Done resp => SendAndClose st resp | _ => r end, s').
Proof.
  unfold Replicate. change (assembleBlock can_alloc (answer_taken st)) with (assembleBlock can_alloc st).
  destruct (assembleBlock can_alloc st) as [[hdr buf]| |]; [|done..]. destruct (toBlockHash _); [|done]. cbv zeta.
  destruct (_ =? 0)%Z; [done|]. by destruct (PutWithVersion _ _ _ _ _).
Qed.

Lemma Replicate_spec can_alloc now st s :
  striped (store s) ->
  let '(r, s') := Replicate can_alloc now st s in
  repl s' = repl s
  /\ match r with
     | Done resp =>
         exists hdr msgs h, st = mk_stream (WCHeader hdr :: msgs) true /\ hdr_BlockHash hdr = hash_bytes h
           /\ hdr_Version hdr <> 0%Z
           /\ let k := storeKey (hdr_ModelId hdr) h in
              wr_Version resp = match flat (store s) !! k with
                                | Some prev => Z.max (Version prev) (hdr_Version hdr)
                                | None => hdr_Version hdr end
              /\ (wr_Stored resp = true <-> wr_Version resp = hdr_Version hdr)
              /\ exists g, flat (store s') !! k = Some g /\ Version g = wr_Version resp
                   /\ ((exists prev, flat (store s) !! k = Some prev /\ hdr_Version hdr <= Version prev /\ g = prev)%Z
                       \/ holds g (header_entry hdr (payload msgs)) h (hdr_Version hdr))
     | Failed _ => s' = s \/ (exists resp, Replicate can_alloc now (answer_taken st) s = (Done resp, s'))
     | Panicked => s' = s
     end.
Proof.
  intros Hst. destruct st as [ms eof [|]].
  2: { rewrite Replicate_answered. pose proof (Replicate_refused can_alloc now (answer_taken (mk_block_stream ms eof false)) s) as Hr.
       pose proof (Replicate_repl can_alloc now (answer_taken (mk_block_stream ms eof false)) s) as Hj.
       destruct (Replicate can_alloc now (answer_taken _) s) as [[resp|e|] s'] eqn:E; cbn [fst snd] in *; (split; [exact Hj|]);
         [right; by exists resp|left; by apply Hr|by apply Hr]. }
  unfold Replicate.
  destruct (assembleBlock can_alloc (mk_stream ms eof)) as [[hdr buf]| |] eqn:E; [|(split; [done|by left]) || done..].
  apply assembleBlock_done in E as (msgs & snt & [= -> -> <-] & Hm & -> & _).
  destruct (toBlockHash (hdr_BlockHash hdr)) as [h|] eqn:Hh; [|split; [done|by left]]. apply hash32_of_Some in Hh.
  destruct (Z.eqb_spec (hdr_Version hdr) 0) as [|Hv]; [split; [done|by left]|].
  set (en := header_entry hdr (payload msgs)).
  destruct (flat_step (CPutWithVersion now h (Some en) (hdr_Version hdr)) (store s) Hst) as [Hf Ha].
  cbn [store_step FlatStore.step] in Hf, Ha. rewrite decide_False in Hf, Ha by done.
  unfold FlatStore.put_with_version in Hf, Ha. change (ModelID en) with (hdr_ModelId hdr) in Hf, Ha.
  destruct (PutWithVersion now h (Some en) (hdr_Version hdr) (store s)) as [v st'].
  assert (Hack : forall v', v' = v -> (v =? hdr_Version hdr)%Z = true <-> v' = hdr_Version hdr) by (intros v' ->; lia).
  split; [done|]. exists hdr, msgs, h. do 3 (split; [done|]). cbn [wr_Version wr_Stored set_store store].
  destruct (flat (store s) !! storeKey (hdr_ModelId hdr) h) as [prev|] eqn:Hk; [case_decide|];
    injection (Ha _ eq_refl) as ->; cbn [snd] in Hf.
  - split; [lia|]. split; [lia|]. exists prev. rewrite Hf. split_and!; [done|done|]. left. by exists prev.
  - split; [lia|]. split; [lia|]. eexists. rewrite Hf, lookup_insert_eq. split_and!; [done|done|]. right.
    apply (stored_holds _ _ _ (CreatedAt prev) 0).
  - split; [done|]. split; [lia|]. eexists. rewrite Hf, lookup_insert_eq. split_and!; [done|done|]. right.
    apply (stored_holds _ _ _ now 0).
Qed.

End replicate.

(** ** Answering a batch is answering each fetch *)

Section batch.
Context {P T : Type} `{EvictionPolicy P} `{ColdTier T}.
Implicit Types (s : Server P T).

(** The blocks fetched one after the other; [None]: the fetch failed. *)
Fixpoint fetch_each (now : Z) (model : string) (blocks : list FetchBlock) (s : Server P T) :
    list (option (list byte)) * Server P T :=
  match blocks with
  | [] => ([], s)
  | fb :: blocks =>
      let '(err, out, s1) := Fetch now model (fb_BlockHash fb) (fb_Version fb) (fb_TokenIds fb) (mk_sink [] None) s in
      let a := match err with None => Some (mjoin (chunk_data <$> sent out)) | Some _ => None end in
      let '(l, s2) := fetch_each now model blocks s1 in (a :: l, s2)
  end.

(** The frames of block [i] of a batch. *)
Definition answer_frames (i : nat) (a : option (list byte)) : list BatchKVChunk :=
  let i := Z.of_nat i in
  match a with
  | Some kv => frames_of fetchChunkBytes (fun d last => mk_batch_chunk i d last true) kv
  | None => [mk_batch_chunk i [] true false]
  end.
Fixpoint batch_frames (i : nat) (l : list (option (list byte))) : list BatchKVChunk :=
  match l with [] => [] | a :: l => answer_frames i a ++ batch_frames (S i) l end.

(** What a client keeps for block [i]. *)
Definition demux (i : nat) (fs : list BatchKVChunk) : list BatchKVChunk :=
  filter (fun f => bc_Index f = Z.of_nat i) fs.

Lemma answer_frames_index i a f : f ∈ answer_frames i a -> bc_Index f = Z.of_nat i.
Proof.
  destruct a as [kv|]; simpl; [|by intros ->%list_elem_of_singleton].
  destruct (frames_of_shape fetchChunkBytes ltac:(done)
    (fun d last => mk_batch_chunk (Z.of_nat i) d last true) kv) as (ps & c & -> & _).
  intros [(c' & -> & _)%list_elem_of_fmap | ->%list_elem_of_singleton]%elem_of_app; done.
Qed.

Lemma demux_answer i j a : demux i (answer_frames j a) = if decide (j = i) then answer_frames j a else [].
Proof.
  unfold demux. pose proof (answer_frames_index j a) as Hin. induction (answer_frames j a) as [|f fs IH].
  - rewrite filter_nil. by case_decide.
  - rewrite filter_cons, (Hin f) by by left. rewrite IH by (intros f' Hf'; apply Hin; by right).
    destruct (decide (j = i)) as [->|Hne]; [by rewrite decide_True|].
    rewrite decide_False by lia. done.
Qed.

Lemma demux_batch i j l :
  demux i (batch_frames j l)
  = match guard (j <= i) ;; l !! (i - j) with Some a => answer_frames i a | None => [] end.
Proof.
  revert j. induction l as [|a l IH]; intros j; cbn [batch_frames].
  - by case_guard.
  - unfold demux in *. rewrite filter_app, IH. change (filter _ (answer_frames j a)) with (demux i (answer_frames j a)).
    rewrite demux_answer. destruct (decide (j = i)) as [->|Hne].
    + rewrite option_guard_False, option_guard_True by lia. rewrite Nat.sub_diag. simpl. by rewrite app_nil_r.
    + destruct (decide (j <= i)).
      * rewrite !option_guard_True by lia. replace (i - j) with (S (i - S j)) by lia. done.
      * by rewrite !option_guard_False by lia.
Qed.

Lemma batch_loop_spec now model i blocks out s s0 :
  same_data s s0 -> (Z.of_nat (i + length blocks) <= 2 ^ 32)%Z -> room out = None ->
  let '(l, s1) := fetch_each now model blocks s0 in
  let '(err, out', s') := batch_loop now model i blocks out s in
  err = None /\ sent out' = sent out ++ batch_frames i l /\ same_data s' s1.
Proof.
  revert i out s s0. induction blocks as [|fb blocks IH]; intros i out s s0 Hd Hi Hr.
  { simpl. by rewrite app_nil_r. }
  cbn [fetch_each batch_loop]. simpl length in Hi.
  replace (u32 (Z.of_nat i)) with (Z.of_nat i) by (symmetry; apply Z.mod_small; lia).
  assert (Hone : let '(err, o, s1) := Fetch now model (fb_BlockHash fb) (fb_Version fb) (fb_TokenIds fb) (mk_sink [] None) s0 in
    let '(ok, out', s') := batch_one now model (Z.of_nat i) fb out s in
    ok = true /\ room out' = None
    /\ sent out' = sent out ++ answer_frames i (match err with None => Some (mjoin (chunk_data <$> sent o)) | Some _ => None end)
    /\ same_data s' s1).
  { destruct Hd as (Hst & Hrp & Hc). destruct (toBlockHash (fb_BlockHash fb)) as [h|] eqn:Hh.
    - pose proof (batch_one_spec now model (Z.of_nat i) fb h out s Hh) as Hb.
      apply hash32_of_Some in Hh as Hh'. rewrite Hh'.
      pose proof (Fetch_spec now model h (fb_Version fb) (fb_TokenIds fb) (mk_sink [] None) s0) as Hf.
      rewrite <- Hst, <- Hc in Hf. destruct (resolve _ _ _ _ _ _ _) as [r st].
      destruct (Fetch _ _ _ _ _ _ _) as [[err o] s1]. destruct (batch_one _ _ _ _ _ _) as [[ok out'] s'].
      rewrite send_all_spec, Hr in Hb. destruct Hb as ([= -> ->] & H1 & H2 & H3).
      destruct Hf as (Hf & H4 & H5 & H6). split_and!; try done.
      + destruct r as [kv|]; [|by destruct Hf as [-> _]].
        rewrite send_all_spec in Hf. destruct Hf as [-> ->]. cbn [sent room app].
        by rewrite frames_of_data.
      + unfold same_data. intuition congruence.
    - unfold batch_one, Fetch. rewrite Hh. unfold sendNotFound, Send. rewrite Hr. done. }
  destruct (Fetch now model _ _ _ _ s0) as [[err o] s1].
  destruct (batch_one now model (Z.of_nat i) fb out s) as [[ok out'] s'].
  destruct Hone as (-> & Hr' & Hs & Hd'). specialize (IH (S i) out' s' s1 Hd' ltac:(lia) Hr').
  destruct (fetch_each now model blocks s1) as [l s2]. destruct (batch_loop now model (S i) blocks out' s') as [[err' out''] s''].
  destruct IH as (-> & -> & ?). split_and!; [done| |done]. by rewrite Hs, <- app_assoc.
Qed.

(** C15. [BatchFetch] is [Fetch] of each block in order: on a transport that takes
    every frame it never fails, leaves the store, the tier and the replication
    queue as the single fetches would, and a client that keeps the frames of
    index [i] gets exactly the bytes the [i]-th fetch streams, flagged found and
    ended once, or one not-found frame where that fetch fails. *)
Theorem batchFetch_is_fetches now model blocks s :
  (Z.of_nat (length blocks) <= 2 ^ 32)%Z ->
  let '(err, out, s') := BatchFetch now model blocks (mk_sink [] None) s in
  let '(l, s1) := fetch_each now model blocks s in
  err = None /\ same_data s' s1 /\ length l = length blocks
  /\ forall i a, l !! i = Some a -> demux i (sent out) = answer_frames i a.
Proof.
  intros Hlen. unfold BatchFetch.
  pose proof (batch_loop_spec now model 0 blocks (mk_sink [] None) s s ltac:(done) Hlen eq_refl) as Hb.
  assert (Hl : length (fetch_each now model blocks s).1 = length blocks).
  { clear. revert s. induction blocks as [|fb blocks IH]; intros s; [done|]. cbn [fetch_each].
    destruct (Fetch _ _ _ _ _ _ _) as [[err o] s1]. specialize (IH s1).
    destruct (fetch_each now model blocks s1). simpl in *. lia. }
  destruct (fetch_each now model blocks s) as [l s1]. destruct (batch_loop _ _ _ _ _ _) as [[err out] s'].
  destruct Hb as (-> & -> & Hd). split_and!; [done..|]. intros i a Ha.
  rewrite app_nil_l, demux_batch, option_guard_True, Nat.sub_0_r by lia. simpl. by rewrite Ha.
Qed.

End batch.

(** ** The contract of the handlers *)

Section contract.
Context {P T : Type} `{EvictionPolicy P} `{ColdTier T}.
Context (p : P) (opts : list StoreOption) (with_repl : bool) (c0 : option T) (evs : list (server_event T)).

(** A server after any events. *)
Let s : Server P T := server_run (boot p opts with_repl c0) evs.

(** A fetch streams only what was asked for (ADR 0016): every frame sent is a
    frame of the bytes of one block, and that block is the resident entry of the
    asked model whose hash is the asked one (or collides with it under SHA-256),
    or, when nothing is resident, a block the cold tier holds for that model and
    hash; its version and tokens pass the request's guards.  Every other outcome
    is an error and sends no frame. *)
Theorem fetch_serves_verified now model hash version toks room :
  let '(err, out, s') := Fetch now model hash version toks (mk_sink [] room) s in
  (sent out = [] /\ is_Some err)
  \/ exists h kv ver tk,
       hash = hash_bytes h
       /\ sent out = (let frames := frames_of fetchChunkBytes mk_chunk kv in
                      match room with None => frames | Some n => take n frames end)
       /\ (err = None \/ (err = Some TransportError /\ is_Some room))
       /\ guards_ok version toks ver tk = true
       /\ ((exists e, hot_block (store s) model h e /\ KV e = kv /\ Version e = ver /\ TokenIDs e = tk)
           \/ (Peek model h (store s) = None
               /\ exists t, cold s = Some t /\ tier_holds t model h (mk_cold ver tk kv))).
Proof.
  pose proof (server_wf p opts with_repl c0 evs) as Hwf. fold s in Hwf.
  destruct (hash32_of hash) as [h|] eqn:Hh.
  2: { unfold Fetch, toBlockHash. rewrite Hh. left. split; [done|by eexists]. }
  apply hash32_of_Some in Hh as ->. pose proof (Fetch_spec now model h version toks (mk_sink [] room) s) as Hf.
  pose proof (resolve_serves now model h version toks (cold s) (store s)) as Hr.
  destruct (resolve _ _ _ _ _ _ _) as [r st]. destruct (Fetch _ _ _ _ _ _ _) as [[err out] s'].
  destruct Hf as [Hf _]. destruct r as [kv|]; [|destruct Hf as [-> ->]; left; split; [done|by eexists]].
  right. rewrite send_all_spec in Hf. cbn [sent Server.room] in Hf.
  assert (Hsent : sent out = (let frames := frames_of fetchChunkBytes mk_chunk kv in
                      match room with None => frames | Some n => take n frames end)
                  /\ (err = None \/ (err = Some TransportError /\ is_Some room))).
  { destruct room as [n|]; destruct Hf as [-> ->]; [|by split; [|left]].
    split; [done|]. case_bool_decide; [by left|right; by split; [|eexists]]. }
  destruct Hsent as [Hs He]. destruct (Hr kv Hwf eq_refl) as [(e & Hhot & Hkv & G)|(Hn & t & ver & tk & Hc & Ht & G)].
  - exists h, kv, (Version e), (TokenIDs e). split_and!; try done. left. by exists e.
  - exists h, kv, ver, tk. split_and!; try done. right. split; [done|]. by exists t.
Qed.

(** C12. A well-formed write within the byte ceiling is stored and readable: the
    acknowledged version is the one it can be fetched under (with its tokens),
    the fetch streams exactly the bytes that were sent, however the client had
    framed them, and the replicator is handed the same bytes and version. *)
Theorem write_then_fetch can_alloc now now' hdr msgs h :
  hdr_BlockHash hdr = hash_bytes h -> Forall not_header msgs ->
  (0 < hdr_TotalSize hdr -> can_alloc (hdr_TotalSize hdr) = true)%Z ->
  OverHardLimit (Z.of_nat (length (payload msgs))) (store s) = false ->
  exists v s',
    Write can_alloc now (mk_stream (WCHeader hdr :: msgs) true) s = (Done (mk_write_response v true), s')
    /\ repl s' = (fun jobs => jobs ++ [header_job hdr h (payload msgs) v]) <$> repl s
    /\ (Fetch now' (hdr_ModelId hdr) (hdr_BlockHash hdr) v (hdr_TokenIds hdr) (mk_sink [] None) s').1
       = (None, mk_sink (frames_of fetchChunkBytes mk_chunk (payload msgs)) None).
Proof.
  intros Hh Hm Ha Hlim. pose proof (sw_striped _ (server_wf p opts with_repl c0 evs)) as Hst. fold s in Hst.
  unfold Write. rewrite (proj2 (assembleBlock_done can_alloc _ hdr (payload msgs)))
    by (exists msgs, true; by split_and!).
  unfold toBlockHash. rewrite Hh, hash32_of_bytes, Hlim. set (data := payload msgs).
  pose proof (flat_step (CPut now h (Some (header_entry hdr data))) (store s) Hst) as [Hf _].
  pose proof (striped_step (CPut now h (Some (header_entry hdr data))) (store s) Hst) as Hst'.
  cbn [store_step FlatStore.step] in Hf, Hst'. unfold FlatStore.put in Hf.
  assert (Hv : (Put now h (Some (header_entry hdr data)) (store s)).1
     = match flat (store s) !! storeKey (hdr_ModelId hdr) h with Some prev => u64 (Version prev + 1) | None => 1%Z end).
  { cbn [Put header_entry ModelID]. rewrite <- flat_lookup by done. by destruct (flat (store s) !! _). }
  destruct (Put now h (Some (header_entry hdr data)) (store s)) as [ver st'] eqn:Hput. cbn [fst snd] in *.
  eexists ver, _. split_and!; [done|done|].
  pose proof (Fetch_spec now' (hdr_ModelId hdr) h ver (hdr_TokenIds hdr) (mk_sink [] None)
    (mk_server st' ((fun jobs => jobs ++ [header_job hdr h data ver]) <$> repl s) (metrics s) (cold s))) as Hfe.
  unfold resolve in Hfe. cbn [Server.store] in Hfe. unfold Get in Hfe.
  rewrite <- flat_lookup, Hf in Hfe by done. cbn [header_entry ModelID] in Hfe.
  rewrite lookup_insert_eq in Hfe. cbv zeta in Hfe. rewrite decide_False in Hfe by (simpl; tauto).
  unfold guards_ok in Hfe. cbn [recordAccess stored_entry Version TokenIDs KV header_entry] in Hfe.
  rewrite <- Hv, Z.eqb_refl, andb_false_r, (bool_decide_eq_true_2 (hdr_TokenIds hdr = hdr_TokenIds hdr)),
    andb_false_r in Hfe by done. cbn [negb andb] in Hfe. destruct (Fetch _ _ _ _ _ _ _) as [[err out] s'']. rewrite send_all_spec in Hfe.
  by destruct Hfe as [[-> ->] _].
Qed.


(** A replicated block is stored under exactly the delivered version or not at
    all: an accepted delivery is acknowledged as stored iff the acknowledged
    version, the one resident afterwards, is the delivered one; that is the larger
    of the delivered and the version resident before.  Version 0 is refused, and
    nothing is ever handed on to the replicator (no replication loop). *)
Theorem replicate_newest_no_forward can_alloc now st :
  let '(r, s') := Replicate can_alloc now st s in
  repl s' = repl s
  /\ match r with
     | Done resp =>
         exists hdr msgs h, st = mk_stream (WCHeader hdr :: msgs) true /\ hdr_BlockHash hdr = hash_bytes h
           /\ hdr_Version hdr <> 0%Z
           /\ let k := storeKey (hdr_ModelId hdr) h in
              wr_Version resp = match flat (store s) !! k with
                                | Some prev => Z.max (Version prev) (hdr_Version hdr)
                                | None => hdr_Version hdr end
              /\ (wr_Stored resp = true <-> wr_Version resp = hdr_Version hdr)
              /\ exists g, flat (store s') !! k = Some g /\ Version g = wr_Version resp
                   /\ ((exists prev, flat (store s) !! k = Some prev /\ hdr_Version hdr <= Version prev /\ g = prev)%Z
                       \/ holds g (header_entry hdr (payload msgs)) h (hdr_Version hdr))
     | Failed _ => s' = s \/ (exists resp, Replicate can_alloc now (answer_taken st) s = (Done resp, s'))
     | Panicked => s' = s
     end.
Proof.
  apply Replicate_spec. apply (sw_striped _ (server_wf p opts with_repl c0 evs)).
Qed.

(** A presence check answers for every hash asked, in order, and touches
    nothing: entry [i] says whether the [i]-th hash is 32 bytes long and resident
    under the model, with the resident version and size, and neither the store
    nor the replication queue changes. *)
Theorem lookup_parallel_pure model hashes :
  let '(bps, s') := Lookup model hashes s in
  same_data s s'
  /\ bps = (fun hb => match hash32_of hb ≫= (fun h => Peek model h (store s)) with
                      | Some e => mk_presence true (Version e) (Z.of_nat (length (KV e)))
                      | None => mk_presence false 0 0
                      end) <$> hashes.
Proof.
  pose proof (server_wf p opts with_repl c0 evs) as Hwf. fold s in Hwf.
  pose proof (Lookup_data model hashes s) as Hd. destruct (Lookup model hashes s) as [bps s'] eqn:E.
  split; [exact Hd|]. clear Hd. revert Hwf E. generalize s. intros s0. revert s0 bps.
  induction hashes as [|hb hs IH]; intros s0 bps Hwf; cbn [Lookup]; [by intros [= <- <-]|].
  assert (H1 : exists bp s1, lookup_one model hb s0 = (bp, s1) /\ store s1 = store s0
     /\ bp = match hash32_of hb ≫= (fun h => Peek model h (store s0)) with
             | Some e => mk_presence true (Version e) (Z.of_nat (length (KV e)))
             | None => mk_presence false 0 0 end).
  { unfold lookup_one, toBlockHash. destruct (hash32_of hb) as [h|]; simpl; [|by eexists _, _].
    destruct (Peek model h (store s0)) as [e|] eqn:Hp; [|by eexists _, _].
    eexists _, _. split_and!; [done|done|]. f_equal.
    unfold Peek in Hp. rewrite <- flat_lookup in Hp by apply Hwf.
    destruct (flat _ !! _) as [e0|] eqn:Hk; [|done]. case_decide; [done|]. simplify_eq.
    by destruct (sw_entries _ Hwf _ _ Hk). }
  destruct H1 as (bp & s1 & -> & Hs1 & ->). destruct (Lookup model hs s1) as [bps1 s2] eqn:E1.
  intros [= <- <-]. rewrite fmap_cons. f_equal. rewrite <- Hs1. apply IH; [by rewrite Hs1|done].
Qed.

Lemma Evict_spec model h :
  exists evicted s', Evict model (hash_bytes h) s = inr (evicted, s')
    /\ evicted = bool_decide (is_Some (Peek model h (store s)))
    /\ striped (store s') /\ Peek model h (store s') = None
    /\ flat (store s') = (if evicted then delete (storeKey model h) (flat (store s)) else flat (store s))
    /\ repl s' = repl s /\ cold s' = cold s.
Proof.
  pose proof (sw_striped _ (server_wf p opts with_repl c0 evs)) as Hst. fold s in Hst.
  unfold Evict, toBlockHash. rewrite hash32_of_bytes.
  pose proof (striped_step (CDelete model h) (store s) Hst) as Hst'.
  destruct (flat_step (CDelete model h) (store s) Hst) as [Hf Ha].
  destruct (flat_step (CPeek model h) (store s) Hst) as [_ Hp]. specialize (Hp _ eq_refl).
  cbn [store_step FlatStore.step] in Hf, Ha, Hp, Hst'. injection Hp as Hp.
  unfold FlatStore.del in Hf, Ha. rewrite <- Hp in Hf, Ha.
  destruct (Delete model h (store s)) as [b st']. cbn [snd fst] in *.
  destruct (flat_step (CPeek model h) st' Hst') as [_ Hq]. specialize (Hq _ eq_refl). injection Hq as Hq.
  unfold FlatStore.peek in Hp, Hq.
  destruct (Peek model h (store s)) as [e|]; injection (Ha _ eq_refl) as ->; cbn [snd] in Hf; eexists _, _;
    (split; [reflexivity|]); split_and!; try done; cbn; by rewrite Hq, Hf, ?lookup_delete_eq.
Qed.

(** An evict removes exactly the named block: it reports whether the block was
    resident, afterwards the block is not, and every other store key keeps its
    entry. *)
Theorem evict_removes_one model h :
  exists evicted s', Evict model (hash_bytes h) s = inr (evicted, s')
    /\ (evicted = true <-> is_Some (Peek model h (store s))) /\ Peek model h (store s') = None
    /\ (forall k, k <> storeKey model h -> flat (store s') !! k = flat (store s) !! k)
    /\ repl s' = repl s /\ cold s' = cold s.
Proof.
  destruct (Evict_spec model h) as (b & s' & He & Hb & _ & Hp & Hf & Hr & Hc). exists b, s'.
  split; [done|]. split; [rewrite Hb; apply bool_decide_eq_true|]. split_and!; try done.
  intros k Hk. rewrite Hf. destruct b; [|done]. by rewrite lookup_delete_ne.
Qed.

(** An evict does not reach the cold tier: a block the tier holds for the
    evicted model and hash is still served, in full, by the next fetch whose
    guards it passes. *)
Theorem evict_leaves_cold_copy now model h version toks t kv ver tk :
  cold s = Some t -> tier_Get model h t = TierHit kv ver tk -> guards_ok version toks ver tk = true ->
  exists evicted s', Evict model (hash_bytes h) s = inr (evicted, s')
    /\ (Fetch now model (hash_bytes h) version toks (mk_sink [] None) s').1
       = (None, mk_sink (frames_of fetchChunkBytes mk_chunk kv) None).
Proof.
  intros Ht Hg Hok. destruct (Evict_spec model h) as (b & s' & He & _ & _ & Hp & _ & _ & Hc). exists b, s'.
  split; [done|]. pose proof (Fetch_spec now model h version toks (mk_sink [] None) s') as Hf.
  destruct (Get_Peek now model h (store s')) as [Hn _]. rewrite Hp in Hn.
  unfold resolve in Hf. destruct (Get now model h (store s')) as [g st]. simpl in Hn. subst g.
  rewrite Hc, Ht in Hf. simpl in Hf. rewrite Hg, Hok in Hf. destruct (Fetch _ _ _ _ _ _ _) as [[err out] s''].
  rewrite send_all_spec in Hf. by destruct Hf as [[-> ->] _].
Qed.

(** A write is either acknowledged, and then the block was within the byte
    ceiling, its hash was 32 bytes and it is resident afterwards, or it leaves the
    server exactly as it was, unless the acknowledgement itself was lost: then the
    server is as the acknowledged write leaves it. *)
Theorem write_refused_unchanged can_alloc now st :
  match Write can_alloc now st s with
  | (Done resp, s') => wr_Stored resp = true /\ exists hdr msgs h,
      st = mk_stream (WCHeader hdr :: msgs) true /\ hdr_BlockHash hdr = hash_bytes h
      /\ OverHardLimit (Z.of_nat (length (payload msgs))) (store s) = false
      /\ is_Some (Peek (hdr_ModelId hdr) h (store s'))
  | (Failed _, s') => s' = s \/ exists resp, Write can_alloc now (answer_taken st) s = (Done resp, s')
  | (Panicked, s') => s' = s
  end.
Proof.
  pose proof (sw_striped _ (server_wf p opts with_repl c0 evs)) as Hst. fold s in Hst. unfold Write.
  change (assembleBlock can_alloc (answer_taken st)) with (assembleBlock can_alloc st).
  destruct (assembleBlock can_alloc st) as [[hdr buf]| |] eqn:E; [|by left|done].
  apply assembleBlock_done in E as (msgs & snt & -> & Hm & -> & _).
  destruct (toBlockHash (hdr_BlockHash hdr)) as [h|] eqn:Hh; [|by left]. apply hash32_of_Some in Hh.
  destruct (OverHardLimit _ (store s)) eqn:Hl; [by left|].
  set (c := CPut now h (Some (header_entry hdr (payload msgs)))).
  destruct (flat_step c (store s) Hst) as [Hf _]. pose proof (striped_step c (store s) Hst) as Hst'.
  unfold c in *. cbn [store_step FlatStore.step] in Hf, Hst'. unfold FlatStore.put in Hf.
  destruct (Put now h _ (store s)) as [v st']. cbn [snd] in *. destruct snt; [|right; by eexists]. split; [done|].
  exists hdr, msgs, h. split_and!; [done..|]. cbn [store].
  unfold Peek. rewrite <- flat_lookup, Hf by done. cbn [header_entry ModelID].
  rewrite lookup_insert_eq, decide_False by (simpl; tauto). by eexists.
Qed.

End contract.

(** ** Witnesses: a replicated server over an LRU store with a memory tier *)

Definition w_hdr : WriteHeader :=
  mk_header "m#tp0/2" (hash_bytes hash32_zero) [1; 2]%Z "t" f64_1 3 0 [].
Definition w_msgs : list WriteChunk := [WCChunk (mk_chunk [x01; x02] false); WCNone; WCChunk (mk_chunk [x03] true)].
Definition w_tier : Memory := tier_Spill "m#tp0/2" hash32_zero (mk_cold 4 [1; 2]%Z [x09]) NewMemory.
Abbreviation w_server := (server_run (boot NewLRU [WithMaxBytes 10] true (Some w_tier)) []).
Definition w_fetch : FetchBlock := mk_fetch_block (hash_bytes hash32_zero) 4 [1; 2]%Z.

Lemma batchFetch_is_fetches_witness :
  exists l s1, fetch_each 7 "m#tp0/2" [w_fetch; mk_fetch_block [] 0 []] w_server = (l, s1) /\ length l = 2.
Proof.
  pose proof (batchFetch_is_fetches 7 "m#tp0/2" [w_fetch; mk_fetch_block [] 0 []] w_server ltac:(simpl; lia)) as Hb.
  destruct (BatchFetch _ _ _ _ _) as [[err out] s']. destruct (fetch_each _ _ _ _) as [l s1].
  destruct Hb as (_ & _ & Hl & _). exists l, s1. split; [reflexivity|exact Hl].
Defined.

Lemma write_then_fetch_witness :
  exists v s', Write (fun n => (n <=? 1000)%Z) 7 (mk_stream (WCHeader w_hdr :: w_msgs) true) w_server
    = (Done (mk_write_response v true), s').
Proof.
  destruct (write_then_fetch NewLRU [WithMaxBytes 10] true (Some w_tier) [] (fun n => (n <=? 1000)%Z) 7 8
              w_hdr w_msgs hash32_zero) as (v & s' & Hw & _).
  - reflexivity.
  - repeat constructor.
  - intros _. reflexivity.
  - reflexivity.
  - exists v, s'. exact Hw.
Defined.

Lemma evict_leaves_cold_copy_witness :
  exists evicted s', Evict "m#tp0/2" (hash_bytes hash32_zero) w_server = inr (evicted, s').
Proof.
  destruct (evict_leaves_cold_copy NewLRU [WithMaxBytes 10] true (Some w_tier) [] 7 "m#tp0/2" hash32_zero 0 []
              w_tier [x09] 4 [1; 2]%Z) as (b & s' & He & _).
  - reflexivity.
  - vm_compute. reflexivity.
  - reflexivity.
  - exists b, s'. exact He.
Defined.
