(* ===== verification/Handlers.v ===== *)
(** The handlers of [src/internal/server/server.go] one shared access at a time.

    Server runs each handler as one step.  The code holds no lock across a
    handler: between two of its calls on the store, on the cold tier or on the
    replicator, any other handler or the evictor may run.  Here a handler is a
    program of such accesses; run alone it is the handler of Server
    ([handlers_exact]), and [live_step] interleaves any number of them on one node. *)

From S2P Require Import Prelude Bytes Sha256 Float64 Policy Lru Store ColdTier Server.

(** ** Programs *)

(** The accesses a handler makes to what it shares with other goroutines.  Each
    call of the store is one step (Linearize.linearizable). *)
Inductive action : Type -> Type :=
  | DoGet (model : string) (h : BlockHash) : action (option Entry)
  | DoPeek (model : string) (h : BlockHash) : action (option Entry)
  | DoPut (h : BlockHash) (e : Entry) : action Z
  | DoPutWithVersion (h : BlockHash) (e : Entry) (version : Z) : action Z
  | DoDelete (model : string) (h : BlockHash) : action bool
  | DoOverHardLimit (incoming : Z) : action bool
  | DoColdGet (model : string) (h : BlockHash) : action (option tier_result)   (* [None]: no tier *)
  | DoNote (m : metric) : action unit
  | DoEnqueue (j : ReplicaJob) : action unit.

Inductive prog (A : Type) : Type :=
  | Ret (a : A)
  | Act {B : Type} (x : action B) (k : B -> prog A).
#[global] Arguments Ret {A}.
#[global] Arguments Act {A B}.

#[export] Instance prog_ret : MRet prog := @Ret.
#[export] Instance prog_bind : MBind prog := fun A B f =>
  fix go (p : prog A) : prog B :=
    match p with
    | Ret a => f a
    | Act x k => Act x (fun b => go (k b))
    end.

Definition perform {B} (x : action B) : prog B := Act x Ret.

(** ** The handlers *)

Definition lookup_one_prog (model : string) (hb : list byte) : prog BlockPresence :=
  match toBlockHash hb with
  | Some h =>
      hit ← perform (DoPeek model h);
      match hit with
      | Some e => _ ← perform (DoNote (MHit "lookup")); mret (mk_presence true (Version e) (SizeBytes e))
      | None => _ ← perform (DoNote (MMiss "lookup")); mret (mk_presence false 0 0)
      end
  | None => _ ← perform (DoNote (MMiss "lookup")); mret (mk_presence false 0 0)
  end.

Fixpoint lookup_prog (model : string) (hashes : list (list byte)) : prog (list BlockPresence) :=
  match hashes with
  | [] => mret []
  | hb :: hashes =>
      bp ← lookup_one_prog model hb;
      bps ← lookup_prog model hashes;
      mret (bp :: bps)
  end.

(** [coldHit] *)
Definition cold_hit_prog (model : string) (h : BlockHash) (version : Z) (tokenIDs : list Z) : prog (option (list byte)) :=
  found ← perform (DoColdGet model h);
  match found with
  | Some (TierHit kv ver toks) =>
      if guards_ok version tokenIDs ver toks then
        full ← perform (DoOverHardLimit (Z.of_nat (length kv)));
        _ ← (if full : bool then mret 0%Z else perform (DoPutWithVersion h (readmitted model kv toks) ver));
        _ ← perform (DoNote (MHit "fetch_cold"));
        mret (Some kv)
      else mret None
  | _ => mret None
  end.

(** [Fetch], with [fetchFromCold] *)
Definition fetch_prog (model : string) (hash : list byte) (version : Z) (tokenIDs : list Z) (out : sink KVChunk) :
    prog (option rpc_error * sink KVChunk) :=
  match toBlockHash hash with
  | None => mret (Some (StatusError InvalidArgument "block_hash must be 32 bytes"), out)
  | Some h =>
      hit ← perform (DoGet model h);
      match hit with
      | None =>
          found ← cold_hit_prog model h version tokenIDs;
          match found with
          | None => _ ← perform (DoNote (MMiss "fetch")); mret (Some (StatusError NotFound "block not cached"), out)
          | Some kv => let '(ok, out) := streamKV kv out in mret (if ok then None else Some TransportError, out)
          end
      | Some e =>
          _ ← perform (DoNote (MHit "fetch"));
          if negb (version =? 0)%Z && negb (version =? Version e)%Z then
            mret (Some (StatusError NotFound "requested version not available"), out)
          else if negb (bool_decide (tokenIDs = [])) && negb (bool_decide (tokenIDs = TokenIDs e)) then
            mret (Some (StatusError NotFound "token_ids do not match cached block"), out)
          else let '(ok, out) := streamKV (KV e) out in mret (if ok then None else Some TransportError, out)
      end
  end.

(** [batchResolve] *)
Definition batch_resolve_prog (model : string) (fb : FetchBlock) (h : BlockHash) : prog (option (list byte)) :=
  hit ← perform (DoGet model h);
  match hit with
  | None => cold_hit_prog model h (fb_Version fb) (fb_TokenIds fb)
  | Some e => mret (if guards_ok (fb_Version fb) (fb_TokenIds fb) (Version e) (TokenIDs e) then Some (KV e) else None)
  end.

Definition batch_one_prog (model : string) (idx : Z) (fb : FetchBlock) (out : sink BatchKVChunk) :
    prog (bool * sink BatchKVChunk) :=
  found ← match toBlockHash (fb_BlockHash fb) with
          | None => mret None
          | Some h => batch_resolve_prog model fb h
          end;
  match found with
  | None => _ ← perform (DoNote (MMiss "batch_fetch")); mret (sendNotFound idx out)
  | Some kv => _ ← perform (DoNote (MHit "batch_fetch")); mret (streamBatchKV idx kv out)
  end.

Fixpoint batch_prog (model : string) (i : nat) (blocks : list FetchBlock) (out : sink BatchKVChunk) :
    prog (option rpc_error * sink BatchKVChunk) :=
  match blocks with
  | [] => mret (None, out)
  | fb :: blocks =>
      sent ← batch_one_prog model (u32 (Z.of_nat i)) fb out;
      if sent.1 : bool then batch_prog model (S i) blocks sent.2 else mret (Some TransportError, sent.2)
  end.

(** [Write]; a nil replicator takes no job. *)
Definition write_prog (can_alloc : Z -> bool) (st : block_stream) : prog (outcome WriteResponse) :=
  match assembleBlock can_alloc st with
  | Failed e => mret (Failed e)
  | Panicked => mret Panicked
  | Done (hdr, buf) =>
      match toBlockHash (hdr_BlockHash hdr) with
      | None => mret (Failed (StatusError InvalidArgument "block_hash must be 32 bytes"))
      | Some h =>
          full ← perform (DoOverHardLimit (Z.of_nat (length buf)));
          if full : bool then mret (Failed (StatusError ResourceExhausted "cache full"))
          else
            ver ← perform (DoPut h (header_entry hdr buf));
            _ ← perform (DoEnqueue (header_job hdr h buf ver));
            mret (SendAndClose st (mk_write_response ver true))
      end
  end.

Definition replicate_prog (can_alloc : Z -> bool) (st : block_stream) : prog (outcome WriteResponse) :=
  match assembleBlock can_alloc st with
  | Failed e => mret (Failed e)
  | Panicked => mret Panicked
  | Done (hdr, buf) =>
      match toBlockHash (hdr_BlockHash hdr) with
      | None => mret (Failed (StatusError InvalidArgument "block_hash must be 32 bytes"))
      | Some h =>
          let ver := hdr_Version hdr in
          if (ver =? 0)%Z then mret (Failed (StatusError InvalidArgument "Replicate requires header.version > 0"))
          else
            stored ← perform (DoPutWithVersion h (header_entry hdr buf) ver);
            mret (SendAndClose st (mk_write_response stored (stored =? ver)%Z))
      end
  end.

Definition evict_prog (model : string) (hash : list byte) : prog (rpc_error + bool) :=
  match toBlockHash hash with
  | None => mret (inl (StatusError InvalidArgument "block_hash must be 32 bytes"))
  | Some h =>
      evicted ← perform (DoDelete model h);
      _ ← (if evicted : bool then perform (DoNote (MEviction "manual" 1)) else mret tt);
      mret (inr evicted)
  end.

(** A request and the answer to it. *)
Inductive request :=
  | QLookup (model : string) (hashes : list (list byte))
  | QFetch (model : string) (hash : list byte) (version : Z) (tokenIDs : list Z) (room : option nat)
  | QBatchFetch (model : string) (blocks : list FetchBlock) (room : option nat)
  | QWrite (can_alloc : Z -> bool) (st : block_stream)
  | QReplicate (can_alloc : Z -> bool) (st : block_stream)
  | QEvict (model : string) (hash : list byte)
  | QHealth.

Inductive reply :=
  | RLookup (blocks : list BlockPresence)
  | RFetch (err : option rpc_error) (out : sink KVChunk)
  | RBatchFetch (err : option rpc_error) (out : sink BatchKVChunk)
  | RWrite (r : outcome WriteResponse)
  | RReplicate (r : outcome WriteResponse)
  | REvict (r : rpc_error + bool)
  | RHealth (ok : bool).

Definition handler (q : request) : prog reply :=
  match q with
  | QLookup model hashes => bps ← lookup_prog model hashes; mret (RLookup bps)
  | QFetch model hash version tokenIDs room =>
      r ← fetch_prog model hash version tokenIDs (mk_sink [] room); mret (RFetch r.1 r.2)
  | QBatchFetch model blocks room => r ← batch_prog model 0 blocks (mk_sink [] room); mret (RBatchFetch r.1 r.2)
  | QWrite can_alloc st => r ← write_prog can_alloc st; mret (RWrite r)
  | QReplicate can_alloc st => r ← replicate_prog can_alloc st; mret (RReplicate r)
  | QEvict model hash => r ← evict_prog model hash; mret (REvict r)
  | QHealth => mret (RHealth true)
  end.

(** ** Running a handler alone *)

#[local] Arguments Get : simpl never.
#[local] Arguments Peek : simpl never.
#[local] Arguments Put : simpl never.
#[local] Arguments PutWithVersion : simpl never.
#[local] Arguments Delete : simpl never.
#[local] Arguments guards_ok : simpl never.
#[local] Arguments cold_hit_prog : simpl never.

Section run_alone.
Context {P T : Type} `{EvictionPolicy P} `{ColdTier T}.
Implicit Types (s : Server P T).

(** The call [s.repl.Enqueue(j)] through the interface [replicaEnqueuer], which
    returns nothing: [repl s] is the sequence of the calls made.  It is not the
    queue; what the [Replicator] behind the interface does with a call, its bound
    and its drops included, is Replicator.Enqueue. *)
Definition calls_Enqueue (j : ReplicaJob) s : Server P T :=
  mk_server (store s) ((fun jobs => jobs ++ [j]) <$> repl s) (metrics s) (cold s).

(** One access, at the time [now]. *)
Definition act_exec (now : Z) {B} (x : action B) s : B * Server P T :=
  match x with
  | DoGet model h => let '(e, st) := Get now model h (store s) in (e, set_store st s)
  | DoPeek model h => (Peek model h (store s), s)
  | DoPut h e => let '(v, st) := Put now h (Some e) (store s) in (v, set_store st s)
  | DoPutWithVersion h e version =>
      let '(v, st) := PutWithVersion now h (Some e) version (store s) in (v, set_store st s)
  | DoDelete model h => let '(b, st) := Delete model h (store s) in (b, set_store st s)
  | DoOverHardLimit n => (OverHardLimit n (store s), s)
  | DoColdGet model h => (tier_Get model h <$> cold s, s)
  | DoNote m => (tt, note m s)
  | DoEnqueue j => (tt, calls_Enqueue j s)
  end.

Fixpoint exec {A} (now : Z) (p : prog A) s : A * Server P T :=
  match p with
  | Ret a => (a, s)
  | Act x k => let '(b, s) := act_exec now x s in exec now (k b) s
  end.

Lemma exec_bind {A B} now (p : prog A) (f : A -> prog B) s :
  exec now (p ≫= f) s = (let '(a, s) := exec now p s in exec now (f a) s).
Proof.
  revert s. induction p as [a|C x k IH]; intros s; [done|]. cbn. destruct (act_exec now x s) as [b s1]. apply IH.
Qed.

(** What Server says a request is answered, the whole handler in one step. *)
Definition serve (now : Z) (q : request) s : reply * Server P T :=
  match q with
  | QLookup model hashes => let '(l, s) := Lookup model hashes s in (RLookup l, s)
  | QFetch model hash version tokenIDs room =>
      let '(err, out, s) := Fetch now model hash version tokenIDs (mk_sink [] room) s in (RFetch err out, s)
  | QBatchFetch model blocks room =>
      let '(err, out, s) := BatchFetch now model blocks (mk_sink [] room) s in (RBatchFetch err out, s)
  | QWrite can_alloc st => let '(r, s) := Write can_alloc now st s in (RWrite r, s)
  | QReplicate can_alloc st => let '(r, s) := Replicate can_alloc now st s in (RReplicate r, s)
  | QEvict model hash =>
      match Evict model hash s with inl e => (REvict (inl e), s) | inr (b, s) => (REvict (inr b), s) end
  | QHealth => (RHealth (Health s), s)
  end.

Lemma lookup_exec now model hashes s : exec now (lookup_prog model hashes) s = Lookup model hashes s.
Proof.
  revert s. induction hashes as [|hb hashes IH]; intros s; [done|]. cbn [lookup_prog Lookup]. rewrite exec_bind.
  assert (exec now (lookup_one_prog model hb) s = lookup_one model hb s) as ->.
  { unfold lookup_one_prog, lookup_one. destruct (toBlockHash hb) as [h|]; [|done]. cbn. by destruct (Peek model h (store s)). }
  destruct (lookup_one model hb s) as [bp s1]. rewrite exec_bind, IH. by destruct (Lookup model hashes s1).
Qed.

Lemma cold_hit_exec now model h version toks s :
  exec now (cold_hit_prog model h version toks) s = coldHit now model h version toks s.
Proof.
  unfold cold_hit_prog, coldHit. cbn. destruct (cold s) as [t|]; [|done]. cbn.
  destruct (tier_Get model h t) as [kv ver tk| |]; try done. destruct (guards_ok _ _ _ _); [|done]. cbn.
  destruct (OverHardLimit _ _); [done|]. cbn. unfold readmitted. by destruct (PutWithVersion _ _ _ _ _).
Qed.

Lemma fetch_exec now model hash version toks out s :
  exec now (fetch_prog model hash version toks out) s
  = (let '(err, out, s) := Fetch now model hash version toks out s in (err, out, s)).
Proof.
  unfold fetch_prog, Fetch, fetchFromCold. destruct (toBlockHash hash) as [h|]; [|done]. cbn.
  destruct (Get now model h (store s)) as [[e|] st].
  - cbn. destruct (_ && _); [done|]. destruct (_ && _); [done|]. by destruct (streamKV (KV e) out) as [[|] o].
  - cbn. rewrite exec_bind, cold_hit_exec. destruct (coldHit _ _ _ _ _ _) as [[kv|] s1]; [|done].
    by destruct (streamKV kv out) as [[|] o].
Qed.

Lemma batch_resolve_exec now model fb h s :
  exec now (batch_resolve_prog model fb h) s = batchResolve now model fb h s.
Proof.
  unfold batch_resolve_prog, batchResolve. cbn. destruct (Get now model h (store s)) as [[e|] st]; cbn.
  - by destruct (guards_ok _ _ _ _).
  - by rewrite cold_hit_exec.
Qed.

Lemma batch_one_exec now model i fb out s :
  exec now (batch_one_prog model i fb out) s
  = (let '(ok, out, s) := batch_one now model i fb out s in (ok, out, s)).
Proof.
  unfold batch_one_prog, batch_one. rewrite exec_bind. destruct (toBlockHash (fb_BlockHash fb)) as [h|].
  - rewrite batch_resolve_exec. destruct (batchResolve now model fb h s) as [[kv|] s1]; cbn.
    + by destruct (streamBatchKV i kv out).
    + by destruct (sendNotFound i out).
  - cbn. by destruct (sendNotFound i out).
Qed.

Lemma batch_exec now model i blocks out s :
  exec now (batch_prog model i blocks out) s
  = (let '(err, out, s) := batch_loop now model i blocks out s in (err, out, s)).
Proof.
  revert i out s. induction blocks as [|fb blocks IH]; intros i out s; [done|]. cbn [batch_prog batch_loop].
  rewrite exec_bind, batch_one_exec. destruct (batch_one _ _ _ _ _ _) as [[[|] o] s1]; [|done]. cbn [fst snd]. apply IH.
Qed.

Lemma write_exec now ca st s : exec now (write_prog ca st) s = Write ca now st s.
Proof.
  unfold write_prog, Write. destruct (assembleBlock ca st) as [[hdr buf]| |]; try done.
  destruct (toBlockHash _) as [h|]; [|done]. cbn. destruct (OverHardLimit _ _); [done|]. cbn.
  by destruct (Put now h _ (store s)).
Qed.

Lemma replicate_exec now ca st s : exec now (replicate_prog ca st) s = Replicate ca now st s.
Proof.
  unfold replicate_prog, Replicate. destruct (assembleBlock ca st) as [[hdr buf]| |]; try done.
  destruct (toBlockHash _) as [h|]; [|done]. cbv zeta. destruct (_ =? 0)%Z; [done|]. cbn.
  by destruct (PutWithVersion now h _ _ (store s)).
Qed.

(** Nothing is lost or added by cutting the handlers up: run without anyone in
    between, the accesses of each handler give the answer and leave the server
    that the handler of [server.go] as one step does, for every request. *)
Lemma handlers_exact now q s : exec now (handler q) s = serve now q s.
Proof.
  destruct q; cbn [handler serve]; try (rewrite exec_bind).
  - rewrite lookup_exec. by destruct (Lookup _ _ _).
  - rewrite fetch_exec. by destruct (Fetch _ _ _ _ _ _ _) as [[err out] s1].
  - unfold BatchFetch. rewrite batch_exec. by destruct (batch_loop _ _ _ _ _ _) as [[err out] s1].
  - rewrite write_exec. by destruct (Write _ _ _ _).
  - rewrite replicate_exec. by destruct (Replicate _ _ _ _).
  - unfold evict_prog, Evict. destruct (toBlockHash hash) as [h|]; [|done]. cbn. by destruct (Delete _ _ _) as [[|] st].
  - done.
Qed.

End run_alone.

(** ** Handlers beside each other *)

(** A call in flight: what was asked, what is left to do. *)
Record call := mk_call { call_request : request; call_prog : prog reply }.

(** A running node: its server and the calls its goroutines are in. *)
Record Live (P T : Type) := mk_running { live_server : Server P T; live_calls : gmap nat call }.
#[global] Arguments mk_running {P T}.
#[global] Arguments live_server {P T}.
#[global] Arguments live_calls {P T}.

Inductive live_event (T : Type) :=
  | LBegin (n : nat) (q : request)
  | LAct (n : nat) (now : Z)
  | LEnd (n : nat) (r : reply)
  | LEvictor (c : store_call)
  | LTier (t : T).
#[global] Arguments LBegin {T}.
#[global] Arguments LAct {T}.
#[global] Arguments LEnd {T}.
#[global] Arguments LEvictor {T}.
#[global] Arguments LTier {T}.

Definition evictor_call (c : store_call) : Prop :=
  match c with CAsk _ | CEvict _ => True | _ => False end.

(** [OverHardLimit] reads the byte total outside every lock, while writes that
    are already visible have still to add to it (Wakeup.ceiling_not_hard). *)
Definition racy {B} (x : action B) : Prop :=
  match x with DoOverHardLimit _ => True | _ => False end.

Section live.
Context {P T : Type} `{EvictionPolicy P} `{ColdTier T}.
Implicit Types (s : Server P T) (l : Live P T).

(** What an access may answer and leave beside other goroutines. *)
Definition act_may (now : Z) {B} (x : action B) s (r : B * Server P T) : Prop :=
  r = act_exec now x s \/ (racy x /\ r.2 = s).

(** One access of a program. *)
Definition prog_may {A} (now : Z) (p : prog A) s (p' : prog A) s' : Prop :=
  match p with
  | Ret _ => False
  | Act x k => exists b, act_may now x s (b, s') /\ p' = k b
  end.

Definition set_tier (t : T) s : Server P T :=
  mk_server (store s) (repl s) (metrics s) ((fun _ => t) <$> cold s).

Inductive live_step : Live P T -> live_event T -> Live P T -> Prop :=
  | live_begin l n q :
      live_calls l !! n = None ->
      live_step l (LBegin n q) (mk_running (live_server l) (<[n := mk_call q (handler q)]> (live_calls l)))
  | live_act l n now q p p' s' :
      live_calls l !! n = Some (mk_call q p) -> prog_may now p (live_server l) p' s' ->
      live_step l (LAct n now) (mk_running s' (<[n := mk_call q p']> (live_calls l)))
  | live_end l n q r :
      live_calls l !! n = Some (mk_call q (Ret r)) ->
      live_step l (LEnd n r) (mk_running (live_server l) (delete n (live_calls l)))
  | live_evictor l c :
      evictor_call c ->
      live_step l (LEvictor c)
        (mk_running (set_store (store_step c (store (live_server l))).2 (live_server l)) (live_calls l))
  | live_tier l t : live_step l (LTier t) (mk_running (set_tier t (live_server l)) (live_calls l)).

(** A run from [l] to [l'] and the states it went through, both ends included. *)
Inductive live_run l : list (Live P T) -> Live P T -> Prop :=
  | live_refl : live_run l [l] l
  | live_next tr l' ev l'' : live_run l tr l' -> live_step l' ev l'' -> live_run l (tr ++ [l'']) l''.

Definition live_boot (p : P) opts with_repl (c : option T) : Live P T := mk_running (boot p opts with_repl c) ∅.

(** *** A handler stays a run of calls *)

(** [wp]: whatever the accesses answer within [obs], each is [ok] when made and the
    result satisfies [Q]. *)
Fixpoint wp {A} (ok : forall B, action B -> Prop) (obs : forall B, action B -> B -> Prop) (Q : A -> Prop)
    (p : prog A) : Prop :=
  match p with
  | Ret a => Q a
  | Act x k => ok _ x /\ forall b, obs _ x b -> wp ok obs Q (k b)
  end.

Lemma wp_bind {A B} ok obs (Q : B -> Prop) (p : prog A) (f : A -> prog B) :
  wp ok obs (fun a => wp ok obs Q (f a)) p -> wp ok obs Q (p ≫= f).
Proof.
  induction p as [a|C x k IH]; [done|]. cbn. intros [Hx Hk]. split; [done|]. intros b Hb. by apply IH, Hk.
Qed.

Lemma wp_mono {A} ok obs (Q Q' : A -> Prop) (p : prog A) :
  (forall a, Q a -> Q' a) -> wp ok obs Q p -> wp ok obs Q' p.
Proof.
  intros HQ. induction p as [a|C x k IH]; [apply HQ|]. cbn. intros [Hx Hk]. split; [done|]. intros b Hb. by apply IH, Hk.
Qed.

Lemma wp_may {A} ok obs (Q : A -> Prop) now (p p' : prog A) s s' :
  (forall B (x : action B) b, act_may now x s (b, s') -> obs B x b) ->
  wp ok obs Q p -> prog_may now p s p' s' -> wp ok obs Q p'.
Proof. intros Ho. destruct p as [a|B x k]; [done|]. intros [_ Hk] (b & Hb & ->). by apply Hk, Ho. Qed.

(** The store call an access makes, and when the access leaves the rest alone. *)
Definition act_call (now : Z) {B} (x : action B) : option store_call :=
  match x with
  | DoGet model h => Some (CGet now model h)
  | DoPut h e => Some (CPut now h (Some e))
  | DoPutWithVersion h e v => Some (CPutWithVersion now h (Some e) v)
  | DoDelete model h => Some (CDelete model h)
  | _ => None
  end.

Lemma act_store now {B} (x : action B) s (b : B) s' :
  act_may now x s (b, s') ->
  store s' = match act_call now x with Some c => (store_step c (store s)).2 | None => store s end
  /\ cold s' = cold s
  /\ repl s' = match x with DoEnqueue j => (fun jobs => jobs ++ [j]) <$> repl s | _ => repl s end.
Proof.
  intros [Hx|[Hx Hs]].
  - revert Hx. destruct x; cbn.
    + destruct (Get _ _ _ _) as [? ?]. by intros [= -> ->].
    + by intros [= -> ->].
    + destruct (Put _ _ _ _) as [? ?]. by intros [= -> ->].
    + destruct (PutWithVersion _ _ _ _ _) as [? ?]. by intros [= -> ->].
    + destruct (Delete _ _ _) as [? ?]. by intros [= -> ->].
    + by intros [= -> ->].
    + by intros [= -> ->].
    + by intros [= -> ->].
    + by intros [= -> ->].
  - cbn in Hs. subst s'. by destruct x.
Qed.

Lemma act_put_flat now h e s v s' :
  striped (store s) -> act_may now (DoPut h e) s (v, s') ->
  v = (FlatStore.put now h e (flat (store s))).1 /\ flat (store s') = (FlatStore.put now h e (flat (store s))).2.
Proof.
  intros Hs [Hx|[[] _]]. cbn in Hx. destruct (flat_step (CPut now h (Some e)) (store s) Hs) as [Hf Hv].
  cbn [store_step FlatStore.step] in Hf, Hv. destruct (Put _ _ _ _) as [v' st']. injection Hx as -> ->.
  destruct (FlatStore.put now h e (flat (store s))) as [v0 m]. cbn [fst snd store set_store] in *.
  split; [|exact Hf]. by injection (Hv _ eq_refl).
Qed.

Lemma live_step_wf l ev l' :
  live_step l ev l' -> store_wf (store (live_server l)) -> store_wf (store (live_server l')).
Proof.
  intros [l0 n q _|l0 n now q p q' s' _ Hm|l0 n q r _|l0 c _|l0 t] Hw; cbn; try done.
  - destruct p as [|B x k]; [done|]. destruct Hm as (b & Hb & _). destruct (act_store _ _ _ _ _ Hb) as [-> _].
    destruct (act_call now x); [by apply store_wf_step|done].
  - by apply store_wf_step.
Qed.

Lemma boot_wf (p : P) opts wr (c : option T) : store_wf (store (boot p opts wr c)).
Proof. destruct wr, c; apply store_wf_new. Qed.

Lemma live_run_wf p opts wr c tr l :
  live_run (live_boot p opts wr c) tr l -> forall l1, l1 ∈ tr -> store_wf (store (live_server l1)).
Proof.
  intros Hr. assert (Hend : store_wf (store (live_server l)) /\ forall l1, l1 ∈ tr -> store_wf (store (live_server l1))).
  { induction Hr as [|tr l' ev l'' Hr [IHe IH] Hs].
    - split; [apply boot_wf|]. intros l1 ->%list_elem_of_singleton. apply boot_wf.
    - pose proof (live_step_wf _ _ _ Hs IHe). split; [done|]. intros l1 [Hl| ->%list_elem_of_singleton]%elem_of_app; [by apply IH|done]. }
  apply Hend.
Qed.

Lemma live_run_end l tr l' : live_run l tr l' -> l' ∈ tr.
Proof. intros []; [by apply list_elem_of_singleton|]. apply elem_of_app. right. by apply list_elem_of_singleton. Qed.

(** What a run keeps of every call that begins on it, when each access that is
    made on it answers within [obs]. *)
Lemma live_run_calls ok obs (Q : request -> reply -> Prop) l0 tr l :
  (forall q, wp ok obs (Q q) (handler q)) ->
  (forall l1 l2 now B (x : action B) b, l1 ∈ tr -> l2 ∈ tr -> act_may now x (live_server l1) (b, live_server l2) -> obs B x b) ->
  forall n, (forall q p, live_calls l0 !! n = Some (mk_call q p) -> wp ok obs (Q q) p) ->
  live_run l0 tr l -> forall q p, live_calls l !! n = Some (mk_call q p) -> wp ok obs (Q q) p.
Proof.
  intros Hq Ho n H0n Hr. revert Ho. induction Hr as [|tr l' ev l'' Hr IH Hs]; intros Ho; [apply H0n|].
  specialize (IH ltac:(intros l1 l2 now B x b H1 H2; apply Ho; apply elem_of_app; by left)).
  assert (Hin : l' ∈ tr) by by apply live_run_end in Hr.
  destruct Hs as [l1 m q1 Hm|l1 m now q1 p1 p2 s' Hm Hp|l1 m q1 r Hm|l1 c|l1 t]; cbn [live_calls]; try exact IH.
  - intros q p [[-> [= <- <-]]|[_ Hl]]%lookup_insert_Some; [apply Hq|by apply IH].
  - intros q p [[-> [= <- <-]]|[_ Hl]]%lookup_insert_Some; [|by apply IH].
    eapply wp_may; [|by apply IH|exact Hp]. intros B x b Hb. eapply (Ho l1 (mk_running s' _)), Hb; apply elem_of_app.
    + by left.
    + right. by apply list_elem_of_singleton.
  - intros q p [_ Hl]%lookup_delete_Some. by apply IH.
Qed.

End live.

(** ** What a handler does, whoever runs beside it *)

(** The frames of [kv] a transport with this room takes. *)
Definition frames_taken (room : option nat) (kv : list byte) : list KVChunk :=
  let frames := frames_of fetchChunkBytes mk_chunk kv in
  match room with None => frames | Some n => take n frames end.

Section handler_results.
Context (ok : forall B, action B -> Prop) (obs : forall B, action B -> B -> Prop).
Arguments ok {B}.
Arguments obs {B}.

(** What a fetch sends is what the store answered, or the tier after the store had
    answered nothing. *)
Definition fetch_result (model : string) (hash : list byte) (version : Z) (toks : list Z) (room : option nat)
    (err : option rpc_error) (out : sink KVChunk) : Prop :=
  (sent out = [] /\ is_Some err)
  \/ exists h kv ver tk,
       hash = hash_bytes h /\ sent out = frames_taken room kv
       /\ (err = None \/ (err = Some TransportError /\ is_Some room))
       /\ guards_ok version toks ver tk = true
       /\ ((exists e, obs (DoGet model h) (Some e) /\ KV e = kv /\ Version e = ver /\ TokenIDs e = tk)
           \/ (obs (DoGet model h) None /\ obs (DoColdGet model h) (Some (TierHit kv ver tk)))).

(** What a write has done when it acknowledges. *)
Definition write_result (can_alloc : Z -> bool) (st : block_stream) (r : outcome WriteResponse) : Prop :=
  match r with
  | Done resp =>
      st_sent st = true /\ exists hdr buf h, assembleBlock can_alloc st = Done (hdr, buf) /\ hdr_BlockHash hdr = hash_bytes h
        /\ wr_Stored resp = true /\ obs (DoPut h (header_entry hdr buf)) (wr_Version resp)
        /\ obs (DoEnqueue (header_job hdr h buf (wr_Version resp))) tt
  | _ => True
  end.

Definition reply_result (q : request) (r : reply) : Prop :=
  match q, r with
  | QLookup _ hashes, RLookup bps => length bps = length hashes
  | QFetch model hash version toks room, RFetch err out => fetch_result model hash version toks room err out
  | QWrite can_alloc st, RWrite r => write_result can_alloc st r
  | QLookup _ _, _ | QFetch _ _ _ _ _, _ | QWrite _ _, _ => False
  | _, _ => True
  end.

(** The accesses a request may make: reads, and the writes of its own block. *)
Definition request_ok (q : request) : Prop :=
  match q with
  | QWrite can_alloc st => forall hdr buf h,
      assembleBlock can_alloc st = Done (hdr, buf) -> hash32_of (hdr_BlockHash hdr) = Some h ->
      ok (DoPut h (header_entry hdr buf))
      /\ forall v, obs (DoPut h (header_entry hdr buf)) v -> ok (DoEnqueue (header_job hdr h buf v))
  | QReplicate can_alloc st => forall hdr buf h,
      assembleBlock can_alloc st = Done (hdr, buf) -> hash32_of (hdr_BlockHash hdr) = Some h ->
      ok (DoPutWithVersion h (header_entry hdr buf) (hdr_Version hdr))
  | _ => True
  end.

Context (ok_reads : forall model h n m, ok (DoGet model h) /\ ok (DoPeek model h) /\ ok (DoDelete model h)
  /\ ok (DoOverHardLimit n) /\ ok (DoColdGet model h) /\ ok (DoNote m)).
Context (ok_readmit : forall model h kv v toks, obs (DoColdGet model h) (Some (TierHit kv v toks)) ->
  ok (DoPutWithVersion h (readmitted model kv toks) v)).

Lemma ok_get model h : ok (DoGet model h).
Proof. by apply (ok_reads model h 0 (MHit "")). Qed.
Lemma ok_peek model h : ok (DoPeek model h).
Proof. by apply (ok_reads model h 0 (MHit "")). Qed.
Lemma ok_delete model h : ok (DoDelete model h).
Proof. by apply (ok_reads model h 0 (MHit "")). Qed.
Lemma ok_limit n : ok (DoOverHardLimit n).
Proof. by apply (ok_reads "" hash32_zero n (MHit "")). Qed.
Lemma ok_cold model h : ok (DoColdGet model h).
Proof. by apply (ok_reads model h 0 (MHit "")). Qed.
Lemma ok_note m : ok (DoNote m).
Proof. by apply (ok_reads "" hash32_zero 0 m). Qed.
#[local] Hint Resolve ok_get ok_peek ok_delete ok_limit ok_cold ok_note : core.

Lemma lookup_wp model hashes : wp (@ok) (@obs) (fun bps => length bps = length hashes) (lookup_prog model hashes).
Proof.
  induction hashes as [|hb hashes IH]; [done|]. cbn [lookup_prog].
  assert (Hone : wp (@ok) (@obs) (fun _ => True) (lookup_one_prog model hb)).
  { unfold lookup_one_prog. destruct (toBlockHash hb); cbn; [|by split; auto].
    split; [auto|]. intros [e|] _; by split; auto. }
  apply wp_bind. eapply wp_mono; [|exact Hone]. intros bp _. apply wp_bind. eapply wp_mono; [|exact IH].
  intros bps Hb. cbn. by f_equal.
Qed.

Lemma cold_hit_wp model h version toks :
  wp (@ok) (@obs) (fun r => match r with
    | Some kv => exists ver tk, obs (DoColdGet model h) (Some (TierHit kv ver tk)) /\ guards_ok version toks ver tk = true
    | None => True
    end) (cold_hit_prog model h version toks).
Proof.
  unfold cold_hit_prog. cbn. split; [auto|]. intros [[kv v tk| |]|] Hb; try done.
  destruct (guards_ok version toks v tk) eqn:G; [|done]. cbn. split; [auto|].
  intros [|] _; cbn; (split; [try (by apply ok_readmit); by auto|]); [by eauto|]. intros _ _. by eauto.
Qed.

Lemma streamKV_taken kv room :
  let '(b, out) := streamKV kv (mk_sink [] room) in
  sent out = frames_taken room kv /\ (b = true \/ is_Some room).
Proof.
  rewrite streamKV_spec, send_all_spec. unfold frames_taken. destruct room; cbn; split; eauto.
Qed.

Lemma fetch_wp model hash version toks room :
  wp (@ok) (@obs) (fun r => fetch_result model hash version toks room r.1 r.2)
    (fetch_prog model hash version toks (mk_sink [] room)).
Proof.
  unfold fetch_prog, toBlockHash. destruct (hash32_of hash) as [h|] eqn:Hh; [|left; by eauto].
  apply hash32_of_Some in Hh. cbn. split; [auto|]. intros [e|] Hg.
  - cbn. split; [auto|]. intros _ _. unfold fetch_result.
    destruct (negb (version =? 0)%Z && _) eqn:G1; [left; by eauto|].
    destruct (negb (bool_decide (toks = [])) && _) eqn:G2; [left; by eauto|].
    pose proof (streamKV_taken (KV e) room) as Hs. destruct (streamKV _ _) as [b out]. destruct Hs as [Hs Hb].
    right. exists h, (KV e), (Version e), (TokenIDs e). cbn. split_and!; [done|done| | |left; by eauto].
    + destruct b; [by left|right]. by destruct Hb.
    + unfold guards_ok. by rewrite G1, G2.
  - apply wp_bind. eapply wp_mono; [|apply cold_hit_wp]. intros [kv|] Hc.
    + destruct Hc as (ver & tk & Hc & G). pose proof (streamKV_taken kv room) as Hs. destruct (streamKV _ _) as [b out].
      destruct Hs as [Hs Hb]. right. exists h, kv, ver, tk. cbn. split_and!; [done|done| |done|by right].
      destruct b; [by left|right]. by destruct Hb.
    + cbn. split; [auto|]. intros _ _. left. cbn. by eauto.
Qed.

Lemma batch_wp model i blocks out : wp (@ok) (@obs) (fun _ => True) (batch_prog model i blocks out).
Proof.
  revert i out. induction blocks as [|fb blocks IH]; intros i out; [done|]. cbn [batch_prog]. apply wp_bind.
  assert (Hone : wp (@ok) (@obs) (fun _ => True) (batch_one_prog model (u32 (Z.of_nat i)) fb out)).
  { unfold batch_one_prog. apply wp_bind.
    assert (Hr : wp (@ok) (@obs) (fun _ => True)
      match toBlockHash (fb_BlockHash fb) with None => mret None | Some h => batch_resolve_prog model fb h end).
    { destruct (toBlockHash _) as [h|]; [|done]. unfold batch_resolve_prog. cbn. split; [auto|]. intros [e|] _; [done|].
      by eapply wp_mono; [|apply cold_hit_wp]. }
    eapply wp_mono; [|exact Hr]. intros [kv|] _; cbn; by split; auto. }
  eapply wp_mono; [|exact Hone]. intros [[|] o] _; [apply IH|done].
Qed.

(** Every handler, whatever the accesses answer within [obs]. *)
Lemma handler_wp q : request_ok q -> wp (@ok) (@obs) (reply_result q) (handler q).
Proof.
  destruct q as [model hs|model hash v toks room|model blocks room|ca st|ca st|model hash|]; cbn [handler request_ok];
    intros Hq; try apply wp_bind.
  - by eapply wp_mono; [|apply lookup_wp].
  - eapply wp_mono; [|apply fetch_wp]. by intros [err out].
  - by eapply wp_mono; [|apply batch_wp].
  - unfold write_prog. destruct (assembleBlock ca st) as [[hdr buf]| |] eqn:E; try done.
    unfold toBlockHash. destruct (hash32_of _) as [h|] eqn:Hh; [|done]. cbn. split; [auto|]. intros [|] _; [done|].
    destruct (Hq hdr buf h eq_refl Hh) as [Hp He]. cbn. split; [done|]. intros v Hv. split; [by apply He|]. intros [] Hj.
    unfold SendAndClose. destruct (st_sent st) eqn:Hs; [|done]. split; [done|]. exists hdr, buf, h. cbn. split_and!; try done. by apply hash32_of_Some.
  - unfold replicate_prog. destruct (assembleBlock ca st) as [[hdr buf]| |] eqn:E; try done.
    unfold toBlockHash. destruct (hash32_of _) as [h|] eqn:Hh; [|done]. cbv zeta. destruct (_ =? 0)%Z; [done|]. cbn.
    split; [by eapply Hq|done].
  - unfold evict_prog. destruct (toBlockHash _) as [h|]; [|done]. cbn. split; [auto|]. intros [|] _; cbn; [by split; auto|done].
  - done.
Qed.

End handler_results.

(** ** Properties *)

(** How many shared accesses a request may take. *)
Definition work (q : request) : nat :=
  match q with
  | QLookup _ hashes => 2 * length hashes
  | QFetch _ _ _ _ _ => 6
  | QBatchFetch _ blocks _ => 6 * length blocks
  | QWrite _ _ => 3
  | QReplicate _ _ => 1
  | QEvict _ _ => 2
  | QHealth => 0
  end.

(** The program ends within [n] accesses, whatever they answer. *)
Fixpoint within {A} (n : nat) (p : prog A) : Prop :=
  match p with
  | Ret _ => True
  | Act x k => match n with O => False | S n => forall b, within n (k b) end
  end.

Lemma within_mono {A} n m (p : prog A) : n <= m -> within n p -> within m p.
Proof.
  revert n m. induction p as [a|B x k IH]; intros n m Hle; [by destruct m|].
  destruct n as [|n]; [done|]. destruct m as [|m]; [lia|]. intros Hw b. eapply IH, Hw. lia.
Qed.

Lemma within_bind {A B} n m (p : prog A) (f : A -> prog B) :
  within n p -> (forall a, within m (f a)) -> within (n + m) (p ≫= f).
Proof.
  revert n. induction p as [a|C x k IH]; intros n Hp Hf.
  - eapply within_mono, Hf. lia.
  - destruct n as [|n]; [done|]. intros b. by apply IH.
Qed.

Lemma within_map {A B} n (p : prog A) (f : A -> B) : within n p -> within n (a ← p; mret (f a)).
Proof. intros Hp. eapply within_mono, (within_bind n 0); [lia|done|done]. Qed.

Lemma lookup_within model hashes : within (2 * length hashes) (lookup_prog model hashes).
Proof.
  induction hashes as [|hb hashes IH]; [done|]. cbn [length lookup_prog].
  replace (2 * S (length hashes)) with (2 + 2 * length hashes) by lia. apply within_bind.
  - unfold lookup_one_prog. destruct (toBlockHash hb); cbn; [|done]. by intros [e|].
  - intros bp. by apply within_map.
Qed.

Lemma cold_hit_within model h version toks : within 4 (cold_hit_prog model h version toks).
Proof.
  cbn. intros [[kv v tk| |]|]; cbn; try done. destruct (guards_ok _ _ _ _); cbn; [|done]. by intros [|].
Qed.

Lemma batch_within model i blocks out : within (6 * length blocks) (batch_prog model i blocks out).
Proof.
  revert i out. induction blocks as [|fb blocks IH]; intros i out; [exact I|]. cbn [length batch_prog].
  replace (6 * S (length blocks)) with (6 + 6 * length blocks) by lia. apply within_bind.
  - apply (within_bind 5 1); [|by intros [kv|]].
    destruct (toBlockHash _) as [h|]; [|exact I]. intros [e|]; [exact I|]. apply cold_hit_within.
  - intros [[|] o]; [apply IH|by destruct blocks].
Qed.

Lemma fetch_within model hash version toks out : within 6 (fetch_prog model hash version toks out).
Proof.
  unfold fetch_prog. destruct (toBlockHash hash) as [h|]; [|exact I]. cbn. intros [e|].
  - intros []. cbn. destruct (_ && _); [done|]. destruct (_ && _); [done|]. by destruct (streamKV _ _).
  - apply (within_bind 4 1); [apply cold_hit_within|]. intros [kv|]; [by destruct (streamKV _ _)|done].
Qed.

Lemma handler_within q : within (work q) (handler q).
Proof.
  destruct q as [model hs|model hash v toks room|model blocks room|ca st|ca st|model hash|]; cbn [handler work];
    try apply within_map.
  - apply lookup_within.
  - apply fetch_within.
  - apply batch_within.
  - unfold write_prog. destruct (assembleBlock ca st) as [[hdr buf]| |]; try exact I.
    destruct (toBlockHash _); [|exact I]. by intros [|].
  - unfold replicate_prog. destruct (assembleBlock ca st) as [[hdr buf]| |]; try exact I.
    destruct (toBlockHash _); [|exact I]. cbv zeta. by destruct (_ =? 0)%Z.
  - unfold evict_prog. destruct (toBlockHash _); [|exact I]. by intros [|].
  - exact I.
Qed.

Section interleaved.
Context {P T : Type} `{EvictionPolicy P} `{ColdTier T}.
Implicit Types (s : Server P T) (l : Live P T).

(** What some access on the run was answered. *)
Definition seen (tr : list (Live P T)) B (x : action B) (b : B) : Prop :=
  exists l1 l2 now, l1 ∈ tr /\ l2 ∈ tr /\ act_may now x (live_server l1) (b, live_server l2).

Lemma any_request_ok obs q : request_ok (fun _ _ => True) obs q.
Proof. destruct q; by cbn; auto. Qed.

Lemma any_handler_wp obs q : wp (fun _ _ => True) obs (reply_result obs q) (handler q).
Proof. apply handler_wp; [by intros|done|apply any_request_ok]. Qed.

(** A call that began on the run, with what its accesses were answered on it. *)
Lemma call_result l0 n q l1 tr l2 r :
  live_step l0 (LBegin n q) l1 -> live_run l1 tr l2 -> live_calls l2 !! n = Some (mk_call q (Ret r)) ->
  reply_result (seen tr) q r.
Proof.
  intros Hb Hr. inversion Hb; subst.
  apply (live_run_calls (fun _ _ => True) (seen tr) (reply_result (seen tr)) _ _ _) with (4 := Hr).
  - intros q0. apply any_handler_wp.
  - intros la lb now B x b Ha Hlb Hx. by exists la, lb, now.
  - cbn. intros q0 p [= <- <-]%lookup_insert_rev. apply any_handler_wp.
Qed.

Lemma get_seen tr model h e :
  (forall l, l ∈ tr -> store_wf (store (live_server l))) -> seen tr _ (DoGet model h) e ->
  exists l, l ∈ tr /\ match e with
    | Some e => exists e0 now, hot_block (store (live_server l)) model h e0 /\ e = recordAccess now e0
    | None => Peek model h (store (live_server l)) = None
    end.
Proof.
  intros Hwf (l1 & l2 & now & Hl & _ & [Ha|[[] _]]). exists l1. split; [done|]. cbn in Ha.
  pose proof (Get_Peek now model h (store (live_server l1))) as [Hg _].
  destruct (Get _ _ _ _) as [g st]. cbn in Hg. injection Ha as -> _. subst g.
  destruct (Peek model h (store (live_server l1))) as [e0|] eqn:Hp; cbn; [|done].
  exists e0, now. split; [apply Peek_hot; by auto|done].
Qed.

Lemma cold_seen tr model h kv ver tk :
  seen tr _ (DoColdGet model h) (Some (TierHit kv ver tk)) ->
  exists l t, l ∈ tr /\ cold (live_server l) = Some t /\ tier_holds t model h (mk_cold ver tk kv).
Proof.
  intros (l1 & l2 & now & Hl & _ & [Ha|[[] _]]). cbn in Ha. injection Ha as Ha _.
  destruct (cold (live_server l1)) as [t|] eqn:Hc; [|done]. injection Ha as Ha. exists l1, t.
  split_and!; [done|done|by apply tier_hit_held].
Qed.

(** The jobs of a node only grow. *)
Lemma live_step_jobs l ev l' jobs' :
  live_step l ev l' -> repl (live_server l') = Some jobs' ->
  exists old new, repl (live_server l) = Some old /\ jobs' = old ++ new.
Proof.
  intros Hs Hj. destruct Hs as [l0 m q1 Hm|l0 m now q1 p1 p2 s' Hm Hp|l0 m q1 r Hm|l0 c|l0 t]; cbn [live_server] in *;
    try (exists jobs', []; by rewrite app_nil_r).
  destruct p1 as [|B x k]; [done|]. destruct Hp as (b & Hb & _). destruct (act_store _ _ _ _ _ Hb) as (_ & _ & Hrep).
  rewrite Hrep in Hj. destruct x; try (exists jobs', []; by rewrite app_nil_r).
  destruct (repl (live_server l0)) as [old|]; [|done]. injection Hj as <-. by exists old, [j].
Qed.

Lemma live_run_jobs l tr l' jobs' l1 :
  live_run l tr l' -> repl (live_server l') = Some jobs' -> l1 ∈ tr ->
  exists old new, repl (live_server l1) = Some old /\ jobs' = old ++ new.
Proof.
  intros Hr. revert jobs'. induction Hr as [|tr la ev lb Hr IH Hs]; intros jobs' Hj.
  - intros ->%list_elem_of_singleton. exists jobs', []. by rewrite app_nil_r.
  - intros [Hin| ->%list_elem_of_singleton]%elem_of_app; [|exists jobs', []; by rewrite app_nil_r].
    destruct (live_step_jobs _ _ _ _ Hs Hj) as (old & new & Ho & ->).
    destruct (IH old Ho Hin) as (old1 & new1 & Ho1 & ->). exists old1, (new1 ++ new). by rewrite app_assoc.
Qed.

Context (p : P) (opts : list StoreOption) (with_repl : bool) (c0 : option T).

Lemma tail_wf tr0 l0 ev l1 tr l2 :
  live_run (live_boot p opts with_repl c0) tr0 l0 -> live_step l0 ev l1 -> live_run l1 tr l2 ->
  forall l, l ∈ tr -> store_wf (store (live_server l)).
Proof.
  intros H0r H1 Hr. pose proof (live_run_wf _ _ _ _ _ _ H0r l0 (live_run_end _ _ _ H0r)) as Hw.
  pose proof (live_step_wf _ _ _ H1 Hw) as Hw1. clear H1 Hw H0r.
  assert (Hall : store_wf (store (live_server l2)) /\ forall l, l ∈ tr -> store_wf (store (live_server l))); [|apply Hall].
  induction Hr as [|tr l' ev' l'' Hr [IHe IH] Hs].
  - split; [done|]. by intros l ->%list_elem_of_singleton.
  - pose proof (live_step_wf _ _ _ Hs IHe). split; [done|]. intros l [Hl| ->%list_elem_of_singleton]%elem_of_app; [by apply IH|done].
Qed.

(** C9. Whatever runs beside a fetch (other handlers between any two of its accesses,
    the evictor, spills): it sends nothing and reports an error, or the bytes it
    sends are those of a block that, at some moment of the call, was resident for
    the requested model under the requested hash (or under a hash whose store key
    collides), or, after a moment of the call at which no such block was, was held
    by the tier for that model and hash; the version and token guards of the
    request accept that block, and all of its frames are sent unless the transport
    fails. *)
Theorem fetch_serves_resident tr0 l0 n model hash version toks room l1 tr l2 err out :
  live_run (live_boot p opts with_repl c0) tr0 l0 ->
  live_step l0 (LBegin n (QFetch model hash version toks room)) l1 -> live_run l1 tr l2 ->
  live_calls l2 !! n = Some (mk_call (QFetch model hash version toks room) (Ret (RFetch err out))) ->
  (sent out = [] /\ is_Some err)
  \/ exists h kv ver tk l,
       l ∈ tr /\ hash = hash_bytes h /\ sent out = frames_taken room kv
       /\ (err = None \/ (err = Some TransportError /\ is_Some room))
       /\ guards_ok version toks ver tk = true
       /\ ((exists e, hot_block (store (live_server l)) model h e /\ KV e = kv /\ Version e = ver /\ TokenIDs e = tk)
           \/ (Peek model h (store (live_server l)) = None
               /\ exists l' t, l' ∈ tr /\ cold (live_server l') = Some t /\ tier_holds t model h (mk_cold ver tk kv))).
Proof.
  intros H0r Hb Hr Hc. pose proof (tail_wf _ _ _ _ _ _ H0r Hb Hr) as Hwf.
  destruct (call_result _ _ _ _ _ _ _ Hb Hr Hc) as [|(h & kv & ver & tk & Hh & Hs & He & G & Hor)]; [by left|right].
  destruct Hor as [(e & Hg & Hkv & Hv & Ht)|[Hg Hcold]].
  - destruct (get_seen _ _ _ _ Hwf Hg) as (l & Hl & e0 & now & Hhot & ->). exists h, kv, ver, tk, l.
    split_and!; try done. left. by exists e0.
  - destruct (get_seen _ _ _ _ Hwf Hg) as (l & Hl & Hp). destruct (cold_seen _ _ _ _ _ _ Hcold) as (l' & t & Hl' & Ht & Hh').
    exists h, kv, ver, tk, l. split_and!; try done. right. split; [done|]. by exists l', t.
Qed.

(** What an acknowledged write has done, whatever runs beside it (the property
    itself is [Replicas.write_acknowledged], with the replicator behind the call):
    the stream was one header and a complete payload and the answer was taken, at
    some moment of the call the node held exactly the payload under the header's
    model and hash at the acknowledged version, and a node that replicates has
    handed that payload at that version to its replicator. *)
Lemma acknowledged_write tr0 l0 n can_alloc st l1 tr l2 resp :
  live_run (live_boot p opts with_repl c0) tr0 l0 ->
  live_step l0 (LBegin n (QWrite can_alloc st)) l1 -> live_run l1 tr l2 ->
  live_calls l2 !! n = Some (mk_call (QWrite can_alloc st) (Ret (RWrite (Done resp)))) ->
  exists hdr msgs h,
    st = mk_stream (WCHeader hdr :: msgs) true /\ Forall not_header msgs /\ hdr_BlockHash hdr = hash_bytes h
    /\ wr_Stored resp = true
    /\ (exists l g, l ∈ tr /\ flat (store (live_server l)) !! storeKey (hdr_ModelId hdr) h = Some g
          /\ holds g (header_entry hdr (payload msgs)) h (wr_Version resp))
    /\ forall jobs, repl (live_server l2) = Some jobs -> header_job hdr h (payload msgs) (wr_Version resp) ∈ jobs.
Proof.
  intros H0r Hb Hr Hc. pose proof (tail_wf _ _ _ _ _ _ H0r Hb Hr) as Hwf.
  destruct (call_result _ _ _ _ _ _ _ Hb Hr Hc) as (Hsnt & hdr & buf & h & Ha & Hh & Hst & Hput & Henq).
  apply assembleBlock_done in Ha as (msgs & snt & -> & Hm & -> & _). cbn in Hsnt. subst snt. exists hdr, msgs, h. split_and!; try done.
  - destruct Hput as (la & lb & now & Hla & Hlb & Hx). exists lb.
    destruct (act_put_flat _ _ _ _ _ _ (sw_striped _ (Hwf la Hla)) Hx) as [-> ->]. unfold FlatStore.put. cbn [fst snd].
    eexists. rewrite lookup_insert_eq. split_and!; [done|done|]. exact (proj1 (stored_holds _ _ _ _ 0)).
  - intros jobs Hj. destruct Henq as (la & lb & now & Hla & Hlb & [Hx|[[] _]]). cbn in Hx. injection Hx as Hs.
    destruct (live_run_jobs _ _ _ _ _ Hr Hj Hla) as (old & _ & Ho & _).
    destruct (live_run_jobs _ _ _ _ _ Hr Hj Hlb) as (olb & new & Hob & ->).
    apply (f_equal repl) in Hs. cbn in Hs. rewrite Hob, Ho in Hs. injection Hs as ->.
    rewrite !elem_of_app, list_elem_of_singleton. by left; right.
Qed.

(** A run of accesses of one program, with anything in between. *)
Inductive prog_run {A} : nat -> prog A -> prog A -> Prop :=
  | prog_refl p : prog_run 0 p p
  | prog_next n p p' p'' now s s' : prog_run n p p' -> prog_may now p' s p'' s' -> prog_run (S n) p p''.

Lemma prog_run_within {A} n m (p1 p2 : prog A) : prog_run n p1 p2 -> within m p1 -> exists k, m = n + k /\ within k p2.
Proof.
  induction 1 as [p1|n p1 p2 p3 now s s' _ IH Hs]; intros Hw; [by exists m|].
  destruct (IH Hw) as (k & -> & Hk). destruct p2 as [|B x c]; [done|]. destruct Hs as (b & _ & ->).
  destruct k as [|k]; [done|]. exists k. split; [lia|apply Hk].
Qed.

Lemma prog_may_act {A B} now (x : action B) (k : B -> prog A) s :
  prog_may now (Act x k) s (k (act_exec now x s).1) (act_exec now x s).2.
Proof. exists (act_exec now x s).1. split; [|done]. left. by destruct (act_exec now x s). Qed.

(** Every request is answered: its handler makes at most [work q] shared accesses,
    whatever they are answered and whatever happens in between, and until it has
    answered it can always make the next. *)
Theorem requests_answered q n p' :
  prog_run n (handler q) p' ->
  n <= work q /\ ((exists r, p' = Ret r) \/ forall now s, exists p'' s'', prog_may now p' s p'' s'').
Proof.
  intros Hr. destruct (prog_run_within _ _ _ _ Hr (handler_within q)) as (k & -> & _). split; [lia|].
  destruct p' as [r|B x c]; [left; by eexists|right]. intros now s.
  eexists _, _. apply prog_may_act.
Qed.

End interleaved.

(** ** Executable runs *)

Section plays.
Context {P T : Type} `{EvictionPolicy P} `{ColdTier T}.
Implicit Types (l : Live P T).

#[export] Instance evictor_call_dec c : Decision (evictor_call c).
Proof. destruct c; simpl; apply _. Defined.

(** One event, where it can happen; [LEnd] leaves the call in place. *)
Definition live_do (ev : live_event T) l : Live P T :=
  match ev with
  | LBegin n q =>
      match live_calls l !! n with
      | None => mk_running (live_server l) (<[n := mk_call q (handler q)]> (live_calls l))
      | Some _ => l
      end
  | LAct n now =>
      match live_calls l !! n with
      | Some (mk_call q (Act x k)) =>
          let '(b, s) := act_exec now x (live_server l) in mk_running s (<[n := mk_call q (k b)]> (live_calls l))
      | _ => l
      end
  | LEnd _ _ => l
  | LEvictor c =>
      if decide (evictor_call c)
      then mk_running (set_store (store_step c (store (live_server l))).2 (live_server l)) (live_calls l) else l
  | LTier t => mk_running (set_tier t (live_server l)) (live_calls l)
  end.
Fixpoint live_play (evs : list (live_event T)) l : Live P T :=
  match evs with [] => l | ev :: evs => live_play evs (live_do ev l) end.

Lemma live_do_step ev l : live_do ev l = l \/ live_step l ev (live_do ev l).
Proof.
  destruct ev as [n q|n now|n r|c|t]; cbn [live_do]; [| |by left| |by right; constructor].
  - destruct (live_calls l !! n) eqn:E; [by left|right; by constructor].
  - destruct (live_calls l !! n) as [[q [r|B x k]]|] eqn:E; [by left| |by left]. right.
    destruct (act_exec now x (live_server l)) as [b s] eqn:Ea. econstructor; [exact E|].
    exists b. split; [left; by rewrite Ea|done].
  - case_decide; [right; by constructor|by left].
Qed.

Lemma live_run_cons l ev l' tr l'' : live_step l ev l' -> live_run l' tr l'' -> live_run l (l :: tr) l''.
Proof.
  intros Hs Hr. induction Hr as [|tr la ev' lb Hr IH Hs'].
  - apply (live_next l [l] l ev l'); [apply live_refl|done].
  - by apply (live_next l (l :: tr) la ev' lb).
Qed.

Lemma live_play_run evs l : exists tr, live_run l tr (live_play evs l).
Proof.
  revert l. induction evs as [|ev evs IH]; intros l; [eexists; apply live_refl|]. cbn [live_play].
  destruct (IH (live_do ev l)) as [tr Hr]. destruct (live_do_step ev l) as [E|Hs]; [rewrite E in Hr |- *; by exists tr|].
  eexists. by eapply live_run_cons.
Qed.

End plays.

Abbreviation w_boot := (live_boot NewLRU [WithMaxBytes 10] true (Some w_tier)).
Definition w_read : request := QFetch "m#tp0/2" (hash_bytes hash32_zero) 0 [] None.
Definition w_upload : request := QWrite (fun n => (n <=? 1000)%Z) (mk_stream (WCHeader w_hdr :: w_msgs) true).

(** A fetch that misses, then a write of the same block, then the rest of the fetch:
    the tier's copy is served and not re-admitted over the newer write. *)
Lemma fetch_serves_resident_witness :
  let l1 := live_do (LBegin 1 w_read) w_boot in
  exists tr kv, live_run l1 tr (live_play [LAct 1 7; LBegin 2 w_upload; LAct 2 8; LAct 2 8; LAct 2 8; LAct 1 9; LAct 1 9; LAct 1 9; LAct 1 9] l1)
    /\ [mk_chunk [x09] true] = frames_taken None kv.
Proof.
  intros l1. destruct (live_play_run [LAct 1 7; LBegin 2 w_upload; LAct 2 8; LAct 2 8; LAct 2 8; LAct 1 9; LAct 1 9; LAct 1 9; LAct 1 9] l1) as [tr Hr].
  exists tr. destruct (fetch_serves_resident NewLRU [WithMaxBytes 10] true (Some w_tier) _ _ 1 "m#tp0/2" (hash_bytes hash32_zero) 0 []
    None l1 tr _ None (mk_sink [mk_chunk [x09] true] None) (live_refl w_boot) (live_begin w_boot 1 w_read eq_refl) Hr) as [Hn|Hs].
  - vm_compute. reflexivity.
  - destruct Hn as [Hn _]. discriminate Hn.
  - destruct Hs as (h & kv & ver & tk & l & _ & _ & Hf & _). exists kv. split; [exact Hr|exact Hf].
Defined.

Lemma requests_answered_witness :
  exists p', prog_run (P := LRUPolicy) (T := Memory) 1 (handler w_read) p' /\ 1 <= work w_read.
Proof.
  assert (Hr : exists p', prog_run (P := LRUPolicy) (T := Memory) 1 (handler w_read) p').
  { eexists. eapply (prog_next 0 _ _ _ 7 (live_server w_boot)); [apply prog_refl|]. apply prog_may_act. }
  destruct Hr as [p' Hr]. exists p'. split; [exact Hr|]. destruct (requests_answered _ _ _ Hr) as [Hle _]. exact Hle.
Defined.
