(* ===== verification/Grain.v ===== *)
(** The handlers over the store among goroutines.

    Handlers runs each access of a handler to the store as one step; Concurrent
    runs the calls of the store one lock, atomic or channel operation at a time.
    Here the two are put together: the handlers of [src/internal/server/server.go]
    are goroutines that enter and leave the methods of [src/internal/cache/store.go],
    beside the evictor ([fine_step]).  [handlers_over_goroutines]: what such a node
    does for its clients, a node of Handlers does too, so the theorems about
    handlers hold at the grain of the locks. *)

From S2P Require Import Prelude Bytes Float64 Policy Lru Store ColdTier Server Handlers Concurrent Linearize.

(** ** Goroutines of handlers *)

(** The call of the store an access makes. *)
Definition access_call (now : Z) {B} (x : action B) : option store_call :=
  match x with
  | DoPeek model h => Some (CPeek model h)
  | x => act_call now x
  end.

(** What the handler takes from the answer. *)
Definition access_answer {B} (x : action B) : store_answer -> option B :=
  match x in action B return store_answer -> option B with
  | DoGet _ _ | DoPeek _ _ => fun a => match a with AEntry e => Some e | _ => None end
  | DoPut _ _ | DoPutWithVersion _ _ _ => fun a => match a with AVersion v => Some v | _ => None end
  | DoDelete _ _ => fun a => match a with ADeleted b => Some b | _ => None end
  | _ => fun _ => None
  end.

(** A node: its server, whose store is the one the goroutines are inside; the
    calls of the store in flight; the evictor; the handlers.  Handler [n] makes its
    calls as the store's goroutine [S n]. *)
Record Fine (P T : Type) := mk_fine {
  fine_server : Server P T;
  fine_threads : gmap nat (store_call * stage);
  fine_loop : ev_at;
  fine_calls : gmap nat call;
}.
#[global] Arguments mk_fine {P T}.
#[global] Arguments fine_server {P T}.
#[global] Arguments fine_threads {P T}.
#[global] Arguments fine_loop {P T}.
#[global] Arguments fine_calls {P T}.

(** The steps that are not the begin or the return of a handler's call. *)
Definition inner (lab : label) : Prop :=
  match lab with Inv t _ | Res t _ => t = evictor_id | Lin _ | Tau => True end.

Section goroutines.
Context {P T : Type} `{PolicyLaws P} `{ColdTier T}.
Implicit Types (f : Fine P T) (st : Conc P) (l : Live P T) (a : Spec P).

Definition inside f : Conc P := mk_conc (store (fine_server f)) (fine_threads f) (fine_loop f).

Definition with_inside st f : Fine P T :=
  mk_fine (set_store (shared st) (fine_server f)) (threads st) (loop st) (fine_calls f).
Definition with_call n q p f : Fine P T :=
  mk_fine (fine_server f) (fine_threads f) (fine_loop f) (<[n := mk_call q p]> (fine_calls f)).

(** A step and, if there is one, what it shows to the outside: a request that
    comes in, a reply that goes out, the tier as others left it. *)
Inductive fine_step : Fine P T -> option (live_event T) -> Fine P T -> Prop :=
  | fine_begin f n q :
      fine_calls f !! n = None -> fine_step f (Some (LBegin n q)) (with_call n q (handler q) f)
  | fine_call f n now q B (x : action B) k c st :
      fine_calls f !! n = Some (mk_call q (Act x k)) -> access_call now x = Some c ->
      conc_step (inside f) (Inv (S n) c) st -> fine_step f None (with_inside st f)
  | fine_inner f lab st :
      inner lab -> conc_step (inside f) lab st -> fine_step f None (with_inside st f)
  | fine_return f n q B (x : action B) k r b st :
      fine_calls f !! n = Some (mk_call q (Act x k)) -> access_answer x r = Some b ->
      conc_step (inside f) (Res (S n) r) st -> fine_step f None (with_call n q (k b) (with_inside st f))
  | fine_own f n now q B (x : action B) k :
      fine_calls f !! n = Some (mk_call q (Act x k)) -> access_call now x = None ->
      fine_step f None
        (mk_fine (act_exec now x (fine_server f)).2 (fine_threads f) (fine_loop f)
           (<[n := mk_call q (k (act_exec now x (fine_server f)).1)]> (fine_calls f)))
  | fine_end f n q r :
      fine_calls f !! n = Some (mk_call q (Ret r)) ->
      fine_step f (Some (LEnd n r)) (mk_fine (fine_server f) (fine_threads f) (fine_loop f) (delete n (fine_calls f)))
  | fine_tier f t :
      fine_step f (Some (LTier t)) (mk_fine (set_tier t (fine_server f)) (fine_threads f) (fine_loop f) (fine_calls f)).

(** Runs with what they show. *)
Inductive fine_run f0 : list (live_event T) -> Fine P T -> Prop :=
  | fine_refl : fine_run f0 [] f0
  | fine_next evs f ev f' : fine_run f0 evs f -> fine_step f ev f' -> fine_run f0 (evs ++ option_list ev) f'.

Definition fine_boot (p : P) opts with_repl (c : option T) : Fine P T :=
  mk_fine (boot p opts with_repl c) ∅ EvSelect ∅.

(** The same of a node of Handlers. *)
Definition shown (ev : live_event T) : option (live_event T) :=
  match ev with LAct _ _ | LEvictor _ => None | ev => Some ev end.

Inductive shown_run l0 : list (live_event T) -> Live P T -> Prop :=
  | shown_refl : shown_run l0 [] l0
  | shown_next evs l ev l' : shown_run l0 evs l -> live_step l ev l' -> shown_run l0 (evs ++ option_list (shown ev)) l'.

End goroutines.

(** ** A handler cannot tell two answers apart that differ in access bookkeeping *)

Definition same_answer {B} (x : action B) : B -> B -> Prop :=
  match x in action B return B -> B -> Prop with
  | DoGet _ _ | DoPeek _ _ => opt_same
  | _ => eq
  end.

(** Two programs that do the same while their accesses are answered alike. *)
Fixpoint same_prog {A} (p p' : prog A) : Prop :=
  match p with
  | Ret a => p' = Ret a
  | @Act _ B x k => exists k', p' = Act x k' /\ forall b b', same_answer x b b' -> same_prog (k b) (k' b')
  end.

Lemma same_bind {A B} (p p' : prog A) (g g' : A -> prog B) :
  same_prog p p' -> (forall a, same_prog (g a) (g' a)) -> same_prog (p ≫= g) (p' ≫= g').
Proof.
  intros Hp Hg. revert p' Hp. induction p as [a|C x k IH]; intros p' Hp.
  - cbn in Hp. subst p'. apply Hg.
  - destruct Hp as (k' & -> & Hk). cbn. eexists. split; [done|]. intros b b' Hb. by apply IH, Hk.
Qed.

Lemma same_map {A B} (p : prog A) (g : A -> B) : same_prog p p -> same_prog (a ← p; mret (g a)) (a ← p; mret (g a)).
Proof. intros Hp. by apply same_bind. Qed.

Lemma same_perform {B} (x : action B) {A} (k k' : B -> prog A) :
  (forall b b', same_answer x b b' -> same_prog (k b) (k' b')) ->
  same_prog (perform x ≫= k) (perform x ≫= k').
Proof. intros Hk. cbn. by exists k'. Qed.

Ltac same_access := apply same_perform; cbn [same_answer]; intros ? ? ?; subst.
Ltac same_entry He :=
  destruct He as (?Htok & ?Hkv & _ & _ & ?Hver & ?Hsize & _).

Lemma lookup_same model hashes : same_prog (lookup_prog model hashes) (lookup_prog model hashes).
Proof.
  induction hashes as [|hb hashes IH]; [done|]. cbn [lookup_prog]. apply same_bind; [|intros bp; by apply same_map].
  unfold lookup_one_prog. destruct (toBlockHash hb) as [h|]; [|by same_access]. apply same_perform.
  intros b b' [e e' He|]; [|by same_access]. same_entry He. rewrite Hver, Hsize. by same_access.
Qed.

Lemma cold_hit_same model h version toks :
  same_prog (cold_hit_prog model h version toks) (cold_hit_prog model h version toks).
Proof.
  unfold cold_hit_prog. same_access. destruct b' as [[kv v tk| |]|]; try done.
  destruct (guards_ok _ _ _ _); [|done]. same_access. destruct b'; same_access; [done|by same_access].
Qed.

Lemma fetch_same model hash version toks out :
  same_prog (fetch_prog model hash version toks out) (fetch_prog model hash version toks out).
Proof.
  unfold fetch_prog. destruct (toBlockHash hash) as [h|]; [|done]. apply same_perform. intros b b' [e e' He|].
  - same_entry He. rewrite Htok, Hkv, Hver. same_access. destruct (_ && _); [done|]. destruct (_ && _); [done|].
    by destruct (streamKV _ _).
  - apply same_bind; [apply cold_hit_same|]. intros [kv|]; [by destruct (streamKV _ _)|by same_access].
Qed.

Lemma batch_same model i blocks out : same_prog (batch_prog model i blocks out) (batch_prog model i blocks out).
Proof.
  revert i out. induction blocks as [|fb blocks IH]; intros i out; [done|]. cbn [batch_prog]. apply same_bind.
  - unfold batch_one_prog. apply same_bind.
    + destruct (toBlockHash _) as [h|]; [|done]. unfold batch_resolve_prog. apply same_perform.
      intros b b' [e e' He|]; [|apply cold_hit_same]. same_entry He. by rewrite Htok, Hkv, Hver.
    + by intros [kv|]; same_access.
  - intros [[] o]; [apply IH|done].
Qed.

Lemma handler_same q : same_prog (handler q) (handler q).
Proof.
  destruct q as [model hs|model hash v toks room|model blocks room|ca st|ca st|model hash|]; cbn [handler];
    [apply same_map, lookup_same|apply same_map, fetch_same|apply same_map, batch_same| | | |done]; apply same_map.
  - unfold write_prog. destruct (assembleBlock ca st) as [[hdr buf]| |]; try done.
    destruct (toBlockHash _); [|done]. same_access. destruct b'; [done|]. same_access. by same_access.
  - unfold replicate_prog. destruct (assembleBlock ca st) as [[hdr buf]| |]; try done.
    destruct (toBlockHash _); [|done]. cbv zeta. destruct (_ =? 0)%Z; [done|]. by same_access.
  - unfold evict_prog. destruct (toBlockHash _); [|done]. same_access. destruct b'; [by same_access|done].
Qed.

(** ** What relates the two nodes *)

(** The handler in a call of the store: on the one side its access is still to be
    made until the call takes effect, and is made from then on. *)
Definition same_call (w : option pending) (oc ol : option call) : Prop :=
  match oc, ol with
  | None, None => w = None
  | Some (mk_call q p), Some (mk_call q' p') =>
      q = q' /\
      match w with
      | None => same_prog p p'
      | Some (Waiting c) =>
          same_prog p p' /\ match p with Act x _ => exists now, access_call now x = Some c | Ret _ => False end
      | Some (Answered r) =>
          match p with
          | Act x k => exists b', access_answer x r = Some b' /\ forall b, same_answer x b b' -> same_prog (k b) p'
          | Ret _ => False
          end
      end
  | _, _ => False
  end.

Section refinement.
Context {P T : Type} `{PolicyLaws P} `{ColdTier T}.
Implicit Types (f : Fine P T) (st : Conc P) (l : Live P T) (a : Spec P) (s : Server P T).

Record agrees f a l : Prop := mk_agrees {
  ag_sim : sim (inside f) a;
  ag_store : sp_store a = store (live_server l);
  ag_repl : repl (fine_server f) = repl (live_server l);
  ag_metrics : metrics (fine_server f) = metrics (live_server l);
  ag_cold : cold (fine_server f) = cold (live_server l);
  ag_calls n : same_call (sp_pend a !! S n) (fine_calls f !! n) (live_calls l !! n);
  ag_evictor c : sp_pend a !! evictor_id = Some (Waiting c) -> evictor_call c;
}.

(** *** Accesses and calls *)

Lemma set_store_id s : set_store (store s) s = s.
Proof. by destruct s. Qed.

(** An access is the call it makes, answered. *)
Lemma access_exec now {B} (x : action B) c s :
  access_call now x = Some c ->
  access_answer x (store_step c (store s)).1 = Some (act_exec now x s).1
  /\ (act_exec now x s).2 = set_store (store_step c (store s)).2 s.
Proof.
  destruct x; cbn -[Put PutWithVersion Get Delete Peek]; intros [= <-]; cbn -[Put PutWithVersion Get Delete Peek].
  - by destruct (Get _ _ _ _).
  - by rewrite set_store_id.
  - by destruct (Put _ _ _ _).
  - by destruct (PutWithVersion _ _ _ _ _).
  - by destruct (Delete _ _ _).
Qed.

Lemma access_client now {B} (x : action B) c : access_call now x = Some c -> client_call c = true.
Proof. destruct x; cbn; by intros [= <-]. Qed.

(** Answers that may stand for each other give the handler the same. *)
Lemma answer_same {B} (x : action B) r r' b' :
  answer_eq r r' -> access_answer x r' = Some b' -> exists b, access_answer x r = Some b /\ same_answer x b b'.
Proof.
  intros Hr. destruct x, r'; cbn; try done; intros [= <-]; destruct r; cbn in Hr; try done; try (by eauto);
    (eexists; split; [done|congruence]).
Qed.

(** An access outside the store reads and writes only the rest of the server; the
    byte total is the one of the store among goroutines. *)
Lemma own_access now {B} (x : action B) s s' :
  access_call now x = None -> repl s = repl s' -> metrics s = metrics s' -> cold s = cold s' ->
  exists s1, act_may now x s' ((act_exec now x s).1, s1)
    /\ store (act_exec now x s).2 = store s /\ store s1 = store s'
    /\ repl (act_exec now x s).2 = repl s1 /\ metrics (act_exec now x s).2 = metrics s1
    /\ cold (act_exec now x s).2 = cold s1.
Proof.
  intros Hx Hr Hm Hc. destruct x as [| | | | |n|m h|mm|j]; try done.
  - exists s'. split; [right|]; done.
  - exists s'. split; [left; cbn; by rewrite Hc|done].
  - exists (note mm s'). split; [by left|]. cbn. by rewrite Hm.
  - exists (calls_Enqueue j s'). split; [by left|]. cbn. by rewrite Hr.
Qed.

(** *** One step *)

Lemma inside_with st f : inside (with_inside st f) = st.
Proof. by destruct st. Qed.

(** The evictor's calls are [Victim] and [evict]. *)
Lemma evictor_inv st c st' : conc_step st (Inv evictor_id c) st' -> evictor_call c.
Proof.
  intros Hs. inversion Hs; subst; try done. exfalso.
  match goal with Ht : tstep _ _ = _ |- _ => revert Ht end.
  unfold tstep. destruct (threads st !! t) as [[c0 sg]|]; [|done]. cbn [mbind option_bind].
  destruct sg, (call_key c0); try done;
    try (destruct (stage_step _ _ _ _) as [[[sg' []] s1]|]; done); repeat (case_match; try done).
Qed.

(** What the server does for itself is the same on both sides. *)
Definition does l (ev : option (live_event T)) l' : Prop :=
  (ev = None /\ l' = l) \/ exists lev, live_step l lev l' /\ shown lev = ev.

Lemma step_begin f a l n q :
  agrees f a l -> fine_calls f !! n = None ->
  exists l', does l (Some (LBegin n q)) l' /\ agrees (with_call n q (handler q) f) a l'.
Proof.
  intros [Hsim Hst Hr Hm Hc Hcs He] Hn. pose proof (Hcs n) as Hno. rewrite Hn in Hno.
  destruct (live_calls l !! n) as [cl|] eqn:Hl; [done|].
  eexists. split; [right; eexists; split; [by apply live_begin|done]|].
  split; try done. cbn [fine_calls with_call live_calls]. intros m. destruct (decide (m = n)) as [->|Hne].
  - rewrite !lookup_insert_eq, Hno. cbn. split; [done|]. apply handler_same.
  - rewrite !lookup_insert_ne by done. apply Hcs.
Qed.

Lemma step_end f a l n q r :
  agrees f a l -> fine_calls f !! n = Some (mk_call q (Ret r)) ->
  exists l', does l (Some (LEnd n r)) l'
    /\ agrees (mk_fine (fine_server f) (fine_threads f) (fine_loop f) (delete n (fine_calls f))) a l'.
Proof.
  intros [Hsim Hst Hr Hm Hc Hcs He] Hn. pose proof (Hcs n) as Hno. rewrite Hn in Hno.
  destruct (live_calls l !! n) as [[q' p']|] eqn:Hl; [|done]. cbn in Hno. destruct Hno as [<- Hw].
  destruct (sp_pend a !! S n) as [[c|rr]|] eqn:Hp; [by destruct Hw|done|]. cbn in Hw. subst p'.
  eexists. split; [right; eexists; split; [by eapply live_end|done]|].
  split; try done. cbn [fine_calls live_calls]. intros m. destruct (decide (m = n)) as [->|Hne].
  - by rewrite !lookup_delete_eq, Hp.
  - rewrite !lookup_delete_ne by done. apply Hcs.
Qed.

Lemma step_own f a l n now q B (x : action B) k :
  agrees f a l -> fine_calls f !! n = Some (mk_call q (Act x k)) -> access_call now x = None ->
  exists l', does l None l'
    /\ agrees (mk_fine (act_exec now x (fine_server f)).2 (fine_threads f) (fine_loop f)
           (<[n := mk_call q (k (act_exec now x (fine_server f)).1)]> (fine_calls f))) a l'.
Proof.
  intros [Hsim Hst Hr Hm Hc Hcs He] Hn Hx. pose proof (Hcs n) as Hno. rewrite Hn in Hno.
  destruct (live_calls l !! n) as [[q' p']|] eqn:Hl; [|done]. cbn in Hno. destruct Hno as [<- Hw].
  destruct (sp_pend a !! S n) as [[c|rr]|] eqn:Hp.
  - destruct Hw as [_ [now' Hx']]. by destruct x.
  - destruct Hw as (b' & Hb & _). by destruct x.
  - destruct Hw as (k' & -> & Hk).
    destruct (own_access now x (fine_server f) (live_server l) Hx Hr Hm Hc) as (s1 & Hmay & E1 & E2 & E3 & E4 & E5).
    eexists. split; [right; eexists (LAct n now); split; [|done]; eapply live_act; [exact Hl|by eexists]|].
    split; cbn [fine_server fine_calls fine_threads live_server live_calls]; try done.
    + unfold inside. cbn [fine_server fine_threads fine_loop]. by rewrite E1.
    + by rewrite E2.
    + intros m. destruct (decide (m = n)) as [->|Hne].
      * rewrite !lookup_insert_eq, Hp. split; [done|]. apply Hk. by destruct x.
      * rewrite !lookup_insert_ne by done. apply Hcs.
Qed.

Lemma step_tier_set f a l t :
  agrees f a l ->
  exists l', does l (Some (LTier t)) l'
    /\ agrees (mk_fine (set_tier t (fine_server f)) (fine_threads f) (fine_loop f) (fine_calls f)) a l'.
Proof.
  intros [Hsim Hst Hr Hm Hc Hcs He]. eexists. split; [right; eexists; split; [apply live_tier|done]|].
  split; try done. cbn. by rewrite Hc.
Qed.

(** A handler enters a method of the store and leaves it with the answer. *)
Lemma step_enter f a l n now q B (x : action B) k c st :
  agrees f a l -> fine_calls f !! n = Some (mk_call q (Act x k)) -> access_call now x = Some c ->
  conc_step (inside f) (Inv (S n) c) st -> exists a', agrees (with_inside st f) a' l.
Proof.
  intros [Hsim Hst Hr Hm Hc Hcs He] Hn Hx Hstep. destruct (sim_step _ _ _ _ Hsim Hstep) as (a' & Ha & Hsim').
  inversion Ha as [t c' sa pend Hp| | |]; subst. exists (mk_spec sa (<[S n := Waiting c]> pend)).
  split; cbn [with_inside fine_server fine_calls repl metrics cold set_store sp_store sp_pend] in *; try done.
  - by rewrite inside_with.
  - intros m. specialize (Hcs m). destruct (decide (m = n)) as [->|Hne].
    + rewrite lookup_insert_eq. rewrite Hp in Hcs. rewrite Hn in Hcs |- *.
      destruct (live_calls l !! n) as [[q' p']|]; [|done]. destruct Hcs as [-> Hs]. split; [done|]. split; [exact Hs|by exists now].
    + rewrite lookup_insert_ne by congruence. exact Hcs.
  - intros c'. rewrite lookup_insert_ne by done. apply He.
Qed.

Lemma step_leave f a l n q B (x : action B) k r b st :
  agrees f a l -> fine_calls f !! n = Some (mk_call q (Act x k)) -> access_answer x r = Some b ->
  conc_step (inside f) (Res (S n) r) st -> exists a', agrees (with_call n q (k b) (with_inside st f)) a' l.
Proof.
  intros [Hsim Hst Hr Hm Hc Hcs He] Hn Hb Hstep. destruct (sim_step _ _ _ _ Hsim Hstep) as (a' & Ha & Hsim').
  inversion Ha as [| |t r0 r' sa pend Hp Heq|]; subst. exists (mk_spec sa (delete (S n) pend)).
  split; cbn [with_call with_inside fine_server fine_calls repl metrics cold set_store sp_store sp_pend] in *; try done.
  - change (inside (with_call n q (k b) (with_inside st f))) with (inside (with_inside st f)). by rewrite inside_with.
  - intros m. specialize (Hcs m). destruct (decide (m = n)) as [->|Hne].
    + rewrite lookup_delete_eq, lookup_insert_eq. rewrite Hp, Hn in Hcs.
      destruct (live_calls l !! n) as [[q' p']|]; [|done]. destruct Hcs as [-> (b' & Hb' & Hk)]. split; [done|].
      destruct (answer_same x _ _ _ Heq Hb') as (b1 & Hb1 & Hs1). apply Hk. congruence.
    + rewrite lookup_delete_ne, lookup_insert_ne by congruence. exact Hcs.
  - intros c'. rewrite lookup_delete_ne by done. apply He.
Qed.

(** A call of the store takes effect: the access of its handler, or the evictor's call. *)
Lemma step_effect f a l t st :
  agrees f a l -> conc_step (inside f) (Lin t) st ->
  exists a' l', does l None l' /\ agrees (with_inside st f) a' l'.
Proof.
  intros [Hsim Hst Hr Hm Hc Hcs He] Hstep. destruct (sim_step _ _ _ _ Hsim Hstep) as (a' & Ha & Hsim').
  inversion Ha as [|t0 c sa pend Hp| |]; subst. cbn [sp_store sp_pend] in *. subst sa.
  eexists. destruct t as [|n].
  - eexists. split; [right; eexists; split; [by apply (live_evictor _ c), He|done]|].
    split; [by rewrite inside_with|done..| |].
    + intros m. cbn [sp_pend]. rewrite lookup_insert_ne by done. apply Hcs.
    + intros c'. cbn [sp_pend]. by rewrite lookup_insert_eq.
  - pose proof (Hcs n) as Hno. rewrite Hp in Hno.
    destruct (fine_calls f !! n) as [[q p]|] eqn:Hn; [|by destruct (live_calls l !! n)].
    destruct (live_calls l !! n) as [[q' p']|] eqn:Hl; [|done]. destruct Hno as (<- & Hs & Hx).
    destruct p as [r|B x k]; [done|]. destruct Hx as [now Hx], Hs as (k' & -> & Hk).
    destruct (access_exec now x c (live_server l) Hx) as [Hans Hexec].
    eexists. split.
    { right. exists (LAct n now). split; [|done]. eapply live_act; [exact Hl|apply prog_may_act]. }
    split; cbn [live_server live_calls]; rewrite ?Hexec; [by rewrite inside_with|done..| |].
    + intros m. cbn [sp_pend with_inside fine_calls]. destruct (decide (m = n)) as [->|Hne].
      * rewrite !lookup_insert_eq, Hn. split; [done|]. eexists. split; [exact Hans|]. by intros b; apply Hk.
      * rewrite !lookup_insert_ne by congruence. apply Hcs.
    + intros c'. cbn [sp_pend]. rewrite lookup_insert_ne by done. apply He.
Qed.

Lemma step_inner f a l lab st :
  agrees f a l -> inner lab -> conc_step (inside f) lab st ->
  exists a' l', does l None l' /\ agrees (with_inside st f) a' l'.
Proof.
  intros Hag Hin Hstep. destruct lab as [t c|t|t r|]; [|by eapply step_effect| |].
  all: destruct Hag as [Hsim Hst Hr Hm Hc Hcs He]; destruct (sim_step _ _ _ _ Hsim Hstep) as (a' & Ha & Hsim').
  - cbn in Hin. subst t. inversion Ha as [t0 c0 sa pend Hp| | |]; subst. eexists _, l. split; [by left|].
    split; [by rewrite inside_with|done..| |].
    + intros m. cbn [sp_pend]. rewrite lookup_insert_ne by done. apply Hcs.
    + intros c'. cbn [sp_pend]. rewrite lookup_insert_eq. intros [= <-]. by eapply evictor_inv.
  - cbn in Hin. subst t. inversion Ha as [| |t0 r0 r' sa pend Hp Heq|]; subst. eexists _, l. split; [by left|].
    split; [by rewrite inside_with|done..| |].
    + intros m. cbn [sp_pend]. rewrite lookup_delete_ne by done. apply Hcs.
    + intros c'. cbn [sp_pend]. by rewrite lookup_delete_eq.
  - inversion Ha; subst. exists a', l. split; [by left|]. split; try done. by rewrite inside_with.
Qed.

Lemma agrees_step f a l ev f' :
  agrees f a l -> fine_step f ev f' -> exists a' l', does l ev l' /\ agrees f' a' l'.
Proof.
  intros Hag Hs. destruct Hs as [f n q Hn|f n now q B x k c st Hn Hx Hs|f lab st Hin Hs|f n q B x k r b st Hn Hb Hs
    |f n now q B x k Hn Hx|f n q r Hn|f t].
  - exists a. by apply step_begin.
  - destruct (step_enter _ _ _ _ _ _ _ _ _ _ _ Hag Hn Hx Hs) as [a' Ha]. exists a', l. split; [by left|done].
  - by eapply step_inner.
  - destruct (step_leave _ _ _ _ _ _ _ _ _ _ _ Hag Hn Hb Hs) as [a' Ha]. exists a', l. split; [by left|done].
  - exists a. by apply step_own.
  - exists a. by apply step_end with q.
  - exists a. by apply step_tier_set.
Qed.

Lemma does_run l0 evs l ev l' : shown_run l0 evs l -> does l ev l' -> shown_run l0 (evs ++ option_list ev) l'.
Proof.
  intros Hr [[-> ->]|(lev & Hs & <-)]; [by rewrite app_nil_r|by eapply shown_next].
Qed.

Lemma agrees_run f0 a0 l0 evs f :
  agrees f0 a0 l0 -> fine_run f0 evs f -> exists a l, shown_run l0 evs l /\ agrees f a l.
Proof.
  intros H0'. induction 1 as [|evs f ev f' Hr (a & l & Hl & Hag) Hs]; [exists a0, l0; split; [apply shown_refl|done]|].
  destruct (agrees_step _ _ _ _ _ Hag Hs) as (a' & l' & Hd & Hag'). exists a', l'. split; [by eapply does_run|done].
Qed.

Lemma boot_store (p : P) opts wr (c : option T) : store (boot p opts wr c) = NewStore p opts.
Proof. by destruct wr, c. Qed.

Lemma agrees_boot (p : P) opts wr (c : option T) :
  pol_inv p -> tracked p = ∅ -> agrees (fine_boot p opts wr c) (mk_spec (NewStore p opts) ∅) (live_boot p opts wr c).
Proof.
  intros Hp Ht. split; try done.
  - unfold inside. cbn [fine_boot fine_server fine_threads fine_loop]. rewrite boot_store. by apply sim_init.
  - cbn. by rewrite boot_store.
Qed.

(** A run that shows events is a run of the states it went through. *)
Lemma shown_run_live l0 evs l : shown_run l0 evs l -> exists tr, live_run l0 tr l.
Proof.
  induction 1 as [|evs l ev l' _ [tr Hr] Hs]; [eexists; apply live_refl|].
  exists (tr ++ [l']). by eapply live_next.
Qed.

(** C4. A node whose handlers are goroutines inside the store, with the evictor
    beside them, does for its clients only what a node does whose every access to
    the store is one step: for every run there is one of Handlers with the same
    requests, replies and tiers in the same order and, at the end, the same job
    queue and metrics and, when no call of the store is in flight, the same store
    up to the access bookkeeping of its entries. *)
Theorem handlers_over_goroutines (p : P) opts with_repl c evs f :
  pol_inv p -> tracked p = ∅ -> fine_run (fine_boot p opts with_repl c) evs f ->
  exists l, shown_run (live_boot p opts with_repl c) evs l
    /\ repl (fine_server f) = repl (live_server l) /\ metrics (fine_server f) = metrics (live_server l)
    /\ cold (fine_server f) = cold (live_server l)
    /\ (fine_threads f = ∅ -> stores_agree (store (fine_server f)) (store (live_server l))).
Proof.
  intros Hp Ht Hr. destruct (agrees_run _ _ _ _ _ (agrees_boot p opts with_repl c Hp Ht) Hr) as (a & l & Hl & Hag).
  exists l. split; [done|]. destruct Hag as [Hsim Hst Hrp Hm Hc _ _]. split_and!; try done.
  intros Hq. rewrite <- Hst. by apply (sim_quiescent (inside f) a).
Qed.

End refinement.

(** ** Turns of the requests in flight *)

Section turns.
Context {P T : Type} `{PolicyLaws P} `{ColdTier T}.
Implicit Types (f : Fine P T) (st : Conc P).

(** The steps of the requests that are there: no new request, and the evictor only
    finishes the call it is in. *)
Inductive turn : Fine P T -> Fine P T -> Prop :=
  | turn_call f n now q B (x : action B) k c :
      fine_calls f !! n = Some (mk_call q (Act x k)) -> access_call now x = Some c -> fine_threads f !! S n = None ->
      turn f (with_inside (begin (S n) c (inside f)) f)
  | turn_inner f t lab st :
      legal_order t (inside f) -> tstep t (inside f) = Some (lab, st) -> inner lab -> turn f (with_inside st f)
  | turn_return f n q B (x : action B) k r b st :
      fine_calls f !! n = Some (mk_call q (Act x k)) -> access_answer x r = Some b ->
      tstep (S n) (inside f) = Some (Res (S n) r, st) -> turn f (with_call n q (k b) (with_inside st f))
  | turn_own f n now q B (x : action B) k :
      fine_calls f !! n = Some (mk_call q (Act x k)) -> access_call now x = None ->
      turn f (mk_fine (act_exec now x (fine_server f)).2 (fine_threads f) (fine_loop f)
           (<[n := mk_call q (k (act_exec now x (fine_server f)).1)]> (fine_calls f))).

(** A turn is a step of the node. *)
Lemma turn_step f f' : turn f f' -> fine_step f None f'.
Proof.
  intros [f0 n now q B x k c Hn Hx Ht|f0 t lab st Ho Hs Hi|f0 n q B x k r b st Hn Hb Hs|f0 n now q B x k Hn Hx].
  - eapply fine_call; [exact Hn|exact Hx|]. apply step_call; [done|by eapply access_client|done].
  - eapply fine_inner; [exact Hi|by eapply step_thread].
  - eapply fine_return; [exact Hn|exact Hb|]. eapply step_thread; [|exact Hs].
    intros o Ho. exfalso. revert Hs. unfold tstep. rewrite Ho. cbn. by destruct (ask_victim _ _).
  - by eapply fine_own.
Qed.

End turns.

(** ** Executable runs *)

Section plays.
Context {P T : Type} `{PolicyLaws P} `{ColdTier T}.
Implicit Types (f : Fine P T).

(** The next step of handler [n]: into a method of the store, inside it, out of it
    with its answer, or an access to the rest of the server. *)
Definition advance (now : Z) (n : nat) f : option (Fine P T) :=
  match fine_calls f !! n with
  | Some (mk_call q (Act x k)) =>
      match access_call now x, fine_threads f !! S n with
      | None, _ =>
          Some (mk_fine (act_exec now x (fine_server f)).2 (fine_threads f) (fine_loop f)
            (<[n := mk_call q (k (act_exec now x (fine_server f)).1)]> (fine_calls f)))
      | Some c, None => Some (with_inside (begin (S n) c (inside f)) f)
      | Some _, Some _ =>
          '(lab, st) ← tstep (S n) (inside f);
          match lab with
          | Res t r => if decide (t = S n) then (fun b => with_call n q (k b) (with_inside st f)) <$> access_answer x r else None
          | Lin _ | Tau => Some (with_inside st f)
          | Inv _ _ => None
          end
      end
  | _ => None
  end.

Lemma advance_turn now n f f' :
  (forall t st, @legal_order P _ _ t st) -> advance now n f = Some f' -> turn f f'.
Proof.
  intros Hord. unfold advance. destruct (fine_calls f !! n) as [[q [r|B x k]]|] eqn:Hn; try done.
  destruct (access_call now x) as [c|] eqn:Hx; [|intros [= <-]; by eapply turn_own].
  destruct (fine_threads f !! S n) as [th|] eqn:Hth; [|intros [= <-]; by eapply turn_call].
  destruct (tstep (S n) (inside f)) as [[lab st]|] eqn:Hs; [|done]. cbn [mbind option_bind].
  destruct lab as [t c0|t|t r|]; try done; try (intros [= <-]; by eapply turn_inner).
  destruct (decide (t = S n)) as [->|]; [|done]. destruct (access_answer x r) as [b|] eqn:Hb; [|done].
  intros [= <-]. by eapply turn_return.
Qed.

(** The evictor moves, in its loop or in its call, on a nudge. *)
Definition advance_evictor f : option (Fine P T) :=
  '(lab, st) ← match fine_threads f !! evictor_id with
               | Some _ => tstep evictor_id (inside f)
               | None => ev_move [] (inside f)
               end;
  match lab with
  | Inv t _ | Res t _ => if decide (t = evictor_id) then Some (with_inside st f) else None
  | _ => Some (with_inside st f)
  end.

Lemma advance_evictor_step f f' :
  (forall t st, @legal_order P _ _ t st) -> advance_evictor f = Some f' -> fine_step f None f'.
Proof.
  intros Hord. unfold advance_evictor.
  assert (Hc : forall lab st, match fine_threads f !! evictor_id with
      | Some _ => tstep evictor_id (inside f) | None => ev_move [] (inside f) end = Some (lab, st) ->
      conc_step (inside f) lab st).
  { intros lab st. destruct (fine_threads f !! evictor_id); intros Hs; [by eapply step_thread|by eapply ev_move_step]. }
  destruct (match fine_threads f !! evictor_id with Some _ => _ | None => _ end) as [[lab st]|]; [|done].
  cbn [mbind option_bind]. specialize (Hc _ _ eq_refl).
  destruct lab as [t c|t|t r|]; try (case_decide; [|done]); intros [= <-]; by eapply (fine_inner f _ st), Hc.
Qed.

(** A schedule: handler [Some n] or, for [None], the evictor moves. *)
Fixpoint fine_play (now : Z) (ts : list (option nat)) f : option (Fine P T) :=
  match ts with
  | [] => Some f
  | t :: ts => f1 ← match t with Some n => advance now n f | None => advance_evictor f end; fine_play now ts f1
  end.

Lemma fine_play_run now ts f0 evs f f' :
  (forall t st, @legal_order P _ _ t st) -> fine_run f0 evs f -> fine_play now ts f = Some f' -> fine_run f0 evs f'.
Proof.
  intros Hord. revert f. induction ts as [|t ts IH]; intros f Hr; cbn [fine_play]; [by intros [= <-]|].
  destruct (match t with Some n => _ | None => _ end) as [f1|] eqn:E; [|done]. cbn [mbind option_bind]. intros Hp.
  apply (IH f1); [|done]. rewrite <- (app_nil_r evs). eapply (fine_next _ _ _ None); [exact Hr|].
  destruct t; [by eapply turn_step, advance_turn|by eapply advance_evictor_step].
Qed.

End plays.

(** A write and a read of another block, step by step against each other; the
    write fills the shard, wakes the evictor, and the evictor drains it. *)
Definition w_fine : Fine LRUPolicy Memory :=
  fine_boot NewLRU [WithMaxBytes 4; WithWatermarks (f64_div f64_1 (f64_of_Z 2)) (f64_div f64_1 (f64_of_Z 4))] true (Some NewMemory).
Definition w_two : Fine LRUPolicy Memory := with_call 1 w_read (handler w_read) (with_call 0 w_upload (handler w_upload) w_fine).
Definition w_turns : list (option nat) :=
  replicate 5 (Some 0) ++ [Some 1] ++ replicate 4 (Some 0) ++ [None; None] ++ replicate 2 (Some 1)
  ++ [Some 0; None; None] ++ replicate 3 (Some 1) ++ [None] ++ replicate 3 (Some 1) ++ replicate 11 None ++ [Some 0].

Lemma w_two_run :
  fine_run w_fine [LBegin 0 w_upload; LBegin 1 w_read] w_two.
Proof.
  apply (fine_next _ [LBegin 0 w_upload] (with_call 0 w_upload (handler w_upload) w_fine) (Some (LBegin 1 w_read))).
  - apply (fine_next _ [] w_fine (Some (LBegin 0 w_upload))); [apply fine_refl|]. by apply fine_begin.
  - by apply fine_begin.
Qed.

Lemma handlers_over_goroutines_witness :
  exists f l, fine_run w_fine [LBegin 0 w_upload; LBegin 1 w_read] f
    /\ fine_calls f !! 1 = Some (mk_call w_read (Ret (RFetch None (mk_sink [mk_chunk [x01; x02; x03] true] None))))
    /\ shown_run (live_boot NewLRU [WithMaxBytes 4; WithWatermarks (f64_div f64_1 (f64_of_Z 2)) (f64_div f64_1 (f64_of_Z 4))]
         true (Some NewMemory)) [LBegin 0 w_upload; LBegin 1 w_read] l
    /\ totalBytes (store (live_server l)) = 0%Z.
Proof.
  assert (Hq : (fun f => (fine_threads f, fine_calls f !! 1, totalBytes (store (fine_server f)))) <$> fine_play 7 w_turns w_two
    = Some (∅, Some (mk_call w_read (Ret (RFetch None (mk_sink [mk_chunk [x01; x02; x03] true] None)))), 0%Z))
    by (vm_compute; reflexivity).
  destruct (fine_play 7 w_turns w_two) as [f|] eqn:E; [|discriminate Hq]. injection Hq as Hth Hc Ht.
  pose proof (fine_play_run 7 w_turns w_fine _ _ f lru_legal w_two_run E) as Hr.
  destruct (@handlers_over_goroutines LRUPolicy Memory lru_policy lru_laws _ NewLRU
    [WithMaxBytes 4; WithWatermarks (f64_div f64_1 (f64_of_Z 2)) (f64_div f64_1 (f64_of_Z 4))] true (Some NewMemory)
    _ f lru_inv_new eq_refl Hr) as (l & Hl & _ & _ & _ & Hag).
  exists f, l. split; [exact Hr|]. split; [exact Hc|]. split; [exact Hl|].
  destruct (Hag Hth) as (_ & Htot & _). rewrite <- Htot. exact Ht.
Defined.
