(* ===== verification/Answers.v ===== *)
(** Every request is answered at the grain of the store's locks.

    On the nodes of Grain, whose handlers are goroutines inside the store: however
    the handlers and the calls they are in take turns, with the evictor's call in
    flight among them, they take a bounded number of steps, and none waits for ever
    ([handlers_finish]). *)

From S2P Require Import Prelude Bytes Float64 Policy Lru Store ColdTier Server Handlers Concurrent Linearize Wakeup Grain.

Section answers.
Context {P T : Type} `{PolicyLaws P} `{ColdTier T}.
Implicit Types (f : Fine P T) (st : Conc P) (l : Live P T) (a : Spec P) (w : gmap nat nat).

(** ** Turns *)

(** [m] turns, one after the other. *)
Inductive turns : nat -> Fine P T -> Fine P T -> Prop :=
  | turns_O f : turns 0 f f
  | turns_S m f f1 f2 : turns m f f1 -> turn f1 f2 -> turns (S m) f f2.

Lemma tstep_effect t st lab st' :
  tstep t st = Some (lab, st') ->
  (exists r th, lab = Res t r /\ threads st !! t = Some th /\ threads st' = delete t (threads st))
  \/ ((lab = Tau \/ lab = Lin t) /\ exists th th', threads st !! t = Some th /\ threads st' = <[t := th']> (threads st)).
Proof.
  unfold tstep. destruct (threads st !! t) as [[c sg]|] eqn:Ht; [|done]. cbn [mbind option_bind].
  assert (Hst : forall k, ('(sg', lin, s) ← stage_step c k sg (shared st);
      Some (if lin : bool then Lin t else Tau, mk_conc s (<[t := (c, sg')]> (threads st)) (loop st))) = Some (lab, st') ->
      (lab = Tau \/ lab = Lin t) /\ exists th', threads st' = <[t := th']> (threads st)).
  { intros k. destruct (stage_step _ _ _ _) as [[[sg' lin] s]|]; [|done]. intros [= <- <-]. split; [destruct lin; auto|eauto]. }
  assert (Hall : (lab = Tau \/ lab = Lin t) /\ (exists th', threads st' = <[t := th']> (threads st)) ->
    (lab = Tau \/ lab = Lin t) /\ exists th th', Some (c, sg) = Some th /\ threads st' = <[t := th']> (threads st))
    by (intros [Hl [th' Hth]]; eauto).
  destruct sg; try (destruct (call_key c) as [k|]; [|done]; intros Hs; right; by apply Hall, (Hst k)).
  - intros Hs. right. apply Hall. destruct (call_key c).
    + destruct (lock_free _ _ _); [|done]. injection Hs as <- <-. eauto.
    + destruct (store_step c (shared st)). injection Hs as <- <-. eauto.
  - intros [= <- <-]. right. eauto.
  - intros [= <- <-]. left. eauto.
Qed.

(** ** How far each handler still has to go *)

(** [m] accesses of the program are left, after the one it is making if it is in a
    method of the store. *)
Definition left_over (th : option (store_call * stage)) (m : nat) (p : prog reply) : Prop :=
  match th with
  | None => within m p
  | Some _ => match p with
              | Act x k => (exists now c, access_call now x = Some c) /\ forall b, within m (k b)
              | Ret _ => False
              end
  end.

(** [w]: how many accesses each handler has left. *)
Definition paced f w : Prop :=
  forall n, match fine_calls f !! n with
            | Some (mk_call q p) =>
                exists m, w !! n = Some m /\ m <= work q /\ left_over (fine_threads f !! S n) m p
            | None => w !! n = None /\ fine_threads f !! S n = None
            end.

(** One handler moves. *)
Lemma paced_one f w f' w' n :
  paced f w ->
  (forall m, m <> n -> fine_calls f' !! m = fine_calls f !! m /\ w' !! m = w !! m
     /\ fine_threads f' !! S m = fine_threads f !! S m) ->
  match fine_calls f' !! n with
  | Some (mk_call q p) => exists m, w' !! n = Some m /\ m <= work q /\ left_over (fine_threads f' !! S n) m p
  | None => w' !! n = None /\ fine_threads f' !! S n = None
  end -> paced f' w'.
Proof.
  intros Hp Ho Hn m. destruct (decide (m = n)) as [->|Hne]; [exact Hn|].
  destruct (Ho m Hne) as (-> & -> & ->). apply Hp.
Qed.

(** Nobody enters or leaves a method of the store. *)
Lemma paced_inner f w st :
  paced f w -> (forall n, is_Some (threads st !! S n) <-> is_Some (fine_threads f !! S n)) -> paced (with_inside st f) w.
Proof.
  intros Hp Hth n. specialize (Hp n). specialize (Hth n). cbn [with_inside fine_calls fine_threads].
  destruct (fine_calls f !! n) as [[q p]|].
  - destruct Hp as (m & Hw & Hm & Hl). exists m. split; [done|]. split; [done|]. unfold left_over in *.
    destruct (threads st !! S n) eqn:E1, (fine_threads f !! S n) eqn:E2; try done.
    + destruct Hth as [Hth _]. by destruct (Hth ltac:(eauto)).
    + destruct Hth as [_ Hth]. by destruct (Hth ltac:(eauto)).
  - destruct Hp as [Hw Hl]. split; [done|]. rewrite Hl in Hth. destruct (threads st !! S n); [|done].
    destruct Hth as [Hth _]. by destruct (Hth ltac:(eauto)).
Qed.

Lemma tstep_kept t st lab st' n :
  tstep t st = Some (lab, st') -> inner lab -> is_Some (threads st' !! S n) <-> is_Some (threads st !! S n).
Proof.
  intros Hs Hi. destruct (tstep_effect _ _ _ _ Hs) as [(r & th & -> & _ & ->)|(_ & th & th' & Ht & ->)].
  - cbn in Hi. subst t. by rewrite lookup_delete_ne.
  - destruct (decide (t = S n)) as [->|Hne]; [rewrite lookup_insert_eq, Ht; naive_solver|by rewrite lookup_insert_ne].
Qed.

Lemma conc_kept st lab st' n :
  conc_step st lab st' -> inner lab -> is_Some (threads st' !! S n) <-> is_Some (threads st !! S n).
Proof.
  intros Hs Hi. inversion Hs; subst; cbn [with_loop ev_call threads] in *; try done.
  - by eapply tstep_kept.
  - by rewrite lookup_insert_ne.
  - by rewrite lookup_insert_ne.
  - by rewrite lookup_insert_ne.
Qed.

(** *** One turn takes something away *)

Definition fuel_left f w : Z := map_sum (fun m => 10 * Z.of_nat m)%Z w + map_sum steps_left (fine_threads f).

Lemma turn_paced f w f' :
  paced f w -> turn f f' -> exists w', paced f' w' /\ (fuel_left f' w' < fuel_left f w)%Z.
Proof.
  intros Hp Hturn. revert Hp. destruct Hturn as [f0 n now q B x k c Hn Hx Ht|f0 t lab st Ho Hs Hi|f0 n q B x k r b st Hn Hb Hs|f0 n now q B x k Hn Hx]; intros Hp.
  - pose proof (Hp n) as Hpn. rewrite Hn in Hpn. destruct Hpn as (m & Hw & Hm & Hl). rewrite Ht in Hl.
    destruct m as [|m]; [done|]. exists (<[n := m]> w). split.
    + apply (paced_one f0 w _ _ n Hp).
      * intros m' Hne. cbn. split; [done|]. by rewrite !lookup_insert_ne by congruence.
      * cbn. rewrite Hn. exists m. rewrite !lookup_insert_eq. split; [done|]. split; [lia|]. split; [by eauto|exact Hl].
    + unfold fuel_left. cbn [with_inside begin fine_threads threads inside].
      rewrite (map_sum_insert_Some _ _ _ _ _ Hw), map_sum_insert_None by done. cbn. lia.
  - exists w. split; [apply paced_inner; [done|]; intros n; by eapply (tstep_kept t (inside f0))|].
    unfold fuel_left. cbn [with_inside fine_threads]. apply tstep_left in Hs. cbn [inside threads] in Hs. lia.
  - pose proof (Hp n) as Hpn. rewrite Hn in Hpn. destruct Hpn as (m & Hw & Hm & Hl). exists w.
    destruct (tstep_effect _ _ _ _ Hs) as [(r' & th & [= <-] & Hth & Est)|([?|?] & _)]; [|done|done].
    cbn [inside threads] in Hth. rewrite Hth in Hl. destruct Hl as [_ Hl]. split.
    + apply (paced_one f0 w _ _ n Hp); cbn [with_call with_inside fine_calls fine_threads]; rewrite Est.
      * intros m' Hne. rewrite lookup_insert_ne, lookup_delete_ne by congruence. done.
      * rewrite lookup_insert_eq, lookup_delete_eq. exists m. split; [done|]. split; [done|apply Hl].
    + unfold fuel_left. cbn [with_call with_inside fine_threads]. apply tstep_left in Hs. cbn [inside threads] in Hs. lia.
  - pose proof (Hp n) as Hpn. rewrite Hn in Hpn. destruct Hpn as (m & Hw & Hm & Hl).
    assert (Ht : fine_threads f0 !! S n = None).
    { destruct (fine_threads f0 !! S n); [|done]. destruct Hl as [(now' & c & Hc) _]. by destruct x. }
    rewrite Ht in Hl. destruct m as [|m]; [done|]. exists (<[n := m]> w). split.
    + apply (paced_one f0 w _ _ n Hp).
      * intros m' Hne. cbn. by rewrite !lookup_insert_ne by congruence.
      * cbn. rewrite !lookup_insert_eq, Ht. exists m. split; [done|]. split; [lia|apply Hl].
    + unfold fuel_left. cbn [fine_threads]. rewrite (map_sum_insert_Some _ _ _ _ _ Hw). lia.
Qed.

(** *** Every reachable node is paced *)

Lemma paced_turn_within f w f' : paced f w -> turn f f' -> exists w', paced f' w'.
Proof. intros Hp Ht. destruct (turn_paced f w f' Hp Ht) as (w' & Hp' & _). eauto. Qed.

Lemma paced_step f w ev f' : paced f w -> fine_step f ev f' -> exists w', paced f' w'.
Proof.
  intros Hp Hs. revert Hp. destruct Hs as [f n q Hn|f n now q B x k c st Hn Hx Hs|f lab st Hin Hs|f n q B x k r b st Hn Hb Hs
    |f n now q B x k Hn Hx|f n q r Hn|f t]; intros Hp.
  - exists (<[n := work q]> w). pose proof (Hp n) as Hpn. rewrite Hn in Hpn. destruct Hpn as [_ Ht].
    apply (paced_one f w _ _ n Hp).
    + intros m Hne. cbn. by rewrite !lookup_insert_ne by congruence.
    + cbn. rewrite !lookup_insert_eq, Ht. eexists. split; [done|]. split; [done|apply handler_within].
  - inversion Hs as [t0 c0 st0 _ _ Ht| t0 lab0 st0 st1 _ Ht| | | | | | | | |]; subst.
    + eapply paced_turn_within; [exact Hp|]. by eapply turn_call.
    + destruct (tstep_effect _ _ _ _ Ht) as [(? & ? & ? & _)|([?|?] & _)]; done.
  - exists w. apply paced_inner; [done|]. intros n. by eapply (conc_kept (inside f)).
  - inversion Hs as [| t0 lab0 st0 st1 _ Ht| | | | | | | | |]; subst.
    destruct (tstep_effect _ _ _ _ Ht) as [(? & ? & [= <- <-] & _)|([?|?] & _)]; [|done|done].
    eapply paced_turn_within; [exact Hp|]. by eapply turn_return.
  - eapply paced_turn_within; [exact Hp|]. by eapply turn_own.
  - exists (delete n w). pose proof (Hp n) as Hpn. rewrite Hn in Hpn. destruct Hpn as (m & _ & _ & Hl).
    apply (paced_one f w _ _ n Hp).
    + intros m' Hne. cbn. by rewrite !lookup_delete_ne by congruence.
    + cbn. rewrite !lookup_delete_eq. split; [done|]. by destruct (fine_threads f !! S n).
  - exists w. exact Hp.
Qed.

Lemma paced_run (p : P) opts wr c evs f : fine_run (fine_boot p opts wr c) evs f -> exists w, paced f w.
Proof.
  induction 1 as [|evs f ev f' _ [w Hp] Hs]; [|by eapply paced_step].
  exists ∅. intros n. cbn. by rewrite !lookup_empty.
Qed.

Lemma turns_paced m f w f' :
  paced f w -> turns m f f' -> exists w', paced f' w' /\ (Z.of_nat m + fuel_left f' w' <= fuel_left f w)%Z.
Proof.
  intros Hp Ht. revert Hp. induction Ht as [f|m f f1 f2 _ IH Ht]; intros Hp; [exists w; split; [done|lia]|].
  destruct (IH Hp) as (w1 & Hp1 & Hle). destruct (turn_paced _ _ _ Hp1 Ht) as (w2 & Hp2 & Hlt).
  exists w2. split; [done|lia].
Qed.

Lemma fuel_left_nonneg f w : (0 <= fuel_left f w)%Z.
Proof.
  pose proof (steps_left_bound (fine_threads f)) as [Ht _]. unfold fuel_left.
  apply Z.add_nonneg_nonneg; [|exact Ht]. apply map_sum_nonneg. intros. lia.
Qed.

(** What the requests may take in all. *)
Definition turns_bound f : Z :=
  (map_sum (fun cl => 10 * Z.of_nat (work (call_request cl))) (fine_calls f) + 9 * Z.of_nat (size (fine_threads f)))%Z.

Lemma paced_sum (cs : gmap nat call) w :
  (forall n, match cs !! n with
             | Some cl => exists m, w !! n = Some m /\ m <= work (call_request cl)
             | None => w !! n = None
             end) ->
  (map_sum (fun m => 10 * Z.of_nat m) w <= map_sum (fun cl => 10 * Z.of_nat (work (call_request cl))) cs)%Z.
Proof.
  revert w. induction cs as [|n cl cs Hn IH] using map_ind; intros w Hw.
  - assert (w = ∅) as -> by (apply map_eq; intros n; specialize (Hw n); by rewrite lookup_empty in *).
    by rewrite !map_sum_empty.
  - pose proof (Hw n) as Hwn. rewrite lookup_insert_eq in Hwn. destruct Hwn as (m & Hm & Hle).
    rewrite map_sum_insert_None by done.
    assert (Hdel : (map_sum (fun m => 10 * Z.of_nat m) (delete n w)
                    <= map_sum (fun cl => 10 * Z.of_nat (work (call_request cl))) cs)%Z).
    { apply IH. intros n'. destruct (decide (n' = n)) as [->|Hne]; [by rewrite Hn, lookup_delete_eq|].
      specialize (Hw n'). rewrite lookup_insert_ne in Hw by done. by rewrite lookup_delete_ne. }
    rewrite (map_sum_delete _ _ _ _ Hm) in Hdel. lia.
Qed.

Lemma fuel_bound f w : paced f w -> (fuel_left f w <= turns_bound f)%Z.
Proof.
  intros Hp. unfold fuel_left, turns_bound. pose proof (steps_left_bound (fine_threads f)) as [_ Ht].
  enough (map_sum (fun m => 10 * Z.of_nat m) w
          <= map_sum (fun cl => 10 * Z.of_nat (work (call_request cl))) (fine_calls f))%Z by lia.
  apply paced_sum. intros n. specialize (Hp n). destruct (fine_calls f !! n) as [[q p]|]; [|by destruct Hp].
  destruct Hp as (m & Hw & Hm & _). by exists m.
Qed.

(** ** Nobody waits for ever *)

(** A call that can move takes a turn of the node. *)
Lemma tstep_turn f a l t lab st :
  agrees f a l -> legal_order t (inside f) -> tstep t (inside f) = Some (lab, st) -> exists f', turn f f'.
Proof.
  intros Hag Ho Hs. destruct (tstep_effect _ _ _ _ Hs) as [(r & th & -> & Hth & _)|([->| ->] & _)].
  - destruct t as [|n]; [eexists; by eapply (turn_inner _ evictor_id)|].
    destruct (sim_step _ _ _ _ (ag_sim _ _ _ Hag) ltac:(eapply step_thread; [exact Ho|exact Hs])) as (a' & Ha & _).
    inversion Ha as [| |t0 r0 r' sa pend Hp Heq|]; subst. pose proof (ag_calls _ _ _ Hag n) as Hc. cbn [sp_pend] in Hc.
    rewrite Hp in Hc. destruct (fine_calls f !! n) as [[q p]|] eqn:Hn; [|by destruct (live_calls l !! n)].
    destruct (live_calls l !! n) as [[q' p']|]; [|done]. destruct Hc as [_ Hc]. destruct p as [|B x k]; [done|].
    destruct Hc as (b' & Hb' & _). destruct (answer_same x _ _ _ Heq Hb') as (b & Hb & _).
    eexists. by eapply turn_return.
  - eexists. by eapply turn_inner.
  - eexists. by eapply turn_inner.
Qed.

Definition is_ret {A} (p : prog A) : bool := match p with Ret _ => true | Act _ _ => false end.

Lemma turn_or_answered f a l :
  agrees f a l ->
  (forall n q p, fine_calls f !! n = Some (mk_call q p) -> exists r, p = Ret r) \/ exists f', turn f f'.
Proof.
  intros Hag. pose proof (ag_sim _ _ _ Hag) as Hsim.
  destruct (all_started_dec (inside f)) as [(t & c & sg & Ht & Hsg)|Hall].
  { right. destruct (tstep_holding _ _ _ _ _ Hsim Ht Hsg) as (lab & st & Hs).
    eapply tstep_turn; [exact Hag| |exact Hs]. intros o Ho. rewrite Ho in Ht. by injection Ht as _ <-. }
  destruct (decide (map_Forall (fun _ cl => is_ret (call_prog cl) = true) (fine_calls f)))
    as [Hdone|Hnot].
  { left. intros n q p Hn. apply Hdone in Hn. cbn in Hn. destruct p; [by eexists|done]. }
  right. apply map_not_Forall in Hnot as (n & [q p] & Hn & Hp); [|apply _]. cbn in Hp. destruct p as [r|B x k]; [done|].
  destruct (access_call 0 x) as [c|] eqn:Hx; [|eexists; by eapply (turn_own _ _ 0)].
  destruct (fine_threads f !! S n) as [[c0 sg]|] eqn:Hth; [|eexists; by eapply turn_call].
  pose proof (Hall (S n) c0 sg Hth) as ->. destruct (tstep_started (inside f) (S n) c0 Hall Hth) as (lab & st & Hs).
  eapply tstep_turn; [exact Hag| |exact Hs]. intros o Ho. cbn [inside threads] in Ho. rewrite Hth in Ho.
  injection Ho as ->. by pose proof (sim_evictor _ _ Hsim _ _ _ Hth eq_refl).
Qed.

Lemma turns_run f0 evs m f f' : fine_run f0 evs f -> turns m f f' -> fine_run f0 evs f'.
Proof.
  intros Hr Ht. revert Hr. induction Ht as [f|m f f1 f2 _ IH Ht]; intros Hr; [done|].
  rewrite <- (app_nil_r evs). eapply (fine_next _ _ _ None); [by apply IH|by apply turn_step].
Qed.

(** C39. Every request is answered, at the grain of the store's locks: from any
    reachable node, the handlers in flight and the calls of the store they and the
    evictor are in take, in whatever order, at most ten steps for each access the
    requests may make and nine for each call in flight; and until every one of them
    has its answer some handler or call can move, so no handler waits for ever for
    a lock, for the evictor or for another handler. *)
Theorem handlers_finish (p : P) opts with_repl c evs f m f' :
  pol_inv p -> tracked p = ∅ -> fine_run (fine_boot p opts with_repl c) evs f -> turns m f f' ->
  (Z.of_nat m <= turns_bound f)%Z
  /\ ((forall n q pr, fine_calls f' !! n = Some (mk_call q pr) -> exists r, pr = Ret r) \/ exists f'', turn f' f'').
Proof.
  intros Hp Ht Hr Hts. split.
  - destruct (paced_run _ _ _ _ _ _ Hr) as [w Hw]. destruct (turns_paced _ _ _ _ Hw Hts) as (w' & _ & Hle).
    pose proof (fuel_bound f w Hw). pose proof (fuel_left_nonneg f' w'). lia.
  - destruct (agrees_run _ _ _ _ _ (agrees_boot p opts with_repl c Hp Ht) (turns_run _ _ _ _ _ Hr Hts)) as (a & l & _ & Hag).
    by eapply turn_or_answered.
Qed.

End answers.

(** *** Witness: a write, then a read that hits, one step at a time *)

Lemma play_turns {P T} `{PolicyLaws P} `{ColdTier T} now ns (f f0 f' : Fine P T) m :
  (forall t st, @legal_order P _ _ t st) -> turns m f0 f -> fine_play now (Some <$> ns) f = Some f' -> turns (m + length ns) f0 f'.
Proof.
  intros Hord. revert f m. induction ns as [|n ns IH]; intros f m Ht; cbn [fmap list_fmap fine_play].
  - intros [= <-]. by rewrite Nat.add_0_r.
  - destruct (advance now n f) as [f1|] eqn:E; [|done]. cbn [mbind option_bind length]. intros Hp.
    replace (m + S (length ns)) with (S m + length ns) by lia. apply (IH f1); [|done].
    eapply turns_S; [exact Ht|by eapply advance_turn].
Qed.

Lemma handlers_finish_witness :
  exists f', turns 20 w_two f' /\ turns_bound w_two = 90%Z /\ (20 <= turns_bound w_two)%Z
    /\ ((forall n q pr, fine_calls f' !! n = Some (mk_call q pr) -> exists r, pr = Ret r) \/ exists f'', turn f' f'').
Proof.
  assert (Hq : (fun _ => tt) <$> fine_play 7 (Some <$> (replicate 11 0 ++ replicate 9 1)) w_two = Some tt) by (vm_compute; reflexivity).
  destruct (fine_play 7 (Some <$> (replicate 11 0 ++ replicate 9 1)) w_two) as [f'|] eqn:E; [|discriminate Hq].
  pose proof (play_turns 7 (replicate 11 0 ++ replicate 9 1) w_two w_two f' 0 lru_legal (turns_O w_two) E) as Ht.
  destruct (@handlers_finish LRUPolicy Memory lru_policy lru_laws _ NewLRU
    [WithMaxBytes 4; WithWatermarks (f64_div f64_1 (f64_of_Z 2)) (f64_div f64_1 (f64_of_Z 4))] true (Some NewMemory)
    _ w_two 20 f' lru_inv_new eq_refl w_two_run Ht) as [Hle Hor].
  exists f'. split; [exact Ht|]. split; [vm_compute; reflexivity|]. split; [exact Hle|exact Hor].
Defined.
