(* ===== verification/Ring.v ===== *)
(** The consistent-hash ring: [src/internal/ring/ring.go].

    The circle is the sorted list of virtual points, as in the code, and a lookup
    is [sort.Search] on it.  The reference is the clockwise order of the nodes
    from a key; the theorems say that lookups follow it, that it depends on the
    member set only, and how it moves when a node joins or leaves.  Every method
    holds the ring's lock, so a call is one atomic step. *)

From S2P Require Import Prelude Bytes Sha256.

(** ** sort.Search and sort.Slice *)

(** [sort.Search]'s loop: binary search on [[i, j)]; each round shrinks it. *)
Fixpoint search_loop (fuel : nat) (f : nat -> bool) (i j : nat) : nat :=
  match fuel with
  | O => i
  | S fuel =>
      if i <? j then
        let m := (i + j) / 2 in
        if f m then search_loop fuel f i m else search_loop fuel f (S m) j
      else i
  end.
Definition Search (n : nat) (f : nat -> bool) : nat := search_loop n f 0 n.

(** [vpoint] *)
Record vpoint := mk_vpoint { vp_hash : Z; vp_node : string }.
#[export] Instance vpoint_inhabited : Inhabited vpoint := populate (mk_vpoint 0 "").
#[export] Instance vpoint_eq_decision : EqDecision vpoint.
Proof. solve_decision. Defined.

Definition hash_le (p q : vpoint) : Prop := (vp_hash p <= vp_hash q)%Z.
#[export] Instance hash_le_dec p q : Decision (hash_le p q) := Z_le_dec _ _.
#[export] Instance hash_le_trans : Transitive hash_le.
Proof. intros p q r. unfold hash_le. lia. Qed.
#[export] Instance hash_le_total : Total hash_le.
Proof. intros p q. unfold hash_le. lia. Qed.

(** [sort.Slice] by hash: some ascending permutation; the order of equal hashes is
    not specified. *)
Class SortSlice := {
  sort_points : list vpoint -> list vpoint;
  sort_perm l : sort_points l ≡ₚ l;
  sort_sorted l : StronglySorted hash_le (sort_points l);
}.

Definition merge_SortSlice : SortSlice := {|
  sort_points := merge_sort hash_le;
  sort_perm := merge_sort_Permutation hash_le;
  sort_sorted := StronglySorted_merge_sort hash_le;
|}.

(** ** The ring *)

Record Ring := mk_ring { vnodes : nat; points : list vpoint; members : gset string }.

(** [New]; [None] is the panic on a non-positive count. *)
Definition New (vnodes : Z) : option Ring :=
  if (vnodes <=? 0)%Z then None else Some (mk_ring (Z.to_nat vnodes) [] ∅).

(** [vnodeHash]: the first 8 bytes of the SHA-256 of ["node#i"], big-endian. *)
Definition vnodeHash (node : string) (i : nat) : Z :=
  be_Z (take 8 (hash_bytes (sha256 (bytes_of_string (node +:+ "#" +:+ pretty i))))).

(** [keyHash]: the first 8 bytes, or all of them padded with zeros. *)
Definition keyHash (key : list byte) : Z :=
  if 8 <=? length key then be_Z (take 8 key) else be_Z (key ++ replicate (8 - length key) x00).

Definition node_points (vnodes : nat) (node : string) : list vpoint :=
  (fun i => mk_vpoint (vnodeHash node i) node) <$> seq 0 vnodes.

(** [Add] *)
Definition Add `{SortSlice} (node : string) (r : Ring) : Ring :=
  if decide (node ∈ members r) then r
  else mk_ring (vnodes r) (sort_points (points r ++ node_points (vnodes r) node)) ({[node]} ∪ members r).

(** [Remove] *)
Definition Remove (node : string) (r : Ring) : Ring :=
  if decide (node ∈ members r)
  then mk_ring (vnodes r) (filter (fun p => vp_node p <> node) (points r)) (members r ∖ {[node]})
  else r.

(** The binary search of [Lookup] and [LookupN], with the wrap past the end. *)
Definition start_index (h : Z) (pts : list vpoint) : nat :=
  let idx := Search (length pts) (fun i => (h <=? vp_hash (pts !!! i))%Z) in
  if idx =? length pts then 0 else idx.

(** [Lookup] *)
Definition Lookup (key : list byte) (r : Ring) : string :=
  match points r with
  | [] => ""
  | _ => vp_node (points r !!! start_index (keyHash key) (points r))
  end.

(** The loop of [LookupN], from step [step]. *)
Fixpoint walk (fuel step idx n : nat) (pts : list vpoint) (seen : gset string) (out : list string) : list string :=
  match fuel with
  | O => out
  | S fuel =>
      if length out <? n then
        let node := vp_node (pts !!! ((idx + step) mod length pts)) in
        if decide (node ∈ seen) then walk fuel (S step) idx n pts seen out
        else walk fuel (S step) idx n pts ({[node]} ∪ seen) (out ++ [node])
      else out
  end.

(** [LookupN] *)
Definition LookupN (key : list byte) (n : Z) (r : Ring) : list string :=
  if (length (points r) =? 0) || (n <=? 0)%Z then []
  else
    let idx := start_index (keyHash key) (points r) in
    let n := if (Z.of_nat (size (members r)) <? n)%Z then Z.of_nat (size (members r)) else n in
    walk (length (points r)) 0 idx (Z.to_nat n) (points r) ∅ [].

(** [Nodes], in no particular order *)
Definition Nodes (r : Ring) : gset string := members r.

Inductive ring_op := OAdd (node : string) | ORemove (node : string).
Definition ring_step `{SortSlice} (r : Ring) (op : ring_op) : Ring :=
  match op with OAdd node => Add node r | ORemove node => Remove node r end.
Definition ring_run `{SortSlice} (r : Ring) (ops : list ring_op) : Ring := fold_left ring_step ops r.

(** ** The reference: the clockwise order of the nodes *)

(** The circle read from [h]. *)
Definition circle (h : Z) (pts : list vpoint) : list vpoint :=
  filter (fun p => h <= vp_hash p)%Z pts ++ filter (fun p => vp_hash p < h)%Z pts.

(** First occurrences. *)
Fixpoint nub (seen : gset string) (l : list string) : list string :=
  match l with
  | [] => []
  | x :: l => if decide (x ∈ seen) then nub seen l else x :: nub ({[x]} ∪ seen) l
  end.

Definition owners (key : list byte) (r : Ring) : list string :=
  nub ∅ (vp_node <$> circle (keyHash key) (points r)).

(** Clockwise distance on the 64-bit circle. *)
Definition clockwise (h x : Z) : Z := u64 (x - h).

(** No two members share a position. *)
Definition tie_free (n : nat) (ms : gset string) : Prop :=
  forall a b i j, a ∈ ms -> b ∈ ms -> i < n -> j < n -> vnodeHash a i = vnodeHash b j -> a = b.

(** ** Lemmas on the reference *)

Lemma filter_all {A} (Q : A -> Prop) `{!forall x, Decision (Q x)} (l : list A) : (forall x, x ∈ l -> Q x) -> filter Q l = l.
Proof.
  induction l as [|x l IH]; intros Hq; [done|]. rewrite filter_cons, decide_True by (apply Hq; by left).
  f_equal. apply IH. intros y Hy. apply Hq. by right.
Qed.

Lemma nub_filter x seen l : x ∉ seen -> filter (fun y => y <> x) (nub seen l) = nub seen (filter (fun y => y <> x) l).
Proof.
  revert seen. induction l as [|y l IH]; intros seen Hx; [done|]. cbn [nub]. rewrite (filter_cons _ y l).
  destruct (decide (y = x)) as [->|Hne].
  - rewrite decide_False by done. rewrite filter_cons_False by tauto. rewrite (decide_False (P := x <> x)) by tauto.
    assert (Hgen : forall s1 s2, (forall z, z <> x -> z ∈ s1 <-> z ∈ s2) -> x ∈ s1 ->
      filter (fun y => y <> x) (nub s1 l) = nub s2 (filter (fun y => y <> x) l)).
    { clear. induction l as [|y l IH]; intros s1 s2 Hs Hx; [done|]. cbn [nub]. rewrite (filter_cons _ y l).
      destruct (decide (y = x)) as [->|Hne].
      - rewrite decide_True by done. rewrite (decide_False (P := x <> x)) by tauto. by apply IH.
      - rewrite (decide_True (P := y <> x)) by done. cbn [nub]. destruct (decide (y ∈ s1)) as [Hy|Hy].
        + rewrite decide_True by by apply Hs. by apply IH.
        + rewrite decide_False by by rewrite <- Hs. rewrite filter_cons_True by done. f_equal.
          apply IH; [|set_solver]. intros z Hz. rewrite !elem_of_union, (Hs z Hz). done. }
    apply Hgen; set_solver.
  - rewrite (decide_True (P := y <> x)) by done. cbn [nub]. destruct (decide (y ∈ seen)); [by apply IH|].
    rewrite filter_cons_True by done. f_equal. apply IH. set_solver.
Qed.

Lemma elem_of_nub seen l x : x ∈ nub seen l <-> x ∈ l /\ x ∉ seen.
Proof.
  revert seen. induction l as [|y l IH]; intros seen; cbn [nub].
  - rewrite elem_of_nil. tauto.
  - destruct (decide (y ∈ seen)); rewrite ?elem_of_cons, ?IH; destruct (decide (x = y)); set_solver.
Qed.

Lemma NoDup_nub seen l : NoDup (nub seen l).
Proof.
  revert seen. induction l as [|y l IH]; intros seen; cbn [nub]; [constructor|].
  case_decide; [done|]. constructor; [rewrite elem_of_nub; set_solver|done].
Qed.

Lemma circle_perm h pts : circle h pts ≡ₚ pts.
Proof.
  unfold circle. induction pts as [|p pts IH]; [done|]. rewrite !filter_cons.
  destruct (decide (h <= vp_hash p)%Z), (decide (vp_hash p < h)%Z); try lia; simpl; [by f_equiv|].
  rewrite <- Permutation_middle. by f_equiv.
Qed.

Lemma circle_filter h (Q : vpoint -> Prop) `{!forall p, Decision (Q p)} pts :
  circle h (filter Q pts) = filter Q (circle h pts).
Proof. unfold circle. rewrite filter_app, !list_filter_filter. f_equal; apply list_filter_iff; tauto. Qed.

Lemma filter_map_nodes x (l : list vpoint) :
  vp_node <$> filter (fun p => vp_node p <> x) l = filter (fun y => y <> x) (vp_node <$> l).
Proof.
  induction l as [|p l IH]; [done|]. rewrite fmap_cons, !filter_cons.
  destruct (decide (vp_node p <> x)); [|done]. rewrite fmap_cons. by f_equal.
Qed.

(** ** The binary search finds the cut *)

Lemma search_loop_spec fuel n (f : nat -> bool) i j :
  (forall a b, a <= b < n -> f a = true -> f b = true) -> j - i <= fuel -> i <= j <= n ->
  (forall a, a < i -> f a = false) -> (forall a, j <= a < n -> f a = true) ->
  let r := search_loop fuel f i j in
  r <= n /\ (forall a, a < r -> f a = false) /\ (forall a, r <= a < n -> f a = true).
Proof.
  intros Hmono. revert i j. induction fuel as [|fuel IH]; intros i j Hf Hij Hlo Hhi; cbn [search_loop].
  - split_and!; [lia|done|]. intros a Ha. apply Hhi. lia.
  - destruct (Nat.ltb_spec i j) as [Hlt|Hge]; [|split_and!; [lia|done|intros a Ha; apply Hhi; lia]].
    assert (Hm : i <= (i + j) / 2 < j).
    { split; [apply Nat.div_le_lower_bound; lia|apply Nat.Div0.div_lt_upper_bound; lia]. }
    destruct (f ((i + j) / 2)) eqn:Hfm; apply IH; try lia; try done.
    + intros a Ha. apply (Hmono ((i + j) / 2)); [lia|done].
    + intros a Ha. destruct (f a) eqn:Hfa; [|done]. by rewrite (Hmono a ((i + j) / 2)) in Hfm by (lia || done).
Qed.

(** [sort.Search] returns the least index where a monotone predicate holds. *)
Lemma Search_spec n (f : nat -> bool) :
  (forall a b, a <= b < n -> f a = true -> f b = true) ->
  Search n f <= n /\ (forall a, a < Search n f -> f a = false) /\ (forall a, Search n f <= a < n -> f a = true).
Proof. intros. apply (search_loop_spec n n f 0 n); [done|lia..]. Qed.

Lemma sorted_nth (pts : list vpoint) a b :
  StronglySorted hash_le pts -> a <= b < length pts -> (vp_hash (pts !!! a) <= vp_hash (pts !!! b))%Z.
Proof.
  intros Hs. revert a b. induction Hs as [|p pts Hs IH Hall]; intros a b Hab; [simpl in Hab; lia|].
  simpl length in Hab. destruct a as [|a], b as [|b]; [done| |lia|apply IH; lia].
  cbn. rewrite Forall_forall in Hall. apply Hall.
  apply list_elem_of_lookup_2 with b. apply list_lookup_lookup_total_lt. lia.
Qed.

Lemma filter_cut (Q : vpoint -> Prop) `{!forall p, Decision (Q p)} pts k :
  k <= length pts -> (forall a, a < k -> ~ Q (pts !!! a)) -> (forall a, k <= a < length pts -> Q (pts !!! a)) ->
  filter Q pts = drop k pts /\ filter (fun p => ~ Q p) pts = take k pts.
Proof.
  revert k. induction pts as [|p pts IH]; intros k Hk Hlo Hhi; [by destruct k|].
  rewrite !filter_cons. destruct k as [|k].
  - pose proof (Hhi 0 ltac:(simpl; lia)) as Hp. cbn in Hp. rewrite decide_True by done. rewrite decide_False by tauto.
    destruct (IH 0 ltac:(lia)) as [-> ->]; [lia| |done]. intros a Ha. apply (Hhi (S a)). simpl. lia.
  - pose proof (Hlo 0 ltac:(lia)) as Hp. cbn in Hp. rewrite decide_False by done. rewrite decide_True by done.
    simpl in Hk. destruct (IH k ltac:(lia)) as [-> ->]; [| |done].
    + intros a Ha. apply (Hlo (S a)). lia.
    + intros a Ha. apply (Hhi (S a)). simpl. lia.
Qed.

Lemma start_index_circle h pts :
  StronglySorted hash_le pts -> pts <> [] ->
  start_index h pts < length pts /\ drop (start_index h pts) pts ++ take (start_index h pts) pts = circle h pts.
Proof.
  intros Hs Hne. unfold start_index. set (f := fun i => (h <=? vp_hash (pts !!! i))%Z).
  destruct (Search_spec (length pts) f) as (Hle & Hlo & Hhi).
  { intros a b Hab. unfold f. rewrite !Z.leb_le. pose proof (sorted_nth pts a b Hs Hab). lia. }
  destruct (filter_cut (fun p => h <= vp_hash p)%Z pts (Search (length pts) f)) as [H1 H2]; [done| | |].
  { intros a Ha. specialize (Hlo a Ha). unfold f in Hlo. lia. }
  { intros a Ha. specialize (Hhi a Ha). unfold f in Hhi. lia. }
  assert (Hc : circle h pts = drop (Search (length pts) f) pts ++ take (Search (length pts) f) pts).
  { unfold circle. rewrite <- H1, <- H2. f_equal. apply list_filter_iff. lia. }
  rewrite Hc. destruct (Nat.eqb_spec (Search (length pts) f) (length pts)) as [E|E].
  - split; [destruct pts; [done|simpl; lia]|]. rewrite E, drop_all, firstn_all, drop_0, take_0. by rewrite app_nil_r.
  - split; [lia|done].
Qed.

Lemma rotation_nodes idx (pts : list vpoint) :
  idx < length pts ->
  (fun j => vp_node (pts !!! ((idx + j) mod length pts))) <$> seq 0 (length pts)
  = vp_node <$> (drop idx pts ++ take idx pts).
Proof.
  intros Hi. apply list_eq_same_length with (length pts).
  - rewrite length_fmap, length_app, length_drop, length_take. lia.
  - by rewrite length_fmap, length_seq.
  - intros j x y Hj. rewrite !list_lookup_fmap, lookup_seq_lt by done.
    destruct (decide (idx + j < length pts)).
    + rewrite lookup_app_l by (rewrite length_drop; lia). rewrite lookup_drop.
      rewrite (list_lookup_lookup_total_lt pts (idx + j)) by done. simpl. rewrite Nat.mod_small by done. congruence.
    + rewrite lookup_app_r by (rewrite length_drop; lia). rewrite length_drop, lookup_take_lt by lia.
      rewrite (list_lookup_lookup_total_lt pts) by lia. simpl.
      replace ((idx + j) mod length pts) with (j - (length pts - idx)); [congruence|].
      apply Nat.mod_unique with 1; lia.
Qed.

Lemma walk_spec fuel step idx n pts seen out :
  walk fuel step idx n pts seen out
  = out ++ take (n - length out) (nub seen ((fun j => vp_node (pts !!! ((idx + j) mod length pts))) <$> seq step fuel)).
Proof.
  revert step seen out. induction fuel as [|fuel IH]; intros step seen out.
  - cbn. by rewrite take_nil, app_nil_r.
  - cbn [walk seq]. rewrite fmap_cons. cbn [nub]. set (node := vp_node _).
    destruct (Nat.ltb_spec (length out) n) as [Hlt|Hge].
    + case_decide; rewrite IH; [done|]. rewrite length_app. cbn [length].
      replace (n - length out) with (S (n - (length out + 1))) by lia. cbn [take]. by rewrite <- app_assoc.
    + replace (n - length out) with 0 by lia. by rewrite take_0, app_nil_r.
Qed.

(** ** The invariant *)

Record ring_wf (r : Ring) : Prop := mk_ring_wf {
  rw_vnodes : 0 < vnodes r;
  rw_sorted : StronglySorted hash_le (points r);
  rw_points : points r ≡ₚ elements (members r) ≫= node_points (vnodes r);
}.

Section ring.
Context `{SortSlice}.
Implicit Types (r : Ring) (node : string) (key : list byte).

Lemma node_points_node n node p : p ∈ node_points n node -> vp_node p = node.
Proof. by intros (i & -> & _)%list_elem_of_fmap. Qed.

Lemma elem_of_points r p :
  ring_wf r -> p ∈ points r <-> vp_node p ∈ members r /\ exists i, i < vnodes r /\ vp_hash p = vnodeHash (vp_node p) i.
Proof.
  intros [_ _ Hp]. rewrite Hp, list_elem_of_bind. unfold node_points. split.
  - intros (node & (i & -> & Hi)%list_elem_of_fmap & Hn). apply elem_of_seq in Hi. simpl.
    rewrite elem_of_elements in Hn. split; [done|]. exists i. split; [lia|done].
  - intros (Hn & i & Hi & Hh). exists (vp_node p). rewrite elem_of_elements. split; [|done].
    apply list_elem_of_fmap. exists i. split; [destruct p; simpl in *; by rewrite Hh|]. apply elem_of_seq. lia.
Qed.

Lemma filter_node_points n x node :
  filter (fun p => vp_node p <> x) (node_points n node) = if decide (node = x) then [] else node_points n node.
Proof.
  pose proof (node_points_node n node) as Hn. induction (node_points n node) as [|p l IH]; [by case_decide|].
  rewrite filter_cons, (Hn p) by by left. rewrite IH by (intros q Hq; apply Hn; by right).
  destruct (decide (node = x)); [by rewrite decide_False by tauto|by rewrite decide_True].
Qed.

Lemma filter_bind_points n x (l : list string) :
  filter (fun p => vp_node p <> x) (l ≫= node_points n) = filter (fun y => y <> x) l ≫= node_points n.
Proof.
  induction l as [|y l IH]; [done|]. cbn [mbind list_bind]. rewrite filter_app, filter_node_points, filter_cons.
  fold (mbind (M := list) (node_points n)). rewrite IH.
  destruct (decide (y = x)); [by rewrite decide_False by tauto|by rewrite decide_True].
Qed.

Lemma bind_points_perm n (l l' : list string) : l ≡ₚ l' -> l ≫= node_points n ≡ₚ l' ≫= node_points n.
Proof. intros Hl. by rewrite Hl. Qed.

Lemma StronglySorted_filter (Q : vpoint -> Prop) `{!forall p, Decision (Q p)} l :
  StronglySorted hash_le l -> StronglySorted hash_le (filter Q l).
Proof.
  induction 1 as [|p l Hs IH Hall]; [constructor|]. rewrite filter_cons. case_decide; [|done].
  constructor; [done|]. rewrite Forall_forall in *. intros q [_ Hq]%list_elem_of_filter. by apply Hall.
Qed.

Lemma ring_wf_add node r : ring_wf r -> ring_wf (Add node r).
Proof.
  intros [Hv Hs Hp]. unfold Add. case_decide as Hn; [done|]. split; [done|apply sort_sorted|]. cbn [points vnodes members].
  rewrite sort_perm, Hp, Permutation_app_comm.
  rewrite (bind_points_perm _ (elements ({[node]} ∪ members r)) (node :: elements (members r)));
    [done|by apply elements_union_singleton].
Qed.

Lemma elements_difference (m : gset string) x : elements (m ∖ {[x]}) ≡ₚ filter (fun y => y <> x) (elements m).
Proof.
  apply NoDup_Permutation; [apply NoDup_elements|apply NoDup_filter, NoDup_elements|].
  intros y. rewrite list_elem_of_filter, !elem_of_elements. set_solver.
Qed.

Lemma ring_wf_remove node r : ring_wf r -> ring_wf (Remove node r).
Proof.
  intros [Hv Hs Hp]. unfold Remove. case_decide as Hn; [|done]. split; [done|by apply StronglySorted_filter|].
  cbn [points vnodes members]. rewrite Hp, filter_bind_points. apply bind_points_perm. by rewrite elements_difference.
Qed.

Lemma ring_wf_run r ops : ring_wf r -> ring_wf (ring_run r ops).
Proof.
  revert r. induction ops as [|[node|node] ops IH]; intros r Hr; [done|..]; apply IH;
    [by apply ring_wf_add|by apply ring_wf_remove].
Qed.

Lemma ring_wf_new n r : New n = Some r -> ring_wf r.
Proof.
  unfold New. destruct (Z.leb_spec n 0); [done|]. intros [= <-]. split; cbn; [lia|constructor|].
  by rewrite elements_empty.
Qed.

Lemma vnodes_add x r : vnodes (Add x r) = vnodes r.
Proof. unfold Add. by case_decide. Qed.
Lemma vnodes_remove x r : vnodes (Remove x r) = vnodes r.
Proof. unfold Remove. by case_decide. Qed.
Lemma members_add x r : members (Add x r) = {[x]} ∪ members r.
Proof. unfold Add. case_decide; [set_solver|done]. Qed.
Lemma members_remove x r : members (Remove x r) = members r ∖ {[x]}.
Proof. unfold Remove. case_decide; [done|set_solver]. Qed.

Lemma vnodes_run r ops : vnodes (ring_run r ops) = vnodes r.
Proof.
  revert r. induction ops as [|op ops IH]; intros r; [done|]. cbn [ring_run fold_left]. etrans; [apply IH|].
  destruct op; [apply vnodes_add|apply vnodes_remove].
Qed.

(** *** The owners *)

Lemma elem_of_owners key r x : ring_wf r -> x ∈ owners key r <-> x ∈ members r.
Proof.
  intros Hw. unfold owners. rewrite elem_of_nub, list_elem_of_fmap. split.
  - intros [(p & -> & Hp) _]. rewrite circle_perm in Hp. by apply elem_of_points in Hp as [? _].
  - intros Hx. split; [|set_solver]. exists (mk_vpoint (vnodeHash x 0) x). split; [done|].
    rewrite circle_perm. apply elem_of_points; [done|]. split; [done|]. exists 0. split; [apply Hw|done].
Qed.

Lemma length_owners key r : ring_wf r -> length (owners key r) = size (members r).
Proof.
  intros Hw. unfold size, set_size. apply Permutation_length. simpl. apply NoDup_Permutation; [apply NoDup_nub|apply NoDup_elements|].
  intros x. by rewrite elem_of_owners, elem_of_elements.
Qed.

Lemma LookupN_owners key n r : ring_wf r -> LookupN key n r = take (Z.to_nat n) (owners key r).
Proof.
  intros Hw. unfold LookupN. destruct (Z.leb_spec n 0) as [Hn|Hn].
  { rewrite orb_true_r. by replace (Z.to_nat n) with 0 by lia. }
  rewrite orb_false_r. destruct (Nat.eqb_spec (length (points r)) 0) as [E|E].
  { apply nil_length_inv in E. unfold owners. rewrite E. cbn. by rewrite take_nil. }
  assert (Hne : points r <> []) by (intros E'; by rewrite E' in E).
  destruct (start_index_circle (keyHash key) (points r) (rw_sorted r Hw) Hne) as [Hi Hc].
  rewrite walk_spec, rotation_nodes, Hc by done. rewrite app_nil_l. cbn [length]. rewrite Nat.sub_0_r.
  fold (owners key r). destruct (Z.ltb_spec (Z.of_nat (size (members r))) n); [|done].
  rewrite !take_ge; [done|rewrite length_owners by done; lia..].
Qed.

Lemma Lookup_owners key r : ring_wf r -> Lookup key r = default "" (head (owners key r)).
Proof.
  intros Hw. unfold Lookup. destruct (points r) as [|p0 l] eqn:E; [by unfold owners; rewrite E|]. rewrite <- E.
  assert (Hne : points r <> []) by by rewrite E.
  destruct (start_index_circle (keyHash key) (points r) (rw_sorted r Hw) Hne) as [Hi Hc].
  unfold owners. rewrite <- Hc.
  rewrite (drop_S (points r) (points r !!! start_index (keyHash key) (points r))) by by apply list_lookup_lookup_total_lt.
  cbn. rewrite decide_False by set_solver. done.
Qed.

Lemma owners_remove x key r : ring_wf r -> owners key (Remove x r) = filter (fun y => y <> x) (owners key r).
Proof.
  intros Hw. unfold Remove. case_decide as Hx.
  - unfold owners. cbn [points]. rewrite circle_filter, filter_map_nodes. symmetry. by apply nub_filter.
  - symmetry. apply filter_all. intros y Hy. rewrite elem_of_owners in Hy by done. by intros ->.
Qed.

(** Without ties the points are determined by the member set, whatever the sort. *)
Lemma points_unique r r' :
  ring_wf r -> ring_wf r' -> vnodes r = vnodes r' -> members r = members r' -> tie_free (vnodes r) (members r) ->
  points r = points r'.
Proof.
  intros Hw Hw' Hv Hm Ht. apply (StronglySorted_unique_strong hash_le).
  - intros p q Hp Hq Hpq Hqp. assert (Hh : vp_hash p = vp_hash q) by (unfold hash_le in *; lia).
    apply elem_of_points in Hp as (Hp & i & Hi & Hpi); [|done].
    apply elem_of_points in Hq as (Hq & j & Hj & Hqj); [|done]. rewrite <- Hv, <- Hm in *.
    assert (vp_node p = vp_node q) by (apply (Ht _ _ i j); congruence). destruct p, q; simpl in *; congruence.
  - apply Hw.
  - apply Hw'.
  - rewrite (rw_points r Hw), (rw_points r' Hw'). by rewrite Hv, Hm.
Qed.

Lemma owners_add x key r :
  ring_wf r -> x ∉ members r -> tie_free (vnodes r) (members r) ->
  owners key r = filter (fun y => y <> x) (owners key (Add x r)).
Proof.
  intros Hw Hx Ht. pose proof (ring_wf_add x r Hw) as Hw1. rewrite <- owners_remove by done.
  unfold owners. rewrite (points_unique r (Remove x (Add x r))); [done|done|by apply ring_wf_remove| | |done].
  - by rewrite vnodes_remove, vnodes_add.
  - rewrite members_remove, members_add. set_solver.
Qed.

(** *** Clockwise order *)

Lemma be8_range bs : length bs = 8 -> (0 <= be_Z bs < 2 ^ 64)%Z.
Proof. intros Hl. pose proof (be_Z_range bs) as Hr. by rewrite Hl in Hr. Qed.

Lemma vnodeHash_range node i : (0 <= vnodeHash node i < 2 ^ 64)%Z.
Proof. apply be8_range. rewrite length_take, length_hash_bytes. lia. Qed.

Lemma keyHash_range key : (0 <= keyHash key < 2 ^ 64)%Z.
Proof.
  unfold keyHash. destruct (Nat.leb_spec 8 (length key)); apply be8_range.
  - rewrite length_take. lia.
  - rewrite length_app, length_replicate. lia.
Qed.

Lemma circle_sorted h r :
  (0 <= h < 2 ^ 64)%Z -> ring_wf r ->
  StronglySorted (fun p q => clockwise h (vp_hash p) <= clockwise h (vp_hash q))%Z (circle h (points r)).
Proof.
  intros Hh Hw.
  assert (Hr : forall p, p ∈ points r -> (0 <= vp_hash p < 2 ^ 64)%Z).
  { intros p (_ & i & _ & ->)%elem_of_points; [|done]. apply vnodeHash_range. }
  assert (Hge : forall p, p ∈ points r -> (h <= vp_hash p)%Z -> clockwise h (vp_hash p) = (vp_hash p - h)%Z).
  { intros p Hp Hle. specialize (Hr p Hp). apply Z.mod_small. lia. }
  assert (Hlt : forall p, p ∈ points r -> (vp_hash p < h)%Z -> clockwise h (vp_hash p) = (vp_hash p - h + 2 ^ 64)%Z).
  { intros p Hp Hl. specialize (Hr p Hp). unfold clockwise, u64. symmetry. apply Z.mod_unique with (-1)%Z; lia. }
  assert (Hmap : forall l, StronglySorted hash_le l -> (forall p, p ∈ l -> p ∈ points r) ->
     ((forall p, p ∈ l -> h <= vp_hash p) \/ (forall p, p ∈ l -> vp_hash p < h))%Z ->
     StronglySorted (fun p q => clockwise h (vp_hash p) <= clockwise h (vp_hash q))%Z l).
  { induction 1 as [|p l Hs IH Hall]; intros Hin Hc; [constructor|]. constructor.
    - apply IH; [intros q Hq; apply Hin; by right|]. destruct Hc as [Hc|Hc]; [left|right]; intros q Hq; apply Hc; by right.
    - rewrite Forall_forall in *. intros q Hq. specialize (Hall q Hq). unfold hash_le in Hall.
      pose proof (Hin p ltac:(by left)) as Hp. pose proof (Hin q ltac:(by right)) as Hq'.
      destruct Hc as [Hc|Hc]; [rewrite !Hge by (done || apply Hc; by (left || right))
                              |rewrite !Hlt by (done || apply Hc; by (left || right))]; lia. }
  unfold circle. apply StronglySorted_app_2.
  - intros p q [Hp1 Hp]%list_elem_of_filter [Hq1 Hq]%list_elem_of_filter. rewrite Hge, Hlt by done.
    pose proof (Hr p Hp). pose proof (Hr q Hq). lia.
  - apply Hmap; [apply StronglySorted_filter, Hw|by intros p [_ ?]%list_elem_of_filter|].
    left. by intros p [? _]%list_elem_of_filter.
  - apply Hmap; [apply StronglySorted_filter, Hw|by intros p [_ ?]%list_elem_of_filter|].
    right. by intros p [? _]%list_elem_of_filter.
Qed.

(** Each first occurrence precedes every later node's points. *)
Lemma nub_closest (R : vpoint -> vpoint -> Prop) l seen i a q :
  (forall p, R p p) -> StronglySorted R l -> nub seen (vp_node <$> l) !! i = Some a ->
  q ∈ l -> vp_node q ∉ seen -> vp_node q ∉ take i (nub seen (vp_node <$> l)) ->
  exists p, p ∈ l /\ vp_node p = a /\ R p q.
Proof.
  intros Hrefl Hs. revert seen i. induction Hs as [|p l Hs IH Hall]; intros seen i; [done|].
  rewrite fmap_cons. cbn [nub]. destruct (decide (vp_node p ∈ seen)) as [Hp|Hp].
  - intros Hi Hq Hn Ht. apply elem_of_cons in Hq as [->|Hq]; [done|].
    destruct (IH seen i Hi Hq Hn Ht) as (p' & ? & ?). exists p'. split; [by right|done].
  - destruct i as [|i].
    + intros [= <-] Hq _ _. exists p. split; [by left|]. split; [done|].
      apply elem_of_cons in Hq as [->|Hq]; [done|]. rewrite Forall_forall in Hall. by apply Hall.
    + cbn [take]. intros Hi Hq Hn [Hne Ht]%not_elem_of_cons.
      apply elem_of_cons in Hq as [->|Hq]; [done|].
      destruct (IH _ i Hi Hq ltac:(set_solver) Ht) as (p' & ? & ?). exists p'. split; [by right|done].
Qed.

End ring.

(** ** Properties *)

Section properties.
Context `{SortSlice} (n : Z) (r0 : Ring) (Hnew : New n = Some r0) (ops : list ring_op).

(** The ring after any joins and leaves. *)
Let r : Ring := ring_run r0 ops.

Lemma ring_reached_wf : ring_wf r.
Proof. apply ring_wf_run. by apply (ring_wf_new n). Qed.

(** C18. Placement: [LookupN] names distinct members, as many as asked for or all
    of them, the owner [Lookup] names first; asking for more keeps the ones named
    before; and each one named is, among the members not named before it, one
    with a virtual point at the least clockwise distance from the key. *)
Theorem lookupN_clockwise key k :
  let out := LookupN key k r in
  NoDup out
  /\ length out = Nat.min (Z.to_nat k) (size (members r))
  /\ (forall m, k <= m -> out `prefix_of` LookupN key m r)%Z
  /\ (0 < k -> head out = if decide (members r = ∅) then None else Some (Lookup key r))%Z
  /\ forall i a b j, out !! i = Some a -> b ∈ members r -> b ∉ take i out -> j < vnodes r ->
       a ∈ members r /\ exists j', j' < vnodes r
         /\ (clockwise (keyHash key) (vnodeHash a j') <= clockwise (keyHash key) (vnodeHash b j))%Z.
Proof.
  pose proof ring_reached_wf as Hw. rewrite LookupN_owners by done. cbv zeta. split_and!.
  - eapply sublist_NoDup; [apply NoDup_nub|apply sublist_take].
  - rewrite length_take, length_owners by done. lia.
  - intros m Hm. rewrite LookupN_owners by done. exists (take (Z.to_nat m - Z.to_nat k) (drop (Z.to_nat k) (owners key r))).
    replace (Z.to_nat m) with (Z.to_nat k + (Z.to_nat m - Z.to_nat k)) at 1 by lia. symmetry. apply take_take_drop.
  - intros Hk. rewrite Lookup_owners by done. pose proof (length_owners key r Hw) as Hl.
    destruct (owners key r) as [|x l]; rewrite ?take_nil.
    + rewrite decide_True; [done|]. symmetry in Hl. apply size_empty_inv in Hl. set_solver.
    + rewrite decide_False; [by destruct (Z.to_nat k) eqn:E; [lia|]|].
      intros E. rewrite E, size_empty in Hl. done.
  - intros i a b j Hi Hb Hnb Hj. apply lookup_take_Some in Hi as [Hi Hik].
    rewrite take_take, Nat.min_l in Hnb by lia.
    assert (Ha : a ∈ members r) by (apply (elem_of_owners key); [done|by eapply list_elem_of_lookup_2]).
    split; [done|].
    destruct (nub_closest (fun p q => clockwise (keyHash key) (vp_hash p) <= clockwise (keyHash key) (vp_hash q))%Z
                (circle (keyHash key) (points r)) ∅ i a (mk_vpoint (vnodeHash b j) b)) as (p & Hp & Hpa & Hle);
      [intros ?; lia|by apply circle_sorted; [apply keyHash_range|]|done| |set_solver|done|].
    + rewrite circle_perm. apply elem_of_points; [done|]. split; [done|]. by exists j.
    + rewrite circle_perm in Hp. apply elem_of_points in Hp as (_ & j' & Hj' & Hh); [|done].
      exists j'. split; [done|]. by rewrite <- Hpa, <- Hh.
Qed.

(** C19. Failover: when a node leaves, the owners of every key are the owners from
    before without it, in the same order; so a key moves only if it was the
    leaver's, and then to the replica it had. *)
Theorem remove_fails_over x key k :
  LookupN key k (Remove x r)
  = take (Z.to_nat k) (filter (fun y => y <> x) (LookupN key (Z.of_nat (size (members r))) r))
  /\ (Lookup key r <> x -> Lookup key (Remove x r) = Lookup key r)
  /\ (Lookup key r = x -> Lookup key (Remove x r) = default "" (LookupN key 2 r !! 1)).
Proof.
  pose proof ring_reached_wf as Hw. pose proof (ring_wf_remove x r Hw) as Hw'.
  rewrite !LookupN_owners, !Lookup_owners, owners_remove by done.
  rewrite Nat2Z.id, (take_ge (owners key r) (size _)) by by rewrite length_owners.
  split; [done|]. pose proof (NoDup_nub ∅ (vp_node <$> circle (keyHash key) (points r))) as Hnd.
  fold (owners key r) in Hnd. destruct (owners key r) as [|y l]; [done|]. cbn [head default from_option id].
  rewrite filter_cons. split.
  - intros Hy. by rewrite decide_True.
  - intros ->. rewrite decide_False by tauto. apply NoDup_cons in Hnd as [Hx _].
    rewrite filter_all; [by destruct l|]. intros z Hz ->. done.
Qed.

(** Minimal movement: when a node joins, and no two members share a position,
    the owners of every key are the owners from before with the joiner somewhere
    among them; so a key moves only to the joiner. *)
Theorem add_moves_only_to_joiner x key :
  x ∉ members r -> tie_free (vnodes r) (members r) ->
  LookupN key (Z.of_nat (size (members r))) r
  = filter (fun y => y <> x) (LookupN key (Z.of_nat (S (size (members r)))) (Add x r))
  /\ (Lookup key (Add x r) = x \/ Lookup key (Add x r) = Lookup key r).
Proof.
  intros Hx Ht. pose proof ring_reached_wf as Hw. pose proof (ring_wf_add x r Hw) as Hw'.
  assert (Hsz : size (members (Add x r)) = S (size (members r))).
  { rewrite members_add, size_union by set_solver. by rewrite size_singleton. }
  rewrite !LookupN_owners, !Lookup_owners by done.
  rewrite !take_ge by (rewrite length_owners by done; lia). pose proof (owners_add x key r Hw Hx Ht) as Ho.
  split; [done|]. rewrite Ho. destruct (owners key (Add x r)) as [|y l]; [by right|]. cbn [head default from_option id].
  rewrite filter_cons. case_decide as Hy; [by right|]. left. destruct (decide (y = x)); [done|tauto].
Qed.

(** Every process computes the same ring: two rings with the same number of
    virtual nodes that reached the same member set, by whatever joins and leaves
    and with whatever order [sort.Slice] gives to equal keys, have the same circle
    and answer every lookup alike, when no two members share a position. *)
Theorem ring_agreement (S' : SortSlice) ops' key k :
  let r' := @ring_run S' r0 ops' in
  members r' = members r -> tie_free (vnodes r) (members r) ->
  points r' = points r /\ Lookup key r' = Lookup key r /\ LookupN key k r' = LookupN key k r.
Proof.
  intros r' Hm Ht. pose proof ring_reached_wf as Hw.
  assert (Hw' : ring_wf r') by (apply ring_wf_run; by apply (ring_wf_new n)).
  assert (Hp : points r = points r').
  { apply points_unique; try done. unfold r, r'. by rewrite !vnodes_run. }
  split; [done|]. unfold Lookup, LookupN. by rewrite <- Hp, Hm.
Qed.

End properties.

(** ** Witnesses: rings of one and two shards *)

Definition w_ring0 : Ring := mk_ring 2 [] ∅.
Definition w_key : list byte := [x01; x02].
Abbreviation w_ring ops := (@ring_run merge_SortSlice w_ring0 ops).

Lemma lookupN_clockwise_witness :
  New 2 = Some w_ring0 /\ NoDup (LookupN w_key 2 (w_ring [OAdd "shard-0"; OAdd "shard-1"])).
Proof.
  split; [reflexivity|].
  apply (@lookupN_clockwise merge_SortSlice 2 w_ring0 eq_refl [OAdd "shard-0"; OAdd "shard-1"] w_key 2).
Defined.

Abbreviation w_ring2 := (w_ring [OAdd "shard-0"; OAdd "shard-1"]).
Abbreviation w_ring1 := (w_ring [OAdd "shard-0"]).

Lemma remove_fails_over_witness :
  LookupN w_key 1 (Remove "shard-1" w_ring2)
  = take (Z.to_nat 1) (filter (fun y => y <> "shard-1"%string) (LookupN w_key (Z.of_nat (size (members w_ring2))) w_ring2)).
Proof.
  exact (proj1 (@remove_fails_over merge_SortSlice 2 w_ring0 eq_refl [OAdd "shard-0"; OAdd "shard-1"] "shard-1" w_key 1)).
Defined.

Lemma w_tie_free : tie_free 2 {["shard-0"]}.
Proof. intros a b i j ->%elem_of_singleton ->%elem_of_singleton _ _ _. reflexivity. Qed.

Lemma add_moves_only_to_joiner_witness :
  Lookup w_key (@Add merge_SortSlice "shard-1" w_ring1) = "shard-1"
  \/ Lookup w_key (@Add merge_SortSlice "shard-1" w_ring1) = Lookup w_key w_ring1.
Proof.
  assert (Hm : members (w_ring [OAdd "shard-0"]) = {["shard-0"]}) by apply (right_id_L ∅ (∪)).
  apply (@add_moves_only_to_joiner merge_SortSlice 2 w_ring0 eq_refl [OAdd "shard-0"] "shard-1" w_key).
  - intros Hin. cbv zeta in Hin. rewrite Hm in Hin. apply elem_of_singleton in Hin. discriminate Hin.
  - cbv zeta. rewrite Hm. exact w_tie_free.
Defined.

Lemma ring_agreement_witness :
  Lookup w_key (w_ring [OAdd "shard-1"; OAdd "shard-0"; ORemove "shard-1"]) = Lookup w_key (w_ring [OAdd "shard-0"]).
Proof.
  assert (Hm : members (w_ring [OAdd "shard-0"]) = {["shard-0"]}) by apply (right_id_L ∅ (∪)).
  assert (Hm' : members (w_ring [OAdd "shard-1"; OAdd "shard-0"; ORemove "shard-1"]) = {["shard-0"]}).
  { cbn [ring_run fold_left ring_step]. rewrite members_remove, !members_add. change (members w_ring0) with (∅ : gset string). set_solver. }
  refine (proj1 (proj2 (@ring_agreement merge_SortSlice 2 w_ring0 eq_refl [OAdd "shard-0"] merge_SortSlice
           [OAdd "shard-1"; OAdd "shard-0"; ORemove "shard-1"] w_key 2 _ _))).
  - rewrite Hm. exact Hm'.
  - cbv zeta. rewrite Hm. exact w_tie_free.
Defined.
