(* ===== verification/Router.v ===== *)
(** Client-side routing: [src/internal/cluster/router.go].

    A router is a ring and a connection pool guarded by one lock, so each method
    is one atomic step on the pair.  Connections are objects: each dial yields a
    fresh one, and the model records which have been closed. *)

From S2P Require Import Prelude Bytes Ring.

(** [Member] *)
Record Member := mk_member { ID : string; Addr : string }.

(** A [*grpc.ClientConn]: its identity and the target it was dialed with. *)
Record conn := mk_conn { conn_id : nat; conn_target : string }.
#[export] Instance conn_eq_decision : EqDecision conn.
Proof. solve_decision. Defined.

(** [Router]; [dialed] counts the connections made so far and [closed] holds the
    identities of those closed. *)
Record Router := mk_router {
  ring : Ring;
  pool : gmap string conn;
  dialed : nat;
  closed : gset nat;
}.

(** [grpc.NewClient], which is lazy: it fails only on a malformed target. *)
Class Dialer := { target_ok : string -> bool }.

(** The order in which a [range] visits the keys of the pool. *)
Definition PoolRange : Type := gmap string conn -> list string.
Definition pool_range_ok (rg : PoolRange) : Prop := forall m, rg m ≡ₚ (map_to_list m).*1.

Section router.
Context `{SortSlice} `{Dialer}.
Implicit Types (r : Router) (m : list Member).

(** [New]; [None] is [ring.New]'s panic. *)
Definition New (vnodes : Z) : option Router := (fun rg => mk_router rg ∅ 0 ∅) <$> Ring.New vnodes.

(** One round of [SetMembers]'s add pass. *)
Definition add_member (r : Router) (mem : Member) : Router :=
  match pool r !! ID mem with
  | Some _ => r
  | None =>
      if target_ok (Addr mem)
      then mk_router (Add (ID mem) (ring r)) (<[ID mem := mk_conn (dialed r) (Addr mem)]> (pool r))
             (S (dialed r)) (closed r)
      else r
  end.

(** [conn.Close()] of a pooled connection, and its error: already closed. *)
Definition close_conn (c : conn) (r : Router) : bool * Router :=
  (bool_decide (conn_id c ∈ closed r), mk_router (ring r) (pool r) (dialed r) ({[conn_id c]} ∪ closed r)).

(** One round of the remove pass. *)
Definition drop_member (desired : gset string) (r : Router) (id : string) : Router :=
  match pool r !! id with
  | None => r
  | Some c =>
      if decide (id ∈ desired) then r
      else let r := mk_router (Remove id (ring r)) (pool r) (dialed r) (closed r) in
           let '(_, r) := close_conn c r in
           mk_router (ring r) (delete id (pool r)) (dialed r) (closed r)
  end.

(** [SetMembers] *)
Definition SetMembers (rg : PoolRange) (m : list Member) (r : Router) : Router :=
  let desired : gset string := list_to_set (ID <$> m) in
  let r := fold_left add_member m r in
  fold_left (drop_member desired) (rg (pool r)) r.

(** [OwnerConn] *)
Definition OwnerConn (key : list byte) (r : Router) : option conn :=
  let node := Lookup key (ring r) in
  if decide (node = "") then None else pool r !! node.

(** [OwnerConns] *)
Definition OwnerConns (key : list byte) (n : Z) (r : Router) : list conn :=
  omap (fun id => pool r !! id) (LookupN key n (ring r)).

(** [OwnersN], [ConnFor], [Owner] *)
Definition OwnersN (key : list byte) (n : Z) (r : Router) : list string := LookupN key n (ring r).
Definition ConnFor (id : string) (r : Router) : option conn := pool r !! id.
Definition Owner (key : list byte) (r : Router) : string * bool :=
  let node := Lookup key (ring r) in (node, bool_decide (node <> "")).

(** [Close]: whether some connection reported an error, and the router. *)
Definition close_round (acc : bool * Router) (id : string) : bool * Router :=
  let '(err, r) := acc in
  match pool r !! id with
  | None => (err, r)
  | Some c =>
      let '(e, r) := close_conn c r in
      (err || e, mk_router (ring r) (delete id (pool r)) (dialed r) (closed r))
  end.
Definition Close (rg : PoolRange) (r : Router) : bool * Router := fold_left close_round (rg (pool r)) (false, r).

(** ** Invariant *)

Record router_wf (r : Router) : Prop := mk_router_wf {
  rt_ring : ring_wf (ring r);
  rt_members : members (ring r) = dom (pool r);
  rt_open id c : pool r !! id = Some c -> conn_id c < dialed r /\ conn_id c ∉ closed r;
  rt_inj id id' c c' : pool r !! id = Some c -> pool r !! id' = Some c' -> conn_id c = conn_id c' -> id = id';
  rt_no_leak i : i < dialed r -> i ∉ closed r -> exists id c, pool r !! id = Some c /\ conn_id c = i;
  rt_closed i : i ∈ closed r -> i < dialed r;
}.

Lemma router_wf_new vnodes r : New vnodes = Some r -> router_wf r.
Proof.
  unfold New. destruct (Ring.New vnodes) as [rg|] eqn:E; [|done]. intros [= <-].
  split; cbn; try set_solver.
  - by apply (ring_wf_new vnodes).
  - unfold Ring.New in E. destruct (vnodes <=? 0)%Z; [done|]. by injection E as <-.
  - lia.
Qed.

Lemma router_wf_add r mem : router_wf r -> router_wf (add_member r mem).
Proof.
  intros [Hr Hm Ho Hi Hl Hc]. unfold add_member. destruct (pool r !! ID mem) as [c|] eqn:Hp; [done|].
  destruct (target_ok (Addr mem)); [|done]. split; cbn [ring pool dialed closed].
  - by apply ring_wf_add.
  - by rewrite members_add, Hm, dom_insert_L.
  - intros id c [[<- <-]|[Hne Hid]]%lookup_insert_Some; cbn [conn_id].
    + split; [lia|]. intros Hin. apply Hc in Hin. lia.
    + apply Ho in Hid as [? ?]. split; [lia|done].
  - intros id id' c c' [[<- <-]|[Hne Hid]]%lookup_insert_Some [[<- <-]|[Hne' Hid']]%lookup_insert_Some; cbn [conn_id].
    + done.
    + apply Ho in Hid' as [? _]. lia.
    + apply Ho in Hid as [? _]. lia.
    + by apply Hi.
  - intros i Hlt Hn. destruct (decide (i = dialed r)) as [->|Hne].
    + exists (ID mem), (mk_conn (dialed r) (Addr mem)). by rewrite lookup_insert_eq.
    + destruct (Hl i ltac:(lia) Hn) as (id & c & Hid & <-). exists id, c. split; [|done].
      rewrite lookup_insert_ne; congruence.
  - intros i Hin. apply Hc in Hin. lia.
Qed.

(** Removing a pooled member and closing its connection. *)
Lemma router_wf_drop desired r id : router_wf r -> router_wf (drop_member desired r id).
Proof.
  intros Hw. unfold drop_member. destruct (pool r !! id) as [c|] eqn:Hp; [|done]. case_decide; [done|].
  destruct Hw as [Hr Hm Ho Hi Hl Hc]. cbn. split; cbn [ring pool dialed closed].
  - by apply ring_wf_remove.
  - by rewrite members_remove, Hm, dom_delete_L.
  - intros id' c' [Hne Hid]%lookup_delete_Some. destruct (Ho _ _ Hid) as [? ?]. split; [done|].
    apply not_elem_of_union. split; [|done]. rewrite elem_of_singleton. intros Heq.
    by apply Hne, (Hi id id' c c').
  - intros a b ca cb [_ Ha]%lookup_delete_Some [_ Hb]%lookup_delete_Some. by apply Hi.
  - intros i Hlt [Hn1 Hn]%not_elem_of_union. destruct (Hl i Hlt Hn) as (id' & c' & Hid & <-).
    exists id', c'. split; [|done]. apply lookup_delete_Some. split; [|done]. intros ->.
    rewrite Hp in Hid. injection Hid as ->. set_solver.
  - intros i [->%elem_of_singleton|Hin]%elem_of_union; [by apply (Ho id)|by apply Hc].
Qed.

Lemma router_wf_set rg m r : router_wf r -> router_wf (SetMembers rg m r).
Proof.
  intros Hw. unfold SetMembers. set (d := list_to_set _). set (r1 := fold_left add_member m r).
  assert (Hw1 : router_wf r1).
  { unfold r1. clear d. revert r Hw r1. induction m as [|mem m IH]; intros r Hw; [done|]. by apply IH, router_wf_add. }
  revert Hw1. generalize r1 (rg (pool r1)). clear. intros r l. revert r.
  induction l as [|id l IH]; intros r Hw; [done|]. by apply IH, router_wf_drop.
Qed.

(** *** What the two passes leave in the pool *)

Lemma add_pass_pool m r id :
  pool (fold_left add_member m r) !! id
  = match pool r !! id with
    | Some c => Some c
    | None => pool (fold_left add_member m r) !! id
    end
  /\ (is_Some (pool (fold_left add_member m r) !! id) <->
      is_Some (pool r !! id) \/ exists mem, mem ∈ m /\ ID mem = id /\ target_ok (Addr mem) = true).
Proof.
  revert r. induction m as [|mem m IH]; intros r; cbn [fold_left].
  { split; [by destruct (pool r !! id)|]. split; [by left|]. intros [?|(mem & Hin & _)]; [done|]. by apply elem_of_nil in Hin. }
  destruct (IH (add_member r mem)) as [H1 H2].
  assert (Ha : pool (add_member r mem) !! id
    = match pool r !! id with
      | Some c => Some c
      | None => if decide (ID mem = id /\ target_ok (Addr mem) = true) then Some (mk_conn (dialed r) (Addr mem)) else None
      end).
  { unfold add_member. destruct (pool r !! ID mem) as [c0|] eqn:Hp.
    - destruct (pool r !! id) eqn:Hid; [done|]. rewrite decide_False; [done|]. intros [<- _]. congruence.
    - destruct (target_ok (Addr mem)) eqn:Ht; cbn [pool].
      + destruct (decide (ID mem = id)) as [<-|Hne].
        * rewrite lookup_insert_eq, Hp. by rewrite decide_True.
        * rewrite lookup_insert_ne by done. destruct (pool r !! id); [done|]. rewrite decide_False; [done|tauto].
      + destruct (pool r !! id); [done|]. rewrite decide_False; [done|]. by intros []. }
  split.
  - destruct (pool r !! id) as [c|]; [|done]. rewrite H1, Ha. done.
  - rewrite H2, Ha. clear. destruct (pool r !! id) as [c|].
    + split; intros _; left; by eexists.
    + case_decide as Hd.
      * split; [|by left; eexists]. intros _. right. exists mem. split; [by left|tauto].
      * split; [intros [[? ?]|(mem' & ? & ?)]; [done|right; exists mem'; split; [by right|done]]|].
        intros [[? ?]|(mem' & [->|?]%elem_of_cons & ?)]; [done|tauto|]. right. by exists mem'.
Qed.

Lemma drop_pass_pool d l r id :
  pool (fold_left (drop_member d) l r) !! id = if decide (id ∈ l /\ id ∉ d) then None else pool r !! id.
Proof.
  revert r. induction l as [|x l IH]; intros r; cbn [fold_left].
  { rewrite decide_False; [done|]. intros [Hin _]. by apply elem_of_nil in Hin. }
  rewrite IH. destruct (decide (id ∈ l /\ id ∉ d)) as [Hd|Hd].
  { rewrite decide_True; [done|]. set_solver. }
  unfold drop_member. destruct (pool r !! x) as [c|] eqn:Hx.
  - destruct (decide (x ∈ d)) as [Hxd|Hxd]; cbn [pool close_conn].
    + rewrite decide_False; [done|]. set_solver.
    + destruct (decide (id = x)) as [->|Hne].
      * rewrite lookup_delete_eq, decide_True; [done|]. set_solver.
      * rewrite lookup_delete_ne by done. rewrite decide_False; [done|]. set_solver.
  - case_decide as Hd'; [|done]. assert (id = x) as -> by set_solver. done.
Qed.

Lemma elem_of_range rg (m : gmap string conn) id : pool_range_ok rg -> id ∈ rg m <-> is_Some (m !! id).
Proof.
  intros Hrg. rewrite (Hrg m), list_elem_of_fmap. split.
  - intros ([k c] & -> & Hin). apply elem_of_map_to_list in Hin. by eexists.
  - intros [c Hc]. exists (id, c). split; [done|]. by apply elem_of_map_to_list.
Qed.

Lemma set_pool rg m r id :
  pool_range_ok rg ->
  pool (SetMembers rg m r) !! id
  = if decide (id ∈ ID <$> m) then pool (fold_left add_member m r) !! id else None.
Proof.
  intros Hrg. unfold SetMembers. cbv zeta. rewrite drop_pass_pool. set (r1 := fold_left add_member m r).
  assert (Hd : id ∉ (list_to_set (ID <$> m) : gset string) <-> id ∉ ID <$> m) by by rewrite elem_of_list_to_set.
  pose proof (elem_of_range rg (pool r1) id Hrg) as Hr.
  destruct (decide (id ∈ ID <$> m)); [rewrite decide_False by tauto; done|].
  case_decide as Hx; [done|]. destruct (pool r1 !! id); [|done]. exfalso. apply Hx. split; [|tauto].
  apply Hr. by eexists.
Qed.

Lemma members_set rg m r :
  pool_range_ok rg -> router_wf r -> (forall mem, mem ∈ m -> target_ok (Addr mem) = true) ->
  forall id, id ∈ members (ring (SetMembers rg m r)) <-> id ∈ ID <$> m.
Proof.
  intros Hrg Hw Hok id. rewrite (rt_members _ (router_wf_set rg m r Hw)), elem_of_dom, set_pool by done.
  case_decide as Hd; [|split; [by intros [? ?]|done]]. rewrite (proj2 (add_pass_pool m r id)).
  split; [done|]. intros _. right. apply list_elem_of_fmap in Hd as (mem & -> & Hin). exists mem.
  split_and!; [done|done|by apply Hok].
Qed.

End router.

(** ** Properties *)

(** The calls that change a router while it serves. *)
Definition router_run `{SortSlice} `{Dialer} (r : Router) (calls : list (PoolRange * list Member)) : Router :=
  fold_left (fun r c => SetMembers c.1 c.2 r) calls r.

Lemma router_wf_run `{SortSlice} `{Dialer} r calls : router_wf r -> router_wf (router_run r calls).
Proof. revert r. induction calls as [|c cs IH]; intros r Hw; [done|]. by apply IH, router_wf_set. Qed.

Lemma vnodes_router_run `{SortSlice} `{Dialer} r calls :
  Ring.vnodes (ring (router_run r calls)) = Ring.vnodes (ring r).
Proof.
  assert (Ha : forall m r, Ring.vnodes (ring (fold_left add_member m r)) = Ring.vnodes (ring r)).
  { induction m as [|mem m IH]; intros r'; [done|]. cbn [fold_left]. rewrite IH. unfold add_member.
    destruct (pool r' !! ID mem); [done|]. destruct (target_ok _); [apply vnodes_add|done]. }
  assert (Hd : forall d l r, Ring.vnodes (ring (fold_left (drop_member d) l r)) = Ring.vnodes (ring r)).
  { intros d. induction l as [|id l IH]; intros r'; [done|]. cbn [fold_left]. rewrite IH. unfold drop_member.
    destruct (pool r' !! id); [|done]. case_decide; [done|apply vnodes_remove]. }
  revert r. induction calls as [|c cs IH]; intros r; [done|]. cbn [router_run fold_left]. etrans; [apply IH|].
  unfold SetMembers. by rewrite Hd, Ha.
Qed.

(** The rounds of [Close] over the labels of [l]: each connection is open when its
    turn comes, so no round reports an error. *)
Lemma close_rounds_spec l r :
  (forall id c, pool r !! id = Some c -> conn_id c ∉ closed r) ->
  (forall id id' c c', pool r !! id = Some c -> pool r !! id' = Some c' -> conn_id c = conn_id c' -> id = id') ->
  let res := fold_left close_round l (false, r) in
  res.1 = false /\ (forall id, pool res.2 !! id = if decide (id ∈ l) then None else pool r !! id)
  /\ (forall i, i ∈ closed r \/ (exists id c, id ∈ l /\ pool r !! id = Some c /\ conn_id c = i) -> i ∈ closed res.2)
  /\ dialed res.2 = dialed r.
Proof.
  revert r. induction l as [|x l IH]; intros r Ho Hi; cbv zeta; cbn [fold_left].
  { split_and!; [done| | |done].
    - intros id. rewrite decide_False; [done|]. by intros ?%elem_of_nil.
    - intros i [?|(id & c & Hin & _)]; [done|]. by apply elem_of_nil in Hin. }
  cbn [close_round]. destruct (pool r !! x) as [c|] eqn:Hx.
  - cbn [close_conn]. rewrite bool_decide_eq_false_2 by by apply (Ho x). cbn [orb ring pool dialed closed].
    match goal with |- context [fold_left _ l (false, ?r1)] => destruct (IH r1) as (H1 & H2 & H3 & H4) end;
      cbn [pool closed dialed] in *.
    + intros id c' [Hne Hid]%lookup_delete_Some. apply not_elem_of_union. split; [|by apply (Ho id)].
      rewrite elem_of_singleton. intros Heq. by apply Hne, (Hi x id c c').
    + intros a b ca cb [_ Ha]%lookup_delete_Some [_ Hb]%lookup_delete_Some. by apply Hi.
    + split_and!; [done| | |done].
      * intros id. rewrite H2. destruct (decide (id = x)) as [->|Hne].
        -- rewrite lookup_delete_eq, (decide_True (P := x ∈ x :: l)) by by left. by case_decide.
        -- rewrite lookup_delete_ne by done. apply decide_ext. rewrite elem_of_cons. tauto.
      * intros i Hor. apply H3. destruct Hor as [Hc|(id & c' & Hin & Hid & <-)]; [left; set_solver|].
        destruct (decide (id = x)) as [->|Hne]; [left; set_solver|]. right. exists id, c'.
        apply elem_of_cons in Hin as [->|Hin]; [done|]. split_and!; [done| |done]. by rewrite lookup_delete_ne.
  - destruct (IH r Ho Hi) as (H1 & H2 & H3 & H4). split_and!; [done| | |done].
    + intros id. rewrite H2. destruct (decide (id = x)) as [->|Hne].
      * rewrite Hx. by repeat case_decide.
      * apply decide_ext. rewrite elem_of_cons. tauto.
    + intros i Hor. apply H3. destruct Hor as [Hc|(id & c' & Hin & Hid & <-)]; [by left|right].
      exists id, c'. apply elem_of_cons in Hin as [->|Hin]; [congruence|done].
Qed.

Section properties.
Context `{SortSlice} `{Dialer} (vnodes : Z) (r0 : Router) (Hnew : New vnodes = Some r0).
Context (calls : list (PoolRange * list Member)).

(** The router after any snapshots. *)
Let r : Router := router_run r0 calls.

Lemma router_reached_wf : router_wf r.
Proof. by apply router_wf_run, (router_wf_new vnodes). Qed.

(** C20. Reconciliation: after [SetMembers m] the ring's members and the pool's
    keys are the same set, exactly the members of [m] that were connected already
    or have a well-formed target; a second call with the same set changes
    nothing. *)
Theorem setMembers_reconciles rg m :
  pool_range_ok rg ->
  let r' := SetMembers rg m r in
  members (ring r') = dom (pool r')
  /\ (forall id, id ∈ dom (pool r') <->
        exists mem, mem ∈ m /\ ID mem = id /\ (is_Some (pool r !! id) \/
          exists mem', mem' ∈ m /\ ID mem' = id /\ target_ok (Addr mem') = true))
  /\ SetMembers rg m r' = r'.
Proof.
  intros Hrg r'. pose proof router_reached_wf as Hw. pose proof (router_wf_set rg m r Hw) as Hw'. fold r' in Hw'.
  assert (Hp : forall id, is_Some (pool r' !! id) <-> id ∈ ID <$> m /\
    (is_Some (pool r !! id) \/ exists mem', mem' ∈ m /\ ID mem' = id /\ target_ok (Addr mem') = true)).
  { intros id. unfold r'. rewrite set_pool by done. case_decide as Hd.
    - rewrite (proj2 (add_pass_pool m r id)). tauto.
    - split; [by intros [? ?]|tauto]. }
  split; [apply Hw'|]. split.
  - intros id. rewrite elem_of_dom, Hp, list_elem_of_fmap. split.
    + intros [(mem & -> & Hin) Hor]. exists mem. split_and!; done.
    + intros (mem & Hin & <- & Hor). split; [by exists mem|done].
  - assert (Hadd : forall l, (forall mem, mem ∈ l -> mem ∈ m) -> fold_left add_member l r' = r').
    { intros l. induction l as [|mem l IH]; intros Hl; [done|]. cbn [fold_left].
      assert (add_member r' mem = r') as ->; [|apply IH; intros ? ?; apply Hl; by right].
      unfold add_member. destruct (pool r' !! ID mem) eqn:E; [done|]. destruct (target_ok (Addr mem)) eqn:Ht; [|done].
      exfalso. destruct (proj2 (Hp (ID mem))) as [c Hc]; [|congruence].
      assert (mem ∈ m) by (apply Hl; by left). split; [by apply list_elem_of_fmap_2|]. right. by exists mem. }
    unfold SetMembers. rewrite (Hadd m) by done. cbv zeta. set (d := list_to_set _).
    assert (Hdrop : forall l, (forall id, id ∈ l -> is_Some (pool r' !! id)) -> fold_left (drop_member d) l r' = r').
    { intros l. induction l as [|id l IH]; intros Hl; [done|]. cbn [fold_left].
      assert (drop_member d r' id = r') as ->; [|apply IH; intros ? ?; apply Hl; by right].
      unfold drop_member. destruct (pool r' !! id) eqn:E; [|done]. rewrite decide_True; [done|].
      unfold d. rewrite elem_of_list_to_set. apply Hp. by eexists. }
    apply Hdrop. intros id Hid. by apply elem_of_range in Hid.
Qed.

(** C21. Routing never drifts: on a router with members whose labels are not empty,
    every key has an owner with a pooled connection that is open, [OwnerConns]
    returns one open connection per owner, primary first; and every connection
    ever dialed is either in the pool, under one label, or closed (none leaks). *)
Theorem routing_never_drifts key n :
  let live c := conn_id c < dialed r /\ conn_id c ∉ closed r in
  ("" ∉ members (ring r) -> members (ring r) <> ∅ ->
   exists c, OwnerConn key r = Some c /\ live c /\ pool r !! Lookup key (ring r) = Some c)
  /\ Forall live (OwnerConns key n r)
  /\ Some <$> OwnerConns key n r = (fun id => ConnFor id r) <$> OwnersN key n r
  /\ forall i, i < dialed r -> i ∈ closed r \/ exists! id, conn_id <$> pool r !! id = Some i.
Proof.
  intros live. pose proof router_reached_wf as Hw. pose proof (rt_ring r Hw) as Hr.
  assert (Hown : forall id, id ∈ owners key (ring r) -> exists c, pool r !! id = Some c).
  { intros id Hid. apply elem_of_owners in Hid; [|done]. rewrite (rt_members r Hw) in Hid. by apply elem_of_dom in Hid. }
  split; [|split; [|split]].
  - intros Hne Hm. unfold OwnerConn. rewrite Lookup_owners by done.
    pose proof (length_owners key (ring r) Hr) as Hl. destruct (owners key (ring r)) as [|x l] eqn:E.
    { symmetry in Hl. apply size_empty_inv in Hl. set_solver. }
    cbn [head default from_option id]. destruct (Hown x ltac:(by left)) as [c Hc].
    assert (x ∈ members (ring r)) by (apply (elem_of_owners key); [done|rewrite E; by left]).
    rewrite decide_False by by intros ->. exists c. split_and!; [done|by apply (rt_open r Hw x)..|done].
  - unfold OwnerConns. apply Forall_forall. intros c (id & Hid & Hc)%list_elem_of_omap. by apply (rt_open r Hw id).
  - unfold OwnerConns, OwnersN, ConnFor. rewrite LookupN_owners by done.
    assert (Htake : forall id, id ∈ take (Z.to_nat n) (owners key (ring r)) -> exists c, pool r !! id = Some c).
    { intros id Hid. apply Hown. by apply subseteq_take in Hid. }
    induction (take _ _) as [|id l IH]; [done|]. cbn. destruct (Htake id ltac:(by left)) as [c Hc].
    rewrite Hc. cbn. f_equal. apply IH. intros id' Hid'. apply Htake. by right.
  - intros i Hi. destruct (decide (i ∈ closed r)) as [|Hn]; [by left|right].
    destruct (rt_no_leak r Hw i Hi Hn) as (id & c & Hc & <-). exists id. split; [by rewrite Hc|].
    intros id' Hid'. apply fmap_Some in Hid' as (c' & Hc' & Heq). by apply (rt_inj r Hw id id' c c').
Qed.

(** A member keeps the connection it was first given: when a snapshot gives a
    connected member another address, the pool still holds the connection to the
    old one. *)
Theorem setMembers_keeps_old_address rg m id c :
  pool_range_ok rg -> pool r !! id = Some c -> id ∈ ID <$> m ->
  pool (SetMembers rg m r) !! id = Some c.
Proof.
  intros Hrg Hc Hid. rewrite set_pool by done. rewrite decide_True by done.
  rewrite (proj1 (add_pass_pool m r id)). by rewrite Hc.
Qed.

(** Two routers agree on placement (ADR 0018): with the same number of virtual
    nodes, routers driven by any snapshots to the same member set name the same
    owners for every key, when no two members share a position. *)
Theorem routers_agree (S' : SortSlice) (D' : Dialer) calls' key n :
  let r' := @router_run S' D' r0 calls' in
  dom (pool r') = dom (pool r) -> tie_free (Ring.vnodes (ring r)) (dom (pool r)) ->
  Owner key r' = Owner key r /\ OwnersN key n r' = OwnersN key n r.
Proof.
  intros r' Hd Ht. pose proof router_reached_wf as Hw. pose proof (router_wf_new vnodes r0 Hnew) as Hw0.
  assert (Hw' : router_wf r') by by apply router_wf_run.
  assert (Hp : points (ring r') = points (ring r)).
  { symmetry. apply points_unique; [apply Hw|apply Hw'| | |].
    - unfold r, r'. by rewrite !vnodes_router_run.
    - by rewrite (rt_members r Hw), (rt_members r' Hw').
    - by rewrite (rt_members r Hw). }
  unfold Owner, OwnersN, Lookup, LookupN. rewrite Hp.
  by rewrite (rt_members r Hw), (rt_members r' Hw'), Hd.
Qed.

(** Shutdown: [Close] empties the pool and closes every connection, each once
    and without an error, and no key routes anywhere afterwards. *)
Theorem close_closes_all rg key n :
  pool_range_ok rg ->
  let '(err, r') := Close rg r in
  err = false /\ pool r' = ∅ /\ (forall i, i < dialed r' -> i ∈ closed r')
  /\ OwnerConn key r' = None /\ OwnerConns key n r' = [].
Proof.
  intros Hrg. pose proof router_reached_wf as Hw. destruct (close_rounds_spec (rg (pool r)) r) as (Herr & Hp & Hc & Hdl);
    [by intros id c [_ ?]%(rt_open r Hw)|apply Hw|].
  unfold Close. destruct (fold_left close_round _ _) as [err r']. cbn [fst snd] in *.
  assert (Hpe : pool r' = ∅).
  { apply map_eq. intros id. rewrite Hp, lookup_empty. case_decide as Hd; [done|].
    destruct (pool r !! id) eqn:E; [|done]. exfalso. apply Hd, elem_of_range; [done|by eexists]. }
  split_and!; [done|done| | |].
  - intros i Hi. rewrite Hdl in Hi. apply Hc. destruct (decide (i ∈ closed r)) as [|Hn]; [by left|right].
    destruct (rt_no_leak r Hw i Hi Hn) as (id & c & Hid & <-). exists id, c. split; [|done].
    apply elem_of_range; [done|by eexists].
  - unfold OwnerConn. rewrite Hpe. case_decide; [done|]. apply lookup_empty.
  - unfold OwnerConns. rewrite Hpe. induction (LookupN _ _ _) as [|x l IH]; [done|]. cbn. by rewrite lookup_empty.
Qed.

End properties.

(** ** Witnesses: one shard, then two *)

Definition w_dialer : Dialer := {| target_ok := fun a => negb (String.eqb a "") |}.
Definition w_range : PoolRange := fun m => (map_to_list m).*1.
Definition w_router0 : Router := mk_router (mk_ring 2 [] ∅) ∅ 0 ∅.
Definition w_calls : list (PoolRange * list Member) := [(w_range, [mk_member "shard-0" "10.0.0.1:50051"])].
Abbreviation w_router := (@router_run merge_SortSlice w_dialer w_router0 w_calls).

Lemma w_range_ok : pool_range_ok w_range.
Proof. intros m. reflexivity. Qed.

Lemma w_router_dom : dom (pool w_router) = {["shard-0"]}.
Proof. reflexivity. Qed.

Abbreviation w_router' := (@SetMembers merge_SortSlice w_dialer w_range [mk_member "shard-1" "10.0.0.2:50051"] w_router).

Lemma setMembers_reconciles_witness : members (ring w_router') = dom (pool w_router').
Proof.
  apply (@setMembers_reconciles merge_SortSlice w_dialer 2 w_router0 eq_refl w_calls w_range
           [mk_member "shard-1" "10.0.0.2:50051"] w_range_ok).
Defined.

Lemma routing_never_drifts_witness :
  Some <$> OwnerConns [] 2 w_router = (fun id => ConnFor id w_router) <$> OwnersN [] 2 w_router.
Proof. apply (@routing_never_drifts merge_SortSlice w_dialer 2 w_router0 eq_refl w_calls [] 2). Defined.

Lemma setMembers_keeps_old_address_witness :
  pool (@SetMembers merge_SortSlice w_dialer w_range [mk_member "shard-0" "10.0.0.9:50051"] w_router) !! "shard-0"
  = Some (mk_conn 0 "10.0.0.1:50051").
Proof.
  apply (@setMembers_keeps_old_address merge_SortSlice w_dialer w_router0 w_calls w_range
           [mk_member "shard-0" "10.0.0.9:50051"] "shard-0" (mk_conn 0 "10.0.0.1:50051") w_range_ok).
  - reflexivity.
  - left.
Defined.

Lemma routers_agree_witness :
  Owner [] (@router_run merge_SortSlice w_dialer w_router0
              ((w_range, [mk_member "shard-1" "10.0.0.2:50051"]) :: w_calls)) = Owner [] w_router.
Proof.
  refine (proj1 (@routers_agree merge_SortSlice w_dialer 2 w_router0 eq_refl w_calls merge_SortSlice w_dialer
           ((w_range, [mk_member "shard-1" "10.0.0.2:50051"]) :: w_calls) [] 2 _ _)).
  - reflexivity.
  - cbv zeta. rewrite w_router_dom. exact w_tie_free.
Defined.

Lemma close_closes_all_witness :
  let '(err, r') := Close w_range w_router in err = false /\ pool r' = ∅.
Proof.
  pose proof (@close_closes_all merge_SortSlice w_dialer 2 w_router0 eq_refl w_calls w_range [] 2 w_range_ok) as Hc.
  destruct (Close w_range w_router) as [err r']. destruct Hc as (He & Hp & _). split; [exact He|exact Hp].
Defined.
