(* ===== verification/Coord.v ===== *)
(** Membership from etcd: [src/internal/coord/membership.go].

    etcd itself is not modelled beyond what the code relies on: a [Get] answers
    the keys under the prefix at some revision, and the watch from the next
    revision delivers every later event, in order, in batches.  The theorems say
    that the snapshots the code derives are exactly the states etcd went through,
    and what router they leave. *)

From S2P Require Import Prelude Bytes Ring Router.

(** [MembersPrefix], [memberKey] *)
Definition MembersPrefix : string := "/kvcache/members/".
Definition memberKey (nodeID : string) : string := MembersPrefix +:+ nodeID.

(** ** The client *)

(** A connection of the etcd library, and what is asked of one.  What it answers is
    given: the connection [clientv3.New] makes, and whether a [Get] succeeds. *)
Section client.
Context {Conn : Type}.

Record Client := mk_client { client_etcd : Conn }.
Inductive client_call := CNew (endpoints : list string) (dialTimeout : Z) | CGet (c : Conn) (key : string) | CClose (c : Conn).

(** [Dial], [Close] and [Ping]. *)
Definition Dial (endpoints : list string) (dialTimeout : Z) (cli : option Conn) : option Client * list client_call :=
  (match cli with None => None | Some cli => Some (mk_client cli) end, [CNew endpoints dialTimeout]).
Definition Close (c : Client) : list client_call := [CClose (client_etcd c)].
Definition Ping (c : Client) (get_ok : bool) : bool * list client_call := (get_ok, [CGet (client_etcd c) "ping-probe"]).
End client.
#[global] Arguments Client : clear implicits.
#[global] Arguments client_call : clear implicits.

(** [strings.TrimPrefix] *)
Definition TrimPrefix (s pre : string) : string :=
  if String.prefix pre s then String.substring (String.length pre) (String.length s - String.length pre) s else s.

(** A watch event on a key. *)
Inductive event := EventPut (key value : string) | EventDelete (key : string).

(** A [WatchResponse]: its events, or its error. *)
Inductive watch_response := WEvents (evs : list event) | WError.

(** ** WatchMembers *)

(** The order in which [sendSnapshot] visits the member map. *)
Definition MemberRange : Type := gmap string string -> list (string * string).
Definition member_range_ok (rg : MemberRange) : Prop := forall m, rg m ≡ₚ map_to_list m.

Definition initial_members (kvs : list (string * string)) : gmap string string :=
  fold_left (fun m kv => <[TrimPrefix kv.1 MembersPrefix := kv.2]> m) kvs ∅.

Definition apply_event (m : gmap string string) (ev : event) : gmap string string :=
  match ev with
  | EventPut key value => <[TrimPrefix key MembersPrefix := value]> m
  | EventDelete key => delete (TrimPrefix key MembersPrefix) m
  end.

(** The snapshot [sendSnapshot] builds. *)
Definition snapshot (rg : MemberRange) (m : gmap string string) : list Member :=
  (fun kv => mk_member kv.1 kv.2) <$> rg m.

(** The watch loop: the snapshots sent, the context being cancelled before the
    [n]-th further send ([None]: never). *)
Fixpoint watch_loop (rg : MemberRange) (n : option nat) (m : gmap string string) (resps : list watch_response) :
    list (list Member) :=
  match resps with
  | [] | WError :: _ => []
  | WEvents evs :: resps =>
      let m := fold_left apply_event evs m in
      match n with
      | Some O => []
      | _ => snapshot rg m :: watch_loop rg (pred <$> n) m resps
      end
  end.

(** [WatchMembers]: [None] when the initial [Get] fails. *)
Definition WatchMembers (rg : MemberRange) (n : option nat) (get : option (list (string * string)))
    (resps : list watch_response) : option (list (list Member)) :=
  match get with
  | None => None
  | Some kvs =>
      let m := initial_members kvs in
      Some match n with
           | Some O => []
           | _ => snapshot rg m :: watch_loop rg (pred <$> n) m resps
           end
  end.

(** [DriveRouter], on the snapshots received before the context ends. *)
Definition DriveRouter `{SortSlice} `{Dialer} (rg : PoolRange) (snaps : list (list Member)) (r : Router) : Router :=
  fold_left (fun r snap => SetMembers rg snap r) snaps r.

(** ** Register *)

(** What [Register] asks of etcd; a lease is named by its number. *)
Inductive etcd_call :=
  | Grant (ttlSeconds : Z)
  | PutUnder (key value : string) (lease : Z)
  | KeepAlive (lease : Z)
  | CancelKeepAlive (lease : Z)
  | Revoke (lease : Z).

Inductive register_error := ErrGrant | ErrPut | ErrKeepAlive.

(** The release function: the lease it revokes and whether its [sync.Once] has fired. *)
Record releaser := mk_releaser { rel_lease : Z; rel_fired : bool }.

(** [Register], given etcd's three answers: the lease granted, and whether the put
    and the keepalive succeed. *)
Definition Register (nodeID addr : string) (ttlSeconds : Z) (granted : option Z) (put_ok keepalive_ok : bool) :
    (register_error + releaser) * list etcd_call :=
  match granted with
  | None => (inl ErrGrant, [Grant ttlSeconds])
  | Some l =>
      let calls := [Grant ttlSeconds; PutUnder (memberKey nodeID) addr l] in
      if put_ok then
        let calls := calls ++ [KeepAlive l] in
        if keepalive_ok then (inr (mk_releaser l false), calls)
        else (inl ErrKeepAlive, calls ++ [CancelKeepAlive l; Revoke l])
      else (inl ErrPut, calls ++ [Revoke l])
  end.

(** [release()] *)
Definition release (rel : releaser) : releaser * list etcd_call :=
  if rel_fired rel then (rel, [])
  else (mk_releaser (rel_lease rel) true, [CancelKeepAlive (rel_lease rel); Revoke (rel_lease rel)]).
Fixpoint releases (n : nat) (rel : releaser) : list etcd_call :=
  match n with
  | O => []
  | S n => let '(rel, calls) := release rel in calls ++ releases n rel
  end.

(** ** Lemmas *)

Lemma substring_all s : String.substring 0 (String.length s) s = s.
Proof. induction s as [|c s IH]; simpl; [done|]. by f_equal. Qed.

Lemma prefix_app pre s : String.prefix pre (pre +:+ s) = true.
Proof. induction pre as [|c pre IH]; simpl; [by destruct s|]. by destruct (Ascii.ascii_dec c c). Qed.

Lemma substring_app pre s : String.substring (String.length pre) (String.length s) (pre +:+ s) = s.
Proof. induction pre as [|c pre IH]; simpl; [apply substring_all|done]. Qed.

Lemma length_sapp (s t : string) : String.length (s +:+ t) = String.length s + String.length t.
Proof. induction s as [|c s IH]; simpl; [done|]. by f_equal. Qed.

(** The node id is recovered from its key. *)
Lemma TrimPrefix_memberKey nodeID : TrimPrefix (memberKey nodeID) MembersPrefix = nodeID.
Proof.
  unfold TrimPrefix, memberKey. rewrite prefix_app, length_sapp.
  replace (String.length MembersPrefix + String.length nodeID - String.length MembersPrefix)
    with (String.length nodeID) by lia.
  apply substring_app.
Qed.

(** The keys etcd answers with lie under the prefix asked for. *)
Definition event_key (ev : event) : string := match ev with EventPut key _ | EventDelete key => key end.
Definition under_prefix (key : string) : Prop := exists id, key = memberKey id.

(** The content of etcd under the prefix, by full key. *)
Definition etcd_apply (m : gmap string string) (ev : event) : gmap string string :=
  match ev with EventPut key value => <[key := value]> m | EventDelete key => delete key m end.

(** The member map is etcd's content with the prefix trimmed. *)
Definition mirrors (m etcd : gmap string string) : Prop := forall id, m !! id = etcd !! memberKey id.

Lemma memberKey_inj a b : memberKey a = memberKey b -> a = b.
Proof. intros E. rewrite <- (TrimPrefix_memberKey a), <- (TrimPrefix_memberKey b). by rewrite E. Qed.

Lemma mirrors_insert m etcd id value :
  mirrors m etcd -> mirrors (<[id := value]> m) (<[memberKey id := value]> etcd).
Proof.
  intros Hm id'. destruct (decide (id' = id)) as [->|Hne]; [by rewrite !lookup_insert_eq|].
  rewrite !lookup_insert_ne by (by intros E; apply Hne; (symmetry + idtac); (done || by apply memberKey_inj)). done.
Qed.

Lemma mirrors_event m etcd ev : mirrors m etcd -> under_prefix (event_key ev) -> mirrors (apply_event m ev) (etcd_apply etcd ev).
Proof.
  intros Hm [id Hk]. destruct ev as [key value|key]; simpl in *; subst key; rewrite TrimPrefix_memberKey.
  - by apply mirrors_insert.
  - intros id'. destruct (decide (id' = id)) as [->|Hne]; [by rewrite !lookup_delete_eq|].
    rewrite !lookup_delete_ne; [done| |by intros ->]. intros E. by apply Hne, memberKey_inj.
Qed.

Lemma mirrors_events m etcd evs :
  mirrors m etcd -> Forall (fun ev => under_prefix (event_key ev)) evs ->
  mirrors (fold_left apply_event evs m) (fold_left etcd_apply evs etcd).
Proof.
  intros Hm Hp. revert m etcd Hm. induction Hp as [|ev evs Hev _ IH]; intros m etcd Hm; [done|].
  cbn [fold_left]. by apply IH, mirrors_event.
Qed.

Lemma mirrors_initial (etcd : gmap string string) kvs :
  kvs ≡ₚ map_to_list etcd -> (forall key, is_Some (etcd !! key) -> under_prefix key) ->
  mirrors (initial_members kvs) etcd.
Proof.
  intros Hk Hp. unfold initial_members.
  assert (Hgen : forall l (m e : gmap string string), mirrors m e -> Forall (fun kv => under_prefix kv.1) l ->
    mirrors (fold_left (fun m kv => <[TrimPrefix kv.1 MembersPrefix := kv.2]> m) l m)
            (fold_left (fun e kv => <[kv.1 := kv.2]> e) l e)).
  { induction l as [|[k v] l IH]; intros m e Hm Hall; [done|]. apply Forall_cons in Hall as [[id Hid] Hall].
    simpl in Hid. subst k. cbn [fold_left fst snd]. apply IH; [|done]. rewrite TrimPrefix_memberKey. by apply mirrors_insert. }
  assert (He : fold_left (fun e kv => <[kv.1 := kv.2]> e) kvs ∅ = etcd).
  { assert (Hnd : NoDup kvs.*1) by (rewrite Hk; apply NoDup_fst_map_to_list).
    rewrite <- (list_to_map_to_list etcd), <- (list_to_map_proper _ _ Hnd Hk). clear -Hnd.
    assert (Hg : forall l (e : gmap string string), NoDup l.*1 ->
      fold_left (fun e kv => <[kv.1 := kv.2]> e) l e = list_to_map l ∪ e).
    { induction l as [|[k v] l IH]; intros e Hn; [cbn; by rewrite (left_id_L ∅ (∪))|].
      apply NoDup_cons in Hn as [Hk Hn]. cbn [fold_left fst snd]. rewrite IH by done.
      cbn. apply map_eq. intros k'. rewrite !lookup_union.
      destruct (decide (k' = k)) as [->|Hne].
      - rewrite !lookup_insert_eq. rewrite (not_elem_of_list_to_map_1 l k) by done. by destruct (e !! k).
      - by rewrite !lookup_insert_ne. }
    rewrite Hg by done. by rewrite (right_id_L ∅ (∪)). }
  rewrite <- He. apply Hgen; [by intros id; rewrite !lookup_empty|].
  apply Forall_forall. intros [k v] Hin. rewrite Hk in Hin. apply elem_of_map_to_list in Hin.
  apply Hp. by eexists.
Qed.

(** The states etcd goes through, one per batch. *)
Fixpoint etcd_states (etcd : gmap string string) (batches : list (list event)) : list (gmap string string) :=
  match batches with
  | [] => []
  | evs :: batches => let etcd := fold_left etcd_apply evs etcd in etcd :: etcd_states etcd batches
  end.

(** A snapshot lists exactly the members of a state of etcd. *)
Definition snapshot_of (snap : list Member) (etcd : gmap string string) : Prop :=
  NoDup (ID <$> snap) /\ forall id addr, mk_member id addr ∈ snap <-> etcd !! memberKey id = Some addr.

Lemma snapshot_mirrors rg m etcd : member_range_ok rg -> mirrors m etcd -> snapshot_of (snapshot rg m) etcd.
Proof.
  intros Hrg Hm. unfold snapshot, snapshot_of. split.
  - rewrite <- list_fmap_compose. change (ID ∘ _) with (@fst string string). rewrite (Hrg m). apply NoDup_fst_map_to_list.
  - intros id addr. rewrite list_elem_of_fmap, <- (Hm id). split.
    + intros ([k v] & [= -> ->] & Hin). rewrite (Hrg m) in Hin. by apply elem_of_map_to_list.
    + intros Hl. exists (id, addr). split; [done|]. rewrite (Hrg m). by apply elem_of_map_to_list.
Qed.

Lemma watch_loop_exact rg n batches tail m etcd :
  member_range_ok rg -> mirrors m etcd -> Forall (Forall (fun ev => under_prefix (event_key ev))) batches ->
  head tail = None \/ head tail = Some WError ->
  Forall2 snapshot_of (watch_loop rg n m ((WEvents <$> batches) ++ tail))
    (match n with None => etcd_states etcd batches | Some k => take k (etcd_states etcd batches) end).
Proof.
  intros Hrg Hm Hp Htail. revert n m etcd Hm. induction Hp as [|evs batches Hevs _ IH]; intros n m etcd Hm.
  - cbn. destruct tail as [|[evs|] tail]; destruct n; cbn; rewrite ?take_nil; try constructor; by destruct Htail.
  - cbn. pose proof (mirrors_events m etcd evs Hm Hevs) as Hm'.
    destruct n as [[|k]|]; [constructor|..]; (constructor; [by apply snapshot_mirrors|]); cbn.
    + apply (IH (Some k) _ _ Hm').
    + apply (IH None _ _ Hm').
Qed.

(** ** Properties *)

(** The membership stream mirrors etcd: if the initial [Get] answers the
    content under the prefix and the watch delivers every later event, the
    snapshots are, in order and without a gap, exactly the contents etcd went
    through, one per batch, each a complete and duplicate-free member list, up to
    the first watch error or the cancellation. *)
Theorem watchMembers_mirrors_etcd rg n etcd kvs batches tail :
  member_range_ok rg -> kvs ≡ₚ map_to_list etcd -> (forall key, is_Some (etcd !! key) -> under_prefix key) ->
  Forall (Forall (fun ev => under_prefix (event_key ev))) batches ->
  head tail = None \/ head tail = Some WError ->
  let states := etcd :: etcd_states etcd batches in
  exists snaps, WatchMembers rg n (Some kvs) ((WEvents <$> batches) ++ tail) = Some snaps
    /\ Forall2 snapshot_of snaps (match n with None => states | Some k => take k states end).
Proof.
  intros Hrg Hk Hp Hb Ht states. pose proof (mirrors_initial etcd kvs Hk Hp) as Hm. eexists. split; [reflexivity|].
  pose proof (fun n => watch_loop_exact rg n batches tail _ etcd Hrg Hm Hb Ht) as Hl.
  destruct n as [[|k]|]; cbn; [constructor|..]; (constructor; [by apply snapshot_mirrors|]).
  - apply (Hl (Some k)).
  - apply (Hl None).
Qed.

(** The router follows etcd (ADR 0018, 0019): after any snapshots of etcd
    states, with well-formed addresses, the router's ring has exactly the members
    of the last of them, each with a pooled connection. *)
Theorem driveRouter_follows_etcd `{SortSlice} `{Dialer} vnodes r0 rg snaps states last_state :
  New vnodes = Some r0 -> pool_range_ok rg -> Forall2 snapshot_of snaps states -> last states = Some last_state ->
  (forall key addr, last_state !! key = Some addr -> target_ok addr = true) ->
  let r := DriveRouter rg snaps r0 in
  (forall id, id ∈ members (ring r) <-> is_Some (last_state !! memberKey id)) /\ dom (pool r) = members (ring r).
Proof.
  intros Hnew Hrg Hs Hlast Hok r.
  assert (Hwf : forall snaps, router_wf (DriveRouter rg snaps r0)).
  { intros l. pose proof (router_wf_new vnodes r0 Hnew) as Hw. revert Hw. generalize r0. clear.
    induction l as [|snap l IH]; intros r Hw; [done|]. by apply IH, router_wf_set. }
  split; [|symmetry; apply (Hwf snaps)].
  destruct (exists_last (l := states)) as (states' & st & ->); [by intros ->|].
  rewrite last_snoc in Hlast. injection Hlast as ->.
  apply Forall2_app_inv_r in Hs as (snaps' & l & _ & Hl & ->).
  inversion Hl as [|snap ? l0 ? Hsn Hnil]; subst. inversion Hnil; subst.
  unfold r, DriveRouter. rewrite fold_left_app. cbn [fold_left]. intros id.
  rewrite members_set; [|done|apply (Hwf snaps')|].
  - destruct Hsn as [_ Hsn]. rewrite list_elem_of_fmap. split.
    + intros ([id' addr] & -> & Hin). apply Hsn in Hin. by eexists.
    + intros [addr Ha]. exists (mk_member id addr). split; [done|]. by apply Hsn.
  - intros [id' addr] Hin. apply (Hok (memberKey id')). by apply Hsn.
Qed.

(** A lease is never orphaned: every failure of [Register] after the grant
    revokes the lease, a success publishes the node's key under it and keeps it
    alive, and however often the release function runs, the lease is revoked
    exactly once. *)
Theorem register_no_orphan nodeID addr ttl granted put_ok keepalive_ok n :
  let '(res, calls) := Register nodeID addr ttl granted put_ok keepalive_ok in
  match res with
  | inl _ => forall l, granted = Some l -> last calls = Some (Revoke l)
  | inr rel =>
      granted = Some (rel_lease rel)
      /\ calls = [Grant ttl; PutUnder (memberKey nodeID) addr (rel_lease rel); KeepAlive (rel_lease rel)]
      /\ releases (S n) rel = [CancelKeepAlive (rel_lease rel); Revoke (rel_lease rel)]
  end.
Proof.
  destruct granted as [l|], put_ok, keepalive_ok; cbn; try (intros ? [= <-]; done); try done.
  split_and!; [done|done|]. do 2 f_equal. induction n as [|n IH]; [done|exact IH].
Qed.

(** ** Witnesses *)

Definition w_members : MemberRange := map_to_list.
Definition w_etcd : gmap string string := {[ memberKey "shard-0" := "10.0.0.1:50051" ]}.
Definition w_batch : list event := [EventPut (memberKey "shard-1") "10.0.0.2:50051"; EventDelete (memberKey "shard-0")].

Lemma watchMembers_mirrors_etcd_witness :
  exists snaps, WatchMembers w_members None (Some [(memberKey "shard-0", "10.0.0.1:50051")]) [WEvents w_batch; WError] = Some snaps
    /\ length snaps = 2.
Proof.
  destruct (watchMembers_mirrors_etcd w_members None w_etcd [(memberKey "shard-0", "10.0.0.1:50051")] [w_batch] [WError])
    as (snaps & Hs & Hf).
  - intros m. reflexivity.
  - reflexivity.
  - intros key [addr Ha]. unfold w_etcd in Ha. apply lookup_singleton_Some in Ha as [<- _]. exists "shard-0". reflexivity.
  - repeat constructor; eexists; reflexivity.
  - right. reflexivity.
  - exists snaps. split; [exact Hs|]. exact (Forall2_length _ _ _ Hf).
Defined.

Abbreviation w_driven := (@DriveRouter merge_SortSlice w_dialer w_range [[mk_member "shard-0" "10.0.0.1:50051"]] w_router0).

Lemma driveRouter_follows_etcd_witness : dom (pool w_driven) = members (ring w_driven).
Proof.
  refine (proj2 (@driveRouter_follows_etcd merge_SortSlice w_dialer 2 w_router0 w_range _ [w_etcd] w_etcd _ _ _ _ _)).
  - reflexivity.
  - exact w_range_ok.
  - constructor; [|constructor]. split; [apply NoDup_singleton|]. intros id addr. unfold w_etcd.
    rewrite list_elem_of_singleton, lookup_singleton_Some. split.
    + intros [= -> ->]. split; reflexivity.
    + intros [Hk <-]. apply memberKey_inj in Hk. by subst.
  - reflexivity.
  - intros key addr Ha. unfold w_etcd in Ha. apply lookup_singleton_Some in Ha as [_ <-]. reflexivity.
Defined.
