(* ===== verification/Leases.v ===== *)
(** Membership end to end: nodes that register themselves in etcd
    ([Register] of [src/internal/coord/membership.go]), die, restart under the same id and
    release, beside clients that watch the member keys and drive their router.

    etcd is a parameter: the class [Etcd] says what its leases, keys and history do
    (the documented behaviour of a lease and of a watch), including calls whose
    answer is lost.  A node's process makes the calls of [Coord.Register] one at a
    time ([register_steps]), so that processes, expiries and crashes interleave. *)

From S2P Require Import Prelude Bytes Ring Router Coord.

(** ** etcd *)

(** What etcd holds: the keys under the prefix, the lease each is attached to, the
    leases alive and all ever granted, and every change of a key so far. *)
Record View := mk_view {
  content : gmap string string;
  attached : gmap string Z;
  alive : gset Z;
  granted : gset Z;
  past : list event;
}.

(** What happens to it; a call whose answer is an error may have been applied. *)
Inductive etcd_event :=
  | Granted (l : Z)
  | PutDone (key value : string) (l : Z)
  | PutFailed (key value : string) (l : Z)
  | Revoked (l : Z)
  | RevokeFailed (l : Z)
  | Expired (l : Z).

Definition put_under (key value : string) (l : Z) (v : View) : View :=
  mk_view (<[key := value]> (content v)) (<[key := l]> (attached v)) (alive v) (granted v) (past v ++ [EventPut key value]).

(** The end of a lease deletes the keys attached to it, in some order. *)
Definition end_lease (l : Z) (keys : list string) (v : View) : View :=
  mk_view (fold_left etcd_apply (EventDelete <$> keys) (content v)) (filter (fun kl => kl.2 <> l) (attached v))
    (alive v ∖ {[l]}) (granted v) (past v ++ (EventDelete <$> keys)).
Definition keys_of (l : Z) (v : View) (keys : list string) : Prop :=
  NoDup keys /\ forall key, key ∈ keys <-> attached v !! key = Some l.

(** Lease ids are not used twice; a key is attached to the lease of its last put. *)
Inductive view_step : View -> etcd_event -> View -> Prop :=
  | vs_grant v l :
      l ∉ granted v ->
      view_step v (Granted l) (mk_view (content v) (attached v) ({[l]} ∪ alive v) ({[l]} ∪ granted v) (past v))
  | vs_put v key value l : l ∈ alive v -> view_step v (PutDone key value l) (put_under key value l v)
  | vs_put_lost v key value l : view_step v (PutFailed key value l) v
  | vs_put_unacked v key value l : l ∈ alive v -> view_step v (PutFailed key value l) (put_under key value l v)
  | vs_revoke v l keys : keys_of l v keys -> view_step v (Revoked l) (end_lease l keys v)
  | vs_revoke_lost v l : view_step v (RevokeFailed l) v
  | vs_revoke_unacked v l keys : keys_of l v keys -> view_step v (RevokeFailed l) (end_lease l keys v)
  | vs_expire v l keys : keys_of l v keys -> view_step v (Expired l) (end_lease l keys v).

Class Etcd (E : Type) := {
  et_view : E -> View;
  et_step : E -> etcd_event -> E -> Prop;
  et_law e ev e' : et_step e ev e' -> view_step (et_view e) ev (et_view e');
}.

(** ** A registering process *)

(** Where [Register] is, or the release function it returned. *)
Inductive phase :=
  | PGrant
  | PPut (l : Z)
  | PKeep (l : Z)
  | PUp (rel : releaser)
  | PUndo (calls : list etcd_call) (err : option register_error)
  | PFailed (err : register_error)
  | PCrashed.

(** A process, and the lease it was granted. *)
Record process := mk_process { px_id : string; px_addr : string; px_ttl : Z; px_lease : option Z; px_phase : phase }.

(** The answer of a call: a lease, success or an error. *)
Inductive answer := ALease (l : Z) | AOk | AErr.

Definition next_call (p : process) : option etcd_call :=
  match px_phase p with
  | PGrant => Some (Grant (px_ttl p))
  | PPut l => Some (PutUnder (memberKey (px_id p)) (px_addr p) l)
  | PKeep l => Some (KeepAlive l)
  | PUndo (c :: _) _ => Some c
  | _ => None
  end.

Definition with_phase (ph : phase) (p : process) : process := mk_process (px_id p) (px_addr p) (px_ttl p) (px_lease p) ph.

(** The process goes on with the answer. *)
Definition advance (a : answer) (p : process) : process :=
  match px_phase p, a with
  | PGrant, ALease l => mk_process (px_id p) (px_addr p) (px_ttl p) (Some l) (PPut l)
  | PGrant, _ => with_phase (PFailed ErrGrant) p
  | PPut l, AErr => with_phase (PUndo [Revoke l] (Some ErrPut)) p
  | PPut l, _ => with_phase (PKeep l) p
  | PKeep l, AErr => with_phase (PUndo [CancelKeepAlive l; Revoke l] (Some ErrKeepAlive)) p
  | PKeep l, _ => with_phase (PUp (mk_releaser l false)) p
  | PUndo (_ :: calls) err, _ => with_phase (PUndo calls err) p
  | _, _ => p
  end.

(** [release()] begins. *)
Definition releasing (p : process) : process :=
  match px_phase p with
  | PUp rel => with_phase (PUndo (release rel).2 None) p
  | _ => p
  end.

(** A process alone, given etcd's three answers as [Register] takes them. *)
Definition answer_to (g : option Z) (put_ok keepalive_ok : bool) (c : etcd_call) : answer :=
  match c with
  | Grant _ => match g with Some l => ALease l | None => AErr end
  | PutUnder _ _ _ => if put_ok then AOk else AErr
  | KeepAlive _ => if keepalive_ok then AOk else AErr
  | CancelKeepAlive _ | Revoke _ => AOk
  end.
Fixpoint alone (fuel : nat) (ans : etcd_call -> answer) (p : process) : process * list etcd_call :=
  match fuel, next_call p with
  | S fuel, Some c => let '(p', calls) := alone fuel ans (advance (ans c) p) in (p', c :: calls)
  | _, _ => (p, [])
  end.

(** What [Register] returned. *)
Definition returned (p : process) : option (register_error + releaser) :=
  match px_phase p with
  | PUp rel => Some (inr rel)
  | PUndo [] (Some err) | PFailed err => Some (inl err)
  | _ => None
  end.

(** ** Processes beside each other *)

Record Membership (E : Type) := mk_membership { server_state : E; processes : gmap nat process }.
#[global] Arguments mk_membership {E}.
#[global] Arguments server_state {E}.
#[global] Arguments processes {E}.

Section membership.
Context {E : Type} `{Etcd E}.
Implicit Types (s : Membership E).

(** A call at etcd.  The keep-alive only renews. *)
Inductive calls_etcd : etcd_call -> answer -> E -> E -> Prop :=
  | ce_grant ttl l e e' : et_step e (Granted l) e' -> calls_etcd (Grant ttl) (ALease l) e e'
  | ce_grant_lost ttl l e e' : et_step e (Granted l) e' -> calls_etcd (Grant ttl) AErr e e'
  | ce_grant_failed ttl e : calls_etcd (Grant ttl) AErr e e
  | ce_put key value l e e' : et_step e (PutDone key value l) e' -> calls_etcd (PutUnder key value l) AOk e e'
  | ce_put_failed key value l e e' : et_step e (PutFailed key value l) e' -> calls_etcd (PutUnder key value l) AErr e e'
  | ce_keepalive l ok e : calls_etcd (KeepAlive l) (if ok : bool then AOk else AErr) e e
  | ce_cancel l e : calls_etcd (CancelKeepAlive l) AOk e e
  | ce_revoke l e e' : et_step e (Revoked l) e' -> calls_etcd (Revoke l) AOk e e'
  | ce_revoke_failed l e e' : et_step e (RevokeFailed l) e' -> calls_etcd (Revoke l) AErr e e'.

(** What happens: a process starts, makes its next call, is told to release, or
    dies; a lease runs out (its keep-alives stopped, or did not reach etcd). *)
Inductive member_event :=
  | Start (n : nat)
  | Call (n : nat) (c : etcd_call)
  | Release (n : nat)
  | Crash (n : nat)
  | Expire (l : Z).

Inductive member_step : Membership E -> member_event -> Membership E -> Prop :=
  | ms_start s n id addr ttl :
      processes s !! n = None ->
      member_step s (Start n) (mk_membership (server_state s) (<[n := mk_process id addr ttl None PGrant]> (processes s)))
  | ms_call s n p c a e' :
      processes s !! n = Some p -> next_call p = Some c -> calls_etcd c a (server_state s) e' ->
      member_step s (Call n c) (mk_membership e' (<[n := advance a p]> (processes s)))
  | ms_release s n p rel :
      processes s !! n = Some p -> px_phase p = PUp rel ->
      member_step s (Release n) (mk_membership (server_state s) (<[n := releasing p]> (processes s)))
  | ms_crash s n p :
      processes s !! n = Some p ->
      member_step s (Crash n) (mk_membership (server_state s) (<[n := with_phase PCrashed p]> (processes s)))
  | ms_expire s l e' :
      et_step (server_state s) (Expired l) e' -> member_step s (Expire l) (mk_membership e' (processes s)).

Inductive member_run s : Membership E -> Prop :=
  | mr_refl : member_run s s
  | mr_next s' ev s'' : member_run s s' -> member_step s' ev s'' -> member_run s s''.

Definition view s : View := et_view (server_state s).

(** A process of this id holds the node's key: its lease is alive and the key is
    attached to it. *)
Definition holds_key s (id addr : string) (n : nat) (l : Z) : Prop :=
  (exists p, processes s !! n = Some p /\ px_id p = id /\ px_addr p = addr /\ px_lease p = Some l)
  /\ l ∈ alive (view s) /\ attached (view s) !! memberKey id = Some l.

End membership.

(** ** Lemmas *)

Lemma fold_deletes keys (m : gmap string string) key :
  fold_left etcd_apply (EventDelete <$> keys) m !! key = if decide (key ∈ keys) then None else m !! key.
Proof.
  revert m. induction keys as [|k keys IH]; intros m; cbn [fmap list_fmap fold_left etcd_apply].
  { rewrite decide_False by apply not_elem_of_nil. done. }
  rewrite IH. destruct (decide (key = k)) as [->|Hne].
  - rewrite lookup_delete_eq. rewrite (decide_True (P := k ∈ k :: keys)) by left. by case_decide.
  - rewrite lookup_delete_ne by done. destruct (decide (key ∈ keys)) as [Hin|Hnin].
    + by rewrite decide_True by by right.
    + by rewrite decide_False by by intros [->|?]%elem_of_cons.
Qed.

(** A process acts for the lease it was granted. *)
Definition phase_ok (p : process) : Prop :=
  match px_phase p with
  | PGrant => px_lease p = None
  | PPut l | PKeep l => px_lease p = Some l
  | PUp rel => px_lease p = Some (rel_lease rel)
  | PUndo calls _ => exists l, px_lease p = Some l /\ Forall (fun c => c = CancelKeepAlive l \/ c = Revoke l) calls
  | PFailed _ | PCrashed => True
  end.

(** The invariant: a key is there exactly while it is attached to a lease alive,
    the lease of the one process that put it. *)
Record tended (v : View) (ps : gmap nat process) : Prop := {
  tn_alive : alive v ⊆ granted v;
  tn_dom key : is_Some (content v !! key) <-> is_Some (attached v !! key);
  tn_owner key l :
    attached v !! key = Some l ->
    l ∈ alive v /\ exists n p, ps !! n = Some p /\ px_lease p = Some l /\ key = memberKey (px_id p)
      /\ content v !! key = Some (px_addr p);
  tn_granted n p l : ps !! n = Some p -> px_lease p = Some l -> l ∈ granted v;
  tn_unique n n' p p' l : ps !! n = Some p -> ps !! n' = Some p' -> px_lease p = Some l -> px_lease p' = Some l -> n = n';
  tn_phase n p : ps !! n = Some p -> phase_ok p;
  tn_past : content v = fold_left etcd_apply (past v) ∅;
  tn_keys : Forall (fun ev => under_prefix (event_key ev)) (past v);
}.

Lemma end_lease_content l keys v key :
  content (end_lease l keys v) !! key = if decide (key ∈ keys) then None else content v !! key.
Proof. apply fold_deletes. Qed.

Lemma end_lease_attached l keys v key l' :
  attached (end_lease l keys v) !! key = Some l' <-> attached v !! key = Some l' /\ l' <> l.
Proof. cbn. by rewrite map_lookup_filter_Some. Qed.

Lemma tended_end v ps l keys : tended v ps -> keys_of l v keys -> tended (end_lease l keys v) ps.
Proof.
  intros [Ha Hd Ho Hg Hu Hp Hpast Hk] [_ Hkeys]. split; try done.
  - cbn. set_solver.
  - intros key. rewrite end_lease_content. split.
    + intros Hs. case_decide as Hin; [by destruct Hs|]. apply Hd in Hs as [l' Hl']. exists l'.
      apply end_lease_attached. split; [done|]. intros ->. by apply Hin, Hkeys.
    + intros [l' [Hl' Hne]%end_lease_attached]. rewrite decide_False; [apply Hd; by eexists|].
      intros Hin%Hkeys. congruence.
  - intros key l' [Hl' Hne]%end_lease_attached. destruct (Ho _ _ Hl') as (Hal & n & p & Hn & Hpl & Hkey & Hc).
    split; [cbn; set_solver|]. exists n, p. split_and!; try done. rewrite end_lease_content, decide_False; [done|].
    intros Hin%Hkeys. congruence.
  - cbn. by rewrite fold_left_app, <- Hpast.
  - cbn. apply Forall_app. split; [done|]. apply Forall_forall. intros ev (key & -> & Hin)%list_elem_of_fmap.
    apply Hkeys, Ho in Hin as (_ & n & p & _ & _ & -> & _). by eexists.
Qed.

Lemma tended_put v ps n p l :
  tended v ps -> ps !! n = Some p -> px_lease p = Some l -> l ∈ alive v ->
  tended (put_under (memberKey (px_id p)) (px_addr p) l v) ps.
Proof.
  intros [Ha Hd Ho Hg Hu Hp Hpast Hk] Hn Hl Hal. split; try done.
  - intros key. cbn. destruct (decide (key = memberKey (px_id p))) as [->|Hne].
    + rewrite !lookup_insert_eq. split; by eexists.
    + by rewrite !lookup_insert_ne.
  - intros key l'. cbn. destruct (decide (key = memberKey (px_id p))) as [->|Hne].
    + rewrite !lookup_insert_eq. intros [= <-]. split; [done|]. by exists n, p.
    + rewrite !lookup_insert_ne by done. intros Hl'. destruct (Ho _ _ Hl') as (? & n' & p' & ?). split; [done|].
      by exists n', p'.
  - cbn. by rewrite fold_left_app, <- Hpast.
  - cbn. apply Forall_app. split; [done|]. constructor; [by eexists|done].
Qed.

Lemma tended_grant v ps l :
  tended v ps -> tended (mk_view (content v) (attached v) ({[l]} ∪ alive v) ({[l]} ∪ granted v) (past v)) ps.
Proof.
  intros [Ha Hd Ho Hg Hu Hp Hpast Hk]. split; try done; cbn.
  - set_solver.
  - intros key l' Hl'. destruct (Ho _ _ Hl') as (? & ?). split; [set_solver|done].
  - intros n p l' Hn Hl. specialize (Hg n p l' Hn Hl). set_solver.
Qed.

(** A process moves on, its lease unchanged. *)
Lemma tended_phase v ps n p ph :
  tended v ps -> ps !! n = Some p -> phase_ok (with_phase ph p) -> tended v (<[n := with_phase ph p]> ps).
Proof.
  intros [Ha Hd Ho Hg Hu Hp Hpast Hk] Hn Hph.
  assert (Hback : forall n' p', <[n := with_phase ph p]> ps !! n' = Some p' ->
    exists q, ps !! n' = Some q /\ px_lease q = px_lease p').
  { intros n' p' [[<- <-]|[_ Hl]]%lookup_insert_Some; eauto. }
  split; try done.
  - intros key l Hl. destruct (Ho _ _ Hl) as (Hal & n' & p' & Hn' & Hr). split; [done|].
    destruct (decide (n' = n)) as [->|Hne].
    + exists n, (with_phase ph p). rewrite lookup_insert_eq. replace p' with p in Hr by congruence. by split.
    + exists n', p'. by rewrite lookup_insert_ne.
  - intros n' p' l (q & Hq & <-)%Hback Hl. by eapply Hg.
  - intros n1 n2 p1 p2 l (q1 & Hq1 & <-)%Hback (q2 & Hq2 & <-)%Hback Hl1 Hl2. by eapply Hu.
  - intros n' p' [[<- <-]|[_ Hl]]%lookup_insert_Some; [done|by eapply Hp].
Qed.

(** A process starts, or is granted a lease never granted before. *)
Lemma tended_leased v v' ps n p :
  tended v' ps -> granted v ⊆ granted v' -> (forall n' q l, ps !! n' = Some q -> px_lease q = Some l -> l ∈ granted v) ->
  (forall q, ps !! n = Some q -> px_lease q = None) -> phase_ok p ->
  (forall l, px_lease p = Some l -> l ∈ granted v' /\ l ∉ granted v) -> tended v' (<[n := p]> ps).
Proof.
  intros [Ha Hd Ho _ Hu Hp Hpast Hk] Hsub Hg Hnone Hok Hnew. split; try done.
  - intros key l Hl. destruct (Ho _ _ Hl) as (Hal & n' & q & Hn' & Hql & Hr). split; [done|]. exists n', q.
    rewrite lookup_insert_ne; [done|]. intros <-. specialize (Hnone q Hn'). congruence.
  - intros n' q l [[<- <-]|[_ Hn']]%lookup_insert_Some Hl; [by apply Hnew|]. by eapply Hsub, Hg.
  - intros n1 n2 p1 p2 l [[<- <-]|[Hne1 H1]]%lookup_insert_Some [[<- <-]|[Hne2 H2]]%lookup_insert_Some L1 L2; try done.
    + destruct (Hnew l L1) as [_ Hno]. by destruct Hno; eapply Hg.
    + destruct (Hnew l L2) as [_ Hno]. by destruct Hno; eapply Hg.
    + by eapply Hu.
  - intros n' q [[<- <-]|[_ Hn']]%lookup_insert_Some; [done|by eapply Hp].
Qed.

Section tending.
Context {E : Type} `{Etcd E}.
Implicit Types (s : Membership E).

(** No process yet, and etcd empty under the prefix. *)
Definition no_members s : Prop :=
  processes s = ∅ /\ content (view s) = ∅ /\ attached (view s) = ∅ /\ past (view s) = [] /\ alive (view s) ⊆ granted (view s).

Definition tended_state s : Prop := tended (view s) (processes s).

Lemma tended_start s : no_members s -> tended_state s.
Proof.
  intros (Hp & Hc & Ha & Hpast & Hal). unfold tended_state. rewrite Hp. split; rewrite ?Hc, ?Ha, ?Hpast; try done.
  intros key. by rewrite !lookup_empty.
Qed.

(** A process puts its own key, under its lease, and revokes only that lease. *)
Lemma next_put p key value l :
  phase_ok p -> next_call p = Some (PutUnder key value l) ->
  px_lease p = Some l /\ key = memberKey (px_id p) /\ value = px_addr p.
Proof.
  unfold phase_ok, next_call. destruct (px_phase p) as [|l'|l'|rel|[|c calls] err|err|]; try discriminate.
  - by intros Hl [= <- <- <-].
  - intros (l' & _ & [[->| ->] _]%Forall_cons); discriminate.
Qed.

Lemma next_revoke p l : phase_ok p -> next_call p = Some (Revoke l) -> px_lease p = Some l.
Proof.
  unfold phase_ok, next_call. destruct (px_phase p) as [|l'|l'|rel|[|c calls] err|err|]; try discriminate.
  intros (l' & Hl & [[->| ->] _]%Forall_cons); [discriminate|]. by intros [= ->].
Qed.

(** What a call of process [p] does to etcd: nothing, a fresh grant, a put of its
    own key, the end of its own lease. *)
Inductive call_effect (p : process) (c : etcd_call) (v : View) : View -> Prop :=
  | ef_none : call_effect p c v v
  | ef_grant l : l ∉ granted v ->
      call_effect p c v (mk_view (content v) (attached v) ({[l]} ∪ alive v) ({[l]} ∪ granted v) (past v))
  | ef_put l : px_lease p = Some l -> l ∈ alive v -> c = PutUnder (memberKey (px_id p)) (px_addr p) l ->
      call_effect p c v (put_under (memberKey (px_id p)) (px_addr p) l v)
  | ef_end l keys : px_lease p = Some l -> c = Revoke l -> keys_of l v keys -> call_effect p c v (end_lease l keys v).

Lemma called_effect c a e e' p :
  calls_etcd c a e e' -> phase_ok p -> next_call p = Some c -> call_effect p c (et_view e) (et_view e').
Proof.
  intros Hc Hok Hnext.
  destruct Hc as [ttl l e e' Hs|ttl l e e' Hs|ttl e|key value l e e' Hs|key value l e e' Hs|l ok e|l e|l e e' Hs|l e e' Hs];
    try apply ef_none; apply et_law in Hs.
  1, 2: inversion Hs; subst; by apply ef_grant.
  1, 2: destruct (next_put _ _ _ _ Hok Hnext) as (Hl & -> & ->); inversion Hs; subst; try apply ef_none; by apply ef_put.
  all: pose proof (next_revoke _ _ Hok Hnext); inversion Hs; subst; try apply ef_none; by eapply ef_end.
Qed.

(** A granted lease is a fresh one. *)
Lemma called_grant c l e e' : calls_etcd c (ALease l) e e' -> (l ∉ granted (et_view e)) /\ l ∈ granted (et_view e').
Proof.
  intros Hc. remember (ALease l) as a eqn:Ha. destruct Hc as [ttl l' e e' Hs| | | | |l' ok e| | |]; try discriminate.
  - injection Ha as ->. apply et_law in Hs. inversion Hs; subst. split; [done|]. cbn. set_solver.
  - by destruct ok.
Qed.

Lemma tended_effect v v' ps n p c :
  tended v ps -> ps !! n = Some p -> call_effect p c v v' -> tended v' ps /\ granted v ⊆ granted v'.
Proof.
  intros Ht Hn [|l Hl|l Hpl Hal _|l keys Hpl _ Hk]; (split; [|cbn; set_solver]); [done|..].
  - by apply tended_grant.
  - by eapply tended_put.
  - by apply tended_end.
Qed.

(** Whatever the answer, the process goes on as one the invariant allows. *)
Lemma advance_ok a p c :
  phase_ok p -> next_call p = Some c ->
  (exists l, a = ALease l /\ px_lease p = None /\ advance a p = mk_process (px_id p) (px_addr p) (px_ttl p) (Some l) (PPut l))
  \/ exists ph, advance a p = with_phase ph p /\ phase_ok (with_phase ph p).
Proof.
  unfold phase_ok, next_call, advance.
  destruct (px_phase p) as [|l'|l'|rel|[|c' calls] err|err|] eqn:Hph; try discriminate; intros Hok _.
  - destruct a as [l| |]; [left; by exists l|right..]; by eexists.
  - right. destruct a; eexists; (split; [reflexivity|]); cbn; try done. exists l'. split; [done|]. rewrite Forall_singleton; naive_solver.
  - right. destruct a; eexists; (split; [reflexivity|]); cbn; try done. exists l'. split; [done|]. rewrite ?Forall_cons; naive_solver.
  - right. eexists. split; [by destruct a|]. destruct Hok as (l & Hl & [_ Hf]%Forall_cons). by exists l.
Qed.

Lemma tended_step s ev s' : tended_state s -> member_step s ev s' -> tended_state s' /\ granted (view s) ⊆ granted (view s').
Proof.
  unfold tended_state, view. intros Ht Hs.
  destruct Hs as [s n id addr ttl Hnew|s n p c a e' Hn Hnext Hc|s n p rel Hn Hph|s n p Hn|s l e' He]; cbn [server_state processes].
  - split; [|done]. apply (tended_leased (et_view (server_state s)) _); try done.
    + intros n' q l. by apply (tn_granted _ _ Ht).
    + congruence.
  - pose proof (called_effect _ _ _ _ _ Hc (tn_phase _ _ Ht _ _ Hn) Hnext) as Hef.
    destruct (tended_effect _ _ _ _ _ _ Ht Hn Hef) as [Ht' Hsub]. split; [|done].
    destruct (advance_ok a p c (tn_phase _ _ Ht _ _ Hn) Hnext) as [(l & -> & Hnone & ->)|(ph & -> & Hok)].
    + apply (tended_leased (et_view (server_state s)) _); try done.
      * intros n' q l'. by apply (tn_granted _ _ Ht).
      * congruence.
      * intros l' [= <-]. destruct (called_grant _ _ _ _ Hc). by split.
    + by apply tended_phase.
  - split; [|done]. pose proof (tn_phase _ _ Ht _ _ Hn) as Hok. unfold phase_ok in Hok. unfold releasing. rewrite Hph in *.
    apply tended_phase; [done|done|]. exists (rel_lease rel). split; [done|]. unfold release.
    destruct (rel_fired rel); rewrite ?Forall_cons; naive_solver.
  - split; [|done]. by apply tended_phase.
  - apply et_law in He. inversion He; subst. split; [by apply tended_end|done].
Qed.

Lemma tended_run s s' : tended_state s -> member_run s s' -> tended_state s' /\ granted (view s) ⊆ granted (view s').
Proof.
  intros Ht Hr. induction Hr as [|s' ev s'' _ [IH Hsub] Hs]; [done|].
  destruct (tended_step _ _ _ IH Hs) as [? ?]. split; [done|]. set_solver.
Qed.

(** A process keeps its lease. *)
Lemma step_keeps_lease s ev s' n p l :
  tended_state s -> member_step s ev s' -> processes s !! n = Some p -> px_lease p = Some l ->
  exists p', processes s' !! n = Some p' /\ px_id p' = px_id p /\ px_addr p' = px_addr p /\ px_lease p' = Some l.
Proof.
  intros Ht Hs Hn Hl.
  assert (Hother : forall m q, (m = n -> px_id q = px_id p /\ px_addr q = px_addr p /\ px_lease q = Some l) ->
    exists p', <[m := q]> (processes s) !! n = Some p' /\ px_id p' = px_id p /\ px_addr p' = px_addr p /\ px_lease p' = Some l).
  { intros m q Hq. destruct (decide (m = n)) as [->|Hne]; [exists q; by rewrite lookup_insert_eq; auto|].
    exists p. by rewrite lookup_insert_ne. }
  destruct Hs as [s m id addr ttl Hnew|s m q c a e' Hm Hnext Hc|s m q rel Hm Hph|s m q Hm|s l' e' He]; cbn [processes];
    try (apply Hother; intros ->); try congruence.
  - assert (q = p) as -> by congruence.
    destruct (advance_ok a p c (tn_phase _ _ Ht _ _ Hm) Hnext) as [(l' & _ & Hnone & _)|(ph & -> & _)]; [congruence|done].
  - assert (q = p) as -> by congruence. unfold releasing. by rewrite Hph.
  - assert (q = p) as -> by congruence. done.
  - by exists p.
Qed.

(** etcd's keys are the nodes whose lease is alive. *)
Lemma tended_holds s id : tended_state s -> is_Some (content (view s) !! memberKey id) <-> exists addr n l, holds_key s id addr n l.
Proof.
  intros Ht. rewrite (tn_dom _ _ Ht). split.
  - intros [l Hl]. destruct (tn_owner _ _ Ht _ _ Hl) as (Hal & n & p & Hn & Hpl & ->%memberKey_inj & _).
    exists (px_addr p), n, l. split_and!; [by exists p|done..].
  - intros (addr & n & l & _ & _ & Hl). by eexists.
Qed.
End tending.

(** ** Properties *)

Section leases.
Context {E : Type} `{Etcd E}.
Implicit Types (s : Membership E).

Lemma Forall_batches {A} (Q : A -> Prop) (batches : list (list A)) : Forall Q (mjoin batches) -> Forall (Forall Q) batches.
Proof. induction batches as [|b batches IH]; [done|]. intros [? ?]%Forall_app. constructor; [done|by apply IH]. Qed.

Lemma last_states etcd batches :
  last (etcd :: etcd_states etcd batches) = Some (fold_left etcd_apply (mjoin batches) etcd).
Proof.
  revert etcd. induction batches as [|evs batches IH]; intros etcd; [done|].
  cbn [etcd_states mjoin list_join]. rewrite fold_left_app. exact (IH _).
Qed.

(** A process by itself does what [Register] does: the calls it makes, given
    etcd's answers, and what it ends with are [Register]'s; and a release makes
    the calls of the release function. *)
Theorem register_steps id addr ttl g put_ok keepalive_ok :
  let '(res, calls) := Register id addr ttl g put_ok keepalive_ok in
  let '(p, made) := alone 5 (answer_to g put_ok keepalive_ok) (mk_process id addr ttl None PGrant) in
  made = calls /\ returned p = Some res /\ next_call p = None
  /\ forall rel, res = inr rel ->
       (alone 3 (answer_to g put_ok keepalive_ok) (releasing p)).2 = (release rel).2.
Proof.
  destruct g as [l|], put_ok, keepalive_ok; cbn; split_and!; try done; intros ? [=]; by subst.
Qed.

(** C13. The ring follows the leases: a client subscribes at some moment, with a [Get]
    of what etcd holds then, and drives its router with the watch up to a later
    moment; whatever nodes registered, restarted, failed half-way, released or
    died in between and before, its ring has then exactly the ids for which some
    process's lease is alive and holds the key, each with a pooled connection. *)
Theorem ring_follows_leases `{SortSlice} `{Dialer} rg prg vnodes r0 s0 s1 s2 kvs batches :
  member_range_ok rg -> pool_range_ok prg -> New vnodes = Some r0 ->
  no_members s0 -> member_run s0 s1 -> member_run s1 s2 ->
  kvs ≡ₚ map_to_list (content (view s1)) -> past (view s2) = past (view s1) ++ mjoin batches ->
  (forall n p, processes s2 !! n = Some p -> target_ok (px_addr p) = true) ->
  exists snaps, WatchMembers rg None (Some kvs) (WEvents <$> batches) = Some snaps
    /\ let r := DriveRouter prg snaps r0 in
       (forall id, id ∈ members (ring r) <-> exists addr n l, holds_key s2 id addr n l)
       /\ dom (pool r) = members (ring r).
Proof.
  intros Hrg Hprg Hnew Hs0 H01 H12 Hkvs Hpast Hok.
  destruct (tended_run _ _ (tended_start _ Hs0) H01) as [T1 _]. destruct (tended_run _ _ T1 H12) as [T2 _].
  assert (Hunder : forall key, is_Some (content (view s1) !! key) -> under_prefix key).
  { intros key [l Hl]%(tn_dom _ _ T1). destruct (tn_owner _ _ T1 _ _ Hl) as (_ & n & p & _ & _ & -> & _). by eexists. }
  pose proof (mirrors_initial _ kvs Hkvs Hunder) as Hm.
  assert (Hevs : Forall (Forall (fun ev => under_prefix (event_key ev))) batches).
  { pose proof (tn_keys _ _ T2) as Hk. rewrite Hpast in Hk. apply Forall_app in Hk as [_ Hk]. by apply Forall_batches. }
  set (m := initial_members kvs) in *. exists (snapshot rg m :: watch_loop rg None m (WEvents <$> batches)). split; [reflexivity|].
  assert (Hlast : last (content (view s1) :: etcd_states (content (view s1)) batches) = Some (content (view s2))).
  { by rewrite last_states, (tn_past _ _ T2), Hpast, fold_left_app, <- (tn_past _ _ T1). }
  destruct (driveRouter_follows_etcd vnodes r0 prg (snapshot rg m :: watch_loop rg None m (WEvents <$> batches))
    (content (view s1) :: etcd_states (content (view s1)) batches) (content (view s2)) Hnew Hprg)
    as [Hin Hdom]; [|exact Hlast| |split; [|exact Hdom]].
  - constructor; [by apply snapshot_mirrors|]. rewrite <- (app_nil_r (WEvents <$> batches)).
    apply (watch_loop_exact rg None); auto.
  - intros key addr Ha. destruct (proj1 (tn_dom _ _ T2 key)) as [l Hl]; [by eexists|].
    destruct (tn_owner _ _ T2 _ _ Hl) as (_ & n & p & Hn & _ & _ & Hc). rewrite Ha in Hc. injection Hc as ->. by eapply Hok.
  - intros id. rewrite Hin. by apply tended_holds.
Qed.

(** What a step does to a lease alive and to the key attached to it. *)
Lemma step_lease s ev s' n p l key :
  tended_state s -> member_step s ev s' -> processes s !! n = Some p -> px_lease p = Some l ->
  l ∈ alive (view s) -> attached (view s) !! key = Some l ->
  l ∈ alive (view s') /\ attached (view s') !! key = Some l
  \/ ev = Expire l \/ ev = Call n (Revoke l)
  \/ exists n' addr' l', ev = Call n' (PutUnder key addr' l') /\ n' <> n.
Proof.
  intros Ht Hs Hn Hl Hal Hat. unfold view in *.
  assert (Hend : forall l' keys, l' <> l -> l ∈ alive (end_lease l' keys (et_view (server_state s)))
    /\ attached (end_lease l' keys (et_view (server_state s))) !! key = Some l).
  { intros l' keys Hne. rewrite end_lease_attached. split; [cbn; set_solver|by split]. }
  destruct Hs as [s m id addr ttl Hnew|s m q c a e' Hm Hnext Hc|s m q rel Hm Hph|s m q Hm|s l' e' He]; cbn [server_state];
    try (left; by split).
  - pose proof (called_effect _ _ _ _ _ Hc (tn_phase _ _ Ht _ _ Hm) Hnext) as Hef.
    destruct Hef as [|l' Hl'|l' Hql Hal' ->|l' keys Hql -> Hk].
    + by left.
    + left. split; [cbn; set_solver|done].
    + destruct (decide (key = memberKey (px_id q))) as [->|Hne].
      * destruct (decide (m = n)) as [->|Hmn]; [|by right; right; right; eauto].
        left. split; [done|]. cbn. rewrite lookup_insert_eq. congruence.
      * left. split; [done|]. cbn. by rewrite lookup_insert_ne.
    + destruct (decide (l' = l)) as [->|Hne]; [|by left; apply Hend].
      right. right. left. by rewrite (tn_unique _ _ Ht _ _ _ _ _ Hm Hn Hql Hl).
  - apply et_law in He. inversion He; subst. destruct (decide (l' = l)) as [->|Hne]; [by right; left|left; by apply Hend].
Qed.

(** A node leaves only when its own lease ends, or when another process of the
    same id takes its key over: the end of a predecessor's lease does not remove
    a restarted node. *)
Theorem membership_lost_only s0 s ev s' id addr n l :
  no_members s0 -> member_run s0 s -> member_step s ev s' ->
  holds_key s id addr n l -> ~ holds_key s' id addr n l ->
  ev = Expire l \/ ev = Call n (Revoke l)
  \/ exists n' addr' l', ev = Call n' (PutUnder (memberKey id) addr' l') /\ n' <> n.
Proof.
  intros Hs0 Hr Hs ((p & Hn & Hid & Haddr & Hl) & Hal & Hat) Hlost.
  destruct (tended_run _ _ (tended_start _ Hs0) Hr) as [Ht _].
  destruct (step_lease _ _ _ _ _ _ _ Ht Hs Hn Hl Hal Hat) as [[Hal' Hat']|Hwhy]; [|done].
  destruct (step_keeps_lease _ _ _ _ _ _ Ht Hs Hn Hl) as (p' & Hn' & Hid' & Haddr' & Hl').
  destruct Hlost. split; [|by split]. exists p'. split_and!; congruence.
Qed.

(** A lease that ended stays ended: no process holds a key by it again. *)
Theorem ended_lease_stays_ended s0 s1 s2 l id addr n :
  no_members s0 -> member_run s0 s1 -> l ∈ granted (view s1) -> l ∉ alive (view s1) -> member_run s1 s2 ->
  ~ holds_key s2 id addr n l.
Proof.
  intros Hs0 H01 Hg Hd H12. destruct (tended_run _ _ (tended_start _ Hs0) H01) as [T1 _].
  enough (tended_state s2 /\ l ∈ granted (view s2) /\ l ∉ alive (view s2)) as (_ & _ & Hd2) by by intros (_ & Hal & _).
  induction H12 as [|s' ev s'' _ IH Hs]; [done|]. destruct IH as (T' & Hg' & Hd'). destruct (tended_step _ _ _ T' Hs) as [T'' Hsub].
  split_and!; [done|set_solver|]. intros Hal. apply Hd'. clear -Hs Hal Hg' T'. unfold view in *.
  destruct Hs as [s m i ad ttl Hnew|s m q c a e' Hm Hnext Hc|s m q rel Hm Hph|s m q Hm|s l' e' He]; cbn [server_state processes] in *; try done.
  - destruct (called_effect _ _ _ _ _ Hc (tn_phase _ _ T' _ _ Hm) Hnext); revert Hal; cbn; set_solver.
  - apply et_law in He. revert Hal. inversion He; subst. cbn. set_solver.
Qed.
End leases.

(** ** Witnesses *)

(** etcd as its own law: a node registers and dies, starts again under the same
    id, takes its key over, and only then its first lease runs out. *)
#[local] Instance w_etcd_views : Etcd View := {| et_view v := v; et_step := view_step; et_law _ _ _ Hs := Hs |}.

Definition w_grant (l : Z) (v : View) : View := mk_view (content v) (attached v) ({[l]} ∪ alive v) ({[l]} ∪ granted v) (past v).
Definition w_go (n : nat) (f : process -> process) (e : View) (s : Membership View) : Membership View :=
  mk_membership e (match processes s !! n with Some p => <[n := f p]> (processes s) | None => processes s end).
Definition w_started (n : nat) (s : Membership View) : Membership View :=
  mk_membership (server_state s) (<[n := mk_process "shard-0" "10.0.0.1:50051" 10 None PGrant]> (processes s)).
Definition w_granted (n : nat) (l : Z) s := w_go n (advance (ALease l)) (w_grant l (server_state s)) s.
Definition w_put (n : nat) (l : Z) s := w_go n (advance AOk) (put_under (memberKey "shard-0") "10.0.0.1:50051" l (server_state s)) s.
Definition w_kept (n : nat) s := w_go n (advance AOk) (server_state s) s.

Definition w_m0 : Membership View := mk_membership (mk_view ∅ ∅ ∅ ∅ []) ∅.
Definition w_m1 := w_kept 0 (w_put 0 1 (w_granted 0 1 (w_started 0 w_m0))).
Definition w_dead := w_go 0 (with_phase PCrashed) (server_state w_m1) w_m1.
Definition w_m2 := w_granted 1 2 (w_started 1 w_dead).
Definition w_m3 := w_put 1 2 w_m2.
Definition w_m4 : Membership View := mk_membership (end_lease 1 [] (server_state w_m3)) (processes w_m3).

Lemma w_call (s : Membership View) n p c a e' :
  processes s !! n = Some p -> next_call p = Some c -> calls_etcd c a (server_state s) e' ->
  member_step s (Call n c) (w_go n (advance a) e' s).
Proof. intros Hn Hc He. unfold w_go. rewrite Hn. by eapply ms_call. Qed.

Lemma w_m0_none : no_members w_m0.
Proof. by split_and!. Qed.

(** A process of the example goes from its start to its put. *)
Lemma w_registers (s : Membership View) n l :
  processes s !! n = None -> l ∉ granted (server_state s) -> member_run s (w_put n l (w_granted n l (w_started n s))).
Proof.
  intros Hn Hl. eapply mr_next; [eapply mr_next; [eapply mr_next; [apply mr_refl|by apply ms_start]|]|].
  - eapply w_call; [apply lookup_insert_eq|reflexivity|]. eapply ce_grant. by apply (vs_grant (server_state s)).
  - eapply w_call; [cbn; rewrite lookup_insert_eq; apply lookup_insert_eq|reflexivity|]. eapply ce_put, vs_put. cbn. set_solver.
Qed.

Lemma member_run_trans {E} `{Etcd E} (s1 s2 s3 : Membership E) : member_run s1 s2 -> member_run s2 s3 -> member_run s1 s3.
Proof. intros H12 H23. induction H23; [done|]. by eapply mr_next. Qed.

Lemma w_run01 : member_run w_m0 w_m1.
Proof.
  eapply mr_next; [by apply (w_registers w_m0 0 1)|].
  eapply (w_call _ 0); [reflexivity|reflexivity|]. apply (ce_keepalive 1 true).
Qed.

Lemma w_run12 : member_run w_m1 w_m2.
Proof.
  apply (mr_next _ (w_started 1 w_dead) (Call 1 (Grant 10))); [apply (mr_next _ w_dead (Start 1)); [apply (mr_next _ w_m1 (Crash 0))|]|].
  - apply mr_refl.
  - apply (ms_crash w_m1 0 (mk_process "shard-0" "10.0.0.1:50051" 10 (Some 1%Z) (PUp (mk_releaser 1 false)))). reflexivity.
  - apply (ms_start w_dead 1). reflexivity.
  - apply (w_call (w_started 1 w_dead) 1 (mk_process "shard-0" "10.0.0.1:50051" 10 None PGrant)); [reflexivity|reflexivity|].
    apply ce_grant, (vs_grant (server_state w_m1)). refine (bool_decide_unpack _ _); vm_compute; exact I.
Qed.

Lemma w_step23 : member_step w_m2 (Call 1 (PutUnder (memberKey "shard-0") "10.0.0.1:50051" 2)) w_m3.
Proof.
  eapply (w_call w_m2 1); [reflexivity|reflexivity|]. eapply ce_put. apply vs_put. refine (bool_decide_unpack _ _); vm_compute; exact I.
Qed.

Lemma w_run24 : member_run w_m2 w_m4.
Proof.
  apply (mr_next _ w_m3 (Expire 1)); [exact (mr_next _ _ _ _ (mr_refl _) w_step23)|].
  apply (ms_expire w_m3), (vs_expire (server_state w_m3)). split; [apply NoDup_nil_2|].
  intros key. split; [by intros ?%elem_of_nil|]. cbn -[memberKey]. intros Hk. exfalso.
  rewrite insert_insert_eq in Hk. apply lookup_singleton_Some in Hk as [_ Hk]. discriminate.
Qed.

(** The restarted node holds its key by its second lease. *)
Lemma w_holds : holds_key w_m4 "shard-0" "10.0.0.1:50051" 1 2.
Proof. split; [by eexists|]. split; [refine (bool_decide_unpack _ _); vm_compute; exact I|reflexivity]. Qed.

Lemma ring_follows_leases_witness :
  exists snaps, WatchMembers w_members None (Some [(memberKey "shard-0", "10.0.0.1:50051")])
      (WEvents <$> [[EventPut (memberKey "shard-0") "10.0.0.1:50051"]]) = Some snaps
    /\ "shard-0" ∈ members (ring (@DriveRouter merge_SortSlice w_dialer w_range snaps w_router0)).
Proof.
  destruct (@ring_follows_leases View w_etcd_views merge_SortSlice w_dialer w_members w_range 2 w_router0 w_m0 w_m1 w_m4
    [(memberKey "shard-0", "10.0.0.1:50051")] [[EventPut (memberKey "shard-0") "10.0.0.1:50051"]])
    as (snaps & Hs & Hin & _).
  - intros m. reflexivity.
  - exact w_range_ok.
  - reflexivity.
  - exact w_m0_none.
  - exact w_run01.
  - exact (member_run_trans _ _ _ w_run12 w_run24).
  - reflexivity.
  - reflexivity.
  - intros n p Hp. cbn in Hp.
    repeat (apply lookup_insert_Some in Hp as [[_ <-]|[_ Hp]]; [reflexivity|]). by rewrite lookup_empty in Hp.
  - exists snaps. split; [exact Hs|]. apply Hin. exists "10.0.0.1:50051", 1, 2%Z. exact w_holds.
Defined.

Lemma membership_lost_only_witness :
  ~ holds_key w_m3 "shard-0" "10.0.0.1:50051" 0 1
  /\ exists n' addr' l', Call 1 (PutUnder (memberKey "shard-0") "10.0.0.1:50051" 2)
       = Call n' (PutUnder (memberKey "shard-0") addr' l') /\ n' <> 0.
Proof.
  assert (Hlost : ~ holds_key w_m3 "shard-0" "10.0.0.1:50051" 0 1) by (intros (_ & _ & Hat); discriminate).
  split; [exact Hlost|].
  destruct (membership_lost_only w_m0 w_m2 _ w_m3 "shard-0" "10.0.0.1:50051" 0 1 w_m0_none
    (member_run_trans _ _ _ w_run01 w_run12) w_step23) as [Hw|[Hw|Hw]]; [|exact Hlost|discriminate|discriminate|exact Hw].
  split; [eexists; split; [reflexivity|split_and!; reflexivity]|]. split; [refine (bool_decide_unpack _ _); vm_compute; exact I|reflexivity].
Defined.

Lemma ended_lease_stays_ended_witness : ~ holds_key w_m4 "shard-0" "10.0.0.1:50051" 0 1.
Proof.
  apply (ended_lease_stays_ended w_m0 w_m4 w_m4).
  - exact w_m0_none.
  - exact (member_run_trans _ _ _ w_run01 (member_run_trans _ _ _ w_run12 w_run24)).
  - refine (bool_decide_unpack _ _); vm_compute; exact I.
  - refine (bool_decide_unpack _ _); vm_compute; exact I.
  - apply mr_refl.
Defined.
