(* ===== verification/Replicator.v ===== *)
(** Primary-to-replica copies: [src/internal/server/replicator.go].

    The queue is a bounded channel; a forward is a function of the router and of
    how each peer's stream behaves, and yields the streams sent.  The last
    theorem composes the sender here with the receiving handler of the Server
    file. *)

From S2P Require Import Prelude Bytes Sha256 Float64 Policy Lru Store ColdTier Server Ring Router.

Definition replicateChunkBytes : Z := 1048576.
Definition replicaQueueDepth : nat := 256.

(** [Replicator]: its identity, factor, queue, and the metrics recorded; the
    shared router is an argument of the operations that read it. *)
Record Replicator := mk_replicator {
  self : string;
  rf : Z;
  queue : list ReplicaJob;
  repl_metrics : list metric;
}.

(** [NewReplicator] *)
Definition NewReplicator (self : string) (rf : Z) : Replicator := mk_replicator self rf [] [].

(** [QueueDepth] *)
Definition QueueDepth (r : Replicator) : nat := length (queue r).

(** [Enqueue]: never blocks. *)
Definition Enqueue (job : ReplicaJob) (r : Replicator) : Replicator :=
  if length (queue r) <? replicaQueueDepth
  then mk_replicator (self r) (rf r) (queue r ++ [job]) (repl_metrics r)
  else mk_replicator (self r) (rf r) (queue r) (repl_metrics r ++ [MReplica "dropped"]).

(** How a peer's Replicate stream behaves: whether it opens, how many sends it
    takes, and whether the final exchange succeeds (an [io.EOF] counts as
    success). *)
Record peer := mk_peer { pr_open : bool; pr_room : option nat; pr_ack : bool }.

(** The header [sendOne] sends. *)
Definition job_header (job : ReplicaJob) : WriteHeader :=
  mk_header (rj_ModelID job) (hash_bytes (rj_Hash job)) (rj_TokenIDs job) (rj_TenantID job) (rj_RecomputeCost job)
    (Z.of_nat (length (rj_KV job))) (rj_Version job) (rj_RoutingKey job).

(** [sendOne]: whether it succeeded, and the messages sent. *)
Definition sendOne (p : peer) (job : ReplicaJob) : bool * list WriteChunk :=
  if pr_open p then
    let '(ok, s) := Send (WCHeader (job_header job)) (mk_sink [] (pr_room p)) in
    if ok then
      let '(ok, s) := stream_data replicateChunkBytes (fun d last => WCChunk (mk_chunk d last)) (rj_KV job) s in
      if ok then (pr_ack p, sent s) else (false, sent s)
    else (false, sent s)
  else (false, []).

(** One stream sent by [forward]. *)
Record delivery := mk_delivery { dl_id : string; dl_conn : conn; dl_ok : bool; dl_msgs : list WriteChunk }.

(** The loop of [forward] over the owners. *)
Fixpoint forward_loop (net : conn -> peer) (rt : Router) (self : string) (job : ReplicaJob) (ids : list string)
    (m : list metric) : list delivery * list metric :=
  match ids with
  | [] => ([], m)
  | id :: ids =>
      if decide (id = self) then forward_loop net rt self job ids m
      else match ConnFor id rt with
           | None => forward_loop net rt self job ids m
           | Some c =>
               let '(ok, msgs) := sendOne (net c) job in
               let '(dls, m) := forward_loop net rt self job ids
                                  (m ++ [MReplica (if ok then "forwarded" else "error")]) in
               (mk_delivery id c ok msgs :: dls, m)
           end
  end.

(** The key [forward] places a job by: the prompt root, or the block's own hash. *)
Definition placement_key (job : ReplicaJob) : list byte :=
  match rj_RoutingKey job with [] => hash_bytes (rj_Hash job) | key => key end.

(** [forward] *)
Definition forward (net : conn -> peer) (rt : Router) (job : ReplicaJob) (r : Replicator) : list delivery * Replicator :=
  let ids := OwnersN (placement_key job) (rf r) rt in
  let '(dls, m) := forward_loop net rt (self r) job ids (repl_metrics r) in
  (dls, mk_replicator (self r) (rf r) (queue r) m).

(** One round of [Run]: the job received, if any. *)
Definition run_round (net : conn -> peer) (rt : Router) (r : Replicator) : option (ReplicaJob * list delivery) * Replicator :=
  match queue r with
  | [] => (None, r)
  | job :: rest =>
      let '(dls, r) := forward net rt job (mk_replicator (self r) (rf r) rest (repl_metrics r)) in
      (Some (job, dls), r)
  end.

(** ** The queue *)

Inductive repl_event :=
  | EvEnqueue (job : ReplicaJob)
  | EvRound (net : conn -> peer) (rt : Router).

(** The replicator after some events, with the jobs offered to it and the jobs it
    has taken off its queue so far. *)
Definition repl_step (st : Replicator * list ReplicaJob * list ReplicaJob) (ev : repl_event) :
    Replicator * list ReplicaJob * list ReplicaJob :=
  let '(r, offered, taken) := st in
  match ev with
  | EvEnqueue job => (Enqueue job r, offered ++ [job], taken)
  | EvRound net rt =>
      match run_round net rt r with
      | (Some (job, _), r) => (r, offered, taken ++ [job])
      | (None, r) => (r, offered, taken)
      end
  end.
Definition repl_run (r : Replicator) (evs : list repl_event) := fold_left repl_step evs (r, [], []).

Definition is_drop (m : metric) : Prop := m = MReplica "dropped".
#[export] Instance metric_eq_decision : EqDecision metric.
Proof. solve_decision. Defined.
#[export] Instance is_drop_dec m : Decision (is_drop m) := decide (m = MReplica "dropped").

(** The number of jobs dropped so far. *)
Definition drops (r : Replicator) : nat := length (filter is_drop (repl_metrics r)).

Lemma forward_loop_drops net rt self job ids m :
  length (filter is_drop (forward_loop net rt self job ids m).2) = length (filter is_drop m).
Proof.
  revert m. induction ids as [|id ids IH]; intros m; [done|]. cbn [forward_loop].
  case_decide; [apply IH|]. destruct (ConnFor id rt) as [c|]; [|apply IH].
  destruct (sendOne (net c) job) as [ok msgs]. specialize (IH (m ++ [MReplica (if ok then "forwarded" else "error")])).
  destruct (forward_loop _ _ _ _ ids _) as [dls m']. cbn [snd] in *. rewrite IH, filter_app, filter_cons_False.
  - by rewrite filter_nil, app_nil_r.
  - unfold is_drop. by destruct ok.
Qed.

(** What the replicator owes of the jobs offered to it. *)
Definition balanced (st : Replicator * list ReplicaJob * list ReplicaJob) : Prop :=
  let '(r, offered, taken) := st in
  QueueDepth r <= replicaQueueDepth /\ (taken ++ queue r) `sublist_of` offered
  /\ length offered = length taken + length (queue r) + drops r.

Lemma balanced_step ev st : balanced st -> balanced (repl_step st ev).
Proof.
  destruct st as [[r offered] taken]. intros (Hd & Hs & Hn). destruct ev as [job|net rt]; cbn [repl_step].
  - unfold balanced, Enqueue, QueueDepth, drops in *. destruct (Nat.ltb_spec (length (queue r)) replicaQueueDepth); cbn [queue repl_metrics].
    + rewrite !length_app. cbn [length]. split_and!; [lia| |lia]. rewrite app_assoc. by apply sublist_app.
    + rewrite filter_app, !length_app, filter_cons_True by done. cbn [length filter list_filter].
      split_and!; [done|by apply sublist_inserts_r|]. change (length (filter is_drop [])) with 0. lia.
  - unfold run_round. destruct (queue r) as [|job rest] eqn:Hq; [unfold balanced; by rewrite Hq|].
    unfold forward. pose proof (forward_loop_drops net rt (self r) job
      (OwnersN (placement_key job) (rf r) rt) (repl_metrics r)) as Hdr. cbn [Replicator.self Replicator.rf queue repl_metrics].
    destruct (forward_loop _ _ _ _ _ _) as [dls m]. unfold balanced. cbn [queue snd] in *. unfold QueueDepth, drops in *. rewrite Hq in *.
    cbn [queue repl_metrics length] in *. rewrite <- app_assoc, length_app. cbn [length app]. split_and!; [lia|done|lia].
Qed.

Lemma repl_run_balanced self rf evs : balanced (repl_run (NewReplicator self rf) evs).
Proof.
  unfold repl_run. assert (Hb : balanced (NewReplicator self rf, [], [])) by (split_and!; [cbn; lia|done|done]).
  revert Hb. generalize (NewReplicator self rf, @nil ReplicaJob, @nil ReplicaJob).
  induction evs as [|ev evs IH]; intros st Hb; [done|]. cbn [fold_left]. by apply IH, balanced_step.
Qed.

(** C38. The backlog is bounded and loses nothing silently: after any enqueues and
    rounds the queue holds at most 256 jobs, the jobs taken and those still
    queued are, in order, a subsequence of the jobs offered, and every job
    missing from it was counted as dropped. *)
Theorem queue_bounded_fifo self rf evs :
  let '(r, offered, taken) := repl_run (NewReplicator self rf) evs in
  QueueDepth r <= replicaQueueDepth
  /\ (taken ++ queue r) `sublist_of` offered
  /\ length offered = length taken + length (queue r) + drops r.
Proof. exact (repl_run_balanced self rf evs). Qed.

(** The call of [Enqueue] for [job] that came after [before] found the queue full,
    and was counted. *)
Definition dropped_after self rf (before : list repl_event) (job : ReplicaJob) : Prop :=
  let r := (repl_run (NewReplicator self rf) before).1.1 in
  QueueDepth r = replicaQueueDepth /\ queue (Enqueue job r) = queue r /\ drops (Enqueue job r) = S (drops r).

(** Every job offered has been taken, is queued, or was dropped and counted. *)
Lemma offered_fate self rf evs job :
  let '(r, offered, taken) := repl_run (NewReplicator self rf) evs in
  job ∈ offered ->
  job ∈ taken \/ job ∈ queue r
  \/ exists before after, evs = before ++ EvEnqueue job :: after /\ dropped_after self rf before job.
Proof.
  induction evs as [|ev evs IH] using rev_ind; [by intros ?%elem_of_nil|].
  pose proof (repl_run_balanced self rf evs) as Hb. unfold dropped_after in *. unfold repl_run in *. rewrite fold_left_app. cbn [fold_left].
  destruct (fold_left repl_step evs _) as [[r offered] taken] eqn:E. destruct Hb as (Hd & _ & _).
  assert (Hold : forall e, (exists before after, evs = before ++ EvEnqueue job :: after /\ dropped_after self rf before job) ->
    exists before after, evs ++ [e] = before ++ EvEnqueue job :: after /\ dropped_after self rf before job).
  { intros e (b & a & -> & Hdr). exists b, (a ++ [e]). by rewrite <- app_assoc. }
  destruct ev as [j|net rt]; cbn [repl_step].
  - intros [Hin| ->%list_elem_of_singleton]%elem_of_app.
    + destruct (IH Hin) as [Ht|[Hq|Hdr]]; [by left| |right; right; by apply Hold]. right; left.
      unfold Enqueue. destruct (_ <? _); cbn [queue]; [apply elem_of_app; by left|done].
    + destruct (Nat.ltb_spec (length (queue r)) replicaQueueDepth) as [Hlt|Hge].
      * right; left. unfold Enqueue. rewrite (proj2 (Nat.ltb_lt _ _) Hlt). cbn [queue]. apply elem_of_app. right. by left.
      * right; right. exists evs, []. split; [done|]. unfold repl_run. rewrite E. cbn [fst]. unfold Enqueue, QueueDepth, drops in *.
        rewrite (proj2 (Nat.ltb_ge _ _) Hge). cbn [queue repl_metrics]. rewrite filter_app, length_app, filter_cons_True by done.
        cbn. split_and!; [lia|done|lia].
  - unfold run_round. destruct (queue r) as [|j rest] eqn:Hq.
    + intros Hin. destruct (IH Hin) as [Ht|[Hn|Hdr]]; [by left|by apply elem_of_nil in Hn|right; right; by apply Hold].
    + unfold forward. destruct (forward_loop _ _ _ _ _ _) as [dls m]. cbn [queue]. intros Hin.
      destruct (IH Hin) as [Ht|[Hn|Hdr]]; [left; apply elem_of_app; by left| |right; right; by apply Hold].
      apply elem_of_cons in Hn as [->|Hn]; [left; apply elem_of_app; right; by left|by right; left].
Qed.

(** ** What a forward sends *)

(** The messages of a complete stream. *)
Definition job_messages (job : ReplicaJob) : list WriteChunk :=
  upload_messages replicateChunkBytes (job_header job) (rj_KV job).

Lemma sendOne_spec p job :
  sendOne p job =
  if pr_open p then
    match pr_room p with
    | None => (pr_ack p, job_messages job)
    | Some n => (bool_decide (length (job_messages job) <= n) && pr_ack p, take n (job_messages job))
    end
  else (false, []).
Proof.
  unfold sendOne. destruct (pr_open p); [|done].
  assert (Hall : forall s, (let '(ok, s) := Send (WCHeader (job_header job)) s in
      if ok then stream_data replicateChunkBytes (fun d last => WCChunk (mk_chunk d last)) (rj_KV job) s else (false, s))
    = send_all (job_messages job) s).
  { intros s. unfold job_messages, upload_messages. cbn [send_all]. destruct (Send _ s) as [[|] s']; [|done].
    by rewrite stream_data_spec. }
  specialize (Hall (mk_sink [] (pr_room p))). rewrite send_all_spec in Hall.
  set (ms := job_messages job) in *. clearbody ms. cbn [room sent app] in Hall.
  destruct (Send _ _) as [[|] s1].
  - destruct (stream_data _ _ _ s1) as [ok s2]. destruct (pr_room p); injection Hall as -> ->; cbn [sent]; [|done].
    by destruct (bool_decide _).
  - destruct (pr_room p); [|done]. injection Hall as <- ->. done.
Qed.

Lemma job_messages_assemble can_alloc job :
  can_alloc (Z.of_nat (length (rj_KV job))) = true ->
  assembleBlock can_alloc (mk_stream (job_messages job) true) = Done (job_header job, rj_KV job).
Proof.
  intros Ha. apply upload_assembles; [done|]. intros _. exact Ha.
Qed.

Lemma forward_loop_spec net rt self job ids m :
  (fun d => (dl_id d, dl_conn d)) <$> (forward_loop net rt self job ids m).1
    = omap (fun id => c ← ConnFor id rt; Some (id, c)) (filter (fun id => id <> self) ids)
  /\ Forall (fun d => (dl_ok d, dl_msgs d) = sendOne (net (dl_conn d)) job) (forward_loop net rt self job ids m).1.
Proof.
  revert m. induction ids as [|id ids IH]; intros m; [by split|]. cbn [forward_loop]. rewrite filter_cons.
  destruct (decide (id = self)) as [->|Hne].
  - rewrite decide_False by tauto. apply IH.
  - rewrite decide_True by done. cbn [omap list_omap]. destruct (ConnFor id rt) as [c|] eqn:Hc; cbn; [|apply IH].
    destruct (sendOne (net c) job) as [ok msgs] eqn:Hs.
    specialize (IH (m ++ [MReplica (if ok then "forwarded" else "error")])).
    destruct (forward_loop _ _ _ _ ids _) as [dls m']. cbn [fst] in *. destruct IH as [IH1 IH2].
    split; [by rewrite fmap_cons, IH1|]. constructor; [done|exact IH2].
Qed.

Section properties.
Context `{SortSlice} `{Dialer} (vnodes : Z) (rt0 : Router) (Hnew : Router.New vnodes = Some rt0).
Context (calls : list (PoolRange * list Member)).

(** The router the replicator shares. *)
Let rt : Router := router_run rt0 calls.

(** Every copy goes where the ring says, once: [forward] opens exactly one
    stream to each of the first [rf] owners of the block's placement key except
    this node, in their order, over that owner's pooled connection; from the
    primary that is one fewer stream than owners. *)
Theorem forward_targets net job r :
  let '(dls, r') := forward net rt job r in
  let owners := OwnersN (placement_key job) (rf r) rt in
  dl_id <$> dls = filter (fun id => id <> self r) owners
  /\ NoDup (dl_id <$> dls)
  /\ Forall (fun d => pool rt !! dl_id d = Some (dl_conn d)) dls
  /\ (head owners = Some (self r) ->
      length dls = Nat.pred (Nat.min (Z.to_nat (rf r)) (size (members (ring rt)))))
  /\ queue r' = queue r.
Proof.
  assert (Hw : router_wf rt) by by apply router_wf_run, (router_wf_new vnodes).
  unfold forward. destruct (forward_loop_spec net rt (self r) job (OwnersN (placement_key job) (rf r) rt) (repl_metrics r))
    as [Hd _]. destruct (forward_loop _ _ _ _ _ _) as [dls m]. cbn [fst] in Hd.
  set (own := OwnersN (placement_key job) (rf r) rt) in *.
  assert (Hown : forall id, id ∈ own -> is_Some (pool rt !! id)).
  { intros id. unfold own, OwnersN. rewrite LookupN_owners by apply Hw. intros Hid%subseteq_take.
    apply elem_of_owners in Hid; [|apply Hw]. rewrite (rt_members rt Hw) in Hid. by apply elem_of_dom. }
  assert (Hnd : NoDup own).
  { unfold own, OwnersN. rewrite LookupN_owners by apply Hw. eapply sublist_NoDup; [apply NoDup_nub|apply sublist_take]. }
  assert (Hids : dl_id <$> dls = filter (fun id => id <> self r) own
      /\ Forall (fun d => pool rt !! dl_id d = Some (dl_conn d)) dls).
  { assert (Hf : forall id, id ∈ filter (fun id => id <> self r) own -> is_Some (pool rt !! id))
      by (intros id [_ ?]%list_elem_of_filter; by apply Hown).
    clear Hown Hnd. revert dls Hd. induction (filter _ own) as [|id l IH]; intros dls Hd.
    - by destruct dls.
    - cbn in Hd. destruct (Hf id ltac:(by left)) as [c Hc]. unfold ConnFor in Hd. rewrite Hc in Hd. cbn in Hd.
      destruct dls as [|d dls]; [done|]. rewrite fmap_cons in Hd. injection Hd as Hi Hco Hd.
      destruct (IH ltac:(intros; apply Hf; by right) dls Hd) as [H1 H2]. rewrite fmap_cons, H1, Hi.
      split; [done|]. constructor; [by rewrite Hi, Hco|done]. }
  destruct Hids as [Hids Hpool]. split_and!; [done|rewrite Hids; by apply NoDup_filter|done| |done].
  intros Hh. rewrite <- (length_fmap dl_id dls), Hids.
  assert (Hlen : length own = Nat.min (Z.to_nat (rf r)) (size (members (ring rt)))).
  { unfold own, OwnersN. rewrite LookupN_owners, length_take, length_owners by apply Hw. done. }
  rewrite <- Hlen. destruct own as [|x l]; [done|]. injection Hh as ->.
  rewrite filter_cons_False by tauto. rewrite filter_all; [done|]. intros y Hy ->.
  by apply NoDup_cons in Hnd as [? _].
Qed.

End properties.

(** C14. Replication is exact end to end: if this node's stream to a peer is not
    cut, the peer's [Replicate] handler, in any state, acknowledges, and then
    holds the job's block, tokens, tenant and cost under the primary's version,
    or already held that version or a newer one, which it keeps; a cut stream
    changes nothing at the peer. *)
Theorem replication_end_to_end {P T} `{EvictionPolicy P} `{ColdTier T} (p : P) opts with_repl (c0 : option T) evs
    can_alloc now pr job :
  let s := server_run (boot p opts with_repl c0) evs in
  let '(ok, msgs) := sendOne pr job in
  rj_Version job <> 0%Z -> can_alloc (Z.of_nat (length (rj_KV job))) = true ->
  (ok = true ->
   let '(r, s') := Replicate can_alloc now (mk_stream msgs true) s in
   let k := storeKey (rj_ModelID job) (rj_Hash job) in
   (exists resp, r = Done resp)
   /\ exists g, flat (store s') !! k = Some g
      /\ ((exists prev, flat (store s) !! k = Some prev /\ rj_Version job <= Version prev /\ g = prev)%Z
          \/ (KV g = rj_KV job /\ TokenIDs g = rj_TokenIDs job /\ ModelID g = rj_ModelID job /\ WireHash g = rj_Hash job
              /\ TenantID g = rj_TenantID job /\ RecomputeCost g = rj_RecomputeCost job /\ Version g = rj_Version job)))
  /\ (Replicate can_alloc now (mk_stream msgs false) s).2 = s.
Proof.
  intros s. pose proof (sw_striped _ (server_wf p opts with_repl c0 evs)) as Hst. fold s in Hst.
  pose proof (sendOne_spec pr job) as Hsend. destruct (sendOne pr job) as [ok msgs]. intros Hv Ha. split.
  - intros ->. assert (msgs = job_messages job) as ->.
    { destruct (pr_open pr); [|done]. destruct (pr_room pr) as [n|]; injection Hsend as Hok ->; [|done].
      symmetry in Hok. apply andb_true_iff in Hok as [Hle%bool_decide_eq_true _]. by rewrite take_ge. }
    pose proof (Replicate_spec can_alloc now (mk_stream (job_messages job) true) s Hst) as Hr.
    unfold Replicate in *. rewrite job_messages_assemble in * by done. unfold toBlockHash in *.
    cbn [job_header hdr_BlockHash hdr_Version] in *. rewrite hash32_of_bytes in *.
    rewrite (proj2 (Z.eqb_neq _ _) Hv) in *.
    destruct (PutWithVersion now (rj_Hash job) _ (rj_Version job) (store s)) as [v st'].
    destruct Hr as (_ & hdr & msgs' & h & Heq & Hh & _ & _ & _ & g & Hg & _ & Hor).
    split; [by eexists|]. injection Heq as <- Hm. cbn [job_header hdr_BlockHash] in Hh. apply hash32_eq in Hh as <-. exists g. split; [done|]. destruct Hor as [Hold|Hnew]; [left; exact Hold|right].
    pose proof (job_messages_assemble can_alloc job Ha) as Has. apply assembleBlock_done in Has as (ms & snt & Hms & _ & Hkv & _).
    injection Hms as Hms. rewrite <- Hm, Hms, <- Hkv in Hnew. destruct Hnew as (? & ? & ? & ? & ? & ? & ? & ?).
    by split_and!.
  - unfold Replicate. rewrite assembleBlock_outcome. cbn [st_msgs st_eof].
    destruct msgs as [|[hdr|c|] msgs]; try done. case_decide; [done|]. by case_decide.
Qed.

(** ** Witnesses *)

Definition w_job : ReplicaJob := mk_replica_job hash32_zero "m#tp0/2" [x01; x02] [7]%Z "t" f64_1 3 [].

Lemma forward_targets_witness :
  let '(dls, r') := forward (fun _ => mk_peer true None true) w_router w_job (NewReplicator "shard-0" 2) in
  queue r' = [].
Proof.
  pose proof (@forward_targets merge_SortSlice w_dialer 2 w_router0 eq_refl w_calls
    (fun _ => mk_peer true None true) w_job (NewReplicator "shard-0" 2)) as Hf.
  destruct (forward _ _ _ _) as [dls r']. destruct Hf as (_ & _ & _ & _ & Hq). exact Hq.
Defined.

Abbreviation w_peer := (server_run (boot NewLRU [] true (None : option Memory)) []).

Lemma replication_end_to_end_witness :
  let '(ok, msgs) := sendOne (mk_peer true None true) w_job in
  (Replicate (fun _ => true) 5 (mk_stream msgs false) w_peer).2 = w_peer.
Proof.
  pose proof (replication_end_to_end NewLRU [] true (None : option Memory) [] (fun _ => true) 5
    (mk_peer true None true) w_job) as Hr.
  cbv zeta in *. destruct (sendOne _ _) as [ok msgs]. destruct (Hr ltac:(discriminate) eq_refl) as [_ Hc]. exact Hc.
Defined.
