(* ===== verification/Replicas.v ===== *)
(** Do the copies of a block agree?

    A primary mints versions ([Store.Put] in [src/internal/cache/store.go]), queues each
    write as a job ([Server.Write]), and its replicas store what is delivered under
    the primary's version unless they hold a newer one ([PutWithVersion]).  Handlers
    interleave on the primary, so jobs may be queued out of order; deliveries may be
    late, reordered or repeated.  As long as the primary keeps the block, every such
    schedule ends with equal copies ([replicas_converge]).  Once the primary has
    evicted it, the version starts again at 1 and the copies can differ for good
    ([version_reset_diverges]).  Last, the node's calls of [Enqueue] are put
    together with the queue behind them: what becomes of the job of an acknowledged
    write ([write_acknowledged]). *)

From S2P Require Import Prelude Bytes Sha256 Float64 Policy Lru Store ColdTier Server Handlers Ring Router Replicator.

(** ** Copies *)

Definition job_key (job : ReplicaJob) : BlockHash := storeKey (rj_ModelID job) (rj_Hash job).

(** The entry is the block of the job, at its version. *)
Definition carries (g : Entry) (job : ReplicaJob) : Prop :=
  KV g = rj_KV job /\ TokenIDs g = rj_TokenIDs job /\ ModelID g = rj_ModelID job /\ WireHash g = rj_Hash job
  /\ TenantID g = rj_TenantID job /\ RecomputeCost g = rj_RecomputeCost job /\ Version g = rj_Version job
  /\ SizeBytes g = Z.of_nat (length (rj_KV job)).

(** Two copies of a block, up to what each node notes for itself (times, reuse). *)
Definition agree (e g : Entry) : Prop :=
  KV e = KV g /\ TokenIDs e = TokenIDs g /\ ModelID e = ModelID g /\ WireHash e = WireHash g
  /\ TenantID e = TenantID g /\ RecomputeCost e = RecomputeCost g /\ Version e = Version g /\ SizeBytes e = SizeBytes g.

Lemma carries_agree e g job : carries e job -> carries g job -> agree e g.
Proof. unfold carries, agree. intuition congruence. Qed.

Lemma carries_access now e job : carries (recordAccess now e) job <-> carries e job.
Proof. done. Qed.

(** ** The replica *)

Section replica.
Context {P T : Type} `{EvictionPolicy P} `{ColdTier T} (can_alloc : Z -> bool).
Implicit Types (s : Server P T).

(** One job's stream arrives whole, at the time [now]. *)
Definition deliver (now : Z) (job : ReplicaJob) s : Server P T :=
  (Replicate can_alloc now (mk_stream (job_messages job) true) s).2.
Definition deliver_all (ds : list (Z * ReplicaJob)) s : Server P T :=
  fold_left (fun s d => deliver d.1 d.2 s) ds s.

(** The replica takes a job: it has a version and its announced size can be allocated. *)
Definition accepted (job : ReplicaJob) : Prop :=
  rj_Version job <> 0%Z /\ (0 < Z.of_nat (length (rj_KV job)) -> can_alloc (Z.of_nat (length (rj_KV job))) = true)%Z.
#[export] Instance accepted_dec job : Decision (accepted job).
Proof. unfold accepted. apply _. Defined.

Definition job_entry (job : ReplicaJob) : Entry := header_entry (job_header job) (rj_KV job).

Lemma deliver_flat now job s :
  striped (store s) ->
  striped (store (deliver now job s))
  /\ flat (store (deliver now job s))
     = if decide (accepted job)
       then (FlatStore.put_with_version now (rj_Hash job) (job_entry job) (rj_Version job) (flat (store s))).2
       else flat (store s).
Proof.
  intros Hst. unfold deliver, Replicate. rewrite assembleBlock_outcome. unfold job_messages, upload_messages. cbn [st_msgs st_eof].
  pose proof (upload_assembles (fun _ => true) replicateChunkBytes (job_header job) (rj_KV job) ltac:(done) ltac:(done)) as Hup.
  apply assembleBlock_done in Hup as (ms & snt & Hms & Hnh & Hkv & _). injection Hms as Hms. rewrite <- Hms in Hkv, Hnh.
  destruct (decide (0 < hdr_TotalSize (job_header job) /\ can_alloc (hdr_TotalSize (job_header job)) = false)%Z) as [[Hp Hc]|Hc].
  { cbn in *. rewrite decide_False; [done|]. intros [_ Ha]. rewrite Ha in Hc; done. }
  rewrite decide_True by done. unfold toBlockHash. cbn [job_header hdr_BlockHash hdr_Version].
  rewrite hash32_of_bytes. destruct (Z.eqb_spec (rj_Version job) 0) as [Hv|Hv].
  { cbn. rewrite decide_False; [done|]. by intros [? _]. }
  fold (job_header job). rewrite <- Hkv. fold (job_entry job).
  rewrite decide_True.
  2: { split; [done|]. intros Hpos. destruct (can_alloc _) eqn:E; [done|]. by destruct Hc. }
  set (c := CPutWithVersion now (rj_Hash job) (Some (job_entry job)) (rj_Version job)).
  pose proof (flat_step c (store s) Hst) as [Hf _]. pose proof (striped_step c (store s) Hst) as Hst'.
  unfold c in *. cbn [store_step FlatStore.step] in *. rewrite decide_False in Hf by done.
  destruct (PutWithVersion _ _ _ _ _) as [v st']. cbn [snd set_store store] in *.
  split; [done|]. rewrite Hf. by destruct (FlatStore.put_with_version _ _ _ _ _).
Qed.

Lemma stored_carries job created : carries (stored_entry (rj_Hash job) (job_entry job) (rj_Version job) created) job.
Proof. done. Qed.

(** What a replica that did not have the block holds of it after some deliveries. *)
Definition newest (k : BlockHash) (js : list ReplicaJob) (o : option Entry) : Prop :=
  match o with
  | None => forall job, job ∈ js -> job_key job = k -> ~ accepted job
  | Some g => (exists job, job ∈ js /\ job_key job = k /\ accepted job /\ carries g job)
      /\ forall job, job ∈ js -> job_key job = k -> accepted job -> (rj_Version job <= Version g)%Z
  end.

Lemma newest_nil k : newest k [] None.
Proof. intros job Hj. by apply elem_of_nil in Hj. Qed.

Lemma newest_cons k js o job :
  newest k js o -> (job_key job = k -> ~ accepted job) -> newest k (js ++ [job]) o.
Proof.
  intros Hn Hj. destruct o as [g|]; cbn in *.
  - destruct Hn as [(j & Hin & Hr) Hmax]. split; [exists j; split; [apply elem_of_app; by left|done]|].
    intros j' [Hj'| ->%list_elem_of_singleton]%elem_of_app Hk Ha; [by apply Hmax|by destruct (Hj Hk)].
  - intros j' [Hj'| ->%list_elem_of_singleton]%elem_of_app Hk; [by apply Hn|by apply Hj].
Qed.

Lemma deliver_newest k js now job s :
  striped (store s) -> newest k js (flat (store s) !! k) ->
  newest k (js ++ [job]) (flat (store (deliver now job s)) !! k).
Proof.
  intros Hst Hn. destruct (deliver_flat now job s Hst) as [_ ->]. case_decide as Ha; [|by apply newest_cons].
  unfold FlatStore.put_with_version. change (storeKey (ModelID (job_entry job)) (rj_Hash job)) with (job_key job).
  destruct (decide (job_key job = k)) as [Hk|Hne].
  - subst k. destruct (flat (store s) !! job_key job) as [prev|] eqn:Hp; [case_decide as Hle|]; cbn [snd].
    + rewrite Hp in *. destruct Hn as [(j & Hin & Hr) Hmax]. split; [exists j; split; [apply elem_of_app; by left|done]|].
      intros j' [Hj'| ->%list_elem_of_singleton]%elem_of_app Hk' Ha'; [by apply Hmax|done].
    + rewrite lookup_insert_eq. destruct Hn as [_ Hmax]. split.
      * exists job. split_and!; [apply elem_of_app; right; by apply list_elem_of_singleton|done|done|apply stored_carries].
      * cbn. intros j' [Hj'| ->%list_elem_of_singleton]%elem_of_app Hk' Ha'; [|lia].
        specialize (Hmax j' Hj' Hk' Ha'). lia.
    + rewrite lookup_insert_eq. split.
      * exists job. split_and!; [apply elem_of_app; right; by apply list_elem_of_singleton|done|done|apply stored_carries].
      * cbn. intros j' [Hj'| ->%list_elem_of_singleton]%elem_of_app Hk' Ha'; [|lia]. by destruct (Hn j' Hj' Hk').
  - apply newest_cons; [|done].
    destruct (flat (store s) !! job_key job) as [prev|]; [case_decide|]; cbn [snd]; try done; by rewrite lookup_insert_ne.
Qed.

Lemma deliver_all_newest k js ds s :
  striped (store s) -> newest k js (flat (store s) !! k) ->
  newest k (js ++ ds.*2) (flat (store (deliver_all ds s)) !! k).
Proof.
  revert js s. induction ds as [|[now job] ds IH]; intros js s Hst Hn; [by rewrite app_nil_r|]. cbn [deliver_all fold_left].
  rewrite fmap_cons, cons_middle, app_assoc. apply IH.
  - by apply (deliver_flat now job s).
  - by apply deliver_newest.
Qed.

End replica.

(** ** The primary *)

(** The job says what was put. *)
Definition job_of (h : BlockHash) (e : Entry) (v : Z) (job : ReplicaJob) : Prop :=
  rj_Hash job = h /\ rj_ModelID job = ModelID e /\ rj_KV job = KV e /\ rj_TokenIDs job = TokenIDs e
  /\ rj_TenantID job = TenantID e /\ rj_RecomputeCost job = RecomputeCost e /\ rj_Version job = v.

(** What is put is queued next, and nothing else is queued; [due]: a put whose job is
    still to be queued. *)
Fixpoint coupled {A} (due : option (BlockHash * Entry * Z)) (p : prog A) : Prop :=
  match p with
  | Ret _ => due = None
  | @Act _ B x f =>
      match x in action B return (option (BlockHash * Entry * Z) -> B -> Prop) -> Prop with
      | DoPut h e => fun rec => due = None /\ forall v, rec (Some (h, e, v)) v
      | DoEnqueue job => fun rec => (exists h e v, due = Some (h, e, v) /\ job_of h e v job) /\ rec None tt
      | _ => fun rec => due = None /\ forall b, rec None b
      end (fun d b => coupled d (f b))
  end.

Definition quiet {B} (x : action B) : Prop :=
  match x with DoPut _ _ | DoEnqueue _ => False | _ => True end.

Lemma quiet_coupled {A} (Q : A -> Prop) (p : prog A) :
  wp (@quiet) (fun _ _ _ => True) Q p -> coupled None p.
Proof.
  induction p as [a|B x f IH]; [done|]. intros [Hx Hf].
  destruct x; cbn in *; try done; (split; [done|]); intros b; by apply IH, Hf.
Qed.

Lemma handler_coupled q : coupled None (handler q).
Proof.
  assert (Hq : (forall ca st, q <> QWrite ca st) -> coupled None (handler q)).
  { intros Hne. eapply quiet_coupled, handler_wp; [done|done|]. destruct q; try done. by destruct (Hne can_alloc st). }
  destruct q as [| | |ca st| | |]; try (by apply Hq). clear Hq. cbn [handler]. unfold write_prog.
  destruct (assembleBlock ca st) as [[hdr buf]| |]; try done. destruct (toBlockHash _) as [h|]; [|done]. cbn.
  split; [done|]. intros [|]; [done|]. cbn. split; [done|]. intros v. cbn. split; [|done].
  exists h, (header_entry hdr buf), v. done.
Qed.

(** The job a call is about to queue. *)
Definition next_job {A} (p : prog A) : option ReplicaJob :=
  match p with Act (DoEnqueue job) _ => Some job | _ => None end.

(** A call between its accesses: nothing due, or the job of what it has put. *)
Definition in_order (p : prog reply) : Prop :=
  exists due, coupled due p.

Lemma coupled_due {A} d (p : prog A) :
  coupled (Some d) p -> exists job f, p = Act (DoEnqueue job) f /\ job_of d.1.1 d.1.2 d.2 job /\ coupled None (f tt).
Proof.
  destruct p as [a|B x f]; [done|]. destruct x; cbn; try (by intros [? _]).
  intros [(h & e & v & [= ->] & Hj) Hf]. by exists j, f.
Qed.

(** What an event may not do to the block under the key: remove it, or store it at
    a version this node did not mint. *)
Definition act_spares (k : BlockHash) {B} (x : action B) : Prop :=
  match x with
  | DoDelete model h => storeKey model h <> k
  | DoPutWithVersion h e _ => storeKey (ModelID e) h <> k
  | _ => True
  end.

Section primary.
Context {P T : Type} `{EvictionPolicy P} `{ColdTier T}.
Implicit Types (s : Server P T) (l : Live P T).

Definition spares (k : BlockHash) l (ev : live_event T) : Prop :=
  match ev with
  | LAct n _ => forall q B (x : action B) f, live_calls l !! n = Some (mk_call q (Act x f)) -> act_spares k x
  | LEvictor c => c <> CEvict k
  | _ => True
  end.

(** [n] events that spare the block. *)
Inductive sparing_run (k : BlockHash) l : nat -> Live P T -> Prop :=
  | sparing_refl : sparing_run k l 0 l
  | sparing_next n l1 ev l2 :
      sparing_run k l n l1 -> spares k l1 ev -> live_step l1 ev l2 -> sparing_run k l (S n) l2.

(** The jobs that are queued or about to be. *)
Definition owed_job l (job : ReplicaJob) : Prop :=
  (exists jobs, repl (live_server l) = Some jobs /\ job ∈ jobs)
  \/ exists m q p, live_calls l !! m = Some (mk_call q p) /\ next_job p = Some job.

(** The resident block is the newest write of its key, whose job is owed; older
    writes have smaller versions. *)
Definition newest_owed (k : BlockHash) l (n : nat) : Prop :=
  match flat (store (live_server l)) !! k with
  | None => forall job, owed_job l job -> job_key job <> k
  | Some e =>
      (1 <= Version e <= Z.of_nat n)%Z
      /\ (exists job, owed_job l job /\ job_key job = k /\ carries e job)
      /\ forall job, owed_job l job -> job_key job = k ->
           (1 <= rj_Version job <= Version e)%Z /\ (rj_Version job = Version e -> carries e job)
  end.

Record primary_inv (k : BlockHash) l (n : nat) : Prop := mk_primary_inv {
  pi_striped : striped (store (live_server l));
  pi_repl : exists jobs, repl (live_server l) = Some jobs;
  pi_calls m q p : live_calls l !! m = Some (mk_call q p) -> in_order p;
  pi_newest : newest_owed k l n;
}.

(** Nothing but the bookkeeping of the resident block changes. *)
Definition same_block (o o' : option Entry) : Prop :=
  match o, o' with
  | Some e, Some e' => Version e' = Version e /\ forall job, carries e job <-> carries e' job
  | None, None => True
  | _, _ => False
  end.

Lemma same_block_refl o : same_block o o.
Proof. by destruct o. Qed.

Lemma newest_owed_same k l l' n n' :
  n <= n' -> same_block (flat (store (live_server l)) !! k) (flat (store (live_server l')) !! k) ->
  (forall job, owed_job l job <-> owed_job l' job) -> newest_owed k l n -> newest_owed k l' n'.
Proof.
  intros Hn Hs Ho. unfold newest_owed.
  destruct (flat (store (live_server l)) !! k) as [e|], (flat (store (live_server l')) !! k) as [e'|]; try done; cbn in Hs.
  - destruct Hs as [Hv Hc]. intros (Hb & (job & Hj & Hk & Hcj) & Hall). rewrite Hv. split; [lia|]. split.
    + exists job. split; [by apply Ho|]. split; [done|by apply Hc].
    + intros j Hj' Hk'. apply Ho in Hj'. destruct (Hall j Hj' Hk') as [H1 H2]. split; [done|]. intros E. by apply Hc, H2.
  - intros Hall job Hj. by apply Hall, Ho.
Qed.

(** A call's program moves on without a job coming or going. *)
Lemma owed_same l n q p p' s' job :
  live_calls l !! n = Some (mk_call q p) -> repl s' = repl (live_server l) -> next_job p = next_job p' ->
  owed_job l job <-> owed_job (mk_running s' (<[n := mk_call q p']> (live_calls l))) job.
Proof.
  intros Hn Hr Hp. unfold owed_job. cbn. rewrite Hr. apply or_iff_compat_l. split.
  - intros (m & q0 & p0 & Hm & Hj). destruct (decide (m = n)) as [->|Hne].
    + exists n, q, p'. rewrite lookup_insert_eq. split; [done|]. congruence.
    + exists m, q0, p0. by rewrite lookup_insert_ne.
  - intros (m & q0 & p0 & [[<- [= <- <-]]|[Hne Hm]]%lookup_insert_Some & Hj); [|by exists m, q0, p0].
    exists n, q, p. split; [done|congruence].
Qed.

Lemma coupled_next {A} (p : prog A) : coupled None p -> next_job p = None.
Proof. destruct p as [a|B x f]; [done|]. destruct x; try done. by intros [(? & ? & ? & ? & _) _]. Qed.

(** What an access that spares the block, and is not a put, does to it. *)
Lemma quiet_same_block k now {B} (x : action B) s (b : B) s' :
  striped (store s) -> quiet x -> act_spares k x -> act_may now x s (b, s') ->
  striped (store s') /\ repl s' = repl s /\ same_block (flat (store s) !! k) (flat (store s') !! k).
Proof.
  intros Hs Hq Hk Ha. destruct (act_store _ _ _ _ _ Ha) as (Hst & _ & Hr). rewrite Hst, Hr.
  destruct x as [m h|m h|h e|h e v|m h|z|m h|mm|j]; cbn [act_call]; try done; try (split_and!; [done|done|apply same_block_refl]).
  - split; [by apply striped_step|]. split; [done|]. rewrite (proj1 (flat_step (CGet now m h) (store s) Hs)).
    cbn [FlatStore.step]. unfold FlatStore.get. destruct (flat (store s) !! storeKey m h) as [e|] eqn:E; [|apply same_block_refl].
    case_decide; [|apply same_block_refl]. cbn [snd]. destruct (decide (storeKey m h = k)) as [<-|Hne].
    + by rewrite E, lookup_insert_eq.
    + rewrite lookup_insert_ne by done. apply same_block_refl.
  - split; [by apply striped_step|]. split; [done|]. cbn in Hk. rewrite (proj1 (flat_step (CPutWithVersion now h (Some e) v) (store s) Hs)).
    cbn [FlatStore.step]. case_decide; [apply same_block_refl|]. unfold FlatStore.put_with_version.
    destruct (flat (store s) !! storeKey (ModelID e) h) as [prev|]; [case_decide|]; cbn [snd];
      rewrite ?lookup_insert_ne by done; apply same_block_refl.
  - split; [by apply striped_step|]. split; [done|]. cbn in Hk. rewrite (proj1 (flat_step (CDelete m h) (store s) Hs)).
    cbn [FlatStore.step]. unfold FlatStore.del. destruct (FlatStore.peek _ _ _); cbn [snd]; rewrite ?lookup_delete_ne by done; apply same_block_refl.
Qed.

(** A write of the block: its version is the next, and the job it owes carries it. *)
Lemma put_newest k l n now h e s' v m q f :
  (Z.of_nat (S n) < 2 ^ 64)%Z -> primary_inv k l n -> act_may now (DoPut h e) (live_server l) (v, s') ->
  live_calls l !! m = Some (mk_call q (Act (DoPut h e) f)) -> coupled (Some (h, e, v)) (f v) ->
  newest_owed k (mk_running s' (<[m := mk_call q (f v)]> (live_calls l))) (S n).
Proof.
  intros Hn [Hs _ _ Hnew] Ha Hm Hc. destruct (act_put_flat _ _ _ _ _ _ Hs Ha) as [Hv Hf].
  destruct (coupled_due _ _ Hc) as (job & g & Hp & Hj & _). cbn [fst snd] in Hj.
  pose proof (proj2 (proj2 (act_store _ _ _ _ _ Ha))) as Hr. cbn in Hr.
  set (l' := mk_running s' (<[m := mk_call q (f v)]> (live_calls l))).
  assert (Hnewjob : owed_job l' job).
  { right. exists m, q, (f v). cbn. rewrite lookup_insert_eq. split; [done|]. by rewrite Hp. }
  assert (Hold : forall j, owed_job l' j -> owed_job l j \/ j = job).
  { unfold owed_job. cbn. rewrite Hr. intros j [Hj'|(m' & q' & p' & [[<- [= <- <-]]|[Hne Hm']]%lookup_insert_Some & Hj')].
    - by left; left.
    - right. rewrite Hp in Hj'. by injection Hj'.
    - left. right. by exists m', q', p'. }
  assert (Hkeep : forall j, owed_job l j -> owed_job l' j).
  { intros j [Hj'|(m' & q' & p' & Hm' & Hj')]; [left; cbn; by rewrite Hr|right]. exists m', q', p'. split; [|done]. cbn.
    rewrite lookup_insert_ne; [done|]. intros <-. rewrite Hm in Hm'. by injection Hm' as <- <-. }
  unfold newest_owed. change (live_server l') with s'. rewrite Hf. unfold FlatStore.put in *. cbn [fst snd] in *.
  unfold newest_owed in Hnew. destruct Hj as (Hj1 & Hj2 & Hj3 & Hj4 & Hj5 & Hj6 & Hj7).
  destruct (decide (storeKey (ModelID e) h = k)) as [Hk|Hne].
  - rewrite Hk in *. rewrite lookup_insert_eq. cbn [stored_entry Version].
    assert (Hcar : forall created, carries (stored_entry h e v created) job) by (intros created; by unfold carries; cbn; split_and!; congruence).
    rewrite <- Hv. destruct (flat (store (live_server l)) !! k) as [prev|].
    + destruct Hnew as (Hb & _ & Hall). assert (Hv' : v = (Version prev + 1)%Z) by (rewrite Hv; apply u64_small; wrap_unfold; lia).
      split; [lia|]. split; [exists job; split; [done|]; split; [unfold job_key; congruence|apply Hcar]|].
      intros j [Hj| ->]%Hold Hkj.
      * destruct (Hall j Hj Hkj) as [Hle _]. split; [lia|]. intros E. lia.
      * split; [lia|]. intros _. apply Hcar.
    + split; [lia|]. split; [exists job; split; [done|]; split; [unfold job_key; congruence|apply Hcar]|].
      intros j [Hj| ->]%Hold Hkj; [by destruct (Hnew j Hj)|]. split; [lia|]. intros _. apply Hcar.
  - rewrite lookup_insert_ne by done. assert (Hkj : job_key job <> k) by (unfold job_key; congruence).
    destruct (flat (store (live_server l)) !! k) as [prev|].
    + destruct Hnew as (Hb & (j & Hj & Hjk & Hcj) & Hall). split; [lia|]. split; [exists j; by auto|].
      intros j' [Hj'| ->]%Hold Hk'; [by apply Hall|done].
    + by intros j [Hj| ->]%Hold; [apply Hnew|].
Qed.

(** The queueing of a job: it was owed by the call and now is in the queue. *)
Lemma enqueue_owed l n q job f jobs j :
  live_calls l !! n = Some (mk_call q (Act (DoEnqueue job) f)) -> next_job (f tt) = None ->
  repl (live_server l) = Some jobs ->
  owed_job l j <-> owed_job (mk_running (calls_Enqueue job (live_server l)) (<[n := mk_call q (f tt)]> (live_calls l))) j.
Proof.
  intros Hn Hf Hr. unfold owed_job. cbn. rewrite Hr. cbn. split.
  - intros [(jobs' & [= <-] & Hj)|(m & q' & p' & Hm & Hj)].
    + left. eexists. split; [done|]. apply elem_of_app. by left.
    + destruct (decide (m = n)) as [->|Hne].
      * left. rewrite Hn in Hm. injection Hm as <- <-. injection Hj as <-. eexists. split; [done|].
        apply elem_of_app. right. by apply list_elem_of_singleton.
      * right. exists m, q', p'. by rewrite lookup_insert_ne.
  - intros [(jobs' & [= <-] & [Hj| ->%list_elem_of_singleton]%elem_of_app)|(m & q' & p' & [[<- [= <- <-]]|[Hne Hm]]%lookup_insert_Some & Hj)].
    + left. by exists jobs.
    + right. by exists n, q, (Act (DoEnqueue job) f).
    + congruence.
    + right. by exists m, q', p'.
Qed.

Lemma set_call (cs : gmap nat call) n q p' (Ok : prog reply -> Prop) :
  (forall m q p, cs !! m = Some (mk_call q p) -> Ok p) -> Ok p' ->
  forall m q0 p, (<[n := mk_call q p']> cs) !! m = Some (mk_call q0 p) -> Ok p.
Proof. intros Hcs Hp m q0 p [[<- [= <- <-]]|[_ Hm]]%lookup_insert_Some; [done|by eapply Hcs]. Qed.

Lemma coupled_quiet {A B} d (x : action B) (f : B -> prog A) b :
  quiet x -> coupled d (Act x f) -> coupled None (f b).
Proof. destruct x; cbn; try done; by intros _ [_ Hf]. Qed.

Lemma primary_quiet k l n m now q {B} (x : action B) f b s' :
  quiet x -> primary_inv k l n -> live_calls l !! m = Some (mk_call q (Act x f)) -> act_spares k x ->
  act_may now x (live_server l) (b, s') ->
  primary_inv k (mk_running s' (<[m := mk_call q (f b)]> (live_calls l))) (S n).
Proof.
  intros Hq [Hs Hr Hc Hnew] Hm Hsp Ha.
  destruct (quiet_same_block k _ _ _ _ _ Hs Hq Hsp Ha) as (Hs' & Hrep & Hsame).
  assert (Hf : coupled None (f b)).
  { destruct (Hc _ _ _ Hm) as [d Hco]. by eapply coupled_quiet. }
  assert (Hx : next_job (Act x f) = None) by (destruct x; done).
  split; cbn [live_server live_calls]; [done|by rewrite Hrep| |].
  - apply set_call; [exact Hc|by exists None].
  - apply (newest_owed_same k l _ n); [lia|exact Hsame| |exact Hnew]. intros job. eapply owed_same; [exact Hm|done|].
    by rewrite Hx, (coupled_next _ Hf).
Qed.

Lemma primary_act k l n m now q {B} (x : action B) f b s' :
  (Z.of_nat (S n) < 2 ^ 64)%Z -> primary_inv k l n -> live_calls l !! m = Some (mk_call q (Act x f)) ->
  act_spares k x -> act_may now x (live_server l) (b, s') ->
  primary_inv k (mk_running s' (<[m := mk_call q (f b)]> (live_calls l))) (S n).
Proof.
  intros Hn Hi Hm Hsp Ha. pose proof Hi as [Hs [jobs Hr] Hc Hnew].
  destruct x as [m0 h|m0 h|h e|h e v|m0 h|z|m0 h|mm|j]; try (eapply primary_quiet; [|exact Hi|exact Hm|exact Hsp|exact Ha]; exact I).
  - assert (Hco : coupled (Some (h, e, b)) (f b)).
    { destruct (Hc _ _ _ Hm) as [d [_ Hco]]. apply Hco. }
    destruct (act_store _ _ _ _ _ Ha) as (Hst & _ & Hrep). split; cbn [live_server live_calls].
    + rewrite Hst. by apply striped_step.
    + exists jobs. by rewrite Hrep.
    + apply set_call; [exact Hc|by eexists].
    + by eapply put_newest.
  - destruct Ha as [Ha|[[] _]]. cbn in Ha. injection Ha as -> ->.
    assert (Hf : coupled None (f tt)).
    { destruct (Hc _ _ _ Hm) as [d [_ Hf]]. exact Hf. }
    split; cbn [live_server live_calls calls_Enqueue store]; [done| | |].
    + cbn. rewrite Hr. by eexists.
    + apply set_call; [exact Hc|by exists None].
    + apply (newest_owed_same k l _ n); [lia|apply same_block_refl| |exact Hnew]. intros job.
      eapply enqueue_owed; [exact Hm|by apply coupled_next|exact Hr].
Qed.

Lemma primary_step k l n ev l' :
  (Z.of_nat (S n) < 2 ^ 64)%Z -> primary_inv k l n -> spares k l ev -> live_step l ev l' -> primary_inv k l' (S n).
Proof.
  intros Hn Hi Hsp Hs. destruct Hs as [l m q Hm|l m now q p p' s' Hm Hp|l m q r Hm|l c Hev|l t].
  - destruct Hi as [Hs Hr Hc Hnew]. pose proof (handler_coupled q) as Hq. split; cbn [live_server live_calls]; [done|done| |].
    + apply set_call; [exact Hc|by exists None].
    + apply (newest_owed_same k l _ n); [lia|apply same_block_refl| |exact Hnew]. intros job.
      unfold owed_job. cbn. apply or_iff_compat_l. split.
      * intros (m' & q' & p' & Hm' & Hj). exists m', q', p'. rewrite lookup_insert_ne by congruence. done.
      * intros (m' & q' & p' & [[<- [= <- <-]]|[Hne Hm']]%lookup_insert_Some & Hj); [|by exists m', q', p'].
        by rewrite (coupled_next _ Hq) in Hj.
  - destruct p as [r|B x f]; [done|]. destruct Hp as (b & Ha & ->). eapply primary_act; [done|done|done| |done].
    exact (Hsp q B x f Hm).
  - destruct Hi as [Hs Hr Hc Hnew]. split; cbn [live_server live_calls]; [done|done| |].
    + intros m' q' p' [_ Hm']%lookup_delete_Some. by eapply Hc.
    + apply (newest_owed_same k l _ n); [lia|apply same_block_refl| |exact Hnew]. intros job.
      unfold owed_job. cbn. apply or_iff_compat_l. split.
      * intros (m' & q' & p' & Hm' & Hj). exists m', q', p'. split; [|done]. rewrite lookup_delete_ne; [done|].
        intros <-. rewrite Hm in Hm'. by injection Hm' as <- <-.
      * intros (m' & q' & p' & [_ Hm']%lookup_delete_Some & Hj). by exists m', q', p'.
  - destruct Hi as [Hs Hr Hc Hnew]. split; cbn [live_server live_calls set_store store repl]; [by apply striped_step|done|exact Hc|].
    apply (newest_owed_same k l _ n); [lia| |done|exact Hnew]. cbn [live_server set_store store].
    rewrite (proj1 (flat_step c _ Hs)). destruct c as [| | | | |o|k']; try done; cbn [FlatStore.step snd]; [apply same_block_refl|].
    rewrite lookup_delete_ne; [apply same_block_refl|]. cbn in Hsp. congruence.
  - destruct Hi as [Hs Hr Hc Hnew]. split; cbn [live_server live_calls set_tier store repl]; [done|done|exact Hc|].
    apply (newest_owed_same k l _ n); [lia|apply same_block_refl|done|exact Hnew].
Qed.

Lemma primary_run k p opts (c0 : option T) n l :
  (Z.of_nat n < 2 ^ 64)%Z -> sparing_run k (live_boot p opts true c0) n l -> primary_inv k l n.
Proof.
  intros Hn Hr. induction Hr as [|n l1 ev l2 Hr IH Hsp Hs].
  - split; cbn [live_boot live_server live_calls].
    + apply (boot_wf p opts true c0).
    + destruct c0; by eexists.
    + intros m q p' Hm. by rewrite lookup_empty in Hm.
    + unfold newest_owed. cbn [live_boot live_server].
      assert (flat (store (boot p opts true c0)) = ∅) as -> by (destruct c0; apply flat_new). rewrite lookup_empty.
      intros job [(jobs & Hj & Hin)|(m & q & p' & Hm & _)]; [|by cbn in Hm; rewrite lookup_empty in Hm].
      destruct c0; injection Hj as <-; by apply elem_of_nil in Hin.
  - eapply primary_step; [done| |exact Hsp|exact Hs]. apply IH. lia.
Qed.

End primary.

(** ** Convergence *)

(** Every call has its answer. *)
Definition answered {P T} (l : Live P T) : Prop :=
  forall m c, live_calls l !! m = Some c -> exists r, call_prog c = Ret r.

(** C8. Copies converge: let a replicating node run any interleaving of requests that
    never removes a block and takes no version for it but its own (no delete, no
    eviction, no replicated or re-admitted copy under its store key), until every
    request is answered.  Then a replica without the block that is delivered the
    jobs the node has queued for that key, in any order and any number of times,
    among any other jobs, ends with a copy that agrees with the node's own in
    bytes, tokens, model, hash, tenant, cost, size and version; and it has one
    exactly if the node has. *)
Theorem replicas_converge {P T P' T'} `{EvictionPolicy P} `{ColdTier T} `{EvictionPolicy P'} `{ColdTier T'} k
    (p : P) opts (c0 : option T) n l jobs (p' : P') opts' r' (c0' : option T') evs can_alloc ds :
  let s := server_run (boot p' opts' r' c0') evs in
  sparing_run k (live_boot p opts true c0) n l -> (Z.of_nat n < 2 ^ 64)%Z -> answered l ->
  repl (live_server l) = Some jobs -> flat (store s) !! k = None ->
  (forall job, job_key job = k -> job ∈ jobs <-> job ∈ ds.*2) ->
  (forall job, job ∈ jobs -> can_alloc (Z.of_nat (length (rj_KV job))) = true) ->
  match flat (store (live_server l)) !! k, flat (store (deliver_all can_alloc ds s)) !! k with
  | Some e, Some g => agree e g
  | None, None => True
  | _, _ => False
  end.
Proof.
  intros s Hrun Hn Hans Hjobs Hs Hds Hal. destruct (primary_run k p opts c0 n l Hn Hrun) as [_ _ _ Hnew].
  assert (Howed : forall job, owed_job l job <-> job ∈ jobs).
  { intros job. split; [intros [(js & Hj & Hin)|(m & q & p0 & Hm & Hj)]|].
    - rewrite Hjobs in Hj. by injection Hj as <-.
    - destruct (Hans _ _ Hm) as [r Hr]. cbn in Hr. by rewrite Hr in Hj.
    - intros Hin. left. by exists jobs. }
  pose proof (sw_striped _ (server_wf p' opts' r' c0' evs)) as Hst. fold s in Hst.
  pose proof (deliver_all_newest can_alloc k [] ds s Hst) as Hd. rewrite Hs in Hd. cbn [app] in Hd.
  specialize (Hd (newest_nil _ _)).
  assert (Hacc : forall job, job ∈ jobs -> job_key job = k -> (1 <= rj_Version job)%Z -> accepted can_alloc job).
  { intros job Hin Hk Hv. split; [lia|]. intros _. by apply Hal. }
  unfold newest_owed in Hnew. destruct (flat (store (live_server l)) !! k) as [e|].
  - destruct Hnew as (He & (job & Hj & Hk & Hc) & Hall). apply Howed in Hj.
    assert (Hv : (1 <= rj_Version job)%Z) by (apply Hall; [by apply Howed|done]).
    destruct (flat (store (deliver_all can_alloc ds s)) !! k) as [g|]; cbn in Hd.
    + destruct Hd as [(job' & Hj' & Hk' & Ha' & Hc') Hmax]. apply (Hds job' Hk') in Hj'.
      destruct (Hall job' ltac:(by apply Howed) Hk') as [Hle Hcar].
      specialize (Hmax job ltac:(by apply Hds) Hk (Hacc job Hj Hk Hv)).
      assert (Hg : Version g = rj_Version job') by apply Hc'. assert (Heq : Version e = rj_Version job) by apply Hc.
      apply (carries_agree _ _ job'); [apply Hcar; lia|done].
    + apply (Hd job); [by apply Hds|done|]. by apply Hacc.
  - destruct (flat (store (deliver_all can_alloc ds s)) !! k) as [g|]; [|done]. cbn in Hd.
    destruct Hd as [(job' & Hj' & Hk' & _) _]. apply (Hds job' Hk') in Hj'. by apply (Hnew job'); [apply Howed|].
Qed.

(** ** The job of an acknowledged write *)

Section acknowledged.
Context {P T : Type} `{EvictionPolicy P} `{ColdTier T} (p : P) (opts : list StoreOption) (with_repl : bool) (c0 : option T).
Implicit Types (l : Live P T).

(** C10. Whatever runs beside a write, an acknowledgement is earned: the stream was one
    header and a complete payload, at some moment of the call the node held exactly
    the payload under the header's model and hash at the acknowledged version, and
    a node that replicates has handed that payload at that version to its
    replicator; so in every history of a replicator that was called as the node's
    handlers called it, with any rounds in between, the job has been taken for
    forwarding or is queued, unless it found the queue full with 256 jobs and was
    counted as dropped. *)
Theorem write_acknowledged tr0 l0 n can_alloc st l1 tr l2 resp :
  live_run (live_boot p opts with_repl c0) tr0 l0 ->
  live_step l0 (LBegin n (QWrite can_alloc st)) l1 -> live_run l1 tr l2 ->
  live_calls l2 !! n = Some (mk_call (QWrite can_alloc st) (Ret (RWrite (Done resp)))) ->
  exists hdr msgs h,
    st = mk_stream (WCHeader hdr :: msgs) true /\ Forall not_header msgs /\ hdr_BlockHash hdr = hash_bytes h
    /\ wr_Stored resp = true
    /\ (exists l g, l ∈ tr /\ flat (store (live_server l)) !! storeKey (hdr_ModelId hdr) h = Some g
          /\ holds g (header_entry hdr (payload msgs)) h (wr_Version resp))
    /\ let job := header_job hdr h (payload msgs) (wr_Version resp) in
       forall jobs, repl (live_server l2) = Some jobs ->
         job ∈ jobs
         /\ forall self rf evs r taken, repl_run (NewReplicator self rf) evs = (r, jobs, taken) ->
              job ∈ taken \/ job ∈ queue r
              \/ exists before after, evs = before ++ EvEnqueue job :: after /\ dropped_after self rf before job.
Proof.
  intros H0r Hb Hr Hc.
  destruct (acknowledged_write p opts with_repl c0 _ _ _ _ _ _ _ _ _ H0r Hb Hr Hc)
    as (hdr & msgs & h & Hst & Hm & Hh & Hs & Hheld & Hjobs).
  exists hdr, msgs, h. split_and!; try done. intros job jobs Hj. specialize (Hjobs jobs Hj). split; [exact Hjobs|].
  intros self rf evs r taken Hrun. pose proof (offered_fate self rf evs job) as Hf. rewrite Hrun in Hf. by apply Hf.
Qed.

End acknowledged.

(** ** After an eviction *)

Definition w_block (data : list byte) : block_stream :=
  mk_stream [WCHeader (mk_header "m#tp0/2" (hash_bytes hash32_zero) [1; 2]%Z "" f64_1 0 0 []); WCChunk (mk_chunk data true)] true.
Definition w_key : BlockHash := storeKey "m#tp0/2" hash32_zero.

(** Two writes of a block, its eviction, and a third write. *)
Definition w_history : list (server_event Memory) :=
  [RpcWrite (fun _ => true) 1 (w_block [x01]); RpcWrite (fun _ => true) 2 (w_block [x02]);
   StoreCall (CEvict w_key); RpcWrite (fun _ => true) 3 (w_block [x03])].
Definition w_primary : Server LRUPolicy Memory := server_run (boot NewLRU [] true None) w_history.
Definition w_history_job (data : list byte) (v : Z) : ReplicaJob :=
  mk_replica_job hash32_zero "m#tp0/2" data [1; 2]%Z "" f64_1 v [].

Lemma w_history_key data v : job_key (w_history_job data v) = w_key.
Proof. unfold job_key, w_key. reflexivity. Qed.

Lemma w_primary_jobs :
  repl w_primary = Some [w_history_job [x01] 1; w_history_job [x02] 2; w_history_job [x03] 1].
Proof. vm_compute. reflexivity. Qed.

(** A primary that has evicted a block counts its versions from 1 again, while the
    replica still has the old ones: after the two writes, the eviction and the third
    write of [w_history], the primary serves the third write at version 1, and a
    replica delivered all three jobs, in any order and any number of times, holds
    the second at version 2 and drops the third for good. *)
Theorem version_reset_diverges ds :
  (forall job, job ∈ [w_history_job [x01] 1; w_history_job [x02] 2; w_history_job [x03] 1] <-> job ∈ ds.*2) ->
  (exists e, flat (store w_primary) !! w_key = Some e /\ Version e = 1%Z /\ KV e = [x03])
  /\ exists g, flat (store (deliver_all (fun _ => true) ds (boot NewLRU [] true (None : option Memory)))) !! w_key = Some g
       /\ Version g = 2%Z /\ KV g = [x02].
Proof.
  intros Hds. split.
  { destruct (flat (store w_primary) !! w_key) as [e|] eqn:E; vm_compute in E; [|discriminate E].
    injection E as <-. by eexists. }
  set (s := boot NewLRU [] true (None : option Memory)).
  pose proof (deliver_all_newest (fun _ => true) w_key [] ds s (sw_striped _ (boot_wf NewLRU [] true None))) as Hd.
  assert (E : flat (store s) = ∅) by apply flat_new. rewrite E, lookup_empty in Hd. cbn [app] in Hd.
  specialize (Hd (newest_nil _ _)).
  assert (Hacc : accepted (fun _ => true) (w_history_job [x02] 2)) by (split; [discriminate|reflexivity]).
  assert (Hin : w_history_job [x02] 2 ∈ ds.*2) by (apply Hds; right; left).
  destruct (flat (store (deliver_all _ ds s)) !! w_key) as [g|].
  - cbn in Hd. destruct Hd as [(job & Hj & _ & _ & Hc) Hmax]. specialize (Hmax _ Hin (w_history_key _ _) Hacc). cbn in Hmax.
    exists g. split; [reflexivity|]. destruct Hc as (Hkv & _ & _ & _ & _ & _ & Hv & _). apply Hds in Hj.
    clear - Hmax Hkv Hv Hj. repeat (apply elem_of_cons in Hj as [->|Hj]); [cbn in Hv; lia|by split|cbn in Hv; lia|by apply elem_of_nil in Hj].
  - destruct (Hd _ Hin (w_history_key _ _) Hacc).
Qed.

(** ** Witness: two writes race on the primary, and their jobs are queued in reverse *)

Definition removes_none {P T} (l : Live P T) (ev : live_event T) : bool :=
  match ev with
  | LAct n _ =>
      match live_calls l !! n with
      | Some (mk_call _ (Act (DoDelete _ _) _)) | Some (mk_call _ (Act (DoPutWithVersion _ _ _) _)) => false
      | _ => true
      end
  | LEvictor (CEvict _) => false
  | _ => true
  end.

Section sparing_plays.
Context {P T : Type} `{EvictionPolicy P} `{ColdTier T} (k : BlockHash).
Implicit Types (l : Live P T).

Fixpoint play_spares (evs : list (live_event T)) l : bool :=
  match evs with [] => true | ev :: evs => removes_none l ev && play_spares evs (live_do ev l) end.

Lemma removes_none_spares l ev : removes_none l ev = true -> spares k l ev.
Proof.
  destruct ev as [n q|n now|n r|c|t]; cbn; try done.
  - intros Hb q B x f Hn. rewrite Hn in Hb. by destruct x.
  - by destruct c.
Qed.

Lemma play_sparing evs l0 n l :
  sparing_run k l0 n l -> play_spares evs l = true ->
  exists m, m <= n + length evs /\ sparing_run k l0 m (live_play evs l).
Proof.
  revert n l. induction evs as [|ev evs IH]; intros n l Hr Hs; [exists n; split; [lia|done]|].
  apply andb_true_iff in Hs as [He Hs]. cbn [live_play length].
  destruct (live_do_step ev l) as [E|Hstep].
  - rewrite E in Hs |- *. destruct (IH n l Hr Hs) as (m & Hm & Hr'). exists m. split; [lia|done].
  - destruct (IH (S n) (live_do ev l)) as (m & Hm & Hr'); [|done|exists m; split; [lia|done]].
    eapply sparing_next; [exact Hr|by apply removes_none_spares|exact Hstep].
Qed.

Lemma answered_check l :
  forallb (fun mc => match call_prog mc.2 with Ret _ => true | _ => false end) (map_to_list (live_calls l)) = true -> answered l.
Proof.
  intros Hf m c Hm. rewrite forallb_forall in Hf. apply elem_of_map_to_list, list_elem_of_In, Hf in Hm. cbn in Hm.
  destruct (call_prog c); [by eexists|done].
Qed.

End sparing_plays.

Definition w_race : list (live_event Memory) :=
  [LBegin 1 (QWrite (fun _ => true) (w_block [x01])); LBegin 2 (QWrite (fun _ => true) (w_block [x02]));
   LAct 1 5; LAct 2 5; LAct 1 6; LAct 2 7; LAct 2 8; LAct 1 9].
Definition w_raced : Live LRUPolicy Memory := live_play w_race (live_boot NewLRU [] true None).
Definition w_deliveries : list (Z * ReplicaJob) :=
  [(10%Z, w_history_job [x02] 2); (11%Z, w_history_job [x01] 1); (12%Z, w_history_job [x02] 2)].

Lemma w_raced_jobs : repl (live_server w_raced) = Some [w_history_job [x02] 2; w_history_job [x01] 1].
Proof. vm_compute. reflexivity. Qed.

Lemma replicas_converge_witness :
  match flat (store (live_server w_raced)) !! w_key,
        flat (store (deliver_all (fun _ => true) w_deliveries (server_run (boot NewLRU [] true (None : option Memory)) []))) !! w_key with
  | Some e, Some g => agree e g
  | None, None => True
  | _, _ => False
  end.
Proof.
  destruct (play_sparing w_key w_race (live_boot NewLRU [] true None) 0 (live_boot NewLRU [] true None)
    (sparing_refl _ _)) as (m & Hm & Hr); [vm_compute; reflexivity|].
  apply (replicas_converge w_key NewLRU [] None m w_raced [w_history_job [x02] 2; w_history_job [x01] 1]
    NewLRU [] true (None : option Memory) [] (fun _ => true) w_deliveries Hr).
  - change (length w_race) with 8 in Hm. clear - Hm. lia.
  - apply answered_check. vm_compute. reflexivity.
  - exact w_raced_jobs.
  - change (store (server_run (boot NewLRU [] true (None : option Memory)) [])) with (NewStore NewLRU []).
    rewrite flat_new. apply lookup_empty.
  - intros job _. unfold w_deliveries. cbn [fmap list_fmap snd]. rewrite !elem_of_cons. clear. tauto.
  - reflexivity.
Defined.

(** The write that was begun first is acknowledged last; its node's replicator has
    forwarded the other's job by then, and has its own queued. *)
Definition w_calls_evs : list repl_event :=
  [EvEnqueue (w_history_job [x02] 2); EvRound (fun _ => mk_peer true None true) w_router; EvEnqueue (w_history_job [x01] 1)].

Lemma write_acknowledged_witness :
  exists r, repl_run (NewReplicator "shard-0" 2) w_calls_evs = (r, [w_history_job [x02] 2; w_history_job [x01] 1], [w_history_job [x02] 2])
    /\ (w_history_job [x01] 1 ∈ [w_history_job [x02] 2] \/ w_history_job [x01] 1 ∈ queue r
        \/ exists before after, w_calls_evs = before ++ EvEnqueue (w_history_job [x01] 1) :: after
             /\ dropped_after "shard-0" 2 before (w_history_job [x01] 1)).
Proof.
  set (l1 := live_do (LBegin 1 (QWrite (fun _ => true) (w_block [x01]))) (live_boot NewLRU [] true (None : option Memory))).
  destruct (live_play_run (tail w_race) l1) as [tr Hr].
  eassert (Hc : live_calls (live_play (tail w_race) l1) !! 1
    = Some (mk_call (QWrite (fun _ => true) (w_block [x01])) (Ret (RWrite (Done (mk_write_response 1 true))))))
    by (vm_compute; reflexivity).
  destruct (write_acknowledged NewLRU [] true (None : option Memory) _ _ 1 (fun _ => true) (w_block [x01]) l1 tr _
    (mk_write_response 1 true) (live_refl _) (live_begin (live_boot NewLRU [] true None) 1 (QWrite (fun _ => true) (w_block [x01])) eq_refl) Hr Hc)
    as (hdr & msgs & h & Hst & _ & Hh & _ & _ & Hjob).
  injection Hst as <- <-. apply (f_equal hash32_of) in Hh. cbn [hdr_BlockHash] in Hh. rewrite !hash32_of_bytes in Hh. injection Hh as <-.
  destruct (Hjob _ w_raced_jobs) as [_ Hfate]. eexists. split; [vm_compute; reflexivity|].
  apply (Hfate "shard-0" 2%Z w_calls_evs). vm_compute. reflexivity.
Defined.
