(* ===== verification/Loadgen.v ===== *)
(** The client library of the load generator: [src/cmd/loadgen/main.go].

    The verifiable payload, the client side of each RPC, one request over the
    owners of a prompt, and the run's counters.  The shards are behind an
    interface: a client's theorems hold for every behaviour of them, and the
    System file gives them the Server's handlers. *)

From S2P Require Import Prelude Text Bytes Sha256 Float64 Blockhash Policy Store Server.

(** ** The correctness oracle: payload as a function of the hash *)

(** One xorshift step on a [uint64]. *)
Definition xorshift (x : Z) : Z :=
  let x := Z.lxor x (Z.shiftr x 12) in
  let x := Z.lxor x (u64 (Z.shiftl x 25)) in
  Z.lxor x (Z.shiftr x 27).

Definition mix_constant : Z := 0x2545F4914F6CDD1D.

(** The seed: the XOR of the four words of the hash, with zero replaced. *)
Definition hash_word (i : nat) (h : hash32) : Z := le_Z (take 8 (drop (8 * i) (hash_bytes h))).
Definition fill_seed (h : hash32) : Z :=
  let x := Z.lxor (Z.lxor (Z.lxor (hash_word 0 h) (hash_word 1 h)) (hash_word 2 h)) (hash_word 3 h) in
  if (x =? 0)%Z then 0x9e3779b97f4a7c15 else x.

(** The loop over whole words, then the tail bytes. *)
Fixpoint fill_words (n : nat) (x : Z) : list byte * Z :=
  match n with
  | O => ([], x)
  | S n =>
      let x := xorshift x in
      let '(bs, x') := fill_words n x in
      (le_bytes 8 (u64 (x * mix_constant)) ++ bs, x')
  end.
Definition fill_tail (n : nat) (x : Z) : list byte :=
  (fun j => Z_byte (Z.shiftr x (Z.of_nat (j mod 8) * 8))) <$> seq 0 n.

(** [fillVerifiable] on a buffer of [len] bytes: its contents afterwards. *)
Definition fillVerifiable (len : nat) (h : hash32) : list byte :=
  let '(bs, x) := fill_words (len / 8) (fill_seed h) in bs ++ fill_tail (len mod 8) x.

(** [equalBytes] *)
Fixpoint equal_loop (a b : list byte) : bool :=
  match a, b with
  | x :: a, y :: b => if decide (x <> y) then false else equal_loop a b
  | _, _ => true
  end.
Definition equalBytes (a b : list byte) : bool :=
  if length a =? length b then equal_loop a b else false.

(** ** Members *)

(** [splitMembers] *)
Definition splitMembers (s : string) : list string :=
  filter (fun a => a <> ""%string) (TrimSpace <$> Split s comma).

(** ** The interface to the shards *)

(** What a [Fetch] stream yields: an error on opening it, or frames and the
    error that ends it ([None]: [io.EOF]). *)
Record fetch_reply := mk_reply { fr_open : option rpc_error; fr_frames : list KVChunk; fr_end : option rpc_error }.

(** The RPCs a client calls on a connection of type [C] in a world [W]: any
    answer is possible, and a transport may lose a stream half-way. *)
Class Shards (C W : Type) := {
  rpc_Lookup : C -> string -> list (list byte) -> W -> rpc_error + list BlockPresence * W;
  rpc_Fetch : C -> string -> list byte -> list Z -> W -> fetch_reply * W;
  rpc_Write : C -> list WriteChunk -> W -> option rpc_error * W;
}.

(** [workload], the fields a request reads, and [result], its counters. *)
Record workload := mk_workload { model : string; payloadBytes : nat; verify : bool }.
Record result := mk_result {
  requests : Z; res_blocks : Z; hits : Z; writes : Z; errors : Z; degraded : Z; violations : Z;
}.
Definition zero_result : result := mk_result 0 0 0 0 0 0 0.
Definition count_hit (r : result) : result :=
  mk_result (requests r) (res_blocks r) (hits r + 1) (writes r) (errors r) (degraded r) (violations r).
Definition count_write (r : result) : result :=
  mk_result (requests r) (res_blocks r) (hits r) (writes r + 1) (errors r) (degraded r) (violations r).
Definition count_violation (r : result) : result :=
  mk_result (requests r) (res_blocks r) (hits r) (writes r) (errors r) (degraded r) (violations r + 1).

Definition is_not_found (e : rpc_error) : bool :=
  match e with StatusError NotFound _ => true | _ => false end.

(** How a client function ends; an index out of range is a panic. *)
Inductive ending := Ok | Err (e : rpc_error) | IndexPanic.

Section client.
Context {C W : Type} `{Shards C W}.
Implicit Types (w : workload) (c : C) (st : W) (r : result) (b : Block).

(** [fetch]: hit, error, counters *)
Definition fetch w c (b : Block) r st : (bool * option rpc_error) * result * W :=
  let '(reply, st) := rpc_Fetch c (model w) (hash_bytes (blk_hash b)) (blk_tokens b) st in
  match fr_open reply with
  | Some e => ((false, if is_not_found e then None else Some e), r, st)
  | None =>
      match fr_end reply with
      | Some e => ((false, if is_not_found e then None else Some e), r, st)
      | None =>
          let r :=
            if verify w then
              let got := mjoin (chunk_data <$> fr_frames reply) in
              let expected := fillVerifiable (payloadBytes w) (blk_hash b) in
              if negb (length got =? length expected) || negb (equalBytes got expected)
              then count_violation r else r
            else r in
          ((true, None), r, st)
      end
  end.

(** The bytes [write] sends: the shared buffer, stamped when verifying. *)
Definition write_payload w (b : Block) : list byte :=
  if verify w then fillVerifiable (payloadBytes w) (blk_hash b) else replicate (payloadBytes w) x00.

Definition writeChunkBytes : Z := 1048576.

Definition write_header w (b : Block) (root : list byte) (tenant : string) (cost : float64) : WriteHeader :=
  mk_header (model w) (hash_bytes (blk_hash b)) (blk_tokens b) tenant cost
    (Z.of_nat (length (write_payload w b))) 0 root.

(** The messages of a [write], on a stream that takes them all. *)
Definition write_messages w (b : Block) (root : list byte) (tenant : string) (cost : float64) : list WriteChunk :=
  let '(_, s) := Send (WCHeader (write_header w b root tenant cost)) (mk_sink [] None) in
  sent (stream_data writeChunkBytes (fun d last => WCChunk (mk_chunk d last)) (write_payload w b) s).2.

(** [write] *)
Definition write w c (b : Block) (root : list byte) (tenant : string) (cost : float64) st : option rpc_error * W :=
  rpc_Write c (write_messages w b root tenant cost) st.

(** The longest run of present blocks from index 0. *)
Fixpoint present_run (l : list BlockPresence) : nat :=
  match l with bp :: l => if HasEntry bp then S (present_run l) else 0 | [] => 0 end.

(** The reuse loop of [oneRequest], [n] rounds from index [i]: where the run
    ended. *)
Fixpoint reuse_loop w c (blocks : list Block) (n i : nat) r st : ending * nat * result * W :=
  match n with
  | O => (Ok, i, r, st)
  | S n =>
      match blocks !! i with
      | None => (IndexPanic, i, r, st)
      | Some b =>
          let '(hit, err, r, st) := fetch w c b r st in
          match err with
          | Some e => (Err e, i, r, st)
          | None => if hit : bool then reuse_loop w c blocks n (S i) (count_hit r) st else (Ok, i, r, st)
          end
      end
  end.

(** The store loop over the misses. *)
Fixpoint write_loop w c (blocks : list Block) (root : list byte) (tenant : string) (cost : float64) r st :
    ending * result * W :=
  match blocks with
  | [] => (Ok, r, st)
  | b :: blocks =>
      let '(err, st) := write w c b root tenant cost st in
      match err with
      | Some e => (Err e, r, st)
      | None => write_loop w c blocks root tenant cost (count_write r) st
      end
  end.

(** [oneRequest] *)
Definition oneRequest w c (blocks : list Block) (allowWrites : bool) (root : list byte) (tenant : string)
    (cost : float64) r st : ending * result * W :=
  match rpc_Lookup c (model w) ((fun b => hash_bytes (blk_hash b)) <$> blocks) st with
  | inl e => (Err e, r, st)
  | inr (presence, st) =>
      let '(e, run, r, st) := reuse_loop w c blocks (present_run presence) 0 r st in
      match e with
      | Ok => if allowWrites then write_loop w c (drop run blocks) root tenant cost r st else (Ok, r, st)
      | e => (e, r, st)
      end
  end.

(** [oneRequestWithFailover], from the [i]-th owner. *)
Fixpoint failover_loop w (i : nat) (conns : list C) (blocks : list Block) (root : list byte) (tenant : string)
    (cost : float64) (lastErr : ending) r st : ending * result * W :=
  match conns with
  | [] => (lastErr, r, st)
  | c :: conns =>
      let '(e, r, st) := oneRequest w c blocks (i =? 0) root tenant cost r st in
      match e with
      | Err _ => failover_loop w (S i) conns blocks root tenant cost e r st
      | _ => (e, r, st)
      end
  end.
Definition oneRequestWithFailover w (conns : list C) (blocks : list Block) (root : list byte) (tenant : string)
    (cost : float64) r st : ending * result * W :=
  failover_loop w 0 conns blocks root tenant cost Ok r st.

End client.

(** ** Lemmas on the payload *)

Lemma length_fill_words n x : length (fill_words n x).1 = 8 * n.
Proof.
  revert x. induction n as [|n IH]; intros x; [done|]. cbn [fill_words]. specialize (IH (xorshift x)).
  destruct (fill_words n (xorshift x)) as [bs x']. cbn [fst] in *. rewrite length_app, IH, length_le_bytes. lia.
Qed.

Lemma length_fillVerifiable len h : length (fillVerifiable len h) = len.
Proof.
  unfold fillVerifiable. pose proof (length_fill_words (len / 8) (fill_seed h)) as Hl.
  destruct (fill_words _ _) as [bs x]. cbn [fst] in Hl. unfold fill_tail.
  rewrite length_app, length_fmap, length_seq, Hl. symmetry. apply Nat.div_mod_eq.
Qed.

Lemma equalBytes_spec a b : equalBytes a b = bool_decide (a = b).
Proof.
  unfold equalBytes. destruct (Nat.eqb_spec (length a) (length b)) as [Hl|Hl].
  - revert b Hl. induction a as [|x a IH]; intros [|y b] Hl; try done. cbn [equal_loop]. simpl in Hl.
    destruct (decide (x = y)) as [->|Hne].
    + rewrite decide_False by tauto. rewrite IH by lia. apply bool_decide_ext. naive_solver.
    + rewrite decide_True by done. symmetry. apply bool_decide_eq_false_2. naive_solver.
  - symmetry. apply bool_decide_eq_false_2. by intros ->.
Qed.

(** A write is an upload of its payload. *)
Lemma write_messages_upload w b root tenant cost :
  write_messages w b root tenant cost
  = upload_messages writeChunkBytes (write_header w b root tenant cost) (write_payload w b).
Proof.
  unfold write_messages. cbn [Send room sent]. rewrite stream_data_spec, send_all_spec by done. done.
Qed.

Section oracle.
Local Open Scope Z_scope.

Lemma lxor_u64 a b : in_u64 a -> in_u64 b -> in_u64 (Z.lxor a b).
Proof.
  unfold in_u64. intros Ha Hb. split; [by apply Z.lxor_nonneg; lia|].
  destruct (Z.eq_dec (Z.lxor a b) 0) as [->|Hne]; [lia|]. apply Z.log2_lt_cancel.
  assert (0 <= Z.lxor a b) by (apply Z.lxor_nonneg; lia).
  eapply Z.le_lt_trans; [by apply Z.log2_lxor; lia|]. rewrite Z.log2_pow2 by lia.
  assert (forall z, 0 <= z < 2 ^ 64 -> Z.log2 z < 64).
  { intros z Hz. destruct (Z.eq_dec z 0) as [->|]; [done|]. apply Z.log2_lt_pow2; lia. }
  apply Z.max_lub_lt; auto.
Qed.

Lemma shiftr_u64 a k : 0 <= k -> in_u64 a -> in_u64 (Z.shiftr a k).
Proof.
  unfold in_u64. intros Hk Ha. rewrite Z.shiftr_div_pow2 by done. split; [apply Z.div_pos; lia|].
  apply Z.div_lt_upper_bound; nia.
Qed.

(** [x ^ (x >> k)] and [x ^ (x << k)] determine [x]. *)
Lemma xor_shiftr_inj k x y :
  0 < k -> in_u64 x -> in_u64 y -> Z.lxor x (Z.shiftr x k) = Z.lxor y (Z.shiftr y k) -> x = y.
Proof.
  intros Hk Hx Hy E. apply Z.lxor_eq. set (z := Z.lxor x y).
  assert (Hz : z = Z.shiftr z k).
  { unfold z. rewrite Z.shiftr_lxor. apply Z.lxor_eq.
    rewrite <- (Z.lxor_nilpotent (Z.lxor y (Z.shiftr y k))). rewrite <- E at 1.
    apply Z.bits_inj'. intros i _. rewrite !Z.lxor_spec. destruct (Z.testbit x i), (Z.testbit y i),
      (Z.testbit (Z.shiftr x k) i), (Z.testbit (Z.shiftr y k) i); reflexivity. }
  assert (Hr : in_u64 z) by by apply lxor_u64. rewrite Z.shiftr_div_pow2 in Hz by lia.
  assert (2 <= 2 ^ k) by (change 2 with (2 ^ 1) at 1; apply Z.pow_le_mono_r; lia).
  destruct (Z.eq_dec z 0) as [|Hne]; [done|]. exfalso. unfold in_u64 in Hr.
  assert (z / 2 ^ k < z); [|lia]. apply Z.div_lt; lia.
Qed.

Lemma xor_shiftl_inj x y :
  in_u64 x -> in_u64 y -> Z.lxor x (u64 (Z.shiftl x 25)) = Z.lxor y (u64 (Z.shiftl y 25)) -> x = y.
Proof.
  intros Hx Hy E. apply Z.lxor_eq. set (z := Z.lxor x y).
  assert (Hz : z = u64 (Z.shiftl z 25)).
  { unfold z, u64 in *. rewrite Z.shiftl_lxor. apply Z.lxor_eq.
    rewrite <- (Z.lxor_nilpotent (Z.lxor y (Z.shiftl y 25 mod 2 ^ 64))). rewrite <- E at 1.
    apply Z.bits_inj'. intros i Hi. rewrite !Z.lxor_spec. destruct (Z.lt_ge_cases i 64).
    - rewrite !Z.mod_pow2_bits_low, Z.lxor_spec by lia. destruct (Z.testbit x i), (Z.testbit y i),
        (Z.testbit (Z.shiftl x 25) i), (Z.testbit (Z.shiftl y 25) i); reflexivity.
    - rewrite !Z.mod_pow2_bits_high by lia. destruct (Z.testbit x i), (Z.testbit y i); reflexivity. }
  assert (Hr : in_u64 z) by by apply lxor_u64. rewrite Z.shiftl_mul_pow2 in Hz by lia. unfold u64 in Hz.
  assert (Hd : (z * (2 ^ 25 - 1)) mod 2 ^ 64 = 0).
  { replace (z * (2 ^ 25 - 1)) with (z * 2 ^ 25 - z) by ring. rewrite Zminus_mod, <- Hz.
    unfold in_u64 in Hr. rewrite (Z.mod_small z) by lia. by rewrite Z.sub_diag. }
  apply Z.mod_divide in Hd; [|lia]. rewrite Z.mul_comm in Hd. apply Z.gauss in Hd as [q Hq]; [unfold in_u64 in Hr; nia|].
  reflexivity.
Qed.

Lemma xorshift_u64 x : in_u64 x -> in_u64 (xorshift x).
Proof.
  intros Hx. unfold xorshift. assert (H1 : in_u64 (Z.lxor x (Z.shiftr x 12)))
    by (apply lxor_u64; [done|by apply shiftr_u64]).
  assert (H2 : in_u64 (Z.lxor (Z.lxor x (Z.shiftr x 12)) (u64 (Z.shiftl (Z.lxor x (Z.shiftr x 12)) 25))))
    by (apply lxor_u64; [done|apply u64_range]).
  apply lxor_u64; [done|by apply shiftr_u64].
Qed.

Lemma xorshift_inj x y : in_u64 x -> in_u64 y -> xorshift x = xorshift y -> x = y.
Proof.
  intros Hx Hy E. unfold xorshift in E.
  assert (Hs : forall v, in_u64 v -> in_u64 (Z.lxor v (Z.shiftr v 12))) by (intros; apply lxor_u64; [done|by apply shiftr_u64]).
  assert (Hl : forall v, in_u64 v -> in_u64 (Z.lxor v (u64 (Z.shiftl v 25)))) by (intros; apply lxor_u64; [done|apply u64_range]).
  apply xor_shiftr_inj in E; [|done|by apply Hl, Hs..]. apply xor_shiftl_inj in E; [|by apply Hs..].
  by apply xor_shiftr_inj in E.
Qed.

(** Multiplication by the odd constant is a bijection of [uint64]. *)
Lemma mix_inj x y : in_u64 x -> in_u64 y -> u64 (x * mix_constant) = u64 (y * mix_constant) -> x = y.
Proof.
  unfold in_u64, u64. intros Hx Hy E.
  assert (Hd : ((x - y) * mix_constant) mod 2 ^ 64 = 0).
  { rewrite Z.mul_sub_distr_r, Zminus_mod, E, Z.sub_diag. done. }
  apply Z.mod_divide in Hd; [|lia]. rewrite Z.mul_comm in Hd. apply Z.gauss in Hd as [q Hq]; [nia|]. reflexivity.
Qed.

Lemma hash_word_u64 i h : in_u64 (hash_word i h).
Proof.
  unfold hash_word, in_u64. pose proof (le_Z_range (take 8 (drop (8 * i) (hash_bytes h)))) as Hr.
  split; [lia|]. eapply Z.lt_le_trans; [apply Hr|]. change (2 ^ 64) with (256 ^ 8). apply Z.pow_le_mono_r; [lia|].
  rewrite length_take. lia.
Qed.

Lemma fill_seed_u64 h : in_u64 (fill_seed h).
Proof.
  unfold fill_seed. destruct (_ =? 0)%Z; [done|]. repeat apply lxor_u64; apply hash_word_u64.
Qed.

End oracle.

(** ** Properties of the payload *)

(** The oracle's payload identifies the seed of its block: for buffers of at
    least 8 bytes, two blocks have the same payload exactly when the XOR of their
    hash words gives the same seed, and a payload has the length of its buffer. *)
Theorem payload_identifies_seed len h h' :
  8 <= len ->
  length (fillVerifiable len h) = len
  /\ (fillVerifiable len h = fillVerifiable len h' <-> fill_seed h = fill_seed h').
Proof.
  intros Hlen. split; [apply length_fillVerifiable|]. unfold fillVerifiable. split; [|by intros ->].
  assert (Hd : exists n, len / 8 = S n).
  { exists (len / 8 - 1). pose proof (Nat.div_le_lower_bound len 8 1 ltac:(lia) ltac:(lia)). lia. }
  destruct Hd as [n ->]. cbn [fill_words].
  destruct (fill_words n (xorshift (fill_seed h))) as [bs x], (fill_words n (xorshift (fill_seed h'))) as [bs' x'].
  rewrite <- !app_assoc. intros E. apply app_inj_1 in E as [E _]; [|by rewrite !length_le_bytes].
  apply (f_equal le_Z) in E. rewrite !le_Z_bytes in E. change (256 ^ Z.of_nat 8)%Z with (2 ^ 64)%Z in E.
  rewrite !Z.mod_small in E by apply u64_range.
  apply xorshift_inj; [apply fill_seed_u64..|]. apply mix_inj; [apply xorshift_u64, fill_seed_u64..|done].
Qed.

Lemma payload_identifies_seed_witness :
  length (fillVerifiable 8 hash32_zero) = 8.
Proof. apply (payload_identifies_seed 8 hash32_zero hash32_zero). lia. Defined.

Definition w_hash (b1 b2 : byte) : hash32 :=
  mk_hash32 ([b1; x00; x00; x00; x00; x00; x00; x00] ++ [b2; x00; x00; x00; x00; x00; x00; x00] ++ replicate 16 x00) eq_refl.

(** Distinct blocks may share a payload: swapping two words of a hash leaves
    the seed, hence the payload of every length, unchanged, so the oracle cannot
    tell such blocks apart. *)
Theorem payload_not_unique : exists h h', h <> h' /\ forall len, fillVerifiable len h = fillVerifiable len h'.
Proof.
  exists (w_hash x01 x02), (w_hash x02 x01). split.
  - intros E. apply (f_equal hash_bytes) in E. discriminate E.
  - intros len. unfold fillVerifiable. replace (fill_seed (w_hash x02 x01)) with (fill_seed (w_hash x01 x02)); [done|].
    vm_compute. reflexivity.
Qed.

(** ** Properties of a request *)

Section requests.
Context {C W : Type} `{Shards C W} (w : workload).
Implicit Types (c : C) (st : W) (r : result).

(** *** Counters *)

Definition same_rest (r r' : result) : Prop :=
  requests r' = requests r /\ res_blocks r' = res_blocks r /\ errors r' = errors r /\ degraded r' = degraded r.

Lemma fetch_counts c b r st :
  let '((hit, err), r', st') := fetch w c b r st in
  same_rest r r' /\ hits r' = hits r /\ writes r' = writes r
  /\ (violations r <= violations r' <= violations r + 1)%Z.
Proof.
  unfold fetch. destruct (rpc_Fetch _ _ _ _ _) as [reply st']. destruct (fr_open reply); [done || (split_and!; done || lia)|].
  destruct (fr_end reply); [split_and!; done || lia|]. destruct (verify w); [|split_and!; done || lia].
  destruct (_ || _); split_and!; cbn; done || lia.
Qed.

Lemma reuse_loop_counts c blocks n i r st :
  i + n <= length blocks ->
  let '(e, run, r', st') := reuse_loop w c blocks n i r st in
  same_rest r r' /\ e <> IndexPanic /\ i <= run <= i + n /\ (hits r' = hits r + Z.of_nat (run - i))%Z
  /\ writes r' = writes r
  /\ (violations r <= violations r' <= violations r + Z.of_nat n)%Z.
Proof.
  revert i r st. induction n as [|n IH]; intros i r st Hi; cbn [reuse_loop].
  { rewrite Nat.sub_diag. split_and!; done || lia. }
  destruct (lookup_lt_is_Some_2 blocks i ltac:(lia)) as [b ->].
  pose proof (fetch_counts c b r st) as Hf. destruct (fetch w c b r st) as [[[hit err] r1] st1].
  destruct Hf as (Hs & Hh & Hw & Hv). destruct err as [e|].
  { rewrite Nat.sub_diag. split_and!; done || lia. }
  destruct hit; [|rewrite Nat.sub_diag; split_and!; done || lia].
  specialize (IH (S i) (count_hit r1) st1 ltac:(lia)). destruct (reuse_loop _ _ _ _ _ _ _) as [[[e run] r'] st'].
  destruct IH as (Hs' & He & Hrun & Hh' & Hw' & Hv'). unfold same_rest in *. cbn in *.
  split_and!; try done; try lia; intuition congruence.
Qed.

Lemma write_loop_counts c blocks root tenant cost r st :
  let '(e, r', st') := write_loop w c blocks root tenant cost r st in
  same_rest r r' /\ e <> IndexPanic /\ hits r' = hits r /\ violations r' = violations r
  /\ (writes r <= writes r' <= writes r + Z.of_nat (length blocks))%Z
  /\ (e = Ok -> writes r' = writes r + Z.of_nat (length blocks))%Z.
Proof.
  revert r st. induction blocks as [|b blocks IH]; intros r st; cbn [write_loop]; [split_and!; done || (intros; cbn; lia)|].
  destruct (write w c b root tenant cost st) as [[e|] st1]; [split_and!; done || (cbn; lia)|].
  specialize (IH (count_write r) st1). destruct (write_loop _ _ _ _ _ _ _ _) as [[e r'] st'].
  destruct IH as (Hs & He & Hh & Hv & Hw & Hok). unfold same_rest in *. cbn in *.
  split_and!; try done; try lia. intros E. specialize (Hok E). lia.
Qed.

Lemma present_run_le l : present_run l <= length l.
Proof. induction l as [|bp l IH]; simpl; [lia|]. destruct (HasEntry bp); lia. Qed.

Lemma oneRequest_accounts_aux c blocks allow root tenant cost r st :
  (forall hashes l st', rpc_Lookup c (model w) hashes st = inr (l, st') -> length l <= length hashes) ->
  let '(e, r', st') := oneRequest w c blocks allow root tenant cost r st in
  e <> IndexPanic
  /\ (hits r <= hits r')%Z /\ (writes r <= writes r')%Z
  /\ (hits r' - hits r + (writes r' - writes r) <= Z.of_nat (length blocks))%Z
  /\ (e = Ok -> allow = true -> hits r' - hits r + (writes r' - writes r) = Z.of_nat (length blocks))%Z
  /\ (allow = false -> writes r' = writes r)
  /\ (violations r <= violations r' <= violations r + Z.of_nat (length blocks))%Z.
Proof.
  intros Hl. unfold oneRequest. destruct (rpc_Lookup _ _ _ st) as [e|[presence st1]] eqn:E.
  { split_and!; done || lia. }
  apply Hl in E. rewrite length_fmap in E. pose proof (present_run_le presence) as Hp.
  pose proof (reuse_loop_counts c blocks (present_run presence) 0 r st1 ltac:(lia)) as Hr.
  destruct (reuse_loop _ _ _ _ _ _ _) as [[[e run] r1] st2]. destruct Hr as (_ & He & Hrun & Hh & Hw & Hv).
  rewrite Nat.sub_0_r in Hh. destruct e; [|split_and!; done || lia|done].
  destruct allow; [|split_and!; done || lia].
  pose proof (write_loop_counts c (drop run blocks) root tenant cost r1 st2) as Hwl.
  destruct (write_loop _ _ _ _ _ _ _ _) as [[e r'] st']. destruct Hwl as (_ & He' & Hh' & Hv' & Hw' & Hok).
  rewrite length_drop in *. split_and!; try done; try lia. intros Ee _. specialize (Hok Ee). lia.
Qed.

(** One request accounts for every block: if a shard's presence list is no
    longer than the request's (so no index runs out of range), a request on the
    primary that reports no error has either reused or written each block, once;
    a read on a replica writes nothing; and no request counts more violations
    than it fetched blocks. *)
Theorem oneRequest_accounts c blocks allow root tenant cost r st :
  (forall hashes l st', rpc_Lookup c (model w) hashes st = inr (l, st') -> length l <= length hashes) ->
  let '(e, r', st') := oneRequest w c blocks allow root tenant cost r st in
  e <> IndexPanic
  /\ (hits r <= hits r')%Z /\ (writes r <= writes r')%Z
  /\ (hits r' - hits r + (writes r' - writes r) <= Z.of_nat (length blocks))%Z
  /\ (e = Ok -> allow = true -> hits r' - hits r + (writes r' - writes r) = Z.of_nat (length blocks))%Z
  /\ (allow = false -> writes r' = writes r)
  /\ (violations r <= violations r' <= violations r + Z.of_nat (length blocks))%Z.
Proof. apply oneRequest_accounts_aux. Qed.

(** *** A request with failover, whatever the shards answer *)

(** What the counters may do while a request is served. *)
Definition counts_up (r r' : result) : Prop :=
  same_rest r r' /\ (hits r <= hits r')%Z /\ (writes r <= writes r')%Z /\ (violations r <= violations r')%Z.

Lemma counts_up_refl r : counts_up r r.
Proof. unfold counts_up, same_rest. split_and!; done || lia. Qed.

Lemma counts_up_trans r r1 r2 : counts_up r r1 -> counts_up r1 r2 -> counts_up r r2.
Proof. unfold counts_up, same_rest. intros (?&?&?&?) (?&?&?&?). split_and!; try lia; intuition congruence. Qed.

Lemma reuse_loop_up c blocks n i r st : counts_up r (reuse_loop w c blocks n i r st).1.2.
Proof.
  revert i r st. induction n as [|n IH]; intros i r st; cbn [reuse_loop]; [apply counts_up_refl|].
  destruct (blocks !! i) as [b|]; [|apply counts_up_refl].
  pose proof (fetch_counts c b r st) as Hf. destruct (fetch w c b r st) as [[[hit err] r1] st1].
  destruct Hf as (Hs & Hh & Hw & Hv). assert (Hup : counts_up r r1) by (unfold counts_up; split; [done|lia]).
  destruct err; [done|]. destruct hit; [|done]. eapply counts_up_trans; [|apply IH].
  eapply counts_up_trans; [done|]. unfold counts_up, same_rest. cbn. lia.
Qed.

Lemma oneRequest_up c blocks allow root tenant cost r st :
  counts_up r (oneRequest w c blocks allow root tenant cost r st).1.2.
Proof.
  unfold oneRequest. destruct (rpc_Lookup _ _ _ st) as [e|[presence st1]]; [apply counts_up_refl|].
  pose proof (reuse_loop_up c blocks (present_run presence) 0 r st1) as Hr.
  destruct (reuse_loop _ _ _ _ _ _ _) as [[[e run] r1] st2]. cbn [fst snd] in Hr.
  destruct e; [|done..]. destruct allow; [|done].
  pose proof (write_loop_counts c (drop run blocks) root tenant cost r1 st2) as Hw.
  destruct (write_loop _ _ _ _ _ _ _ _) as [[e r'] st']. destruct Hw as (Hs & _ & Hh & Hv & Hwr & _).
  eapply counts_up_trans; [exact Hr|]. unfold counts_up. split; [done|]. cbn [fst snd]. lia.
Qed.

Lemma failover_up conns blocks root tenant cost r st :
  counts_up r (oneRequestWithFailover w conns blocks root tenant cost r st).1.2.
Proof.
  unfold oneRequestWithFailover. generalize 0, Ok. revert r st.
  induction conns as [|c conns IH]; intros r st i last; cbn [failover_loop]; [apply counts_up_refl|].
  pose proof (oneRequest_up c blocks (i =? 0) root tenant cost r st) as Ho.
  destruct (oneRequest _ _ _ _ _ _ _ _ _) as [[e r1] st1]. cbn [fst snd] in Ho.
  destruct e; [done| |done]. eapply counts_up_trans; [done|apply IH].
Qed.

Lemma failover_no_panic conns blocks root tenant cost r st :
  (forall c hashes l st st', rpc_Lookup c (model w) hashes st = inr (l, st') -> length l <= length hashes) ->
  (oneRequestWithFailover w conns blocks root tenant cost r st).1.1 <> IndexPanic.
Proof.
  intros Hl. unfold oneRequestWithFailover. assert (Hlast : Ok <> IndexPanic) by done. revert Hlast.
  generalize 0, Ok. revert r st. induction conns as [|c conns IH]; intros r st i last Hlast; cbn [failover_loop]; [done|].
  pose proof (oneRequest_accounts_aux c blocks (i =? 0) root tenant cost r st ltac:(intros; by eapply Hl)) as Ho.
  destruct (oneRequest _ _ _ _ _ _ _ _ _) as [[e r1] st1]. destruct e; [done| |by destruct Ho].
  by apply IH.
Qed.

(** *** Violations *)

(** An invariant of the world under which a lookup answers no more than it is
    asked, and a completed fetch of a block yields its payload, or shows [bad]. *)
Variables (Inv : W -> Prop) (bad : C -> hash32 -> W -> Prop) (okb : Block -> Prop).
Hypothesis lookup_inv : forall c m hs st l st', Inv st -> rpc_Lookup c m hs st = inr (l, st') -> Inv st' /\ length l <= length hs.
Hypothesis fetch_inv : forall c b st reply st',
  Inv st -> rpc_Fetch c (model w) (hash_bytes (blk_hash b)) (blk_tokens b) st = (reply, st') ->
  Inv st' /\ (fr_open reply = None -> fr_end reply = None ->
    mjoin (chunk_data <$> fr_frames reply) = fillVerifiable (payloadBytes w) (blk_hash b) \/ bad c (blk_hash b) st).
Hypothesis write_inv : forall c b root tenant cost st e st',
  okb b -> Inv st -> write w c b root tenant cost st = (e, st') -> Inv st'.

(** Some fetch of one of these blocks met [bad]. *)
Definition met_bad (blocks : list Block) : Prop := exists st c b, Inv st /\ b ∈ blocks /\ bad c (blk_hash b) st.

Lemma fetch_clean c b r st :
  Inv st ->
  let '((hit, err), r', st') := fetch w c b r st in
  Inv st' /\ (violations r' = violations r \/ bad c (blk_hash b) st).
Proof.
  intros Hi. unfold fetch. destruct (rpc_Fetch _ _ _ _ st) as [reply st'] eqn:E.
  destruct (fetch_inv c b st reply st' Hi E) as [Hi' Hg]. destruct (fr_open reply); [by split; [|left]|].
  destruct (fr_end reply); [by split; [|left]|]. split; [done|]. destruct (verify w); [|by left].
  destruct (Hg eq_refl eq_refl) as [->|Hb]; [left|by right].
  rewrite Nat.eqb_refl, equalBytes_spec, bool_decide_eq_true_2 by done. done.
Qed.

Lemma reuse_loop_clean c blocks n i r st :
  Inv st ->
  let '(e, run, r', st') := reuse_loop w c blocks n i r st in
  Inv st' /\ (violations r' = violations r \/ met_bad blocks).
Proof.
  revert i r st. induction n as [|n IH]; intros i r st Hi; cbn [reuse_loop]; [by split; [|left]|].
  destruct (blocks !! i) as [b|] eqn:Hb; [|by split; [|left]].
  pose proof (fetch_clean c b r st Hi) as Hf. destruct (fetch w c b r st) as [[[hit err] r1] st1].
  destruct Hf as [Hi1 Hv].
  assert (Hv1 : violations r1 = violations r \/ met_bad blocks).
  { destruct Hv as [|Hbad]; [by left|right]. exists st, c, b. split_and!; [done|by eapply list_elem_of_lookup_2|done]. }
  destruct err as [e|]; [done|]. destruct hit; [|done].
  specialize (IH (S i) (count_hit r1) st1 Hi1). destruct (reuse_loop _ _ _ _ _ _ _) as [[[e run] r'] st'].
  destruct IH as [Hi2 Hv2]. split; [done|]. destruct Hv1 as [<-|]; [exact Hv2|by right].
Qed.

Lemma write_loop_clean c blocks root tenant cost r st :
  Forall okb blocks -> Inv st ->
  let '(e, r', st') := write_loop w c blocks root tenant cost r st in Inv st' /\ violations r' = violations r.
Proof.
  intros Hb. revert r st. induction Hb as [|b blocks Hb _ IH]; intros r st Hi; cbn [write_loop]; [done|].
  destruct (write w c b root tenant cost st) as [[e|] st1] eqn:E; apply write_inv in E; try done.
  specialize (IH (count_write r) st1 E). by destruct (write_loop _ _ _ _ _ _ _ _) as [[e r'] st'].
Qed.

Lemma oneRequest_clean c blocks allow root tenant cost r st :
  Forall okb blocks -> Inv st ->
  let '(e, r', st') := oneRequest w c blocks allow root tenant cost r st in
  e <> IndexPanic /\ Inv st' /\ (violations r' = violations r \/ met_bad blocks).
Proof.
  intros Hb Hi.
  pose proof (oneRequest_accounts_aux c blocks allow root tenant cost r st ltac:(intros; by eapply lookup_inv)) as Hnp.
  assert (Hc : let '(e, r', st') := oneRequest w c blocks allow root tenant cost r st in
    Inv st' /\ (violations r' = violations r \/ met_bad blocks)).
  2: { destruct (oneRequest _ _ _ _ _ _ _ _ _) as [[e r'] st']. split; [apply Hnp|exact Hc]. }
  clear Hnp. unfold oneRequest. destruct (rpc_Lookup _ _ _ st) as [e|[presence st1]] eqn:E; [by split; [|left]|].
  apply lookup_inv in E as [E _]; [|done].
  pose proof (reuse_loop_clean c blocks (present_run presence) 0 r st1 E) as Hr.
  destruct (reuse_loop _ _ _ _ _ _ _) as [[[e run] r1] st2]. destruct e; [|done..]. destruct allow; [|done].
  destruct Hr as [Hi2 Hv]. pose proof (write_loop_clean c (drop run blocks) root tenant cost r1 st2 (Forall_drop _ _ _ Hb) Hi2) as Hw.
  destruct (write_loop _ _ _ _ _ _ _ _) as [[e r'] st']. destruct Hw as [Hi3 ->]. done.
Qed.

Lemma failover_clean conns blocks root tenant cost r st :
  Forall okb blocks -> Inv st ->
  let '(e, r', st') := oneRequestWithFailover w conns blocks root tenant cost r st in
  e <> IndexPanic /\ Inv st' /\ (violations r' = violations r \/ met_bad blocks).
Proof.
  intros Hb. unfold oneRequestWithFailover. assert (Hlast : Ok <> IndexPanic) by done. revert Hlast.
  generalize 0, Ok. revert r st.
  induction conns as [|c conns IH]; intros r st i last Hlast Hi; cbn [failover_loop]; [by split_and!; [| |left]|].
  pose proof (oneRequest_clean c blocks (i =? 0) root tenant cost r st Hb Hi) as Ho.
  destruct (oneRequest _ _ _ _ _ _ _ _ _) as [[e r1] st1]. destruct e as [|e|]; [done| |by destruct Ho].
  destruct Ho as (_ & Hi1 & Hv). specialize (IH r1 st1 (S i) (Err e) ltac:(done) Hi1).
  destruct (failover_loop _ _ _ _ _ _ _ _ _ _) as [[e' r'] st']. destruct IH as (Hp2 & Hi2 & Hv2).
  split; [done|]. split; [done|]. destruct Hv as [<-|]; [exact Hv2|by right].
Qed.

End requests.

(** *** Witness: shards that hold nothing *)

Definition w_no_shards : Shards unit unit := {|
  rpc_Lookup _ _ _ st := inr ([], st);
  rpc_Fetch _ _ _ _ st := (mk_reply (Some (StatusError NotFound "block not cached")) [] None, st);
  rpc_Write _ _ st := (None, st);
|}.

Lemma oneRequest_accounts_witness :
  let '(e, r', st') := @oneRequest unit unit w_no_shards (mk_workload "m" 8 true) tt [mk_block hash32_zero [1%Z]] true [] "" f64_0 zero_result tt in
  (violations zero_result <= violations r')%Z.
Proof.
  pose proof (@oneRequest_accounts unit unit w_no_shards (mk_workload "m" 8 true) tt [mk_block hash32_zero [1%Z]] true [] "" f64_0 zero_result tt) as Ho.
  destruct (oneRequest _ _ _ _ _ _ _ _ _) as [[e r'] st'].
  destruct Ho as (_ & _ & _ & _ & _ & _ & Hv); [|exact (proj1 Hv)].
  intros hashes l st0 [= <- _]. apply Nat.le_0_l.
Defined.
