(* ===== verification/Workload.v ===== *)
(** The traffic of the load generator: [src/cmd/loadgen/main.go], the part that
    makes requests, and [trace.go].

    Tokens from a random source, the hot prefix, the tenants and their bursts, the
    replayed trace with its shared cursor, and [run], the loop of one worker.  The
    random source and the clock are parameters; the router each round reads and
    what other workers do to the shared cursor in between are part of the round's
    circumstances. *)

From S2P Require Import Prelude Text Bytes Sha256 Float64 Blockhash Policy Store Server Ring Router Coord Loadgen.

(** ** Randomness *)

(** [rand.Rand]: [Float64] answers in [0, 1), [Intn n] in [0, n) for positive [n]. *)
Class RandSource (G : Type) := {
  rand_Float64 : G -> float64 * G;
  rand_Intn : Z -> G -> Z * G;
  rand_Intn_range n g : (0 < n)%Z -> (0 <= (rand_Intn n g).1 < n)%Z;
}.

(** [tenantProfile] *)
Record tenantProfile := mk_profile {
  tp_id : string;
  tp_weight : float64;
  tp_hotPool : list (list Z);
  tp_prefixBlocks : nat;
  tp_prefixShare : float64;
  tp_cost : float64;
  tp_bursty : bool;
}.

(** The fields of [workload] that shape the traffic.  The last two are the sizes a
    worker gives to [make], as the ints they are: [w.payloadBytes], and
    [w.tailBlocks*w.blockTokens]; the other sizes count what there is. *)
Record traffic := mk_traffic {
  tw : workload;
  blockTokens : nat;
  prefixShare : float64;
  prefixBlocks : nat;
  tailBlocks : nat;
  hotPrefix : list Z;
  trace : option (list (list Z));
  tenants : option (list tenantProfile);
  start : Z;
  make_payload : Z;
  make_tail : Z;
}.

Section random.
Context {G : Type} `{RandSource G}.
Implicit Types (g : G) (w : traffic).

(** [randomTokens] *)
Fixpoint randomTokens (n : nat) g : list Z * G :=
  match n with
  | O => ([], g)
  | S n => let '(t, g) := rand_Intn 32000 g in let '(ts, g) := randomTokens n g in (i32 t :: ts, g)
  end.

(** [buildTokens] *)
Definition buildTokens w g : list Z * G :=
  let '(u, g) := rand_Float64 g in
  let '(prefix, g) :=
    if f64_leb (prefixShare w) u then randomTokens (prefixBlocks w * blockTokens w) g else (hotPrefix w, g) in
  let '(tail, g) := randomTokens (tailBlocks w * blockTokens w) g in (prefix ++ tail, g).

(** The constructor [mk] of [buildTenants]. *)
Fixpoint random_pool (poolSize n : nat) g : list (list Z) * G :=
  match poolSize with
  | O => ([], g)
  | S k => let '(p, g) := randomTokens n g in let '(ps, g) := random_pool k n g in (p :: ps, g)
  end.
Definition mk_tenant_profile (bt : nat) (id : string) (weight : float64) (pb poolSize : nat) (share : float64)
    (bursty : bool) g : tenantProfile * G :=
  let '(pool, g) := random_pool poolSize (pb * bt) g in
  (mk_profile id weight pool pb share (f64_of_Z (Z.of_nat (pb * bt))) bursty, g).

Definition hundredths (n : Z) : float64 := f64_div (f64_of_Z n) (f64_of_Z 100).

(** [buildTenants] *)
Definition buildTenants (bt : nat) g : list tenantProfile * G :=
  let '(a, g) := mk_tenant_profile bt "A" (hundredths 55) 2 40 (hundredths 95) false g in
  let '(b, g) := mk_tenant_profile bt "B" (hundredths 30) 16 20 (hundredths 80) false g in
  let '(c, g) := mk_tenant_profile bt "C" (hundredths 15) 6 12 (hundredths 70) true g in
  ([a; b; c], g).

Definition Second : Z := 1000000000.

(** [burstActive], [elapsed] being [time.Since(w.start)]; Go's [%] truncates. *)
Definition burstActive (elapsed : Z) : bool := (Z.rem elapsed (6 * Second) <? 2 * Second)%Z.

(** A tenant that may fire now. *)
Definition firing (active : bool) (tp : tenantProfile) : bool := negb (tp_bursty tp) || active.

(** The two loops of [pickTenant]. *)
Definition weight_sum (active : bool) (ts : list tenantProfile) : float64 :=
  fold_left (fun sum tp => if firing active tp then f64_add sum (tp_weight tp) else sum) ts f64_0.
Fixpoint pick_loop (active : bool) (r : float64) (ts : list tenantProfile) : option tenantProfile :=
  match ts with
  | [] => None
  | tp :: ts =>
      if firing active tp then
        let r := f64_sub r (tp_weight tp) in
        if f64_leb r f64_0 then Some tp else pick_loop active r ts
      else pick_loop active r ts
  end.

(** [pickTenant]; [None] is the index panic on an empty list. *)
Definition pickTenant (elapsed : Z) (ts : list tenantProfile) g : option tenantProfile * G :=
  let active := burstActive elapsed in
  let '(u, g) := rand_Float64 g in
  let r := f64_mul u (weight_sum active ts) in
  (match pick_loop active r ts with Some tp => Some tp | None => head ts end, g).

(** The prefix of [buildTenantTokens]: a member of the hot pool, or a fresh one. *)
Definition tenant_prefix w (tp : tenantProfile) g : list Z * G :=
  let fresh g := randomTokens (tp_prefixBlocks tp * blockTokens w) g in
  match tp_hotPool tp with
  | [] => fresh g
  | pool =>
      let '(u, g) := rand_Float64 g in
      if f64_ltb u (tp_prefixShare tp) then
        let '(i, g) := rand_Intn (Z.of_nat (length pool)) g in (pool !!! Z.to_nat i, g)
      else fresh g
  end.

(** [buildTenantTokens] *)
Definition buildTenantTokens w (tp : tenantProfile) g : list Z * G :=
  let '(prefix, g) := tenant_prefix w tp g in
  let '(tail, g) := randomTokens (tailBlocks w * blockTokens w) g in (prefix ++ tail, g).

(** [w.trace[i].Tokens]; an index out of range is a panic. *)
Definition at_index (tr : list (list Z)) (i : Z) : option (option (list Z)) :=
  if (0 <=? i)%Z then Some <$> tr !! Z.to_nat i else None.

(** [nextTokens]: the tokens ([None]: no more work), the random source, and the
    shared cursor; [None] outside is the index panic of a negative cursor. *)
Definition nextTokens w (has_deadline : bool) (cursor : Z) g : option (option (list Z)) * G * Z :=
  match trace w with
  | None => let '(toks, g) := buildTokens w g in (Some (Some toks), g, cursor)
  | Some tr =>
      let n := Z.of_nat (length tr) in
      let cursor := i64 (cursor + 1) in
      let idx := i64 (cursor - 1) in
      if has_deadline then ((if (n =? 0)%Z then None else at_index tr (Z.rem idx n)), g, cursor)
      else if (n <=? idx)%Z then (Some None, g, cursor)
      else (at_index tr idx, g, cursor)
  end.

End random.

(** ** Lemmas *)

Section tokens.
Context {G : Type} `{RandSource G}.
Implicit Types (g : G) (w : traffic).

Lemma length_randomTokens n g : length (randomTokens n g).1 = n.
Proof.
  revert g. induction n as [|n IH]; intros g; [done|]. cbn [randomTokens].
  destruct (rand_Intn 32000 g) as [t g1]. specialize (IH g1). destruct (randomTokens n g1). simpl in *. lia.
Qed.

Lemma randomTokens_vocab n g : Forall (fun t => 0 <= t < 32000)%Z (randomTokens n g).1.
Proof.
  revert g. induction n as [|n IH]; intros g; [constructor|]. cbn [randomTokens].
  pose proof (rand_Intn_range 32000 g eq_refl) as Hr. destruct (rand_Intn 32000 g) as [t g1].
  specialize (IH g1). destruct (randomTokens n g1). cbn [fst] in *. constructor; [|done].
  unfold i32. rewrite Z.mod_small; lia.
Qed.

(** A prefix and a divergent tail. *)
Lemma buildTokens_spec w g :
  exists prefix tail, (buildTokens w g).1 = prefix ++ tail /\ length tail = tailBlocks w * blockTokens w
  /\ if f64_leb (prefixShare w) (rand_Float64 g).1 then length prefix = prefixBlocks w * blockTokens w
     else prefix = hotPrefix w.
Proof.
  unfold buildTokens. destruct (rand_Float64 g) as [u g1]. cbn [fst]. destruct (f64_leb (prefixShare w) u).
  - pose proof (length_randomTokens (prefixBlocks w * blockTokens w) g1) as Hl.
    destruct (randomTokens _ g1) as [p g2]. pose proof (length_randomTokens (tailBlocks w * blockTokens w) g2) as Ht.
    destruct (randomTokens _ g2) as [tl g3]. by exists p, tl.
  - pose proof (length_randomTokens (tailBlocks w * blockTokens w) g1) as Ht.
    destruct (randomTokens _ g1) as [tl g3]. by exists (hotPrefix w), tl.
Qed.

(** Two requests that draw the hot prefix have their first [prefixBlocks]
    block hashes in common, so the second finds what the first wrote, and their
    prompts have the same root, so any router sends both to the same owners. *)
Theorem hot_requests_meet w g1 g2 :
  0 < blockTokens w -> 0 < prefixBlocks w -> length (hotPrefix w) = prefixBlocks w * blockTokens w ->
  f64_leb (prefixShare w) (rand_Float64 g1).1 = false -> f64_leb (prefixShare w) (rand_Float64 g2).1 = false ->
  let chain g := Chain (model (tw w)) (buildTokens w g).1 (Z.of_nat (blockTokens w)) in
  take (prefixBlocks w) (chain g1) = take (prefixBlocks w) (chain g2)
  /\ length (take (prefixBlocks w) (chain g1)) = prefixBlocks w
  /\ exists root, head (chain g1) = Some root /\ head (chain g2) = Some root.
Proof.
  intros Hbt Hpb Hhot H1 H2 chain.
  destruct (buildTokens_spec w g1) as (p1 & t1 & E1 & Ht1 & Hp1). rewrite H1 in Hp1.
  destruct (buildTokens_spec w g2) as (p2 & t2 & E2 & Ht2 & Hp2). rewrite H2 in Hp2. subst p1 p2.
  assert (Hshare : take (prefixBlocks w) (chain g1) = take (prefixBlocks w) (chain g2)
                   /\ length (take (prefixBlocks w) (chain g1)) = prefixBlocks w).
  { unfold chain. rewrite E1, E2. unfold Chain. rewrite !ChainBlocks_unfold by lia. rewrite Nat2Z.id, !length_app.
    assert (forall k, prefixBlocks w <= (length (hotPrefix w) + k) / blockTokens w) as Hk.
    { intros k. apply Nat.div_le_lower_bound; lia. }
    rewrite <- !fmap_take. split.
    - f_equal. apply chain_loop_ext; [|apply Hk..]. cbn [Nat.add]. by rewrite <- Hhot, !take_app_length.
    - rewrite length_fmap, length_take, length_chain_loop. pose proof (Hk (length t1)). lia. }
  destruct Hshare as [Heq Hlen]. split_and!; [done..|].
  destruct (chain g1) as [|r1 c1] eqn:Ec1; [rewrite take_nil in Hlen; cbn in Hlen; lia|].
  destruct (prefixBlocks w) as [|k]; [lia|]. cbn [take] in Heq.
  destruct (chain g2) as [|r2 c2] eqn:Ec2; [done|]. cbn [take] in Heq. injection Heq as -> _.
  by exists r2.
Qed.

(** *** Tenants *)

Lemma pick_loop_firing active r ts tp : pick_loop active r ts = Some tp -> tp ∈ ts /\ firing active tp = true.
Proof.
  revert r. induction ts as [|x ts IH]; intros r; cbn [pick_loop]; [done|].
  destruct (firing active x) eqn:Ef; [destruct (f64_leb _ _)|].
  - intros [= <-]. by split; [left|].
  - intros Hp%IH. split; [right|]; apply Hp.
  - intros Hp%IH. split; [right|]; apply Hp.
Qed.

Lemma buildTenants_spec bt g :
  exists a b c, (buildTenants bt g).1 = [a; b; c] /\ tp_bursty a = false.
Proof.
  unfold buildTenants, mk_tenant_profile. destruct (random_pool 40 _ g) as [p1 g1].
  destruct (random_pool 20 _ g1) as [p2 g2]. destruct (random_pool 12 _ g2) as [p3 g3]. by do 3 eexists.
Qed.

(** A request is always charged to a tenant that may fire: outside its window a
    bursty tenant is never picked, provided the first profile is steady, as it is
    in the profiles the program builds; the rounding of the weights cannot break
    it. *)
Theorem pickTenant_firing bt elapsed g g' :
  exists tp, (pickTenant elapsed (buildTenants (G := G) bt g').1 g).1 = Some tp
  /\ tp ∈ (buildTenants (G := G) bt g').1 /\ (tp_bursty tp = true -> burstActive elapsed = true).
Proof.
  destruct (buildTenants_spec bt g') as (a & b & c & -> & Ha). unfold pickTenant.
  destruct (rand_Float64 g) as [u g1]. destruct (pick_loop _ _ _) as [tp|] eqn:E; cbn [fst].
  - apply pick_loop_firing in E as [Hin Hf]. exists tp. split_and!; [done|done|]. intros Hb. unfold firing in Hf.
    by rewrite Hb in Hf.
  - exists a. split_and!; [done|by left|congruence].
Qed.

(** *** The trace *)

(** The answers to [k] successive requests of any workers. *)
Fixpoint draws w (has_deadline : bool) (k : nat) (cursor : Z) g : list (option (option (list Z))) :=
  match k with
  | O => []
  | S k => let '(a, g, cursor) := nextTokens w has_deadline cursor g in a :: draws w has_deadline k cursor g
  end.

Lemma nextTokens_trace w tr has_deadline i g :
  trace w = Some tr -> (0 <= i < 2 ^ 62)%Z ->
  nextTokens w has_deadline i g
  = (if has_deadline then match tr with [] => None | _ => Some <$> tr !! (Z.to_nat i mod length tr) end else Some (tr !! Z.to_nat i), g, (i + 1)%Z).
Proof.
  intros Htr Hi. unfold nextTokens, at_index. rewrite Htr. rewrite !(i64_small (i + 1)) by (wrap_unfold; lia).
  replace (i + 1 - 1)%Z with i by lia. rewrite i64_small by (wrap_unfold; lia). destruct has_deadline.
  - destruct tr as [|t0 tr']; [done|]. destruct (Z.eqb_spec (Z.of_nat (length (t0 :: tr'))) 0) as [E|E]; [cbn in E; lia|].
    rewrite (proj2 (Z.leb_le 0 (Z.rem i (Z.of_nat (length (t0 :: tr')))))) by (apply Z.rem_nonneg; lia).
    do 3 f_equal. rewrite Z.rem_mod_nonneg by lia.
    rewrite <- (Nat2Z.id (_ mod _)), Nat2Z.inj_mod, Z2Nat.id by lia. done.
  - destruct (Z.leb_spec (Z.of_nat (length tr)) i) as [Hle|Hlt].
    + rewrite lookup_ge_None_2 by lia. done.
    + rewrite (proj2 (Z.leb_le 0 i)) by lia.
      destruct (lookup_lt_is_Some_2 tr (Z.to_nat i)) as [t ->]; [lia|done].
Qed.

(** The shared trace is consumed exactly: whichever workers ask, the [i]-th
    request overall gets the [i]-th record, so in count mode every record is
    replayed once, in file order, and then every worker is told to stop; with a
    deadline the replay wraps around and never runs out. *)
Theorem trace_replayed_in_order w tr has_deadline k g :
  trace w = Some tr -> (tr = [] -> has_deadline = false) -> (Z.of_nat k < 2 ^ 62)%Z ->
  draws w has_deadline k 0 g
  = (fun i => if has_deadline then Some <$> tr !! (i mod length tr) else Some (tr !! i)) <$> seq 0 k.
Proof.
  intros Htr Hne Hk.
  assert (Hgen : forall j, (Z.of_nat (j + k) < 2 ^ 62)%Z -> draws w has_deadline k (Z.of_nat j) g
    = (fun i => if has_deadline then Some <$> tr !! (i mod length tr) else Some (tr !! i)) <$> seq j k).
  2: { by apply (Hgen 0). }
  clear Hk. induction k as [|k IH]; intros j Hj; [done|]. cbn [draws seq fmap list_fmap].
  rewrite (nextTokens_trace w tr) by (done || lia).
  f_equal.
  - rewrite Nat2Z.id. destruct has_deadline; [|done]. destruct tr; [by specialize (Hne eq_refl)|done].
  - replace (Z.of_nat j + 1)%Z with (Z.of_nat (S j)) by lia. apply IH. lia.
Qed.

End tokens.
