(* ===== verification/Run.v ===== *)
(** One worker of the load generator: [run] of [src/cmd/loadgen/main.go], and the
    aggregation of the workers in [report].

    A round draws tokens, chains them, routes the prompt by its first hash, sends
    the request to the owners and counts.  What surrounds a round (the clock, the
    router, the other users of the trace and of the shards) is an argument of it. *)

From S2P Require Import Prelude Text Bytes Sha256 Float64 Blockhash Policy Store Server Ring Router Loadgen Workload.

(** [tenantCounts] *)
Record tenantCounts := mk_counts { tc_blocks : Z; tc_hits : Z; tc_writes : Z; tc_requests : Z }.
Definition no_counts : tenantCounts := mk_counts 0 0 0 0.
Definition add_counts (a b : tenantCounts) : tenantCounts :=
  mk_counts (tc_blocks a + tc_blocks b) (tc_hits a + tc_hits b) (tc_writes a + tc_writes b) (tc_requests a + tc_requests b).

(** The whole of [result]. *)
Record run_result := mk_run_result {
  totals : result;
  perShard : gmap string Z;
  perTenant : gmap string tenantCounts;
  latencies : list Z;
}.
Definition no_result : run_result := mk_run_result zero_result ∅ ∅ [].

Definition count_request (r : result) : result :=
  mk_result (requests r + 1) (res_blocks r) (hits r) (writes r) (errors r) (degraded r) (violations r).
Definition count_degraded (r : result) : result :=
  mk_result (requests r) (res_blocks r) (hits r) (writes r) (errors r) (degraded r + 1) (violations r).
Definition count_error (r : result) : result :=
  mk_result (requests r) (res_blocks r) (hits r) (writes r) (errors r + 1) (degraded r) (violations r).
Definition count_blocks (n : nat) (r : result) : result :=
  mk_result (requests r) (res_blocks r + Z.of_nat n) (hits r) (writes r) (errors r) (degraded r) (violations r).

(** The circumstances of one round: whether the deadline has passed, the time
    since the start, the router, how often others moved the shared cursor and what
    they did to the shards since the last round, and how long the request takes. *)
Record tick (W : Type) := mk_tick {
  tk_expired : bool;
  tk_elapsed : Z;
  tk_router : Router;
  tk_others : Z;
  tk_world : W -> W;
  tk_latency : Z;
}.
#[global] Arguments mk_tick {W}.
#[global] Arguments tk_expired {W}.
#[global] Arguments tk_elapsed {W}.
#[global] Arguments tk_router {W}.
#[global] Arguments tk_others {W}.
#[global] Arguments tk_world {W}.
#[global] Arguments tk_latency {W}.

Inductive round_end := RBreak | RNext | RPanic.
Inductive run_end := RunDone | RunPanic | RunOutOfFuel.

Section worker.
Context {G C W : Type} `{RandSource G} `{Shards C W} (service : conn -> C).
Implicit Types (w : traffic) (g : G) (st : W).

(** What a worker carries from round to round. *)
Record worker := mk_worker { wk_rand : G; wk_cursor : Z; wk_world : W; wk_res : run_result }.

(** The request of one round: the tenant, the tokens, or the end of the trace;
    [None] is a panic, of an index or of [make] for the tail. *)
Definition draw_request w (has_deadline : bool) (elapsed cursor : Z) g :
    option (option tenantProfile * option (list Z)) * G * Z :=
  match tenants w with
  | Some ts =>
      match pickTenant elapsed ts g with
      | (Some tp, g) =>
          if (make_tail w <? 0)%Z then (None, g, cursor)
          else let '(toks, g) := buildTenantTokens w tp g in (Some (Some tp, Some toks), g, cursor)
      | (None, g) => (None, g, cursor)
      end
  | None =>
      if bool_decide (trace w = None) && (make_tail w <? 0)%Z then (None, g, cursor)
      else match nextTokens w has_deadline cursor g with
      | (Some toks, g, cursor) => (Some (None, toks), g, cursor)
      | (None, g, cursor) => (None, g, cursor)
      end
  end.

(** The tenant's share of a request. *)
Definition charge_tenant (tp : option tenantProfile) (n : nat) (r r' : result) (m : gmap string tenantCounts) :
    gmap string tenantCounts :=
  match tp with
  | None => m
  | Some tp =>
      let tc := default no_counts (m !! tp_id tp) in
      <[tp_id tp := add_counts tc (mk_counts (Z.of_nat n) (hits r' - hits r) (writes r' - writes r) 1)]> m
  end.

(** The body of the loop once the tokens are drawn. *)
Definition serve_request w (tk : tick W) (tp : option tenantProfile) (toks : list Z) (s : worker) : round_end * worker :=
  let blocks := ChainBlocks (model (tw w)) toks (Z.of_nat (blockTokens w)) in
  match blocks with
  | [] => (RNext, s)
  | b0 :: _ =>
      let res := wk_res s in
      let r := count_request (totals res) in
      let root := hash_bytes (blk_hash b0) in
      let owner := (Router.Owner root (tk_router tk)).1 in
      match service <$> OwnerConns root 2 (tk_router tk) with
      | [] => (RNext, mk_worker (wk_rand s) (wk_cursor s) (wk_world s)
                 (mk_run_result (count_degraded r) (perShard res) (perTenant res) (latencies res)))
      | conns =>
          let shards := <[owner := (default 0 (perShard res !! owner) + 1)%Z]> (perShard res) in
          let '(tenant, cost) := match tp with Some tp => (tp_id tp, tp_cost tp) | None => (""%string, f64_0) end in
          let '(e, r', st) := oneRequestWithFailover (tw w) conns blocks root tenant cost r (wk_world s) in
          let tenants' := charge_tenant tp (length blocks) r r' (perTenant res) in
          let r'' := count_blocks (length blocks) r' in
          let r'' := match e with Err _ => count_error r'' | _ => r'' end in
          (match e with IndexPanic => RPanic | _ => RNext end,
           mk_worker (wk_rand s) (wk_cursor s) st
             (mk_run_result r'' shards tenants' (latencies res ++ [tk_latency tk])))
      end
  end.

(** One iteration of [run]. *)
Definition round w (has_deadline : bool) (n : Z) (tk : tick W) (i : Z) (s : worker) : round_end * worker :=
  if (if has_deadline then tk_expired tk else bool_decide (trace w = None) && (n <=? i)%Z) then (RBreak, s)
  else
    let '(drawn, g, cursor) := draw_request w has_deadline (tk_elapsed tk) (i64 (wk_cursor s + tk_others tk)) (wk_rand s) in
    let s := mk_worker g cursor (tk_world tk (wk_world s)) (wk_res s) in
    match drawn with
    | None => (RPanic, s)
    | Some (_, None) => (RBreak, s)
    | Some (tp, Some toks) => serve_request w tk tp toks s
    end.

(** The loop of [run] from iteration [i], under the circumstances [ticks]. *)
Fixpoint run_loop (fuel : nat) w (has_deadline : bool) (n : Z) (ticks : nat -> tick W) (i : nat) (s : worker) :
    run_end * worker :=
  match fuel with
  | O => (RunOutOfFuel, s)
  | S fuel =>
      match round w has_deadline n (ticks i) (Z.of_nat i) s with
      | (RBreak, s) => (RunDone, s)
      | (RPanic, s) => (RunPanic, s)
      | (RNext, s) => run_loop fuel w has_deadline n ticks (S i) s
      end
  end.

(** [run]; its first [make]s panic on a negative [-requests] or [-payload-bytes]. *)
Definition run (fuel : nat) w (has_deadline : bool) (n : Z) (ticks : nat -> tick W) g st : run_end * worker :=
  let s := mk_worker g 0 st no_result in
  if (n <? 0)%Z || (make_payload w <? 0)%Z then (RunPanic, s) else run_loop fuel w has_deadline n ticks 0 s.

End worker.
#[global] Arguments mk_worker {G W}.
#[global] Arguments wk_rand {G W}.
#[global] Arguments wk_cursor {G W}.
#[global] Arguments wk_world {G W}.
#[global] Arguments wk_res {G W}.

(** ** [report] *)

Definition add_results (a b : result) : result :=
  mk_result (requests a + requests b) (res_blocks a + res_blocks b) (hits a + hits b) (writes a + writes b)
    (errors a + errors b) (degraded a + degraded b) (violations a + violations b).

(** One round of the aggregation loop; the maps are added key by key. *)
Definition add_maps {V} (f : V -> V -> V) (a b : gmap string V) : gmap string V :=
  union_with (fun x y => Some (f x y)) a b.
Definition report_round (acc r : run_result) : run_result :=
  mk_run_result (add_results (totals acc) (totals r)) (add_maps Z.add (perShard acc) (perShard r))
    (add_maps add_counts (perTenant acc) (perTenant r)) (latencies acc ++ latencies r).
Definition aggregate (rs : list run_result) : run_result := fold_left report_round rs no_result.

(** [percentile] of a sorted slice; [None] is an index panic. *)
Definition percentile (sorted : list Z) (p : float64) : option Z :=
  match sorted with
  | [] => Some 0%Z
  | _ =>
      let n := Z.of_nat (length sorted) in
      let idx := f64_to_i64 (f64_mul p (f64_of_Z n)) in
      let idx := if (n <=? idx)%Z then (n - 1)%Z else idx in
      if (0 <=? idx)%Z then sorted !! Z.to_nat idx else None
  end.

(** [float64(part) / float64(total) * 100], 0 when the total is not positive. *)
Definition rate (part total : Z) : float64 :=
  if (0 <? total)%Z then f64_mul (f64_div (f64_of_Z part) (f64_of_Z total)) (f64_of_Z 100) else f64_0.

(** The lines of [reportDistribution] and [reportTenants]: the keys in ascending
    order ([sort.Strings]). *)
Definition sorted_keys {V} (m : gmap string V) : list string := merge_sort String.le (map_to_list m).*1.
Definition reportDistribution (m : gmap string Z) (total : Z) : list (string * Z * float64) :=
  (fun n => (n, default 0%Z (m !! n), rate (default 0%Z (m !! n)) total)) <$> sorted_keys m.
Definition reportTenants (m : gmap string tenantCounts) : list (string * tenantCounts * float64) :=
  (fun id => let tc := default no_counts (m !! id) in (id, tc, rate (tc_hits tc) (tc_blocks tc))) <$> sorted_keys m.

(** What [report] prints, and its result: the number of violations. *)
Record summary := mk_summary {
  sm_totals : result;
  sm_hit_rate : float64;
  sm_percentiles : list (option Z);
  sm_shards : list (string * Z * float64);
  sm_tenants : list (string * tenantCounts * float64);
}.
Definition p50 : float64 := f64_div f64_1 (f64_of_Z 2).
Definition p95 : float64 := hundredths 95.
Definition p99 : float64 := hundredths 99.
Definition report (rs : list run_result) : summary * Z :=
  let r := aggregate rs in
  let lats := merge_sort Z.le (latencies r) in
  (mk_summary (totals r) (rate (hits (totals r)) (res_blocks (totals r)))
     (percentile lats <$> [p50; p95; p99])
     (reportDistribution (perShard r) (requests (totals r))) (reportTenants (perTenant r)),
   violations (totals r)).

(** The exit code of [main]. *)
Definition exit_code (verify : bool) (rs : list run_result) : Z :=
  if verify && (0 <? (report rs).2)%Z then 1%Z else 0%Z.

(** ** Accounting *)

Section runs.
Context {G C W : Type} `{RandSource G} `{Shards C W} (service : conn -> C).
Implicit Types (w : traffic) (g : G) (st : W) (s : worker (G := G) (W := W)).

(** What the counters of a worker say of each other. *)
Record accounted w (r : run_result) : Prop := mk_accounted {
  ac_requests : requests (totals r) = (degraded (totals r) + Z.of_nat (length (latencies r)))%Z;
  ac_shards : map_sum id (perShard r) = Z.of_nat (length (latencies r));
  ac_errors : (0 <= errors (totals r) <= Z.of_nat (length (latencies r)))%Z;
  ac_counts : (0 <= hits (totals r) /\ 0 <= writes (totals r) /\ 0 <= violations (totals r) /\ 0 <= degraded (totals r))%Z;
  ac_tenants :
    match tenants w with
    | None => perTenant r = ∅
    | Some _ =>
        map_sum tc_requests (perTenant r) = Z.of_nat (length (latencies r))
        /\ map_sum tc_blocks (perTenant r) = res_blocks (totals r)
        /\ map_sum tc_hits (perTenant r) = hits (totals r)
        /\ map_sum tc_writes (perTenant r) = writes (totals r)
    end;
}.

Lemma map_sum_add {V} (f : V -> Z) (m : gmap string V) k d v :
  f d = 0%Z -> map_sum f (<[k := v]> m) = (map_sum f m + f v - f (default d (m !! k)))%Z.
Proof.
  intros Hd. destruct (m !! k) as [x|] eqn:E; cbn [default].
  - rewrite (map_sum_insert_Some f m k v x) by done. unfold id. lia.
  - rewrite map_sum_insert_None by done. unfold id. lia.
Qed.

Lemma charge_tenant_sum (f : tenantCounts -> Z) tp n r r' m :
  f no_counts = 0%Z -> (forall a b, f (add_counts a b) = f a + f b)%Z ->
  map_sum f (charge_tenant (Some tp) n r r' m)
  = (map_sum f m + f (mk_counts (Z.of_nat n) (hits r' - hits r) (writes r' - writes r) 1))%Z.
Proof. intros Hz Ha. cbn [charge_tenant]. rewrite (map_sum_add f m _ no_counts) by done. rewrite Ha. lia. Qed.

Lemma serve_request_accounted w tk tp toks s e s' :
  (is_Some tp <-> is_Some (tenants w)) ->
  accounted w (wk_res s) -> serve_request service w tk tp toks s = (e, s') -> accounted w (wk_res s').
Proof.
  intros Htp [Hr Hs He Hc Ht]. unfold serve_request.
  destruct (ChainBlocks _ _ _) as [|b0 blocks]; [by intros [= _ <-]|].
  destruct (service <$> _) as [|c conns].
  { intros [= _ <-]. split; cbn; try done; lia. }
  destruct (match tp with Some tp => _ | None => _ end) as [tenant cost].
  pose proof (failover_up (tw w) (c :: conns) (b0 :: blocks) (hash_bytes (blk_hash b0)) tenant cost
    (count_request (totals (wk_res s))) (wk_world s)) as Hup.
  destruct (oneRequestWithFailover _ _ _ _ _ _ _ _) as [[end_ r'] st']. cbn [fst snd] in Hup.
  destruct Hup as ((Hq & Hb & Her & Hdeg) & Hh & Hwr & Hv). cbn in Hq, Hb, Her, Hdeg, Hh, Hwr, Hv.
  set (n := length (b0 :: blocks)). intros [= _ <-]. cbn [wk_res].
  assert (Hcommon : forall rr, (requests rr = requests r' /\ degraded rr = degraded r' /\ hits rr = hits r' /\ writes rr = writes r'
      /\ violations rr = violations r' /\ res_blocks rr = res_blocks r' + Z.of_nat n /\ errors r' <= errors rr <= errors r' + 1)%Z ->
    accounted w (mk_run_result rr
      (<[(Router.Owner (hash_bytes (blk_hash b0)) (tk_router tk)).1 :=
         (default 0 (perShard (wk_res s) !! (Router.Owner (hash_bytes (blk_hash b0)) (tk_router tk)).1) + 1)%Z]> (perShard (wk_res s)))
      (charge_tenant tp n (count_request (totals (wk_res s))) r' (perTenant (wk_res s)))
      (latencies (wk_res s) ++ [tk_latency tk]))).
  { intros rr (E1 & E2 & E3 & E4 & E5 & E6 & E7). split; cbn [totals perShard perTenant latencies]; rewrite ?length_app; cbn [length].
    - lia.
    - rewrite (map_sum_add id _ _ 0%Z) by done. rewrite Hs. unfold id. lia.
    - lia.
    - lia.
    - destruct (tenants w) as [ts|] eqn:Et.
      + destruct tp as [tp|]; [|by destruct (proj2 Htp ltac:(done))].
        rewrite !charge_tenant_sum by done. cbn. destruct Ht as (-> & -> & -> & ->).
        rewrite E3, E4, E6. cbn in *. unfold n. cbn. lia.
      + destruct tp; [by destruct (proj1 Htp ltac:(done))|]. done. }
  destruct end_; apply Hcommon; cbn; lia.
Qed.

Lemma round_accounted w dl n tk i s e s' :
  accounted w (wk_res s) -> round service w dl n tk i s = (e, s') -> accounted w (wk_res s').
Proof.
  intros Ha. unfold round. destruct (if dl then _ else _); [by intros [= _ <-]|].
  unfold draw_request. destruct (tenants w) as [ts|] eqn:Et.
  - destruct (pickTenant _ _ _) as [[tp|] g]; [|by intros [= _ <-]]. destruct (make_tail w <? 0)%Z; [by intros [= _ <-]|].
    destruct (buildTenantTokens w tp g) as [toks g']. intros Hsr.
    eapply serve_request_accounted; [| |exact Hsr]; [|exact Ha]. rewrite Et. split; intros; by eexists.
  - destruct (bool_decide _ && _); [by intros [= _ <-]|].
    destruct (nextTokens _ _ _ _) as [[[[toks|]|] g] cur]; try by intros [= _ <-].
    intros Hsr. eapply serve_request_accounted; [| |exact Hsr]; [|exact Ha]. rewrite Et. by split; intros [].
Qed.

Lemma run_loop_accounted fuel w dl n ticks i s :
  accounted w (wk_res s) -> accounted w (wk_res (run_loop service fuel w dl n ticks i s).2).
Proof.
  revert i s. induction fuel as [|fuel IH]; intros i s Ha; [done|]. cbn [run_loop].
  destruct (round _ _ _ _ _ _ _) as [e s'] eqn:E. apply round_accounted in E; [|done].
  destruct e; [done|by apply IH|done].
Qed.

(** C28. A worker's report adds up, however the shards, the routers and the clock
    behave and wherever the run stops: every request was either degraded or sent
    once, with one latency and one shard to its name; no more errors than
    requests sent; and with tenants, the tenants' requests, blocks, hits and
    writes are exactly the totals. *)
Theorem run_accounts fuel w dl n ticks g st : accounted w (wk_res (run service fuel w dl n ticks g st).2).
Proof.
  assert (Hacc : accounted w (wk_res (mk_worker g 0%Z st no_result))).
  { split; cbn; try done. destruct (tenants w); [|done]. rewrite !map_sum_empty. done. }
  unfold run. destruct (_ || _); [exact Hacc|by apply run_loop_accounted].
Qed.

End runs.

(** ** Termination *)

Section ending.
Context {G C W : Type} `{RandSource G} `{Shards C W} (service : conn -> C).
Implicit Types (w : traffic) (g : G) (st : W) (s : worker (G := G) (W := W)).

Lemma serve_request_cursor w tk tp toks s :
  (serve_request service w tk tp toks s).1 <> RBreak /\ wk_cursor (serve_request service w tk tp toks s).2 = wk_cursor s.
Proof.
  unfold serve_request. destruct (ChainBlocks _ _ _); [done|]. destruct (service <$> _); [done|].
  destruct (match tp with Some tp => _ | None => _ end). destruct (oneRequestWithFailover _ _ _ _ _ _ _ _) as [[e r] st].
  by destruct e.
Qed.

(** A round in count mode over a trace moves the cursor on, or ends the run. *)
Lemma round_trace w tr n tk i s :
  trace w = Some tr -> tenants w = None -> (0 <= tk_others tk)%Z -> (0 <= wk_cursor s)%Z ->
  (wk_cursor s + tk_others tk < 2 ^ 62)%Z ->
  let '(e, s') := round service w false n tk i s in
  if (Z.of_nat (length tr) <=? wk_cursor s + tk_others tk)%Z then e = RBreak
  else e = RPanic \/ (e = RNext /\ wk_cursor s' = wk_cursor s + tk_others tk + 1)%Z.
Proof.
  intros Htr Hts Ho Hc Hb. unfold round. rewrite bool_decide_eq_false_2 by congruence. cbn [andb].
  unfold draw_request. rewrite Hts. rewrite (bool_decide_eq_false_2 (trace w = None)) by congruence. cbn [andb].
  rewrite (i64_small (wk_cursor s + _)) by (wrap_unfold; lia).
  rewrite (nextTokens_trace w tr) by (done || lia).
  destruct (Z.leb_spec (Z.of_nat (length tr)) (wk_cursor s + tk_others tk)).
  - by rewrite lookup_ge_None_2 by lia.
  - destruct (lookup_lt_is_Some_2 tr (Z.to_nat (wk_cursor s + tk_others tk))) as [toks ->]; [lia|].
    match goal with |- context [serve_request service w tk None toks ?x] => pose proof (serve_request_cursor w tk None toks x) as [Hb' Hc'] end.
    destruct (serve_request _ _ _ _ _ _) as [e s']. cbn [fst snd wk_cursor] in *. destruct e; [done|by right|by left].
Qed.

Lemma run_loop_trace fuel w tr n ticks i s :
  trace w = Some tr -> tenants w = None -> (forall i, 0 <= tk_others (ticks i) < 2 ^ 31)%Z ->
  (Z.of_nat (length tr) < 2 ^ 30)%Z -> (Z.of_nat i <= wk_cursor s <= Z.of_nat i * 2 ^ 31)%Z ->
  i <= length tr -> length tr - i < fuel ->
  (run_loop service fuel w false n ticks i s).1 <> RunOutOfFuel.
Proof.
  intros Htr Hts Ho Hlen. revert i s. induction fuel as [|fuel IH]; intros i s Hc Hi Hf; [lia|]. cbn [run_loop].
  pose proof (Ho i) as Hoi.
  pose proof (round_trace w tr n (ticks i) (Z.of_nat i) s Htr Hts ltac:(lia) ltac:(lia) ltac:(lia)) as Hr.
  destruct (round _ _ _ _ _ _ _) as [e s']. destruct (Z.leb_spec (Z.of_nat (length tr)) (wk_cursor s + tk_others (ticks i))).
  - by subst e.
  - destruct Hr as [->|[-> Hc']]; [done|]. apply IH; lia.
Qed.

Lemma run_loop_counted fuel w n ticks i s :
  trace w = None -> (n - Z.of_nat i < Z.of_nat fuel)%Z -> 0 < fuel ->
  (run_loop service fuel w false n ticks i s).1 <> RunOutOfFuel.
Proof.
  intros Htr. revert i s. induction fuel as [|fuel IH]; intros i s Hf Hp; [lia|]. cbn [run_loop]. unfold round.
  rewrite bool_decide_eq_true_2 by done. destruct (Z.leb_spec n (Z.of_nat i)); [done|]. cbn [andb].
  destruct (draw_request _ _ _ _ _) as [[[[tp [toks|]]|] g] cur]; [|done..].
  destruct (serve_request _ _ _ _ _ _) as [[| |] s']; [done| |done]. apply IH; lia.
Qed.

Lemma run_loop_deadline fuel w n ticks i k s :
  tk_expired (ticks k) = true -> i <= k -> k - i < fuel -> (run_loop service fuel w true n ticks i s).1 <> RunOutOfFuel.
Proof.
  intros Hk. revert i s. induction fuel as [|fuel IH]; intros i s Hi Hf; [lia|]. cbn [run_loop].
  destruct (decide (i = k)) as [->|Hne]; [unfold round; by rewrite Hk|].
  destruct (round _ _ _ _ _ _ _) as [[| |] s']; [done| |done]. apply IH; lia.
Qed.

(** How many iterations a worker needs in each mode; a run of tenants over a trace
    without a deadline has no bound. *)
Definition enough_fuel w (has_deadline : bool) (n : Z) (ticks : nat -> tick W) (fuel : nat) : Prop :=
  if has_deadline then exists k, k < fuel /\ tk_expired (ticks k) = true
  else match trace w with
       | None => (n < Z.of_nat fuel)%Z /\ 0 < fuel
       | Some tr => tenants w = None /\ length tr < fuel /\ (Z.of_nat (length tr) < 2 ^ 30)%Z
                    /\ (forall i, 0 <= tk_others (ticks i) < 2 ^ 31)%Z
       end.

(** C29. A worker's run ends: with a deadline, in the first round after it; without,
    after its [n] requests, or once the workers together have consumed the trace,
    whatever the shards answer. *)
Theorem run_terminates w has_deadline n ticks fuel g st :
  enough_fuel w has_deadline n ticks fuel -> (run service fuel w has_deadline n ticks g st).1 <> RunOutOfFuel.
Proof.
  unfold enough_fuel, run. destruct (_ || _); [done|]. destruct has_deadline.
  - intros (k & Hk & He). eapply run_loop_deadline; [done|lia..].
  - destruct (trace w) as [tr|] eqn:Htr.
    + intros (Hts & Hf & Hlen & Ho). eapply run_loop_trace; cbn; [done..|lia|lia|lia].
    + intros [Hn Hp]. apply run_loop_counted; [done|lia..].
Qed.

(** Tenants and a trace together, without a deadline: the trace is never read,
    and the test on the number of requests is skipped because there is a trace, so
    the worker never stops (as long as the shards' answers do not make it
    panic). *)
Theorem tenants_over_trace_never_end w n ticks fuel g st :
  (0 <= n)%Z -> (0 <= make_payload w)%Z -> (0 <= make_tail w)%Z -> is_Some (trace w) -> (exists tp ts, tenants w = Some (tp :: ts)) ->
  (forall c hashes l st st', rpc_Lookup c (model (tw w)) hashes st = inr (l, st') -> length l <= length hashes) ->
  (run service fuel w false n ticks g st).1 = RunOutOfFuel.
Proof.
  intros Hn Hpay Htail [tr Htr] (tp & ts & Hts) Hl. unfold run.
  rewrite (proj2 (Z.ltb_ge n 0) Hn), (proj2 (Z.ltb_ge (make_payload w) 0) Hpay). cbn [orb]. generalize (mk_worker g 0%Z st no_result) as s.
  generalize 0 as i. induction fuel as [|fuel IH]; intros i s; [done|]. cbn [run_loop]. unfold round.
  rewrite Htr, bool_decide_eq_false_2 by done. cbn [andb]. unfold draw_request. rewrite Hts.
  assert (Hpick : exists tp', (pickTenant (tk_elapsed (ticks i)) (tp :: ts) (wk_rand s)).1 = Some tp').
  { unfold pickTenant. destruct (rand_Float64 _). destruct (pick_loop _ _ _); by eexists. }
  destruct (pickTenant _ _ _) as [p g']. destruct Hpick as [tp' Hp]. cbn [fst] in Hp. rewrite Hp.
  rewrite (proj2 (Z.ltb_ge _ _) Htail). destruct (buildTenantTokens w tp' g') as [toks g2].
  match goal with |- context [serve_request service w ?tk ?t toks ?x] => set (x0 := x); pose proof (serve_request_cursor w tk t toks x0) as [Hb _];
    assert (Hnp : (serve_request service w tk t toks x0).1 <> RPanic) end.
  { unfold serve_request. destruct (ChainBlocks _ _ _) as [|b0 bs]; [done|]. destruct (service <$> _) as [|c cs]; [done|].
    pose proof (failover_no_panic (tw w) (c :: cs) (b0 :: bs) (hash_bytes (blk_hash b0)) (tp_id tp') (tp_cost tp')
      (count_request (totals (wk_res x0))) (wk_world x0) Hl) as Hnp.
    destruct (oneRequestWithFailover _ _ _ _ _ _ _ _) as [[e r'] st']. by destruct e. }
  destruct (serve_request _ _ _ _ _ _) as [[| |] s']; [done|apply IH|done].
Qed.

End ending.

(** ** The report *)

Section reporting.
Implicit Types (rs : list run_result) (r : run_result).

Lemma f64_to_i64_small k f :
  (0 <= k <= 62)%Z -> f64_nonneg f = true -> f64_small k f -> (0 <= f64_to_i64 f < 2 ^ 63)%Z.
Proof.
  intros Hk. destruct f as [|[]| |[] m e]; try done; cbn [f64_small f64_to_i64]; intros _ [He Hm].
  assert (Ha : (0 <= match e with Z.neg k => Z.shiftr (Z.pos m) (Z.pos k) | _ => Z.shiftl (Z.pos m) e end < 2 ^ 63)%Z).
  { destruct e as [|q|q].
    - rewrite Z.shiftl_0_r. split; [lia|]. apply Z.log2_lt_pow2; lia.
    - split; [by apply Z.shiftl_nonneg|]. apply Z.log2_lt_cancel. rewrite Z.log2_shiftl by lia.
      rewrite Z.log2_pow2 by lia. lia.
    - split; [by apply Z.shiftr_nonneg|].
      destruct (decide (Z.shiftr (Z.pos m) (Z.pos q) = 0)%Z) as [->|Hne]; [lia|].
      assert (0 <= Z.shiftr (Z.pos m) (Z.pos q))%Z by (by apply Z.shiftr_nonneg).
      apply Z.log2_lt_pow2; [lia|]. rewrite Z.log2_shiftr by lia. lia. }
  cbv zeta. rewrite (proj2 (Z.leb_le (- 2 ^ 63) _)), (proj2 (Z.ltb_lt _ (2 ^ 63))) by lia. exact Ha.
Qed.

Lemma percentile_total l p :
  f64_nonneg p = true -> f64_small 1 p -> (Z.of_nat (length l) < 2 ^ 58)%Z ->
  exists x, percentile l p = Some x /\ (x ∈ l \/ (l = [] /\ x = 0%Z)).
Proof.
  intros Hp Hs Hl. destruct l as [|y l]; [exists 0%Z; split; [done|by right]|]. unfold percentile. set (k := y :: l) in *.
  set (n := Z.of_nat (length k)) in *. assert (0 < n)%Z by (unfold n, k; cbn; lia).
  assert (Hf : (0 <= f64_to_i64 (f64_mul p (f64_of_Z n)) < 2 ^ 63)%Z).
  { assert (Hn : f64_small 59 (f64_of_Z n)).
    { apply (binary_normalize_small 58); [lia|]. rewrite Z.add_0_r. apply Z.log2_lt_pow2; lia. }
    apply (f64_to_i64_small 61); [lia| |by apply (f64_mul_small 1 59); [..|lia]].
    apply f64_mul_finite; [done|by apply f64_of_Z_nonneg; lia|by eapply f64_small_cost_ok|by eapply f64_small_cost_ok]. }
  set (idx := f64_to_i64 _) in *.
  set (j := (if n <=? idx then n - 1 else idx)%Z).
  assert (Hi : (0 <= j < n)%Z) by (unfold j; destruct (Z.leb_spec n idx); lia).
  rewrite (proj2 (Z.leb_le 0 j)) by lia.
  destruct (lookup_lt_is_Some_2 k (Z.to_nat j)) as [x Hx]; [lia|].
  exists x. split; [done|left; by eapply list_elem_of_lookup_2].
Qed.

Lemma add_maps_lookup {V} (f : V -> V -> V) (d : V) (h : V -> Z) (a b : gmap string V) k :
  h d = 0%Z -> (forall x y, h (f x y) = h x + h y)%Z ->
  h (default d (add_maps f a b !! k)) = (h (default d (a !! k)) + h (default d (b !! k)))%Z.
Proof.
  intros Hd Hf. unfold add_maps. rewrite lookup_union_with. destruct (a !! k), (b !! k); cbn; rewrite ?Hf, ?Hd; lia.
Qed.

(** Every number of the aggregate is the sum over the workers. *)
Lemma aggregate_sum (h : run_result -> Z) rs :
  h no_result = 0%Z -> (forall a b, h (report_round a b) = h a + h b)%Z -> h (aggregate rs) = list_sum_Z h rs.
Proof.
  intros H0 Hadd. unfold aggregate.
  assert (forall acc, h (fold_left report_round rs acc) = h acc + list_sum_Z h rs)%Z as ->; [|lia].
  induction rs as [|r rs IH]; intros acc; cbn [fold_left list_sum_Z foldr]; [lia|]. rewrite IH, Hadd. unfold list_sum_Z. lia.
Qed.

Lemma aggregate_latencies rs : latencies (aggregate rs) = mjoin (latencies <$> rs).
Proof.
  unfold aggregate. change (mjoin (latencies <$> rs)) with (latencies no_result ++ mjoin (latencies <$> rs)).
  generalize no_result as acc. induction rs as [|r rs IH]; intros acc; cbn; [by rewrite app_nil_r|].
  rewrite IH. cbn. by rewrite <- app_assoc.
Qed.

Lemma quantiles_small :
  (f64_nonneg p50 = true /\ f64_small 1 p50) /\ (f64_nonneg p95 = true /\ f64_small 1 p95)
  /\ (f64_nonneg p99 = true /\ f64_small 1 p99).
Proof. vm_compute. repeat split; discriminate. Qed.

(** A count of a tenant in the aggregate. *)
Lemma aggregate_tenant (h : tenantCounts -> Z) rs id :
  h no_counts = 0%Z -> (forall x y, h (add_counts x y) = h x + h y)%Z ->
  h (default no_counts (perTenant (aggregate rs) !! id)) = list_sum_Z (fun r => h (default no_counts (perTenant r !! id))) rs.
Proof.
  intros H0 Hadd. apply (aggregate_sum (fun r => h (default no_counts (perTenant r !! id)))); [by cbn; rewrite lookup_empty|].
  intros a b. by apply (add_maps_lookup add_counts no_counts h).
Qed.

Lemma sorted_keys_elem {V} (m : gmap string V) id : id ∈ sorted_keys m <-> is_Some (m !! id).
Proof.
  unfold sorted_keys. rewrite merge_sort_Permutation, list_elem_of_fmap. split.
  - intros ([k v] & -> & Hin%elem_of_map_to_list). by exists v.
  - intros [v Hv]. exists (id, v). split; [done|by apply elem_of_map_to_list].
Qed.

(** A key is in the sum of the workers' maps exactly if it is in one of them. *)
Lemma aggregate_keys {V} (f : V -> V -> V) (get : run_result -> gmap string V) rs id :
  get no_result = ∅ -> (forall a b, get (report_round a b) = add_maps f (get a) (get b)) ->
  is_Some (get (aggregate rs) !! id) <-> exists r, r ∈ rs /\ is_Some (get r !! id).
Proof.
  intros H0 Hadd. unfold aggregate.
  assert (Hgen : forall acc, is_Some (get (fold_left report_round rs acc) !! id)
    <-> is_Some (get acc !! id) \/ exists r, r ∈ rs /\ is_Some (get r !! id)).
  { induction rs as [|r rs IH]; intros acc; cbn [fold_left].
    - split; [by left|intros [?|(r & []%elem_of_nil & _)]; done].
    - rewrite IH, Hadd. unfold add_maps. rewrite lookup_union_with.
      assert (Hu : is_Some (union_with (fun x y => Some (f x y)) (get acc !! id) (get r !! id))
        <-> is_Some (get acc !! id) \/ is_Some (get r !! id)).
      { destruct (get acc !! id), (get r !! id); cbn; rewrite !is_Some_alt; tauto. }
      rewrite Hu. set_solver. }
  rewrite Hgen, H0, lookup_empty. split; [intros [[? [=]]|?]; done|by right].
Qed.

(** C30. The report is the workers' counts: its violations, which decide the exit
    code, and every other total are the sums over the workers; the distribution
    lists exactly the shards some worker sent a request, each once, in ascending
    order, with the requests all workers sent it; the tenants' lines are exactly
    the tenants some worker served, each once, in ascending order, with the sums of
    their requests, blocks, hits and writes; and each percentile is the latency of
    some request, or 0 if there was none.  No index runs out of range. *)
Theorem report_exact rs :
  (Z.of_nat (length (mjoin (latencies <$> rs))) < 2 ^ 58)%Z ->
  let '(sm, code) := report rs in
  code = list_sum_Z (fun r => violations (totals r)) rs
  /\ (requests (sm_totals sm) = list_sum_Z (fun r => requests (totals r)) rs
      /\ res_blocks (sm_totals sm) = list_sum_Z (fun r => res_blocks (totals r)) rs
      /\ hits (sm_totals sm) = list_sum_Z (fun r => hits (totals r)) rs
      /\ writes (sm_totals sm) = list_sum_Z (fun r => writes (totals r)) rs
      /\ errors (sm_totals sm) = list_sum_Z (fun r => errors (totals r)) rs
      /\ degraded (sm_totals sm) = list_sum_Z (fun r => degraded (totals r)) rs)
  /\ Sorted String.le (fst ∘ fst <$> sm_shards sm) /\ NoDup (fst ∘ fst <$> sm_shards sm)
  /\ (forall id, id ∈ (fst ∘ fst <$> sm_shards sm) <-> exists r, r ∈ rs /\ is_Some (perShard r !! id))
  /\ (forall id k share, (id, k, share) ∈ sm_shards sm -> k = list_sum_Z (fun r => default 0%Z (perShard r !! id)) rs)
  /\ Sorted String.le (fst ∘ fst <$> sm_tenants sm) /\ NoDup (fst ∘ fst <$> sm_tenants sm)
  /\ (forall id, id ∈ (fst ∘ fst <$> sm_tenants sm) <-> exists r, r ∈ rs /\ is_Some (perTenant r !! id))
  /\ (forall id tc share, (id, tc, share) ∈ sm_tenants sm ->
        tc_requests tc = list_sum_Z (fun r => tc_requests (default no_counts (perTenant r !! id))) rs
        /\ tc_blocks tc = list_sum_Z (fun r => tc_blocks (default no_counts (perTenant r !! id))) rs
        /\ tc_hits tc = list_sum_Z (fun r => tc_hits (default no_counts (perTenant r !! id))) rs
        /\ tc_writes tc = list_sum_Z (fun r => tc_writes (default no_counts (perTenant r !! id))) rs)
  /\ Forall (fun x => exists l, x = Some l /\ (l ∈ mjoin (latencies <$> rs) \/ (mjoin (latencies <$> rs) = [] /\ l = 0%Z)))
       (sm_percentiles sm).
Proof.
  intros Hlen. unfold report.
  assert (Hs : forall (m : gmap string Z), fst ∘ fst <$> reportDistribution m (requests (totals (aggregate rs))) = sorted_keys m).
  { intros m. unfold reportDistribution. rewrite <- list_fmap_compose. apply list_fmap_id. }
  assert (Ht : forall (m : gmap string tenantCounts), fst ∘ fst <$> reportTenants m = sorted_keys m).
  { intros m. unfold reportTenants. rewrite <- list_fmap_compose. apply list_fmap_id. }
  cbn [sm_totals sm_shards sm_tenants sm_percentiles]. rewrite Hs, Ht. split_and!.
  1-7: by apply (aggregate_sum (fun r => _ (totals r))).
  - apply Sorted_merge_sort, _.
  - unfold sorted_keys. rewrite merge_sort_Permutation. apply NoDup_fst_map_to_list.
  - intros id. rewrite sorted_keys_elem. by apply (aggregate_keys Z.add).
  - intros id k share. unfold reportDistribution. rewrite list_elem_of_fmap. intros (x & [= -> -> _] & _).
    apply (aggregate_sum (fun r => default 0%Z (perShard r !! x))); [by cbn; rewrite lookup_empty|].
    intros a b. by apply (add_maps_lookup Z.add 0%Z id).
  - apply Sorted_merge_sort, _.
  - unfold sorted_keys. rewrite merge_sort_Permutation. apply NoDup_fst_map_to_list.
  - intros id. rewrite sorted_keys_elem. by apply (aggregate_keys add_counts).
  - intros id tc share. unfold reportTenants. rewrite list_elem_of_fmap. intros (x & [= -> -> _] & _).
    by split_and!; apply aggregate_tenant.
  - assert (Hp : forall p, f64_nonneg p = true -> f64_small 1 p -> exists l, percentile (merge_sort Z.le (latencies (aggregate rs))) p = Some l
      /\ (l ∈ mjoin (latencies <$> rs) \/ (mjoin (latencies <$> rs) = [] /\ l = 0%Z))).
    { intros p Hp1 Hp2.
      assert (Hperm : merge_sort Z.le (latencies (aggregate rs)) ≡ₚ mjoin (latencies <$> rs)) by (by rewrite merge_sort_Permutation, aggregate_latencies).
      destruct (percentile_total (merge_sort Z.le (latencies (aggregate rs))) p) as (x & Hx & Hin);
        [done|done|by rewrite Hperm|]. exists x. split; [done|].
      destruct Hin as [Hin|[Hn ->]]; [left; by rewrite <- Hperm|right]. split; [|done].
      apply Permutation_nil_r. by rewrite <- Hperm, Hn. }
    destruct quantiles_small as ((H1 & H2) & (H3 & H4) & H5 & H6).
    apply Forall_cons; split; [by apply Hp|]. apply Forall_cons; split; [by apply Hp|].
    apply Forall_cons; split; [by apply Hp|]. apply Forall_nil_2.
Qed.

End reporting.

(** ** Correctness of what the workers read *)

Definition int32s (toks : list Z) : Prop := Forall (fun t => - 2 ^ 31 <= t < 2 ^ 31)%Z toks.

(** The traffic's fixed token lists are lists of [int32], as their types say. *)
Record traffic_ok (w : traffic) : Prop := mk_traffic_ok {
  to_prefix : int32s (hotPrefix w);
  to_trace tr toks : trace w = Some tr -> toks ∈ tr -> int32s toks;
  to_pools ts tp toks : tenants w = Some ts -> tp ∈ ts -> toks ∈ tp_hotPool tp -> int32s toks;
  to_block : 0 < blockTokens w /\ (Z.of_nat (blockTokens w) < 2 ^ 32)%Z;
}.

Section drawing.
Context {G : Type} `{RandSource G}.
Implicit Types (w : traffic) (g : G).

Lemma randomTokens_int32s n g : int32s (randomTokens n g).1.
Proof. eapply Forall_impl; [apply randomTokens_vocab|]. intros t Ht. cbn in Ht. lia. Qed.

Lemma int32s_app a b : int32s a -> int32s b -> int32s (a ++ b).
Proof. intros. by apply Forall_app. Qed.

Lemma buildTokens_int32s w g : traffic_ok w -> int32s (buildTokens w g).1.
Proof.
  intros [Hp _ _ _]. unfold buildTokens. destruct (rand_Float64 g) as [u g1].
  assert (Hpre : int32s (if f64_leb (prefixShare w) u then randomTokens (prefixBlocks w * blockTokens w) g1 else (hotPrefix w, g1)).1)
    by (destruct (f64_leb _ _); [apply randomTokens_int32s|done]).
  destruct (if f64_leb _ _ then _ else _) as [prefix g2].
  pose proof (randomTokens_int32s (tailBlocks w * blockTokens w) g2) as Ht. destruct (randomTokens _ g2).
  by apply int32s_app.
Qed.

Lemma buildTenantTokens_int32s w tp g :
  (forall toks, toks ∈ tp_hotPool tp -> int32s toks) -> int32s (buildTenantTokens w tp g).1.
Proof.
  intros Hpool. unfold buildTenantTokens.
  assert (Hpre : int32s (tenant_prefix w tp g).1).
  { unfold tenant_prefix. destruct (tp_hotPool tp) as [|p ps] eqn:Ep; [apply randomTokens_int32s|].
    destruct (rand_Float64 g) as [u g1]. destruct (f64_ltb _ _); [|apply randomTokens_int32s].
    pose proof (rand_Intn_range (Z.of_nat (length (p :: ps))) g1 ltac:(cbn; lia)) as Hr.
    destruct (rand_Intn _ g1) as [i g2]. cbn [fst] in *. apply Hpool.
    eapply list_elem_of_lookup_2, list_lookup_lookup_total_lt. lia. }
  destruct (tenant_prefix w tp g) as [prefix g2].
  pose proof (randomTokens_int32s (tailBlocks w * blockTokens w) g2) as Ht. destruct (randomTokens _ g2).
  by apply int32s_app.
Qed.

Lemma draw_request_int32s w dl el cursor g tp toks g' cursor' :
  traffic_ok w -> draw_request w dl el cursor g = (Some (tp, Some toks), g', cursor') -> int32s toks.
Proof.
  intros Hok. unfold draw_request. destruct (tenants w) as [ts|] eqn:Ets.
  - destruct (pickTenant el ts g) as [[tp0|] g1] eqn:Ep; [|done]. destruct (make_tail w <? 0)%Z; [done|].
    assert (Hin : tp0 ∈ ts).
    { unfold pickTenant in Ep. destruct (rand_Float64 g) as [u g2]. destruct (pick_loop _ _ _) as [x|] eqn:El.
      - injection Ep as <- <-. by apply pick_loop_firing in El as [? _].
      - destruct ts as [|x ts']; [done|]. injection Ep as <- <-. by left. }
    pose proof (buildTenantTokens_int32s w tp0 g1 ltac:(intros; by eapply to_pools)) as Hi.
    destruct (buildTenantTokens w tp0 g1) as [toks' g2]. by intros [= <- <- <- <-].
  - destruct (bool_decide _ && _); [done|]. unfold nextTokens. destruct (trace w) as [tr|] eqn:Etr.
    + assert (Hat : forall j t, at_index tr j = Some (Some t) -> int32s t).
      { intros j t. unfold at_index. destruct (0 <=? j)%Z; [|done]. destruct (tr !! Z.to_nat j) eqn:E; [|done].
        intros [= ->]. eapply to_trace; [done..|by eapply list_elem_of_lookup_2]. }
      cbv zeta. destruct dl; [destruct (_ =? 0)%Z|destruct (_ <=? _)%Z]; try done;
        match goal with |- context [at_index tr ?j] => destruct (at_index tr j) as [[t|]|] eqn:E end; try done;
        intros [= <- <- <- <-]; by eapply Hat.
    + pose proof (buildTokens_int32s w g Hok) as Hi. destruct (buildTokens w g) as [toks' g2]. by intros [= <- <- <- <-].
Qed.

End drawing.

Section clean.
Context {G C W : Type} `{RandSource G} `{Shards C W} (service : conn -> C) (w : traffic).
Implicit Types (g : G) (st : W) (s : worker (G := G) (W := W)).

(** The hypotheses of [failover_clean] for the blocks of any prompt. *)
Variables (Inv : W -> Prop) (bad : C -> hash32 -> W -> Prop).
Hypothesis clean_request : forall toks conns root tenant cost r st,
  int32s toks -> Inv st ->
  let blocks := ChainBlocks (model (tw w)) toks (Z.of_nat (blockTokens w)) in
  let '(e, r', st') := oneRequestWithFailover (tw w) conns blocks root tenant cost r st in
  e <> IndexPanic /\ Inv st' /\ (violations r' = violations r \/ exists st1 c h, Inv st1 /\ bad c h st1).
Hypothesis ok : traffic_ok w.

Definition clean s : Prop :=
  Inv (wk_world s) /\ (violations (totals (wk_res s)) = 0%Z \/ exists st1 c h, Inv st1 /\ bad c h st1).

Lemma serve_request_clean tk tp toks s e s' :
  int32s toks -> clean s -> serve_request service w tk tp toks s = (e, s') -> e <> RPanic /\ clean s'.
Proof.
  intros Htoks [Hi Hv]. unfold serve_request.
  set (blocks := ChainBlocks _ _ _). destruct blocks as [|b0 bs] eqn:Eb; [by intros [= <- <-]|].
  destruct (service <$> _) as [|c cs]; [by intros [= <- <-]|].
  destruct (match tp with Some tp => _ | None => _ end) as [tenant cost].
  pose proof (clean_request toks (c :: cs) (hash_bytes (blk_hash b0)) tenant cost (count_request (totals (wk_res s)))
    (wk_world s) Htoks Hi) as Hc. cbv zeta in Hc. fold blocks in Hc. rewrite Eb in Hc.
  destruct (oneRequestWithFailover _ _ _ _ _ _ _ _) as [[end_ r'] st']. destruct Hc as (Hp & Hi' & Hv').
  intros [= <- <-]. split; [by destruct end_|]. split; [done|]. cbn [wk_res totals].
  destruct Hv' as [Hv'|]; [|by right]. destruct Hv as [Hv|]; [left|by right]. cbn in Hv'. destruct end_; cbn; lia.
Qed.

Lemma run_loop_clean fuel dl n ticks i s :
  (forall i st, Inv st -> Inv (tk_world (ticks i) st)) -> clean s -> clean (run_loop service fuel w dl n ticks i s).2.
Proof.
  intros Hw. revert i s. induction fuel as [|fuel IH]; intros i s Hc; [done|]. cbn [run_loop]. unfold round.
  destruct (if dl then _ else _); [done|].
  destruct (draw_request _ _ _ _ _) as [[drawn g] cur] eqn:Ed.
  assert (Hs : clean (mk_worker g cur (tk_world (ticks i) (wk_world s)) (wk_res s))).
  { destruct Hc as [Hi Hv]. split; [by apply Hw|done]. }
  destruct drawn as [[tp [toks|]]|]; [|done..].
  apply draw_request_int32s in Ed; [|done].
  destruct (serve_request _ _ _ _ _ _) as [e s'] eqn:Es. apply serve_request_clean in Es as [_ Es]; [|done..].
  destruct e; [done|by apply IH|done].
Qed.

Lemma run_clean fuel dl n ticks g st :
  (forall i st, Inv st -> Inv (tk_world (ticks i) st)) -> Inv st -> clean (run service fuel w dl n ticks g st).2.
Proof.
  intros Hw Hi. assert (Hc : clean (mk_worker g 0%Z st no_result)) by (split; [done|by left]).
  unfold run. destruct (_ || _); [exact Hc|by apply run_loop_clean].
Qed.

(** What a worker needs not to panic: no negative size, and something to draw. *)
Record drawable (n : Z) : Prop := mk_drawable {
  dr_sizes : (0 <= n /\ 0 <= make_payload w /\ 0 <= make_tail w)%Z;
  dr_trace : trace w <> Some [];
  dr_tenants : tenants w <> Some [];
}.

Lemma draw_request_some n dl el cursor g :
  drawable n -> (0 <= cursor < 2 ^ 62)%Z ->
  let '(drawn, g', cursor') := draw_request w dl el cursor g in drawn <> None /\ (cursor <= cursor' <= cursor + 1)%Z.
Proof.
  intros [(_ & _ & Ht) Htr Hts] Hc. unfold draw_request. rewrite (proj2 (Z.ltb_ge _ _) Ht). destruct (tenants w) as [[|tp ts]|]; [done| |].
  - assert (Hp : (pickTenant el (tp :: ts) g).1 <> None).
    { unfold pickTenant. destruct (rand_Float64 g). cbn [fst]. by destruct (pick_loop _ _ _). }
    destruct (pickTenant _ _ _) as [[tp'|] g']; [|done]. destruct (buildTenantTokens w tp' g'). split; [done|lia].
  - rewrite andb_false_r. destruct (trace w) as [tr|] eqn:E.
    + rewrite (nextTokens_trace w tr) by done. destruct dl; [|split; [done|lia]]. destruct tr as [|t0 tr]; [done|].
      destruct (lookup_lt_is_Some_2 (t0 :: tr) (Z.to_nat cursor mod length (t0 :: tr))) as [x ->]; [apply Nat.mod_upper_bound; cbn; lia|].
      split; [done|lia].
    + unfold nextTokens. rewrite E. destruct (buildTokens w g). split; [done|lia].
Qed.

(** The draws of all workers so far, within the run's bound. *)
Definition few_draws (fuel : nat) (ticks : nat -> tick W) : Prop :=
  exists others, (forall i, 0 <= tk_others (ticks i) <= others)%Z /\ (Z.of_nat fuel * (others + 1) < 2 ^ 62)%Z.

Lemma run_loop_no_panic fuel others dl n ticks i s :
  drawable n -> (forall i st, Inv st -> Inv (tk_world (ticks i) st)) -> clean s ->
  (forall i, 0 <= tk_others (ticks i) <= others)%Z ->
  (0 <= wk_cursor s)%Z -> (wk_cursor s + Z.of_nat fuel * (others + 1) < 2 ^ 62)%Z ->
  (run_loop service fuel w dl n ticks i s).1 <> RunPanic.
Proof.
  intros Hd Hw Hc Ho. revert i s Hc. induction fuel as [|fuel IH]; intros i s Hc H0c Hb; [done|]. cbn [run_loop]. unfold round.
  destruct (if dl then _ else _); [done|]. specialize (Ho i) as Hoi.
  assert (0 <= Z.of_nat fuel * (others + 1))%Z by (apply Z.mul_nonneg_nonneg; lia).
  assert (Hcur : (0 <= wk_cursor s + tk_others (ticks i) < 2 ^ 62)%Z) by lia.
  rewrite i64_small by (wrap_unfold; lia).
  pose proof (draw_request_some n dl (tk_elapsed (ticks i)) _ (wk_rand s) Hd Hcur) as Hdr.
  destruct (draw_request _ _ _ _ _) as [[drawn g] cur] eqn:Ed. destruct Hdr as [Hne Hcu].
  assert (Hs : clean (mk_worker g cur (tk_world (ticks i) (wk_world s)) (wk_res s))).
  { destruct Hc as [Hi Hv]. split; [by apply Hw|done]. }
  destruct drawn as [[tp [toks|]]|]; [|done..].
  apply draw_request_int32s in Ed; [|done].
  pose proof (serve_request_cursor service w (ticks i) tp toks (mk_worker g cur (tk_world (ticks i) (wk_world s)) (wk_res s))) as [_ Hk].
  destruct (serve_request _ _ _ _ _ _) as [e s'] eqn:Es. apply serve_request_clean in Es as [Hp Hs']; [|done..]. cbn [snd wk_cursor] in Hk.
  destruct e; [done| |done]. apply IH; [done|lia|lia].
Qed.

(** A worker whose shards answer no more than they are asked does not panic. *)
Lemma run_no_panic fuel dl n ticks g st :
  drawable n -> few_draws fuel ticks -> (forall i st, Inv st -> Inv (tk_world (ticks i) st)) -> Inv st ->
  (run service fuel w dl n ticks g st).1 <> RunPanic.
Proof.
  intros Hd (others & Ho & Hf) Hw Hi. pose proof (dr_sizes _ Hd) as (Hn & Hp & _). unfold run.
  rewrite (proj2 (Z.ltb_ge _ _) Hn), (proj2 (Z.ltb_ge _ _) Hp). cbn [orb].
  apply (run_loop_no_panic fuel others); [done|done|split; [done|by left]|done|cbn; lia|cbn; lia].
Qed.

End clean.

(** ** Counting over a failover *)

(** Two shards: the primary loses its second [Fetch], the replica serves all. *)
Definition w_flaky : Shards bool nat := {|
  rpc_Lookup _ _ hs st := inr ((fun _ => mk_presence true 1 0) <$> hs, st);
  rpc_Fetch primary _ _ _ st :=
    (if primary && (1 <=? st) then mk_reply None [] (Some TransportError) else mk_reply None [] None, S st);
  rpc_Write _ _ st := (None, st);
|}.
Definition w_two_blocks : list Block := [mk_block hash32_zero [1%Z]; mk_block hash32_zero [2%Z]].

(** What a failover has already read counts again on the replica: a request
    for two blocks can count three hits, so the reported hit rate can pass 100%. *)
Theorem failover_counts_hits_twice :
  exists (S : Shards bool nat) w conns blocks,
    let '(e, r', _) := oneRequestWithFailover w conns blocks [] "" f64_0 zero_result 0 in
    e = Ok /\ (Z.of_nat (length blocks) < hits r')%Z.
Proof. exists w_flaky, (mk_workload "m" 0 false), [true; false], w_two_blocks. vm_compute. done. Qed.

(** ** Witnesses *)

(** A random source that always answers the least value. *)
Definition least_rand : RandSource unit.
Proof. refine {| rand_Float64 _ := (f64_0, tt); rand_Intn _ _ := (0%Z, tt) |}. intros n g Hn. cbn. lia. Defined.

Definition w_traffic : traffic := mk_traffic (mk_workload "m" 8 true) 1 f64_0 1 1 [] None None 0 8 1.
Definition w_ticks : nat -> tick unit := fun _ => mk_tick false 0 (mk_router (mk_ring 1 [] ∅) ∅ 0 ∅) 0 id 1.

Lemma run_terminates_witness :
  (run (G := unit) (H := least_rand) (H0 := w_no_shards) (fun _ => tt) 3 w_traffic false 2 w_ticks tt tt).1 <> RunOutOfFuel.
Proof. apply (run_terminates (H := least_rand) (H0 := w_no_shards) (fun _ => tt) w_traffic false 2 w_ticks 3). split; cbn; lia. Defined.

(** Two workers that met on one shard. *)
Definition w_reports : list run_result :=
  [mk_run_result (mk_result 2 4 1 3 0 0 0) {["a" := 1%Z; "b" := 1%Z]} ∅ [5; 7]%Z;
   mk_run_result (mk_result 1 2 2 0 0 0 1) {["b" := 1%Z]} ∅ [3]%Z].
Lemma report_exact_witness :
  (report w_reports).2 = 1%Z /\ ("b" ∈ (fst ∘ fst <$> sm_shards (report w_reports).1) <-> exists r, r ∈ w_reports /\ is_Some (perShard r !! "b")).
Proof.
  pose proof (report_exact w_reports eq_refl) as Hr. destruct (report w_reports) as [sm code].
  destruct Hr as (Hc & _ & _ & _ & Hids & _). split; [exact Hc|apply Hids].
Defined.
