(* ===== verification/LoadMain.v ===== *)
(** The load generator's program: [main] of [src/cmd/loadgen/main.go] around the
    workers, [src/cmd/loadgen/trace.go], and the cold-tier check.

    The trace file and its records, the membership drivers, the traffic the flags
    ask for, the round trip of [runColdtierVerify], and the live statistics.  The
    JSON decoder, the random sources and the clock are parameters. *)

From S2P Require Import Prelude Text Bytes Sha256 Float64 Blockhash Policy Store Server Ring Router Coord Loadgen Workload Run.

(** ** The trace file *)

(** [traceRecord] *)
Record traceRecord := mk_record { conv : Z; turn : Z; Tokens : list Z }.

(** [json.Unmarshal] into a [traceRecord]; [None] is an error.  A token that does
    not fit an [int32] is an error. *)
Class JsonDecoder := {
  unmarshal : list byte -> option traceRecord;
  unmarshal_int32 b r : unmarshal b = Some r -> int32s (Tokens r);
}.

(** What the file holds, and whether reading it failed after that. *)
Record trace_file := mk_file { tf_data : list byte; tf_read_error : bool }.

Definition newline : byte := x0a.
Definition carriage : byte := x0d.

(** [bufio.ScanLines]: the lines, without their newline; the last one counts only
    if it is not empty. *)
Fixpoint split_lines (cur l : list byte) : list (list byte) :=
  match l with
  | [] => match cur with [] => [] | _ => [cur] end
  | b :: l => if decide (b = newline) then cur :: split_lines [] l else split_lines (cur ++ [b]) l
  end.
Definition dropCR (line : list byte) : list byte :=
  if decide (last line = Some carriage) then take (length line - 1) line else line.

(** The scanner's buffer, [64 << 20]: a line that fills it is too long. *)
Definition maxTokenSize : Z := 67108864.

Inductive trace_error := OpenError | LineError (line : Z) | ReadError.

Section trace.
Context `{JsonDecoder}.

(** The loop of [loadTrace], [line] lines read so far. *)
Fixpoint load_loop (read_error : bool) (line : Z) (raws : list (list byte)) : trace_error + list traceRecord :=
  match raws with
  | [] => if read_error then inl ReadError else inr []
  | raw :: raws =>
      if (maxTokenSize <=? Z.of_nat (length raw))%Z then inl ReadError
      else
        match dropCR raw with
        | [] => load_loop read_error (line + 1) raws
        | b =>
            match unmarshal b with
            | None => inl (LineError (line + 1))
            | Some r =>
                match load_loop read_error (line + 1) raws with
                | inl e => inl e
                | inr recs => inr (if decide (Tokens r = []) then recs else r :: recs)
                end
            end
        end
  end.

(** [loadTrace]; [None] is a file that cannot be opened. *)
Definition loadTrace (f : option trace_file) : trace_error + list traceRecord :=
  match f with
  | None => inl OpenError
  | Some f => load_loop (tf_read_error f) 0 (split_lines [] (tf_data f))
  end.

Lemma loadTrace_int32 f recs r : loadTrace f = inr recs -> r ∈ recs -> int32s (Tokens r) /\ Tokens r <> [].
Proof.
  destruct f as [f|]; [|done]. cbn [loadTrace]. generalize 0%Z. generalize (split_lines [] (tf_data f)).
  intros raws. revert recs. induction raws as [|raw raws IH]; intros recs n; cbn [load_loop].
  { destruct (tf_read_error f); [done|]. intros [= <-] Hr. by apply elem_of_nil in Hr. }
  destruct (_ <=? _)%Z; [done|]. destruct (dropCR raw) as [|b l]; [by apply IH|].
  destruct (unmarshal (b :: l)) as [r0|] eqn:E; [|done].
  destruct (load_loop _ _ _) as [e|recs'] eqn:El; [done|]. intros [= <-].
  case_decide; [by apply (IH _ _ El)|]. intros [->|Hin]%elem_of_cons; [|by apply (IH _ _ El)].
  split; [by eapply unmarshal_int32|done].
Qed.

(** What a line means: skipped, broken, or a record. *)
Definition line_value (raw : list byte) : option (option traceRecord) :=
  match dropCR raw with [] => Some None | b => match unmarshal b with Some r => Some (Some r) | None => None end end.
Definition fits (raw : list byte) : Prop := (Z.of_nat (length raw) < maxTokenSize)%Z.
Definition readable (raw : list byte) : Prop := fits raw /\ is_Some (line_value raw).
Definition usable (r : traceRecord) : Prop := Tokens r <> [].
#[local] Instance usable_dec r : Decision (usable r).
Proof. unfold usable. apply _. Defined.

(** The records of the readable lines. *)
Definition records (raws : list (list byte)) : list traceRecord :=
  filter usable (omap (fun raw => mjoin (line_value raw)) raws).

Lemma load_loop_spec read_error n raws :
  match load_loop read_error n raws with
  | inr recs => read_error = false /\ Forall readable raws /\ recs = records raws
  | inl (LineError m) => exists pre raw post, raws = pre ++ raw :: post /\ m = (n + Z.of_nat (S (length pre)))%Z
      /\ Forall readable pre /\ fits raw /\ line_value raw = None
  | inl ReadError => (read_error = true /\ Forall readable raws)
      \/ exists pre raw post, raws = pre ++ raw :: post /\ Forall readable pre /\ ~ fits raw
  | inl OpenError => False
  end.
Proof.
  revert n. induction raws as [|raw raws IH]; intros n; cbn [load_loop].
  - destruct read_error; [left; by split|]. by split_and!.
  - destruct (Z.leb_spec maxTokenSize (Z.of_nat (length raw))) as [Hlong|Hfit].
    { right. exists [], raw, raws. split_and!; [done|constructor|]. unfold fits. lia. }
    assert (Hskip : forall v, line_value raw = Some v ->
      match load_loop read_error (n + 1) raws with
      | inr recs => read_error = false /\ Forall readable (raw :: raws) /\ recs = records raws
      | inl (LineError m) => exists pre raw0 post, raw :: raws = pre ++ raw0 :: post /\ m = (n + Z.of_nat (S (length pre)))%Z
          /\ Forall readable pre /\ fits raw0 /\ line_value raw0 = None
      | inl ReadError => (read_error = true /\ Forall readable (raw :: raws))
          \/ exists pre raw0 post, raw :: raws = pre ++ raw0 :: post /\ Forall readable pre /\ ~ fits raw0
      | inl OpenError => False
      end).
    { intros v Hv. assert (Hr : readable raw) by (split; [done|by exists v]). specialize (IH (n + 1)%Z).
      destruct (load_loop _ _ _) as [[|m|]|recs].
      - done.
      - destruct IH as (pre & r0 & post & -> & -> & ? & ? & ?). exists (raw :: pre), r0, post.
        split_and!; [done|cbn [length]; lia|by constructor|done|done].
      - destruct IH as [[? ?]|(pre & r0 & post & -> & ? & ?)]; [left; split; [done|by constructor]|].
        right. exists (raw :: pre), r0, post. split_and!; [done|by constructor|done].
      - destruct IH as (? & ? & ?). split_and!; [done|by constructor|done]. }
    destruct (dropCR raw) as [|b l] eqn:Ed.
    + assert (Hv : line_value raw = Some None) by (unfold line_value; by rewrite Ed).
      specialize (Hskip None Hv). unfold records in *. cbn [omap list_omap]. rewrite Hv. exact Hskip.
    + destruct (unmarshal (b :: l)) as [r|] eqn:Eu.
      * assert (Hv : line_value raw = Some (Some r)) by (unfold line_value; by rewrite Ed, Eu).
        specialize (Hskip (Some r) Hv). destruct (load_loop _ _ _) as [[|m|]|recs]; [done..|].
        destruct Hskip as (? & ? & ->). split_and!; [done|done|].
        unfold records. cbn [omap list_omap]. rewrite Hv. cbn [mjoin option_join]. rewrite filter_cons. unfold usable at 4.
        destruct (decide (Tokens r = [])), (decide (usable r)); unfold usable in *; naive_solver.
      * exists [], raw, raws. split_and!; [done|cbn; lia|constructor|done|]. unfold line_value. by rewrite Ed, Eu.
Qed.

(** C34. Reading a trace: it succeeds exactly on a file whose every line fits the
    buffer and is empty or a record, and then gives the records with tokens in
    file order; otherwise the error names the first line that is no record, or
    says that a line before it is too long or the file could not be read. *)
Theorem loadTrace_exact f :
  let raws := split_lines [] (tf_data f) in
  match loadTrace (Some f) with
  | inr recs => tf_read_error f = false /\ Forall readable raws /\ recs = records raws
  | inl (LineError m) => exists pre raw post, raws = pre ++ raw :: post /\ m = Z.of_nat (S (length pre))
      /\ Forall readable pre /\ fits raw /\ line_value raw = None
  | inl ReadError => (tf_read_error f = true /\ Forall readable raws)
      \/ exists pre raw post, raws = pre ++ raw :: post /\ Forall readable pre /\ ~ fits raw
  | inl OpenError => False
  end.
Proof. apply (load_loop_spec (tf_read_error f) 0). Qed.

(** How a record is written: one line each. *)
Record encodes (enc : traceRecord -> list byte) (r : traceRecord) : Prop := mk_encodes {
  en_decodes : unmarshal (enc r) = Some r;
  en_line : (newline ∉ enc r) /\ last (enc r) <> Some carriage /\ enc r <> [];
  en_fits : fits (enc r);
}.

Lemma split_line cur a l : newline ∉ a -> split_lines cur (a ++ newline :: l) = (cur ++ a) :: split_lines [] l.
Proof.
  revert cur. induction a as [|b a IH]; intros cur Ha; cbn [app split_lines].
  - by rewrite decide_True, app_nil_r.
  - apply not_elem_of_cons in Ha as [Hb Ha]. rewrite decide_False by congruence. by rewrite IH, <- app_assoc.
Qed.

Lemma load_written enc read_error n rs :
  Forall (encodes enc) rs ->
  load_loop read_error n (split_lines [] (mjoin ((fun r => enc r ++ [newline]) <$> rs)))
  = if read_error then inl ReadError else inr (filter usable rs).
Proof.
  intros Hrs. revert n. induction Hrs as [|r rs [Hd (Hl & Hc & Hne) Hf] _ IH]; intros n.
  - cbn. by destruct read_error.
  - rewrite fmap_cons. cbn [mjoin list_join]. rewrite <- app_assoc. cbn [app]. rewrite split_line by done. cbn [app load_loop].
    rewrite (proj2 (Z.leb_gt _ _)) by exact Hf. unfold dropCR. rewrite decide_False by done.
    destruct (enc r) as [|b l] eqn:E; [done|]. rewrite <- E in *. rewrite Hd, IH. destruct read_error; [done|].
    rewrite filter_cons. destruct (decide (Tokens r = [])), (decide (usable r)); unfold usable in *; naive_solver.
Qed.

(** The traces the preparation script writes are read back: the records with
    tokens, in the order of the lines. *)
Theorem trace_file_roundtrip enc rs :
  Forall (encodes enc) rs ->
  loadTrace (Some (mk_file (mjoin ((fun r => enc r ++ [newline]) <$> rs)) false)) = inr (filter usable rs).
Proof. intros Hrs. cbn [loadTrace tf_data tf_read_error]. by rewrite (load_written enc). Qed.

End trace.

(** ** Membership *)

(** [staticMembers] *)
Definition staticMembers (addrs : list string) : list Member := (fun a => mk_member a a) <$> addrs.

(** The ways [main] ends early: in [log.Fatal], or in the panic of a [make] of
    negative size. *)
Inductive fatal :=
  | NeedMembers | ClosedBeforeReady | ReadyTimeout | NeedColdtierBlocks | BadTrace (e : trace_error) | EmptyTrace
  | NoFullBlock | NoOwner | WriteFailed (e : rpc_error) | MakePanic.

Section membership.
Context `{SortSlice} `{Dialer} (rg : PoolRange).

(** The static driver. *)
Definition static_membership (members : string) (r : Router) : fatal + Router :=
  match splitMembers members with
  | [] => inl NeedMembers
  | addrs => inr (SetMembers rg (staticMembers addrs) r)
  end.

(** What the [select] of [startEtcdMembership] receives. *)
Inductive ready_event := Snapshot (snap : list Member) | ChannelClosed | Deadline.

(** The loop: ready, with the events left to [DriveRouter]; given up; or still
    waiting. *)
Inductive ready_end := Ready (r : Router) (rest : list ready_event) | GaveUp (f : fatal) | Waiting (r : Router).
Fixpoint startEtcdMembership (evs : list ready_event) (r : Router) : ready_end :=
  match evs with
  | [] => Waiting r
  | ChannelClosed :: _ => GaveUp ClosedBeforeReady
  | Deadline :: _ => GaveUp ReadyTimeout
  | Snapshot snap :: evs =>
      let r := SetMembers rg snap r in
      match snap with [] => startEtcdMembership evs r | _ => Ready r evs end
  end.

(** With etcd no request is sent before there are members: the driver returns
    only after the first snapshot that is not empty, all before it were empty, and
    the router is what applying them all in order gives, so that handing the rest
    to [DriveRouter] misses and repeats nothing. *)
Theorem membership_ready evs r r' rest snaps :
  startEtcdMembership evs r = Ready r' rest ->
  exists empties snap, evs = (Snapshot <$> empties) ++ Snapshot snap :: rest
    /\ Forall (fun s => s = []) empties /\ snap <> []
    /\ r' = DriveRouter rg (empties ++ [snap]) r
    /\ DriveRouter rg snaps r' = DriveRouter rg (empties ++ [snap] ++ snaps) r.
Proof.
  revert r. induction evs as [|e evs IH]; intros r; cbn [startEtcdMembership]; [done|].
  destruct e as [[|m snap]| |]; [|intros [= <- <-]|done..].
  - intros (empties & snap & -> & He & Hs & -> & Hd)%IH. exists ([] :: empties), snap.
    split_and!; [done|by constructor|done|done|exact Hd].
  - exists [], (m :: snap). split_and!; [done|constructor|done|done|done].
Qed.

End membership.

(** ** The traffic the flags ask for *)

(** The flags that shape the run, as the ints they are. *)
Record flags := mk_flags {
  fl_payloadBytes : Z;
  fl_blockTokens : Z;
  fl_prefixShare : float64;
  fl_verify : bool;
  fl_prefixBlocks : Z;
  fl_tailBlocks : Z;
  fl_model : string;
  fl_seed : Z;
  fl_trace : bool;
  fl_multitenant : bool;
}.

Section setup.
Context {G : Type} `{RandSource G} `{JsonDecoder}.

(** [rand.New(rand.NewSource(seed))] *)
Variable rng : Z -> G.

(** [blocks*blockTokens], and whether [randomTokens] panics for so many tokens. *)
Definition tokens_of (fl : flags) (blocks : Z) : Z := i64 (blocks * fl_blockTokens fl).
Definition make_panics (fl : flags) (blocks : Z) : bool := (tokens_of fl blocks <? 0)%Z.

(** [main] between the membership and the workers; [tf] is the trace file.  A
    negative size ends it where [randomTokens] is asked for it: for the hot prefix,
    for the pools of the tenants; what a worker is asked for it keeps
    ([make_payload], [make_tail]).  Negative blocks of negative tokens make tokens,
    but never a full block: [blockTokens] 0 stands for that. *)
Definition main_traffic (fl : flags) (tf : option trace_file) (start : Z) : fatal + traffic :=
  let bt := Z.to_nat (fl_blockTokens fl) in
  if make_panics fl (fl_prefixBlocks fl) || (fl_multitenant fl && existsb (make_panics fl) [2; 16; 6]%Z) then inl MakePanic
  else
  let hotPrefix := (randomTokens (Z.to_nat (tokens_of fl (fl_prefixBlocks fl))) (rng (fl_seed fl))).1 in
  let tenants := if fl_multitenant fl then Some (buildTenants bt (rng (fl_seed fl))).1 else None in
  let w trace := mk_traffic (mk_workload (fl_model fl) (Z.to_nat (fl_payloadBytes fl)) (fl_verify fl)) bt
                   (fl_prefixShare fl) (Z.to_nat (fl_prefixBlocks fl)) (Z.to_nat (fl_tailBlocks fl)) hotPrefix trace tenants start
                   (fl_payloadBytes fl) (tokens_of fl (fl_tailBlocks fl)) in
  if fl_trace fl then
    match loadTrace tf with
    | inl e => inl (BadTrace e)
    | inr [] => inl EmptyTrace
    | inr recs => inr (w (Some (Tokens <$> recs)))
    end
  else inr (w None).

(** The random source of worker [id]. *)
Definition worker_rng (fl : flags) (id : nat) : G := rng (i64 (i64 (fl_seed fl + Z.of_nat id) + 1)).

Lemma random_pool_int32s k n g toks : toks ∈ (random_pool k n g).1 -> int32s toks.
Proof.
  revert g. induction k as [|k IH]; intros g; cbn [random_pool]; [by intros ?%elem_of_nil|].
  pose proof (randomTokens_int32s n g) as Hr. destruct (randomTokens n g) as [p g1].
  specialize (IH g1). destruct (random_pool k n g1) as [ps g2]. cbn [fst] in *.
  intros [->|Hin]%elem_of_cons; [done|by apply IH].
Qed.

Lemma mk_tenant_int32s bt id wt pb ps share bursty g toks :
  toks ∈ tp_hotPool (mk_tenant_profile bt id wt pb ps share bursty g).1 -> int32s toks.
Proof.
  unfold mk_tenant_profile. pose proof (random_pool_int32s ps (pb * bt) g toks) as Hr.
  by destruct (random_pool ps (pb * bt) g) as [pool g'].
Qed.

Lemma buildTenants_int32s bt g tp toks : tp ∈ (buildTenants bt g).1 -> toks ∈ tp_hotPool tp -> int32s toks.
Proof.
  unfold buildTenants.
  pose proof (mk_tenant_int32s bt "A" (hundredths 55) 2 40 (hundredths 95) false g toks) as HA.
  destruct (mk_tenant_profile bt "A" _ _ _ _ _ g) as [a g1].
  pose proof (mk_tenant_int32s bt "B" (hundredths 30) 16 20 (hundredths 80) false g1 toks) as HB.
  destruct (mk_tenant_profile bt "B" _ _ _ _ _ g1) as [b g2].
  pose proof (mk_tenant_int32s bt "C" (hundredths 15) 6 12 (hundredths 70) true g2 toks) as HC.
  destruct (mk_tenant_profile bt "C" _ _ _ _ _ g2) as [c g3]. cbn [fst] in *.
  intros Hin. rewrite !elem_of_cons, elem_of_nil in Hin. destruct_or? Hin; subst; done.
Qed.

(** The traffic the flags ask for has the types the code declares, and is what they
    say; a trace that is replayed is never empty, and neither are the tenants. *)
Lemma main_traffic_aux fl tf start w :
  main_traffic fl tf start = inr w -> (0 < fl_blockTokens fl < 2 ^ 32)%Z ->
  traffic_ok w /\ trace w <> Some [] /\ verify (tw w) = fl_verify fl /\ payloadBytes (tw w) = Z.to_nat (fl_payloadBytes fl)
  /\ model (tw w) = fl_model fl /\ tenants w <> Some []
  /\ make_payload w = fl_payloadBytes fl /\ make_tail w = tokens_of fl (fl_tailBlocks fl).
Proof.
  unfold main_traffic. intros Hw Hb. set (bt := Z.to_nat (fl_blockTokens fl)) in *.
  assert (Hbt : 0 < bt /\ (Z.of_nat bt < 2 ^ 32)%Z) by (unfold bt; lia). clearbody bt.
  destruct (_ || _); [done|]. set (hot := Z.to_nat (tokens_of _ _)) in *. clearbody hot.
  assert (Hpre : int32s (randomTokens hot (rng (fl_seed fl))).1) by apply randomTokens_int32s.
  assert (Hten : forall ts tp toks, (if fl_multitenant fl then Some (buildTenants bt (rng (fl_seed fl))).1 else None) = Some ts ->
    tp ∈ ts -> toks ∈ tp_hotPool tp -> int32s toks).
  { intros ts tp toks. destruct (fl_multitenant fl); [|done]. intros [= <-]. apply buildTenants_int32s. }
  assert (Hne : (if fl_multitenant fl then Some (buildTenants bt (rng (fl_seed fl))).1 else None) <> Some []).
  { destruct (fl_multitenant fl); [|done]. by destruct (buildTenants_spec bt (rng (fl_seed fl))) as (a & b & c & -> & _). }
  destruct (fl_trace fl).
  - destruct (loadTrace tf) as [e|[|r recs]] eqn:El; [done..|]. injection Hw as <-. split_and!; [|done..].
    split; [done| |exact Hten|done]. intros tr toks Htr Hin. injection Htr as <-.
    change (toks ∈ Tokens <$> (r :: recs)) in Hin. apply list_elem_of_fmap in Hin as (r0 & -> & Hr).
    by eapply (loadTrace_int32 _ _ r0) in Hr as [? _].
  - injection Hw as <-. split_and!; [|done..]. split; [done|done|exact Hten|done].
Qed.

End setup.

(** ** The cold-tier check *)

Section coldtier.
Context {G C W : Type} `{RandSource G} `{Shards C W} (service : conn -> C).

(** The router at each of the check's requests, and what else happens to the
    cluster before it (evictions, spills, membership changes). *)
Variables (routers : nat -> Router) (others : nat -> W -> W) (w : workload).
Implicit Types (b : Block) (st : W).

(** One single-block prompt per block; [None]: no full block. *)
Fixpoint coldtier_blocks (bt : nat) (n : nat) (g : G) : option (list Block) :=
  match n with
  | O => Some []
  | S n =>
      let '(toks, g) := randomTokens bt g in
      match ChainBlocks (model w) toks (Z.of_nat bt) with
      | [] => None
      | b :: _ => cons b <$> coldtier_blocks bt n g
      end
  end.

Definition owners (i : nat) b (k : Z) : list C := service <$> OwnerConns (hash_bytes (blk_hash b)) k (routers i).

(** The writes, from the [i]-th request; every one must succeed. *)
Fixpoint coldtier_write (i : nat) (blocks : list Block) st : fatal + W :=
  match blocks with
  | [] => inr st
  | b :: blocks =>
      match owners i b 1 with
      | [] => inl NoOwner
      | c :: _ =>
          match write w c b (hash_bytes (blk_hash b)) "" f64_0 (others i st) with
          | (Some e, _) => inl (WriteFailed e)
          | (None, st) => coldtier_write (S i) blocks st
          end
      end
  end.

(** The owners in turn, until one answers without an error. *)
Fixpoint coldtier_try (conns : list C) b (r : result) st : bool * result * W :=
  match conns with
  | [] => (false, r, st)
  | c :: conns =>
      match fetch w c b r st with
      | ((_, Some _), r, st) => coldtier_try conns b r st
      | ((hit, None), r, st) => (hit, r, st)
      end
  end.

(** The fetches: how many blocks were served. *)
Fixpoint coldtier_fetch (i : nat) (blocks : list Block) (served : nat) (r : result) st : nat * result * W :=
  match blocks with
  | [] => (served, r, st)
  | b :: blocks =>
      let '(got, r, st) := coldtier_try (owners i b 2) b r (others i st) in
      coldtier_fetch (S i) blocks (if got then S served else served) r st
  end.

(** [runColdtierVerify]: a fatal exit or the exit code. *)
Definition runColdtierVerify (bt nBlocks : nat) (g : G) st : fatal + Z :=
  match coldtier_blocks bt nBlocks g with
  | None => inl NoFullBlock
  | Some blocks =>
      match coldtier_write 0 blocks st with
      | inl e => inl e
      | inr st =>
          let '(served, r, _) := coldtier_fetch (length blocks) blocks 0 zero_result st in
          inr (if negb (served =? length blocks) || (0 <? violations r)%Z then 1%Z else 0%Z)
      end
  end.

(** The mode's flags are checked first; then [randomTokens] panics on a negative
    number of tokens, and, once there are blocks, [make] on a negative payload. *)
Definition main_coldtier (bt nBlocks payload : Z) (g : G) st : fatal + Z :=
  if (nBlocks <=? 0)%Z then inl NeedColdtierBlocks
  else if (bt <? 0)%Z || ((0 <? bt)%Z && (payload <? 0)%Z) then inl MakePanic
  else runColdtierVerify (Z.to_nat bt) (Z.to_nat nBlocks) g st.

(** Some owner served this block with the bytes of its hash. *)
Definition read_back b : Prop :=
  exists i c st reply st', c ∈ owners i b 2 /\ rpc_Fetch c (model w) (hash_bytes (blk_hash b)) (blk_tokens b) st = (reply, st')
    /\ fr_open reply = None /\ fr_end reply = None
    /\ mjoin (chunk_data <$> fr_frames reply) = fillVerifiable (payloadBytes w) (blk_hash b).

Lemma fetch_hit c b r st :
  verify w = true ->
  let '((hit, err), r', st') := fetch w c b r st in
  (violations r <= violations r')%Z /\ (err <> None -> hit = false)
  /\ (hit = true -> violations r' = violations r ->
      exists reply, rpc_Fetch c (model w) (hash_bytes (blk_hash b)) (blk_tokens b) st = (reply, st')
        /\ fr_open reply = None /\ fr_end reply = None
        /\ mjoin (chunk_data <$> fr_frames reply) = fillVerifiable (payloadBytes w) (blk_hash b)).
Proof.
  intros Hv. unfold fetch. destruct (rpc_Fetch _ _ _ _ st) as [reply st'].
  destruct (fr_open reply) eqn:Eo; [by split_and!|]. destruct (fr_end reply) eqn:Ee; [by split_and!|]. rewrite Hv.
  destruct (negb _ || _) eqn:Eb.
  - split_and!; [cbn; lia|done|]. cbn. lia.
  - split_and!; [lia|done|]. intros _ _. exists reply. split_and!; [done..|].
    apply orb_false_iff in Eb as [_ Eb]. apply negb_false_iff in Eb. rewrite equalBytes_spec in Eb. by apply bool_decide_eq_true in Eb.
Qed.

Lemma coldtier_try_spec conns b r st :
  verify w = true ->
  let '(got, r', st') := coldtier_try conns b r st in
  (violations r <= violations r')%Z
  /\ (got = true -> violations r' = violations r ->
      exists c st0 reply st1, c ∈ conns /\ rpc_Fetch c (model w) (hash_bytes (blk_hash b)) (blk_tokens b) st0 = (reply, st1)
        /\ fr_open reply = None /\ fr_end reply = None
        /\ mjoin (chunk_data <$> fr_frames reply) = fillVerifiable (payloadBytes w) (blk_hash b)).
Proof.
  intros Hv. revert r st. induction conns as [|c conns IH]; intros r st; cbn [coldtier_try]; [by split|].
  pose proof (fetch_hit c b r st Hv) as Hf. destruct (fetch w c b r st) as [[[hit err] r1] st1].
  destruct Hf as (Hle & He & Hh). destruct err as [e|].
  - specialize (IH r1 st1). destruct (coldtier_try conns b r1 st1) as [[got r2] st2]. destruct IH as [Hle2 Hg].
    split; [lia|]. intros Hgot Heq. destruct (Hg Hgot) as (c' & st0 & reply & st3 & Hc' & Hrest); [lia|].
    exists c', st0, reply, st3. split; [by right|done].
  - split; [done|]. intros Hhit Heq. destruct (Hh Hhit Heq) as (reply & Hr & Hrest).
    exists c, st, reply, st1. split; [by left|]. by split.
Qed.

Lemma coldtier_fetch_spec i blocks served r st :
  verify w = true ->
  let '(served', r', st') := coldtier_fetch i blocks served r st in
  served' <= served + length blocks /\ (violations r <= violations r')%Z
  /\ (served' = served + length blocks -> violations r' = violations r -> Forall read_back blocks).
Proof.
  intros Hv. revert i served r st. induction blocks as [|b blocks IH]; intros i served r st; cbn [coldtier_fetch length].
  - split_and!; [lia|done|]. by constructor.
  - pose proof (coldtier_try_spec (owners i b 2) b r (others i st) Hv) as Ht.
    destruct (coldtier_try _ _ _ _) as [[got r1] st1]. destruct Ht as [Hle Hg].
    specialize (IH (S i) (if got then S served else served) r1 st1).
    destruct (coldtier_fetch _ _ _ _ _) as [[served' r'] st']. destruct IH as (Hs & Hle' & Hall).
    destruct got; split_and!; try lia.
    intros Hsv Heq. constructor; [|apply Hall; lia].
    destruct Hg as (c & st0 & reply & st2 & Hc & Hrest); [done|lia|]. by exists i, c, st0, reply, st2.
Qed.

Lemma length_coldtier_blocks bt n g blocks : coldtier_blocks bt n g = Some blocks -> length blocks = n.
Proof.
  revert g blocks. induction n as [|n IH]; intros g blocks; cbn [coldtier_blocks]; [by intros [= <-]|].
  destruct (randomTokens bt g) as [toks g1]. destruct (ChainBlocks _ _ _) as [|b bs]; [done|].
  destruct (coldtier_blocks bt n g1) as [bl|] eqn:E; [|done]. intros [= <-]. cbn. f_equal. by eapply IH.
Qed.


(** A miss on the first owner ends the search for a block: an owner after it is
    asked only after an error, so a copy that is only on the replica does not
    count. *)
Theorem coldtier_miss_ends_search c conns b r st reply st' :
  rpc_Fetch c (model w) (hash_bytes (blk_hash b)) (blk_tokens b) st = (reply, st') ->
  (exists e, (fr_open reply = Some e \/ fr_open reply = None /\ fr_end reply = Some e) /\ is_not_found e = true) ->
  coldtier_try (c :: conns) b r st = (false, r, st').
Proof.
  intros Hr (e & He & Hn). cbn [coldtier_try]. unfold fetch. rewrite Hr.
  destruct He as [-> |[-> ->]]; by rewrite Hn.
Qed.

End coldtier.

(** ** Live statistics *)

(** [liveStats], as a tick of [printLoop] loads it, and the line it prints. *)
Record liveStats := mk_live { lv_requests : Z; lv_errors : Z; lv_degraded : Z; lv_violations : Z }.
Record stats_line := mk_line { ln_stats : liveStats; ln_dReq : Z; ln_dErr : Z }.

(** [printLoop], [prevReq] and [prevErr] being its variables. *)
Fixpoint printLoop (prevReq prevErr : Z) (loads : list liveStats) : list stats_line :=
  match loads with
  | [] => []
  | s :: loads =>
      mk_line s (i64 (lv_requests s - prevReq)) (i64 (lv_errors s - prevErr)) :: printLoop (lv_requests s) (lv_errors s) loads
  end.

(** The deltas printed so far add up to the counters last printed, around the
    wrap of an [int64]. *)
Lemma printLoop_telescopes prevReq prevErr loads last_load :
  last loads = Some last_load ->
  i64 (prevReq + list_sum_Z ln_dReq (printLoop prevReq prevErr loads)) = i64 (lv_requests last_load)
  /\ i64 (prevErr + list_sum_Z ln_dErr (printLoop prevReq prevErr loads)) = i64 (lv_errors last_load).
Proof.
  revert prevReq prevErr. induction loads as [|s loads IH]; intros pr pe Hl; [done|]. cbn [printLoop].
  rewrite !list_sum_cons. cbn [ln_dReq ln_dErr].
  assert (Hr : forall a x y, i64 (a + (i64 (x - a) + y)) = i64 (x + y)).
  { intros a x y. replace (a + (i64 (x - a) + y))%Z with (i64 (x - a) + (a + y))%Z by lia.
    rewrite i64_add_l. f_equal. lia. }
  rewrite !Hr. destruct loads as [|s' loads]; [|by apply IH].
  injection Hl as ->. cbn. by rewrite !Z.add_0_r.
Qed.

(** ** Witnesses *)

(** A decoder that knows one line. *)
Definition w_line : list byte := bytes_of_string "{}".
Definition w_record : traceRecord := mk_record 0 0 [7%Z].
Definition w_decoder : JsonDecoder.
Proof.
  refine {| unmarshal b := if decide (b = w_line) then Some w_record else None |}.
  intros b r. case_decide; [|done]. intros [= <-]. repeat constructor; done.
Defined.

Lemma trace_file_roundtrip_witness :
  @loadTrace w_decoder (Some (mk_file (mjoin ((fun r => w_line ++ [newline]) <$> [w_record; w_record])) false)) = inr [w_record; w_record].
Proof.
  apply (@trace_file_roundtrip w_decoder (fun _ => w_line) [w_record; w_record]).
  assert (He : @encodes w_decoder (fun _ => w_line) w_record).
  { split; [reflexivity| |reflexivity]. split_and!; [|discriminate|discriminate].
    apply (bool_decide_unpack _). vm_compute. exact I. }
  constructor; [exact He|]. constructor; [exact He|constructor].
Defined.

(** Tenants, a verified payload of eight bytes, one token to the block. *)
Definition w_main_flags : flags := mk_flags 8 1 f64_0 true 1 1 "m" 1 false true.
Definition w_main_traffic : traffic :=
  match main_traffic (G := unit) (H := least_rand) (H0 := w_decoder) (fun _ => tt) w_main_flags None 0 with
  | inr w => w
  | inl _ => w_traffic
  end.
(** Shards that keep what was written last, and serve it. *)
Definition w_echo : Shards unit (list WriteChunk) := {|
  rpc_Lookup _ _ _ st := inr ([], st);
  rpc_Fetch _ _ _ _ st :=
    (mk_reply None (omap (fun m => match m with WCChunk c => Some c | _ => None end) st) None, st);
  rpc_Write _ msgs _ := (None, msgs);
|}.
Definition w_owner : Router := mk_router (mk_ring 1 [mk_vpoint 0 "a"] {["a"]}) {["a" := mk_conn 0 "a"]} 1 ∅.

