(* ===== verification/System.v ===== *)
(** The whole system: nodes that run the Server's handlers over their own Store, a
    cold tier they share, replicators that forward between nodes, an evictor on
    each, and load-generator clients that write self-verifying payloads.

    A state is the set of running nodes, each with the calls its handlers are in,
    and the tier; a step is the begin or the end of a request, one access of one
    handler to its store, its tier or its queue, one call of an evictor, one spill,
    the begin of one replicated stream (possibly cut), or a node starting or dying.
    Any interleaving of steps is a run.  The theorem is the assertion the chaos
    runs make (ADR 0016, 0026): a client never sees bytes that are not those of the
    hash it asked for. *)

From S2P Require Import Prelude Bytes Sha256 Float64 Blockhash Policy Lru Store ColdTier Server Handlers Ring Router Replicator Loadgen Workload Run LoadMain.

(** [Cluster]: the running nodes by id, and the shared tier. *)
Record Cluster (P T : Type) := mk_cluster { nodes : gmap string (Live P T); tier : T }.
#[global] Arguments mk_cluster {P T}.
#[global] Arguments nodes {P T}.
#[global] Arguments tier {P T}.

(** A node reads the tier as it is at the moment of the access. *)
Definition connected {P T} (t : T) (l : Live P T) : Live P T :=
  mk_running (set_tier t (live_server l)) (live_calls l).

Definition set_node {P T} (id : string) (l : Live P T) (c : Cluster P T) : Cluster P T :=
  mk_cluster (<[id := l]> (nodes c)) (tier c).

Section system.
Context {P T : Type} `{EvictionPolicy P} `{ColdTier T} (n : nat).
Implicit Types (s : Server P T) (l : Live P T) (c : Cluster P T).

(** ** What the clients write *)

(** Values of the widths the wire types have. *)
Definition tokens_ok (toks : list Z) : Prop :=
  Forall (fun t => - 2 ^ 31 <= t < 2 ^ 31)%Z toks /\ (Z.of_nat (length toks) < 2 ^ 32)%Z.

(** A block of the run: [n] bytes determined by its hash. *)
Definition verifiable (h : BlockHash) (kv : list byte) (toks : list Z) : Prop :=
  kv = fillVerifiable n h /\ tokens_ok toks.

(** Every complete upload on the stream is a verifiable block. *)
Definition stream_ok (st : block_stream) : Prop :=
  forall can_alloc hdr buf h, assembleBlock can_alloc st = Done (hdr, buf) ->
    hash32_of (hdr_BlockHash hdr) = Some h -> verifiable h buf (hdr_TokenIds hdr) /\ in_u64 (hdr_Version hdr).

(** The events of a node that need no other node: requests of clients, accesses
    and ends of the requests in flight, and the evictor. *)
Definition local_event (ev : live_event T) : Prop :=
  match ev with
  | LBegin _ (QWrite _ st) => stream_ok st
  | LBegin _ (QReplicate _ _) | LTier _ => False
  | _ => True
  end.

(** ** Steps *)

(** A call of the spiller an eviction made, or is about to make: it demotes the
    block before it takes it out of the map. *)
Definition spilling (call : SpillCall) (st : Store P) : Prop :=
  exists log, spill st = Some log /\ (call ∈ log \/ exists k e, flat st !! k = Some e /\ spill_of e = call).

Inductive step : Cluster P T -> Cluster P T -> Prop :=
  | step_local c id l ev l' :
      nodes c !! id = Some l -> local_event ev -> live_step (connected (tier c) l) ev l' ->
      step c (set_node id l' c)
  | step_replicate c a b la lb jobs job pr ok msgs eof snt can_alloc k lb' :
      nodes c !! a = Some la -> repl (live_server la) = Some jobs -> job ∈ jobs -> nodes c !! b = Some lb ->
      sendOne pr job = (ok, msgs) -> (eof = true -> msgs = job_messages job) ->
      live_step (connected (tier c) lb) (LBegin k (QReplicate can_alloc (mk_block_stream msgs eof snt))) lb' ->
      step c (set_node b lb' c)
  | step_spill c id l call :
      nodes c !! id = Some l -> spilling call (store (live_server l)) ->
      step c (mk_cluster (nodes c)
                (tier_Spill (sp_model call) (sp_hash call) (mk_cold (sp_version call) (sp_tokens call) (sp_kv call)) (tier c)))
  | step_tier c t :
      (forall m h b, tier_holds t m h b -> tier_holds (tier c) m h b) -> step c (mk_cluster (nodes c) t)
  | step_start c id (p : P) opts with_repl t :
      step c (set_node id (live_boot p opts with_repl t) c)
  | step_die c id : step c (mk_cluster (delete id (nodes c)) (tier c)).

Inductive steps : Cluster P T -> Cluster P T -> Prop :=
  | steps_refl c : steps c c
  | steps_next c c' c'' : steps c c' -> step c' c'' -> steps c c''.

(** ** The invariant *)

Definition good_entry (e : Entry) : Prop := verifiable (WireHash e) (KV e) (TokenIDs e) /\ in_u64 (Version e).
Definition good_spill (sp : SpillCall) : Prop :=
  verifiable (sp_hash sp) (sp_kv sp) (sp_tokens sp) /\ in_u64 (sp_version sp).
Definition good_job (j : ReplicaJob) : Prop :=
  verifiable (rj_Hash j) (rj_KV j) (rj_TokenIDs j) /\ in_u64 (rj_Version j).

Record good_store (st : Store P) : Prop := mk_good_store {
  gs_wf : store_wf st;
  gs_entries k e : flat st !! k = Some e -> good_entry e;
  gs_spill log : spill st = Some log -> Forall good_spill log;
}.
Record good_server s : Prop := mk_good_server {
  gv_store : good_store (store s);
  gv_jobs jobs : repl s = Some jobs -> Forall good_job jobs;
}.
Definition good_tier (t : T) : Prop :=
  forall m h b, tier_holds t m h b -> verifiable h (cb_kv b) (cb_tokens b) /\ in_u64 (cb_version b).

(** What a handler may write. *)
Definition good_act {B} (x : action B) : Prop :=
  match x with
  | DoPut h e => verifiable h (KV e) (TokenIDs e)
  | DoPutWithVersion h e v => verifiable h (KV e) (TokenIDs e) /\ in_u64 v
  | DoEnqueue j => good_job j
  | _ => True
  end.

(** What a handler may be answered, a collision of store keys apart: [bad m h] says
    that a [Get] of this node for this model and hash may meet one. *)
Definition good_obs (bad : string -> BlockHash -> Prop) {B} (x : action B) : B -> Prop :=
  match x in action B return B -> Prop with
  | DoGet m h => fun r => forall e, r = Some e -> good_entry e /\ (WireHash e = h \/ bad m h)
  | DoPut _ _ => fun v => in_u64 v
  | DoColdGet m h => fun r => forall kv v toks, r = Some (TierHit kv v toks) -> verifiable h kv toks /\ in_u64 v
  | _ => fun _ => True
  end.

(** Every handler in flight will go on as it should. *)
Definition good_calls (bad : string -> BlockHash -> Prop) (cs : gmap nat call) : Prop :=
  forall k q p, cs !! k = Some (mk_call q p) ->
    wp (@good_act) (@good_obs bad) (reply_result (@good_obs bad) q) p.

(** [bad id]: as above, for the node [id]. *)
Record good (bad : string -> string -> BlockHash -> Prop) c : Prop := mk_good {
  gd_nodes id l : nodes c !! id = Some l -> good_server (live_server l);
  gd_calls id l : nodes c !! id = Some l -> good_calls (bad id) (live_calls l);
  gd_tier : good_tier (tier c);
}.

(** The calls that keep a store good. *)
Definition good_call (call : store_call) : Prop :=
  match call with
  | CPut _ h (Some e) => verifiable h (KV e) (TokenIDs e)
  | CPutWithVersion _ h (Some e) v => verifiable h (KV e) (TokenIDs e) /\ in_u64 v
  | _ => True
  end.

(** *** Stores *)

Lemma spill_step call (st : Store P) :
  striped st ->
  spill (store_step call st).2
  = match call with
    | CEvict k => (fun log => log ++ match flat st !! k with Some e => [spill_of e] | None => [] end) <$> spill st
    | _ => spill st
    end.
Proof.
  intros Hs. destruct call as [now m h|m h|now h [e|]|now h [e|] v|m h|o|k]; cbn [store_step]; try done.
  - unfold Get. destruct (stripeFor _ st !! _); [|done]. by case_decide.
  - cbn [Put]. destruct (stripeFor _ st !! _); cbn [snd]; unfold publish; by rewrite (proj2 (proj2 (proj2 (proj2 (proj2 (proj2 (signalEvict_same _))))))).
  - unfold PutWithVersion. destruct (v =? 0)%Z; [done|]. destruct (stripeFor _ st !! _) as [prev|]; [destruct (v <=? Version prev)%Z; [done|]|];
      cbn [snd]; unfold publish; by rewrite (proj2 (proj2 (proj2 (proj2 (proj2 (proj2 (signalEvict_same _))))))).
  - unfold Delete. destruct (stripeFor _ st !! _); [|done]. by case_decide.
  - unfold ask_victim. by destruct (Victim o (policy st)).
  - pose proof (evict_spill k st Hs) as He. by destruct (evict k st).
Qed.

Lemma good_store_step call st : good_call call -> good_store st -> good_store (store_step call st).2.
Proof.
  intros Hc [Hwf He Hl]. pose proof (sw_striped _ Hwf) as Hs. split.
  - by apply store_wf_step.
  - destruct (flat_step call st Hs) as [-> _]. intros k e.
    destruct call as [now m h|m h|now h [e0|]|now h [e0|] v|m h|o|k0]; cbn [FlatStore.step]; try apply He.
    + unfold FlatStore.get. destruct (flat st !! storeKey m h) as [e1|] eqn:E1; [case_decide|]; try apply He.
      cbn [snd]. intros [[<- <-]|[_ Hk]]%lookup_insert_Some; [apply (He _ _ E1)|by apply He in Hk].
    + cbn [FlatStore.put snd]. intros [[<- <-]|[_ Hk]]%lookup_insert_Some; [|by apply He in Hk].
      split; [exact Hc|]. cbn [stored_entry Version]. destruct (flat st !! _); [apply u64_range|done].
    + case_decide; [apply He|]. unfold FlatStore.put_with_version. destruct Hc as [Hc Hv].
      destruct (flat st !! storeKey (ModelID e0) h); [case_decide; [apply He|]|]; cbn [snd];
        (intros [[<- <-]|[_ Hk]]%lookup_insert_Some; [by split|by apply He in Hk]).
    + unfold FlatStore.del. destruct (FlatStore.peek _ _ _); [|apply He]. cbn [snd].
      intros [_ Hk]%lookup_delete_Some. by apply He in Hk.
    + cbn [snd]. intros [_ Hk]%lookup_delete_Some. by apply He in Hk.
  - rewrite spill_step by done. destruct call as [| | | | | |k]; try apply Hl.
    destruct (spill st) as [log|]; [|done]. cbn. intros ? [= <-]. apply Forall_app. split; [by apply Hl|].
    destruct (flat st !! k) as [e|] eqn:E; [|constructor]. apply Forall_singleton. apply (He _ _ E).
Qed.

Lemma good_spilling call st : good_store st -> spilling call st -> good_spill call.
Proof.
  intros [_ He Hl] (log & Hlog & [Hin|(k & e & Hk & <-)]).
  - specialize (Hl log Hlog). rewrite Forall_forall in Hl. by apply Hl.
  - exact (He k e Hk).
Qed.

(** *** Accesses *)

Lemma Put_version_u64 now h e (st : Store P) : in_u64 (Put now h (Some e) st).1.
Proof. cbn [Put]. destruct (stripeFor _ st !! _); [apply u64_range|done]. Qed.

Lemma good_act_call now {B} (x : action B) call : good_act x -> act_call now x = Some call -> good_call call.
Proof. destruct x; cbn; intros Hx [= <-]; done. Qed.

Lemma act_good now {B} (x : action B) s (b : B) s' :
  good_act x -> act_may now x s (b, s') -> good_server s -> good_server s'.
Proof.
  intros Hx Ha [Hg Hj]. destruct (act_store _ _ _ _ _ Ha) as (Hst & _ & Hr). split.
  - rewrite Hst. destruct (act_call now x) as [call|] eqn:E; [|done].
    apply good_store_step; [by eapply good_act_call|done].
  - intros jobs. rewrite Hr. destruct x; try apply Hj. destruct (repl s) as [old|]; [|done].
    intros [= <-]. apply Forall_app. split; [by apply Hj|by apply Forall_singleton].
Qed.

Definition store_collision (m : string) (st : Store P) (h : BlockHash) : Prop :=
  exists e, Peek m h st = Some e /\ WireHash e <> h /\ collision (key_message m (WireHash e)) (key_message m h).

Lemma obs_good (bad : string -> BlockHash -> Prop) now {B} (x : action B) s (b : B) s' :
  good_server s -> (forall t, cold s = Some t -> good_tier t) ->
  (forall m h, store_collision m (store s) h -> bad m h) ->
  act_may now x s (b, s') -> good_obs bad x b.
Proof.
  intros [[Hwf He _] _] Ht Hbad Ha. destruct x as [m h|m h|h e|h e v|m h|k|m h|mm|j]; cbn; try done.
  - destruct Ha as [Ha|[[] _]]. cbn in Ha. destruct (Get_Peek now m h (store s)) as [Hg _].
    destruct (Get now m h (store s)) as [g st]. cbn in Hg. subst g. injection Ha as -> _. intros e.
    destruct (Peek m h (store s)) as [e0|] eqn:Hp; [|done]. cbn. intros [= <-].
    assert (Hin : exists k, flat (store s) !! k = Some e0).
    { unfold Peek in Hp. rewrite <- flat_lookup in Hp by apply Hwf. destruct (flat _ !! _) as [e1|] eqn:E; [|done].
      case_decide; [done|]. injection Hp as ->. by eexists. }
    destruct Hin as [k Hk]. split; [exact (He _ _ Hk)|]. cbn.
    destruct (decide (WireHash e0 = h)) as [|Hne]; [by left|right]. apply Hbad. exists e0.
    destruct (Peek_hot _ _ _ _ Hwf Hp) as (_ & _ & [|Hcol]); [done|]. done.
  - destruct Ha as [Ha|[[] _]]. cbn -[Put] in Ha. pose proof (Put_version_u64 now h e (store s)) as Hv.
    destruct (Put _ _ _ _). by injection Ha as -> _.
  - destruct Ha as [Ha|[[] _]]. cbn in Ha. injection Ha as -> _. intros kv v toks Hb.
    destruct (cold s) as [t|] eqn:Hc; [|done]. injection Hb as Hb. by apply tier_hit_held, (Ht t eq_refl) in Hb.
Qed.

(** *** Calls *)

Lemma good_obs_reads (bad : string -> BlockHash -> Prop) :
  (forall m h k mm, good_act (DoGet m h) /\ good_act (DoPeek m h) /\ good_act (DoDelete m h)
     /\ good_act (DoOverHardLimit k) /\ good_act (DoColdGet m h) /\ good_act (DoNote mm))
  /\ (forall m h kv v toks, good_obs bad (DoColdGet m h) (Some (TierHit kv v toks)) ->
        good_act (DoPutWithVersion h (readmitted m kv toks) v)).
Proof. split; [done|]. cbn. intros m h kv v toks Hc. by apply Hc. Qed.

Definition client_ok (q : request) : Prop :=
  match q with QWrite _ st | QReplicate _ st => stream_ok st | _ => True end.

Lemma good_begin bad q :
  client_ok q -> wp (@good_act) (@good_obs bad) (reply_result (@good_obs bad) q) (handler q).
Proof.
  intros Hq. destruct (good_obs_reads bad) as [Hr Ha]. apply handler_wp; [exact Hr|exact Ha|].
  destruct q as [| | |ca st|ca st| |]; cbn; try done; intros hdr buf h Has Hh; destruct (Hq _ _ _ _ Has Hh) as [Hv Hu].
  - split; [exact Hv|]. intros v Hv'. by split.
  - by split.
Qed.

(** One event of a node. *)
Lemma good_live_step bad l ev l' :
  live_step l ev l' -> (forall k q, ev = LBegin k q -> client_ok q) -> (forall t, ev <> LTier t) ->
  good_server (live_server l) -> good_calls bad (live_calls l) ->
  (forall t, cold (live_server l) = Some t -> good_tier t) ->
  (forall m h, store_collision m (store (live_server l)) h -> bad m h) ->
  good_server (live_server l') /\ good_calls bad (live_calls l').
Proof.
  intros Hs Hq Hnt Hg Hc Ht Hbad. destruct Hs as [l k q Hk|l k now q p p' s' Hk Hm|l k q r Hk|l c Hev|l t]; cbn [live_server live_calls] in *.
  - split; [done|]. intros k' q' p' [[<- [= <- <-]]|[_ Hl]]%lookup_insert_Some; [by apply good_begin, (Hq k)|by eapply Hc].
  - pose proof (Hc _ _ _ Hk) as Hw. split.
    + destruct p as [|B x f]; [done|]. destruct Hm as (b & Hb & _), Hw as [Hx _]. by eapply act_good.
    + intros k' q' p0 [[<- [= <- <-]]|[_ Hl]]%lookup_insert_Some; [|by eapply Hc].
      eapply wp_may; [|exact Hw|exact Hm]. intros B x b Hb. by eapply obs_good.
  - split; [done|]. intros k' q' p' [_ Hl]%lookup_delete_Some. by eapply Hc.
  - split; [|done]. destruct Hg as [Hg Hj]. split; [|exact Hj]. cbn. apply good_store_step; [by destruct c|done].
  - by destruct (Hnt t).
Qed.

Lemma good_boot (p : P) opts with_repl t : good_server (boot p opts with_repl t).
Proof.
  split.
  - assert (store (boot p opts with_repl t) = NewStore p opts) as -> by (by destruct with_repl, t).
    split; [apply store_wf_new|intros k e; by rewrite flat_new, lookup_empty|].
    unfold NewStore. destruct (checked_fracs _ _). cbn. destruct (opt_spill _); intros ? [= <-]. constructor.
  - destruct with_repl, t; cbn; intros ? [= <-]; constructor.
Qed.

(** *** The cluster *)

Lemma sent_job_ok job msgs eof snt :
  good_job job -> (eof = true -> msgs = job_messages job) -> stream_ok (mk_block_stream msgs eof snt).
Proof.
  intros [Hv Hu] Hm ca hdr buf h Ha Hh. apply assembleBlock_done in Ha as (ms & snt' & [= -> -> _] & Hn & -> & Hal).
  specialize (Hm eq_refl). unfold job_messages, upload_messages in Hm. injection Hm as -> ->.
  cbn [job_header hdr_BlockHash hdr_TokenIds hdr_Version] in *. rewrite hash32_of_bytes in Hh. injection Hh as <-.
  split; [|done].
  pose proof (upload_assembles (fun _ => true) replicateChunkBytes (job_header job) (rj_KV job) ltac:(done) ltac:(done)) as Hup.
  apply assembleBlock_done in Hup as (ms & snt'' & [= <- _] & _ & Hkv & _). by rewrite <- Hkv.
Qed.

(** A fetch on a node can meet a block stored under another hash with the same key. *)
Definition key_collision (m : string) c (id : string) (h : BlockHash) : Prop :=
  exists l, nodes c !! id = Some l /\ store_collision m (store (live_server l)) h.

Lemma good_set_node bad id l c :
  good_server (live_server l) -> good_calls (bad id) (live_calls l) -> good bad c -> good bad (set_node id l c).
Proof.
  intros Hs Hc [Hn Hcs Ht]. split; [| |done]; cbn [set_node nodes];
    intros id' l' [[<- <-]|[_ Hl]]%lookup_insert_Some; [done|by apply Hn in Hl|done|by apply Hcs in Hl].
Qed.

Section invariant.
Context (bad : string -> string -> BlockHash -> Prop).

(** A node that does an event on the tier as it is stays good. *)
Lemma good_node_step c id l ev l' :
  (forall m h, key_collision m c id h -> bad id m h) -> good bad c -> nodes c !! id = Some l ->
  (forall k q, ev = LBegin k q -> client_ok q) -> (forall t, ev <> LTier t) ->
  live_step (connected (tier c) l) ev l' -> good bad (set_node id l' c).
Proof.
  intros Hbad Hg Hid Hq Hnt Hs. pose proof Hg as [Hn Hcs Ht].
  destruct (good_live_step (bad id) _ _ _ Hs Hq Hnt) as [Hgs Hgc].
  - destruct (Hn id l Hid) as [Hst Hj]. by split.
  - exact (Hcs id l Hid).
  - cbn. destruct (cold (live_server l)); [|done]. by intros t0 [= <-].
  - intros m h Hcol. apply Hbad. by exists l.
  - by apply good_set_node.
Qed.

Lemma good_step c c' : (forall m id h, key_collision m c id h -> bad id m h) -> step c c' -> good bad c -> good bad c'.
Proof.
  intros Hbad Hstep Hg. pose proof Hg as [Hn Hcs Ht]. destruct Hstep as
    [c id l ev l' Hid Hev Hs|c a b la lb jobs job pr ok msgs eof snt ca k lb' Ha Hr Hjob Hb Hsend Heof Hs|c id l call Hid Hcall
    |c t Hsub|c id p opts wr t|c id].
  - apply (good_node_step c id l ev l'); [by auto|done|done| | |exact Hs].
    + intros k q ->. by destruct q.
    + by intros t ->.
  - apply (good_node_step c b lb _ lb') in Hs; [exact Hs|by auto|done|done| |done].
    intros k' q [= -> <-]. cbn. apply sent_job_ok with job; [|done].
    pose proof (gv_jobs _ (Hn a la Ha) jobs Hr) as Hf. rewrite Forall_forall in Hf. by apply Hf.
  - split; [exact Hn|exact Hcs|].
    destruct (good_spilling call _ (gv_store _ (Hn id l Hid)) Hcall) as [Hv Hu]. intros m h b Hb.
    apply tier_spill_held in Hb as [Hb|(-> & -> & ->)]; [by apply (Ht m)|done|].
    destruct Hv as [_ [? ?]]. by split_and!.
  - split; [exact Hn|exact Hcs|]. intros m h b Hb. apply (Ht m), Hsub, Hb.
  - apply good_set_node; [apply good_boot| |done]. intros k q p0 Hk. cbn in Hk. by rewrite lookup_empty in Hk.
  - split; [| |done]; cbn [nodes]; intros id' l' [_ Hl]%lookup_delete_Some; [by apply Hn in Hl|by apply Hcs in Hl].
Qed.

End invariant.

Lemma steps_trans c c' c'' : steps c c' -> steps c' c'' -> steps c c''.
Proof. intros H1. induction 1 as [|c0 c1 c2 _ IH Hs]; [done|]. econstructor; [by apply IH|done]. Qed.

(** Some state of a run from an empty cluster over [t] can make a fetch meet a collision. *)
Definition collided (t : T) (id m : string) (h : BlockHash) : Prop :=
  exists c, steps (mk_cluster ∅ t) c /\ key_collision m c id h.

Lemma good_steps t c : good_tier t -> steps (mk_cluster ∅ t) c -> good (collided t) c.
Proof.
  intros Ht. remember (mk_cluster ∅ t) as c0 eqn:E. induction 1 as [|c1 c2 c3 Hr IH Hs]; subst.
  - split; [| |done]; cbn; intros id l Hl; by rewrite lookup_empty in Hl.
  - eapply good_step; [|exact Hs|by apply IH]. intros m id h Hcol. by exists c2.
Qed.

(** *** What a client gets *)

Lemma fetch_good t c id l k m h toks out :
  good_tier t -> steps (mk_cluster ∅ t) c -> nodes c !! id = Some l ->
  live_calls l !! k = Some (mk_call (QFetch m (hash_bytes h) 0 toks None) (Ret (RFetch None out))) ->
  mjoin (chunk_data <$> sent out) = fillVerifiable n h \/ collided t id m h.
Proof.
  intros Ht Hr Hid Hk. pose proof (gd_calls _ _ (good_steps t c Ht Hr) id l Hid _ _ _ Hk) as Hw.
  destruct Hw as [[_ [? Hn]]|(h' & kv & ver & tk & Hh & Hs & _ & _ & Hor)]; [done|].
  apply hash32_eq in Hh as <-. rewrite Hs. unfold frames_taken. rewrite frames_of_data by done.
  destruct Hor as [(e & Ho & <- & _ & _)|[_ Ho]].
  - destruct (Ho e eq_refl) as [[[Hv _] _] [<-|]]; [by left|by right].
  - destruct (Ho _ _ _ eq_refl) as [[Hv _] _]. by left.
Qed.

(** A handler of the node [id] has done the request [q] and is about to answer [r]. *)
Definition returned c (id : string) (q : request) (r : reply) : Prop :=
  exists l k, nodes c !! id = Some l /\ live_calls l !! k = Some (mk_call q (Ret r)).

Lemma returned_fetch_good t c id m h toks out :
  good_tier t -> steps (mk_cluster ∅ t) c ->
  returned c id (QFetch m (hash_bytes h) 0 toks None) (RFetch None out) ->
  mjoin (chunk_data <$> sent out) = fillVerifiable n h \/ collided t id m h.
Proof. intros Ht Hr (l & k & Hid & Hk). by eapply fetch_good. Qed.

(** A handler answers a lookup with one entry per hash. *)
Lemma returned_lookup_length t c id m hs bps :
  good_tier t -> steps (mk_cluster ∅ t) c -> returned c id (QLookup m hs) (RLookup bps) -> length bps = length hs.
Proof. intros Ht Hr (l & k & Hid & Hk). exact (gd_calls _ _ (good_steps t c Ht Hr) id l Hid _ _ _ Hk). Qed.

Lemma write_stream_ok w b root tenant cost :
  verify w = true -> payloadBytes w = n -> tokens_ok (blk_tokens b) ->
  stream_ok (mk_stream (write_messages w b root tenant cost) true).
Proof.
  intros Hv Hn Htok ca hdr buf h Ha Hh. rewrite write_messages_upload in Ha.
  apply assembleBlock_done in Ha as (ms & snt & [= <- <- _] & Hnh & -> & Hal).
  cbn [write_header hdr_BlockHash hdr_TokenIds hdr_Version] in *. rewrite hash32_of_bytes in Hh. injection Hh as <-.
  split; [|done]. split; [|done].
  pose proof (upload_assembles (fun _ => true) writeChunkBytes (write_header w b root tenant cost) (write_payload w b)
    ltac:(done) ltac:(done)) as Hup.
  apply assembleBlock_done in Hup as (ms & snt' & [= <- _] & _ & Hkv & _). rewrite <- Hkv. unfold write_payload. by rewrite Hv, Hn.
Qed.

End system.

(** ** Clients

    What follows holds of any system whose runs ([reach]) keep what a client that
    checks payloads needs ([ok]): that a handler which has done a fetch sent the
    bytes of the hash it was asked for, or met a collision ([bad]). *)

Section clients.
Context {C : Type} `{Shards string C} (n : nat).
Context (reach : C -> C -> Prop) (returned : C -> string -> request -> reply -> Prop).

(** The RPCs are the servers' handlers: whatever interleaves with a call, it is a
    run of the system, and what a lookup answers and the frames of a fetch that
    completed are those a handler of the addressed node had when it returned. *)
Class ServedBy := {
  sv_lookup id m hs c bps c' :
    rpc_Lookup id m hs c = inr (bps, c') ->
    exists c1, reach c c1 /\ reach c1 c' /\ returned c1 id (QLookup m hs) (RLookup bps);
  sv_fetch id m hb toks c reply c' :
    rpc_Fetch id m hb toks c = (reply, c') ->
    reach c c' /\
    (fr_open reply = None -> fr_end reply = None ->
     exists c1 out, reach c c1 /\ reach c1 c'
       /\ returned c1 id (QFetch m hb 0 toks None) (RFetch None out) /\ fr_frames reply = sent out);
  sv_write id msgs c e c' :
    stream_ok n (mk_stream msgs true) -> rpc_Write id msgs c = (e, c') -> reach c c';
}.

Context `{ServedBy} (ok : C -> Prop) (bad : string -> string -> BlockHash -> Prop).
Hypothesis ok_reach : forall c c', ok c -> reach c c' -> ok c'.
Hypothesis ok_fetched : forall c id m h toks out,
  ok c -> returned c id (QFetch m (hash_bytes h) 0 toks None) (RFetch None out) ->
  mjoin (chunk_data <$> sent out) = fillVerifiable n h \/ bad id m h.

Hypothesis ok_looked_up : forall c id m hs bps, ok c -> returned c id (QLookup m hs) (RLookup bps) -> length bps = length hs.

(** A request with failover stays within its blocks, and counts no violation but
    over a collision. *)
Lemma request_clean w c conns blocks root tenant cost r :
  verify w = true -> payloadBytes w = n -> Forall (fun b => tokens_ok (blk_tokens b)) blocks -> ok c ->
  let '(e, r', c') := oneRequestWithFailover w conns blocks root tenant cost r c in
  e <> IndexPanic /\ ok c' /\ (violations r' = violations r \/ exists id b, b ∈ blocks /\ bad id (model w) (blk_hash b)).
Proof.
  intros Hv Hn Hb Hok.
  pose proof (failover_clean w ok (fun id h _ => bad id (model w) h) (fun b => tokens_ok (blk_tokens b))) as Hf.
  assert (Hlookup : forall id m hs c l c', ok c -> rpc_Lookup id m hs c = inr (l, c') -> ok c' /\ length l <= length hs).
  { intros id m hs c1 l c1' Hc1 Hr. destruct (sv_lookup _ _ _ _ _ _ Hr) as (c2 & Hr1 & Hr2 & Hret).
    assert (Hc2 : ok c2) by (by eapply ok_reach). split; [by eapply ok_reach|]. by rewrite (ok_looked_up _ _ _ _ _ Hc2 Hret). }
  specialize (Hf Hlookup).
  assert (Hfetch : forall id b c reply c', ok c ->
    rpc_Fetch id (model w) (hash_bytes (blk_hash b)) (blk_tokens b) c = (reply, c') ->
    ok c' /\ (fr_open reply = None -> fr_end reply = None ->
      mjoin (chunk_data <$> fr_frames reply) = fillVerifiable (payloadBytes w) (blk_hash b)
      \/ bad id (model w) (blk_hash b))).
  { intros id b c1 reply c1' Hs Hr. destruct (sv_fetch _ _ _ _ _ _ _ Hr) as [Hs' Hf'].
    split; [by eapply ok_reach|]. intros Ho He. destruct (Hf' Ho He) as (c2 & out & Hs2 & _ & Hret & ->).
    rewrite Hn. eapply ok_fetched; [|exact Hret]. by eapply ok_reach. }
  specialize (Hf Hfetch).
  assert (Hwrite : forall id b root tenant cost c e c', tokens_ok (blk_tokens b) -> ok c ->
    write w id b root tenant cost c = (e, c') -> ok c').
  { intros id b root' tenant' cost' c1 e c1' Htok Hs Hw. eapply ok_reach; [done|]. eapply sv_write; [|exact Hw].
    by apply write_stream_ok. }
  specialize (Hf Hwrite conns blocks root tenant cost r c Hb Hok).
  destruct (oneRequestWithFailover _ _ _ _ _ _ _ _) as [[e r'] c']. destruct Hf as (Hp & Hs & Hor). split; [done|]. split; [done|].
  destruct Hor as [|(c1 & id & b & _ & Hin & Hcol)]; [by left|right]. by exists id, b.
Qed.

(** *** Whole runs *)

Lemma ChainBlocks_tokens_ok m toks bt :
  int32s toks -> 0 < bt -> (Z.of_nat bt < 2 ^ 32)%Z ->
  Forall (fun b => tokens_ok (blk_tokens b)) (ChainBlocks m toks (Z.of_nat bt)).
Proof.
  intros Ht Hbt Hw. rewrite ChainBlocks_unfold, Nat2Z.id by lia. apply Forall_lookup. intros i b Hb.
  apply chain_loop_tokens in Hb as ->. cbn. unfold block_at, tokens_ok. split.
  - by apply Forall_take, Forall_drop.
  - rewrite length_take. lia.
Qed.

(** How the run of one worker for [-requests k] ends and what it counted, when what
    others do to the system in between keeps it [ok], and the workers together have
    not drawn [2^62] times. *)
Inductive worker_end `{RandSource G} (w : traffic) (k : Z) : run_end * run_result -> Prop :=
  | worker_ran fuel dl ticks g c e :
      (forall i c, ok c -> ok (tk_world (ticks i) c)) -> ok c -> few_draws fuel ticks ->
      e = run conn_target fuel w dl k ticks g c -> worker_end w k (e.1, wk_res e.2).

(** What a worker may return, and whether it may panic. *)
Definition worker_result `{RandSource G} (w : traffic) (k : Z) (r : run_result) : Prop := worker_end w k (RunDone, r).
Definition worker_panics `{RandSource G} (w : traffic) (k : Z) : Prop := exists r, worker_end w k (RunPanic, r).

Lemma worker_clean `{RandSource G} w k e :
  verify (tw w) = true -> payloadBytes (tw w) = n -> traffic_ok w -> worker_end w k e ->
  (drawable w k -> e.1 <> RunPanic)
  /\ (violations (totals e.2) = 0%Z \/ exists id h, bad id (model (tw w)) h).
Proof.
  intros Hv Hn Hok [fuel dl ticks g c r Hw Hc Hfew ->]. cbn [fst snd].
  assert (Hreq : forall toks conns root tenant cost r st, int32s toks -> ok st ->
    let blocks := ChainBlocks (model (tw w)) toks (Z.of_nat (blockTokens w)) in
    let '(e, r', st') := oneRequestWithFailover (tw w) conns blocks root tenant cost r st in
    e <> IndexPanic /\ ok st' /\ (violations r' = violations r \/ exists st1 (c0 : string) h, ok st1
      /\ exists id, bad id (model (tw w)) h)).
  { intros toks conns root tenant cost r st Htoks Hst. destruct Hok as [_ _ _ [Hb1 Hb2]].
    pose proof (request_clean (tw w) st conns (ChainBlocks (model (tw w)) toks (Z.of_nat (blockTokens w))) root tenant cost r
      Hv Hn ltac:(by apply ChainBlocks_tokens_ok) Hst) as Hq.
    cbv zeta. destruct (oneRequestWithFailover _ _ _ _ _ _ _ _) as [[e1 r'] c']. destruct Hq as (Hp & Hs & Hq). split; [done|]. split; [done|].
    destruct Hq as [|(id & b & _ & Hcol)]; [by left|right]. exists c', EmptyString, (blk_hash b).
    split; [done|]. by exists id. }
  split; [intros Hd; by eapply (run_no_panic conn_target w _ (fun _ h _ => exists id, bad id (model (tw w)) h) Hreq Hok)|].
  destruct (run_clean conn_target w _ (fun _ h _ => exists id, bad id (model (tw w)) h)
    Hreq Hok fuel dl k ticks g c Hw Hc) as [_ [|(_ & _ & h & _ & id & Hcol)]]; [by left|right; by exists id, h].
Qed.

(** No worker panics. *)
Lemma load_no_panic `{RandSource G} `{JsonDecoder} (rng : Z -> G) fl tf start w k :
  main_traffic rng fl tf start = inr w -> fl_verify fl = true -> fl_payloadBytes fl = Z.of_nat n ->
  (0 < fl_blockTokens fl < 2 ^ 32)%Z -> (0 <= fl_tailBlocks fl * fl_blockTokens fl < 2 ^ 63)%Z -> (0 <= k)%Z ->
  ~ worker_panics w k.
Proof.
  intros Hmain Hv Hn Hb Ht Hk [r Hr].
  destruct (main_traffic_aux rng fl tf start w Hmain Hb) as (Hok & Htr & Hvw & Hnw & _ & Hts & Hmp & Hmt).
  destruct (worker_clean w k _ ltac:(by rewrite Hvw) ltac:(rewrite Hnw; lia) Hok Hr) as [Hp _].
  apply Hp; [|done]. split; [|done|done]. rewrite Hmp, Hmt, Hn. unfold tokens_of. rewrite i64_small by (wrap_unfold; lia). lia.
Qed.

(** All the workers of the load generator, and its verdict. *)
Lemma load_clean `{RandSource G} `{JsonDecoder} (rng : Z -> G) fl tf start w k rs :
  main_traffic rng fl tf start = inr w ->
  fl_verify fl = true -> fl_payloadBytes fl = Z.of_nat n -> (0 < fl_blockTokens fl < 2 ^ 32)%Z ->
  Forall (worker_result w k) rs ->
  ((report rs).2 = 0%Z /\ exit_code (fl_verify fl) rs = 0%Z) \/ exists id h, bad id (fl_model fl) h.
Proof.
  intros Hmain Hv Hn Hb Hrs.
  destruct (main_traffic_aux rng fl tf start w Hmain Hb) as (Hok & _ & Hvw & Hnw & Hmw & _).
  rewrite <- Hmw. rewrite <- Hvw in Hv. rewrite Hn, Nat2Z.id in Hnw.
  assert (Hor : list_sum_Z (fun r => violations (totals r)) rs = 0%Z \/ exists id h, bad id (model (tw w)) h).
  { induction Hrs as [|r rs Hr _ IH]; [by left|]. destruct IH as [IH|]; [|by right].
    destruct (worker_clean w k _ Hv Hnw Hok Hr) as [_ [Hz|]]; cbn [snd] in *; [|by right]. left. rewrite list_sum_cons. lia. }
  destruct Hor as [Hz|]; [left|by right].
  assert (E : (report rs).2 = 0%Z).
  { rewrite <- Hz. apply (aggregate_sum (fun r => violations (totals r))); done. }
  split; [done|]. unfold exit_code. rewrite E. by rewrite andb_false_r.
Qed.

End clients.

(** ** The theorems *)

Section theorems.
Context {P T : Type} `{EvictionPolicy P} `{ColdTier T} (n : nat).
Implicit Types (c : Cluster P T).

(** The chaos assertion (ADR 0016, 0026): from an empty cluster and a tier
    that holds only blocks of the run, after any interleaving of writes, fetches,
    lookups, evictions, spills, cut or complete replications, node deaths and
    restarts, a verifying client's request with failover counts no violation,
    while more of the same goes on under it; the one exception is a fetch that
    met, on some node, a resident block of another hash whose store key collides
    under SHA-256. *)
Theorem no_violation_under_chaos `{Shards string (Cluster P T)} `{!ServedBy n (steps n) returned} w t c conns blocks root tenant cost r :
  good_tier n t -> steps n (mk_cluster ∅ t) c ->
  verify w = true -> payloadBytes w = n -> Forall (fun b => tokens_ok (blk_tokens b)) blocks ->
  let '(e, r', c') := oneRequestWithFailover w conns blocks root tenant cost r c in
  steps n (mk_cluster ∅ t) c'
  /\ (violations r' = violations r \/ exists id b, b ∈ blocks /\ collided n t id (model w) (blk_hash b)).
Proof.
  intros Ht Hc Hv Hn Hb.
  pose proof (request_clean n (steps n) returned (fun c => steps n (mk_cluster ∅ t) c) (collided n t)
    ltac:(intros; by eapply steps_trans) ltac:(intros; by eapply returned_fetch_good) ltac:(intros; by eapply (returned_lookup_length n t))
    w c conns blocks root tenant cost r Hv Hn Hb Hc) as Hq.
  destruct (oneRequestWithFailover _ _ _ _ _ _ _ _) as [[e r'] c']. apply Hq.
Qed.

(** The load generator exits cleanly: whatever verifying traffic its flags ask
    for (tenants, a trace or the synthetic mix), over any number of workers, each
    with or without a deadline, against the cluster while requests, evictions, spills,
    replications, deaths and restarts go on, the report counts no violation and
    the exit code is 0, unless a fetch met a collision of store keys. *)
Theorem verified_load_exits_zero `{RandSource G} `{JsonDecoder} `{Shards string (Cluster P T)} `{!ServedBy n (steps n) returned} (rng : Z -> G) t fl tf start w k rs :
  good_tier n t -> main_traffic rng fl tf start = inr w ->
  fl_verify fl = true -> fl_payloadBytes fl = Z.of_nat n -> (0 < fl_blockTokens fl < 2 ^ 32)%Z ->
  Forall (worker_result (fun c => steps n (mk_cluster ∅ t) c) w k) rs ->
  ((report rs).2 = 0%Z /\ exit_code (fl_verify fl) rs = 0%Z) \/ exists id h, collided n t id (fl_model fl) h.
Proof.
  intros Ht Hmain Hv Hn Hb Hrs.
  eapply (load_clean n (steps n) returned (fun c => steps n (mk_cluster ∅ t) c) (collided n t)); try done.
  - intros. by eapply steps_trans.
  - intros. by eapply returned_fetch_good.
  - intros. by eapply (returned_lookup_length n t).
Qed.

End theorems.

(** ** A cluster that answers each RPC at once *)

Section direct.
Context {P T : Type} `{EvictionPolicy P} `{ColdTier T} (n : nat) (can_alloc : Z -> bool) (now : Z).

Definition unavailable : rpc_error := TransportError.

(** A request run to its end at a node, without anything in between. *)
Definition at_node (id : string) (q : request) (c : Cluster P T) : Cluster P T :=
  match nodes c !! id with
  | Some l => set_node id (mk_running (exec now (handler q) (live_server (connected (tier c) l))).2 (live_calls l)) c
  | None => c
  end.

(** What it answers. *)
Definition answer_at (id : string) (q : request) (c : Cluster P T) : option reply :=
  (fun l => (exec now (handler q) (live_server (connected (tier c) l))).1) <$> nodes c !! id.

Definition direct_Lookup (id m : string) (hs : list (list byte)) (c : Cluster P T) : rpc_error + list BlockPresence * Cluster P T :=
  match answer_at id (QLookup m hs) c with
  | Some (RLookup bps) => inr (bps, at_node id (QLookup m hs) c)
  | _ => inl unavailable
  end.
Definition direct_Fetch (id m : string) (hb : list byte) (toks : list Z) (c : Cluster P T) : fetch_reply * Cluster P T :=
  match answer_at id (QFetch m hb 0 toks None) c with
  | Some (RFetch err out) => (mk_reply None (sent out) err, at_node id (QFetch m hb 0 toks None) c)
  | _ => (mk_reply (Some unavailable) [] None, c)
  end.
Definition direct_Write (id : string) (msgs : list WriteChunk) (c : Cluster P T) : option rpc_error * Cluster P T :=
  let q := QWrite can_alloc (mk_stream msgs true) in
  match answer_at id q c with
  | Some (RWrite (Done _)) => (None, at_node id q c)
  | Some (RWrite (Failed e)) => (Some e, at_node id q c)
  | Some _ => (Some unavailable, at_node id q c)
  | None => (Some unavailable, c)
  end.

Definition direct_shards : Shards string (Cluster P T) := {|
  rpc_Lookup := direct_Lookup;
  rpc_Fetch := direct_Fetch;
  rpc_Write := direct_Write;
|}.

Lemma steps_one c c' : step n c c' -> steps n c c'.
Proof. intros Hs. eapply steps_next; [apply steps_refl|done]. Qed.

Lemma set_node_twice id l1 l2 (c : Cluster P T) : set_node id l2 (set_node id l1 c) = set_node id l2 c.
Proof. unfold set_node. cbn. by rewrite insert_insert_eq. Qed.

Lemma act_exec_cold {B} (x : action B) (s : Server P T) : cold (act_exec now x s).2 = cold s.
Proof.
  destruct (act_store now x s (act_exec now x s).1 (act_exec now x s).2) as (_ & Hc & _); [|done].
  left. by destruct (act_exec now x s).
Qed.

Lemma exec_cold {A} (p : prog A) (s : Server P T) : cold (exec now p s).2 = cold s.
Proof.
  revert s. induction p as [r|B x f IH]; intros s; [done|]. cbn [exec].
  pose proof (act_exec_cold x s) as Hx. destruct (act_exec now x s) as [b s1]. by rewrite IH.
Qed.

Lemma set_tier_cold t (s : Server P T) : cold s = (fun _ => t) <$> cold s -> set_tier t s = s.
Proof. intros Hc. unfold set_tier. rewrite <- Hc. by destruct s. Qed.

(** The accesses of a request, one step of the cluster each. *)
Lemma exec_steps id k q (p : prog reply) s cs c :
  cs !! k = Some (mk_call q p) -> cold s = (fun _ => tier c) <$> cold s ->
  steps n (set_node id (mk_running s cs) c)
    (set_node id (mk_running (exec now p s).2 (<[k := mk_call q (Ret (exec now p s).1)]> cs)) c).
Proof.
  revert s cs. induction p as [r|B x f IH]; intros s cs Hk Hc.
  - cbn. rewrite insert_id by done. apply steps_refl.
  - cbn [exec]. pose proof (act_exec_cold x s) as Hx. destruct (act_exec now x s) as [b s1] eqn:E. cbn [snd] in Hx.
    eapply steps_trans; [|rewrite <- (insert_insert_eq cs k (mk_call q (Ret (exec now (f b) s1).1)) (mk_call q (f b))); apply (IH b);
      [by rewrite lookup_insert_eq|by rewrite Hx]].
    apply steps_one. rewrite <- (set_node_twice id (mk_running s cs) (mk_running s1 (<[k := mk_call q (f b)]> cs)) c).
    apply (step_local _ _ _ (mk_running s cs) (LAct k now)); [by apply lookup_insert_eq|done|].
    unfold connected. cbn. rewrite (set_tier_cold _ _ Hc). eapply (live_act (mk_running s cs)); [exact Hk|].
    exists b. split; [left; cbn; by rewrite E|done].
Qed.

(** A request answered at once is begun, run access by access, and ended. *)
Lemma at_node_steps id q c l :
  nodes c !! id = Some l -> local_event n (LBegin 0 q : live_event T) ->
  exists k c1 l1, steps n c c1 /\ nodes c1 !! id = Some l1
    /\ live_calls l1 !! k = Some (mk_call q (Ret (exec now (handler q) (live_server (connected (tier c) l))).1))
    /\ steps n c1 (at_node id q c).
Proof.
  intros Hid Hev. set (k := fresh (dom (live_calls l))).
  assert (Hk : live_calls l !! k = None) by (apply not_elem_of_dom, is_fresh).
  set (s := live_server (connected (tier c) l)).
  assert (Hc : cold s = (fun _ => tier c) <$> cold s) by (cbn; by destruct (cold (live_server l))).
  set (cs := <[k := mk_call q (handler q)]> (live_calls l)).
  exists k, (set_node id (mk_running (exec now (handler q) s).2 (<[k := mk_call q (Ret (exec now (handler q) s).1)]> cs)) c).
  eexists. split_and!; [|by apply lookup_insert_eq|by apply lookup_insert_eq|].
  - eapply steps_trans; [|apply exec_steps; [by apply lookup_insert_eq|exact Hc]]. apply steps_one.
    apply (step_local _ _ _ l (LBegin k q)); [done|by destruct q|]. by apply (live_begin (connected (tier c) l)).
  - unfold at_node. rewrite Hid. fold s. apply steps_one.
    rewrite <- (set_node_twice id (mk_running (exec now (handler q) s).2 (<[k := mk_call q (Ret (exec now (handler q) s).1)]> cs))
      (mk_running (exec now (handler q) s).2 (live_calls l)) c).
    eapply (step_local _ _ _ _ (LEnd k (exec now (handler q) s).1)); [by apply lookup_insert_eq|done|].
    assert (Hend : cold (exec now (handler q) s).2 = (fun _ => tier c) <$> cold (exec now (handler q) s).2) by by rewrite exec_cold.
    unfold connected. cbn [live_server live_calls tier set_node]. rewrite (set_tier_cold _ _ Hend).
    pose proof (live_end (mk_running (exec now (handler q) s).2 (<[k := mk_call q (Ret (exec now (handler q) s).1)]> cs)) k q
      (exec now (handler q) s).1 ltac:(by apply lookup_insert_eq)) as Hl. cbn [live_server live_calls] in Hl.
    unfold cs in Hl at 2. rewrite insert_insert_eq, delete_insert_id in Hl by done. exact Hl.
Qed.

Lemma at_node_reaches id q (c : Cluster P T) : local_event n (LBegin 0 q : live_event T) -> steps n c (at_node id q c).
Proof.
  intros Hev. destruct (nodes c !! id) as [l|] eqn:Hid; [|unfold at_node; rewrite Hid; apply steps_refl].
  destruct (at_node_steps id q c l Hid Hev) as (k & c1 & l1 & H1 & _ & _ & H2). by eapply steps_trans.
Qed.

Lemma direct_served : @ServedBy (Cluster P T) direct_shards n (steps n) returned.
Proof.
  split.
  - intros id m hs c bps c'. cbn. unfold direct_Lookup, answer_at. destruct (nodes c !! id) as [l|] eqn:Hid; [|done].
    destruct (at_node_steps id (QLookup m hs) c l Hid I) as (k & c1 & l1 & H1 & Hn1 & Hk & H2). cbn [fmap option_fmap option_map].
    destruct (exec now _ _).1 as [bps0| | | | | |]; try done. intros [= <- <-].
    exists c1. split_and!; [done|done|]. by exists l1, k.
  - intros id m hb toks c reply c'. cbn. unfold direct_Fetch, answer_at. destruct (nodes c !! id) as [l|] eqn:Hid.
    2: { intros [= <- <-]. split; [apply steps_refl|done]. }
    destruct (at_node_steps id (QFetch m hb 0 toks None) c l Hid I) as (k & c1 & l1 & H1 & Hn1 & Hk & H2). cbn [fmap option_fmap option_map].
    destruct (exec now _ _).1 as [| err out| | | | |]; intros [= <- <-]; try (split; [apply steps_refl|done]).
    split; [by apply at_node_reaches|]. cbn. intros _ ->. exists c1, out. split_and!; try done. by exists l1, k.
  - intros id msgs c e c' Hok. cbn. unfold direct_Write.
    assert (Hs : steps n c (at_node id (QWrite can_alloc (mk_stream msgs true)) c)) by by apply at_node_reaches.
    destruct (answer_at _ _ _) as [[| | |[| |]| | |]|]; intros [= _ <-]; try exact Hs. apply steps_refl.
Qed.

End direct.

Definition w_load : workload := mk_workload "m#tp0/2" 8 true.
Definition w_prompt : list Block := [mk_block hash32_zero [1; 2]%Z].
Abbreviation w_cluster := (set_node "a" (live_boot NewLRU [WithMaxBytes 100; WithSpiller] true (Some NewMemory)) (mk_cluster ∅ NewMemory)).
Definition w_shards : Shards string (Cluster LRUPolicy Memory) := direct_shards (fun _ => true) 1.

Lemma w_tier_good : good_tier (T := Memory) 8 NewMemory.
Proof. intros m h b Hh. cbn in Hh. unfold memory_Get, NewMemory in Hh. rewrite lookup_empty in Hh. discriminate Hh. Qed.

Lemma no_violation_under_chaos_witness :
  let '(e, r', c') := @oneRequestWithFailover _ _ w_shards w_load ["a"; "b"] w_prompt [] "" f64_0 zero_result w_cluster in
  violations r' = 0%Z
  \/ exists id b, b ∈ w_prompt /\ collided (P := LRUPolicy) 8 NewMemory id "m#tp0/2" (blk_hash b).
Proof.
  pose proof (@no_violation_under_chaos _ _ _ _ 8 w_shards (direct_served 8 (fun _ => true) 1)
    w_load NewMemory w_cluster ["a"; "b"] w_prompt [] "" f64_0 zero_result) as Hn.
  destruct (oneRequestWithFailover _ _ _ _ _ _ _ _) as [[e r'] c'].
  refine (proj2 (Hn _ _ _ _ _)).
  - exact w_tier_good.
  - eapply steps_next; [apply steps_refl|]. apply step_start.
  - reflexivity.
  - reflexivity.
  - constructor; [|constructor]. split; [repeat constructor; discriminate|reflexivity].
Defined.

Definition w_cluster_ticks : nat -> tick (Cluster LRUPolicy Memory) :=
  fun _ => mk_tick false 0 (mk_router (mk_ring 1 [] ∅) ∅ 0 ∅) 0 id 1.
Definition w_worker : run_result :=
  wk_res (run (H := least_rand) (H0 := w_shards) conn_target 3 w_main_traffic false 2 w_cluster_ticks tt w_cluster).2.

Lemma few_still {W} (ticks : nat -> tick W) fuel :
  (forall i, tk_others (ticks i) = 0%Z) -> (Z.of_nat fuel < 2 ^ 62)%Z -> few_draws fuel ticks.
Proof. intros H0 Hf. exists 0%Z. split; [intros i; rewrite H0; lia|lia]. Qed.

Lemma verified_load_exits_zero_witness :
  ((report [w_worker; w_worker]).2 = 0%Z /\ exit_code true [w_worker; w_worker] = 0%Z)
  \/ exists id h, collided (T := Memory) (P := LRUPolicy) 8 NewMemory id "m" h.
Proof.
  assert (Hc : steps 8 (mk_cluster ∅ NewMemory) w_cluster) by (eapply steps_next; [apply steps_refl|apply step_start]).
  assert (Hw : worker_result (H := w_shards) (H1 := least_rand) (fun c => steps 8 (mk_cluster ∅ NewMemory) c) w_main_traffic 2 w_worker).
  { apply (worker_ran _ w_main_traffic 2 3 false w_cluster_ticks tt w_cluster
      (RunDone, (run (H := least_rand) (H0 := w_shards) conn_target 3 w_main_traffic false 2 w_cluster_ticks tt w_cluster).2));
      [done|exact Hc|by apply few_still|].
    vm_compute. reflexivity. }
  apply (@verified_load_exits_zero _ _ _ _ 8 _ least_rand w_decoder w_shards (direct_served 8 (fun _ => true) 1) (fun _ => tt)
    NewMemory w_main_flags None 0 w_main_traffic 2).
  - exact w_tier_good.
  - reflexivity.
  - reflexivity.
  - reflexivity.
  - split; reflexivity.
  - constructor; [exact Hw|constructor; [exact Hw|constructor]].
Defined.
