(* ===== verification/Fleet.v ===== *)
(** The whole system at the grain of the store's locks.

    System interleaves the accesses of the handlers of all nodes; here each node is
    one of Grain, whose handlers are goroutines inside the methods of its store
    beside its evictor, so a step is one lock, atomic or channel operation of one
    goroutine of one node.  Every run of such a fleet is matched by one of System
    ([fleet_refines]); what System shows of clients holds here. *)

From S2P Require Import Prelude Bytes Sha256 Float64 Blockhash Policy Lru Store ColdTier Server Handlers Concurrent Linearize Grain Ring Router Replicator Loadgen Workload Run LoadMain System.

(** The running nodes by id, and the tier they share. *)
Record Fleet (P T : Type) := mk_fleet { fleet_nodes : gmap string (Fine P T); fleet_tier : T }.
#[global] Arguments mk_fleet {P T}.
#[global] Arguments fleet_nodes {P T}.
#[global] Arguments fleet_tier {P T}.

(** A node reads the tier as it is at the moment of the access. *)
Definition linked {P T} (t : T) (f : Fine P T) : Fine P T :=
  mk_fine (set_tier t (fine_server f)) (fine_threads f) (fine_loop f) (fine_calls f).

Definition set_fine {P T} (id : string) (f : Fine P T) (c : Fleet P T) : Fleet P T :=
  mk_fleet (<[id := f]> (fleet_nodes c)) (fleet_tier c).

Section fleet.
Context {P T : Type} `{PolicyLaws P} `{ColdTier T} (n : nat).
Implicit Types (f : Fine P T) (l : Live P T) (a : Spec P) (c : Cluster P T) (d : Fleet P T).

(** ** Steps *)

Inductive fleet_step : Fleet P T -> Fleet P T -> Prop :=
  | fleet_local d id f ev f' :
      fleet_nodes d !! id = Some f -> (forall e, ev = Some e -> local_event n e) ->
      fine_step (linked (fleet_tier d) f) ev f' -> fleet_step d (set_fine id f' d)
  | fleet_replicate d from to fa fb jobs job pr ok msgs eof snt can_alloc k fb' :
      fleet_nodes d !! from = Some fa -> repl (fine_server fa) = Some jobs -> job ∈ jobs -> fleet_nodes d !! to = Some fb ->
      sendOne pr job = (ok, msgs) -> (eof = true -> msgs = job_messages job) ->
      fine_step (linked (fleet_tier d) fb) (Some (LBegin k (QReplicate can_alloc (mk_block_stream msgs eof snt)))) fb' ->
      fleet_step d (set_fine to fb' d)
  | fleet_spill d id f log call :
      fleet_nodes d !! id = Some f -> spill (store (fine_server f)) = Some log -> call ∈ log ->
      fleet_step d (mk_fleet (fleet_nodes d)
        (tier_Spill (sp_model call) (sp_hash call) (mk_cold (sp_version call) (sp_tokens call) (sp_kv call)) (fleet_tier d)))
  | fleet_lose d t :
      (forall m h b, tier_holds t m h b -> tier_holds (fleet_tier d) m h b) -> fleet_step d (mk_fleet (fleet_nodes d) t)
  | fleet_start d id (p : P) opts with_repl t :
      pol_inv p -> tracked p = ∅ -> fleet_step d (set_fine id (fine_boot p opts with_repl t) d)
  | fleet_die d id : fleet_step d (mk_fleet (delete id (fleet_nodes d)) (fleet_tier d)).

Inductive fleet_steps : Fleet P T -> Fleet P T -> Prop :=
  | fleet_refl d : fleet_steps d d
  | fleet_next d d' d'' : fleet_steps d d' -> fleet_step d' d'' -> fleet_steps d d''.

Lemma fleet_trans d d' d'' : fleet_steps d d' -> fleet_steps d' d'' -> fleet_steps d d''.
Proof. intros H1'. induction 1 as [|d0 d1 d2 _ IH Hs]; [done|]. econstructor; [by apply IH|done]. Qed.

(** ** What relates a fleet and a cluster *)

(** The two nodes agree, whatever the tier is. *)
Definition alike f l : Prop := exists a, forall t, agrees (linked t f) a (connected t l).

Definition alike_nodes (mf : option (Fine P T)) (ml : option (Live P T)) : Prop :=
  match mf, ml with Some f, Some l => alike f l | None, None => True | _, _ => False end.

Record fleet_agrees d c : Prop := mk_fleet_agrees {
  fa_tier : fleet_tier d = tier c;
  fa_nodes id : alike_nodes (fleet_nodes d !! id) (nodes c !! id);
}.

Lemma agrees_alike f a l : agrees f a l -> alike f l.
Proof.
  intros [Hsim Hst Hr Hm Hc Hcs He]. exists a. intros t. split; try done. cbn. by rewrite Hc.
Qed.

Lemma alike_insert d c id f l :
  fleet_agrees d c -> alike f l -> fleet_agrees (set_fine id f d) (set_node id l c).
Proof.
  intros [Ht Hn] Hf. split; [exact Ht|]. intros id'. cbn [set_fine set_node fleet_nodes nodes].
  destruct (decide (id' = id)) as [->|Hne]; [by rewrite !lookup_insert_eq|]. rewrite !lookup_insert_ne by done. apply Hn.
Qed.

(** A node's step is matched by a step of the cluster's node, or by none. *)
Lemma fleet_node_step d c id f ev f' :
  fleet_agrees d c -> fleet_nodes d !! id = Some f -> fine_step (linked (fleet_tier d) f) ev f' ->
  exists l, nodes c !! id = Some l /\ alike f l /\ exists l', alike f' l' /\
    ((ev = None /\ l' = connected (tier c) l) \/ exists lev, live_step (connected (tier c) l) lev l' /\ shown lev = ev).
Proof.
  intros [Ht Hn] Hid Hs. specialize (Hn id). rewrite Hid in Hn. destruct (nodes c !! id) as [l|] eqn:Hl; [|done].
  exists l. split; [done|]. split; [done|]. destruct Hn as [a Ha].
  destruct (agrees_step _ _ _ _ _ (Ha (fleet_tier d)) Hs) as (a' & l' & Hd & Ha').
  exists l'. split; [by eapply agrees_alike|]. rewrite Ht in Hd.
  destruct Hd as [[-> ->]|(lev & Hlev & <-)]; [by left|right; by exists lev].
Qed.

Lemma set_node_id id l c : nodes c !! id = Some l -> set_node id l c = c.
Proof. intros Hl. unfold set_node. rewrite insert_id by done. by destruct c. Qed.

(** Reconnecting a node is no step: the tier is read at each access. *)
Lemma alike_connected f t l : alike f (connected t l) -> alike f l.
Proof.
  intros [a Ha]. exists a. intros t'. specialize (Ha t').
  assert (E : connected t' (connected t l) = connected t' l); [|by rewrite E in Ha].
  unfold connected, set_tier. cbn. by destruct (cold (live_server l)).
Qed.

(** The log of the spiller: an eviction under way has demoted a block that the
    cluster's node still holds. *)
Lemma sim_spilling st a log call :
  sim st a -> spill (shared st) = Some log -> call ∈ log -> spilling call (sp_store a).
Proof.
  intros Hsim Hlog Hin. pose proof (sim_spill _ _ Hsim) as Hsp. rewrite Hlog in Hsp.
  destruct (spill (sp_store a)) as [old|] eqn:Ho; [|done]. injection Hsp as ->. exists old. split; [done|].
  apply elem_of_app in Hin as [Hin|Hin]; [by left|right]. unfold spilled in Hin.
  destruct (threads st !! evictor_id) as [[c0 sg]|] eqn:Ht; [|by apply not_elem_of_nil in Hin].
  pose proof (sim_threads _ _ Hsim _ _ _ Ht) as Hok.
  destruct sg; cbn in Hin, Hok; try (by apply not_elem_of_nil in Hin); apply list_elem_of_singleton in Hin as ->.
  - destruct Hok as (_ & Hc & k & ->). exists k.
    pose proof (sim_same _ _ _ _ k _ Hsim Ht eq_refl eq_refl eq_refl) as Hsame. cbn in Hc.
    destruct (opt_same_Some_r _ _ Hc) as (e1 & He1 & Hs1). rewrite He1 in Hsame.
    destruct (opt_same_Some_l _ _ Hsame) as (e2 & He2 & Hs2). exists e2. split; [done|].
    rewrite <- (same_spill _ _ Hs2). by apply same_spill.
  - destruct Hok as (_ & _ & Ha & k & ->). exists k. cbn in Ha.
    destruct (opt_same_Some_r _ _ Ha) as (e2 & He2 & Hs2). exists e2. split; [done|]. by apply same_spill.
  - destruct Hok as (_ & _ & Ha & k & ->). exists k. cbn in Ha.
    destruct (opt_same_Some_r _ _ Ha) as (e2 & He2 & Hs2). exists e2. split; [done|]. by apply same_spill.
Qed.

Lemma shown_local (lev : live_event T) e : shown lev = e -> (forall e0, e = Some e0 -> local_event n e0) -> local_event n lev.
Proof. intros <- Hl. destruct lev; try exact I; by apply Hl. Qed.

Lemma fleet_agrees_step d c d' :
  fleet_agrees d c -> fleet_step d d' -> exists c', steps n c c' /\ fleet_agrees d' c'.
Proof.
  intros Hag Hs. pose proof Hag as [Ht Hn]. destruct Hs as
    [d id f ev f' Hid Hev Hs|d from to fa fb jobs job pr ok msgs eof snt ca k fb' Ha Hr Hjob Hb Hsend Heof Hs|d id f log call Hid Hlog Hcall
    |d t Hsub|d id p opts wr t Hp Hq|d id].
  - destruct (fleet_node_step _ _ _ _ _ _ Hag Hid Hs) as (l & Hl & _ & l' & Hal & [[-> ->]|(lev & Hlev & Hsh)]).
    + exists c. split; [apply steps_refl|]. rewrite <- (set_node_id id l c) by done.
      apply alike_insert; [done|]. by eapply alike_connected.
    + exists (set_node id l' c). split; [|by apply alike_insert].
      apply steps_one. eapply step_local; [exact Hl|by eapply shown_local|exact Hlev].
  - destruct (fleet_node_step _ _ _ _ _ _ Hag Hb Hs) as (l & Hl & _ & l' & Hal & [[? _]|(lev & Hlev & Hsh)]); [done|].
    exists (set_node to l' c). split; [|by apply alike_insert]. apply steps_one.
    pose proof (Hn from) as Hfrom. rewrite Ha in Hfrom. destruct (nodes c !! from) as [la|] eqn:Hla; [|done].
    destruct Hfrom as [a1 Hag1]. pose proof (ag_repl _ _ _ (Hag1 (fleet_tier d))) as Hrep. cbn in Hrep. rewrite Hr in Hrep.
    assert (lev = LBegin k (QReplicate ca (mk_block_stream msgs eof snt))) as -> by (by destruct lev; cbn in Hsh; simplify_eq).
    eapply step_replicate; eauto.
  - exists (mk_cluster (nodes c) (tier_Spill (sp_model call) (sp_hash call) (mk_cold (sp_version call) (sp_tokens call) (sp_kv call)) (tier c))).
    split; [|split; [cbn; by rewrite Ht|exact Hn]]. apply steps_one.
    pose proof (Hn id) as Hno. rewrite Hid in Hno. destruct (nodes c !! id) as [l|] eqn:Hl; [|done].
    destruct Hno as [a1 Hag1]. specialize (Hag1 (tier c)). eapply step_spill; [exact Hl|].
    pose proof (sim_spilling _ _ _ _ (ag_sim _ _ _ Hag1) Hlog Hcall) as Hspl. by rewrite (ag_store _ _ _ Hag1) in Hspl.
  - exists (mk_cluster (nodes c) t). split; [|by split]. apply steps_one, step_tier. by rewrite <- Ht.
  - exists (set_node id (live_boot p opts wr t) c). split; [apply steps_one, step_start|].
    apply alike_insert; [done|]. eapply agrees_alike. by apply agrees_boot.
  - exists (mk_cluster (delete id (nodes c)) (tier c)). split; [apply steps_one, step_die|]. split; [exact Ht|].
    intros id'. cbn [fleet_nodes nodes]. destruct (decide (id' = id)) as [->|Hne]; [by rewrite !lookup_delete_eq|].
    rewrite !lookup_delete_ne by done. apply Hn.
Qed.

(** Every run of the fleet is matched by a run of the cluster. *)
Lemma fleet_refines t d :
  fleet_steps (mk_fleet ∅ t) d -> exists c, steps n (mk_cluster ∅ t) c /\ fleet_agrees d c.
Proof.
  remember (mk_fleet ∅ t) as d0 eqn:E. induction 1 as [|d1 d2 d3 _ IH Hs]; subst.
  - exists (mk_cluster ∅ t). split; [apply steps_refl|]. by split.
  - destruct (IH eq_refl) as (c & Hc & Hag). destruct (fleet_agrees_step _ _ _ Hag Hs) as (c' & Hc' & Hag').
    exists c'. split; [by eapply steps_trans|done].
Qed.

(** ** What a client gets *)

(** A handler of the node [id] has done the request [q] and is about to answer [r]. *)
Definition done_at d (id : string) (q : request) (r : reply) : Prop :=
  exists f k, fleet_nodes d !! id = Some f /\ fine_calls f !! k = Some (mk_call q (Ret r)).

Lemma done_returned d c id q r : fleet_agrees d c -> done_at d id q r -> returned c id q r.
Proof.
  intros [Ht Hn] (f & k & Hid & Hk). specialize (Hn id). rewrite Hid in Hn.
  destruct (nodes c !! id) as [l|] eqn:Hl; [|done]. destruct Hn as [a Ha]. exists l, k. split; [done|].
  pose proof (ag_calls _ _ _ (Ha (fleet_tier d)) k) as Hc. cbn [linked fine_calls connected live_calls] in Hc.
  rewrite Hk in Hc. destruct (live_calls l !! k) as [[q' p']|]; [|done]. destruct Hc as [<- Hw].
  destruct (sp_pend a !! S k) as [[c0|rr]|]; [by destruct Hw|done|]. cbn in Hw. by subst p'.
Qed.

(** Two blocks of a model share their store key. *)
Definition keys_collide (m : string) (h : BlockHash) : Prop :=
  exists h', h' <> h /\ collision (key_message m h') (key_message m h).

Lemma collided_keys t id m h : collided (P := P) n t id m h -> keys_collide m h.
Proof. intros (c & _ & l & _ & e & _ & Hne & Hcol). by exists (WireHash e). Qed.

Lemma done_fetch_good t d id m h toks out :
  good_tier n t -> fleet_steps (mk_fleet ∅ t) d ->
  done_at d id (QFetch m (hash_bytes h) 0 toks None) (RFetch None out) ->
  mjoin (chunk_data <$> sent out) = fillVerifiable n h \/ keys_collide m h.
Proof.
  intros Ht Hr Hd. destruct (fleet_refines t d Hr) as (c & Hc & Hag).
  destruct (returned_fetch_good n t c id m h toks out Ht Hc (done_returned _ _ _ _ _ Hag Hd)) as [|Hcol]; [by left|right].
  by eapply collided_keys.
Qed.

Lemma done_lookup_length t d id m hs bps :
  good_tier n t -> fleet_steps (mk_fleet ∅ t) d -> done_at d id (QLookup m hs) (RLookup bps) -> length bps = length hs.
Proof.
  intros Ht Hr Hd. destruct (fleet_refines t d Hr) as (c & Hc & Hag).
  by eapply (returned_lookup_length n t c), done_returned.
Qed.

End fleet.

(** ** The theorems *)

Section theorems.
Context {P T : Type} `{PolicyLaws P} `{ColdTier T} (n : nat).
Implicit Types (d : Fleet P T).

(** C1. The chaos assertion (ADR 0016, 0026), at the grain of the store's locks: from
    an empty fleet and a tier that holds only blocks of the run, after any
    interleaving of the lock, map, policy, atomic and channel operations of every
    handler and evictor of every node with spills, cut or complete replications,
    node deaths and restarts, a verifying client's request with failover does not
    panic and counts no violation, while more of the same goes on under it, unless SHA-256 collides on
    the store keys of a block of the request and of another block. *)
Theorem chaos_costs_no_violation `{Shards string (Fleet P T)} `{!ServedBy n (fleet_steps n) done_at}
    w t d conns blocks root tenant cost r :
  good_tier n t -> fleet_steps n (mk_fleet ∅ t) d ->
  verify w = true -> payloadBytes w = n -> Forall (fun b => tokens_ok (blk_tokens b)) blocks ->
  let '(e, r', d') := oneRequestWithFailover w conns blocks root tenant cost r d in
  e <> IndexPanic /\ fleet_steps n (mk_fleet ∅ t) d'
  /\ (violations r' = violations r \/ exists b, b ∈ blocks /\ keys_collide (model w) (blk_hash b)).
Proof.
  intros Ht Hd Hv Hn Hb.
  pose proof (request_clean n (fleet_steps n) done_at (fun d => fleet_steps n (mk_fleet ∅ t) d) (fun _ => keys_collide)
    ltac:(intros; by eapply fleet_trans) ltac:(intros; by eapply done_fetch_good) ltac:(intros; by eapply (done_lookup_length n t)) w d conns blocks root tenant cost r Hv Hn Hb Hd) as Hq.
  destruct (oneRequestWithFailover _ _ _ _ _ _ _ _) as [[e r'] d']. destruct Hq as (Hp & Hs & [|(_ & b & Hin & Hcol)]); eauto 6.
Qed.

(** The load generator exits cleanly: whatever verifying traffic its flags ask
    for (tenants, a trace or the synthetic mix), over any number of workers, each
    with or without a deadline, against the fleet while requests, evictions, spills,
    replications, deaths and restarts go on at the grain of the store's locks, the
    report counts no violation and the exit code is 0, unless SHA-256 collides on
    the store keys of two blocks of the model. *)
Theorem verified_load_is_clean `{RandSource G} `{JsonDecoder} `{Shards string (Fleet P T)} `{!ServedBy n (fleet_steps n) done_at}
    (rng : Z -> G) t fl tf start w k rs :
  good_tier n t -> main_traffic rng fl tf start = inr w ->
  fl_verify fl = true -> fl_payloadBytes fl = Z.of_nat n -> (0 < fl_blockTokens fl < 2 ^ 32)%Z ->
  Forall (worker_result (fun d => fleet_steps n (mk_fleet ∅ t) d) w k) rs ->
  ((report rs).2 = 0%Z /\ exit_code (fl_verify fl) rs = 0%Z) \/ exists h, keys_collide (fl_model fl) h.
Proof.
  intros Ht Hmain Hv Hn Hb Hrs.
  destruct (load_clean n (fleet_steps n) done_at (fun d => fleet_steps n (mk_fleet ∅ t) d) (fun _ => keys_collide)
    ltac:(intros; by eapply fleet_trans) ltac:(intros; by eapply done_fetch_good) ltac:(intros; by eapply (done_lookup_length n t))
    rng fl tf start w k rs Hmain Hv Hn Hb Hrs)
    as [|(_ & h & Hcol)]; eauto.
Qed.

End theorems.

(** ** A fleet that answers each RPC at once *)

Section direct.
Context {P T : Type} `{PolicyLaws P} `{ColdTier T} (n : nat) (can_alloc : Z -> bool) (now : Z) (fuel : nat).
Hypothesis orders : forall t (st : Conc P), legal_order t st.
Implicit Types (f : Fine P T) (d : Fleet P T).

(** Handler [k] alone moves until it has its answer. *)
Fixpoint run_handler (steps : nat) (t : T) (k : nat) f : option (reply * Fine P T) :=
  match fine_calls f !! k with
  | Some (mk_call q (Ret r)) => Some (r, f)
  | _ =>
      match steps with
      | O => None
      | S steps => f1 ← advance now k (linked t f); run_handler steps t k f1
      end
  end.

(** The answer of the node [id] to [q], the fleet when it is ready and when it is sent. *)
Definition fleet_ask (id : string) (q : request) d : option (reply * Fleet P T * Fleet P T) :=
  f ← fleet_nodes d !! id;
  let k := fresh (dom (fine_calls f)) in
  '(r, f1) ← run_handler fuel (fleet_tier d) k (with_call k q (handler q) (linked (fleet_tier d) f));
  let f2 := linked (fleet_tier d) f1 in
  Some (r, set_fine id f1 d,
        set_fine id (mk_fine (fine_server f2) (fine_threads f2) (fine_loop f2) (delete k (fine_calls f2))) d).

Definition fleet_Lookup (id m : string) (hs : list (list byte)) d : rpc_error + list BlockPresence * Fleet P T :=
  match fleet_ask id (QLookup m hs) d with
  | Some (RLookup bps, _, d2) => inr (bps, d2)
  | _ => inl unavailable
  end.
Definition fleet_Fetch (id m : string) (hb : list byte) (toks : list Z) d : fetch_reply * Fleet P T :=
  match fleet_ask id (QFetch m hb 0 toks None) d with
  | Some (RFetch err out, _, d2) => (mk_reply None (sent out) err, d2)
  | _ => (mk_reply (Some unavailable) [] None, d)
  end.
Definition fleet_Write (id : string) (msgs : list WriteChunk) d : option rpc_error * Fleet P T :=
  match fleet_ask id (QWrite can_alloc (mk_stream msgs true)) d with
  | Some (RWrite (Done _), _, d2) => (None, d2)
  | Some (RWrite (Failed e), _, d2) => (Some e, d2)
  | Some (_, _, d2) => (Some unavailable, d2)
  | None => (Some unavailable, d)
  end.

Definition fleet_shards : Shards string (Fleet P T) := {|
  rpc_Lookup := fleet_Lookup;
  rpc_Fetch := fleet_Fetch;
  rpc_Write := fleet_Write;
|}.

Lemma fleet_one d d' : fleet_step n d d' -> fleet_steps n d d'.
Proof. intros Hs. eapply fleet_next; [apply fleet_refl|done]. Qed.

Lemma set_fine_twice id f1 f2 d : set_fine id f2 (set_fine id f1 d) = set_fine id f2 d.
Proof. unfold set_fine. cbn. by rewrite insert_insert_eq. Qed.

(** A step of one node that comes after what it did before. *)
Lemma fleet_on id d0 f ev f' d :
  fine_step (linked (fleet_tier d) f) ev f' -> (forall e, ev = Some e -> local_event n e) ->
  fleet_steps n d0 (set_fine id f d) -> fleet_steps n d0 (set_fine id f' d).
Proof.
  intros Hs Hev Hr. eapply fleet_next; [exact Hr|]. rewrite <- (set_fine_twice id f f' d).
  eapply (fleet_local _ (set_fine id f d)); [by apply lookup_insert_eq|exact Hev|exact Hs].
Qed.

(** A handler that moves keeps its request. *)
Lemma advance_request k f f' q p :
  advance now k f = Some f' -> fine_calls f !! k = Some (mk_call q p) -> exists p', fine_calls f' !! k = Some (mk_call q p').
Proof.
  unfold advance. intros Hadv Hk. rewrite Hk in Hadv. destruct p as [r|B x c]; [done|].
  destruct (access_call now x); [|injection Hadv as <-; cbn; rewrite lookup_insert_eq; eauto].
  destruct (fine_threads f !! S k); [|injection Hadv as <-; eauto].
  destruct (tstep _ _) as [[lab st]|]; [|done]. cbn [mbind option_bind] in Hadv.
  destruct lab; simplify_eq; eauto. case_decide; [|done].
  destruct (access_answer x _); [|done]. injection Hadv as <-. cbn. rewrite lookup_insert_eq. eauto.
Qed.

Lemma run_handler_steps steps id k q p f r f' d0 d :
  run_handler steps (fleet_tier d) k f = Some (r, f') -> fine_calls f !! k = Some (mk_call q p) ->
  fleet_steps n d0 (set_fine id f d) ->
  fleet_steps n d0 (set_fine id f' d) /\ fine_calls f' !! k = Some (mk_call q (Ret r)).
Proof.
  revert f p. induction steps as [|steps IH]; intros f p Hrun Hk Hr; cbn [run_handler] in Hrun; rewrite Hk in Hrun;
    destruct p as [r0|B x c]; try done; try (injection Hrun as <- <-; done).
  destruct (advance now k (linked (fleet_tier d) f)) as [f1|] eqn:E; [|done]. cbn [mbind option_bind] in Hrun.
  destruct (advance_request _ _ _ q _ E Hk) as [p1 Hp1]. eapply IH; [exact Hrun|exact Hp1|].
  eapply fleet_on; [by eapply turn_step, advance_turn|done|exact Hr].
Qed.

Lemma fleet_ask_steps id q d r d1 d2 :
  local_event n (LBegin 0 q : live_event T) -> fleet_ask id q d = Some (r, d1, d2) ->
  fleet_steps n d d1 /\ done_at d1 id q r /\ fleet_steps n d1 d2.
Proof.
  intros Hev. unfold fleet_ask. destruct (fleet_nodes d !! id) as [f|] eqn:Hid; [|done]. cbn [mbind option_bind].
  set (k := fresh (dom (fine_calls f))).
  assert (Hk : fine_calls f !! k = None) by (apply not_elem_of_dom, is_fresh).
  destruct (run_handler fuel _ k _) as [[r0 f1]|] eqn:Hrun; [|done]. cbn [mbind option_bind]. intros [= <- <- <-].
  assert (Hb : fleet_steps n d (set_fine id (with_call k q (handler q) (linked (fleet_tier d) f)) d)).
  { apply fleet_one. eapply (fleet_local _ _ _ f (Some (LBegin k q))); [exact Hid| |by apply (fine_begin (linked _ f))].
    intros e [= <-]. by destruct q. }
  destruct (run_handler_steps fuel id k q _ _ _ _ _ _ Hrun ltac:(by apply lookup_insert_eq) Hb) as [H1' H2'].
  split; [exact H1'|]. split.
  - exists f1, k. split; [by apply lookup_insert_eq|exact H2'].
  - eapply fleet_on; [by eapply (fine_end (linked (fleet_tier d) f1))| |apply fleet_refl]. by intros e [= <-].
Qed.

Lemma fleet_served : @ServedBy (Fleet P T) fleet_shards n (fleet_steps n) done_at.
Proof.
  split.
  - intros id m hs d bps d'. cbn. unfold fleet_Lookup. destruct (fleet_ask _ _ _) as [[[[] d1] d2]|] eqn:E; try done.
    intros [= <- <-]. apply (fleet_ask_steps id (QLookup m hs) _ _ _ _ I) in E as (H1' & Hd & H2'). by exists d1.
  - intros id m hb toks d reply d'. cbn. unfold fleet_Fetch. destruct (fleet_ask _ _ _) as [[[r0 d1] d2]|] eqn:E.
    2: { intros [= <- <-]. split; [apply fleet_refl|done]. }
    destruct r0 as [|err out| | | | |]; intros [= <- <-]; try (split; [apply fleet_refl|done]).
    apply (fleet_ask_steps id (QFetch m hb 0 toks None) _ _ _ _ I) in E as (H1' & Hd & H2').
    split; [by eapply fleet_trans|]. cbn. intros _ ->. exists d1, out. by split_and!.
  - intros id msgs d e d' Hok. cbn. unfold fleet_Write. destruct (fleet_ask _ _ _) as [[[r0 d1] d2]|] eqn:E.
    2: { intros [= _ <-]. apply fleet_refl. }
    apply fleet_ask_steps in E as (H1' & _ & H2'); [|exact Hok].
    assert (fleet_steps n d d2) by (by eapply fleet_trans).
    destruct r0 as [| | |[| |]| | |]; intros [= _ <-]; done.
Qed.

End direct.

(** A fleet of one node: a request that writes its block, then one that reads it. *)
Definition w_fleet_shards : Shards string (Fleet LRUPolicy Memory) := fleet_shards (fun _ => true) 1 40.
Definition w_fleet : Fleet LRUPolicy Memory :=
  set_fine "a" (fine_boot NewLRU [WithMaxBytes 100; WithSpiller] true (Some NewMemory)) (mk_fleet ∅ NewMemory).
Definition w_served : @ServedBy (Fleet LRUPolicy Memory) w_fleet_shards 8 (fleet_steps 8) done_at :=
  fleet_served 8 (fun _ => true) 1 40 lru_legal.
Definition w_request (d : Fleet LRUPolicy Memory) : ending * result * Fleet LRUPolicy Memory :=
  @oneRequestWithFailover _ _ w_fleet_shards w_load ["a"; "b"] w_prompt [] "" f64_0 zero_result d.

Lemma w_fleet_reached : fleet_steps 8 (mk_fleet ∅ NewMemory) w_fleet.
Proof. eapply fleet_next; [apply fleet_refl|]. by apply fleet_start; [apply lru_inv_new|]. Qed.

Lemma w_prompt_ok : Forall (fun b => tokens_ok (blk_tokens b)) w_prompt.
Proof. constructor; [|constructor]. split; [repeat constructor; discriminate|reflexivity]. Qed.

Lemma chaos_costs_no_violation_witness :
  writes (w_request w_fleet).1.2 = 1%Z /\ hits (w_request (w_request w_fleet).2).1.2 = 1%Z
  /\ (violations (w_request (w_request w_fleet).2).1.2 = 0%Z \/ exists b, b ∈ w_prompt /\ keys_collide "m#tp0/2" (blk_hash b)).
Proof.
  split; [vm_compute; reflexivity|]. split; [vm_compute; reflexivity|].
  pose proof (fun d => @chaos_costs_no_violation LRUPolicy Memory lru_policy lru_laws _ 8 w_fleet_shards w_served
    w_load NewMemory d ["a"; "b"] w_prompt [] "" f64_0 zero_result w_tier_good) as Hn.
  change (@oneRequestWithFailover string (Fleet LRUPolicy Memory) w_fleet_shards w_load ["a"; "b"] w_prompt [] "" f64_0 zero_result)
    with w_request in Hn.
  pose proof (Hn w_fleet w_fleet_reached eq_refl eq_refl w_prompt_ok) as H1.
  destruct (w_request w_fleet) as [[e1 r1] d1]. destruct H1 as (_ & Hd1 & _).
  pose proof (Hn d1 Hd1 eq_refl eq_refl w_prompt_ok) as H2.
  cbn [snd]. destruct (w_request d1) as [[e2 r2] d2]. exact (proj2 (proj2 H2)).
Defined.

Definition w_fleet_ticks : nat -> tick (Fleet LRUPolicy Memory) :=
  fun _ => mk_tick false 0 (mk_router (mk_ring 1 [] ∅) ∅ 0 ∅) 0 id 1.
Definition w_fleet_worker : run_result :=
  wk_res (run (H := least_rand) (H0 := w_fleet_shards) conn_target 3 w_main_traffic false 2 w_fleet_ticks tt w_fleet).2.
Lemma w_fleet_result : worker_result (H := w_fleet_shards) (H1 := least_rand) (fun d => fleet_steps 8 (mk_fleet ∅ NewMemory) d)
  w_main_traffic 2 w_fleet_worker.
Proof.
  apply (worker_ran _ w_main_traffic 2 3 false w_fleet_ticks tt w_fleet
    (RunDone, (run (H := least_rand) (H0 := w_fleet_shards) conn_target 3 w_main_traffic false 2 w_fleet_ticks tt w_fleet).2));
    [done|exact w_fleet_reached|by apply few_still|].
  vm_compute. reflexivity.
Qed.

Lemma verified_load_is_clean_witness :
  ((report [w_fleet_worker; w_fleet_worker]).2 = 0%Z /\ exit_code true [w_fleet_worker; w_fleet_worker] = 0%Z)
  \/ exists h, keys_collide "m" h.
Proof.
  apply (@verified_load_is_clean LRUPolicy Memory lru_policy lru_laws _ 8 _ least_rand w_decoder w_fleet_shards w_served (fun _ => tt)
    NewMemory w_main_flags None 0 w_main_traffic 2).
  - exact w_tier_good.
  - reflexivity.
  - reflexivity.
  - reflexivity.
  - split; reflexivity.
  - constructor; [exact w_fleet_result|constructor; [exact w_fleet_result|constructor]].
Defined.
