(* ===== verification/Workers.v ===== *)
(** The load generator's goroutines: [main] of [src/cmd/loadgen/main.go] from the
    launch of the workers to the exit of the process.

    Every worker writes its own slot of [results] when its [run] returns, then tells
    the wait group; [main] waits, stops the statistics, reports and exits.  A worker
    whose [run] panics ends the process where it is, with status 2.  The steps of
    [main], the workers and [printLoop] interleave; what [run] may return, and
    whether it may panic, are parameters, [returns] and [panics].  Over the fleet of
    Fleet this gives the exit code of the whole process. *)

From S2P Require Import Prelude Bytes Sha256 Float64 Blockhash Policy Lru Store ColdTier Server Handlers Concurrent Linearize Grain Ring Router Replicator Loadgen Workload Run LoadMain System Fleet.

(** Where [main] is: in the loop that starts worker [c], in [wg.Wait], past it, gone
    with a code; or the process was ended by the panic of a worker. *)
Inductive main_at :=
  | AtLaunch (c : nat)
  | AtWait
  | AtReport
  | Exited (code : Z)
  | Crashed.

(** Where a worker is: in [run], or before its deferred [wg.Done]. *)
Inductive worker_at := InRun | Wrote.

(** [printLoop], while it runs: its two variables. *)
Record printer := mk_printer { prevReq : Z; prevErr : Z }.

(** [done] is closed exactly when [main] is past [wg.Wait]. *)
Record process := mk_process {
  pr_at : main_at;
  pr_results : list run_result;
  pr_wg : Z;
  pr_workers : gmap nat worker_at;
  pr_printer : option printer;
  pr_lines : list stats_line;
}.

(** The status the process left with; after a panic it is the runtime's 2. *)
Definition exit_status (a : main_at) : option Z :=
  match a with Exited code => Some code | Crashed => Some 2%Z | _ => None end.

Definition past_wait (a : main_at) : bool := match a with AtReport | Exited _ => true | _ => false end.

(** [make] panics on a negative [-concurrency]; the ticker starts with [-stats-every]. *)
Definition launch (concurrency : Z) (live : bool) : option process :=
  if (concurrency <? 0)%Z then None
  else Some (mk_process (AtLaunch 0) (replicate (Z.to_nat concurrency) no_result) 0 ∅
               (if live then Some (mk_printer 0 0) else None) []).

Section main.
Context (verify : bool) (returns : nat -> run_result -> Prop) (panics : nat -> Prop).
Implicit Types (st : process).

Definition move (a : main_at) st : process :=
  mk_process a (pr_results st) (pr_wg st) (pr_workers st) (pr_printer st) (pr_lines st).

(** The steps that are not the ticker's.  There are none once the process is gone. *)
Inductive work_step : process -> process -> Prop :=
  | main_add c st :
      pr_at st = AtLaunch c -> c < length (pr_results st) ->
      work_step st (mk_process (AtLaunch (S c)) (pr_results st) (pr_wg st + 1) (<[c := InRun]> (pr_workers st)) (pr_printer st) (pr_lines st))
  | main_launched c st : pr_at st = AtLaunch c -> length (pr_results st) <= c -> work_step st (move AtWait st)
  | worker_write id r st :
      exit_status (pr_at st) = None -> pr_workers st !! id = Some InRun -> returns id r ->
      work_step st (mk_process (pr_at st) (<[id := r]> (pr_results st)) (pr_wg st) (<[id := Wrote]> (pr_workers st)) (pr_printer st) (pr_lines st))
  | worker_panic id st :
      exit_status (pr_at st) = None -> pr_workers st !! id = Some InRun -> panics id ->
      work_step st (move Crashed st)
  | worker_done id st :
      exit_status (pr_at st) = None -> pr_workers st !! id = Some Wrote ->
      work_step st (mk_process (pr_at st) (pr_results st) (pr_wg st - 1) (delete id (pr_workers st)) (pr_printer st) (pr_lines st))
  | main_wait st : pr_at st = AtWait -> pr_wg st = 0%Z -> work_step st (move AtReport st)
  | main_report st : pr_at st = AtReport -> work_step st (move (Exited (exit_code verify (pr_results st))) st).

(** A tick prints what it loads, as long as the process is there; [done] may be seen
    late, or not before the exit. *)
Inductive print_step : process -> process -> Prop :=
  | print_tick s p st :
      pr_printer st = Some p -> exit_status (pr_at st) = None ->
      print_step st (mk_process (pr_at st) (pr_results st) (pr_wg st) (pr_workers st) (Some (mk_printer (lv_requests s) (lv_errors s)))
        (pr_lines st ++ [mk_line s (i64 (lv_requests s - prevReq p)) (i64 (lv_errors s - prevErr p))]))
  | print_stop st :
      past_wait (pr_at st) = true ->
      print_step st (mk_process (pr_at st) (pr_results st) (pr_wg st) (pr_workers st) None (pr_lines st)).

Definition process_step st st' : Prop := work_step st st' \/ print_step st st'.

(** ** The invariant *)

(** [results] is full of what the workers that are done returned, the wait group
    counts the others, and no worker has panicked. *)
Definition started (a : main_at) (n : nat) : nat := match a with AtLaunch c => c | _ => n end.

Record launched (n : nat) st : Prop := mk_launched {
  la_length : length (pr_results st) = n;
  la_started : started (pr_at st) n <= n;
  la_workers id : is_Some (pr_workers st !! id) -> id < started (pr_at st) n;
  la_wg : pr_wg st = Z.of_nat (size (pr_workers st));
  la_results id r :
    id < started (pr_at st) n -> pr_workers st !! id <> Some InRun -> pr_results st !! id = Some r -> returns id r;
  la_past : past_wait (pr_at st) = true -> pr_workers st = ∅;
  la_code code : pr_at st = Exited code -> code = exit_code verify (pr_results st);
  la_crash : pr_at st <> Crashed;
}.

(** Some worker has panicked, and the process is gone. *)
Definition crashed st : Prop := pr_at st = Crashed /\ exists id, panics id.

Lemma launch_launched n live st : launch n live = Some st -> launched (Z.to_nat n) st.
Proof.
  unfold launch. destruct (n <? 0)%Z; [done|]. intros [= <-].
  split; cbn; try done; try lia; [apply length_replicate|by intros id [? ?]].
Qed.

Lemma work_launched n st st' : launched n st -> work_step st st' -> launched n st' \/ crashed st'.
Proof.
  intros Hl Hs. revert Hl. destruct Hs as [c st Ha Hc|c st Ha Hc|id r st _ Hw Hr|id st _ Hw Hp|id st _ Hw|st Ha Hwg|st Ha];
    intros [L S W G R Pw X Cr]; [left|left|left|right; split; [done|by exists id]|left|left|left]; split; cbn [pr_at pr_results pr_wg pr_workers move started past_wait] in *; rewrite ?Ha in *;
    cbn [started past_wait] in *; try done.
  - lia.
  - intros id. destruct (decide (id = c)) as [->|Hne]; [lia|]. rewrite lookup_insert_ne by done. intros Hid. specialize (W id Hid). lia.
  - rewrite map_size_insert_None; [lia|]. destruct (pr_workers st !! c) eqn:E; [|done]. specialize (W c ltac:(eauto)). lia.
  - intros id r Hlt Hne Hr. destruct (decide (id = c)) as [->|Hd]; [by rewrite lookup_insert_eq in Hne|].
    rewrite lookup_insert_ne in Hne by done. apply R; [lia|done|done].
  - intros id Hid. specialize (W id Hid). lia.
  - intros id r Hlt Hne Hr. apply R; [lia|done|done].
  - by rewrite length_insert.
  - intros id'. destruct (decide (id' = id)) as [->|Hne]; [intros _; apply W; eauto|]. rewrite lookup_insert_ne by done. apply W.
  - rewrite map_size_insert_Some; [done|eauto].
  - intros id' r' Hlt Hne. destruct (decide (id' = id)) as [->|Hd].
    + rewrite list_lookup_insert_eq; [by intros [= <-]|]. specialize (W id ltac:(eauto)). lia.
    + rewrite list_lookup_insert_ne by done. rewrite lookup_insert_ne in Hne by done. by apply R.
  - intros Hp. specialize (Pw Hp). by rewrite Pw, lookup_empty in Hw.
  - intros code Hcode. rewrite Hcode in Pw. cbn in Pw. specialize (Pw eq_refl). by rewrite Pw, lookup_empty in Hw.
  - intros id' [_ Hid]%lookup_delete_is_Some. by apply W.
  - rewrite map_size_delete_Some by eauto. assert (0 < size (pr_workers st)); [|lia].
    apply Nat.neq_0_lt_0. intros He%map_size_empty_inv. by rewrite He, lookup_empty in Hw.
  - intros id' r' Hlt Hne. apply R; [done|]. destruct (decide (id' = id)) as [->|Hd]; [congruence|by rewrite lookup_delete_ne in Hne].
  - intros Hp. by rewrite (Pw Hp), delete_empty.
  - intros _. apply map_size_empty_inv. lia.
  - by intros code [= <-].
Qed.

(** What the ticker keeps: the lines are those of [printLoop] over some loads, and
    its variables are the last of them. *)
Definition printed st : Prop :=
  exists loads, pr_lines st = printLoop 0 0 loads
    /\ forall p, pr_printer st = Some p ->
         p = match last loads with Some s => mk_printer (lv_requests s) (lv_errors s) | None => mk_printer 0 0 end.

Lemma printLoop_snoc pr pe loads s :
  printLoop pr pe (loads ++ [s])
  = printLoop pr pe loads
    ++ match last loads with
       | Some s0 => [mk_line s (i64 (lv_requests s - lv_requests s0)) (i64 (lv_errors s - lv_errors s0))]
       | None => [mk_line s (i64 (lv_requests s - pr)) (i64 (lv_errors s - pe))]
       end.
Proof.
  revert pr pe. induction loads as [|s0 loads IH]; intros pr pe; [done|]. cbn [app printLoop]. rewrite IH. cbn [app].
  rewrite last_cons. by destruct (last loads).
Qed.

Lemma print_kept n st st' : launched n st -> printed st -> print_step st st' -> launched n st' /\ printed st'.
Proof.
  intros Hl Hp Hs. revert Hl Hp. destruct Hs as [s p st Hpr Hat|st Hat]; intros [L S W G R Pw X Cr] (loads & Hlines & Hprn); split; try (by split).
  - exists (loads ++ [s]). cbn [pr_lines pr_printer]. rewrite printLoop_snoc, last_snoc, Hlines. rewrite (Hprn p Hpr).
    split; [by destruct (last loads)|by intros q [= <-]].
  - exists loads. cbn. split; [done|]. by intros q Hq.
Qed.

Lemma gone_stays st st' : pr_at st = Crashed -> process_step st st' -> False.
Proof. intros Hat [Hs|Hs]; destruct Hs; by simplify_eq/=; rewrite Hat in *. Qed.

Inductive process_run st0 : process -> Prop :=
  | process_refl : process_run st0 st0
  | process_next st st' : process_run st0 st -> process_step st st' -> process_run st0 st'.

Lemma process_invariant n live st0 st :
  launch n live = Some st0 -> process_run st0 st -> (launched (Z.to_nat n) st \/ crashed st) /\ printed st.
Proof.
  intros H0. induction 1 as [|st st' _ [Hl Hp] Hs].
  - split; [left; by eapply launch_launched|]. unfold launch in H0. destruct (n <? 0)%Z; [done|]. injection H0 as <-.
    exists []. split; [done|]. cbn. destruct live; by intros p [= <-].
  - destruct Hl as [Hl|[Hat _]]; [|by destruct (gone_stays st st')]. destruct Hs as [Hs|Hs].
    + split; [by eapply work_launched|]. destruct Hp as (loads & Hlines & Hprn). exists loads. by destruct Hs.
    + destruct (print_kept _ st _ Hl Hp Hs). split; [by left|done].
Qed.

(** What the workers wrote is what [main] reports. *)
Lemma exited_results n st code :
  launched n st -> pr_at st = Exited code ->
  length (pr_results st) = n /\ (forall id r, pr_results st !! id = Some r -> returns id r)
  /\ code = exit_code verify (pr_results st).
Proof.
  intros [L _ _ _ R Pw X _] Hat. split; [done|]. split; [|by apply X]. intros id r Hr. rewrite Hat in *.
  apply R; [|by rewrite (Pw eq_refl), lookup_empty|done]. cbn. rewrite <- L. by eapply lookup_lt_Some.
Qed.

(** How many steps but the ticker's are left. *)
Definition steps_to_exit st : nat :=
  match pr_at st with
  | AtLaunch c => 3 * (length (pr_results st) - c) + 3
  | AtWait => 2
  | AtReport => 1
  | Exited _ | Crashed => 0
  end + map_fold (fun _ w acc => match w with InRun => 2 | Wrote => 1 end + acc) 0 (pr_workers st).

Lemma workers_cost_insert (ws : gmap nat worker_at) id w :
  ws !! id = None ->
  map_fold (fun _ w acc => match w with InRun => 2 | Wrote => 1 end + acc) 0 (<[id := w]> ws)
  = match w with InRun => 2 | Wrote => 1 end + map_fold (fun _ w acc => match w with InRun => 2 | Wrote => 1 end + acc) 0 ws.
Proof. intros Hid. rewrite map_fold_insert_L; [done| |done]. intros. lia. Qed.

Lemma workers_cost_delete (ws : gmap nat worker_at) id w :
  ws !! id = Some w ->
  map_fold (fun _ w acc => match w with InRun => 2 | Wrote => 1 end + acc) 0 ws
  = match w with InRun => 2 | Wrote => 1 end
    + map_fold (fun _ w acc => match w with InRun => 2 | Wrote => 1 end + acc) 0 (delete id ws).
Proof.
  intros Hid. rewrite <- (insert_delete_id ws id w) at 1 by done. apply workers_cost_insert, lookup_delete_eq.
Qed.

Lemma work_step_less n st st' : launched n st -> work_step st st' -> steps_to_exit st' < steps_to_exit st.
Proof.
  intros Hl Hs. revert Hl. destruct Hs as [c st Ha Hc|c st Ha Hc|id r st _ Hw Hr|id st Hat Hw Hp|id st _ Hw|st Ha Hwg|st Ha];
    intros [L S W G R Pw X Cr]; unfold steps_to_exit; cbn [pr_at pr_results pr_workers move]; rewrite ?Ha.
  - rewrite workers_cost_insert; [lia|]. destruct (pr_workers st !! c) eqn:E; [|done].
    specialize (W c ltac:(eauto)). rewrite Ha in W. cbn in W. lia.
  - lia.
  - rewrite length_insert, (workers_cost_delete (<[id := Wrote]> _) id Wrote), (workers_cost_delete _ _ _ Hw), delete_insert_eq by
      apply lookup_insert_eq. lia.
  - destruct (pr_at st) eqn:Ha; [lia|lia| |done..]. exfalso. by rewrite (Pw eq_refl), lookup_empty in Hw.
  - rewrite (workers_cost_delete _ _ _ Hw). lia.
  - lia.
  - lia.
Qed.

Lemma work_possible n st :
  (forall id, (exists r, returns id r) \/ panics id) -> launched n st ->
  (exists code, exit_status (pr_at st) = Some code) \/ exists st', work_step st st'.
Proof.
  intros Hret [L S W G R Pw X Cr].
  assert (Hwork : exit_status (pr_at st) = None -> pr_workers st <> ∅ -> exists st', work_step st st').
  { intros Hat Hne. apply map_choose in Hne as (id & w & Hw). destruct w; [|eexists; by eapply worker_done].
    destruct (Hret id) as [[r Hr]|Hp]; eexists; [by eapply worker_write|by eapply worker_panic]. }
  destruct (pr_at st) as [c| | |code|] eqn:Ha; [right|right|right|left; by exists code|done].
  - destruct (decide (c < length (pr_results st))); eexists; [by eapply main_add|eapply main_launched; [done|lia]].
  - destruct (decide (pr_workers st = ∅)) as [He|Hne]; [|by apply Hwork].
    eexists. apply main_wait; [done|]. by rewrite G, He, map_size_empty.
  - eexists. by apply main_report.
Qed.

Inductive work_steps : nat -> process -> process -> Prop :=
  | work_O st : work_steps 0 st st
  | work_tick k st st1 st2 : work_steps k st st1 -> print_step st1 st2 -> work_steps k st st2
  | work_S k st st1 st2 : work_steps k st st1 -> work_step st1 st2 -> work_steps (S k) st st2.

Lemma work_steps_run k st0 st st' : process_run st0 st -> work_steps k st st' -> process_run st0 st'.
Proof.
  intros H0 Hs. revert H0. induction Hs as [|k st st1 st2 _ IH Hp|k st st1 st2 _ IH Hw]; intros H0; [done| |];
    eapply process_next; try (by apply IH); [by right|by left].
Qed.

Lemma print_steps_left st st' : print_step st st' -> steps_to_exit st' = steps_to_exit st.
Proof. by destruct 1. Qed.

(** The process ends when its workers' runs do, by returning or by a panic: with [n]
    workers, whatever the statistics print in between, it takes at most [3 * n + 3]
    steps to its exit, and until then it can always take one. *)
Theorem main_finishes n live st0 k st :
  (forall id, (exists r, returns id r) \/ panics id) -> launch n live = Some st0 -> work_steps k st0 st ->
  k <= 3 * Z.to_nat n + 3 /\ ((exists code, exit_status (pr_at st) = Some code) \/ exists st', work_step st st').
Proof.
  intros Hret H0 Hs. assert (Hinv : forall st', process_run st0 st' -> launched (Z.to_nat n) st' \/ crashed st')
    by (intros st' Hr; by apply (process_invariant n live st0)).
  assert (Hk : k + steps_to_exit st <= steps_to_exit st0).
  { clear H0. revert Hinv. induction Hs as [|k st st1 st2 Hs IH Hp|k st st1 st2 Hs IH Hw]; intros Hinv; [done| |].
    - rewrite (print_steps_left _ _ Hp). by apply IH.
    - specialize (IH Hinv). destruct (Hinv st1 (work_steps_run _ _ _ _ (process_refl _) Hs)) as [Hl|[Hat _]];
        [|destruct (gone_stays st1 st2 Hat); by left].
      pose proof (work_step_less _ _ _ Hl Hw). lia. }
  split.
  - unfold launch in H0. destruct (n <? 0)%Z; [done|]. injection H0 as <-.
    unfold steps_to_exit in Hk at 2. cbn [pr_at pr_results pr_workers] in Hk. rewrite length_replicate, map_fold_empty in Hk. lia.
  - destruct (Hinv st (work_steps_run _ _ _ _ (process_refl _) Hs)) as [Hl|[Hat _]]; [by eapply work_possible|].
    left. rewrite Hat. by exists 2%Z.
Qed.

End main.

(** ** The whole process over the fleet *)

Section process.
Context {P T : Type} `{PolicyLaws P} `{ColdTier T} (n : nat).


End process.

(** *** Witness: two workers and a tick of the statistics *)

Definition w_returns (id : nat) : run_result -> Prop :=
  worker_result (H := w_fleet_shards) (H1 := least_rand) (fun d => fleet_steps 8 (mk_fleet ∅ NewMemory) d) w_main_traffic 2.
Definition w_panics (id : nat) : Prop :=
  worker_panics (H := w_fleet_shards) (H1 := least_rand) (fun d => fleet_steps 8 (mk_fleet ∅ NewMemory) d) w_main_traffic 2.

Lemma w_worker_returns id : w_returns id w_fleet_worker.
Proof. exact w_fleet_result. Qed.

Definition w_start : process := mk_process (AtLaunch 0) [no_result; no_result] 0 ∅ (Some (mk_printer 0 0)) [].

(** A run goes on with a step, and the state it reaches is put in normal form. *)
Tactic Notation "go_on" hyp(Hr) tactic(step) :=
  let Hn := fresh in
  eassert (Hn : process_run _ _ _ w_start _) by (eapply process_next; [exact Hr|step]); clear Hr; rename Hn into Hr;
  cbv beta iota delta [w_start move pr_at pr_results pr_wg pr_workers pr_printer pr_lines] in Hr;
  change (mk_process (AtLaunch 0) [no_result; no_result] 0 ∅ (Some (mk_printer 0 0)) []) with w_start in Hr.

Lemma w_process_run verify (returns : nat -> run_result -> Prop) (panics : nat -> Prop) r0 r1 :
  returns 0 r0 -> returns 1 r1 ->
  exists st, process_run verify returns panics w_start st
    /\ pr_at st = Exited (exit_code verify [r0; r1]) /\ length (pr_lines st) = 1.
Proof.
  intros H0 H1. pose proof (process_refl verify returns panics w_start) as Hr.
  go_on Hr (left; eapply main_add; [reflexivity|cbn; lia]).
  go_on Hr (left; eapply main_add; [reflexivity|cbn; lia]).
  go_on Hr (left; eapply (worker_write _ _ _ 1); [reflexivity|reflexivity|exact H1]).
  go_on Hr (right; eapply (print_tick (mk_live 3 0 0 0)); reflexivity).
  go_on Hr (left; eapply main_launched; [reflexivity|cbn; lia]).
  go_on Hr (left; eapply (worker_done _ _ _ 1); reflexivity).
  go_on Hr (left; eapply (worker_write _ _ _ 0); [reflexivity|reflexivity|exact H0]).
  go_on Hr (left; eapply (worker_done _ _ _ 0); reflexivity).
  go_on Hr (left; eapply main_wait; reflexivity).
  go_on Hr (left; eapply main_report; reflexivity).
  eexists. split; [exact Hr|]. split; reflexivity.
Qed.

(** A worker that panics takes the process with it, whatever the other has written. *)
Example panic_ends_process (panics : nat -> Prop) r :
  panics 0 -> exists st, process_run true (fun _ x => x = r) panics w_start st /\ exit_status (pr_at st) = Some 2%Z
    /\ forall st', ~ process_step true (fun _ x => x = r) panics st st'.
Proof.
  intros Hp. pose proof (process_refl true (fun _ x => x = r) panics w_start) as Hr.
  go_on Hr (left; eapply main_add; [reflexivity|cbn; lia]).
  go_on Hr (left; eapply main_add; [reflexivity|cbn; lia]).
  go_on Hr (left; eapply (worker_write _ _ _ 1); reflexivity).
  go_on Hr (left; eapply (worker_panic _ _ _ 0); [reflexivity|reflexivity|exact Hp]).
  eexists. split; [exact Hr|]. split; [reflexivity|]. intros st' Hs. by eapply gone_stays; [|exact Hs].
Qed.


Lemma main_finishes_witness :
  exists st', work_step true w_returns w_panics w_start st'.
Proof.
  destruct (main_finishes true w_returns w_panics 2 true w_start 0 w_start
    (fun id => or_introl (ex_intro _ _ (w_worker_returns id))) eq_refl (work_O _ _ _ _)) as [_ [[code Hc]|Hs]]; [discriminate Hc|exact Hs].
Defined.
