(* ===== verification/Failover.v ===== *)
(** Failover: what the replicas are for (ADR 0021, 0026).

    The pieces are elsewhere: the primary queues and forwards its writes
    (Replicator), the replica stores them (Server, Replicas), the ring hands a
    leaver's keys to the next owner (Ring), the router follows the members (Router),
    the client goes on to the next owner on an error (Loadgen).  Here they are put
    together: when a primary dies, the prompts it replicated are still hits, both
    while the clients' rings still name it and after they have dropped it
    ([primary_death_costs_no_hit]). *)

From S2P Require Import Prelude Bytes Sha256 Float64 Blockhash Policy Lru Store ColdTier Server Handlers Ring Router Replicator Replicas Loadgen Workload Run LoadMain System.

(** The streams to one node. *)
Definition to_node (id : string) (dls : list delivery) : list delivery := filter (fun d => dl_id d = id) dls.

(** ** A node that holds a prompt *)

Section holding.
Context {P T : Type} `{EvictionPolicy P} `{ColdTier T} (can_alloc : Z -> bool) (now : Z) (w : workload).
Implicit Types (c : Cluster P T) (st : Store P) (s : Server P T) (ids : list string).

(** The block as the client wrote it, whatever version, tenant and times it has. *)
Definition holds (b : Block) st : Prop :=
  exists e, flat st !! storeKey (model w) (blk_hash b) = Some e
    /\ ModelID e = model w /\ KV e = write_payload w b /\ TokenIDs e = blk_tokens b.
Definition holds_all (blocks : list Block) st : Prop := striped st /\ Forall (fun b => holds b st) blocks.

(** A node of the cluster that does, and one that is gone. *)
Definition keeper (blocks : list Block) (id : string) c : Prop :=
  exists l, nodes c !! id = Some l /\ holds_all blocks (store (live_server l)).
Definition gone (id : string) c : Prop := nodes c !! id = None.

Lemma holds_Peek b st : striped st -> holds b st -> exists e, Peek (model w) (blk_hash b) st = Some e
  /\ KV e = write_payload w b /\ TokenIDs e = blk_tokens b.
Proof.
  intros Hs (e & He & Hm & Hkv & Ht). exists e. split; [|done]. unfold Peek. rewrite <- flat_lookup, He by done.
  by rewrite decide_False by tauto.
Qed.

Lemma holds_Get m h blocks st : holds_all blocks st -> holds_all blocks (Get now m h st).2.
Proof.
  intros [Hs Hb]. pose proof (striped_step (CGet now m h) st Hs) as Hs'. pose proof (flat_step (CGet now m h) st Hs) as [Hf _].
  cbn [store_step FlatStore.step] in *. destruct (Get now m h st) as [o st']. cbn [snd] in *. split; [done|].
  eapply Forall_impl; [exact Hb|]. intros b (e & He & Hr). unfold holds. rewrite Hf. unfold FlatStore.get.
  destruct (flat st !! storeKey m h) as [e0|] eqn:E; [|by exists e]. case_decide; [|by exists e]. cbn [snd].
  destruct (decide (storeKey (model w) (blk_hash b) = storeKey m h)) as [Hk|Hk].
  - rewrite Hk in *. rewrite E in He. injection He as ->. exists (recordAccess now e). by rewrite lookup_insert_eq.
  - exists e. by rewrite lookup_insert_ne.
Qed.

(** *** Its answers *)

Lemma keeper_set blocks ids id s cs c :
  nodes c !! id <> None -> holds_all blocks (store s) -> (forall d, d ∈ ids -> gone d c) ->
  keeper blocks id (set_node id (mk_running s cs) c) /\ forall d, d ∈ ids -> gone d (set_node id (mk_running s cs) c).
Proof.
  intros Hid Hh Hg. split.
  - exists (mk_running s cs). split; [apply lookup_insert_eq|exact Hh].
  - intros d Hd. unfold gone, set_node. cbn [nodes]. rewrite lookup_insert_ne; [by apply Hg|]. intros ->. by apply Hid, Hg.
Qed.

Lemma Lookup_held blocks s :
  holds_all blocks (store s) ->
  let '(bps, s') := Server.Lookup (model w) ((fun b => hash_bytes (blk_hash b)) <$> blocks) s in
  present_run bps = length blocks /\ store s' = store s.
Proof.
  intros [Hs Hb]. revert s Hs Hb. induction blocks as [|b blocks IH]; intros s Hs Hb; [done|].
  apply Forall_cons in Hb as [Hb Hbs]. rewrite fmap_cons. cbn [Server.Lookup].
  destruct (holds_Peek b (store s) Hs Hb) as (e & Hp & _). unfold lookup_one, toBlockHash. rewrite hash32_of_bytes, Hp.
  specialize (IH (note (MHit "lookup") s) Hs Hbs). destruct (Server.Lookup _ _ _) as [bps s'].
  destruct IH as [IH Hst]. cbn. split; [by f_equal|exact Hst].
Qed.

Lemma Fetch_held b blocks s :
  b ∈ blocks -> holds_all blocks (store s) ->
  let '(err, out, s') := Fetch now (model w) (hash_bytes (blk_hash b)) 0 (blk_tokens b) (mk_sink [] None) s in
  err = None /\ mjoin (chunk_data <$> sent out) = write_payload w b /\ holds_all blocks (store s').
Proof.
  intros Hin Hh. pose proof Hh as [Hs Hb]. rewrite Forall_forall in Hb.
  destruct (holds_Peek b (store s) Hs (Hb b Hin)) as (e & Hp & Hkv & Ht). unfold Fetch, toBlockHash. rewrite hash32_of_bytes.
  pose proof (Get_Peek now (model w) (blk_hash b) (store s)) as [Hg _]. rewrite Hp in Hg.
  pose proof (holds_Get (model w) (blk_hash b) blocks (store s) Hh) as Hh'.
  destruct (Get now (model w) (blk_hash b) (store s)) as [o st]. cbn [fst snd] in *. subst o. cbn [fmap option_fmap option_map].
  change (TokenIDs (recordAccess now e)) with (TokenIDs e). rewrite Ht, (bool_decide_eq_true_2 (blk_tokens b = blk_tokens b)) by done.
  rewrite andb_false_r. cbn [Z.eqb negb andb]. change (KV (recordAccess now e)) with (KV e). rewrite Hkv, streamKV_spec, send_all_spec.
  cbn [room sent app]. split_and!; [done|by apply frames_of_data|exact Hh'].
Qed.

Local Instance shards : Shards string (Cluster P T) := direct_shards can_alloc now.

(** A node's own part of a cluster: its tier does not matter to what it holds. *)
Lemma keeper_Lookup blocks ids id c :
  keeper blocks id c -> (forall d, d ∈ ids -> gone d c) ->
  exists bps c', rpc_Lookup id (model w) ((fun b => hash_bytes (blk_hash b)) <$> blocks) c = inr (bps, c')
    /\ present_run bps = length blocks /\ keeper blocks id c' /\ forall d, d ∈ ids -> gone d c'.
Proof.
  intros (l & Hl & Hh) Hg. cbn. unfold direct_Lookup, answer_at, at_node. rewrite Hl. cbn [fmap option_fmap option_map handler].
  rewrite !exec_bind, lookup_exec. pose proof (Lookup_held blocks (live_server (connected (tier c) l)) Hh) as Hlk.
  destruct (Server.Lookup _ _ _) as [bps s']. destruct Hlk as [Hrun Hst]. cbn. eexists _, _. split; [reflexivity|]. split; [exact Hrun|].
  apply keeper_set; [by rewrite Hl|by rewrite Hst|done].
Qed.

Lemma keeper_fetch b blocks ids id c r :
  b ∈ blocks -> keeper blocks id c -> (forall d, d ∈ ids -> gone d c) ->
  verify w = true ->
  exists c', fetch w id b r c = ((true, None), r, c') /\ keeper blocks id c' /\ forall d, d ∈ ids -> gone d c'.
Proof.
  intros Hin (l & Hl & Hh) Hg Hv. unfold fetch. cbn [rpc_Fetch shards direct_shards]. unfold direct_Fetch, answer_at, at_node.
  rewrite Hl. cbn [fmap option_fmap option_map handler]. rewrite !exec_bind, fetch_exec.
  pose proof (Fetch_held b blocks (live_server (connected (tier c) l)) Hin Hh) as Hf.
  destruct (Fetch _ _ _ _ _ _ _) as [[err out] s']. destruct Hf as (-> & Hd & Hh'). cbn.
  rewrite Hv, Hd. unfold write_payload. rewrite Hv, Nat.eqb_refl, equalBytes_spec, bool_decide_eq_true_2 by done. cbn.
  eexists. split; [reflexivity|]. by apply keeper_set; [rewrite Hl| |].
Qed.

(** *** The client *)

Definition count_hits (n : nat) (r : result) : result := Nat.iter n count_hit r.

Lemma keeper_reuse blocks ids id n i c r :
  i + n = length blocks -> verify w = true -> keeper blocks id c -> (forall d, d ∈ ids -> gone d c) ->
  exists c', reuse_loop w id blocks n i r c = (Ok, length blocks, count_hits n r, c')
    /\ keeper blocks id c' /\ forall d, d ∈ ids -> gone d c'.
Proof.
  intros Hi Hv. revert i c r Hi. induction n as [|n IH]; intros i c r Hi Hk Hg.
  - exists c. rewrite <- Hi, Nat.add_0_r. by split.
  - cbn [reuse_loop]. destruct (lookup_lt_is_Some_2 blocks i) as [b Hb]; [lia|]. rewrite Hb.
    destruct (keeper_fetch b blocks ids id c r) as (c1 & -> & Hk1 & Hg1); [by eapply list_elem_of_lookup_2|done..|].
    destruct (IH (S i) c1 (count_hit r)) as (c2 & -> & Hk2 & Hg2); [lia|done..|].
    exists c2. unfold count_hits. by rewrite (Nat.iter_succ_r n).
Qed.

Lemma keeper_request blocks ids id allow root tenant cost c r :
  verify w = true -> keeper blocks id c -> (forall d, d ∈ ids -> gone d c) ->
  exists c', oneRequest w id blocks allow root tenant cost r c = (Ok, count_hits (length blocks) r, c')
    /\ keeper blocks id c' /\ forall d, d ∈ ids -> gone d c'.
Proof.
  intros Hv Hk Hg. unfold oneRequest.
  destruct (keeper_Lookup blocks ids id c Hk Hg) as (bps & c1 & -> & -> & Hk1 & Hg1).
  destruct (keeper_reuse blocks ids id (length blocks) 0 c1 r eq_refl Hv Hk1 Hg1) as (c2 & -> & Hk2 & Hg2).
  exists c2. rewrite drop_all. by destruct allow.
Qed.

Lemma gone_request blocks id allow root tenant cost c r :
  gone id c -> oneRequest w id blocks allow root tenant cost r c = (Err unavailable, r, c).
Proof.
  intros Hg. unfold oneRequest. cbn [rpc_Lookup shards direct_shards]. unfold direct_Lookup, answer_at.
  unfold gone in Hg. by rewrite Hg.
Qed.

(** The owners in turn: those gone fail, the first that holds the prompt serves it
    all, and nothing is written. *)
Lemma keeper_failover blocks dead id rest root tenant cost c r :
  verify w = true -> keeper blocks id c -> (forall d, d ∈ dead -> gone d c) ->
  exists c', oneRequestWithFailover w (dead ++ id :: rest) blocks root tenant cost r c = (Ok, count_hits (length blocks) r, c')
    /\ keeper blocks id c' /\ forall d, d ∈ dead -> gone d c'.
Proof.
  intros Hv Hk Hg. unfold oneRequestWithFailover.
  assert (Hloop : forall l i e, (forall d, d ∈ l -> d ∈ dead) ->
    exists c', failover_loop w i (l ++ id :: rest) blocks root tenant cost e r c = (Ok, count_hits (length blocks) r, c')
      /\ keeper blocks id c' /\ forall d, d ∈ dead -> gone d c').
  { induction l as [|d l IH]; intros i e Hl; cbn [app failover_loop].
    - destruct (keeper_request blocks dead id (i =? 0) root tenant cost c r Hv Hk Hg) as (c' & -> & ?). by exists c'.
    - rewrite gone_request by (apply Hg, Hl; by left). apply IH. intros; apply Hl; by right. }
  by apply Hloop.
Qed.

(** ** A node that has received it *)

(** The streams of some deliveries, complete, as they arrive. *)
Definition receive (dls : list delivery) s : Server P T :=
  fold_left (fun s d => (Replicate can_alloc now (mk_stream (dl_msgs d) true) s).2) dls s.

Lemma receive_whole id cn jobs s :
  receive (to_node id ((fun job => mk_delivery id cn true (job_messages job)) <$> jobs)) s
  = fold_left (fun s job => deliver can_alloc now job s) jobs s.
Proof.
  revert s. induction jobs as [|job jobs IH]; intros s; [done|]. rewrite fmap_cons. unfold to_node. rewrite filter_cons, decide_True by done.
  apply IH.
Qed.

(** The job of a block the primary has stored under a version. *)
Definition job_for (root : list byte) (b : Block) (job : ReplicaJob) : Prop :=
  rj_Hash job = blk_hash b /\ rj_ModelID job = model w /\ rj_KV job = write_payload w b /\ rj_TokenIDs job = blk_tokens b
  /\ rj_RoutingKey job = root /\ rj_Version job <> 0%Z.

(** What the replica may have had before: nothing, or a copy of the same bytes. *)
Definition no_other (b : Block) st : Prop :=
  forall e, flat st !! storeKey (model w) (blk_hash b) = Some e ->
    ModelID e = model w /\ KV e = write_payload w b /\ TokenIDs e = blk_tokens b.

Definition block_key (b : Block) : BlockHash := storeKey (model w) (blk_hash b).

Lemma job_for_key root b job : job_for root b job -> job_key job = block_key b.
Proof. intros (Hh & Hm & _). unfold job_key, block_key. by rewrite Hh, Hm. Qed.

Lemma holds_ext b st st' : flat st !! block_key b = flat st' !! block_key b -> holds b st -> holds b st'.
Proof. intros He (e & Hl & Hr). exists e. split; [|done]. unfold block_key in He. by rewrite <- He. Qed.

(** One delivery: the block is held, other keys are as they were. *)
Lemma deliver_holds root b job s :
  can_alloc (Z.of_nat (payloadBytes w)) = true -> verify w = true ->
  striped (store s) -> no_other b (store s) -> job_for root b job ->
  let s' := deliver can_alloc now job s in
  striped (store s') /\ holds b (store s')
  /\ forall k, k <> block_key b -> flat (store s') !! k = flat (store s) !! k.
Proof.
  intros Ha Hv Hs Hno Hj s'. pose proof (job_for_key _ _ _ Hj) as Hk. destruct Hj as (Hh & Hm & Hkv & Ht & _ & Hver).
  destruct (deliver_flat can_alloc now job s Hs) as [Hs' Hf]. fold s' in Hs', Hf.
  rewrite decide_True in Hf.
  2: { split; [done|]. intros _. rewrite Hkv. unfold write_payload. by rewrite Hv, length_fillVerifiable. }
  unfold FlatStore.put_with_version in Hf. change (storeKey (ModelID (job_entry job)) (rj_Hash job)) with (job_key job) in Hf.
  rewrite Hk in Hf. split; [done|].
  assert (Hnew : holds b (store s') \/ flat (store s') = flat (store s) /\ is_Some (flat (store s) !! block_key b)).
  { destruct (flat (store s) !! block_key b) as [prev|] eqn:E; [case_decide|]; cbn [snd] in Hf; [by right|left..];
      (eexists; split; [rewrite Hf; apply lookup_insert_eq|]); cbn; by rewrite Hm, Hkv, Ht. }
  split.
  - destruct Hnew as [|[Hsame [e He]]]; [done|]. exists e. unfold block_key in He. rewrite Hsame. split; [done|]. by apply Hno.
  - intros k Hne. rewrite Hf. destruct (flat (store s) !! block_key b); [case_decide|]; cbn [snd]; try done; by rewrite lookup_insert_ne.
Qed.

Lemma deliver_prompt root blocks jobs s :
  can_alloc (Z.of_nat (payloadBytes w)) = true -> verify w = true -> NoDup (block_key <$> blocks) ->
  Forall2 (job_for root) blocks jobs -> striped (store s) -> (forall b, b ∈ blocks -> no_other b (store s)) ->
  holds_all blocks (store (fold_left (fun s job => deliver can_alloc now job s) jobs s)).
Proof.
  intros Ha Hv Hnd Hj Hs Hno.
  enough (striped (store (fold_left (fun s job => deliver can_alloc now job s) jobs s))
    /\ (forall k, k ∉ block_key <$> blocks ->
          flat (store (fold_left (fun s job => deliver can_alloc now job s) jobs s)) !! k = flat (store s) !! k)
    /\ Forall (fun b => holds b (store (fold_left (fun s job => deliver can_alloc now job s) jobs s))) blocks) as (? & _ & ?)
    by by split.
  revert s Hs Hno Hnd. induction Hj as [|b job blocks jobs Hb _ IH]; intros s Hs Hno Hnd; [done|].
  rewrite fmap_cons in *. apply NoDup_cons in Hnd as [Hnew Hnd]. cbn [fold_left].
  destruct (deliver_holds root b job s Ha Hv Hs (Hno b ltac:(by left)) Hb) as (Hs1 & Hb1 & Hk1).
  set (s1 := deliver can_alloc now job s) in *. destruct (IH s1 Hs1) as (Hs2 & Hk2 & Hf2); [|done|].
  - intros b' Hb' e He. apply (Hno b'); [by right|]. change (storeKey (model w) (blk_hash b')) with (block_key b') in *.
    rewrite <- Hk1; [done|]. intros E. apply Hnew. rewrite <- E. by apply list_elem_of_fmap_2.
  - split_and!; [done| |].
    + intros k [Hkb Hkn]%not_elem_of_cons. by rewrite Hk2, Hk1.
    + constructor; [|done]. eapply holds_ext; [|exact Hb1]. by rewrite Hk2.
Qed.
End holding.

(** ** The primary's queue, drained *)

(** [n] rounds of [Run], and the streams they open. *)
Fixpoint rounds (net : conn -> peer) (rt : Router) (n : nat) (r : Replicator) : list delivery * Replicator :=
  match n with
  | O => ([], r)
  | S n =>
      let '(o, r) := run_round net rt r in
      let '(dls, r) := rounds net rt n r in
      (match o with Some (_, sent) => sent | None => [] end ++ dls, r)
  end.

(** A peer that takes whole streams. *)
Definition takes_all (p : peer) : Prop := pr_open p = true /\ pr_room p = None /\ pr_ack p = true.

Lemma to_node_app id dls dls' : to_node id (dls ++ dls') = to_node id dls ++ to_node id dls'.
Proof. apply filter_app. Qed.

(** One job goes to the other owner, whole. *)
Lemma forward_to_other net rt job r a b cb :
  self r = a -> rf r = 2%Z -> OwnersN (placement_key job) 2 rt = [a; b] -> a <> b ->
  pool rt !! b = Some cb -> takes_all (net cb) ->
  forward net rt job r = ([mk_delivery b cb true (job_messages job)],
    mk_replicator a 2 (queue r) (repl_metrics r ++ [MReplica "forwarded"])).
Proof.
  intros Ha Hrf Hown Hne Hcb (Ho & Hr & Hk). unfold forward. rewrite Hrf, Hown, Ha. cbn [forward_loop].
  rewrite decide_True by done. rewrite decide_False by (by intros ->). unfold ConnFor. rewrite Hcb.
  rewrite sendOne_spec, Ho, Hr, Hk. done.
Qed.

Lemma rounds_to_other net rt jobs m a b cb :
  (forall job, job ∈ jobs -> OwnersN (placement_key job) 2 rt = [a; b]) -> a <> b ->
  pool rt !! b = Some cb -> takes_all (net cb) ->
  let '(dls, r) := rounds net rt (length jobs) (mk_replicator a 2 jobs m) in
  dls = (fun job => mk_delivery b cb true (job_messages job)) <$> jobs /\ queue r = [].
Proof.
  intros Hown Hne Hcb Ht. revert m Hown. induction jobs as [|job jobs IH]; intros m Hown; [done|].
  cbn [length rounds]. unfold run_round. cbn [queue self rf repl_metrics].
  rewrite (forward_to_other _ _ _ _ a b cb) by (done || apply Hown; by left). cbn [queue repl_metrics].
  specialize (IH (m ++ [MReplica "forwarded"]) ltac:(intros; apply Hown; by right)).
  destruct (rounds _ _ _ _) as [dls r]. destruct IH as [-> Hq]. by split.
Qed.

(** ** The ring without the primary *)

Lemma owners_after_leave `{SortSlice} `{Dialer} rg rt snap a b root :
  router_wf rt -> pool_range_ok rg -> tie_free (Ring.vnodes (ring rt)) (members (ring rt)) ->
  (forall id, id ∈ ID <$> snap <-> id ∈ members (ring rt) /\ id <> a) ->
  OwnersN root 2 rt = [a; b] ->
  let rt' := SetMembers rg snap rt in
  (forall id, id <> a -> pool rt' !! id = pool rt !! id) /\ pool rt' !! a = None
  /\ exists rest, OwnersN root 2 rt' = b :: rest.
Proof.
  intros Hw Hrg Htie Hsnap Hown rt'.
  assert (Hpool : forall id, pool rt' !! id = if decide (id = a) then None else pool rt !! id).
  { intros id. unfold rt'. rewrite set_pool by done. destruct (add_pass_pool snap rt id) as [Hkeep _].
    destruct (decide (id ∈ ID <$> snap)) as [Hin|Hin].
    - apply Hsnap in Hin as [Hin Hne]. rewrite decide_False by done. rewrite (rt_members rt Hw) in Hin.
      apply elem_of_dom in Hin as [cn Hcn]. rewrite Hcn in *. exact Hkeep.
    - case_decide as Ha; [done|]. destruct (pool rt !! id) as [cn|] eqn:E; [|done]. destruct Hin. apply Hsnap.
      split; [|done]. rewrite (rt_members rt Hw). apply elem_of_dom. by eexists. }
  split; [intros id Hne; by rewrite Hpool, decide_False|]. split; [by rewrite Hpool, decide_True|].
  pose proof (router_wf_set rg snap rt Hw) as Hw'. fold rt' in Hw'.
  assert (Hm : members (ring rt') = members (Remove a (ring rt))).
  { rewrite members_remove, (rt_members rt' Hw'), (rt_members rt Hw). apply set_eq. intros id.
    rewrite elem_of_difference, elem_of_singleton, !elem_of_dom, Hpool. case_decide; [|naive_solver].
    split; [by intros []|naive_solver]. }
  assert (Hv : Ring.vnodes (ring rt') = Ring.vnodes (Remove a (ring rt))).
  { assert (Ring.vnodes (ring rt') = Ring.vnodes (ring rt)) as -> by exact (vnodes_router_run rt [(rg, snap)]).
    unfold Remove. by case_decide. }
  assert (Hp : points (ring rt') = points (Remove a (ring rt))).
  { apply points_unique; [apply Hw'|by apply ring_wf_remove, Hw|done|done|]. rewrite Hv, Hm.
    assert (Ring.vnodes (Remove a (ring rt)) = Ring.vnodes (ring rt)) as -> by (unfold Remove; by case_decide).
    rewrite members_remove. intros x y i j Hx Hy. apply Htie; set_solver. }
  unfold OwnersN in *. rewrite LookupN_owners in * by (apply Hw || apply Hw').
  assert (Ho : Ring.owners root (ring rt') = filter (fun y => y <> a) (Ring.owners root (ring rt))).
  { rewrite <- owners_remove by apply Hw. unfold Ring.owners. by rewrite Hp. }
  rewrite Ho. pose proof (NoDup_nub ∅ (vp_node <$> circle (keyHash root) (points (ring rt)))) as Hnd.
  fold (Ring.owners root (ring rt)) in Hnd. change (Z.to_nat 2) with 2 in *.
  destruct (Ring.owners root (ring rt)) as [|x [|y l]]; try done. cbn in Hown. injection Hown as -> ->.
  apply NoDup_cons in Hnd as [Hna _]. rewrite filter_cons, decide_False by tauto.
  rewrite filter_cons, decide_True by (intros ->; apply Hna; by left). by eexists.
Qed.

(** ** The writes at the primary *)

Section writing.
Context {P T : Type} `{EvictionPolicy P} `{ColdTier T} (can_alloc : Z -> bool) (now : Z) (w : workload).
Implicit Types (c : Cluster P T) (s : Server P T).
Local Instance writing_shards : Shards string (Cluster P T) := direct_shards can_alloc now.

(** A write that is acknowledged, of a block that was not there: it is stored and
    its job queued. *)
Lemma acknowledged_job root tenant cost b s resp s' :
  can_alloc (Z.of_nat (payloadBytes w)) = true -> verify w = true -> striped (store s) ->
  flat (store s) !! block_key w b = None ->
  Write can_alloc now (mk_stream (write_messages w b root tenant cost) true) s = (Done resp, s') ->
  striped (store s') /\ (forall k, k <> block_key w b -> flat (store s') !! k = flat (store s) !! k)
  /\ exists job, job_for w root b job /\ repl s' = (fun jobs => jobs ++ [job]) <$> repl s.
Proof.
  intros Ha Hv Hs Hnone. rewrite write_messages_upload. unfold Write.
  rewrite upload_assembles; [|done|].
  2: { intros _. cbn. unfold write_payload. by rewrite Hv, length_fillVerifiable. }
  unfold toBlockHash. cbn [write_header hdr_BlockHash]. rewrite hash32_of_bytes. destruct (OverHardLimit _ _); [done|].
  set (e := header_entry _ _). set (call := CPut now (blk_hash b) (Some e)).
  pose proof (flat_step call (store s) Hs) as [Hf Hver]. pose proof (striped_step call (store s) Hs) as Hs'.
  unfold call in *. cbn [store_step FlatStore.step] in *. destruct (Put now (blk_hash b) (Some e) (store s)) as [ver st].
  unfold FlatStore.put in *. change (storeKey (ModelID e) (blk_hash b)) with (block_key w b) in *. rewrite Hnone in *.
  cbn [fst snd] in *. injection (Hver _ eq_refl) as ->. intros [= <- <-]. cbn [store repl]. split; [done|]. split.
  - intros k Hne. rewrite Hf. by rewrite lookup_insert_ne.
  - eexists. split; [|done]. by split_and!.
Qed.

Lemma acknowledged_jobs root tenant cost a blocks r c r' c' l old :
  can_alloc (Z.of_nat (payloadBytes w)) = true -> verify w = true -> NoDup (block_key w <$> blocks) ->
  nodes c !! a = Some l -> striped (store (live_server l)) -> repl (live_server l) = Some old ->
  (forall b, b ∈ blocks -> flat (store (live_server l)) !! block_key w b = None) ->
  write_loop w a blocks root tenant cost r c = (Ok, r', c') ->
  exists l' jobs, nodes c' !! a = Some l' /\ repl (live_server l') = Some (old ++ jobs) /\ Forall2 (job_for w root) blocks jobs.
Proof.
  intros Ha Hv. revert r c l old. induction blocks as [|b blocks IH]; intros r c l old Hnd Hl Hs Hold Hnone; cbn [write_loop].
  { intros [= <- <-]. exists l, []. by rewrite app_nil_r. }
  rewrite fmap_cons in Hnd. apply NoDup_cons in Hnd as [Hnew Hnd]. unfold write. cbn [rpc_Write writing_shards direct_shards].
  unfold direct_Write, answer_at, at_node. rewrite Hl. cbn [fmap option_fmap option_map handler]. rewrite !exec_bind, write_exec.
  pose proof (acknowledged_job root tenant cost b (live_server (connected (tier c) l))) as Hack.
  destruct (Write _ _ _ _) as [[resp|e|] s']; try done. cbn.
  destruct (Hack resp s' Ha Hv Hs (Hnone b ltac:(by left)) eq_refl) as (Hs1 & Hk1 & job & Hjob & Hrepl).
  cbn in Hrepl. rewrite Hold in Hrepl. cbn in Hrepl. intros Hloop.
  destruct (IH (count_write r) (set_node a (mk_running s' (live_calls l)) c) (mk_running s' (live_calls l)) (old ++ [job]) Hnd (lookup_insert_eq _ _ _) Hs1 Hrepl)
    as (l' & jobs & Hl' & Hr' & Hf'); [|exact Hloop|].
  - intros b' Hb'. cbn. rewrite Hk1; [by apply Hnone; right|]. intros E. apply Hnew. rewrite <- E. by apply list_elem_of_fmap_2.
  - exists l', (job :: jobs). split; [done|]. split; [by rewrite Hr', <- app_assoc|by constructor].
Qed.
End writing.

(** ** Properties *)

Section failover.
Context {P T : Type} `{EvictionPolicy P} `{ColdTier T} {So : SortSlice} {Di : Dialer}.
Context (can_alloc : Z -> bool) (now : Z) (w : workload) (Hv : verify w = true).
Context (Halloc : can_alloc (Z.of_nat (payloadBytes w)) = true).
Local Instance failover_shards : Shards string (Cluster P T) := direct_shards can_alloc now.

(** A prompt, no two blocks of which share a store key. *)
Context (root : list byte) (blocks : list Block) (Hroot : root <> []) (Hkeys : NoDup (block_key w <$> blocks)).

(** A client's router and the primary's, driven to the same members; the root's
    owners are [a] and [b]. *)
Context (vnodes : Z) (r0 : Router) (Hnew : Router.New vnodes = Some r0).
Context (calls : list (PoolRange * list Member)) (S' : SortSlice) (D' : Dialer) (calls' : list (PoolRange * list Member)).
Let rt : Router := @router_run So Di r0 calls.
Let rt_a : Router := @router_run S' D' r0 calls'.
Context (Hsame : dom (pool rt_a) = dom (pool rt)) (Htie : tie_free (Ring.vnodes (ring rt)) (dom (pool rt))).
Context (a b : string) (Howners : OwnersN root 2 rt = [a; b]).

(** A client's stores at [a], which had none of the blocks and nothing queued, were
    all acknowledged; [la'] is the node then. *)
Context (tenant : string) (cost : float64) (res res1 : result) (c0 c1 : Cluster P T) (la la' : Live P T).
Context (Hla : nodes c0 !! a = Some la) (Hla_wf : striped (store (live_server la))).
Context (Hla_jobs : repl (live_server la) = Some []).
Context (Hla_none : forall blk, blk ∈ blocks -> flat (store (live_server la)) !! block_key w blk = None).
Context (Hstored : write_loop w a blocks root tenant cost res c0 = (Ok, res1, c1)) (Hla' : nodes c1 !! a = Some la').

(** [a]'s replicator has drained the jobs, and its streams to [b], which had no
    other bytes for the blocks, arrived. *)
Context (net : conn -> peer) (cb : conn) (m : list metric) (sb : Server P T).
Context (Hcb : pool rt_a !! b = Some cb) (Hnet : takes_all (net cb)).
Context (Hsb_wf : striped (store sb)) (Hsb : forall blk, blk ∈ blocks -> no_other w blk (store sb)).
Let jobs : list ReplicaJob := default [] (repl (live_server la')).
Let sb' : Server P T := receive can_alloc now (to_node b (rounds net rt_a (length jobs) (mk_replicator a 2 jobs m)).1) sb.

Lemma failover_owners : a <> b /\ OwnersN root 2 rt_a = [a; b].
Proof.
  assert (Hw : router_wf rt) by by apply router_wf_run, (router_wf_new vnodes).
  split.
  - intros ->. unfold OwnersN in Howners. rewrite LookupN_owners in Howners by apply Hw.
    pose proof (NoDup_nub ∅ (vp_node <$> circle (keyHash root) (points (ring rt)))) as Hnd.
    fold (Ring.owners root (ring rt)) in Hnd. change (Z.to_nat 2) with 2 in *.
    destruct (Ring.owners root (ring rt)) as [|x [|y l]]; try done. cbn in Howners. injection Howners as -> ->.
    apply NoDup_cons in Hnd as [Hn _]. by apply Hn; left.
  - rewrite <- Howners. apply (@routers_agree So Di vnodes r0 Hnew calls S' D' calls' root 2); done.
Qed.

(** The replica holds the prompt. *)
Lemma replica_holds : holds_all w blocks (store sb').
Proof.
  destruct failover_owners as [Hne Hown].
  destruct (acknowledged_jobs can_alloc now w root tenant cost a blocks res c0 res1 c1 la [] Halloc Hv Hkeys Hla Hla_wf Hla_jobs Hla_none Hstored)
    as (l' & js & Hl' & Hr' & Hjobs).
  rewrite Hla' in Hl'. injection Hl' as <-. cbn in Hr'. unfold sb', jobs. rewrite Hr'. cbn [default from_option id].
  pose proof (rounds_to_other net rt_a js m a b cb) as Hrounds.
  destruct (rounds net rt_a (length js) (mk_replicator a 2 js m)) as [dls r]. destruct Hrounds as [-> _]; try done.
  { assert (Hrk : Forall (fun job => rj_RoutingKey job = root) js).
    { eapply Forall2_Forall_r; [exact Hjobs|]. apply Forall_true. by intros blk job (_ & _ & _ & _ & Hrk & _). }
    rewrite Forall_forall in Hrk. intros job Hin. unfold placement_key. rewrite (Hrk job Hin). by destruct root. }
  cbn [fst]. rewrite receive_whole. by apply (deliver_prompt _ _ _ root).
Qed.

(** The primary dies; a client asks for the prompt. *)
Context (c : Cluster P T) (cs : gmap nat call) (r : result).
Context (Hdead : nodes c !! a = None) (Hb : nodes c !! b = Some (mk_running sb' cs)).

(** A connection reaches the node it was dialed for. *)
Context (service : conn -> string) (Hservice : forall id cn, pool rt !! id = Some cn -> service cn = id).

(** The membership without the primary, as a snapshot. *)
Context (rg : PoolRange) (Hrg : pool_range_ok rg) (snap : list Member).
Context (Hsnap : forall id, id ∈ ID <$> snap <-> id ∈ members (ring rt) /\ id <> a).

(** C5. The primary's death costs no hit: with the prompt stored at [a], acknowledged and
    replicated to [b] as above, and [a] dead, a client that asks for the prompt hits
    on every block, with no write, no violation and no error, whether its ring still
    has [a] first or its router has followed the members to the ring without it. *)
Theorem primary_death_costs_no_hit rt' :
  rt' = rt \/ rt' = @SetMembers So Di rg snap rt ->
  exists r' c', oneRequestWithFailover w (service <$> OwnerConns root 2 rt') blocks root tenant cost r c = (Ok, r', c')
    /\ hits r' = (hits r + Z.of_nat (length blocks))%Z
    /\ writes r' = writes r /\ violations r' = violations r /\ errors r' = errors r.
Proof.
  intros Hrt'.
  assert (Hw : router_wf rt) by by apply router_wf_run, (router_wf_new vnodes).
  assert (Hconns : exists dead rest, service <$> OwnerConns root 2 rt' = dead ++ b :: rest /\ forall d, d ∈ dead -> gone d c).
  { assert (Hpool : forall id, id ∈ OwnersN root 2 rt -> exists cn, pool rt !! id = Some cn /\ service cn = id).
    { intros id Hid. unfold OwnersN in Hid. rewrite LookupN_owners in Hid by apply Hw. apply subseteq_take in Hid.
      apply elem_of_owners in Hid; [|apply Hw]. rewrite (rt_members rt Hw) in Hid. apply elem_of_dom in Hid as [cn Hcn].
      exists cn. split; [done|by apply Hservice]. }
    rewrite Howners in Hpool. destruct failover_owners as [Hne _].
    destruct (Hpool a) as (ca & Hca & Hsa); [by left|]. destruct (Hpool b) as (cb' & Hcb' & Hsb'); [by right; left|].
    destruct Hrt' as [->| ->].
    - exists [a], []. unfold OwnersN in Howners. unfold OwnerConns. rewrite Howners. cbn. rewrite Hca. cbn. rewrite Hcb'. cbn.
      rewrite Hsa, Hsb'. split; [done|]. by intros d ->%list_elem_of_singleton.
    - destruct (@owners_after_leave So Di rg rt snap a b root Hw Hrg) as (Hkeep & _ & rest & Hrest); [by rewrite (rt_members rt Hw)|done|done|].
      unfold OwnersN in Hrest. unfold OwnerConns. rewrite Hrest. cbn [omap list_omap]. rewrite Hkeep, Hcb' by congruence.
      exists [], (service <$> omap (fun id => pool (@SetMembers So Di rg snap rt) !! id) rest). cbn. rewrite Hsb'. split; [done|].
      by intros d ?%elem_of_nil. }
  destruct Hconns as (dead & rest & -> & Hgone).
  destruct (keeper_failover can_alloc now w blocks dead b rest root tenant cost c r Hv) as (c' & Hserved & _ & _); [|done|].
  - eexists. split; [exact Hb|exact replica_holds].
  - exists (count_hits (length blocks) r), c'. split; [exact Hserved|]. unfold count_hits. clear. induction (length blocks) as [|n IH].
    + cbn. split_and!; (done || lia).
    + destruct IH as (? & ? & ? & ?). change (Nat.iter (S n) count_hit r) with (count_hit (Nat.iter n count_hit r)).
      cbn [count_hit hits writes violations errors]. split_and!; (done || lia).
Qed.
End failover.

(** ** Witnesses *)

(** Two nodes; the prompt of one block belongs to the first. *)
Definition w_pair : list Member := [mk_member "shard-0" "10.0.0.1:50051"; mk_member "shard-1" "10.0.0.2:50051"].
Abbreviation w_two := (@router_run merge_SortSlice w_dialer w_router0 [(w_range, w_pair)]).
Definition w_root : list byte := hash_bytes hash32_zero.
Definition w_fresh : Server LRUPolicy Memory := boot NewLRU [] true None.
Definition w_both : Cluster LRUPolicy Memory :=
  set_node "shard-0" (mk_running w_fresh ∅) (set_node "shard-1" (mk_running w_fresh ∅) (mk_cluster ∅ NewMemory)).
Definition w_service (cn : conn) : string := if String.eqb (conn_target cn) "10.0.0.1:50051" then "shard-0" else "shard-1".

(** The prompt stored at the first node, its replication to the second, and the
    cluster without the first. *)
Definition w_store_run : ending * result * Cluster LRUPolicy Memory :=
  @write_loop _ _ (direct_shards (fun _ => true) 1) w_load "shard-0" w_prompt w_root "" f64_0 zero_result w_both.
Definition w_primary_live : Live LRUPolicy Memory :=
  match nodes w_store_run.2 !! "shard-0"%string with Some l => l | None => mk_running w_fresh ∅ end.
Definition w_peers (_ : conn) : peer := mk_peer true None true.
Definition w_replica : Server LRUPolicy Memory :=
  receive (fun _ => true) 1
    (to_node "shard-1" (rounds w_peers w_two (length (default [] (repl (live_server w_primary_live))))
       (mk_replicator "shard-0" 2 (default [] (repl (live_server w_primary_live))) [])).1) w_fresh.
Definition w_survivor : Cluster LRUPolicy Memory := set_node "shard-1" (mk_running w_replica ∅) (mk_cluster ∅ NewMemory).

Lemma w_two_pool : pool w_two = {["shard-0" := mk_conn 0 "10.0.0.1:50051"; "shard-1" := mk_conn 1 "10.0.0.2:50051"]}.
Proof. vm_compute. reflexivity. Qed.

Lemma w_two_dom : dom (pool w_two) = {["shard-0"; "shard-1"]}.
Proof. rewrite w_two_pool. set_solver. Qed.

Lemma w_two_members : members (ring w_two) = {["shard-0"; "shard-1"]}.
Proof. vm_compute. reflexivity. Qed.

Lemma w_two_vnodes : Ring.vnodes (ring w_two) = 2.
Proof. vm_compute. reflexivity. Qed.

Lemma w_two_hashes :
  (vnodeHash "shard-0" 0 = 12522712259342955944 /\ vnodeHash "shard-0" 1 = 14459012269688065498
  /\ vnodeHash "shard-1" 0 = 16984313185495966223 /\ vnodeHash "shard-1" 1 = 13959043371332875598)%Z.
Proof. split_and!; vm_compute; reflexivity. Qed.

Lemma w_two_tie_free : tie_free 2 {["shard-0"; "shard-1"]}.
Proof.
  pose proof w_two_hashes as (H0 & H1 & H2 & H3).
  intros x y i j Hx Hy Hi Hj. rewrite !elem_of_union, !elem_of_singleton in Hx, Hy.
  assert (Hi' : i = 0 \/ i = 1) by (clear -Hi; lia). assert (Hj' : j = 0 \/ j = 1) by (clear -Hj; lia).
  destruct Hx as [->| ->], Hy as [->| ->]; intros E; [reflexivity|exfalso|exfalso|reflexivity];
    destruct Hi' as [->| ->], Hj' as [->| ->]; rewrite ?H0, ?H1, ?H2, ?H3 in E; discriminate E.
Qed.

Lemma w_two_tie : tie_free (Ring.vnodes (ring w_two)) (dom (pool w_two)).
Proof. rewrite w_two_dom, w_two_vnodes. exact w_two_tie_free. Qed.

Lemma w_stored : w_store_run = (Ok, w_store_run.1.2, w_store_run.2).
Proof.
  assert (H0 : (match w_store_run.1.1 with Ok => true | _ => false end) = true) by (vm_compute; reflexivity).
  destruct w_store_run as [[[|e|] res] c]; [reflexivity|discriminate H0|discriminate H0].
Qed.

Lemma w_primary_there : nodes w_store_run.2 !! "shard-0"%string = Some w_primary_live.
Proof.
  assert (H0 : (match nodes w_store_run.2 !! "shard-0"%string with Some _ => true | None => false end) = true) by (vm_compute; reflexivity).
  unfold w_primary_live. destruct (nodes w_store_run.2 !! "shard-0"%string); [reflexivity|discriminate H0].
Qed.

Lemma w_fresh_none k : flat (store w_fresh) !! k = None.
Proof. change (store w_fresh) with (NewStore NewLRU []). by rewrite flat_new, lookup_empty. Qed.

Lemma w_fresh_striped : striped (store w_fresh).
Proof. apply (store_wf_new NewLRU []). Qed.

Lemma primary_death_costs_no_hit_witness :
  exists r' c', @oneRequestWithFailover _ _ (direct_shards (fun _ => true) 1) w_load
      (w_service <$> OwnerConns w_root 2 w_two) w_prompt w_root "" f64_0 zero_result w_survivor = (Ok, r', c')
    /\ hits r' = 1%Z /\ writes r' = 0%Z.
Proof.
  destruct (primary_death_costs_no_hit (So := merge_SortSlice) (Di := w_dialer) (fun _ => true) 1 w_load eq_refl eq_refl w_root w_prompt) with
    (vnodes := 2%Z) (r0 := w_router0) (calls := [(w_range, w_pair)]) (S' := merge_SortSlice) (D' := w_dialer)
    (calls' := [(w_range, w_pair)]) (a := "shard-0"%string) (b := "shard-1"%string) (tenant := ""%string) (cost := f64_0)
    (res := zero_result) (res1 := w_store_run.1.2) (c0 := w_both) (c1 := w_store_run.2) (la := mk_running w_fresh ∅)
    (la' := w_primary_live) (net := w_peers) (cb := mk_conn 1 "10.0.0.2:50051") (m := [] : list metric) (sb := w_fresh)
    (c := w_survivor) (cs := ∅ : gmap nat call) (r := zero_result) (service := w_service) (rg := w_range)
    (snap := [mk_member "shard-1" "10.0.0.2:50051"]) (rt' := w_two) as (r' & c' & Hr & Hh & Hw & _).
  - discriminate.
  - apply NoDup_singleton.
  - reflexivity.
  - reflexivity.
  - exact w_two_tie.
  - vm_compute. reflexivity.
  - reflexivity.
  - exact w_fresh_striped.
  - reflexivity.
  - intros blk _. apply w_fresh_none.
  - exact w_stored.
  - exact w_primary_there.
  - rewrite w_two_pool. reflexivity.
  - split_and!; reflexivity.
  - exact w_fresh_striped.
  - intros blk _ e He. rewrite w_fresh_none in He. discriminate.
  - reflexivity.
  - reflexivity.
  - intros id cn Hcn. rewrite w_two_pool in Hcn.
    apply lookup_insert_Some in Hcn as [[<- <-]|[_ [<- <-]%lookup_singleton_Some]]; reflexivity.
  - exact w_range_ok.
  - intros id. rewrite w_two_members. set_solver.
  - left. reflexivity.
  - exists r', c'. split; [exact Hr|]. split; [exact Hh|exact Hw].
Defined.
