(* ===== verification/Node.v ===== *)
(** The server program: [src/cmd/cache-server/main.go].

    The flags, the tenant quotas they carry, the eviction policy they choose, the
    node that start-up builds out of the components and the order in which
    shutdown takes it down.  Flag parsing by the [flag] package, logging, the
    metrics endpoint and the sockets are left out; what etcd, S3 and the listener
    answer is the environment's choice. *)

From Stdlib Require Import Ascii.
From S2P Require Import Prelude Text Bytes Float64 Policy Lru Gdsf GdsfInv GdsfRefine Store Evictor ColdTier Server Ring Router Coord Replicator.

(** ** The eviction policy chosen at run time *)

(** The dynamic types a [cache.EvictionPolicy] has in this program. *)
Inductive AnyPolicy := PLru (p : LRUPolicy) | PGdsf (p : GDSFPolicy).

(** A method call on the interface value. *)
#[export] Instance any_policy : EvictionPolicy AnyPolicy := {|
  RecordAccess k p := match p with PLru p => PLru (RecordAccess k p) | PGdsf p => PGdsf (RecordAccess k p) end;
  RecordWrite m p := match p with PLru p => PLru (RecordWrite m p) | PGdsf p => PGdsf (RecordWrite m p) end;
  RecordEvict k p := match p with PLru p => PLru (RecordEvict k p) | PGdsf p => PGdsf (RecordEvict k p) end;
  Victim o p :=
    match p with
    | PLru p => let '(v, p) := Victim o p in (v, PLru p)
    | PGdsf p => let '(v, p) := Victim o p in (v, PGdsf p)
    end;
  OverQuota := Some (fun p => match p with PLru p => over_quota p | PGdsf p => over_quota p end);
|}.

#[export] Instance any_laws : PolicyLaws AnyPolicy.
Proof.
  refine {|
    pol_inv p := match p with PLru p => pol_inv p | PGdsf p => pol_inv p end;
    tracked p := match p with PLru p => tracked p | PGdsf p => tracked p end;
    order_ok o p := match p with PLru p => order_ok o p | PGdsf p => order_ok o p end |}.
  - intros k [p|p]; [apply (law_access k p)|apply (law_access k p)].
  - intros m [p|p]; [apply (law_write m p)|apply (law_write m p)].
  - intros k [p|p]; [apply (law_evict k p)|apply (law_evict k p)].
  - intros o [p|p] Hp; pose proof (law_ask o p Hp) as Hl;
      [change (Victim o (PLru p)) with (let '(v, p) := Victim o p in (v, PLru p))
      |change (Victim o (PGdsf p)) with (let '(v, p) := Victim o p in (v, PGdsf p))];
      destruct (Victim o p) as [v q]; exact Hl.
  - intros o [p|p] Hp Ho; pose proof (law_victim o p Hp Ho) as Hl;
      [change (Victim o (PLru p)) with (let '(v, p) := Victim o p in (v, PLru p))
      |change (Victim o (PGdsf p)) with (let '(v, p) := Victim o p in (v, PGdsf p))];
      destruct (Victim o p) as [v q]; exact Hl.
  - intros [p|p]; [apply (law_quota p)|apply (law_quota p)].
Defined.

(** ** Flags *)

Record flags := mk_flags {
  addr : string;
  advertise : string;
  etcdEndpoints : string;
  nodeID : string;
  leaseTTL : Z;
  rf : Z;
  spotWatch : bool;
  maxBytes : Z;
  fl_hiWater : float64;
  fl_loWater : float64;
  fl_ttl : Z;
  evictSweep : Z;
  eviction : string;
  tenantQuota : string;
  fairnessWeight : float64;
  metricsAddr : string;
  coldBucket : string;
}.

Definition ringVnodes : Z := 128.

Inductive quota_error := BadEntry (p : string) | BadQuota (k v : string).

(** The loop of [parseTenantQuotas] over the pairs. *)
Fixpoint parse_pairs (pairs : list string) (out : gmap string Z) : quota_error + gmap string Z :=
  match pairs with
  | [] => inr out
  | p :: pairs =>
      let '(k, v, ok) := Cut (TrimSpace p) equals in
      let k := TrimSpace k in
      if negb ok || bool_decide (k = ""%string) then inl (BadEntry p)
      else
        match ParseInt (TrimSpace v) with
        | None => inl (BadQuota k v)
        | Some n => if (n <=? 0)%Z then inl (BadQuota k v) else parse_pairs pairs (<[k := n]> out)
        end
  end.

(** [parseTenantQuotas]; a nil map is the empty map. *)
Definition parseTenantQuotas (s : string) : quota_error + gmap string Z :=
  let s := TrimSpace s in
  if bool_decide (s = ""%string) then inr ∅ else parse_pairs (Split s comma) ∅.

(** How an operator writes quotas down. *)
Definition quota_pair (q : string * Z) : string :=
  String.string_of_list_ascii (String.list_ascii_of_string q.1 ++ equals :: decimal q.2).
Definition quota_flag (qs : list (string * Z)) : string := join comma (quota_pair <$> qs).

(** A tenant name that can be written in the flag. *)
Definition tenant_name (k : string) : Prop := word k /\ equals ∉ String.list_ascii_of_string k.

(** ** Start-up *)

(** What the outside answers during start-up. *)
Record environment := mk_environment {
  s3_ok : bool;
  dial_ok : bool;
  lease : option Z;
  put_ok : bool;
  keepalive_ok : bool;
  watch_ok : bool;
  listen_ok : bool;
}.

(** The ways [main] ends in [log.Fatalf]. *)
Inductive fatal :=
  | FatalWatermarks | FatalColdTier | FatalQuota (e : quota_error) | FatalEviction
  | FatalDial | FatalRegister (e : register_error) | FatalWatch | FatalListen.

(** [0 < lo < hi <= 1], the test on the two flags. *)
Definition watermarks_ok (hi lo : float64) : bool :=
  f64_gtb hi f64_0 && f64_leb hi f64_1 && f64_gtb lo f64_0 && f64_ltb lo hi.

(** The switch on [-eviction]. *)
Definition choose_policy (fl : flags) : fatal + AnyPolicy :=
  if String.eqb (eviction fl) "lru" then inr (PLru NewLRU)
  else if String.eqb (eviction fl) "gdsf" then
    match parseTenantQuotas (tenantQuota fl) with
    | inl e => inl (FatalQuota e)
    | inr quotas => inr (PGdsf (NewGDSF quotas))
    end
  else if String.eqb (eviction fl) "gdsf-elastic" then
    match parseTenantQuotas (tenantQuota fl) with
    | inl e => inl (FatalQuota e)
    | inr quotas => inr (PGdsf (NewGDSFElastic quotas (fairnessWeight fl)))
    end
  else inl FatalEviction.

Definition advertised (fl : flags) : string :=
  if bool_decide (advertise fl = ""%string) then addr fl else advertise fl.
Definition node_id (fl : flags) : string :=
  if bool_decide (nodeID fl = ""%string) then advertised fl else nodeID fl.

Definition has_cold (fl : flags) : bool := bool_decide (coldBucket fl <> ""%string).
Definition store_options (fl : flags) : list StoreOption :=
  [WithMaxBytes (maxBytes fl); WithWatermarks (fl_hiWater fl) (fl_loWater fl)]
  ++ (if has_cold fl then [WithSpiller] else []).

(** A running node: its handlers over its store, the evictor, and what it needs in
    a cluster. *)
Record node (T : Type) := mk_node {
  nd_id : string;
  nd_adv : string;
  nd_server : Server AnyPolicy T;
  nd_evictor : Evictor;
  nd_repl : option (Router * Replicator);
  nd_release : option releaser;
}.
#[global] Arguments mk_node {T}.
#[global] Arguments nd_id {T}.
#[global] Arguments nd_adv {T}.
#[global] Arguments nd_server {T}.
#[global] Arguments nd_evictor {T}.
#[global] Arguments nd_repl {T}.
#[global] Arguments nd_release {T}.

(** The etcd block: the release function, the replicator, and the calls made. *)
Definition join_cluster (e : environment) (fl : flags) :
    (fatal + option releaser * option (Router * Replicator)) * list etcd_call :=
  if bool_decide (etcdEndpoints fl = ""%string) then (inr (None, None), [])
  else if negb (dial_ok e) then (inl FatalDial, [])
  else
    let '(r, calls) := Coord.Register (node_id fl) (advertised fl) (leaseTTL fl) (lease e) (put_ok e) (keepalive_ok e) in
    match r with
    | inl err => (inl (FatalRegister err), calls)
    | inr rel =>
        if (1 <? rf fl)%Z then
          if watch_ok e then
            (inr (Some rel, (fun rt => (rt, NewReplicator (node_id fl) (rf fl))) <$> Router.New ringVnodes), calls)
          else (inl FatalWatch, calls)
        else (inr (Some rel, None), calls)
    end.

(** [main] up to the point where it waits for a signal; [t] is the cold tier. *)
Definition startup {T} (e : environment) (fl : flags) (t : T) : (fatal + node T) * list etcd_call :=
  if (0 <? maxBytes fl)%Z && negb (watermarks_ok (fl_hiWater fl) (fl_loWater fl)) then (inl FatalWatermarks, [])
  else if has_cold fl && negb (s3_ok e) then (inl FatalColdTier, [])
  else
    match choose_policy fl with
    | inl f => (inl f, [])
    | inr p =>
        let st := NewStore p (store_options fl) in
        let ev := NewEvictor (fl_ttl fl) (evictSweep fl) true in
        let '(joined, calls) := join_cluster e fl in
        match joined with
        | inl f => (inl f, calls)
        | inr (rel, repl) =>
            let srv := match repl with Some _ => NewWithReplicator st | None => Server.New st end in
            let srv := if has_cold fl then WithColdReader (Some t) srv else srv in
            if listen_ok e then (inr (mk_node (node_id fl) (advertised fl) srv ev repl rel), calls)
            else (inl FatalListen, calls)
        end
    end.

(** ** The quotas flag *)

Lemma quota_pair_trimmed k n :
  tenant_name k -> (0 < n)%Z -> trimmed (String.list_ascii_of_string (quota_pair (k, n))).
Proof.
  intros [(_ & Hk & _) _] Hn. unfold quota_pair. rewrite String.list_ascii_of_string_of_list_ascii. cbn [fst snd].
  destruct (decimal_last n Hn) as (l & d & -> & Hd). apply trimmed_pair; [done| |done].
  unfold printable, equals, char. rewrite nat_ascii_embedding; lia.
Qed.

Lemma decimal_no c n : (0 < n)%Z -> digit c = None -> c ∉ decimal n.
Proof. intros Hn Hc Hin. destruct (decimal_spec n Hn) as (_ & Hd & _). destruct (Hd c Hin). congruence. Qed.

Lemma parse_pair_step k n pairs out :
  tenant_name k -> (0 < n < 2 ^ 63)%Z ->
  parse_pairs (quota_pair (k, n) :: pairs) out = parse_pairs pairs (<[k := n]> out).
Proof.
  intros Hk Hn. cbn [parse_pairs]. rewrite (TrimSpace_fix (quota_pair (k, n))) by (apply quota_pair_trimmed; [done|lia]).
  destruct Hk as [(Hne & Ht & _) Heq]. unfold Cut, quota_pair at 1.
  rewrite String.list_ascii_of_string_of_list_ascii. cbn [fst snd].
  rewrite cut_chars_word by done. rewrite String.string_of_list_ascii_of_string, TrimSpace_fix by done.
  rewrite bool_decide_eq_false_2 by done. cbn [negb orb].
  rewrite TrimSpace_fix by (rewrite String.list_ascii_of_string_of_list_ascii; apply decimal_trimmed; lia).
  rewrite ParseInt_decimal by lia. by rewrite (proj2 (Z.leb_gt n 0)) by lia.
Qed.

Lemma parse_pairs_quotas qs out :
  Forall (fun q => tenant_name q.1 /\ (0 < q.2 < 2 ^ 63)%Z) qs ->
  parse_pairs (quota_pair <$> qs) out = inr (fold_left (fun m q => <[q.1 := q.2]> m) qs out).
Proof.
  revert out. induction qs as [|[k n] qs IH]; intros out Hq; [done|].
  apply Forall_cons in Hq as [[Hk Hn] Hq]. change (quota_pair <$> (k, n) :: qs) with (quota_pair (k, n) :: (quota_pair <$> qs)).
  rewrite parse_pair_step by done. by apply IH.
Qed.

Lemma insert_fold_list_to_map (qs : list (string * Z)) (m : gmap string Z) :
  NoDup qs.*1 -> (forall k, k ∈ qs.*1 -> m !! k = None) ->
  fold_left (fun m q => <[q.1 := q.2]> m) qs m = list_to_map qs ∪ m.
Proof.
  revert m. induction qs as [|[k n] qs IH]; intros m Hd Hm.
  - cbn. by rewrite (left_id_L ∅ (∪)).
  - cbn [fmap list_fmap fst] in Hd, Hm. apply NoDup_cons in Hd as [Hk Hd]. cbn [fold_left list_to_map foldr fst snd].
    rewrite IH; [| done |].
    + assert (E : (list_to_map qs : gmap string Z) !! k = None) by (by apply not_elem_of_list_to_map_1).
      rewrite <- insert_union_l, insert_union_r by done. done.
    + intros k' Hk'. rewrite lookup_insert_ne by (by intros ->). apply Hm. by right.
Qed.

Lemma quota_flag_words qs :
  Forall (fun q => tenant_name q.1 /\ (0 < q.2 < 2 ^ 63)%Z) qs ->
  forall s, s ∈ quota_pair <$> qs -> trimmed (String.list_ascii_of_string s) /\ comma ∉ String.list_ascii_of_string s.
Proof.
  rewrite Forall_forall. intros Hq s ([k n] & -> & Hin)%list_elem_of_fmap.
  destruct (Hq _ Hin) as [Hk Hn]. cbn [fst snd] in *. split; [apply quota_pair_trimmed; [done|lia]|].
  unfold quota_pair. rewrite String.list_ascii_of_string_of_list_ascii. cbn [fst snd].
  destruct Hk as [(_ & _ & Hc) _]. intros [?|[?|?]%elem_of_cons]%elem_of_app; [done|done|].
  by apply (decimal_no comma n ltac:(lia)).
Qed.

(** The quotas the flag can express. *)
Definition quotas_valid (m : gmap string Z) : Prop :=
  forall k q, m !! k = Some q -> tenant_name k /\ (0 < q < 2 ^ 63)%Z.

Lemma TrimSpace_quota_flag qs :
  Forall (fun q => tenant_name q.1 /\ (0 < q.2 < 2 ^ 63)%Z) qs -> TrimSpace (quota_flag qs) = quota_flag qs.
Proof.
  intros Hq. apply TrimSpace_fix. unfold quota_flag, join. rewrite String.list_ascii_of_string_of_list_ascii.
  destruct qs as [|q qs]; [split; intros w Hw Hp; apply prefix_nil_inv in Hp as ->; by apply white_nonempty in Hw|].
  cbn [fmap list_fmap]. apply trimmed_join.
  - unfold printable, comma, char. rewrite nat_ascii_embedding; lia.
  - intros x Hx. rewrite <- !fmap_cons in Hx. apply list_elem_of_fmap in Hx as (s & -> & Hs).
    by apply (quota_flag_words (q :: qs)).
Qed.

Lemma parse_flag qs :
  Forall (fun q => tenant_name q.1 /\ (0 < q.2 < 2 ^ 63)%Z) qs -> NoDup qs.*1 ->
  parseTenantQuotas (quota_flag qs) = inr (list_to_map qs).
Proof.
  intros Hq Hd. unfold parseTenantQuotas. rewrite TrimSpace_quota_flag by done.
  destruct qs as [|q qs]; [done|].
  rewrite bool_decide_eq_false_2.
  - unfold quota_flag. cbn [fmap list_fmap]. rewrite Split_join by (intros s Hs; by eapply quota_flag_words).
    rewrite <- fmap_cons, parse_pairs_quotas by done.
    rewrite insert_fold_list_to_map by (done || by intros; apply lookup_empty). by rewrite (right_id_L ∅ (∪)).
  - intros E. apply (f_equal String.list_ascii_of_string) in E. unfold quota_flag, join in E.
    rewrite String.list_ascii_of_string_of_list_ascii in E. destruct q as [k n]. unfold quota_pair in E.
    cbn [fmap list_fmap fst snd join_text] in E. rewrite String.list_ascii_of_string_of_list_ascii in E.
    by destruct (String.list_ascii_of_string k).
Qed.

Lemma parse_pairs_valid pairs out m :
  (forall p, p ∈ pairs -> comma ∉ String.list_ascii_of_string p) ->
  quotas_valid out -> parse_pairs pairs out = inr m -> quotas_valid m.
Proof.
  revert out. induction pairs as [|p pairs IH]; intros out Hc Hout; cbn [parse_pairs]; [by intros [= <-]|].
  destruct (Cut (TrimSpace p) equals) as [[a b] ok] eqn:Ecut.
  unfold Cut in Ecut. destruct (cut_chars equals (String.list_ascii_of_string (TrimSpace p))) as [[a' b'] ok'] eqn:E.
  injection Ecut as <- <- <-. apply cut_chars_spec in E as [Ha E].
  destruct (negb ok' || _) eqn:Eb; [done|]. apply orb_false_iff in Eb as [Eok Ek].
  apply negb_false_iff in Eok as ->. apply bool_decide_eq_false in Ek.
  destruct (ParseInt _) as [n|] eqn:En; [|done]. destruct (Z.leb_spec n 0); [done|].
  apply IH; [intros p' Hp'; apply Hc; by right|].
  intros k q [[<- <-]|[_ Hkq]]%lookup_insert_Some; [|by apply Hout].
  apply ParseInt_range in En. split; [|wrap_unfold; lia].
  assert (Hsub : forall c, c ∈ String.list_ascii_of_string (TrimSpace (String.string_of_list_ascii a')) -> c ∈ a').
  { intros c. unfold TrimSpace. rewrite !String.list_ascii_of_string_of_list_ascii. apply trim_text_subset. }
  split_and!; [split_and!; [done|apply TrimSpace_trimmed|]|].
  - intros Hin%Hsub. apply (Hc p); [by left|]. apply trim_text_subset.
    unfold TrimSpace in E. rewrite String.list_ascii_of_string_of_list_ascii in E. rewrite E.
    apply elem_of_app. by left.
  - intros Hin%Hsub. done.
Qed.

(** The quotas flag: what the parser accepts are exactly the maps from
    writable tenant names to positive [int64] quotas.  Whatever text is accepted,
    the map has only such entries, so no typo becomes a quota of zero or less;
    and every such map is read back from its text, the pairs in any order. *)
Theorem parseTenantQuotas_exact (m : gmap string Z) :
  (forall s, parseTenantQuotas s = inr m -> quotas_valid m)
  /\ (quotas_valid m -> forall qs, qs ≡ₚ map_to_list m -> parseTenantQuotas (quota_flag qs) = inr m).
Proof.
  split.
  - intros s. unfold parseTenantQuotas. case_bool_decide; [intros [= <-]; intros k q; by rewrite lookup_empty|].
    apply parse_pairs_valid; [|intros k q; by rewrite lookup_empty].
    intros p (x & -> & Hx)%list_elem_of_fmap. rewrite String.list_ascii_of_string_of_list_ascii.
    by eapply (proj2 (split_chars_spec comma [] _ (not_elem_of_nil _))).
  - intros Hm qs Hqs. rewrite parse_flag.
    + f_equal. rewrite <- (list_to_map_to_list m). apply list_to_map_proper; [|done].
      rewrite Hqs. apply NoDup_fst_map_to_list.
    + rewrite Forall_forall. intros [k q] Hin. apply Hm. apply elem_of_map_to_list. by rewrite <- Hqs.
    + rewrite Hqs. apply NoDup_fst_map_to_list.
Qed.

(** ** What starts *)

(** The reasons to refuse the flags, in the order they are found. *)
Definition failures (e : environment) (fl : flags) : list fatal :=
  (if (0 <? maxBytes fl)%Z && negb (watermarks_ok (fl_hiWater fl) (fl_loWater fl)) then [FatalWatermarks] else [])
  ++ (if has_cold fl && negb (s3_ok e) then [FatalColdTier] else [])
  ++ (match choose_policy fl with inl f => [f] | inr _ => [] end)
  ++ (if bool_decide (etcdEndpoints fl = ""%string) then []
      else (if dial_ok e then [] else [FatalDial])
           ++ (match lease e, put_ok e, keepalive_ok e with
               | None, _, _ => [FatalRegister ErrGrant]
               | _, false, _ => [FatalRegister ErrPut]
               | _, _, false => [FatalRegister ErrKeepAlive]
               | _, _, _ => []
               end)
           ++ (if (1 <? rf fl)%Z && negb (watch_ok e) then [FatalWatch] else []))
  ++ (if listen_ok e then [] else [FatalListen]).

Section starting.
Context {T : Type} `{ColdTier T}.
Implicit Types (e : environment) (fl : flags) (t : T).

(** C22. Start-up ends in the first failure there is and otherwise in a running
    node.  A process that gives up never revokes a lease it has registered under
    (the fatal exit skips the release), except when registering itself failed:
    then no lease granted is left behind. *)
Theorem startup_error_exact e fl t :
  let '(r, calls) := startup e fl t in
  match failures e fl with
  | f :: _ => r = inl f
  | [] => exists nd, r = inr nd
  end
  /\ (forall l, Revoke l ∈ calls <-> lease e = Some l /\ exists err, r = inl (FatalRegister err)).
Proof.
  unfold startup, failures.
  assert (Hnil : forall l, Revoke l ∈ ([] : list etcd_call) <-> False) by (intros l; by rewrite elem_of_nil).
  destruct ((0 <? maxBytes fl)%Z && _); cbn [app].
  { split; [done|]. intros l. rewrite Hnil. split; [done|by intros (_ & err & ?)]. }
  destruct (has_cold fl && _) eqn:Ecold; cbn [app].
  { split; [done|]. intros l. rewrite Hnil. split; [done|by intros (_ & err & ?)]. }
  destruct (choose_policy fl) as [f|p] eqn:Ep; cbn [app].
  { split; [done|]. intros l. rewrite Hnil. split; [done|]. intros (_ & err & ?). simplify_eq.
    unfold choose_policy in Ep. cases. }
  unfold join_cluster. case_bool_decide; cbn [app].
  { destruct (listen_ok e); (split; [by eexists|]); intros l; rewrite Hnil; (split; [done|by intros (_ & err & ?)]). }
  destruct (dial_ok e); cbn [app negb].
  2: { split; [done|]. intros l. rewrite Hnil. split; [done|by intros (_ & err & ?)]. }
  unfold Coord.Register. destruct (lease e) as [l0|]; cbn [app].
  2: { split; [done|]. intros l. rewrite list_elem_of_singleton. split; [done|by intros [? _]]. }
  assert (Hc : forall l cs, Revoke l ∈ ([Grant (leaseTTL fl); PutUnder (memberKey (node_id fl)) (advertised fl) l0] ++ cs)
     <-> Revoke l ∈ cs).
  { intros l cs. cbn [app]. rewrite !elem_of_cons. naive_solver. }
  destruct (put_ok e), (keepalive_ok e); cbn [app].
  - destruct (1 <? rf fl)%Z; [destruct (watch_ok e)|]; cbn [app andb negb];
      destruct (listen_ok e); cbn [app];
      (split; [by first [done|eexists]|]); intros l; rewrite !elem_of_cons, elem_of_nil; naive_solver.
  - split; [done|]. intros l. rewrite !elem_of_cons, elem_of_nil. naive_solver.
  - split; [done|]. intros l. rewrite !elem_of_cons, elem_of_nil. naive_solver.
  - split; [done|]. intros l. rewrite !elem_of_cons, elem_of_nil. naive_solver.
Qed.

Lemma choose_policy_fresh fl p : choose_policy fl = inr p -> pol_inv p /\ tracked p = ∅.
Proof.
  assert (Hg : forall quotas el w, gdsf_wf (newGDSF quotas el w) /\ dom (blocks_of (newGDSF quotas el w)) = ∅).
  { intros. split; [apply gdsf_init_wf|]. apply dom_empty_iff_L, blocks_empty. done. }
  assert (Hl : lru_inv NewLRU) by apply lru_inv_new.
  unfold choose_policy. destruct (_ =? _)%string; [by intros [= <-]|].
  destruct (_ =? _)%string; [destruct (parseTenantQuotas _); [done|]; intros [= <-]; apply Hg|].
  destruct (_ =? _)%string; [destruct (parseTenantQuotas _); [done|]; intros [= <-]; apply Hg|done].
Qed.

Lemma store_options_water fl (p : AnyPolicy) :
  (0 < maxBytes fl)%Z -> watermarks_ok (fl_hiWater fl) (fl_loWater fl) = true ->
  hiWater (NewStore p (store_options fl)) = water (maxBytes fl) (fl_hiWater fl)
  /\ loWater (NewStore p (store_options fl)) = water (maxBytes fl) (fl_loWater fl).
Proof.
  intros Hm Hw. unfold NewStore, store_options, watermarks_ok in *.
  destruct (has_cold fl); cbn [fold_left app]; unfold checked_fracs; cbn [opt_hiFrac opt_loFrac opt_maxBytes WithMaxBytes WithWatermarks WithSpiller];
    rewrite Hw; cbn [hiWater loWater]; by rewrite (proj2 (Z.ltb_lt 0 _) Hm).
Qed.

Lemma store_options_spill fl (p : AnyPolicy) :
  spill (NewStore p (store_options fl)) = if has_cold fl then Some [] else None.
Proof. unfold NewStore, store_options. by destruct (has_cold fl), (checked_fracs _ _). Qed.

Lemma join_cluster_spec e fl rel repl calls :
  join_cluster e fl = (inr (rel, repl), calls) ->
  (is_Some rel <-> etcdEndpoints fl <> ""%string)
  /\ (is_Some repl <-> etcdEndpoints fl <> ""%string /\ (1 < rf fl)%Z)
  /\ (forall rt r, repl = Some (rt, r) -> Router.New ringVnodes = Some rt /\ r = NewReplicator (node_id fl) (rf fl))
  /\ (forall l, is_Some rel -> lease e = Some l -> PutUnder (memberKey (node_id fl)) (advertised fl) l ∈ calls).
Proof.
  unfold join_cluster. case_bool_decide as Hetcd; [intros [= <- <- <-]; naive_solver|].
  destruct (dial_ok e); [cbn [negb]|done]. unfold Coord.Register.
  destruct (lease e) as [l0|]; [|done]. destruct (put_ok e), (keepalive_ok e); try done.
  assert (Hin : forall l cs, Some l0 = Some l ->
    PutUnder (memberKey (node_id fl)) (advertised fl) l ∈ [Grant (leaseTTL fl); PutUnder (memberKey (node_id fl)) (advertised fl) l0] ++ cs).
  { intros l cs [= ->]. apply elem_of_app. left. right. by left. }
  destruct (Z.ltb_spec 1 (rf fl)); [destruct (watch_ok e); [|done]|]; intros [= <- <- <-];
    (split; [naive_solver|]); (split; [|split; [|intros l _ Hl; by apply (Hin l [_])]]).
  - naive_solver.
  - intros rt r Hr. by injection Hr as <- <-.
  - split; [by intros []|intros [_ ?]; lia].
  - done.
Qed.

(** C23. A node that starts is what the flags ask for: its handlers run over a fresh
    store under the chosen policy, whose contract holds, with the watermarks of the
    flags and never the silent fallback; it spills to and reads the cold tier
    exactly when a bucket is given; it replicates exactly when it has etcd and a
    factor above one, under its own id, and is then registered at its advertised
    address.  From there every sequence of requests and evictions keeps the store
    and the policy consistent. *)
Theorem startup_sound e fl t nd calls :
  startup e fl t = (inr nd, calls) ->
  exists p, choose_policy fl = inr p /\ pol_inv p /\ tracked p = ∅
  /\ nd_server nd = boot p (store_options fl) (bool_decide (is_Some (nd_repl nd))) (if has_cold fl then Some t else None)
  /\ (is_Some (nd_repl nd) <-> etcdEndpoints fl <> ""%string /\ (1 < rf fl)%Z)
  /\ (forall rt r, nd_repl nd = Some (rt, r) ->
       router_wf rt /\ vnodes (ring rt) = 128 /\ r = NewReplicator (nd_id nd) (rf fl))
  /\ (etcdEndpoints fl <> ""%string -> exists l, PutUnder (memberKey (nd_id nd)) (nd_adv nd) l ∈ calls)
  /\ (let st := store (nd_server nd) in
      spill st = (if has_cold fl then Some [] else None)
      /\ ((0 < maxBytes fl)%Z ->
          hiWater st = water (maxBytes fl) (fl_hiWater fl) /\ loWater st = water (maxBytes fl) (fl_loWater fl)))
  /\ forall evs, let st := store (server_run (nd_server nd) evs) in store_wf st /\ store_tracks st.
Proof.
  unfold startup. destruct (_ && negb (watermarks_ok _ _)) eqn:Ew; [done|].
  destruct (has_cold fl && negb (s3_ok e)) eqn:Ec; [done|].
  destruct (choose_policy fl) as [f|p] eqn:Ep; [done|].
  destruct (choose_policy_fresh fl p Ep) as [Hinv Htr].
  destruct (join_cluster e fl) as [[f|[rel repl]] calls'] eqn:Ej; [done|]. destruct (listen_ok e); [|done].
  intros [= <- <-]. cbn [nd_id nd_adv nd_server nd_repl nd_release].
  destruct (join_cluster_spec e fl rel repl _ Ej) as (Hrel & Hrepl & Hrt & Hput).
  exists p. set (srv := if has_cold fl then _ else _).
  assert (Hboot : srv = boot p (store_options fl) (bool_decide (is_Some repl)) (if has_cold fl then Some t else None)).
  { unfold srv. destruct repl as [r|].
    - rewrite bool_decide_eq_true_2 by done. by destruct (has_cold fl).
    - rewrite bool_decide_eq_false_2 by (by intros []). by destruct (has_cold fl). }
  assert (Hst : store srv = NewStore p (store_options fl)).
  { rewrite Hboot. by destruct (bool_decide _), (has_cold fl). }
  split_and!; [done..| | | | |].
  - intros rt r E. destruct (Hrt rt r E) as [Hnew ->]. split_and!; [by eapply router_wf_new| |done].
    unfold Router.New, Ring.New in Hnew. by injection Hnew as <-.
  - intros He. destruct (lease e) as [l|] eqn:El; [exists l; by apply Hput; [apply Hrel|]|].
    exfalso. unfold join_cluster in Ej. rewrite bool_decide_eq_false_2 in Ej by done.
    destruct (dial_ok e); [|done]. unfold Coord.Register in Ej. rewrite El in Ej. done.
  - rewrite Hst. apply store_options_spill.
  - intros Hm. rewrite Hst. apply store_options_water; [done|].
    rewrite (proj2 (Z.ltb_lt 0 _) Hm) in Ew. by apply negb_false_iff in Ew.
  - intros evs. rewrite Hboot. split; [apply server_wf|].
    destruct (server_run_runs (boot p (store_options fl) (bool_decide (is_Some repl)) (if has_cold fl then Some t else None)) evs)
      as (cs & _ & ->).
    assert (Hb : store (boot p (store_options fl) (bool_decide (is_Some repl)) (if has_cold fl then Some t else None))
                 = NewStore p (store_options fl)) by (rewrite <- Hboot; done).
    rewrite Hb. apply store_tracks_run; [apply (sw_striped _ (store_wf_new _ _))|by apply store_tracks_new].
Qed.
End starting.

(** ** Witnesses *)

Definition w_flags : flags :=
  mk_flags ":50051" "n1:50051" "etcd:2379" "n1" 10 2 true 1000 (f64_div (f64_of_Z 9) (f64_of_Z 10))
    (f64_div f64_1 (f64_of_Z 2)) 0 0 "gdsf" " A=100 , B=+50" f64_0 "" "cold".
Definition w_env : environment := mk_environment true true (Some 7%Z) true true true true.
Definition w_lru : flags :=
  mk_flags ":50051" "n1:50051" "etcd:2379" "" 10 2 false 0 f64_0 f64_0 0 0 "lru" "" f64_0 "" "cold".
Definition w_started : (fatal + node Memory) * list etcd_call := startup w_env w_lru NewMemory.
Definition w_store : Store AnyPolicy := NewStore (PLru NewLRU) (store_options w_lru).
Definition w_node : node Memory :=
  mk_node "n1:50051" "n1:50051" (WithColdReader (Some NewMemory) (NewWithReplicator w_store)) (NewEvictor 0 0 true)
    (Some (mk_router (mk_ring 128 [] ∅) ∅ 0 ∅, NewReplicator "n1:50051" 2)) (Some (mk_releaser 7 false)).

(** The quotas are read, spaces, sign and all. *)
Example parse_w : parseTenantQuotas (tenantQuota w_flags) = inr {["A" := 100; "B" := 50]}%Z.
Proof. by vm_compute. Qed.
Example parse_typo : parseTenantQuotas "A=1e9" = inl (BadQuota "A" "1e9").
Proof. by vm_compute. Qed.

Lemma startup_sound_witness : exists l, PutUnder (memberKey (nd_id w_node)) (nd_adv w_node) l ∈ w_started.2.
Proof.
  destruct (startup_sound w_env w_lru NewMemory w_node w_started.2) as (p & _ & _ & _ & _ & _ & _ & Hput & _).
  - reflexivity.
  - by apply Hput.
Defined.
