(* ===== verification/Shutdown.v ===== *)
(** Taking a node down: the end of [main] in [src/cmd/cache-server/main.go] and
    [Close] of [src/internal/coldtier/s3.go].

    After the signal, [main] releases the lease, stops the gRPC server gracefully
    and returns; the deferred calls then run last to first.  The evictor and the
    upload workers are goroutines of their own, and RPCs are pending, so their steps
    come between.  A
    send on a closed channel is a run-time panic. *)

From S2P Require Import Prelude Text Bytes Float64 Policy Lru Gdsf GdsfInv GdsfRefine Store Evictor ColdTier Server Ring Router Coord Replicator Node.

(** ** The deferred calls *)

Inductive action :=
  | ReleaseLease
  | GracefulStop
  | CloseMetrics
  | CloseRouter
  | CloseEtcd
  | CloseCold
  | CancelContext.

#[export] Instance action_eq_dec : EqDecision action.
Proof. solve_decision. Defined.

(** The [defer] statements [main] has executed, in program order. *)
Definition defers {T} (fl : flags) (nd : node T) : list action :=
  [CancelContext]
  ++ (if has_cold fl then [CloseCold] else [])
  ++ (if bool_decide (etcdEndpoints fl = ""%string) then [] else [CloseEtcd])
  ++ (match nd_repl nd with Some _ => [CloseRouter] | None => [] end)
  ++ (if bool_decide (metricsAddr fl = ""%string) then [] else [CloseMetrics]).

(** What [main] does after [<-stop]. *)
Definition shutdown {T} (fl : flags) (nd : node T) : list action :=
  (match nd_release nd with Some _ => [ReleaseLease] | None => [] end)
  ++ [GracefulStop] ++ rev (defers fl nd).

(** ** The workers of the tier *)

Section tier.
Context {B : Type} `{S3API B}.
Implicit Types (t : S3Tier B).

(** A step of a worker, with the job whose upload it finishes. *)
Inductive work : option spillJob -> S3Tier B -> S3Tier B -> Prop :=
  | work_take t job jobs :
      s3_jobs t = job :: jobs -> length (s3_inflight t) < defaultSpillWorkers ->
      work None t (mk_s3 (s3_bucket t) jobs (job :: s3_inflight t) (s3_dropped t))
  | work_upload t l1 job l2 :
      s3_inflight t = l1 ++ job :: l2 ->
      work (Some job) t (mk_s3 (upload job (s3_bucket t)) (s3_jobs t) (l1 ++ l2) (s3_dropped t)).

(** [n] steps of the workers, and the jobs uploaded by them in order. *)
Inductive works : nat -> list spillJob -> S3Tier B -> S3Tier B -> Prop :=
  | works_none t : works 0 [] t t
  | works_step n o l t t' t'' :
      work o t t' -> works n l t' t'' -> works (S n) (option_list o ++ l) t t''.

(** [range t.jobs] of every worker has ended: [wg.Wait] returns. *)
Definition drained t : Prop := s3_jobs t = [] /\ s3_inflight t = [].

(** The steps the queue and the uploads still need. *)
Definition work_left t : nat := 2 * length (s3_jobs t) + length (s3_inflight t).

Lemma work_progress t : ~ drained t -> exists o t', work o t t'.
Proof.
  intros Hd. destruct (s3_inflight t) as [|job l] eqn:Ei.
  - destruct (s3_jobs t) as [|job jobs] eqn:Ej; [by destruct Hd|].
    exists None. eexists. eapply work_take; [done|]. rewrite Ei. unfold defaultSpillWorkers. cbn. lia.
  - exists (Some job). eexists. by apply (work_upload t [] job l).
Qed.

Lemma drained_no_work t o t' : drained t -> ~ work o t t'.
Proof. intros [H1 H2]. inversion 1 as [? ? ? Hj|? l1 ? l2 Hi]; [congruence|]. rewrite H2 in Hi. by destruct l1. Qed.

Lemma work_spec o t t' :
  work o t t' ->
  S (work_left t') = work_left t
  /\ s3_bucket t' = foldl (fun b job => upload job b) (s3_bucket t) (option_list o)
  /\ s3_jobs t ++ s3_inflight t ≡ₚ option_list o ++ s3_jobs t' ++ s3_inflight t'
  /\ s3_dropped t' = s3_dropped t.
Proof.
  unfold work_left. intros [u job jobs Hj Hw|u l1 job l2 Hi]; cbn [s3_jobs s3_inflight s3_bucket s3_dropped option_list app foldl length].
  - rewrite Hj. cbn [length]. split_and!; [lia|done| |done]. apply Permutation_middle.
  - rewrite Hi, !length_app. cbn [length]. split_and!; [lia|done| |done].
    rewrite (app_assoc _ l1), <- Permutation_middle, <- app_assoc. done.
Qed.

(** C25. [Close] loses nothing and ends: once the channel is closed the workers can
    step exactly as long as something is queued or being uploaded, within two
    steps per queued job and one per upload in progress; when they stop, every
    job accepted has been put to the bucket exactly once, in some order. *)
Theorem close_drains t n l t' :
  works n l t t' ->
  n + work_left t' = work_left t
  /\ s3_bucket t' = foldl (fun b job => upload job b) (s3_bucket t) l
  /\ ((forall o t'', ~ work o t' t'') <-> drained t')
  /\ (drained t' -> l ≡ₚ s3_jobs t ++ s3_inflight t).
Proof.
  intros Hw.
  assert (Hs : (forall o t'', ~ work o t' t'') <-> drained t').
  { split.
    - intros Hn. destruct (decide (s3_jobs t' = [] /\ s3_inflight t' = [])) as [|Hd]; [done|].
      destruct (work_progress t' Hd) as (o & t'' & Hstep). by destruct (Hn o t'').
    - intros Hd o t''. by apply drained_no_work. }
  revert Hs. induction Hw as [t|n o l t t1 t' Hstep _ IH]; intros Hs.
  - split_and!; [done|done|done|]. intros [-> ->]. done.
  - destruct (work_spec o t t1 Hstep) as (Hm & Hb & Hp & _). destruct (IH Hs) as (Hn & Hb' & _ & Hd).
    split_and!; [lia| |done|].
    + by rewrite Hb', Hb, foldl_app.
    + intros Hdr. by rewrite Hp, <- (Hd Hdr).
Qed.

(** ** The goroutines of a node that is going down *)

(** [main] has the actions [sd_todo] left, or is inside one that blocks; [sd_rpcs]
    counts the RPCs that handlers are in. *)
Record closing := mk_closing {
  sd_todo : list action;
  sd_waiting : option action;
  sd_rpcs : nat;
  sd_cancelled : bool;
  sd_closed : bool;
  sd_tier : S3Tier B;
  sd_panicked : bool;
}.

Definition going_down (todo : list action) (rpcs : nat) t : closing := mk_closing todo None rpcs false false t false.

(** The actions that block: gRPC's [GracefulStop] refuses what comes and waits for
    the RPCs that are pending, [CloseCold] closes the channel and waits for the
    workers.  When such a call returns: *)
Definition blocks (a : action) : option action :=
  match a with GracefulStop | CloseCold => Some a | _ => None end.
Definition may_return (a : action) (s : closing) : Prop :=
  match a with GracefulStop => sd_rpcs s = 0 | CloseCold => drained (sd_tier s) | _ => True end.

(** [main] enters its next action. *)
Definition act (a : action) (todo : list action) (s : closing) : closing :=
  mk_closing todo (blocks a) (sd_rpcs s)
    (match a with CancelContext => true | _ => sd_cancelled s end)
    (match a with CloseCold => true | _ => sd_closed s end) (sd_tier s) (sd_panicked s).

(** It leaves the one that blocked; RPCs begin and end. *)
Definition act_done (s : closing) : closing :=
  mk_closing (sd_todo s) None (sd_rpcs s) (sd_cancelled s) (sd_closed s) (sd_tier s) (sd_panicked s).
Definition set_rpcs (k : nat) (s : closing) : closing :=
  mk_closing (sd_todo s) (sd_waiting s) k (sd_cancelled s) (sd_closed s) (sd_tier s) (sd_panicked s).
Definition set_s3 t (s : closing) : closing :=
  mk_closing (sd_todo s) (sd_waiting s) (sd_rpcs s) (sd_cancelled s) (sd_closed s) t (sd_panicked s).

(** [Spill], called by the evictor on the channel as it is. *)
Definition spill_now (model : string) (h : BlockHash) (b : cold_block) (s : closing) : closing :=
  if sd_closed s
  then mk_closing (sd_todo s) (sd_waiting s) (sd_rpcs s) (sd_cancelled s) true (sd_tier s) true
  else set_s3 (s3_Spill model h b (sd_tier s)) s.

(** The process is alive until [main] returns. *)
Definition returned (s : closing) : Prop := sd_todo s = [] /\ sd_waiting s = None.

(** The server takes new RPCs until [GracefulStop] is entered. *)
Definition serving (s : closing) : Prop := GracefulStop ∈ sd_todo s.

(** A panic ends the process: no step leaves such a state.  The evictor looks at
    the context only between two drains, so it may spill as long as the process
    lives. *)
Inductive down_step : closing -> closing -> Prop :=
  | down_main s a todo :
      sd_panicked s = false -> sd_waiting s = None -> sd_todo s = a :: todo -> down_step s (act a todo s)
  | down_return s a :
      sd_panicked s = false -> sd_waiting s = Some a -> may_return a s -> down_step s (act_done s)
  | down_rpc s :
      sd_panicked s = false -> serving s -> down_step s (set_rpcs (S (sd_rpcs s)) s)
  | down_answer s k :
      sd_panicked s = false -> sd_rpcs s = S k -> down_step s (set_rpcs k s)
  | down_work s o t :
      sd_panicked s = false -> work o (sd_tier s) t -> down_step s (set_s3 t s)
  | down_spill s model h b :
      sd_panicked s = false -> ~ returned s -> down_step s (spill_now model h b s).

Inductive down_reach (s0 : closing) : closing -> Prop :=
  | down_start : down_reach s0 s0
  | down_next s s' : down_reach s0 s -> down_step s s' -> down_reach s0 s'.

(** Whatever is left to do, the workers' drain of [Close] is over once [main] has
    gone past it, and so are the RPCs once it has gone past [GracefulStop]. *)
Record down_inv (s : closing) : Prop := mk_down_inv {
  di_close : sd_waiting s = Some CloseCold -> sd_closed s = true;
  di_drained : sd_closed s = true -> sd_waiting s <> Some CloseCold -> sd_panicked s = false -> drained (sd_tier s);
  di_todo : sd_closed s = true <-> CloseCold ∉ sd_todo s;
  di_rpcs : ~ serving s -> sd_waiting s <> Some GracefulStop -> sd_rpcs s = 0;
  di_once : NoDup (sd_todo s);
  di_blocks a : sd_waiting s = Some a -> blocks a = Some a;
}.

Lemma down_inv_step s s' : down_inv s -> down_step s s' -> down_inv s'.
Proof.
  intros [Hw Hd Hc Hr Hnd Hb] Hs. unfold serving in *.
  destruct Hs as [u a todo Hp Hwait Htodo|u a Hp Hwait Hdr|u Hp Hsv|u k Hp Hk|u o t Hp Hwork|u m h b Hp Hret].
  - rewrite Htodo, Hwait in *. apply NoDup_cons in Hnd as [Ha Hnd]. unfold act.
    split; cbn [sd_waiting sd_closed sd_todo sd_tier sd_panicked sd_rpcs]; unfold serving; cbn [sd_todo].
    + by destruct a.
    + intros Hcl Hne _. destruct a; try (by apply Hd); by destruct Hne.
    + rewrite elem_of_cons in Hc. destruct a; try (rewrite Hc; naive_solver); by split.
    + intros Hns Hne. apply Hr; [|done]. rewrite elem_of_cons. intros [<-|]; [by destruct Hne|done].
    + done.
    + by destruct a; intros ? [= <-].
  - unfold act_done. split; cbn [sd_waiting sd_closed sd_todo sd_tier sd_panicked sd_rpcs]; unfold serving; cbn [sd_todo]; try done.
    + intros Hcl _ _. destruct (decide (a = CloseCold)) as [->|Hne]; [exact Hdr|]. apply Hd; [done|congruence|done].
    + intros Hns _. destruct (decide (a = GracefulStop)) as [->|Hne]; [exact Hdr|]. apply Hr; [done|congruence].
  - split; cbn; unfold serving; cbn; try done.
  - split; cbn; unfold serving; cbn; try done. intros Hns Hne. specialize (Hr Hns Hne). lia.
  - split; cbn; unfold serving; cbn; try done. intros Hcl Hwf _. by destruct (drained_no_work _ _ _ (Hd Hcl Hwf Hp) Hwork).
  - unfold spill_now. destruct (sd_closed u) eqn:Ecl; split; cbn; unfold serving; cbn; rewrite ?Ecl; try done.
Qed.

End tier.

(** ** The property *)

Section down.
Context {B T : Type} `{S3API B}.

Lemma shutdown_NoDup (fl : flags) (nd : node T) : NoDup (shutdown fl nd).
Proof.
  unfold shutdown, defers. destruct (nd_release nd), (has_cold fl), (bool_decide _), (nd_repl nd), (bool_decide _);
    cbn; by apply (bool_decide_unpack _); vm_compute.
Qed.

Lemma shutdown_cold (fl : flags) (nd : node T) : has_cold fl = true -> CloseCold ∈ shutdown fl nd.
Proof.
  intros Hc. unfold shutdown, defers. rewrite Hc. apply elem_of_app. right. apply elem_of_app. right.
  apply elem_of_rev. set_solver.
Qed.

Lemma shutdown_serving (fl : flags) (nd : node T) : GracefulStop ∈ shutdown fl nd.
Proof. unfold shutdown. apply elem_of_app. right. by left. Qed.

Lemma down_reach_inv (fl : flags) (nd : node T) (rpcs : nat) (t : S3Tier B) s :
  has_cold fl = true -> down_reach (going_down (shutdown fl nd) rpcs t) s -> down_inv s.
Proof.
  intros Hc. induction 1 as [|s s' _ IH Hs]; [|by eapply down_inv_step].
  unfold going_down. split; cbn; unfold serving; cbn; try done.
  - split; [done|]. intros Hn. by destruct (Hn (shutdown_cold fl nd Hc)).
  - intros Hn. by destruct (Hn (shutdown_serving fl nd)).
  - apply shutdown_NoDup.
Qed.

(** What precedes the closing of the tier. *)
Lemma shutdown_shape (fl : flags) (nd : node T) :
  has_cold fl = true ->
  exists pre, shutdown fl nd = pre ++ [CloseCold] ++ [CancelContext] /\ Forall (fun a => a <> CloseCold /\ a <> CancelContext) pre.
Proof.
  intros Hc. unfold shutdown, defers. rewrite Hc.
  exists ((match nd_release nd with Some _ => [ReleaseLease] | None => [] end) ++ [GracefulStop]
    ++ rev ((if bool_decide (etcdEndpoints fl = ""%string) then [] else [CloseEtcd])
            ++ (match nd_repl nd with Some _ => [CloseRouter] | None => [] end)
            ++ (if bool_decide (metricsAddr fl = ""%string) then [] else [CloseMetrics]))).
  destruct (nd_release nd), (bool_decide (etcdEndpoints fl = _)), (nd_repl nd), (bool_decide _); cbn;
    (split; [done|by repeat constructor]).
Qed.

Lemma down_drain_rpcs todo w k (t : S3Tier B) s0 :
  down_reach s0 (mk_closing todo w k false false t false) -> down_reach s0 (mk_closing todo w 0 false false t false).
Proof.
  induction k as [|k IH]; intros Hr; [done|]. apply IH. eapply down_next; [exact Hr|].
  by apply (down_answer (mk_closing todo w (S k) false false t false) k).
Qed.

Lemma down_main_run pre todo k (t : S3Tier B) s0 :
  down_reach s0 (mk_closing (pre ++ todo) None k false false t false) ->
  Forall (fun a => a <> CloseCold /\ a <> CancelContext) pre ->
  down_reach s0 (mk_closing todo None 0 false false t false).
Proof.
  revert k. induction pre as [|a pre IH]; intros k; [intros Hr _; by eapply down_drain_rpcs|].
  intros Hr ([H1 H2] & Hno)%Forall_cons. apply (IH 0); [|done].
  assert (Ha : down_reach s0 (mk_closing (pre ++ todo) (blocks a) 0 false false t false)).
  { eapply down_drain_rpcs, down_next; [exact Hr|].
    replace (mk_closing (pre ++ todo) (blocks a) k false false t false)
      with (act a (pre ++ todo) (mk_closing ((a :: pre) ++ todo) None k false false t false)) by (by destruct a).
    by apply down_main. }
  destruct (blocks a) as [b|] eqn:Eb; [|exact Ha]. eapply down_next; [exact Ha|].
  apply (down_return (mk_closing (pre ++ todo) (Some b) 0 false false t false) b); [done|done|].
  by destruct a; simplify_eq/=.
Qed.

Lemma down_progress (s : closing (B := B)) :
  down_inv s -> sd_panicked s = false ->
  (returned s /\ drained (sd_tier s) /\ sd_rpcs s = 0) \/ (~ returned s /\ exists s', down_step s s' /\ sd_panicked s' = false).
Proof.
  intros Hi Hp. destruct (sd_waiting s) as [a|] eqn:Ew.
  - right. split; [by intros [_ ?]; congruence|]. pose proof (di_blocks s Hi a Ew) as Hb. destruct a; try done.
    + destruct (sd_rpcs s) as [|k] eqn:Ek; [exists (act_done s)|exists (set_rpcs k s)]; (split; [|exact Hp]);
        [by eapply down_return|by eapply down_answer].
    + destruct (decide (s3_jobs (sd_tier s) = [] /\ s3_inflight (sd_tier s) = [])) as [Hdr|Hdr].
      * exists (act_done s). split; [by eapply down_return|exact Hp].
      * destruct (work_progress _ Hdr) as (o & t' & Hwork). exists (set_s3 t' s). split; [by eapply down_work|exact Hp].
  - destruct (sd_todo s) as [|a todo] eqn:Et.
    + left. split; [done|]. split; [apply (di_drained s Hi); [|congruence|done]|apply (di_rpcs s Hi); [|congruence]].
      * apply (di_todo s Hi). rewrite Et. apply not_elem_of_nil.
      * unfold serving. rewrite Et. apply not_elem_of_nil.
    + right. split; [by intros [? _]; congruence|]. exists (act a todo s). split; [by apply down_main|exact Hp].
Qed.

End down.

(** ** Witnesses *)

Definition w_flags : flags :=
  mk_flags ":50051" "n1:50051" "etcd:2379" "n1" 10 2 true 0 f64_0 f64_0 0 0 "lru" "" f64_0 "" "cold".
Definition w_env : environment := mk_environment true true (Some 7%Z) true true true true.
Definition w_job : spillJob := mk_job "m" hash32_zero (mk_cold 1 [] []).

(** A bucket that answers nothing. *)
#[local] Instance empty_bucket : S3API unit := {|
  GetObject _ _ := ObjMissing;
  PutObject _ _ b := (true, b);
|}.

Definition w_s3 (jobs inflight : list spillJob) : S3Tier unit := mk_s3 tt jobs inflight 0.

Lemma close_drains_witness : 2 + work_left (w_s3 [] []) = work_left (w_s3 [w_job] []).
Proof.
  apply (close_drains (w_s3 [w_job] []) 2 [w_job] (w_s3 [] [])).
  eapply (works_step 1 None [w_job]).
  - apply (work_take (w_s3 [w_job] []) w_job []); [done|]. unfold defaultSpillWorkers. cbn. lia.
  - eapply (works_step 0 (Some w_job) []); [|apply works_none].
    change (work (Some w_job) (w_s3 [] [w_job]) (w_s3 [] [])). exact (work_upload (w_s3 [] [w_job]) [] w_job [] eq_refl).
Defined.

Definition w_node : node (S3Tier unit) :=
  mk_node "n1" "n1:50051" (Server.New (NewStore (PLru NewLRU) [])) (NewEvictor 0 0 true) None (Some (mk_releaser 7 false)).

