(* ===== verification/Metrics.v ===== *)
(** The instrumentation of a node: [src/internal/metrics/metrics.go].

    [Metrics] owns the collectors; the handlers, the evictor's hook, the
    replicator and the interceptors call its methods, and a poller sets the
    gauges.  Prometheus is a parameter: [Prometheus] is the part of its client
    library the code calls, with what its documentation says. *)

From S2P Require Import Prelude Bytes Sha256 Float64 Policy Lru Store Evictor ColdTier Server Ring Router Replicator.

(** Counter vectors, histogram vectors and gauges.  A vector is made with the
    names of its labels and indexed by as many label values; an index used for
    the first time is a new time series. *)
Class Prometheus (CV HV GV : Type) := {
  cv_new : list string -> CV;
  cv_Inc : list string -> CV -> CV;
  cv_Add : list string -> float64 -> CV -> CV;
  cv_arity : CV -> nat;
  cv_value : CV -> gmap (list string) Z;
  hv_new : list string -> HV;
  hv_Observe : list string -> Z -> HV -> HV;
  hv_arity : HV -> nat;
  hv_count : HV -> gmap (list string) Z;
  gv_new : GV;
  gv_Set : float64 -> GV -> GV;
  gv_value : GV -> float64;
  cv_new_spec names : cv_arity (cv_new names) = length names /\ cv_value (cv_new names) = ∅;
  cv_Inc_spec ls v : length ls = cv_arity v ->
    cv_arity (cv_Inc ls v) = cv_arity v /\ cv_value (cv_Inc ls v) = <[ls := (default 0%Z (cv_value v !! ls) + 1)%Z]> (cv_value v);
  cv_Add_spec ls x v : length ls = cv_arity v -> f64_nonneg x = true ->
    cv_arity (cv_Add ls x v) = cv_arity v
    /\ exists z, cv_value (cv_Add ls x v) = <[ls := z]> (cv_value v) /\ (default 0%Z (cv_value v !! ls) <= z)%Z;
  hv_new_spec names : hv_arity (hv_new names) = length names /\ hv_count (hv_new names) = ∅;
  hv_Observe_spec ls d v : length ls = hv_arity v ->
    hv_arity (hv_Observe ls d v) = hv_arity v
    /\ hv_count (hv_Observe ls d v) = <[ls := (default 0%Z (hv_count v !! ls) + 1)%Z]> (hv_count v);
  gv_Set_spec x v : gv_value (gv_Set x v) = x;
}.

(** The names of the gRPC status codes: [status.Code(err).String()]. *)
Class GrpcStatus := {
  code_names : list string;
  code_name : option rpc_error -> string;
  code_names_NoDup : NoDup code_names;
  code_name_known e : code_name e ∈ code_names;
}.

(** [Metrics] *)
Record Metrics (CV HV GV : Type) := mk_metrics {
  rpcDuration : HV;
  rpcTotal : CV;
  cacheReqs : CV;
  evictions : CV;
  residentBytes : GV;
  residentEntries : GV;
  replication : CV;
  replicaQueued : GV;
}.
#[global] Arguments mk_metrics {CV HV GV}.
#[global] Arguments rpcDuration {CV HV GV}.
#[global] Arguments rpcTotal {CV HV GV}.
#[global] Arguments cacheReqs {CV HV GV}.
#[global] Arguments evictions {CV HV GV}.
#[global] Arguments residentBytes {CV HV GV}.
#[global] Arguments residentEntries {CV HV GV}.
#[global] Arguments replication {CV HV GV}.
#[global] Arguments replicaQueued {CV HV GV}.

Section metrics.
Context {CV HV GV : Type} `{Prometheus CV HV GV} `{GrpcStatus}.
Implicit Types (m : Metrics CV HV GV).

(** [New]; the private registry is the record itself. *)
Definition New : Metrics CV HV GV :=
  mk_metrics (hv_new ["method"]) (cv_new ["method"; "code"]) (cv_new ["op"; "result"]) (cv_new ["reason"])
    gv_new gv_new (cv_new ["result"]) gv_new.

Definition set_cacheReqs (v : CV) m : Metrics CV HV GV :=
  mk_metrics (rpcDuration m) (rpcTotal m) v (evictions m) (residentBytes m) (residentEntries m) (replication m) (replicaQueued m).

(** [observe] *)
Definition observe (method code : string) (d : Z) m : Metrics CV HV GV :=
  mk_metrics (hv_Observe [method] d (rpcDuration m)) (cv_Inc [method; code] (rpcTotal m)) (cacheReqs m) (evictions m)
    (residentBytes m) (residentEntries m) (replication m) (replicaQueued m).

(** [Hit], [Miss], [Eviction], [Replica] *)
Definition Hit (op : string) m : Metrics CV HV GV := set_cacheReqs (cv_Inc [op; "hit"] (cacheReqs m)) m.
Definition Miss (op : string) m : Metrics CV HV GV := set_cacheReqs (cv_Inc [op; "miss"] (cacheReqs m)) m.
Definition Eviction (reason : string) (n : Z) m : Metrics CV HV GV :=
  if (0 <? n)%Z then
    mk_metrics (rpcDuration m) (rpcTotal m) (cacheReqs m) (cv_Add [reason] (f64_of_Z n) (evictions m))
      (residentBytes m) (residentEntries m) (replication m) (replicaQueued m)
  else m.
Definition Replica (result : string) m : Metrics CV HV GV :=
  mk_metrics (rpcDuration m) (rpcTotal m) (cacheReqs m) (evictions m) (residentBytes m) (residentEntries m)
    (cv_Inc [result] (replication m)) (replicaQueued m).

(** [SetResident], [SetReplicaQueueDepth] *)
Definition SetResident (bytes entries : Z) m : Metrics CV HV GV :=
  mk_metrics (rpcDuration m) (rpcTotal m) (cacheReqs m) (evictions m) (gv_Set (f64_of_Z bytes) (residentBytes m))
    (gv_Set (f64_of_Z entries) (residentEntries m)) (replication m) (replicaQueued m).
Definition SetReplicaQueueDepth (n : nat) m : Metrics CV HV GV :=
  mk_metrics (rpcDuration m) (rpcTotal m) (cacheReqs m) (evictions m) (residentBytes m) (residentEntries m)
    (replication m) (gv_Set (f64_of_Z (Z.of_nat n)) (replicaQueued m)).

(** [UnaryInterceptor], [StreamInterceptor]: a handler that panics ([None]) is
    not observed. *)
Definition UnaryInterceptor {X} (method : string) (d : Z) (handler : Metrics CV HV GV -> option (X * option rpc_error * Metrics CV HV GV)) m :
    option (X * option rpc_error * Metrics CV HV GV) :=
  match handler m with
  | Some (resp, err, m) => Some (resp, err, observe method (code_name err) d m)
  | None => None
  end.
Definition StreamInterceptor (method : string) (d : Z) (handler : Metrics CV HV GV -> option (option rpc_error * Metrics CV HV GV)) m :
    option (option rpc_error * Metrics CV HV GV) :=
  match handler m with
  | Some (err, m) => Some (err, observe method (code_name err) d m)
  | None => None
  end.

(** The methods behind the handlers' [metricsSink]. *)
Definition record_metric m (e : metric) : Metrics CV HV GV :=
  match e with
  | MHit op => Hit op m
  | MMiss op => Miss op m
  | MEviction reason n => Eviction reason n m
  | MReplica result => Replica result m
  end.
Definition record_all (l : list metric) m : Metrics CV HV GV := fold_left record_metric l m.

(** ** What the collectors hold *)

Definition metrics_wf m : Prop :=
  hv_arity (rpcDuration m) = 1 /\ cv_arity (rpcTotal m) = 2 /\ cv_arity (cacheReqs m) = 2
  /\ cv_arity (evictions m) = 1 /\ cv_arity (replication m) = 1.

Definition cache_count m (op result : string) : Z := default 0%Z (cv_value (cacheReqs m) !! [op; result]).
(** The lookups counted for an [op], hits and misses. *)
Definition answered m (op : string) : Z := (cache_count m op "hit" + cache_count m op "miss")%Z.
Definition observed m (method : string) : Z := default 0%Z (hv_count (rpcDuration m) !! [method]).
Definition calls_by_code m (method : string) : Z :=
  list_sum_Z (fun c => default 0%Z (cv_value (rpcTotal m) !! [method; c])) code_names.

Lemma New_wf : metrics_wf New.
Proof.
  unfold metrics_wf, New; cbn [rpcDuration rpcTotal cacheReqs evictions replication].
  pose proof (hv_new_spec ["method"]) as [-> _]. pose proof (cv_new_spec ["method"; "code"]) as [-> _].
  pose proof (cv_new_spec ["op"; "result"]) as [-> _]. pose proof (cv_new_spec ["reason"]) as [-> _].
  by pose proof (cv_new_spec ["result"]) as [-> _].
Qed.

(** Counts of one event. *)
Definition is_hit (op : string) (e : metric) : Prop := e = MHit op.
Definition is_answer (op : string) (e : metric) : Prop := e = MHit op \/ e = MMiss op.
#[export] Instance is_hit_dec op e : Decision (is_hit op e) := decide (e = MHit op).
#[export] Instance is_answer_dec op e : Decision (is_answer op e).
Proof. unfold is_answer. apply _. Defined.
Definition hits_in (op : string) (l : list metric) : Z := Z.of_nat (length (filter (is_hit op) l)).
Definition answers_in (op : string) (l : list metric) : Z := Z.of_nat (length (filter (is_answer op) l)).

Lemma record_metric_spec e m :
  metrics_wf m ->
  metrics_wf (record_metric m e)
  /\ rpcDuration (record_metric m e) = rpcDuration m /\ rpcTotal (record_metric m e) = rpcTotal m
  /\ (forall op, cache_count (record_metric m e) op "hit" = cache_count m op "hit" + (if decide (is_hit op e) then 1 else 0))%Z
  /\ (forall op, answered (record_metric m e) op = answered m op + (if decide (is_answer op e) then 1 else 0))%Z.
Proof.
  intros (H1 & H2 & H3 & H4 & H5). unfold answered, cache_count, is_hit, is_answer.
  destruct e as [op0|op0|reason n|res]; cbn [record_metric].
  - destruct (cv_Inc_spec [op0; "hit"] (cacheReqs m)) as [Ha Hv]; [by rewrite H3|].
    unfold Hit, set_cacheReqs, metrics_wf; cbn [rpcDuration rpcTotal cacheReqs evictions replication].
    rewrite Ha, Hv. split_and!; [done..| |].
    + intros op. destruct (decide (MHit op0 = MHit op)) as [[= ->]|Hne].
      * rewrite lookup_insert_eq. cbn. lia.
      * rewrite lookup_insert_ne by congruence. lia.
    + intros op. rewrite (lookup_insert_ne _ _ [op; "miss"%string]) by congruence.
      destruct (decide (MHit op0 = MHit op \/ MHit op0 = MMiss op)) as [[[= ->]|?]|Hne]; [|done|].
      * rewrite lookup_insert_eq. cbn. lia.
      * rewrite lookup_insert_ne; [lia|]. intros [= ->]. apply Hne. by left.
  - destruct (cv_Inc_spec [op0; "miss"] (cacheReqs m)) as [Ha Hv]; [by rewrite H3|].
    unfold Miss, set_cacheReqs, metrics_wf; cbn [rpcDuration rpcTotal cacheReqs evictions replication].
    rewrite Ha, Hv. split_and!; [done..| |].
    + intros op. rewrite lookup_insert_ne by congruence. rewrite decide_False by done. lia.
    + intros op. rewrite (lookup_insert_ne _ _ [op; "hit"%string]) by congruence.
      destruct (decide (MMiss op0 = MHit op \/ MMiss op0 = MMiss op)) as [[?|[= ->]]|Hne]; [done| |].
      * rewrite lookup_insert_eq. cbn. lia.
      * rewrite lookup_insert_ne; [lia|]. intros [= ->]. apply Hne. by right.
  - unfold Eviction. destruct (Z.ltb_spec 0 n).
    + destruct (cv_Add_spec [reason] (f64_of_Z n) (evictions m)) as [Ha _]; [by rewrite H4|apply f64_of_Z_nonneg; lia|].
      unfold metrics_wf; cbn [rpcDuration rpcTotal cacheReqs evictions replication]. rewrite Ha.
      split_and!; [done..| |]; intros op; rewrite decide_False by naive_solver; lia.
    + split_and!; [done..| |]; intros op; rewrite decide_False by naive_solver; lia.
  - destruct (cv_Inc_spec [res] (replication m)) as [Ha _]; [by rewrite H5|].
    unfold Replica, metrics_wf; cbn [rpcDuration rpcTotal cacheReqs evictions replication]. rewrite Ha.
    split_and!; [done..| |]; intros op; rewrite decide_False by naive_solver; lia.
Qed.

End metrics.

(** ** An instrumented node *)

Section node.
Context {P T CV HV GV : Type} `{EvictionPolicy P} `{ColdTier T} `{Prometheus CV HV GV} `{GrpcStatus}.
Implicit Types (s : Server P T) (m : Metrics CV HV GV).

(** The handlers, the replicator and the collectors of one process; the metrics a
    component has recorded so far are the calls it made to its [metricsSink]. *)
Record monitored := mk_monitored { mo_server : Server P T; mo_repl : Replicator; mo_metrics : Metrics CV HV GV }.

(** [info.FullMethod] of the call an event is, if it is one. *)
Definition method_of (ev : server_event T) : option string :=
  match ev with
  | RpcLookup _ _ => Some "/kvcache.v1.KVCache/Lookup"
  | RpcFetch _ _ _ _ _ _ => Some "/kvcache.v1.KVCache/Fetch"
  | RpcBatchFetch _ _ _ _ => Some "/kvcache.v1.KVCache/BatchFetch"
  | RpcWrite _ _ _ => Some "/kvcache.v1.KVCache/Write"
  | RpcReplicate _ _ _ => Some "/kvcache.v1.KVCache/Replicate"
  | RpcEvict _ _ => Some "/kvcache.v1.KVCache/Evict"
  | StoreCall _ | ColdChange _ => None
  end%string.
Definition health_method : string := "/kvcache.v1.KVCache/Health".

(** How the handler of a call ends. *)
Definition outcome_of {A} (o : outcome A) : option (option rpc_error) :=
  match o with Done _ => Some None | Failed e => Some (Some e) | Panicked => None end.
Definition rpc_outcome (ev : server_event T) s : option (option rpc_error) :=
  match ev with
  | RpcFetch now model hash version toks room => Some (Fetch now model hash version toks (mk_sink [] room) s).1.1
  | RpcBatchFetch now model blocks room => Some (BatchFetch now model blocks (mk_sink [] room) s).1.1
  | RpcWrite can_alloc now st => outcome_of (Write can_alloc now st s).1
  | RpcReplicate can_alloc now st => outcome_of (Replicate can_alloc now st s).1
  | RpcEvict model hash => Some (match Evict model hash s with inl e => Some e | inr _ => None end)
  | _ => Some None
  end.

(** The calls recorded between two states of a component. *)
Definition recorded_since (old new : list metric) : list metric := drop (length old) new.

(** A drain or a sweep in one event is one no call falls into; when calls do,
    its rounds are [StoreCall]s among theirs ([ev_step_calls]) and [MonReport] is
    its last line. *)
Inductive mon_event :=
  | MonServer (ev : server_event T) (d : Z)
  | MonHealth (d : Z)
  | MonNudge (e : Evictor) (ord : nat -> P -> MapOrder)
  | MonTick (e : Evictor) (r : StripeRange) (now : Z)
  | MonReport (e : Evictor) (pressure : bool) (n : Z)
  | MonRepl (e : repl_event)
  | MonPoll (with_repl : bool).

Definition hook_calls (log : reports) : list metric := (fun rn => MEviction rn.1 rn.2) <$> log.

(** One event of the process; [None]: the handler panicked and took the process
    down. *)
Definition mon_step (st : monitored) (e : mon_event) : option monitored :=
  let '(mk_monitored s r m) := st in
  match e with
  | MonServer ev d =>
      let s' := server_step s ev in
      let m' := record_all (recorded_since (Server.metrics s) (Server.metrics s')) m in
      match method_of ev with
      | None => Some (mk_monitored s' r m')
      | Some method =>
          match StreamInterceptor method d (fun _ => (fun err => (err, m')) <$> rpc_outcome ev s) m with
          | Some (_, m') => Some (mk_monitored s' r m')
          | None => None
          end
      end
  | MonHealth d =>
      (fun rem => mk_monitored s r rem.2) <$> UnaryInterceptor health_method d (fun m => Some (Health s, None, m)) m
  | MonNudge ev ord =>
      let '(st', log) := on_nudge ev ord (store s) [] in
      Some (mk_monitored (set_store st' s) r (record_all (hook_calls log) m))
  | MonTick ev rg now =>
      let '(st', log) := on_tick ev rg now (store s) [] in
      Some (mk_monitored (set_store st' s) r (record_all (hook_calls log) m))
  | MonReport ev pressure n =>
      Some (mk_monitored s r (record_all (hook_calls (report ev (if pressure then "pressure" else "ttl") n [])) m))
  | MonRepl e =>
      let r' := (repl_step (r, [], []) e).1.1 in
      Some (mk_monitored s r' (record_all (recorded_since (repl_metrics r) (repl_metrics r')) m))
  | MonPoll with_repl =>
      let m := SetResident (Bytes (store s)) (Len (store s)) m in
      Some (mk_monitored s r (if with_repl then SetReplicaQueueDepth (QueueDepth r) m else m))
  end.

Fixpoint mon_run (st : monitored) (es : list mon_event) : option monitored :=
  match es with
  | [] => Some st
  | e :: es => match mon_step st e with Some st => mon_run st es | None => None end
  end.

(** ** What the handlers record *)

Definition appends (l : list metric) s s' : Prop := Server.metrics s' = Server.metrics s ++ l.

Lemma appends_nil s s' : Server.metrics s' = Server.metrics s -> appends [] s s'.
Proof. unfold appends. intros ->. by rewrite app_nil_r. Qed.

Lemma appends_trans l1 l2 s1 s2 s3 : appends l1 s1 s2 -> appends l2 s2 s3 -> appends (l1 ++ l2) s1 s3.
Proof. unfold appends. intros E1 E2. by rewrite E2, E1, <- app_assoc. Qed.

Definition lookup_metric (e : metric) : Prop := e = MHit "lookup" \/ e = MMiss "lookup".
Definition batch_metric (e : metric) : Prop := e = MHit "batch_fetch" \/ e = MMiss "batch_fetch" \/ e = MHit "fetch_cold".

(** What an event may record. *)
Definition emits (ev : server_event T) (l : list metric) : Prop :=
  match ev with
  | RpcLookup _ hs => Forall lookup_metric l /\ length l = length hs
  | RpcFetch _ _ hash _ _ _ =>
      match toBlockHash hash with
      | None => l = []
      | Some _ => l = [MHit "fetch"] \/ l = [MMiss "fetch"] \/ l = [MHit "fetch_cold"]
      end
  | RpcBatchFetch _ _ blocks room =>
      Forall batch_metric l /\ (answers_in "batch_fetch" l <= Z.of_nat (length blocks))%Z
      /\ (room = None -> answers_in "batch_fetch" l = Z.of_nat (length blocks))
  | RpcEvict _ _ => l = [] \/ l = [MEviction "manual" 1]
  | _ => l = []
  end.

Lemma lookup_emits model hs s : exists l, appends l s (Server.Lookup model hs s).2 /\ Forall lookup_metric l /\ length l = length hs.
Proof.
  revert s. induction hs as [|hb hs IH]; intros s; [exists []; split; [by apply appends_nil|done]|]. cbn [Server.Lookup].
  assert (exists e, appends [e] s (lookup_one model hb s).2 /\ lookup_metric e) as (e & He & Hm).
  { unfold lookup_one. destruct (toBlockHash hb) as [h|]; [destruct (Peek _ _ _)|];
      [exists (MHit "lookup")|exists (MMiss "lookup")..]; (split; [done|]); unfold lookup_metric; naive_solver. }
  destruct (lookup_one model hb s) as [bp s1]. destruct (IH s1) as (l & Hl & Hf & Hlen).
  destruct (Server.Lookup model hs s1) as [bps s2]. cbn [snd] in *. exists (e :: l).
  split; [by apply (appends_trans [e] l s s1 s2)|]. cbn [length]. split; [by constructor|lia].
Qed.

Lemma coldHit_emits now model h version toks s :
  appends (match (coldHit now model h version toks s).1 with Some _ => [MHit "fetch_cold"] | None => [] end)
    s (coldHit now model h version toks s).2.
Proof.
  unfold coldHit. destruct (cold s) as [t|]; [|by apply appends_nil].
  destruct (tier_Get model h t); [|by apply appends_nil..]. destruct (guards_ok _ _ _ _); [|by apply appends_nil].
  by destruct (OverHardLimit _ _).
Qed.

Lemma fetch_emits now model hash version toks room s :
  exists l, appends l s (Fetch now model hash version toks (mk_sink [] room) s).2
    /\ emits (RpcFetch now model hash version toks room) l.
Proof.
  unfold Fetch, emits. destruct (toBlockHash hash) as [h|]; [|exists []; split; [by apply appends_nil|done]].
  destruct (Get now model h (store s)) as [[e|] st].
  - exists [MHit "fetch"]. split; [|by left].
    destruct (_ && _); [done|]. destruct (_ && _); [done|]. by destruct (streamKV _ _).
  - unfold fetchFromCold. pose proof (coldHit_emits now model h version toks (set_store st s)) as Hc.
    destruct (coldHit _ _ _ _ _ _) as [[kv|] s1]; cbn [fst snd] in Hc.
    + exists [MHit "fetch_cold"]. split; [|by right; right]. destruct (streamKV _ _) as [[|] o]; exact Hc.
    + exists [MMiss "fetch"]. split; [|by right; left]. cbn. unfold appends in *. cbn in *. by rewrite Hc, app_nil_r.
Qed.

Lemma answers_cons op e l : answers_in op (e :: l) = ((if decide (is_answer op e) then 1 else 0) + answers_in op l)%Z.
Proof. unfold answers_in. rewrite filter_cons. case_decide; cbn [length]; lia. Qed.

Lemma batch_one_emits now model i fb out s :
  exists l, appends l s (batch_one now model i fb out s).2 /\ Forall batch_metric l /\ answers_in "batch_fetch" l = 1%Z.
Proof.
  unfold batch_one. set (r := match toBlockHash _ with None => _ | _ => _ end).
  assert (exists l, appends l s r.2 /\ (l = [] \/ l = [MHit "fetch_cold"])) as (l & Hl & Hcase).
  { unfold r. destruct (toBlockHash _) as [h|]; [|exists []; split; [by apply appends_nil|by left]].
    unfold batchResolve. destruct (Get now model h (store s)) as [[e|] st].
    - exists []. split; [|by left]. destruct (guards_ok _ _ _ _); by apply appends_nil.
    - pose proof (coldHit_emits now model h (fb_Version fb) (fb_TokenIds fb) (set_store st s)) as Hc.
      destruct (coldHit _ _ _ _ _ _) as [[kv|] s1]; cbn [fst snd] in *; [exists [MHit "fetch_cold"]|exists []];
        (split; [exact Hc|]); naive_solver. }
  assert (Hfin : forall e s2, e = MHit "batch_fetch" \/ e = MMiss "batch_fetch" -> appends [e] r.2 s2 ->
    exists l, appends l s s2 /\ Forall batch_metric l /\ answers_in "batch_fetch" l = 1%Z).
  { intros e s2 He Hap. exists (l ++ [e]). split; [by apply (appends_trans l [e] s r.2 s2)|].
    destruct He as [-> | ->], Hcase as [-> | ->]; (split; [repeat constructor; unfold batch_metric; naive_solver|done]). }
  destruct r as [[kv|] s1]; cbn [snd] in Hfin.
  - destruct (streamBatchKV _ _ _) as [ok o]. by apply (Hfin (MHit "batch_fetch")); [left|].
  - destruct (sendNotFound _ _) as [ok o]. by apply (Hfin (MMiss "batch_fetch")); [right|].
Qed.

Lemma answers_app op l1 l2 : answers_in op (l1 ++ l2) = (answers_in op l1 + answers_in op l2)%Z.
Proof. unfold answers_in. rewrite filter_app, length_app. lia. Qed.

(** A sink without a limit takes every frame. *)
Lemma batch_one_unlimited now model i fb fs s :
  exists fs', (batch_one now model i fb (mk_sink fs None) s).1 = (true, mk_sink fs' None).
Proof.
  unfold batch_one. destruct (match toBlockHash _ with None => _ | _ => _ end) as [[kv|] s1].
  - rewrite streamBatchKV_spec, send_all_spec. cbn [room]. by eexists.
  - cbn. by eexists.
Qed.

Lemma batch_emits now model i blocks out s :
  exists l, appends l s (batch_loop now model i blocks out s).2
    /\ Forall batch_metric l /\ (answers_in "batch_fetch" l <= Z.of_nat (length blocks))%Z
    /\ (room out = None -> answers_in "batch_fetch" l = Z.of_nat (length blocks)).
Proof.
  revert i out s. induction blocks as [|fb blocks IH]; intros i out s.
  - exists []. split_and!; [by apply appends_nil|constructor|done|done].
  - cbn [batch_loop]. destruct (batch_one_emits now model (u32 (Z.of_nat i)) fb out s) as (l1 & G1a & G1f & G1c).
    assert (Hroom : room out = None -> exists fs, (batch_one now model (u32 (Z.of_nat i)) fb out s).1 = (true, mk_sink fs None)).
    { destruct out as [fs rm]. cbn. intros ->. apply batch_one_unlimited. }
    destruct (batch_one _ _ _ _ _ _) as [[ok out1] s1]. cbn [fst snd] in *. destruct ok.
    + destruct (IH (S i) out1 s1) as (l2 & G2a & G2f & G2c & G2e). exists (l1 ++ l2).
      split; [by apply (appends_trans l1 l2 s s1)|]. rewrite answers_app, G1c. cbn [length].
      split_and!; [by apply Forall_app|lia|]. intros Hr. destruct (Hroom Hr) as (fs & [= ->]). rewrite G2e by done. lia.
    + exists l1. split; [done|]. rewrite G1c. cbn [length]. split_and!; [done|lia|].
      intros Hr. by destruct (Hroom Hr).
Qed.

Lemma server_step_emits ev s :
  exists l, appends l s (server_step s ev) /\ emits ev l.
Proof.
  destruct ev as [model hs|now model hash version toks room|now model blocks room|ca now st|ca now st|model hash|c|t];
    cbn [server_step].
  - destruct (lookup_emits model hs s) as (l & ? & ? & ?). by exists l.
  - apply fetch_emits.
  - destruct (batch_emits now model 0 blocks (mk_sink [] room) s) as (l & ? & ? & ? & ?). exists l. by split.
  - exists []. split; [|done]. apply appends_nil. unfold Write. destruct (assembleBlock ca st) as [[hdr buf]| |]; [|done..].
    destruct (toBlockHash _); [|done]. destruct (OverHardLimit _ _); [done|]. by destruct (Put _ _ _ _).
  - exists []. split; [|done]. apply appends_nil. unfold Replicate. destruct (assembleBlock ca st) as [[hdr buf]| |]; [|done..].
    destruct (toBlockHash _); [|done]. destruct (_ =? 0)%Z; [done|]. by destruct (PutWithVersion _ _ _ _ _).
  - unfold Evict. destruct (toBlockHash hash) as [h|]; [|exists []; split; [by apply appends_nil|by left]].
    destruct (Delete model h (store s)) as [[|] st]; [exists [MEviction "manual" 1]|exists []].
    + split; [done|by right].
    + split; [by apply appends_nil|by left].
  - exists []. split; [by apply appends_nil|done].
  - exists []. split; [by apply appends_nil|done].
Qed.

Lemma recorded_appends l s s' : appends l s s' -> recorded_since (Server.metrics s) (Server.metrics s') = l.
Proof. unfold appends, recorded_since. intros ->. by rewrite drop_app_length. Qed.

(** ** The counters of a run *)

Lemma record_all_spec l m :
  metrics_wf m ->
  metrics_wf (record_all l m) /\ rpcDuration (record_all l m) = rpcDuration m /\ rpcTotal (record_all l m) = rpcTotal m
  /\ (forall op, cache_count (record_all l m) op "hit" = cache_count m op "hit" + hits_in op l)%Z
  /\ (forall op, answered (record_all l m) op = answered m op + answers_in op l)%Z.
Proof.
  revert m. induction l as [|e l IH]; intros m Hwf.
  - split_and!; [done..| |]; intros op; unfold hits_in, answers_in; cbn; lia.
  - destruct (record_metric_spec e m Hwf) as (Hwf1 & Hd & Ht & Hh & Ha). cbn [record_all fold_left].
    destruct (IH (record_metric m e) Hwf1) as (Hwf2 & Hd2 & Ht2 & Hh2 & Ha2). fold (record_all l (record_metric m e)).
    split_and!; [done|congruence|congruence| |].
    + intros op. rewrite Hh2, Hh. unfold hits_in. rewrite filter_cons. case_decide; cbn [length]; lia.
    + intros op. rewrite Ha2, Ha, answers_cons. lia.
Qed.

Lemma observe_spec method code d m :
  metrics_wf m -> code ∈ code_names ->
  metrics_wf (observe method code d m)
  /\ cacheReqs (observe method code d m) = cacheReqs m
  /\ (forall x, observed (observe method code d m) x = observed m x + (if decide (x = method) then 1 else 0))%Z
  /\ (forall x, calls_by_code (observe method code d m) x = calls_by_code m x + (if decide (x = method) then 1 else 0))%Z.
Proof.
  intros (H1' & H2' & H3 & H4 & H5) Hc. unfold observe, observed, calls_by_code, metrics_wf.
  cbn [rpcDuration rpcTotal cacheReqs evictions replication].
  destruct (hv_Observe_spec [method] d (rpcDuration m)) as [Hha Hhv]; [by rewrite H1'|].
  destruct (cv_Inc_spec [method; code] (rpcTotal m)) as [Hca Hcv]; [by rewrite H2'|].
  rewrite Hha, Hca, Hhv, Hcv. split_and!; [done..| |].
  - intros x. case_decide as Hx; [subst x; rewrite lookup_insert_eq; done|].
    rewrite lookup_insert_ne by congruence. lia.
  - intros x. case_decide as Hx.
    + subst x. pose proof code_names_NoDup as Hnd. revert Hnd Hc. generalize code_names.
      induction l as [|c l IH]; intros Hnd Hc; [by apply elem_of_nil in Hc|].
      apply NoDup_cons in Hnd as [Hni Hnd]. rewrite !list_sum_cons. destruct (decide (c = code)) as [->|Hne].
      * rewrite lookup_insert_eq. cbn [from_option]. unfold id at 1.
        assert (list_sum_Z (fun c => default 0%Z (<[[method; code]:=(default 0%Z (cv_value (rpcTotal m) !! [method; code]) + 1)%Z]>
                  (cv_value (rpcTotal m)) !! [method; c])) l
                = list_sum_Z (fun c => default 0%Z (cv_value (rpcTotal m) !! [method; c])) l) as ->; [|lia].
        apply list_sum_ext. intros c Hin. rewrite lookup_insert_ne; [done|]. intros [= ->]. done.
      * rewrite lookup_insert_ne by congruence. apply elem_of_cons in Hc as [->|Hc]; [done|]. rewrite IH by done. lia.
    + rewrite Z.add_0_r. apply list_sum_ext. intros c _. rewrite lookup_insert_ne by congruence. done.
Qed.

(** What one event asks of the cache, and which method it calls. *)
Definition looked_up (e : mon_event) : Z :=
  match e with MonServer (RpcLookup _ hs) _ => Z.of_nat (length hs) | _ => 0 end.
Definition fetched (e : mon_event) : Z :=
  match e with MonServer (RpcFetch _ _ hash _ _ _) _ => if toBlockHash hash is Some _ then 1 else 0 | _ => 0 end.
Definition batched (e : mon_event) : Z :=
  match e with MonServer (RpcBatchFetch _ _ blocks _) _ => Z.of_nat (length blocks) | _ => 0 end.
Definition unbroken (e : mon_event) : Prop :=
  match e with MonServer (RpcBatchFetch _ _ _ room) _ => room = None | _ => True end.
Definition calls (method : string) (e : mon_event) : Z :=
  match e with
  | MonServer ev _ => if decide (method_of ev = Some method) then 1 else 0
  | MonHealth _ => if decide (method = health_method) then 1 else 0
  | _ => 0
  end.

Definition replica_results : list string := ["forwarded"; "dropped"; "error"].
Definition replica_metric (e : metric) : Prop := exists r, e = MReplica r /\ r ∈ replica_results.

Lemma forward_loop_records net rt self job ids ms :
  exists l, (forward_loop net rt self job ids ms).2 = ms ++ l /\ Forall replica_metric l.
Proof.
  revert ms. induction ids as [|id ids IH]; intros ms; [exists []; split; [by rewrite app_nil_r|done]|]. cbn [forward_loop].
  destruct (decide (id = self)); [apply IH|]. destruct (ConnFor id rt) as [c|]; [|apply IH].
  destruct (sendOne (net c) job) as [ok msgs].
  destruct (IH (ms ++ [MReplica (if ok then "forwarded" else "error")])) as (l & Hl & Hf).
  destruct (forward_loop _ _ _ _ _ _) as [dls ms']. cbn [snd] in *. eexists (_ :: l). split; [by rewrite Hl, <- app_assoc|].
  constructor; [|done]. eexists; split; [done|]. unfold replica_results. destruct ok; set_solver.
Qed.

Lemma repl_step_records e r a b :
  exists l, repl_metrics (repl_step (r, a, b) e).1.1 = repl_metrics r ++ l /\ Forall replica_metric l.
Proof.
  destruct e as [job|net rt]; cbn [repl_step].
  - unfold Enqueue. destruct (_ <? _); [exists []; split; [by rewrite app_nil_r|done]|].
    exists [MReplica "dropped"]. split; [done|]. constructor; [|done]. eexists; split; [done|]. unfold replica_results. set_solver.
  - unfold run_round. destruct (queue r) as [|job rest]; [exists []; split; [by rewrite app_nil_r|done]|]. unfold forward.
    cbn [Replicator.self Replicator.rf repl_metrics Replicator.queue].
    destruct (forward_loop_records net rt (Replicator.self r) job
      (OwnersN (placement_key job) (Replicator.rf r) rt) (repl_metrics r)) as (l & Hl & Hf).
    destruct (forward_loop _ _ _ _ _ _) as [dls ms']. cbn in *. by exists l.
Qed.

(** Neither hits nor misses. *)
Definition other_metric (e : metric) : Prop := match e with MEviction _ _ | MReplica _ => True | _ => False end.

Lemma no_answers op l : Forall other_metric l -> hits_in op l = 0%Z /\ answers_in op l = 0%Z.
Proof.
  unfold hits_in, answers_in. induction 1 as [|e l He _ IH]; [done|].
  rewrite !filter_cons, !decide_False by (destruct e; unfold is_answer, is_hit; naive_solver). done.
Qed.

Lemma hook_calls_other log : Forall other_metric (hook_calls log).
Proof. unfold hook_calls. apply Forall_fmap, Forall_true. done. Qed.

Definition accounts (e : mon_event) m m' : Prop :=
  metrics_wf m'
  /\ answered m' "lookup" = (answered m "lookup" + looked_up e)%Z
  /\ (answered m' "fetch" - answered m "fetch" <= fetched e
      <= answered m' "fetch" - answered m "fetch" + (cache_count m' "fetch_cold" "hit" - cache_count m "fetch_cold" "hit"))%Z
  /\ (answered m' "batch_fetch" - answered m "batch_fetch" <= batched e)%Z
  /\ (unbroken e -> answered m' "batch_fetch" - answered m "batch_fetch" = batched e)%Z
  /\ forall method, observed m' method = (observed m method + calls method e)%Z
      /\ calls_by_code m' method = (calls_by_code m method + calls method e)%Z.

Lemma accounts_other e l m :
  metrics_wf m -> Forall other_metric l ->
  looked_up e = 0%Z -> fetched e = 0%Z -> batched e = 0%Z -> (forall method, calls method e = 0%Z) ->
  accounts e m (record_all l m).
Proof.
  intros Hwf Hl Hu Hf Hb Hc. destruct (record_all_spec l m Hwf) as (Hwf' & Hd & Ht & Hh & Ha).
  unfold accounts. rewrite !Ha, Hh, Hu, Hf, Hb. unfold observed, calls_by_code. rewrite Hd, Ht.
  destruct (no_answers "lookup" l Hl) as [_ ->], (no_answers "fetch" l Hl) as [_ ->],
    (no_answers "batch_fetch" l Hl) as [_ ->], (no_answers "fetch_cold" l Hl) as [-> _].
  split_and!; [done|lia..|]. intros method. rewrite Hc. lia.
Qed.

(** Decide which events of a concrete list answer an [op]. *)
Ltac decide_answers :=
  repeat match goal with
  | |- context [decide (is_answer ?op ?e)] =>
      first [rewrite (decide_True (P := is_answer op e)) by (first [by left|by right])
            |rewrite (decide_False (P := is_answer op e)) by (by intros [?|?])]
  end.

Lemma emits_counts ev l d :
  emits ev l ->
  answers_in "lookup" l = looked_up (MonServer ev d)
  /\ (answers_in "fetch" l <= fetched (MonServer ev d) <= answers_in "fetch" l + hits_in "fetch_cold" l)%Z
  /\ (answers_in "batch_fetch" l <= batched (MonServer ev d))%Z
  /\ (unbroken (MonServer ev d) -> answers_in "batch_fetch" l = batched (MonServer ev d)).
Proof.
  assert (Hcold : forall l, (0 <= hits_in "fetch_cold" l)%Z) by (intros; unfold hits_in; lia).
  destruct ev as [model hs|now model hash version toks room|now model blocks room|ca now st|ca now st|model hash|c|t];
    cbn [emits looked_up fetched batched unbroken]; try (intros ->; split_and!; done).
  - intros [Hf Hlen]. specialize (Hcold l). rewrite <- Hlen. clear Hlen.
    assert (answers_in "lookup" l = Z.of_nat (length l) /\ answers_in "fetch" l = 0%Z /\ answers_in "batch_fetch" l = 0%Z)
      as (-> & -> & ->); [|split_and!; done || lia].
    clear Hcold. induction Hf as [|e l He _ (IH1 & IH2 & IH3)]; [done|]. rewrite !answers_cons, IH1, IH2, IH3. cbn [length].
    destruct He as [-> | ->]; decide_answers; split_and!; lia || done.
  - destruct (toBlockHash hash); [|intros ->; split_and!; done]. intros [->|[->| ->]]; split_and!; done.
  - intros (Hf & Hle & Heq). specialize (Hcold l).
    assert (answers_in "lookup" l = 0%Z /\ answers_in "fetch" l = 0%Z) as [-> ->]; [|split_and!; done || lia].
    clear Hcold Hle Heq. induction Hf as [|e l He _ (IH1 & IH2)]; [done|]. rewrite !answers_cons, IH1, IH2.
    destruct He as [->|[->| ->]]; decide_answers; done.
  - intros [->| ->]; split_and!; done.
Qed.

Lemma mon_step_accounts st e st' :
  metrics_wf (mo_metrics st) -> mon_step st e = Some st' -> accounts e (mo_metrics st) (mo_metrics st').
Proof.
  destruct st as [s r m]. intros Hwf Hs. cbn [mo_metrics] in *.
  destruct e as [ev d|d|ev ord|ev rg now|ev b n|e|with_repl]; cbn [mon_step] in Hs.
  - destruct (server_step_emits ev s) as (l & Hl & He). rewrite (recorded_appends l) in Hs by done.
    destruct (record_all_spec l m Hwf) as (Hwf1 & Hd & Ht & Hh & Ha).
    destruct (emits_counts ev l d He) as (C1 & C2 & C3 & C4).
    assert (Hbase : answered (record_all l m) "lookup" = (answered m "lookup" + looked_up (MonServer ev d))%Z
      /\ (answered (record_all l m) "fetch" - answered m "fetch" <= fetched (MonServer ev d)
          <= answered (record_all l m) "fetch" - answered m "fetch"
             + (cache_count (record_all l m) "fetch_cold" "hit" - cache_count m "fetch_cold" "hit"))%Z
      /\ (answered (record_all l m) "batch_fetch" - answered m "batch_fetch" <= batched (MonServer ev d))%Z
      /\ (unbroken (MonServer ev d) -> answered (record_all l m) "batch_fetch" - answered m "batch_fetch" = batched (MonServer ev d))%Z).
    { rewrite !Ha, Hh. split_and!; [lia..|]. intros Hub. specialize (C4 Hub). lia. }
    destruct Hbase as (B1 & B2 & B3 & B4). clear Ha Hh.
    destruct (method_of ev) as [method|] eqn:Em.
    + unfold StreamInterceptor in Hs. destruct (rpc_outcome ev s) as [err|]; [|done]. cbn in Hs. injection Hs as <-. cbn [mo_metrics].
      destruct (observe_spec method (code_name err) d (record_all l m) Hwf1 (code_name_known err)) as (Hwf2 & Hcr & Ho & Hc).
      unfold accounts, answered, cache_count in *. rewrite Hcr. split_and!; [done|exact B1|apply B2|apply B2|exact B3|exact B4|].
      intros x. rewrite Ho, Hc. unfold observed, calls_by_code. rewrite Hd, Ht. cbn [calls]. rewrite Em.
      destruct (decide (x = method)) as [->|Hne]; [by rewrite decide_True|rewrite decide_False by congruence; lia].
    + injection Hs as <-. cbn [mo_metrics]. unfold accounts. split_and!; [done|exact B1|apply B2|apply B2|exact B3|exact B4|].
      intros x. unfold observed, calls_by_code. rewrite Hd, Ht. cbn [calls]. rewrite Em, decide_False by done. lia.
  - cbn in Hs. injection Hs as <-. cbn [mo_metrics].
    destruct (observe_spec health_method (code_name None) d m Hwf (code_name_known None)) as (Hwf2 & Hcr & Ho & Hc).
    unfold accounts, answered, cache_count. rewrite Hcr. cbn [looked_up fetched batched unbroken calls].
    split_and!; [done|lia..|]. intros x. by rewrite Ho, Hc.
  - destruct (on_nudge ev ord (store s) []) as [sto log]. injection Hs as <-. cbn [mo_metrics].
    apply accounts_other; [done|apply hook_calls_other|done..].
  - destruct (on_tick ev rg now (store s) []) as [sto log]. injection Hs as <-. cbn [mo_metrics].
    apply accounts_other; [done|apply hook_calls_other|done..].
  - injection Hs as <-. cbn [mo_metrics]. apply accounts_other; [done|apply hook_calls_other|done..].
  - apply (inj Some) in Hs. subst st'. cbn [mo_metrics]. destruct (repl_step_records e r [] []) as (l & -> & Hf).
    unfold recorded_since. rewrite drop_app_length. apply accounts_other; [done| |done..].
    eapply Forall_impl; [exact Hf|]. by intros x (? & -> & _).
  - injection Hs as <-. cbn [mo_metrics]. change m with (record_all [] m) at 1.
    assert (Hn : accounts (MonPoll with_repl) m (record_all [] m)) by (by apply accounts_other).
    by destruct with_repl.
Qed.

Lemma mon_run_wf es st st' : metrics_wf (mo_metrics st) -> mon_run st es = Some st' -> metrics_wf (mo_metrics st').
Proof.
  revert st. induction es as [|e es IH]; intros st Hwf; cbn [mon_run]; [by intros [= <-]|].
  destruct (mon_step st e) as [st1|] eqn:E; [|done]. apply IH. by apply (mon_step_accounts st e st1).
Qed.

(** A process as it starts. *)
Definition mon_start s (r : Replicator) : monitored := mk_monitored s r New.

Lemma New_counts :
  (forall op res, cache_count New op res = 0%Z) /\ (forall x, observed New x = 0%Z /\ calls_by_code New x = 0%Z).
Proof.
  unfold cache_count, observed, calls_by_code, New. cbn [cacheReqs rpcTotal rpcDuration].
  destruct (cv_new_spec ["op"; "result"]) as [_ ->], (cv_new_spec ["method"; "code"]) as [_ ->],
    (hv_new_spec ["method"]) as [_ ->].
  split; [intros; by rewrite lookup_empty|]. intros x. rewrite lookup_empty. split; [done|].
  induction code_names as [|c l IH]; [done|]. by rewrite list_sum_cons, IH, lookup_empty.
Qed.

(** C27. The counters tell what the node did, over any run of requests, evictor
    rounds, replications and polls: hits and misses of lookup are exactly the
    hashes looked up; those of fetch, with the cold hits, cover every well-formed
    fetch, and without them no more than that; those of batch_fetch never exceed
    the blocks asked, and equal them when no stream broke; and every call is
    counted once by its method and status code and timed once. *)
Theorem metrics_account es s r st :
  mon_run (mon_start s r) es = Some st ->
  let m := mo_metrics st in
  answered m "lookup" = list_sum_Z looked_up es
  /\ (answered m "fetch" <= list_sum_Z fetched es <= answered m "fetch" + cache_count m "fetch_cold" "hit")%Z
  /\ (answered m "batch_fetch" <= list_sum_Z batched es)%Z
  /\ (Forall unbroken es -> answered m "batch_fetch" = list_sum_Z batched es)
  /\ forall method, observed m method = list_sum_Z (calls method) es /\ calls_by_code m method = list_sum_Z (calls method) es.
Proof.
  intros Hrun m.
  assert (Hgen : forall st0, metrics_wf (mo_metrics st0) -> mon_run st0 es = Some st ->
    answered m "lookup" = (answered (mo_metrics st0) "lookup" + list_sum_Z looked_up es)%Z
    /\ (answered m "fetch" - answered (mo_metrics st0) "fetch" <= list_sum_Z fetched es
        <= answered m "fetch" - answered (mo_metrics st0) "fetch"
           + (cache_count m "fetch_cold" "hit" - cache_count (mo_metrics st0) "fetch_cold" "hit"))%Z
    /\ (answered m "batch_fetch" - answered (mo_metrics st0) "batch_fetch" <= list_sum_Z batched es)%Z
    /\ (Forall unbroken es -> answered m "batch_fetch" - answered (mo_metrics st0) "batch_fetch" = list_sum_Z batched es)%Z
    /\ forall x, observed m x = (observed (mo_metrics st0) x + list_sum_Z (calls x) es)%Z
        /\ calls_by_code m x = (calls_by_code (mo_metrics st0) x + list_sum_Z (calls x) es)%Z).
  { clear Hrun. subst m. induction es as [|e es IH]; intros st0 Hwf; cbn [mon_run].
    - intros [= <-]. cbn. split_and!; [lia..|]. intros x. lia.
    - destruct (mon_step st0 e) as [st1|] eqn:E; [|done]. intros Hr.
      destruct (mon_step_accounts st0 e st1 Hwf E) as (Hwf1 & A1 & A2 & A3 & A4 & A5).
      destruct (IH st1 Hwf1 Hr) as (I1 & I2 & I3 & I4 & I5). rewrite !list_sum_cons. split_and!; [lia..| |].
      + intros [Hu Hus]%Forall_cons. specialize (A4 Hu). specialize (I4 Hus). lia.
      + intros x. rewrite list_sum_cons. destruct (A5 x) as [A51 A52], (I5 x) as [I51 I52]. lia. }
  destruct (Hgen (mon_start s r) New_wf Hrun) as (G1 & G2 & G3 & G4 & G5). cbn [mon_start mo_metrics] in *.
  destruct New_counts as [Hz Hc].
  assert (Ha : forall op, answered New op = 0%Z) by (intros; unfold answered; by rewrite !Hz).
  rewrite !Ha in *. rewrite Hz in G2. split_and!; [lia..| |].
  - intros Hu. specialize (G4 Hu). lia.
  - intros x. destruct (G5 x) as [-> ->], (Hc x) as [-> ->]. lia.
Qed.

(** ** How many series there can be *)

Definition cache_labels : list (list string) :=
  [["lookup"; "hit"]; ["lookup"; "miss"]; ["fetch"; "hit"]; ["fetch"; "miss"]; ["fetch_cold"; "hit"];
   ["batch_fetch"; "hit"]; ["batch_fetch"; "miss"]]%string.
Definition reasons : list string := ["manual"; "pressure"; "ttl"].
Definition method_names : list string :=
  ["/kvcache.v1.KVCache/Lookup"; "/kvcache.v1.KVCache/Fetch"; "/kvcache.v1.KVCache/BatchFetch"; "/kvcache.v1.KVCache/Write";
   "/kvcache.v1.KVCache/Replicate"; "/kvcache.v1.KVCache/Evict"; "/kvcache.v1.KVCache/Health"].

(** A metric of the budget. *)
Definition budgeted (e : metric) : Prop :=
  match e with
  | MHit op => [op; "hit"] ∈ cache_labels
  | MMiss op => [op; "miss"] ∈ cache_labels
  | MEviction reason _ => reason ∈ reasons
  | MReplica result => result ∈ replica_results
  end.

Record within_budget m : Prop := mk_within {
  wb_wf : metrics_wf m;
  wb_cache ls : is_Some (cv_value (cacheReqs m) !! ls) -> ls ∈ cache_labels;
  wb_evictions ls : is_Some (cv_value (evictions m) !! ls) -> ls ∈ (fun r => [r]) <$> reasons;
  wb_replication ls : is_Some (cv_value (replication m) !! ls) -> ls ∈ (fun r => [r]) <$> replica_results;
  wb_total ls : is_Some (cv_value (rpcTotal m) !! ls) -> ls ∈ method_names ≫= (fun x => (fun c => [x; c]) <$> code_names);
  wb_duration ls : is_Some (hv_count (rpcDuration m) !! ls) -> ls ∈ (fun x => [x]) <$> method_names;
}.

Lemma insert_budget {V} (f : gmap (list string) V) (L : list (list string)) ls v :
  (forall ls, is_Some (f !! ls) -> ls ∈ L) -> ls ∈ L -> forall ls', is_Some (<[ls := v]> f !! ls') -> ls' ∈ L.
Proof. intros Hf Hls ls' Hi. apply lookup_insert_is_Some in Hi as [<-|[_ Hi]]; [done|by apply Hf]. Qed.

Lemma record_metric_budget e m : budgeted e -> within_budget m -> within_budget (record_metric m e).
Proof.
  intros Hb [Hwf W1 W2 W3 W4 W5]. pose proof Hwf as (A1 & A2 & A3 & A4 & A5).
  destruct (record_metric_spec e m Hwf) as [Hwf' _].
  destruct e as [op|op|reason k|res]; cbn [record_metric budgeted] in *.
  - destruct (cv_Inc_spec [op; "hit"] (cacheReqs m)) as [_ Hv]; [by rewrite A3|]. split; [done| |done..].
    cbn [Hit set_cacheReqs cacheReqs]. rewrite Hv. by apply insert_budget.
  - destruct (cv_Inc_spec [op; "miss"] (cacheReqs m)) as [_ Hv]; [by rewrite A3|]. split; [done| |done..].
    cbn [Miss set_cacheReqs cacheReqs]. rewrite Hv. by apply insert_budget.
  - unfold Eviction in *. destruct (Z.ltb_spec 0 k); [|done].
    destruct (cv_Add_spec [reason] (f64_of_Z k) (evictions m)) as (_ & z & Hv & _); [by rewrite A4|apply f64_of_Z_nonneg; lia|].
    split; [done|done| |done..]. cbn [evictions]. rewrite Hv. apply insert_budget; [done|].
    apply (list_elem_of_fmap_2 (fun r => [r])). done.
  - destruct (cv_Inc_spec [res] (replication m)) as [_ Hv]; [by rewrite A5|]. split; [done..| |done|done].
    cbn [Replica replication]. rewrite Hv. apply insert_budget; [done|]. apply (list_elem_of_fmap_2 (fun r => [r])). done.
Qed.

Lemma record_all_budget l m : Forall budgeted l -> within_budget m -> within_budget (record_all l m).
Proof.
  intros Hl. revert m. induction Hl as [|e l He _ IH]; intros m Hm; [done|]. cbn [record_all fold_left].
  by apply IH, record_metric_budget.
Qed.

Lemma observe_budget method c d m :
  method ∈ method_names -> c ∈ code_names -> within_budget m -> within_budget (observe method c d m).
Proof.
  intros Hm Hc [Hwf W1 W2 W3 W4 W5]. pose proof Hwf as (A1 & A2 & A3 & A4 & A5).
  destruct (observe_spec method c d m Hwf Hc) as [Hwf' _].
  destruct (cv_Inc_spec [method; c] (rpcTotal m)) as [_ Hv]; [by rewrite A2|].
  destruct (hv_Observe_spec [method] d (rpcDuration m)) as [_ Hh]; [by rewrite A1|].
  split; [done..| |]; cbn [observe rpcTotal rpcDuration].
  - rewrite Hv. apply insert_budget; [done|]. apply list_elem_of_bind. exists method. split; [|done].
    by apply (list_elem_of_fmap_2 (fun c => [method; c])).
  - rewrite Hh. apply insert_budget; [done|]. by apply (list_elem_of_fmap_2 (fun x => [x])).
Qed.

Lemma emits_budget ev l : emits ev l -> Forall budgeted l.
Proof.
  assert (Hb : forall e, lookup_metric e \/ batch_metric e \/ e = MHit "fetch" \/ e = MMiss "fetch" -> budgeted e).
  { unfold lookup_metric, batch_metric. intros e He. destruct_or? He; subst e; cbn; unfold cache_labels; set_solver. }
  destruct ev as [model hs|now model hash version toks room|now model blocks room|ca now st|ca now st|model hash|c|t];
    cbn [emits]; try (intros ->; constructor).
  - intros [Hf _]. eapply Forall_impl; [exact Hf|]. intros e He. apply Hb. by left.
  - destruct (toBlockHash hash); [|intros ->; constructor].
    intros [->|[->| ->]]; (constructor; [|constructor]); apply Hb; unfold batch_metric; naive_solver.
  - intros (Hf & _). eapply Forall_impl; [exact Hf|]. intros e He. apply Hb. by right; left.
  - intros [->| ->]; [constructor|]. constructor; [|constructor]. cbn. unfold reasons. set_solver.
Qed.

Lemma report_budget e reason n : reason ∈ reasons -> Forall budgeted (hook_calls (report e reason n [])).
Proof. intros Hr. unfold report. destruct (_ && _); [|constructor]. constructor; [done|constructor]. Qed.

Lemma mon_step_budget st e st' : within_budget (mo_metrics st) -> mon_step st e = Some st' -> within_budget (mo_metrics st').
Proof.
  destruct st as [s r m]. intros Hw Hs. cbn [mo_metrics] in *.
  destruct e as [ev d|d|ev ord|ev rg now|ev b n|e|with_repl]; cbn [mon_step] in Hs.
  - destruct (server_step_emits ev s) as (l & Hl & He). rewrite (recorded_appends l) in Hs by done.
    assert (Hw1 : within_budget (record_all l m)) by (apply record_all_budget; [by eapply emits_budget|done]).
    destruct (method_of ev) as [method|] eqn:Em.
    + unfold StreamInterceptor in Hs. destruct (rpc_outcome ev s) as [err|]; [|done]. cbn in Hs. injection Hs as <-.
      cbn [mo_metrics]. apply observe_budget; [|apply code_name_known|done].
      unfold method_names. destruct ev; simplify_eq/=; set_solver.
    + injection Hs as <-. done.
  - cbn in Hs. injection Hs as <-. cbn [mo_metrics]. apply observe_budget; [|apply code_name_known|done].
    unfold method_names, health_method. set_solver.
  - unfold on_nudge in Hs. destruct (drain ord _) as [k sto]. injection Hs as <-. cbn [mo_metrics].
    apply record_all_budget; [|done]. apply report_budget. unfold reasons. set_solver.
  - unfold on_tick in Hs. destruct (sweepIdle _ _ _ _) as [k sto]. injection Hs as <-. cbn [mo_metrics].
    apply record_all_budget; [|done]. apply report_budget. unfold reasons. set_solver.
  - injection Hs as <-. cbn [mo_metrics]. apply record_all_budget; [|done]. apply report_budget. unfold reasons.
    destruct b; set_solver.
  - apply (inj Some) in Hs. subst st'. cbn [mo_metrics]. destruct (repl_step_records e r [] []) as (l & -> & Hf).
    unfold recorded_since. rewrite drop_app_length. apply record_all_budget; [|done].
    eapply Forall_impl; [exact Hf|]. by intros x (? & -> & ?).
  - injection Hs as <-. cbn [mo_metrics]. destruct Hw. by destruct with_repl.
Qed.

Lemma New_budget : within_budget New.
Proof.
  split; [apply New_wf|..]; intros ls; unfold New; cbn [cacheReqs evictions replication rpcTotal rpcDuration].
  - destruct (cv_new_spec ["op"; "result"]) as [_ ->]. intros [x Hx]. by rewrite lookup_empty in Hx.
  - destruct (cv_new_spec ["reason"]) as [_ ->]. intros [x Hx]. by rewrite lookup_empty in Hx.
  - destruct (cv_new_spec ["result"]) as [_ ->]. intros [x Hx]. by rewrite lookup_empty in Hx.
  - destruct (cv_new_spec ["method"; "code"]) as [_ ->]. intros [x Hx]. by rewrite lookup_empty in Hx.
  - destruct (hv_new_spec ["method"]) as [_ ->]. intros [x Hx]. by rewrite lookup_empty in Hx.
Qed.

Lemma size_budget {V} (f : gmap (list string) V) (L : list (list string)) :
  (forall ls, is_Some (f !! ls) -> ls ∈ L) -> size f <= length L.
Proof.
  intros Hf. rewrite <- length_map_to_list, <- (length_fmap fst).
  apply submseteq_length, NoDup_submseteq; [apply NoDup_fst_map_to_list|].
  intros ls (kv & -> & Hkv)%list_elem_of_fmap. destruct kv as [ls v]. apply Hf. exists v. by apply elem_of_map_to_list.
Qed.

(** The label budget holds: whatever the clients send (models, tenants,
    hashes), however many calls, and whatever the policies and the peers do, a
    node never holds more than seven cache series, three eviction series, three
    replication series, a latency series per method and a call series per method
    and status code. *)
Theorem series_bounded es s r st :
  mon_run (mon_start s r) es = Some st ->
  let m := mo_metrics st in
  size (cv_value (cacheReqs m)) <= 7 /\ size (cv_value (evictions m)) <= 3 /\ size (cv_value (replication m)) <= 3
  /\ size (hv_count (rpcDuration m)) <= 7 /\ size (cv_value (rpcTotal m)) <= 7 * length code_names.
Proof.
  intros Hrun m.
  assert (Hw : within_budget m).
  { subst m. assert (Hgen : forall st0, within_budget (mo_metrics st0) -> mon_run st0 es = Some st -> within_budget (mo_metrics st)).
    { clear Hrun. induction es as [|e es IH]; intros st0 Hw; cbn [mon_run]; [by intros [= <-]|].
      destruct (mon_step st0 e) as [st1|] eqn:E; [|done]. apply IH. by eapply mon_step_budget. }
    apply (Hgen (mon_start s r)); [apply New_budget|done]. }
  destruct Hw as [_ W1 W2 W3 W4 W5]. apply size_budget in W1, W2, W3, W4, W5. rewrite ?length_fmap in *.
  split_and!; [exact W1|exact W2|exact W3|exact W5|].
  etransitivity; [exact W4|]. cbn [method_names mbind list_bind]. rewrite !length_app, !length_fmap. cbn [length]. lia.
Qed.

End node.

(** ** Witnesses *)

(** Vectors as finite maps. *)
Definition insert_at (ls : list string) (n : Z) (v : nat * gmap (list string) Z) : nat * gmap (list string) Z :=
  (v.1, <[ls := (default 0%Z (v.2 !! ls) + n)%Z]> v.2).

#[local] Instance map_prometheus : Prometheus (nat * gmap (list string) Z) (nat * gmap (list string) Z) float64.
Proof.
  refine {|
    cv_new names := (length names, ∅); cv_Inc ls v := insert_at ls 1 v; cv_Add ls x v := insert_at ls (Z.max 0 (f64_to_i64 x)) v;
    cv_arity := fst; cv_value := snd;
    hv_new names := (length names, ∅); hv_Observe ls d v := insert_at ls 1 v; hv_arity := fst; hv_count := snd;
    gv_new := f64_0; gv_Set x _ := x; gv_value x := x |}; try done.
  intros ls x v _ _. split; [done|]. eexists. split; [done|]. lia.
Defined.

#[local] Instance w_status : GrpcStatus.
Proof.
  refine {|
    code_names := ["OK"; "NotFound"; "InvalidArgument"; "ResourceExhausted"; "Unavailable"]%string;
    code_name e :=
      match e with
      | None => "OK"
      | Some (StatusError NotFound _) => "NotFound"
      | Some (StatusError InvalidArgument _) => "InvalidArgument"
      | Some (StatusError ResourceExhausted _) => "ResourceExhausted"
      | Some TransportError => "Unavailable"
      end%string |}.
  - repeat (constructor; [set_solver|]). constructor.
  - intros [[[] ?|]|]; set_solver.
Defined.

Definition w_monitored : monitored :=
  mon_start (P := LRUPolicy) (T := Memory) (Server.New (NewStore NewLRU [])) (NewReplicator "a" 2).
Definition w_events : list (mon_event (P := LRUPolicy) (T := Memory)) :=
  [MonServer (RpcLookup "m" [[]; []]) 3; MonServer (RpcFetch 1 "m" [] 0 [] None) 2; MonHealth 1; MonPoll true].
Definition w_after : monitored := default w_monitored (mon_run w_monitored w_events).

Lemma metrics_account_witness :
  mon_run w_monitored w_events = Some w_after /\ answered (mo_metrics w_after) "lookup" = 2%Z
  /\ observed (mo_metrics w_after) "/kvcache.v1.KVCache/Fetch" = 1%Z.
Proof.
  destruct (metrics_account w_events (mo_server w_monitored) (mo_repl w_monitored) w_after eq_refl) as (H1 & _ & _ & _ & H5).
  split; [reflexivity|]. split; [exact H1|apply H5].
Defined.

Lemma series_bounded_witness : size (cv_value (cacheReqs (mo_metrics w_after))) <= 7.
Proof. exact (proj1 (series_bounded w_events (mo_server w_monitored) (mo_repl w_monitored) w_after eq_refl)). Defined.
