(* ===== verification/Spot.v ===== *)
(** The Spot watcher: [src/internal/spot/spot.go], and the channel through which
    it stops the node ([src/cmd/cache-server/main.go]).

    The metadata service is whatever answers an HTTP request; the ticker and the
    cancellation are the environment's sequence of events. *)

From S2P Require Import Prelude Text Bytes Float64 Policy Lru Gdsf GdsfInv GdsfRefine Store Evictor ColdTier Server Ring Router Coord Replicator Node Shutdown.

(** ** HTTP *)

Record request := mk_request { rq_method : string; rq_url : string; rq_headers : list (string * string) }.

(** A response: its status, and its body if it can be read to the end. *)
Record response := mk_response { rs_status : Z; rs_body : option string }.

(** [http.Client.Do]; [None] is a transport error or a time-out. *)
Abbreviation client := (request -> option response).

Definition imdsBase : string := "http://169.254.169.254".
Definition tokenPath : string := "/latest/api/token".
Definition noticePath : string := "/latest/meta-data/spot/instance-action".
Definition tokenTTL : string := "60".
Definition StatusOK : Z := 200.

(** [fetchToken] *)
Definition token_request : request :=
  mk_request "PUT" (imdsBase ++ tokenPath) [("X-aws-ec2-metadata-token-ttl-seconds", tokenTTL)]%string.
Definition fetchToken (c : client) : option string :=
  match c token_request with Some resp => rs_body resp | None => None end.

(** [checkOnce]; [None] is an error. *)
Definition notice_request (token : string) : request :=
  mk_request "GET" (imdsBase ++ noticePath) [("X-aws-ec2-metadata-token", token)]%string.
Definition checkOnce (c : client) : option bool :=
  match fetchToken c with
  | None => None
  | Some token =>
      match c (notice_request token) with
      | None => None
      | Some resp => Some (rs_status resp =? StatusOK)%Z
      end
  end.

(** ** [Watch] *)

(** What a [select] of the loop receives. *)
Inductive watch_event := Done | Tick (c : client).

(** What the watcher does. *)
Inductive watch_action := LogUnreachable | LogNotice | OnInterrupt.
#[export] Instance watch_action_eq_dec : EqDecision watch_action.
Proof. solve_decision. Defined.

(** The loop; the flag is [loggedUnreachable].  The second component says whether
    it has returned. *)
Fixpoint watch_loop (logged : bool) (evs : list watch_event) : list watch_action * bool :=
  match evs with
  | [] => ([], false)
  | Done :: _ => ([], true)
  | Tick c :: evs =>
      match checkOnce c with
      | None =>
          let '(acts, r) := watch_loop true evs in ((if logged then [] else [LogUnreachable]) ++ acts, r)
      | Some true => ([LogNotice; OnInterrupt], true)
      | Some false => watch_loop false evs
      end
  end.
Definition Watch (evs : list watch_event) : list watch_action * bool := watch_loop false evs.

(** ** What the watcher promises *)

(** The polls made before the context was cancelled. *)
Fixpoint polls (evs : list watch_event) : list (option bool) :=
  match evs with
  | [] | Done :: _ => []
  | Tick c :: evs => checkOnce c :: polls evs
  end.
Definition cancelled (evs : list watch_event) : Prop := Done ∈ evs.

(** The outages in a sequence of polls up to the first notice: the failed polls
    that do not follow a failed one. *)
Fixpoint outages (down : bool) (ps : list (option bool)) : nat :=
  match ps with
  | [] => 0
  | None :: ps => (if down then 0 else 1) + outages true ps
  | Some true :: _ => 0
  | Some false :: ps => outages false ps
  end.

Definition times (a : watch_action) (acts : list watch_action) : nat := length (filter (eq a) acts).

Lemma times_cons a b acts : times a (b :: acts) = (if decide (a = b) then 1 else 0) + times a acts.
Proof. unfold times. rewrite filter_cons. by case_decide. Qed.

#[export] Instance watch_event_done_dec (e : watch_event) : Decision (e = Done).
Proof. destruct e; [by left|by right]. Defined.

Lemma watch_loop_spec logged evs :
  let '(acts, returned) := watch_loop logged evs in
  times LogUnreachable acts = outages logged (polls evs)
  /\ (Some true ∈ polls evs -> returned = true /\ last acts = Some OnInterrupt /\ times OnInterrupt acts = 1)
  /\ (~ (Some true ∈ polls evs) -> times OnInterrupt acts = 0 /\ (returned = true <-> cancelled evs)).
Proof.
  revert logged. induction evs as [|[|c] evs IH]; intros logged; cbn [watch_loop polls outages].
  - split_and!; [done|by intros ?%elem_of_nil|]. intros _. split; [done|]. unfold cancelled. by rewrite elem_of_nil.
  - split_and!; [done|by intros ?%elem_of_nil|]. intros _. split; [done|]. split; [|done]. intros _. by left.
  - assert (Hc : cancelled (Tick c :: evs) <-> cancelled evs).
    { unfold cancelled. rewrite elem_of_cons. split; [by intros [?|]|by right]. }
    destruct (checkOnce c) as [[|]|]; cbn [outages].
    + split_and!; [done| |]; [intros _; done|]. intros Hn. by destruct Hn; left.
    + specialize (IH false). destruct (watch_loop false evs) as [acts r]. destruct IH as (I1 & I2 & I3).
      split_and!; [done| |].
      * intros [?|Hin]%elem_of_cons; [done|by apply I2].
      * intros Hn. rewrite Hc. apply I3. intros Hin. by apply Hn; right.
    + specialize (IH true). destruct (watch_loop true evs) as [acts r]. destruct IH as (I1 & I2 & I3).
      assert (Hpre : forall a, times a ((if logged then [] else [LogUnreachable]) ++ acts)
        = (if logged then 0 else if decide (a = LogUnreachable) then 1 else 0) + times a acts).
      { intros a. destruct logged; [done|]. cbn [app]. by rewrite times_cons. }
      rewrite !Hpre. split_and!.
      * rewrite I1. by destruct logged.
      * intros [?|Hin]%elem_of_cons; [done|]. destruct (I2 Hin) as (-> & Hl & ->). split_and!; [done| |by destruct logged].
        destruct logged; [done|]. cbn [app]. destruct acts as [|a acts]; [done|]. exact Hl.
      * intros Hn. rewrite Hc. destruct I3 as [-> HI]; [intros Hin; by apply Hn; right|]. split; [by destruct logged|done].
Qed.

(** The watcher: [onInterrupt] runs exactly once if a poll made before the
    cancellation sees the notice, as its last action and then it returns; it never
    runs otherwise, and the watcher then returns only when cancelled, an outage of
    the metadata service does not stop it; and each outage is logged once,
    however long it lasts. *)
Theorem watch_exact evs :
  let '(acts, returned) := Watch evs in
  times LogUnreachable acts = outages false (polls evs)
  /\ (Some true ∈ polls evs -> returned = true /\ last acts = Some OnInterrupt /\ times OnInterrupt acts = 1)
  /\ (~ (Some true ∈ polls evs) -> times OnInterrupt acts = 0 /\ (returned = true <-> cancelled evs)).
Proof. apply watch_loop_spec. Qed.

(** ** The stop channel *)

Inductive signal := SIGINT | SIGTERM.

(** The channel [stop], of capacity one; both senders ([signal.Notify] and the
    watcher's callback) give up when it is full. *)
Definition stop_capacity : nat := 1.
Definition try_send (sig : signal) (stop : list signal) : list signal :=
  if length stop <? stop_capacity then stop ++ [sig] else stop.

(** [main] and its senders: a signal from outside, an action of the watcher, or
    [main] taking the signal it waits for. *)
Record waiting := mk_waiting { wt_stop : list signal; wt_stopping : bool }.
Inductive stop_event := Outside (sig : signal) | Watcher (a : watch_action) | Receive.
Definition stop_step (s : waiting) (e : stop_event) : waiting :=
  match e with
  | Outside sig => mk_waiting (try_send sig (wt_stop s)) (wt_stopping s)
  | Watcher OnInterrupt => mk_waiting (try_send SIGTERM (wt_stop s)) (wt_stopping s)
  | Watcher _ => s
  | Receive =>
      match wt_stop s with
      | sig :: rest => if wt_stopping s then s else mk_waiting rest true
      | [] => s
      end
  end.
Definition stop_run (es : list stop_event) (s : waiting) : waiting := fold_left stop_step es s.
Definition main_waits : waiting := mk_waiting [] false.

(** The actions [main] takes once it has received. *)
Definition main_actions {T} (fl : flags) (nd : node T) (s : waiting) : list action :=
  if wt_stopping s then shutdown fl nd else [].

Lemma stop_run_inv es s :
  length (wt_stop s) <= stop_capacity ->
  length (wt_stop (stop_run es s)) <= stop_capacity
  /\ ((wt_stop s <> [] \/ wt_stopping s = true \/ Watcher OnInterrupt ∈ es \/ exists sig, Outside sig ∈ es) ->
      wt_stop (stop_run es s) <> [] \/ wt_stopping (stop_run es s) = true)
  /\ (wt_stop (stop_run es s) <> [] \/ wt_stopping (stop_run es s) = true ->
      wt_stopping s = true \/ wt_stop s <> [] \/ Watcher OnInterrupt ∈ es \/ exists sig, Outside sig ∈ es).
Proof.
  unfold stop_run. revert s. induction es as [|e es IH]; intros s Hs; cbn [fold_left].
  - split_and!; [done| |].
    + intros [?|[?|[?%elem_of_nil|[sig ?%elem_of_nil]]]]; auto.
    + intros [?|?]; auto.
  - assert (Hsend : forall sig st, length st <= stop_capacity -> length (try_send sig st) <= stop_capacity /\ try_send sig st <> []).
    { intros sig st Hl. unfold try_send, stop_capacity in *. destruct (Nat.ltb_spec (length st) 1).
      - rewrite length_app. cbn. split; [lia|]. by destruct st.
      - split; [done|]. by destruct st; cbn in *; [lia|]. }
    assert (Hstep : length (wt_stop (stop_step s e)) <= stop_capacity).
    { destruct e as [sig|[]|]; cbn [stop_step wt_stop]; try done; try by apply Hsend.
      destruct (wt_stop s) as [|sig rest] eqn:E; [by rewrite E|]. destruct (wt_stopping s); cbn; rewrite ?E; cbn in *; lia. }
    destruct (IH (stop_step s e) Hstep) as (I1 & I2 & I3). split_and!; [done| |].
    + intros Hcase. apply I2.
      assert (Hnow : (exists sig, e = Outside sig) \/ e = Watcher OnInterrupt -> wt_stop (stop_step s e) <> []).
      { intros [[sig ->]| ->]; cbn [stop_step wt_stop]; by apply Hsend. }
      assert (Hkeep : wt_stop s <> [] \/ wt_stopping s = true -> wt_stop (stop_step s e) <> [] \/ wt_stopping (stop_step s e) = true).
      { intros Hk. destruct e as [sig|[]|]; cbn [stop_step wt_stop wt_stopping]; try done; try (left; by apply Hsend).
        destruct (wt_stop s) as [|sig rest] eqn:E; [destruct Hk as [|Hk]; [done|right; exact Hk]|].
        destruct (wt_stopping s) eqn:Es; [right; exact Es|by right]. }
      destruct Hcase as [Hc|[Hc|[Hin|[sig Hin]]]]; [destruct (Hkeep (or_introl Hc)); auto|destruct (Hkeep (or_intror Hc)); auto| |].
      * apply elem_of_cons in Hin as [<-|Hin]; [left; apply Hnow; by right|auto].
      * apply elem_of_cons in Hin as [<-|Hin]; [left; apply Hnow; left; by exists sig|]. do 3 right. by exists sig.
    + intros Hst. destruct (I3 Hst) as [Hr|[Hr|[Hr|[sig Hr]]]].
      * destruct e as [sig|[]|]; cbn [stop_step wt_stopping] in Hr; auto. destruct (wt_stop s) eqn:E; [auto|]. right; left. done.
      * destruct e as [sig|[]|]; cbn [stop_step wt_stop] in Hr; auto.
        -- do 3 right. exists sig. by left.
        -- do 2 right. left. by left.
        -- destruct (wt_stop s) eqn:E; [rewrite E in Hr; done|]. right; left. done.
      * do 2 right. left. by right.
      * do 3 right. exists sig. by right.
Qed.

(** The goroutine [main] starts when [-spot] is given. *)
Definition spot_goroutine (fl : flags) (evs : list watch_event) : list watch_action * bool :=
  if spotWatch fl then Watch evs else ([], true).

(** What the watcher has done of it so far, in what happened to [main]. *)
Definition watcher_actions (es : list stop_event) : list watch_action :=
  omap (fun e => match e with Watcher a => Some a | _ => None end) es.

Lemma watcher_actions_elem a es : a ∈ watcher_actions es <-> Watcher a ∈ es.
Proof.
  unfold watcher_actions. rewrite list_elem_of_omap. split.
  - by intros ([|a'|] & Hin & [= <-]).
  - intros Hin. by exists (Watcher a).
Qed.

(** The metadata service announces the interruption: it gives a token, and answers
    the request that carries it with 200. *)
Definition announces (c : client) : Prop :=
  exists r token r', c token_request = Some r /\ rs_body r = Some token
    /\ c (notice_request token) = Some r' /\ rs_status r' = 200%Z.

Lemma checkOnce_announces c : checkOnce c = Some true <-> announces c.
Proof.
  unfold checkOnce, fetchToken, announces. split.
  - destruct (c token_request) as [r|]; [|done]. destruct (rs_body r) as [token|] eqn:Eb; [|done].
    destruct (c (notice_request token)) as [r'|] eqn:En; [|done]. intros [= He%Z.eqb_eq]. by exists r, token, r'.
  - intros (r & token & r' & -> & -> & -> & ->). done.
Qed.

(** The services asked before the cancellation. *)
Fixpoint polled (evs : list watch_event) : list client :=
  match evs with
  | [] | Done :: _ => []
  | Tick c :: evs => c :: polled evs
  end.

Lemma polls_notice evs : Some true ∈ polls evs <-> exists c, c ∈ polled evs /\ announces c.
Proof.
  assert (E : polls evs = checkOnce <$> polled evs).
  { induction evs as [|[|c] evs IH]; cbn; [done..|]. by rewrite IH. }
  rewrite E, list_elem_of_fmap. split.
  - intros (c & Hc & Hin). exists c. split; [done|by apply checkOnce_announces].
  - intros (c & Hin & Hc%checkOnce_announces). by exists c.
Qed.

(** Without a notice the watcher does not call back. *)
Lemma Watch_calls_back evs : OnInterrupt ∈ (Watch evs).1 <-> exists c, c ∈ polled evs /\ announces c.
Proof.
  rewrite <- polls_notice. pose proof (watch_loop_spec false evs) as Hw. unfold Watch.
  destruct (watch_loop false evs) as [acts r]. destruct Hw as (_ & Hy & Hn). cbn [fst].
  destruct (decide (Some true ∈ polls evs)) as [Hin|Hno].
  - split; [done|]. intros _. destruct (Hy Hin) as (_ & Hl & _). by apply last_Some_elem_of in Hl.
  - split; [|done]. intros Hin. destruct (Hn Hno) as [H0 _]. exfalso.
    assert (Hf : OnInterrupt ∈ filter (eq OnInterrupt) acts) by (by apply list_elem_of_filter).
    unfold times in H0. destruct (filter _ acts); [by apply elem_of_nil in Hf|done].
Qed.

(** C31. A notice drains the node, and nothing else that the metadata service does:
    with [-spot], once the watcher has done what it does on a poll that was
    answered with 200 before the cancellation, [main] has received a signal or its
    next receive succeeds, however many signals race for the one slot, and it then
    releases the lease before it stops the server; and as long as no signal came
    from outside, [main] starts to stop only with [-spot] and after such a poll,
    never on another status, on a failed poll or an unreachable service. *)
Theorem notice_drains_node {T} (fl : flags) (nd : node T) evs es :
  is_Some (nd_release nd) -> watcher_actions es `prefix_of` (spot_goroutine fl evs).1 ->
  let s := stop_run es main_waits in
  (spotWatch fl = true -> (exists c, c ∈ polled evs /\ announces c) -> watcher_actions es = (spot_goroutine fl evs).1 ->
     exists rest, main_actions fl nd (stop_step s Receive) = ReleaseLease :: GracefulStop :: rest)
  /\ (wt_stopping (stop_step s Receive) = true ->
      (exists sig, Outside sig ∈ es) \/ (spotWatch fl = true /\ exists c, c ∈ polled evs /\ announces c)).
Proof.
  intros [rel Hrel] Hacts s. destruct (stop_run_inv es main_waits) as (_ & I2 & I3); [cbn; unfold stop_capacity; lia|]. fold s in I2, I3.
  unfold spot_goroutine in *. split.
  - intros Hspot Hn Hall. rewrite Hspot in Hall. apply Watch_calls_back in Hn. rewrite <- Hall in Hn. apply watcher_actions_elem in Hn.
    assert (Hstop : wt_stopping (stop_step s Receive) = true).
    { destruct I2 as [Hs|Hs]; [by right; right; left| |];
        cbn [stop_step]; destruct (wt_stop s); try done; destruct (wt_stopping s) eqn:E; done. }
    unfold main_actions, shutdown. rewrite Hstop, Hrel. cbn [app]. by eexists.
  - cbn [stop_step]. intros Hst. destruct I3 as [|[|[Hin|]]]; [|done|done| |by left].
    + destruct (wt_stop s); [by right|by left].
    + right. apply watcher_actions_elem in Hin. destruct Hacts as [rest Hacts]. destruct (spotWatch fl).
      * split; [done|]. apply Watch_calls_back. rewrite Hacts. apply elem_of_app. by left.
      * cbn in Hacts. destruct (watcher_actions es); [by apply elem_of_nil in Hin|done].
Qed.

(** ** Witnesses *)

(** A metadata service without and with a notice, and none at all. *)
Definition w_quiet : client := fun _ => Some (mk_response 404 (Some "")).
Definition w_notice : client :=
  fun rq => Some (mk_response (if String.eqb (rq_method rq) "PUT" then 200 else if String.eqb (rq_url rq) (imdsBase ++ noticePath) then 200 else 404) (Some "t")).
Definition w_absent : client := fun _ => None.
Definition w_polls : list watch_event := [Tick w_absent; Tick w_absent; Tick w_quiet; Tick w_absent; Tick w_notice; Done].

Example watch_w : Watch w_polls = ([LogUnreachable; LogUnreachable; LogNotice; OnInterrupt], true).
Proof. reflexivity. Qed.

Definition w_stops : list stop_event :=
  [Watcher LogUnreachable; Outside SIGINT; Watcher LogNotice; Watcher OnInterrupt].

Lemma notice_drains_node_witness :
  (exists rest, main_actions w_flags w_node (stop_step (stop_run w_stops main_waits) Receive) = ReleaseLease :: GracefulStop :: rest)
  /\ (wt_stopping (stop_step (stop_run [Watcher LogUnreachable] main_waits) Receive) = true ->
      (exists sig, Outside sig ∈ [Watcher LogUnreachable]) \/ (spotWatch w_flags = true /\ exists c, c ∈ polled [Tick w_absent; Tick w_quiet] /\ announces c)).
Proof.
  split.
  - apply (notice_drains_node w_flags w_node [Tick w_absent; Tick w_quiet; Tick w_notice; Done] w_stops).
    + by eexists.
    + exists []. reflexivity.
    + reflexivity.
    + exists w_notice. split; [right; right; left|]. eexists _, _, _. split_and!; reflexivity.
    + reflexivity.
  - apply (notice_drains_node w_flags w_node [Tick w_absent; Tick w_quiet] [Watcher LogUnreachable]).
    + by eexists.
    + exists []. reflexivity.
Defined.
