(* ===== verification/Chaos.v ===== *)
(** The chaos driver: [src/cmd/chaos/main.go].

    It launches the nodes, runs a verifying load, kills and restarts nodes under
    it, and turns the load's exit code into its own.  The fault loop, the restart
    timers, the load and the interrupt handler are goroutines: [step] interleaves
    them with [main].  A node process is a number; whether a process can be
    started, when the load ends and how, and when the timers fire is the
    environment's choice. *)

From S2P Require Import Prelude.

(** ** The nodes' command lines *)

(** The fields of [cluster] that do not change. *)
Record config := mk_config {
  etcd : string;
  cf_rf : Z;
  leaseTTL : Z;
  maxBytes : Z;
  basePort : Z;
  baseMetricsPort : Z;
}.

Definition node_name (i : nat) : string := "chaos-" ++ pretty i.
Definition port_address (port : Z) : string := ":" ++ pretty port.

(** The arguments [start] gives node [i]. *)
Definition node_args (cf : config) (i : nat) : list string :=
  let port := (basePort cf + Z.of_nat i)%Z in
  ["-addr"; port_address port; "-advertise"; "localhost" ++ port_address port; "-node-id"; node_name i; "-etcd"; etcd cf;
   "-rf"; pretty (cf_rf cf); "-lease-ttl"; pretty (leaseTTL cf); "-max-bytes"; pretty (maxBytes cf);
   "-metrics-addr"; port_address (baseMetricsPort cf + Z.of_nat i)]%string.

Lemma append_inj (p a b : string) : (p ++ a)%string = (p ++ b)%string -> a = b.
Proof. induction p as [|c p IH]; cbn; [done|]. by intros [= ?%IH]. Qed.

(** No two nodes share an address, an id or a metrics address. *)
Lemma nodes_do_not_clash cf i j k :
  k = 1 \/ k = 3 \/ k = 5 \/ k = 15 -> node_args cf i !! k = node_args cf j !! k -> i = j.
Proof.
  intros Hk. unfold node_args, node_name, port_address.
  destruct Hk as [->|[->|[->| ->]]]; cbn [lookup list_lookup]; intros [= E].
  all: apply append_inj in E.
  - apply (inj (pretty (A := Z))) in E. lia.
  - apply (inj (pretty (A := Z))) in E. lia.
  - by apply (inj (pretty (A := nat))) in E.
  - apply (inj (pretty (A := Z))) in E. lia.
Qed.

(** ** Waiting for the nodes *)

(** What the [select] of [waitForMembers] receives. *)
Inductive wait_event := WTimeout | WSnapshot (members : list string) | WClosed.
Inductive wait_result := WaitOk | WaitTimeout | WaitClosed | WaitBlocked.

Fixpoint waitForMembers (want : nat) (evs : list wait_event) : wait_result :=
  match evs with
  | [] => WaitBlocked
  | WTimeout :: _ => WaitTimeout
  | WClosed :: _ => WaitClosed
  | WSnapshot snap :: evs => if want <=? length snap then WaitOk else waitForMembers want evs
  end.

(** ** [cluster] *)

(** [nodes[i]] is the running process of node [i], [None] when [cmd == nil]. *)
Record cluster := mk_cluster { nodes : list (option nat); kills : nat; restarts : nat }.

(** The bookkeeping of [start], under the lock: the slice grows up to [i]. *)
Definition grow (i : nat) (ns : list (option nat)) : list (option nat) := ns ++ replicate (S i - length ns) None.
Definition record_start (i pid : nat) (c : cluster) : cluster :=
  mk_cluster (<[i := Some pid]> (grow i (nodes c))) (kills c) (restarts c).

(** The indices of the nodes that are up, in order. *)
Definition up (c : cluster) (i : nat) : Prop := is_Some (mjoin (nodes c !! i)).
#[export] Instance up_dec c i : Decision (up c i).
Proof. unfold up. apply _. Defined.
Definition alive (c : cluster) : list nat := filter (up c) (seq 0 (length (nodes c))).

(** [pickVictim]; [draw n] is [rng.Intn(n)]. *)
Definition pickVictim (rf : nat) (draw : nat -> nat) (c : cluster) : option nat :=
  let up := alive c in
  if (Z.of_nat (length up) - 1 <? Z.of_nat rf)%Z then None else up !! draw (length up).

(** [kill] of node [i]: the process it ends, and the bookkeeping; [None] is an
    index out of range. *)
Definition kill (i : nat) (c : cluster) : option (option nat * cluster) :=
  match nodes c !! i with
  | None => None
  | Some None => Some (None, c)
  | Some (Some pid) => Some (Some pid, mk_cluster (<[i := None]> (nodes c)) (S (kills c)) (restarts c))
  end.

(** [killAll]: the processes it ends. *)
Definition killAll (c : cluster) : list nat * cluster :=
  (omap id (nodes c), mk_cluster ((fun _ => None) <$> nodes c) (kills c) (restarts c)).

Definition counts (c : cluster) : nat * nat := (kills c, restarts c).

(** ** The goroutines *)

(** A [restartAfter]: it waits, starts the process, records it, and counts. *)
Inductive restart := RWait (i : nat) | RStart (i : nat) | RStarted (i pid : nat) | RCount (i : nat).

(** The fault loop: at its [select], between its choice and the kill, between the
    kill and the restart it schedules; not running. *)
Inductive fault := FSelect | FKill (i : nat) | FSchedule (i : nat) | FStopped.

(** [main]: launching node [k], waiting for registrations, under load, after the
    load ended ([ok]: with exit code 0), reporting, in its deferred calls, gone
    with an exit code. *)
Inductive main_at := MLaunch (k : nat) | MRegister | MLoad | MDrain (ok : bool) | MReport (ok : bool) | MDefer | MExit (code : Z).

(** [w_procs] are the processes that run, [w_next] the next fresh one. *)
Record world := mk_world {
  w_main : main_at;
  w_fault : fault;
  w_restarts : list restart;
  w_cluster : cluster;
  w_procs : gset nat;
  w_next : nat;
  w_cancelled : bool;
}.

Section chaos.
(** The flags [-nodes], [-rf], and whether [-down-time] is positive. *)
Variables (n rf : nat) (restart_down : bool).

(** The flags are checked; the binaries are built. *)
Definition begin : world := mk_world (MLaunch 0) FStopped [] (mk_cluster [] 0 0) ∅ 0 false.

Definition set_main (m : main_at) (w : world) : world :=
  mk_world m (w_fault w) (w_restarts w) (w_cluster w) (w_procs w) (w_next w) (w_cancelled w).
Definition set_fault (f : fault) (w : world) : world :=
  mk_world (w_main w) f (w_restarts w) (w_cluster w) (w_procs w) (w_next w) (w_cancelled w).
Definition set_restarts (rs : list restart) (w : world) : world :=
  mk_world (w_main w) (w_fault w) rs (w_cluster w) (w_procs w) (w_next w) (w_cancelled w).
Definition set_cluster (c : cluster) (w : world) : world :=
  mk_world (w_main w) (w_fault w) (w_restarts w) c (w_procs w) (w_next w) (w_cancelled w).
(** [cmd.Start]: a new process runs. *)
Definition spawn (w : world) : world :=
  mk_world (w_main w) (w_fault w) (w_restarts w) (w_cluster w) (w_procs w ∪ {[w_next w]}) (S (w_next w)) (w_cancelled w).
(** [Process.Kill] and [Wait]. *)
Definition reap (pids : list nat) (w : world) : world :=
  mk_world (w_main w) (w_fault w) (w_restarts w) (w_cluster w) (w_procs w ∖ list_to_set pids) (w_next w) (w_cancelled w).
Definition cancel (w : world) : world :=
  mk_world (w_main w) (w_fault w) (w_restarts w) (w_cluster w) (w_procs w) (w_next w) true.

(** Nothing of the process steps once [main] is gone. *)
Definition running (w : world) : Prop := match w_main w with MExit _ => False | _ => True end.

(** The steps of [main]. *)
Inductive main_step (w : world) : world -> Prop :=
  (* launching, [log.Fatalf] on an error *)
  | launch_one k :
      w_main w = MLaunch k -> k < n ->
      main_step w (set_main (MLaunch (S k)) (set_cluster (record_start k (w_next w) (w_cluster w)) (spawn w)))
  | launch_fails k : w_main w = MLaunch k -> k < n -> main_step w (set_main (MExit 1) w)
  | launch_done : w_main w = MLaunch n -> main_step w (set_main MRegister w)
  | register_fails : w_main w = MRegister -> main_step w (set_main (MExit 1) w)
  | load_fails : w_main w = MRegister -> main_step w (set_main (MExit 1) w)
  | load_starts : w_main w = MRegister -> main_step w (set_main MLoad (set_fault FSelect w))
  (* the load ends; [close(stop)], [faultWG.Wait], [killAll], the report *)
  | load_ends ok : w_main w = MLoad -> main_step w (set_main (MDrain ok) w)
  | drained ok : w_main w = MDrain ok -> w_fault w = FStopped ->
      main_step w (set_main (MReport ok) (set_cluster (killAll (w_cluster w)).2 (reap (killAll (w_cluster w)).1 w)))
  | report_fails : w_main w = MReport false -> main_step w (set_main (MExit 1) w)
  | report_passes : w_main w = MReport true -> main_step w (set_main MDefer w)
  | deferred : w_main w = MDefer ->
      main_step w (set_main (MExit 0) (cancel (set_cluster (killAll (w_cluster w)).2 (reap (killAll (w_cluster w)).1 w)))).

(** The steps of the other goroutines. *)
Inductive side_step (w : world) : world -> Prop :=
  (* the interrupt handler *)
  | interrupt : side_step w (cancel w)
  (* the fault loop *)
  | fault_stops : w_fault w = FSelect ->
      w_cancelled w = true \/ (exists ok, w_main w = MDrain ok) -> side_step w (set_fault FStopped w)
  | fault_ticks draw i : w_fault w = FSelect -> pickVictim rf draw (w_cluster w) = Some i -> side_step w (set_fault (FKill i) w)
  | fault_kills i p c : w_fault w = FKill i -> kill i (w_cluster w) = Some (p, c) ->
      side_step w (set_fault (if restart_down then FSchedule i else FSelect) (set_cluster c (reap (option_list p) w)))
  | fault_schedules i : w_fault w = FSchedule i ->
      side_step w (set_fault FSelect (set_restarts (RWait i :: w_restarts w) w))
  (* a restart *)
  | restart_gives_up l1 i l2 : w_restarts w = l1 ++ RWait i :: l2 -> w_cancelled w = true ->
      side_step w (set_restarts (l1 ++ l2) w)
  | restart_fires l1 i l2 : w_restarts w = l1 ++ RWait i :: l2 ->
      side_step w (set_restarts (l1 ++ RStart i :: l2) w)
  | restart_fails l1 i l2 : w_restarts w = l1 ++ RStart i :: l2 ->
      side_step w (set_restarts (l1 ++ l2) w)
  | restart_starts l1 i l2 : w_restarts w = l1 ++ RStart i :: l2 ->
      side_step w (set_restarts (l1 ++ RStarted i (w_next w) :: l2) (spawn w))
  | restart_records l1 i pid l2 : w_restarts w = l1 ++ RStarted i pid :: l2 ->
      side_step w (set_restarts (l1 ++ RCount i :: l2) (set_cluster (record_start i pid (w_cluster w)) w))
  | restart_counts l1 i l2 : w_restarts w = l1 ++ RCount i :: l2 ->
      side_step w (set_restarts (l1 ++ l2)
        (set_cluster (mk_cluster (nodes (w_cluster w)) (kills (w_cluster w)) (S (restarts (w_cluster w)))) w)).

Inductive step (w : world) : world -> Prop :=
  | step_main w' : main_step w w' -> step w w'
  | step_side w' : running w -> side_step w w' -> step w w'.

Inductive reach : world -> Prop :=
  | reach_begin : reach begin
  | reach_step w w' : reach w -> step w w' -> reach w'.

(** ** Processes and indices *)

(** The processes the cluster knows. *)
Definition tracked (c : cluster) : list nat := omap id (nodes c).

Lemma omap_insert_Some (ns : list (option nat)) i p :
  ns !! i = Some None -> omap id (<[i := Some p]> ns) ≡ₚ p :: omap id ns.
Proof.
  intros Hi. rewrite insert_take_drop by (by eapply lookup_lt_Some).
  rewrite <- (take_drop_middle ns i None Hi) at 3. rewrite !omap_app. cbn. by rewrite Permutation_middle.
Qed.

Lemma omap_insert_None (ns : list (option nat)) i p :
  ns !! i = Some (Some p) -> omap id ns ≡ₚ p :: omap id (<[i := None]> ns).
Proof.
  intros Hi. rewrite insert_take_drop by (by eapply lookup_lt_Some).
  rewrite <- (take_drop_middle ns i (Some p) Hi) at 1. rewrite !omap_app. cbn. by rewrite Permutation_middle.
Qed.

Lemma filter_up_ext c c' (l : list nat) :
  (forall i, i ∈ l -> nodes c !! i = nodes c' !! i) -> filter (up c) l = filter (up c') l.
Proof.
  induction l as [|i l IH]; intros He; [done|]. rewrite !filter_cons, IH by (intros; apply He; by right).
  assert (Hi : nodes c !! i = nodes c' !! i) by (apply He; by left).
  destruct (decide (up c i)) as [H1|H1], (decide (up c' i)) as [H2|H2]; try done; unfold up in *; congruence.
Qed.

Lemma length_alive c : length (alive c) = length (tracked c).
Proof.
  unfold alive, tracked. destruct c as [ns k r]. cbn [nodes]. induction ns as [|x ns IH] using rev_ind; [done|].
  rewrite length_app, Nat.add_1_r, seq_S, filter_app, omap_app, !length_app. cbn [Nat.add].
  f_equal.
  - rewrite <- IH. f_equal. apply filter_up_ext. intros i Hi%elem_of_seq. cbn. by rewrite lookup_app_l by lia.
  - rewrite filter_cons. unfold up at 1. destruct (decide _) as [Hu|Hu]; unfold up in Hu; cbn in Hu;
      rewrite lookup_app_r, Nat.sub_diag in Hu by lia; cbn in Hu; destruct x as [p|]; cbn; try done; by destruct Hu.
Qed.

Lemma record_start_next p c : tracked (record_start (length (nodes c)) p c) = tracked c ++ [p].
Proof.
  unfold tracked, record_start, grow. cbn [nodes]. replace (S (length (nodes c)) - length (nodes c)) with 1 by lia.
  cbn [replicate]. rewrite insert_app_r_alt, Nat.sub_diag by lia. cbn. by rewrite omap_app.
Qed.

Lemma record_start_known i p c :
  i < length (nodes c) -> nodes (record_start i p c) = <[i := Some p]> (nodes c).
Proof.
  intros Hi. unfold record_start, grow. cbn [nodes]. replace (S i - length (nodes c)) with 0 by lia.
  cbn [replicate]. by rewrite app_nil_r.
Qed.

Lemma tracked_killAll c : tracked (killAll c).2 = [].
Proof. unfold tracked, killAll. cbn. by induction (nodes c). Qed.

(** The node a restart is about, until it is recorded; the process it has started
    and not recorded. *)
Definition index_of (r : restart) : list nat := match r with RWait i | RStart i | RStarted i _ => [i] | RCount _ => [] end.
Definition started_of (r : restart) : list nat := match r with RStarted _ p => [p] | _ => [] end.
Definition counting_of (r : restart) : list nat := match r with RCount i => [i] | _ => [] end.
Definition pending (w : world) : list nat :=
  (match w_fault w with FSchedule i => [i] | _ => [] end) ++ (w_restarts w ≫= index_of).
Definition in_flight (w : world) : list nat := w_restarts w ≫= started_of.
Definition uncounted (w : world) : nat := length (w_restarts w ≫= counting_of).

Record tracked_ok (w : world) : Prop := mk_tracked_ok {
  to_procs : w_procs w = list_to_set (tracked (w_cluster w) ++ in_flight w);
  to_nodup : NoDup (tracked (w_cluster w) ++ in_flight w);
  to_next p : p ∈ tracked (w_cluster w) ++ in_flight w -> p < w_next w;
  to_pending : NoDup (pending w);
  to_down i : i ∈ pending w -> nodes (w_cluster w) !! i = Some None;
  to_counts : restarts (w_cluster w) + uncounted w + length (pending w) <= kills (w_cluster w);
}.

Definition launched (k : nat) (w : world) : Prop :=
  length (nodes (w_cluster w)) = k /\ length (tracked (w_cluster w)) = k /\ w_restarts w = [] /\ w_fault w = FStopped
  /\ kills (w_cluster w) = 0 /\ restarts (w_cluster w) = 0.

(** While the load runs: the driver's books, and what it keeps up. *)
Definition under_load (w : world) : Prop :=
  let ups := length (tracked (w_cluster w)) in
  rf `min` n <= ups
  /\ kills (w_cluster w) + ups = n + restarts (w_cluster w) + uncounted w
  /\ (n <= rf -> kills (w_cluster w) = 0)
  /\ match w_fault w with FKill i => rf < ups /\ exists p, nodes (w_cluster w) !! i = Some (Some p) | _ => True end.

Definition phase_ok (w : world) : Prop :=
  match w_main w with
  | MLaunch k => k <= n /\ launched k w
  | MRegister => launched n w
  | MLoad | MDrain _ => length (nodes (w_cluster w)) = n /\ under_load w
  | MReport _ | MDefer => length (nodes (w_cluster w)) = n /\ w_fault w = FStopped
  | MExit _ => True
  end.

Lemma restarts_split {A} (f : restart -> list A) l1 r l2 : (l1 ++ r :: l2) ≫= f ≡ₚ f r ++ ((l1 ++ l2) ≫= f).
Proof. rewrite !bind_app, bind_cons. by rewrite Permutation_app_swap_app. Qed.

Lemma kill_spec i c p c' :
  kill i c = Some (p, c') ->
  (p = None /\ c' = c /\ nodes c !! i = Some None)
  \/ exists pid, p = Some pid /\ nodes c !! i = Some (Some pid) /\ nodes c' = <[i := None]> (nodes c)
     /\ kills c' = S (kills c) /\ restarts c' = restarts c /\ tracked c ≡ₚ pid :: tracked c'.
Proof.
  unfold kill. destruct (nodes c !! i) as [[pid|]|] eqn:E; [| |done]; intros [= <- <-]; [right|by left].
  exists pid. split_and!; try done. unfold tracked. cbn. by apply omap_insert_None.
Qed.

Lemma pickVictim_spec draw c i :
  pickVictim rf draw c = Some i -> rf < length (tracked c) /\ exists p, nodes c !! i = Some (Some p).
Proof.
  unfold pickVictim. rewrite length_alive. destruct (Z.ltb_spec (Z.of_nat (length (tracked c)) - 1) (Z.of_nat rf)); [done|].
  intros Hi%list_elem_of_lookup_2. split; [lia|]. unfold alive in Hi. apply list_elem_of_filter in Hi as [[p Hp] _].
  exists p. by destruct (nodes c !! i) as [[q|]|]; simplify_eq/=.
Qed.

Lemma pending_down w i : tracked_ok w -> i ∈ pending w -> i < length (nodes (w_cluster w)).
Proof. intros Ht Hi. by eapply lookup_lt_Some, to_down. Qed.

Lemma length_record_start i pid c :
  i < length (nodes c) -> length (nodes (record_start i pid c)) = length (nodes c).
Proof. intros Hi. by rewrite record_start_known, length_insert. Qed.

Lemma tracked_record_start i pid c :
  nodes c !! i = Some None -> tracked (record_start i pid c) ≡ₚ pid :: tracked c.
Proof.
  intros Hi. unfold tracked. rewrite record_start_known by (by eapply lookup_lt_Some). by apply omap_insert_Some.
Qed.

Lemma in_pending w l1 r l2 i : w_restarts w = l1 ++ r :: l2 -> i ∈ index_of r -> i ∈ pending w.
Proof.
  intros E Hi. unfold pending. apply elem_of_app. right. rewrite E, restarts_split. apply elem_of_app. by left.
Qed.

Ltac fields := cbn [set_main set_fault set_restarts set_cluster spawn reap cancel w_main w_cluster w_fault w_restarts
  w_procs w_next w_cancelled kills restarts nodes] in *.

Lemma side_main w w' : side_step w w' -> w_main w' = w_main w.
Proof. by destruct 1. Qed.

Lemma side_launched k w w' : launched k w -> side_step w w' -> launched k w'.
Proof.
  intros (L1 & L2 & L3 & L4 & L5 & L6). destruct 1; unfold launched; fields; rewrite ?L3, ?L4 in *; try done; by destruct l1.
Qed.

Lemma side_length w w' :
  tracked_ok w -> side_step w w' -> length (nodes (w_cluster w')) = length (nodes (w_cluster w)).
Proof.
  intros Ht. destruct 1 as [|Ef Hc|draw i Ef Hv|i p c Ef Hk|i Ef|l1 i l2 El Hc|l1 i l2 El|l1 i l2 El|l1 i l2 El|l1 i pid l2 El|l1 i l2 El];
    fields; try done.
  - apply kill_spec in Hk as [(-> & -> & _)|(pid & -> & _ & Hn & _)]; [done|]. by rewrite Hn, length_insert.
  - apply length_record_start. apply (pending_down w i Ht). apply (in_pending w l1 (RStarted i pid) l2); [done|by left].
Qed.

Lemma side_stopped w w' : w_fault w = FStopped -> side_step w w' -> w_fault w' = FStopped.
Proof. intros Hf. destruct 1; fields; congruence. Qed.

Lemma uncounted_split w l1 r l2 :
  w_restarts w = l1 ++ r :: l2 -> uncounted w = length (counting_of r) + length ((l1 ++ l2) ≫= counting_of).
Proof. intros E. unfold uncounted. by rewrite E, restarts_split, length_app. Qed.

Lemma tracked_le c : length (tracked c) <= length (nodes c).
Proof. unfold tracked. induction (nodes c) as [|[x|] ns IH]; cbn; lia. Qed.

Lemma side_load w w' :
  tracked_ok w -> length (nodes (w_cluster w)) = n -> under_load w -> side_step w w' -> under_load w'.
Proof.
  intros Ht Hlen (U1 & U2 & U3 & U4). pose proof (tracked_le (w_cluster w)) as Hle. unfold under_load.
  destruct 1 as [|Ef Hc|draw i Ef Hv|i p c Ef Hk|i Ef|l1 i l2 El Hc|l1 i l2 El|l1 i l2 El|l1 i l2 El|l1 i pid l2 El|l1 i l2 El];
    try rewrite (uncounted_split w _ _ _ El) in U2; unfold uncounted in *; fields.
  - done.
  - split_and!; done.
  - apply pickVictim_spec in Hv as [Hlt Hp]. split_and!; done || lia.
  - rewrite Ef in U4. destruct U4 as [Hlt [q Hq]].
    apply kill_spec in Hk as [(-> & -> & Hn)|(pid & -> & _ & Hn & -> & -> & Hperm)]; [congruence|].
    rewrite Hperm in *. cbn [length] in *. split_and!; [lia|lia|lia|by destruct restart_down].
  - split_and!; [done|done|done|done].
  - split_and!; [done|cbn [counting_of length] in U2; lia|done|done].
  - rewrite restarts_split, length_app. split_and!; done.
  - split_and!; [done|cbn [counting_of length] in U2; lia|done|done].
  - rewrite restarts_split, length_app. split_and!; done.
  - rewrite restarts_split, length_app.
    assert (Hd : nodes (w_cluster w) !! i = Some None).
    { apply (to_down w Ht). apply (in_pending w l1 (RStarted i pid) l2); [done|by left]. }
    rewrite tracked_record_start by done. cbn [length counting_of] in *. split_and!; [lia| |done|].
    + cbn [record_start kills restarts]. lia.
    + destruct (w_fault w) as [|j| |]; try done. destruct U4 as [Hlt [q Hq]].
      rewrite tracked_record_start by done. split; [cbn; lia|]. exists q.
      rewrite record_start_known by (by eapply lookup_lt_Some). rewrite list_lookup_insert_ne; [done|congruence].
  - unfold tracked in *. cbn [nodes counting_of length] in *. split_and!; [done|lia|done|done].
Qed.

Lemma step_phase w w' : tracked_ok w -> phase_ok w -> step w w' -> phase_ok w'.
Proof.
  intros Ht Hp [w1 Hs|w1 _ Hs].
  - unfold phase_ok in *.
    destruct Hs as [k Em Hk|k Em Hk|Em|Em|Em|Em|ok Em|ok Em Ef|Em|Em|Em]; fields; try done; rewrite Em in Hp.
    + destruct Hp as (Hle & L1 & L2 & L3 & L4 & L5 & L6). split; [lia|]. unfold launched; fields.
      assert (Hlen : length (nodes (record_start k (w_next w) (w_cluster w))) = S k).
      { unfold record_start, grow. cbn [nodes]. rewrite length_insert, length_app, length_replicate. lia. }
      split_and!; try done. subst k. rewrite record_start_next, length_app. cbn. lia.
    + by destruct Hp.
    + destruct Hp as (L1 & L2 & L3 & L4 & L5 & L6). split; [done|]. unfold under_load, uncounted; fields.
      rewrite L3. cbn. split_and!; [lia|lia|lia|done].
    + done.
    + destruct Hp as [Hlen _]. unfold killAll. cbn [snd nodes]. by rewrite length_fmap.
    + done.
  - unfold phase_ok in *. rewrite (side_main w w1 Hs).
    pose proof (side_length w w1 Ht Hs) as Hl. destruct (w_main w); try done.
    + split; [apply Hp|]. by eapply side_launched; [apply Hp|].
    + by eapply side_launched.
    + rewrite Hl. split; [apply Hp|]. eapply side_load; [done|apply Hp|apply Hp|done].
    + rewrite Hl. split; [apply Hp|]. eapply side_load; [done|apply Hp|apply Hp|done].
    + rewrite Hl. split; [apply Hp|]. by eapply side_stopped; [apply Hp|].
    + rewrite Hl. split; [apply Hp|]. by eapply side_stopped; [apply Hp|].
Qed.

(** [tracked_ok] by its parts. *)
Definition books (fs : list nat) (rs : list restart) (c : cluster) (procs : gset nat) (next : nat) : Prop :=
  procs = list_to_set (tracked c ++ (rs ≫= started_of))
  /\ NoDup (tracked c ++ (rs ≫= started_of))
  /\ (forall p, p ∈ tracked c ++ (rs ≫= started_of) -> p < next)
  /\ NoDup (fs ++ (rs ≫= index_of))
  /\ (forall i, i ∈ fs ++ (rs ≫= index_of) -> nodes c !! i = Some None)
  /\ restarts c + length (rs ≫= counting_of) + length (fs ++ (rs ≫= index_of)) <= kills c.

Definition scheduling (f : fault) : list nat := match f with FSchedule i => [i] | _ => [] end.

Lemma tracked_ok_books w :
  tracked_ok w <-> books (scheduling (w_fault w)) (w_restarts w) (w_cluster w) (w_procs w) (w_next w).
Proof. split; [intros []; by split_and!|intros (? & ? & ? & ? & ? & ?); by split]. Qed.

(** The order of the restarts and of the indices does not matter. *)
Lemma books_perm fs rs rs' c procs next : rs ≡ₚ rs' -> books fs rs c procs next -> books fs rs' c procs next.
Proof.
  intros Hp (B1 & B2 & B3 & B4 & B5 & B6).
  assert (E1 : rs ≫= started_of ≡ₚ rs' ≫= started_of) by (by rewrite Hp).
  assert (E2 : rs ≫= index_of ≡ₚ rs' ≫= index_of) by (by rewrite Hp).
  assert (E3 : rs ≫= counting_of ≡ₚ rs' ≫= counting_of) by (by rewrite Hp).
  split_and!.
  - rewrite B1. by rewrite E1.
  - by rewrite <- E1.
  - intros p. rewrite <- E1. apply B3.
  - by rewrite <- E2.
  - intros i. rewrite <- E2. apply B5.
  - by rewrite <- E2, <- E3.
Qed.

Lemma books_drop fs r rs c procs next :
  started_of r = [] -> counting_of r = [] -> books fs (r :: rs) c procs next -> books fs rs c procs next.
Proof.
  intros Es Ec (B1 & B2 & B3 & B4 & B5 & B6). rewrite !bind_cons, ?Es, ?Ec in *. cbn [app] in *.
  assert (Hsub : fs ++ (rs ≫= index_of) `sublist_of` fs ++ index_of r ++ (rs ≫= index_of)).
  { apply sublist_app; [done|]. by apply sublist_inserts_l. }
  split_and!; [done..| | |].
  - by eapply sublist_NoDup.
  - intros i Hi. apply B5. by eapply elem_of_sublist.
  - apply sublist_length in Hsub. lia.
Qed.

Lemma books_start fs i rs c procs next :
  books fs (RStart i :: rs) c procs next -> books fs (RStarted i next :: rs) c (procs ∪ {[next]}) (S next).
Proof.
  intros (B1 & B2 & B3 & B4 & B5 & B6). unfold books. rewrite !bind_cons in *. cbn [index_of started_of counting_of app] in *.
  assert (Hp : tracked c ++ next :: (rs ≫= started_of) ≡ₚ next :: tracked c ++ (rs ≫= started_of))
    by (by rewrite Permutation_middle).
  split_and!; [| | |done|done|done].
  - rewrite Hp, B1. cbn. set_solver.
  - rewrite Hp. constructor; [|done]. intros Hin%B3. lia.
  - intros p. rewrite Hp, elem_of_cons. intros [->|Hin%B3]; lia.
Qed.

Lemma books_record fs i pid rs c procs next :
  books fs (RStarted i pid :: rs) c procs next -> books fs (RCount i :: rs) (record_start i pid c) procs next.
Proof.
  intros (B1 & B2 & B3 & B4 & B5 & B6). unfold books. rewrite !bind_cons in *. cbn [index_of started_of counting_of app] in *.
  assert (Hmid : fs ++ i :: (rs ≫= index_of) ≡ₚ i :: fs ++ (rs ≫= index_of)) by (by rewrite Permutation_middle).
  rewrite Hmid in B4. apply NoDup_cons in B4 as [Hni Hnd].
  assert (Hd : nodes c !! i = Some None) by (apply B5; rewrite Hmid; by left).
  assert (Hp : tracked (record_start i pid c) ++ (rs ≫= started_of) ≡ₚ tracked c ++ pid :: (rs ≫= started_of))
    by (by rewrite tracked_record_start, <- Permutation_middle).
  split_and!.
  - rewrite B1. by rewrite Hp.
  - by rewrite Hp.
  - intros p. rewrite Hp. apply B3.
  - done.
  - intros j Hj. rewrite record_start_known by (by eapply lookup_lt_Some).
    rewrite list_lookup_insert_ne by (intros ->; done). apply B5. rewrite Hmid. by right.
  - cbn [record_start restarts kills length]. rewrite Hmid in B6. cbn [length] in B6. lia.
Qed.

Lemma books_count fs i rs c procs next :
  books fs (RCount i :: rs) c procs next ->
  books fs rs (mk_cluster (nodes c) (kills c) (S (restarts c))) procs next.
Proof.
  intros (B1 & B2 & B3 & B4 & B5 & B6). unfold books, tracked in *. rewrite !bind_cons in *.
  cbn [index_of started_of counting_of app nodes restarts kills length] in *. split_and!; try done. lia.
Qed.

Lemma books_kill fs i p c c' rs procs next :
  nodes c !! i <> Some None -> fs = [] \/ fs = [i] ->
  books [] rs c procs next -> kill i c = Some (p, c') -> books fs rs c' (procs ∖ list_to_set (option_list p)) next.
Proof.
  intros Hup Hfs (B1 & B2 & B3 & B4 & B5 & B6) Hk. cbn [app] in *.
  apply kill_spec in Hk as [(_ & _ & Hn)|(pid & -> & Hi & Hn & Hkl & Hrs & Hperm)]; [done|].
  assert (Hp : tracked c ++ (rs ≫= started_of) ≡ₚ pid :: tracked c' ++ (rs ≫= started_of)) by (by rewrite Hperm).
  rewrite Hp in B2. apply NoDup_cons in B2 as [Hni Hnd].
  assert (Hold : forall j, j ∈ rs ≫= index_of -> j <> i /\ nodes c' !! j = Some None).
  { intros j Hj%B5. split; [congruence|]. rewrite Hn, list_lookup_insert_ne; [done|congruence]. }
  assert (Hnew : nodes c' !! i = Some None) by (rewrite Hn, list_lookup_insert_eq; [done|by eapply lookup_lt_Some]).
  split_and!.
  - rewrite B1. rewrite Hp. cbn. set_solver.
  - done.
  - intros q Hq. apply B3. rewrite Hp. by right.
  - destruct Hfs as [-> | ->]; [done|]. cbn. constructor; [|done]. by intros [? _]%Hold.
  - intros j Hj%elem_of_app. destruct Hj as [Hj|Hj]; [|by apply Hold]. destruct Hfs as [-> | ->]; [by apply elem_of_nil in Hj|].
    by apply list_elem_of_singleton in Hj as ->.
  - rewrite Hkl, Hrs, length_app. destruct Hfs as [-> | ->]; cbn; lia.
Qed.

Lemma books_killAll fs rs c procs next :
  books fs rs c procs next -> books fs rs (killAll c).2 (procs ∖ list_to_set (killAll c).1) next.
Proof.
  intros (B1 & B2 & B3 & B4 & B5 & B6). unfold books. rewrite tracked_killAll. cbn [app].
  apply NoDup_app in B2 as (_ & Hdis & Hnd). split_and!.
  - rewrite B1. unfold killAll, tracked. cbn [fst]. rewrite list_to_set_app_L.
    assert (list_to_set (omap id (nodes c)) ## (list_to_set (rs ≫= started_of) : gset nat)); [|set_solver].
    intros x Hx%elem_of_list_to_set Hy%elem_of_list_to_set. by apply (Hdis x).
  - done.
  - intros p Hp. apply B3, elem_of_app. by right.
  - done.
  - intros i Hi%B5. unfold killAll. cbn [snd nodes]. by rewrite list_lookup_fmap, Hi.
  - done.
Qed.

Lemma step_tracked w w' : tracked_ok w -> phase_ok w -> step w w' -> tracked_ok w'.
Proof.
  rewrite !tracked_ok_books. intros Ht Hph Hs.
  assert (Hsplit : forall l1 r l2, w_restarts w = l1 ++ r :: l2 -> forall fs c ps nx, books fs (w_restarts w) c ps nx -> books fs (r :: l1 ++ l2) c ps nx).
  { intros l1 r l2 -> fs c ps nx. apply books_perm. by rewrite Permutation_middle. }
  assert (Hjoin : forall l1 r l2 fs c ps nx, books fs (r :: l1 ++ l2) c ps nx -> books fs (l1 ++ r :: l2) c ps nx).
  { intros l1 r l2 fs c ps nx. apply books_perm. by rewrite Permutation_middle. }
  destruct Hs as [w1 Hs|w1 Hrun Hs].
  - destruct Hs as [k Em Hk|k Em Hk|Em|Em|Em|Em|ok Em|ok Em Ef|Em|Em|Em]; fields; try done.
    + unfold phase_ok in Hph. rewrite Em in Hph. destruct Hph as (_ & L1 & L2 & L3 & L4 & L5 & L6).
      destruct Ht as (B1 & B2 & B3 & _). unfold books. rewrite L3, L4 in *.
      cbn [mbind list_bind app scheduling length] in *. rewrite !app_nil_r in *.
      subst k. rewrite record_start_next. split_and!.
      * rewrite B1, list_to_set_app_L. cbn. set_solver.
      * apply NoDup_app. split_and!; [done| |apply NoDup_singleton]. intros p Hp%B3 Heq%list_elem_of_singleton. lia.
      * intros p [Hp%B3|Hp%list_elem_of_singleton]%elem_of_app; lia.
      * constructor.
      * intros i Hi. by apply elem_of_nil in Hi.
      * cbn [record_start restarts kills]. lia.
    + unfold phase_ok in Hph. rewrite Em in Hph. destruct Hph as (_ & _ & _ & Ef & _). by rewrite Ef in Ht.
    + by apply books_killAll.
    + by apply books_killAll.
  - destruct Hs as [|Ef Hc|draw i Ef Hv|i p c Ef Hk|i Ef|l1 i l2 El Hc|l1 i l2 El|l1 i l2 El|l1 i l2 El|l1 i pid l2 El|l1 i l2 El];
      fields; try rewrite Ef in Ht; cbn [scheduling] in *; try done.
    + apply (books_kill _ i p (w_cluster w)); [|destruct restart_down; auto|done|done].
      assert (Hl : under_load w).
      { unfold phase_ok, launched, running in *. destruct (w_main w); try done; try apply Hph; destruct_and? Hph; congruence. }
      destruct Hl as (_ & _ & _ & Hl). rewrite Ef in Hl. destruct Hl as (_ & q & Hq). congruence.
    + apply books_drop with (RWait i); [done|done|]. by eapply Hsplit.
    + apply Hjoin. by apply (Hsplit _ _ _ El) in Ht.
    + apply books_drop with (RStart i); [done|done|]. by eapply Hsplit.
    + apply Hjoin, books_start. by eapply Hsplit.
    + apply Hjoin, books_record. by eapply Hsplit.
    + apply (books_count _ i). by eapply Hsplit.
Qed.

Lemma begin_ok : tracked_ok begin /\ phase_ok begin.
Proof.
  split.
  - apply tracked_ok_books. unfold books; cbn. split_and!; try done; try constructor; intros ? Hi; by apply elem_of_nil in Hi.
  - split; [lia|]. by split_and!.
Qed.

Lemma reach_ok w : reach w -> tracked_ok w /\ phase_ok w.
Proof.
  induction 1 as [|w w' _ [IHt IHp] Hs]; [apply begin_ok|]. split; [by eapply step_tracked|by eapply step_phase].
Qed.

(** C26. The faults stay inside the hypothesis the run tests: while the load runs, at
    least [rf] nodes (all, if there are no more) are up with their processes
    running, whatever the interleaving of kills and restarts, so the primary and
    the replicas of a key are never all down; with no more than [rf] nodes nothing
    is ever killed; and the report's counts add up: every kill is matched by a
    node that is down or by a restart, counted or about to be. *)
Theorem chaos_keeps_replicas w :
  reach w -> w_main w = MLoad \/ (exists ok, w_main w = MDrain ok) ->
  let c := w_cluster w in
  rf `min` n <= length (alive c)
  /\ (forall i, i ∈ alive c -> exists pid, nodes c !! i = Some (Some pid) /\ pid ∈ w_procs w)
  /\ (n <= rf -> kills c = 0)
  /\ kills c + length (alive c) = n + restarts c + uncounted w
  /\ restarts c <= kills c.
Proof.
  intros Hr Hm c. destruct (reach_ok w Hr) as [Ht Hp].
  assert (Hl : under_load w) by (unfold phase_ok in Hp; destruct Hm as [Em|[ok Em]]; rewrite Em in Hp; apply Hp).
  destruct Hl as (U1 & U2 & U3 & _). rewrite length_alive. split_and!; try done.
  - intros i Hi. unfold alive in Hi. apply list_elem_of_filter in Hi as [[p Hu] _].
    destruct (nodes c !! i) as [[q|]|] eqn:E; simplify_eq/=. exists p. split; [done|].
    rewrite (to_procs w Ht), elem_of_list_to_set, elem_of_app. left. unfold tracked.
    apply list_elem_of_omap. exists (Some p). split; [by eapply list_elem_of_lookup_2|done].
  - pose proof (to_counts w Ht). unfold c. lia.
Qed.

Lemma exit_zero_tracked w : reach w -> w_main w = MExit 0 -> tracked (w_cluster w) = [].
Proof.
  induction 1 as [|w w' Hr IH Hs]; [done|]. destruct Hs as [w1 Hs|w1 Hrun Hs].
  - destruct Hs; fields; try done. intros _. apply tracked_killAll.
  - rewrite (side_main w w1 Hs). intros Em. unfold running in Hrun. by rewrite Em in Hrun.
Qed.

(** The driver knows its processes: at every moment the running nodes are those
    its table lists and those a restart has just started, each once; a restart
    never overwrites a running node; and after a run that passed the only
    processes left are of restarts in flight, none if there are none. *)
Theorem chaos_tracks_processes w :
  reach w ->
  w_procs w = list_to_set (tracked (w_cluster w) ++ in_flight w)
  /\ NoDup (tracked (w_cluster w) ++ in_flight w)
  /\ (forall i pid, RStarted i pid ∈ w_restarts w -> nodes (w_cluster w) !! i = Some None)
  /\ (w_main w = MExit 0 -> w_procs w = list_to_set (in_flight w)).
Proof.
  intros Hr. destruct (reach_ok w Hr) as [Ht _]. split_and!; [apply Ht|apply Ht| |].
  - intros i pid Hin. apply (to_down w Ht). unfold pending. apply elem_of_app. right.
    apply list_elem_of_bind. exists (RStarted i pid). split; [by left|done].
  - intros Em. rewrite (to_procs w Ht), (exit_zero_tracked w Hr Em). done.
Qed.

End chaos.

(** ** Leaks *)

(** Extend a run by a step of [main], or of another goroutine. *)
Ltac main_goes R t := eapply reach_step in R; [|apply step_main; t].
Ltac other_goes R t := eapply reach_step in R; [|apply step_side; [exact I|t]].

(** The driver's nodes outlive it. *)
Definition leaks (n rf : nat) (restart_down : bool) (code : Z) : Prop :=
  exists w, reach n rf restart_down w /\ w_main w = MExit code /\ w_procs w <> ∅.

Lemma start_failure_leaks n rf rd : 2 <= n -> leaks n rf rd 1.
Proof.
  intros Hn. pose proof (reach_begin n rf rd) as R.
  main_goes R ltac:(eapply (launch_one n); [reflexivity|lia]).
  main_goes R ltac:(eapply (launch_fails n); [reflexivity|lia]).
  eexists. split; [exact R|]. split; [done|]. cbn. set_solver.
Qed.

(** Three nodes, two replicas: all are up, one is killed, its restart is due when
    the load ends, and the new process runs before [main] is gone. *)
Lemma restart_in_flight_leaks (ok : bool) : leaks 3 2 true (if ok then 0 else 1).
Proof.
  pose proof (reach_begin 3 2 true) as R.
  main_goes R ltac:(eapply (launch_one 3); [reflexivity|lia]).
  main_goes R ltac:(eapply (launch_one 3); [reflexivity|lia]).
  main_goes R ltac:(eapply (launch_one 3); [reflexivity|lia]).
  main_goes R ltac:(eapply launch_done; reflexivity).
  main_goes R ltac:(eapply load_starts; reflexivity).
  other_goes R ltac:(eapply (fault_ticks 2 true _ (fun _ => 0)); [reflexivity|reflexivity]).
  other_goes R ltac:(eapply fault_kills; [reflexivity|reflexivity]).
  other_goes R ltac:(eapply fault_schedules; reflexivity).
  main_goes R ltac:(eapply (load_ends 3 _ ok); reflexivity).
  other_goes R ltac:(eapply fault_stops; [reflexivity|right; by exists ok]).
  other_goes R ltac:(eapply (restart_fires _ _ _ []); reflexivity).
  main_goes R ltac:(eapply drained; reflexivity).
  other_goes R ltac:(eapply (restart_starts _ _ _ []); reflexivity).
  destruct ok.
  - main_goes R ltac:(eapply report_passes; reflexivity).
    main_goes R ltac:(eapply deferred; reflexivity).
    eexists. split; [exact R|]. split; [done|]. vm_compute. done.
  - main_goes R ltac:(eapply report_fails; reflexivity).
    eexists. split; [exact R|]. split; [done|]. vm_compute. done.
Qed.

(** The driver can leave nodes running behind it: when a later node fails to
    start, since the fatal exit skips the deferred calls, and when a restart's new
    process comes up after the last [killAll], whether the verdict is a failure or
    a pass. *)
Theorem driver_leaks_nodes :
  (forall n rf rd, 2 <= n -> leaks n rf rd 1) /\ leaks 3 2 true 1 /\ leaks 3 2 true 0.
Proof.
  split; [apply start_failure_leaks|]. split; [apply (restart_in_flight_leaks false)|apply (restart_in_flight_leaks true)].
Qed.

(** ** Witnesses *)

Definition w_loaded : world :=
  mk_world MLoad FSelect [] (mk_cluster [Some 0; Some 1; Some 2] 0 0) (∅ ∪ {[0]} ∪ {[1]} ∪ {[2]}) 3 false.
Lemma w_loaded_reach : reach 3 2 true w_loaded.
Proof.
  pose proof (reach_begin 3 2 true) as R.
  main_goes R ltac:(eapply (launch_one 3); [reflexivity|lia]).
  main_goes R ltac:(eapply (launch_one 3); [reflexivity|lia]).
  main_goes R ltac:(eapply (launch_one 3); [reflexivity|lia]).
  main_goes R ltac:(eapply launch_done; reflexivity).
  main_goes R ltac:(eapply load_starts; reflexivity).
  exact R.
Qed.

Lemma chaos_keeps_replicas_witness : 2 <= length (alive (w_cluster w_loaded)) /\ restarts (w_cluster w_loaded) <= 0.
Proof.
  destruct (chaos_keeps_replicas 3 2 true w_loaded w_loaded_reach (or_introl eq_refl)) as (H1 & _ & _ & _ & H2).
  split; [exact H1|exact H2].
Defined.

Lemma chaos_tracks_processes_witness : w_procs w_loaded = list_to_set [0; 1; 2].
Proof. exact (proj1 (chaos_tracks_processes 3 2 true w_loaded w_loaded_reach)). Defined.
