(* ===== verification/Flags.v ===== *)
(** Command lines: the part of Go's [flag] and [strconv] packages the programs of
    [src/cmd] use.

    [flag.Parse] over a set of declared flags, with the spellings it accepts
    ([-name value], [-name=value], two dashes, [--] alone, switches that take no
    value), and [strconv.ParseInt] in base 0, which reads an integer flag.  A
    decimal number is read back ([ParseInt0_pretty]).  [strconv.ParseFloat] and
    [time.ParseDuration] are parameters. *)

From Stdlib Require Import Ascii.
From S2P Require Import Prelude Text Bytes Float64.

(** ** Integers in base 0 *)

(** The value of a character as a digit, in any base up to 36. *)
Definition lower (c : ascii) : Z := Z.lor (Z.of_nat (nat_of_ascii c)) 32.
Definition any_digit (c : ascii) : option Z :=
  match digit c with
  | Some d => Some d
  | None => if (97 <=? lower c)%Z && (lower c <=? 122)%Z then Some (lower c - 97 + 10)%Z else None
  end.

Definition underscore : ascii := char 95.

(** The digits, underscores skipped. *)
Fixpoint base_digits (base acc : Z) (l : text) : option Z :=
  match l with
  | [] => Some acc
  | c :: l =>
      if Ascii.eqb c underscore then base_digits base acc l
      else d ← any_digit c; if (base <=? d)%Z then None else base_digits base (base * acc + d)%Z l
  end.

(** What [underscoreOK] saw last: a digit or the base prefix, an underscore,
    something else or nothing. *)
Inductive saw := SawDigit | SawUnderscore | SawOther.
Fixpoint underscores_loop (hex : bool) (last : saw) (l : text) : bool :=
  match l with
  | [] => match last with SawUnderscore => false | _ => true end
  | c :: l =>
      if bool_decide (is_Some (digit c)) || (hex && (97 <=? lower c)%Z && (lower c <=? 102)%Z) then underscores_loop hex SawDigit l
      else if Ascii.eqb c underscore then
        match last with SawDigit => underscores_loop hex SawUnderscore l | _ => false end
      else match last with SawUnderscore => false | _ => underscores_loop hex SawOther l end
  end.

(** The base a prefix names: [0b], [0o] and [0x]. *)
Definition prefix_base (p : ascii) : option Z :=
  if (lower p =? 98)%Z then Some 2%Z else if (lower p =? 111)%Z then Some 8%Z else if (lower p =? 120)%Z then Some 16%Z else None.
Definition zero_char : ascii := char 48.

(** [underscoreOK], after the sign. *)
Definition underscoreOK (l : text) : bool :=
  match l with
  | z :: p :: r =>
      match (if Ascii.eqb z zero_char then prefix_base p else None) with
      | Some base => underscores_loop (base =? 16)%Z SawDigit r
      | None => underscores_loop false SawOther l
      end
  | _ => underscores_loop false SawOther l
  end.

(** The base of the text, and its digits. *)
Definition base_of (l : text) : Z * text :=
  match l with
  | z :: r =>
      if Ascii.eqb z zero_char then
        match r with
        | p :: (_ :: _) as r' => match prefix_base p with Some base => (base, tail r) | None => (8%Z, r) end
        | _ => (8%Z, r)
        end
      else (10%Z, l)
  | [] => (10%Z, l)
  end.

(** [strconv.ParseUint(s, 0, 64)]; [None] is any error. *)
Definition ParseUint0 (l : text) : option Z :=
  match l with
  | [] => None
  | _ =>
      let '(base, ds) := base_of l in
      n ← base_digits base 0 ds;
      if (2 ^ 64 <=? n)%Z then None
      else if bool_decide (underscore ∈ ds) && negb (underscoreOK l) then None else Some n
  end.

(** [strconv.ParseInt(s, 0, 64)] *)
Definition ParseInt0 (s : string) : option Z :=
  match String.list_ascii_of_string s with
  | [] => None
  | c :: l =>
      if Ascii.eqb c (char 45) then n ← ParseUint0 l; if (n <=? 2 ^ 63)%Z then Some (- n)%Z else None
      else
        n ← ParseUint0 (if Ascii.eqb c (char 43) then l else c :: l);
        if (n <? 2 ^ 63)%Z then Some n else None
  end.

(** [strconv.ParseBool] *)
Definition ParseBool (s : string) : option bool :=
  if bool_decide (s ∈ ["1"; "t"; "T"; "TRUE"; "true"; "True"]%string) then Some true
  else if bool_decide (s ∈ ["0"; "f"; "F"; "FALSE"; "false"; "False"]%string) then Some false
  else None.

(** ** Flag sets *)

(** The [flag.Value] of a declared flag. *)
Inductive flag_value := FString (s : string) | FInt (n : Z) | FFloat (x : float64) | FDuration (d : Z) | FBool (b : bool).

(** The declared flags, with their present values. *)
Definition flag_set : Type := gmap string flag_value.

(** [ParseFloat(s, 64)] and [ParseDuration]. *)
Class NumberSyntax := { ParseFloat : string -> option float64; ParseDuration : string -> option Z }.

Inductive flag_error :=
  | BadSyntax (s : string) | NotDefined (name : string) | HelpAsked | NeedsArgument (name : string) | BadValue (name value : string).

(** What an argument is: a flag, with its value after an equals sign if it has
    one; the end of the flags; or malformed. *)
Inductive argument := NotFlag | Terminator | FlagArg (name : string) (value : option string) | Malformed.

Definition dash : ascii := char 45.
Definition to_string (l : text) : string := String.string_of_list_ascii l.

Definition flag_name (l : text) : argument :=
  match l with
  | [] => Malformed
  | c :: r =>
      if Ascii.eqb c dash || Ascii.eqb c equals then Malformed
      else let '(a, b, ok) := cut_chars equals r in FlagArg (to_string (c :: a)) (if ok then Some (to_string b) else None)
  end.
Definition classify (s : string) : argument :=
  match String.list_ascii_of_string s with
  | d :: c :: l =>
      if Ascii.eqb d dash then
        if Ascii.eqb c dash then match l with [] => Terminator | _ => flag_name l end else flag_name (c :: l)
      else NotFlag
  | _ => NotFlag
  end.

Section parse.
Context `{NumberSyntax}.

(** [Value.Set] *)
Definition set_value (v : flag_value) (s : string) : option flag_value :=
  match v with
  | FString _ => Some (FString s)
  | FInt _ => n ← ParseInt0 s; Some (FInt n)
  | FFloat _ => x ← ParseFloat s; Some (FFloat x)
  | FDuration _ => d ← ParseDuration s; Some (FDuration d)
  | FBool _ => b ← ParseBool s; Some (FBool b)
  end.

(** The flag set with a flag set, and the rest of the arguments. *)
Definition set_flag (fs : flag_set) (name s : string) (v : flag_value) : flag_error + flag_set :=
  match set_value v s with
  | Some v => inr (<[name := v]> fs)
  | None => inl (BadValue name s)
  end.

(** [FlagSet.Parse]: the values, and the arguments that are not flags. *)
Fixpoint Parse (fs : flag_set) (args : list string) : flag_error + flag_set * list string :=
  match args with
  | [] => inr (fs, [])
  | s :: rest =>
      match classify s with
      | NotFlag => inr (fs, args)
      | Terminator => inr (fs, rest)
      | Malformed => inl (BadSyntax s)
      | FlagArg name value =>
          match fs !! name with
          | None => inl (if bool_decide (name ∈ ["help"; "h"]%string) then HelpAsked else NotDefined name)
          | Some (FBool b) =>
              match set_flag fs name (default "true"%string value) (FBool b) with
              | inl e => inl e
              | inr fs => Parse fs rest
              end
          | Some v =>
              match value, rest with
              | Some s, _ => match set_flag fs name s v with inl e => inl e | inr fs => Parse fs rest end
              | None, s :: rest => match set_flag fs name s v with inl e => inl e | inr fs => Parse fs rest end
              | None, [] => inl (NeedsArgument name)
              end
          end
      end
  end.

(** [flag.Parse] exits on an error: the exit code. *)
Definition parse_exit (e : flag_error) : Z := match e with HelpAsked => 0 | _ => 2 end.

(** ** Lemmas *)

(** A name that is written with one dash. *)
Definition plain_name (name : string) : Prop := classify (String dash name) = FlagArg name None.

Lemma Parse_value fs name v0 v1 s rest :
  plain_name name -> fs !! name = Some v0 -> (forall b, v0 <> FBool b) -> set_value v0 s = Some v1 ->
  Parse fs (String dash name :: s :: rest) = Parse (<[name := v1]> fs) rest.
Proof.
  intros Hn Hv Hb Hs. cbn [Parse]. rewrite Hn, Hv. unfold set_flag. rewrite Hs.
  destruct v0; try done. by destruct (Hb b).
Qed.

Lemma Parse_switch fs name b rest :
  plain_name name -> fs !! name = Some (FBool b) ->
  Parse fs (String dash name :: rest) = Parse (<[name := FBool true]> fs) rest.
Proof. intros Hn Hv. cbn [Parse]. by rewrite Hn, Hv. Qed.
End parse.

(** A positive number does not begin with a zero. *)
Lemma pretty_go_head x s :
  (0 < x)%N -> exists c l, String.list_ascii_of_string (pretty_N_go x s) = c :: l /\ c <> zero_char.
Proof.
  revert s. induction x as [x IH] using (well_founded_induction N.lt_wf_0). intros s Hx.
  rewrite pretty_N_go_step by done. destruct (decide (x / 10 = 0)%N) as [E|E].
  - rewrite E, pretty_N_go_0. eexists _, _. split; [reflexivity|].
    apply N.div_small_iff in E; [|lia]. rewrite N.mod_small by lia.
    assert (x = 1 \/ x = 2 \/ x = 3 \/ x = 4 \/ x = 5 \/ x = 6 \/ x = 7 \/ x = 8 \/ x = 9)%N by lia.
    by repeat (destruct_or!; subst).
  - apply IH; [apply N.div_lt; lia|by apply N.neq_0_lt_0].
Qed.

Lemma base_digits_decimal acc l n :
  (forall c, c ∈ l -> is_Some (digit c)) -> digits acc l = Some n -> base_digits 10 acc l = Some n.
Proof.
  revert acc. induction l as [|c l IH]; intros acc Hl; cbn; [done|].
  destruct (Hl c) as [d Hd]; [by left|]. rewrite Hd. unfold any_digit. rewrite Hd. cbn [mbind option_bind].
  destruct (Ascii.eqb_spec c underscore) as [->|_]; [done|].
  destruct (Z.leb_spec 10 d) as [Hle|_].
  { unfold digit in Hd. case_match eqn:Eb; [|done]. apply andb_prop in Eb as [?%Z.leb_le ?%Z.leb_le]. simplify_eq. lia. }
  apply IH. intros c' Hc'. apply Hl. by right.
Qed.

Lemma ParseUint0_decimal n : (0 < n < 2 ^ 64)%Z -> ParseUint0 (decimal n) = Some n.
Proof.
  intros [Hn Hlt]. destruct (decimal_spec n Hn) as (Hne & Hd & Hv).
  destruct (pretty_go_head (Z.to_N n) "") as (c & l & Hc & Hz); [lia|].
  assert (Hdec : decimal n = c :: l).
  { unfold decimal, pretty, pretty_N. rewrite decide_False by lia. exact Hc. }
  rewrite Hdec in *. unfold ParseUint0, base_of. rewrite (proj2 (Ascii.eqb_neq _ _)) by done.
  unfold parse_uint in Hv. rewrite (base_digits_decimal 0 _ n Hd Hv). cbn [mbind option_bind].
  rewrite (proj2 (Z.leb_gt _ _)) by lia. rewrite bool_decide_eq_false_2; [done|]. intros Hu%Hd. by destruct Hu.
Qed.

(** An integer flag is read back as it was printed. *)
Lemma ParseInt0_pretty (n : Z) : in_i64 n -> ParseInt0 (pretty n) = Some n.
Proof.
  unfold in_i64. intros Hn. destruct n as [|p|p]; [done|..].
  - change (pretty (Z.pos p)) with (pretty (Z.to_N (Z.pos p))). unfold ParseInt0.
    pose proof (ParseUint0_decimal (Z.pos p)) as Hp. destruct (decimal_spec (Z.pos p)) as (Hne & Hd & _); [lia|].
    unfold decimal in *. destruct (String.list_ascii_of_string _) as [|c l]; [done|].
    assert (Hc : is_Some (digit c)) by (apply Hd; by left).
    rewrite !(proj2 (Ascii.eqb_neq _ _)) by by apply digit_ne. rewrite Hp by lia. cbn [mbind option_bind].
    by rewrite (proj2 (Z.ltb_lt _ _)) by lia.
  - change (pretty (Z.neg p)) with (String dash (pretty (Z.to_N (Z.pos p)))). unfold ParseInt0. cbn [String.list_ascii_of_string].
    change (String.list_ascii_of_string (pretty (Z.to_N (Z.pos p)))) with (decimal (Z.pos p)).
    rewrite ParseUint0_decimal by lia. cbn [mbind option_bind].
    by rewrite (proj2 (Z.leb_le _ _)) by lia.
Qed.
