(* ===== verification/Commands.v ===== *)
(** The three programs and their command lines: the flags [src/cmd/cache-server],
    [src/cmd/loadgen] and [src/cmd/chaos] declare, the order in which the [main] of
    the last two gets ready, and the command lines the chaos driver gives the
    others.

    The theorems compose the programs: a node the driver launches parses its
    arguments into the flags the driver means, and starts up and registers under
    them ([launched_node_joins]); the load it starts verifies
    ([launched_load_verifies]); and nothing is launched before etcd has answered
    ([prepare_exact]). *)

From S2P Require Import Prelude Text Bytes Float64 Policy Lru Store Evictor Server Ring Router Coord Replicator Node Loadgen Workload Run LoadMain Chaos Flags.

(** ** Reading a flag set *)

Definition get_string (fs : flag_set) (name : string) : string := match fs !! name with Some (FString s) => s | _ => "" end.
Definition get_int (fs : flag_set) (name : string) : Z := match fs !! name with Some (FInt n) => n | _ => 0 end.
Definition get_float (fs : flag_set) (name : string) : float64 := match fs !! name with Some (FFloat x) => x | _ => f64_0 end.
Definition get_duration (fs : flag_set) (name : string) : Z := match fs !! name with Some (FDuration d) => d | _ => 0 end.
Definition get_bool (fs : flag_set) (name : string) : bool := match fs !! name with Some (FBool b) => b | _ => false end.

(** ** [cache-server] *)

(** The flags declared, with their defaults. *)
Definition server_flag_set : flag_set := list_to_map
  [("addr", FString ":50051"); ("advertise", FString ""); ("etcd", FString ""); ("node-id", FString "");
   ("lease-ttl", FInt 10); ("rf", FInt 2); ("spot", FBool false); ("max-bytes", FInt 0);
   ("hi-water", FFloat (hundredths 90)); ("lo-water", FFloat (hundredths 75)); ("ttl", FDuration 0);
   ("evict-sweep", FDuration (30 * Second)); ("eviction", FString "lru"); ("tenant-quota", FString "");
   ("fairness-weight", FFloat f64_0); ("metrics-addr", FString ":9090"); ("cold-bucket", FString "")]%string.
Definition server_flags (fs : flag_set) : Node.flags :=
  Node.mk_flags (get_string fs "addr") (get_string fs "advertise") (get_string fs "etcd") (get_string fs "node-id")
    (get_int fs "lease-ttl") (get_int fs "rf") (get_bool fs "spot") (get_int fs "max-bytes")
    (get_float fs "hi-water") (get_float fs "lo-water") (get_duration fs "ttl") (get_duration fs "evict-sweep")
    (get_string fs "eviction") (get_string fs "tenant-quota") (get_float fs "fairness-weight")
    (get_string fs "metrics-addr") (get_string fs "cold-bucket").

(** ** [loadgen] *)

Definition loadgen_flag_set : flag_set := list_to_map
  [("members", FString "localhost:50051"); ("etcd", FString ""); ("payload-bytes", FInt 2097152); ("block-tokens", FInt 16);
   ("prefix-share", FFloat (hundredths 80)); ("concurrency", FInt 8); ("requests", FInt 200); ("duration", FDuration 0);
   ("stats-every", FDuration 0); ("verify", FBool false); ("prefix-blocks", FInt 8); ("tail-blocks", FInt 2);
   ("model", FString "tinyllama-1.1b"); ("seed", FInt 1); ("trace", FString ""); ("multitenant", FBool false);
   ("verify-coldtier", FBool false); ("coldtier-blocks", FInt 0); ("coldtier-settle", FDuration (3 * Second))]%string.

(** The flags of a run; those that shape the traffic are [LoadMain.flags]. *)
Record command := mk_command {
  cm_members : string;
  cm_etcd : string;
  cm_concurrency : Z;
  cm_requests : Z;
  cm_duration : Z;
  cm_statsEvery : Z;
  cm_traffic : LoadMain.flags;
  cm_trace : string;
  cm_verifyColdtier : bool;
  cm_coldtierBlocks : Z;
  cm_coldtierSettle : Z;
}.
Definition loadgen_flags (fs : flag_set) : command :=
  mk_command (get_string fs "members") (get_string fs "etcd") (get_int fs "concurrency") (get_int fs "requests")
    (get_duration fs "duration") (get_duration fs "stats-every")
    (LoadMain.mk_flags (get_int fs "payload-bytes") (get_int fs "block-tokens")
       (get_float fs "prefix-share") (get_bool fs "verify") (get_int fs "prefix-blocks")
       (get_int fs "tail-blocks") (get_string fs "model") (get_int fs "seed")
       (bool_decide (get_string fs "trace" <> "")) (get_bool fs "multitenant"))
    (get_string fs "trace") (get_bool fs "verify-coldtier") (get_int fs "coldtier-blocks") (get_duration fs "coldtier-settle").

(** What [main] has when it gets to the requests: the cold-tier check's router; or
    the router, the traffic and the deadline of the workers.  It may also have
    ended in [log.Fatal] or a panic of [make], or be waiting for members. *)
Inductive ready := Fatal (f : LoadMain.fatal) | StillWaiting | Coldtier (r : Router) | Traffic (r : Router) (w : traffic) (deadline : option Z).

Section loadgen.
Context `{SortSlice} `{Dialer} (rg : PoolRange) {G : Type} `{RandSource G} `{JsonDecoder} (rng : Z -> G).

(** The membership driver the flags choose; [evs] is what the etcd one receives. *)
Definition membership (cm : command) (evs : list ready_event) (r : Router) : option (LoadMain.fatal + Router) :=
  if bool_decide (cm_etcd cm <> "") then
    match startEtcdMembership rg evs r with
    | Ready r _ => Some (inr r)
    | GaveUp f => Some (inl f)
    | Waiting _ => None
    end
  else Some (static_membership rg (cm_members cm) r).

(** [main] up to the workers; [start] and [now] are its two readings of the clock. *)
Definition loadgen_main (cm : command) (evs : list ready_event) (tf : option trace_file) (start now : Z) : option ready :=
  r ← Router.New ringVnodes;
  match membership cm evs r with
  | None => Some StillWaiting
  | Some (inl f) => Some (Fatal f)
  | Some (inr r) =>
      if cm_verifyColdtier cm then
        Some (if (cm_coldtierBlocks cm <=? 0)%Z then Fatal NeedColdtierBlocks else Coldtier r)
      else
        Some match main_traffic rng (cm_traffic cm) tf start with
             | inl f => Fatal f
             | inr w => Traffic r w (if (0 <? cm_duration cm)%Z then Some (now + cm_duration cm)%Z else None)
             end
  end.
End loadgen.

(** ** [chaos] *)

Definition chaos_flag_set : flag_set := list_to_map
  [("nodes", FInt 3); ("etcd", FString "localhost:2379"); ("base-port", FInt 50051); ("base-metrics-port", FInt 9100);
   ("rf", FInt 2); ("lease-ttl", FInt 5); ("max-bytes", FInt 0); ("duration", FDuration (60 * Second));
   ("kill-every", FDuration (15 * Second)); ("down-time", FDuration (8 * Second)); ("concurrency", FInt 8);
   ("payload-bytes", FInt 262144); ("prefix-share", FFloat (hundredths 80)); ("seed", FInt 1)]%string.

Record campaign := mk_campaign {
  ch_nodes : Z;
  ch_config : config;
  ch_duration : Z;
  ch_killEvery : Z;
  ch_downTime : Z;
  ch_concurrency : Z;
  ch_payloadBytes : Z;
  ch_prefixShare : float64;
  ch_seed : Z;
}.
Definition chaos_flags (fs : flag_set) : campaign :=
  mk_campaign (get_int fs "nodes")
    (mk_config (get_string fs "etcd") (get_int fs "rf") (get_int fs "lease-ttl") (get_int fs "max-bytes")
       (get_int fs "base-port") (get_int fs "base-metrics-port"))
    (get_duration fs "duration") (get_duration fs "kill-every") (get_duration fs "down-time") (get_int fs "concurrency")
    (get_int fs "payload-bytes") (get_float fs "prefix-share") (get_int fs "seed").

(** The load's command line; [duration] and [share] are the two flags printed. *)
Definition load_args (ch : campaign) (duration share : string) : list string :=
  ["-etcd"; etcd (ch_config ch); "-verify"; "-duration"; duration; "-stats-every"; "2s";
   "-concurrency"; pretty (ch_concurrency ch); "-payload-bytes"; pretty (ch_payloadBytes ch); "-prefix-share"; share]%string.

(** [exeName], with [runtime.GOOS]. *)
Definition exeName (GOOS base : string) : string := if String.eqb GOOS "windows" then base +:+ ".exe" else base.

Section prepare.
Context {Conn : Type}.

(** What [main] does outside before it launches anything. *)
Inductive chaos_effect := Warned | EtcdCalled (c : client_call Conn) | MadeTempDir | Built (pkg out : string).
Inductive chaos_fatal := NeedNodes | EtcdUnreachable | NoTempDir | BuildFailed (pkg : string).

(** What the outside answers: etcd's connection and its [Get], the directory made,
    whether each package builds; and [filepath.Join]. *)
Record outside := mk_outside {
  os_conn : option Conn;
  os_get : bool;
  os_tempdir : option string;
  os_build : string -> bool;
  os_goos : string;
  os_join : string -> string -> string;
}.

(** [pingEtcd] *)
Definition pingEtcd (o : outside) (endpoints : string) : bool * list (client_call Conn) :=
  let '(cli, dialed) := Dial (splitCSV endpoints) (5 * Second) (os_conn o) in
  match cli with
  | None => (false, dialed)
  | Some cli => let '(ok, pinged) := Ping cli (os_get o) in (ok, dialed ++ pinged ++ Close cli)
  end.

(** [main] up to the launch. *)
Definition prepare (o : outside) (ch : campaign) : (chaos_fatal + world) * list chaos_effect :=
  if (ch_nodes ch <? 1)%Z then (inl NeedNodes, [])
  else
    let warned := if (ch_nodes ch <=? cf_rf (ch_config ch))%Z then [Warned] else [] in
    let '(ok, calls) := pingEtcd o (etcd (ch_config ch)) in
    let done := warned ++ (EtcdCalled <$> calls) in
    if negb ok then (inl EtcdUnreachable, done)
    else
      match os_tempdir o with
      | None => (inl NoTempDir, done ++ [MadeTempDir])
      | Some dir =>
          let build pkg base := Built pkg (os_join o dir (exeName (os_goos o) base)) in
          let server := build "./cmd/cache-server"%string "cache-server"%string in
          let loadgen := build "./cmd/loadgen"%string "loadgen"%string in
          if negb (os_build o "./cmd/cache-server") then (inl (BuildFailed "./cmd/cache-server"), done ++ [MadeTempDir; server])
          else if negb (os_build o "./cmd/loadgen") then (inl (BuildFailed "./cmd/loadgen"), done ++ [MadeTempDir; server; loadgen])
          else (inr begin, done ++ [MadeTempDir; server; loadgen])
      end.
End prepare.
#[global] Arguments chaos_effect : clear implicits.
#[global] Arguments outside : clear implicits.

(** ** What a command line means *)

Section launched.
Context `{NumberSyntax}.

(** The flags of a node the driver starts, and of the load. *)
Definition launched_flags (cf : config) (i : nat) : flag_error + Node.flags :=
  match Parse server_flag_set (node_args cf i) with
  | inl e => inl e
  | inr (fs, _) => inr (server_flags fs)
  end.
Definition launched_load (ch : campaign) (duration share : string) : flag_error + command :=
  match Parse loadgen_flag_set (load_args ch duration share) with
  | inl e => inl e
  | inr (fs, _) => inr (loadgen_flags fs)
  end.

(** Flags with integer values that fit. *)
Definition config_ok (cf : config) : Prop := in_i64 (cf_rf cf) /\ in_i64 (leaseTTL cf) /\ in_i64 (maxBytes cf).

(** One value flag of a concrete name. *)
Ltac parse_flag name v1 :=
  erewrite (Parse_value _ name _ v1);
  [|reflexivity|repeat (rewrite lookup_insert_ne by discriminate); reflexivity|intros ?; discriminate
   |try reflexivity; unfold set_value; rewrite ParseInt0_pretty by assumption; reflexivity].
(** A flag of the resulting set. *)
Ltac read_flag := unfold get_string, get_int, get_float, get_duration, get_bool;
  repeat (rewrite lookup_insert_ne by discriminate); rewrite ?lookup_insert_eq; reflexivity.

Lemma launched_flags_exact cf i :
  config_ok cf ->
  launched_flags cf i
  = inr (Node.mk_flags (port_address (basePort cf + Z.of_nat i)) ("localhost" +:+ port_address (basePort cf + Z.of_nat i))
      (etcd cf) (node_name i) (leaseTTL cf) (cf_rf cf) false (maxBytes cf) (hundredths 90) (hundredths 75) 0 (30 * Second)
      "lru" "" f64_0 (port_address (baseMetricsPort cf + Z.of_nat i)) "").
Proof.
  intros (Hrf & Httl & Hmax). unfold launched_flags, node_args.
  set (p := port_address _). set (m := port_address (baseMetricsPort cf + Z.of_nat i)).
  parse_flag "addr"%string (FString p).
  parse_flag "advertise"%string (FString ("localhost" +:+ p)).
  parse_flag "node-id"%string (FString (node_name i)).
  parse_flag "etcd"%string (FString (etcd cf)).
  parse_flag "rf"%string (FInt (cf_rf cf)).
  parse_flag "lease-ttl"%string (FInt (leaseTTL cf)).
  parse_flag "max-bytes"%string (FInt (maxBytes cf)).
  parse_flag "metrics-addr"%string (FString m).
  cbn [Parse]. unfold server_flags. do 2 f_equal; read_flag.
Qed.

Lemma launched_load_exact ch duration share :
  in_i64 (ch_concurrency ch) -> in_i64 (ch_payloadBytes ch) ->
  ParseDuration duration = Some (ch_duration ch) -> ParseDuration "2s" = Some (2 * Second)%Z ->
  ParseFloat share = Some (ch_prefixShare ch) ->
  launched_load ch duration share
  = inr (mk_command "localhost:50051" (etcd (ch_config ch)) (ch_concurrency ch) 200 (ch_duration ch) (2 * Second)
      (LoadMain.mk_flags (ch_payloadBytes ch) 16 (ch_prefixShare ch) true 8 2
         "tinyllama-1.1b" 1 false false) "" false 0 (3 * Second)).
Proof.
  intros Hc Hp Hd H2 Hs. unfold launched_load, load_args.
  parse_flag "etcd"%string (FString (etcd (ch_config ch))).
  rewrite (Parse_switch _ "verify"%string false) by reflexivity.
  erewrite (Parse_value _ "duration"%string _ (FDuration (ch_duration ch))); [|reflexivity|reflexivity|done|by cbn; rewrite Hd].
  erewrite (Parse_value _ "stats-every"%string _ (FDuration (2 * Second))); [|reflexivity|reflexivity|done|cbn -[Z.mul]; by rewrite H2].
  parse_flag "concurrency"%string (FInt (ch_concurrency ch)).
  parse_flag "payload-bytes"%string (FInt (ch_payloadBytes ch)).
  erewrite (Parse_value _ "prefix-share"%string _ (FFloat (ch_prefixShare ch))); [|reflexivity|reflexivity|done|by cbn; rewrite Hs].
  cbn [Parse]. unfold loadgen_flags. do 2 f_equal; read_flag.
Qed.
End launched.

(** ** Properties *)

(** C40. A node the driver launches joins under its own name: whatever ports, factor,
    lease and bound the driver runs with, the node's arguments are read back as
    meant, it starts up, and asks etcd for a lease of the driver's TTL, for the key
    of its own index with an address made of its own port, and for the keep-alive;
    it replicates exactly if the factor exceeds one; and no other index has the
    same key or address. *)
Theorem launched_node_joins `{NumberSyntax} {T} cf i e (t : T) l :
  config_ok cf -> etcd cf <> ""%string ->
  dial_ok e = true -> lease e = Some l -> put_ok e = true -> keepalive_ok e = true -> watch_ok e = true -> listen_ok e = true ->
  let adv := "localhost" +:+ port_address (basePort cf + Z.of_nat i) in
  exists fl nd,
    launched_flags cf i = inr fl
    /\ startup e fl t = (inr nd, [Grant (leaseTTL cf); PutUnder (memberKey (node_name i)) adv l; KeepAlive l])
    /\ nd_id nd = node_name i /\ nd_adv nd = adv
    /\ (is_Some (nd_repl nd) <-> (1 < cf_rf cf)%Z)
    /\ store (nd_server nd) = NewStore (PLru NewLRU) [WithMaxBytes (maxBytes cf); WithWatermarks (hundredths 90) (hundredths 75)]
    /\ forall j, j <> i ->
         memberKey (node_name j) <> memberKey (node_name i)
         /\ "localhost" +:+ port_address (basePort cf + Z.of_nat j) <> adv.
Proof.
  intros Hcf He Hdial Hl Hput Hka Hwatch Hlisten adv. rewrite launched_flags_exact by done.
  assert (Hw : watermarks_ok (hundredths 90) (hundredths 75) = true) by (vm_compute; reflexivity).
  assert (Hclash : forall j, j <> i -> memberKey (node_name j) <> memberKey (node_name i)
    /\ "localhost" +:+ port_address (basePort cf + Z.of_nat j) <> adv).
  { intros j Hj. split; [intros Hk%memberKey_inj|intros Ha]; apply Hj.
    - apply (nodes_do_not_clash cf _ _ 5); [auto|]. cbn. by rewrite Hk.
    - apply (nodes_do_not_clash cf _ _ 3); [auto|]. cbn. by f_equal. }
  assert (Hadv : adv <> ""%string) by done. assert (Hid : node_name i <> ""%string) by done.
  destruct (Z.ltb_spec 1 (cf_rf cf)) as [Hrf|Hrf]; eexists _, _; (split; [reflexivity|]);
    unfold startup, choose_policy, join_cluster, node_id, advertised;
    cbn [Node.maxBytes fl_hiWater fl_loWater eviction etcdEndpoints Node.rf fl_ttl evictSweep Node.leaseTTL
      advertise nodeID Node.addr String.eqb Ascii.eqb Bool.eqb];
    rewrite Hw, !(bool_decide_eq_false_2 _ Hid), !(bool_decide_eq_false_2 _ Hadv), (bool_decide_eq_false_2 _ He),
      Hdial, Hl, Hput, Hka, Hlisten, andb_false_r.
  - rewrite (proj2 (Z.ltb_lt _ _) Hrf), Hwatch. split; [reflexivity|]. split_and!; [done|done| |done|done]. split; [done|by eexists].
  - rewrite (proj2 (Z.ltb_ge _ _) Hrf). split; [reflexivity|]. split_and!; [done|done| |done|done].
    split; [by intros []|cbn; lia].
Qed.

(** The load the driver starts is the one that verifies: its arguments are read
    back as meant, [-verify] and all, so that it finds its members through the
    driver's etcd, runs for the driver's duration, and, once there are members,
    sends the synthetic traffic with the oracle on; it exits with 1 exactly if its
    report counts a violation. *)
Theorem launched_load_verifies `{NumberSyntax} `{SortSlice} `{Dialer} {G : Type} `{RandSource G} `{JsonDecoder}
    rg (rng : Z -> G) ch duration share snap evs tf start now rs :
  in_i64 (ch_concurrency ch) -> in_i64 (ch_payloadBytes ch) -> (0 < ch_duration ch)%Z -> etcd (ch_config ch) <> ""%string ->
  ParseDuration duration = Some (ch_duration ch) -> ParseDuration "2s" = Some (2 * Second)%Z ->
  ParseFloat share = Some (ch_prefixShare ch) -> snap <> [] ->
  exists cm w r0 r,
    launched_load ch duration share = inr cm /\ cm_concurrency cm = ch_concurrency ch
    /\ Router.New ringVnodes = Some r0 /\ r = SetMembers rg snap r0
    /\ loadgen_main rg rng cm (Snapshot snap :: evs) tf start now = Some (Traffic r w (Some (now + ch_duration ch)%Z))
    /\ verify (tw w) = true /\ make_payload w = ch_payloadBytes ch /\ prefixShare w = ch_prefixShare ch
    /\ (exit_code (verify (tw w)) rs = 1%Z <-> (0 < (report rs).2)%Z).
Proof.
  intros Hc Hp Hd He HD HD2 Hs Hsnap. rewrite (launched_load_exact ch duration share Hc Hp HD HD2 Hs).
  eexists _, _, _, _. split; [reflexivity|]. split; [reflexivity|]. split; [reflexivity|]. split; [reflexivity|].
  unfold loadgen_main, membership. cbn [cm_etcd cm_verifyColdtier cm_duration cm_traffic]. rewrite (bool_decide_eq_true_2 _ He).
  destruct snap as [|m snap]; [done|]. cbn [startEtcdMembership]. rewrite (proj2 (Z.ltb_lt _ _) Hd).
  split; [reflexivity|]. split; [reflexivity|]. split; [reflexivity|]. split; [reflexivity|].
  cbn [verify tw]. unfold exit_code. cbn [andb]. destruct (Z.ltb_spec 0 (report rs).2); split; (done || lia).
Qed.

(** Before the launch: [main] goes on exactly if at least one node is asked for,
    etcd can be dialed and answers, a directory is made and both packages build;
    nothing is built unless etcd answered, the connection is closed whatever it
    answered, and then both binaries have been built, in that directory. *)
Theorem prepare_exact {Conn} (o : outside Conn) ch :
  let '(res, effects) := prepare o ch in
  (res = inr begin <->
     (1 <= ch_nodes ch)%Z /\ is_Some (os_conn o) /\ os_get o = true /\ is_Some (os_tempdir o)
     /\ os_build o "./cmd/cache-server" = true /\ os_build o "./cmd/loadgen" = true)
  /\ (forall w, res = inr w -> w = begin)
  /\ (forall pkg out, Built pkg out ∈ effects -> os_get o = true /\ is_Some (os_conn o))
  /\ (forall c, os_conn o = Some c -> (1 <= ch_nodes ch)%Z -> EtcdCalled (CClose c) ∈ effects)
  /\ (forall w, res = inr w -> exists dir, os_tempdir o = Some dir
        /\ Built "./cmd/cache-server" (os_join o dir (exeName (os_goos o) "cache-server")) ∈ effects
        /\ Built "./cmd/loadgen" (os_join o dir (exeName (os_goos o) "loadgen")) ∈ effects).
Proof.
  unfold prepare, pingEtcd, Dial, Ping, Close.
  destruct (Z.ltb_spec (ch_nodes ch) 1) as [Hn|Hn].
  { split_and!; [split; [done|lia]|done|set_solver|lia|done]. }
  set (warned := if (_ <=? _)%Z then _ else _).
  assert (Hwarned : forall x, x ∈ warned -> x = Warned) by (unfold warned; case_match; set_solver).
  assert (Hnone : forall (x : chaos_effect Conn) l, x ∈ warned ++ l -> x = Warned \/ x ∈ l) by (intros x l [?%Hwarned|?]%elem_of_app; auto).
  assert (Hsome : forall (x : chaos_effect Conn) l, x ∈ l -> x ∈ warned ++ l) by (intros; apply elem_of_app; auto).
  destruct (os_conn o) as [c|] eqn:Ec; cbn [negb app fmap list_fmap].
  - destruct (os_get o) eqn:Eg; cbn [negb].
    + destruct (os_tempdir o) as [dir|] eqn:Et;
        [destruct (os_build o "./cmd/cache-server") eqn:E1; cbn [negb]; [destruct (os_build o "./cmd/loadgen") eqn:E2; cbn [negb]|]|];
        rewrite <- ?app_assoc; (split_and!; [split; [|try naive_solver]; intros; simplify_eq/=; by split_and!
                     |naive_solver|by eauto|intros ? [= <-] _; apply Hsome; set_solver|]); try done.
      intros w _. exists dir. split; [done|]. split; apply Hsome; set_solver.
    + split_and!; [split; [done|naive_solver]|done| |intros ? [= <-] _; apply Hsome; set_solver|done].
      intros pkg out [?|Hin]%Hnone; [done|]. set_solver.
  - split_and!; [split; [done|by intros (_ & [] & _)]|done| |done|done].
    intros pkg out [?|Hin]%Hnone; [done|]. set_solver.
Qed.

(** ** Witnesses *)

(** The driver with its default flags, and the spellings its load's flags have. *)
Definition w_numbers : NumberSyntax := {|
  ParseFloat s := if String.eqb s "0.8" then Some (hundredths 80) else None;
  ParseDuration s := if String.eqb s "2s" then Some (2 * Second)%Z else if String.eqb s "1m0s" then Some (60 * Second)%Z else None;
|}.
Definition w_campaign : campaign := chaos_flags chaos_flag_set.

Example default_campaign :
  ch_nodes w_campaign = 3%Z /\ ch_config w_campaign = mk_config "localhost:2379" 2 5 0 50051 9100 /\ ch_duration w_campaign = (60 * Second)%Z.
Proof. vm_compute. auto. Qed.

Lemma launched_node_joins_witness :
  exists fl, @launched_flags w_numbers (ch_config w_campaign) 2 = inr fl /\ nodeID fl = "chaos-2"%string.
Proof.
  destruct (@launched_node_joins w_numbers unit (ch_config w_campaign) 2 w_env tt 7) as (fl & nd & Hfl & _).
  - unfold config_ok, in_i64; split_and!; vm_compute; first [discriminate|reflexivity].
  - discriminate.
  - reflexivity.
  - reflexivity.
  - reflexivity.
  - reflexivity.
  - reflexivity.
  - reflexivity.
  - exists fl. split; [exact Hfl|]. rewrite launched_flags_exact in Hfl; [injection Hfl as <-; reflexivity|].
    unfold config_ok, in_i64; split_and!; vm_compute; first [discriminate|reflexivity].
Defined.

Lemma launched_load_verifies_witness :
  exists cm, @launched_load w_numbers w_campaign "1m0s" "0.8" = inr cm /\ cm_concurrency cm = 8%Z.
Proof.
  destruct (@launched_load_verifies w_numbers merge_SortSlice w_dialer unit least_rand w_decoder w_range (fun _ => tt) w_campaign
    "1m0s" "0.8" [mk_member "chaos-0" "localhost:50051"] [] None 0 0 []) as (cm & w & r0 & r & Hcm & Hc & _).
  - split; vm_compute; first [discriminate|reflexivity].
  - split; vm_compute; first [discriminate|reflexivity].
  - reflexivity.
  - discriminate.
  - reflexivity.
  - reflexivity.
  - reflexivity.
  - discriminate.
  - exists cm. split; [exact Hcm|exact Hc].
Defined.
